(* ===== verification/_CoqProject ===== *)
-Q . S2P
Prelude.v
BumpBuf.v
External.v
Concrete.v
Hp.v
Node.v
Mpt.v
Trie.v
TrieLaws.v
Canon.v
TrieHash.v
MptRefine.v
MptHash.v
MptSpec.v
PrintTrie.v
TrieMap.v
View.v
Stateless.v
Codec.v
CodecLaws.v
TrieBounds.v
Decode.v
Frontier.v
Reads.v
FrontierSpec.v
FrontierLaws.v
FrontierSamples.v
Owned.v
Growth.v
Expand.v
ProofNodes.v
Evm.v
ConcreteEvm.v
State.v
StateSpec.v
UpdateOrder.v
Samples.v
Client.v
Streaming.v
ClientSpec.v
FromProof.v
ResolveSpec.v
ProofStore.v
FromProofSpec.v
TransitionSpec.v
Loose.v
OrphanSpec.v
WitnessUpdate.v
Resolver.v
ResolverSpec.v
PayloadSpec.v
StreamSpec.v
ChunkSpec.v
StreamUpdateSpec.v
Handover.v
Executor.v
Execute.v
ExecuteStream.v
Hints.v
Rpc.v
RpcSpec.v
Replay.v
HostProofs.v
ExecuteSpec.v
ExecuteStreamSpec.v
Guest.v
HintsSpec.v
HintsFeed.v
HostSpec.v
ClientSamples.v
FromProofSamples.v
StreamSamples.v
RpcSamples.v
