(* ===== verification/Prelude.v ===== *)
(** * A stateless Ethereum block executor and its Merkle Patricia tries

    The repository proves Ethereum blocks in a zkVM.  A host executes a block on an
    RPC provider, fetches Merkle proofs of what the block touches and turns them into
    a witness: the parts of the state tries and the bytecodes the block needs.  The
    guest program gets the block, the headers before it and the witness, as one value
    or as a stream of hints.  It checks the witness against the parent's state root,
    executes the block on it, applies the changes to the partial tries, and compares
    the new root with the one the block claims.  This development models the tries
    ([crates/mpt]), the client ([crates/executor/client]), the host
    ([crates/executor/host], [crates/storage/rpc-db]), the writer of the hints
    ([crates/host-bench]) and the guest ([bin/ceno-client-eth]).  It proves under
    which conditions a header the client or the guest returns is the result on the
    full state, and that the client accepts what the host makes from an honest
    provider.

    ** The files, by part of the program

    Foundations:
    - [Prelude]: results of fallible code ([outcome]: a value, an error, a panic,
      or a recursion that ran out of fuel), state passing ([machine]), indexing,
      slices, bytes and nibbles, the hint database [reth], tactics.
    - [External]: the class [Crates] of what the code takes from [alloy_rlp],
      [alloy_trie] and Keccak-256, and [CratesOk], the documented laws of it the
      proofs use.  [Concrete] is an executable instance (RLP, and Keccak-256 over
      the primitive integers) that satisfies them; the witnesses evaluate with it.
    - [BumpBuf] (bump_bufmut.rs): the byte buffer over a vector of the bump arena.

    Tries ([crates/mpt/src]):
    - [Hp] (hp.rs): nibbles and hex-prefix paths.
    - [Node] (node.rs): node data, references, the error type, cells with a
      borrow flag for [RefCell].
    - [Mpt] (trie.rs): the arena and its operations.  A node is an index; the
      reference caches are a parallel list of cells.  Recursions take fuel; a
      node of the arena is visited at most once on the way down, so one more than
      the number of nodes is enough ([mpt_fuel]), and the theorems prove it.
    - [Trie], [TrieLaws], [Canon], [TrieHash], [TrieBounds]: the same operations on
      inductive trees, their laws, canonical form, the hash of a tree, its height
      and the lengths of its encodings.
    - [MptRefine], [MptHash], [MptSpec], [TrieMap]: the arena operations are the
      tree operations, and these are operations on a finite map.
    - [PrintTrie] (trie.rs): the lines that [print_trie] writes.
    - [View], [Stateless]: a trie with some subtrees replaced by their digests is
      a view of the whole trie; operations that succeed on a view do on it what
      they do on the whole.
    - [Codec], [CodecLaws], [Decode] (trie.rs): serialization, its round trip, what
      decoding an untrusted byte string guarantees, and that the reference caches of
      any arena operations lead to are right ([reached]).
    - [Frontier], [FrontierSpec], [FrontierLaws], [FrontierSamples] (trie.rs): the
      cut of the state trie into a frontier of digests and one chunk per group of
      accounts, the replacement of a digest, and tries on which a cut goes wrong.
      [Reads]: hashing, encoding and cutting leave the nodes alone.
    - [Owned] (trie.rs): proof nodes, payloads and [MptOwned].  [Growth], [Expand],
      [ProofNodes]: adding whole trees to an arena; the part of a trie that can be
      built from a set of its nodes.
    - [Resolver], [ResolverSpec], [PayloadSpec] (resolver.rs): the trie from a store
      of nodes.
    - [FromProof] (from_proof.rs): the host's tries from the proofs before and after
      a block.  [ResolveSpec], [ProofStore], [FromProofSpec], [TransitionSpec]: what
      is built, and that it ends: below 32-byte keys a trie is at most 65 nodes
      high, and each node takes two nested calls.  [Loose], [OrphanSpec]: deletions
      that merge a branch too early, and why the added short nodes repair it.

    States ([crates/mpt/src/state.rs]):
    - [Evm]: accounts, headers, the EVM's report, the class of [alloy] and [revm]
      items, and block execution as a program of database queries ([program]),
      which a database answers ([DatabaseRef]).  [ConcreteEvm] is an instance.
    - [State], [StateSpec]: the state trie with its storage tries, the update by
      the EVM's report, and the world it stands for.  [UpdateOrder]: when the update
      succeeds, and that its order does not matter.  [Samples]: a world.
    - [WitnessUpdate]: the update on the host's tries succeeds.

    The client ([crates/executor/client/src]):
    - [Client] (io.rs, error.rs): the input, its validation, the witness database.
      [ClientSpec]: it answers what a full node answers.
    - [Executor] (capacity.rs): capacity hints and the execution of a block.
    - [Execute] (lib.rs): the block pipeline.  [ExecuteSpec]: its soundness.
    - [Streaming] (io.rs): the state that reads its witness item by item, the cell of
      the reader included.  [StreamSpec], [ChunkSpec], [StreamUpdateSpec]: what it
      has read, and that the update checks it.
    - [ExecuteStream], [ExecuteStreamSpec] (lib.rs): the pipeline over a stream.
    - [Guest] (bin/ceno-client-eth/src/main.rs): the digest the guest commits to.

    The host:
    - [Rpc] ([crates/storage/rpc-db], [crates/primitives/src/account_proof.rs],
      [crates/executor/host]): the database over a provider and the execution of a
      block on it.  [RpcSpec]: what it records; [Replay]: the client's database
      answers the same; [HostProofs]: the proofs it fetches; [HostSpec]: the client
      accepts its input.
    - [Handover] (state.rs, io.rs): the host's encoding and the client's decoding.
    - [Hints] ([crates/host-bench/src/lib.rs]): the stream of hints; [HintsSpec],
      [HintsFeed]: what they say, and that the guest can execute on them.

    [ClientSamples], [FromProofSamples], [StreamSamples] and [RpcSamples] have a
    chain, blocks, providers and a small EVM on which the theorems are applied, and
    inputs on which the program goes wrong.

    ** What the theorems show

    - Soundness of the pipelines, under conditions the code does not check:
      [execute_sound] for a whole witness, [execute_from_reader_sound] for a stream,
      [guest_commits_valid_block] for the digest the zkVM proves.  A header that is
      returned has the state root the world has after the block.  For a witness this
      needs that it covers what the block writes: a storage trie for each changed
      account that has slots, and room ([ready]), and the sibling nodes of deletions
      ([bundle_sees]).  For a stream it needs that the changes are [streamable],
      which above all excludes blocks that remove an account of the state before
      them.  The counterexamples [execute_accepts_missing_storage_trie],
      [delete_beside_unresolved_leaf_diverges] and [emptied_chunk_diverges] show that
      the claims are false without these conditions.  Below them:
      [witness_execution_is_full_execution], [block_hashes_exact],
      [bundle_update_sound_on_witness], [streaming_execution_is_full_execution],
      [streaming_update_checks_accounts], under the same conditions where they write.
    - Completeness, from an honest provider: [host_input_accepted] composes
      [recording_is_complete], [transition_proofs_complete] and
      [host_witness_completes_block]; the host's own assertion about the derived
      header follows from what the consensus checks compare ([header_checked]).  Of
      the stream, [hints_feed_execution]: the guest executes the block on the hints;
      that the update chunk by chunk then succeeds is not proved, since it need not
      (see the counterexamples about chunks).  [without_orphans_diverges] shows that
      the short nodes make the root right and what happens without them,
      [circular_proof_never_resolves] that a dishonest provider can keep the host
      busy forever, [storage_witness_after_chunk_panics] that the guest can panic on
      the host's hints where the client accepts the host's input.
    - The state update: [bundle_update_refines_world] on full tries,
      [bundle_update_order_independent] for the order of hash maps, on partial tries:
      success never depends on it, and neither does the root when deletions see their
      siblings.
    - The tries: [operations_refine_map], [insert_updates_one_key],
      [delete_removes_one_key], [caches_are_sound], [root_hash_order_independent],
      [witness_run_sound], [delete_beside_unresolved_leaf_diverges]; of the frontier
      [emptied_chunk_diverges] and [key_beside_extension_has_no_chunk].
    - Serialization: [encode_decode_roundtrip], [decoded_witness_is_authentic],
      [payloads_resolve_back], [resolver_builds_view]; of paths
      [path_encoding_roundtrip] and [path_scans_agree_with_expansion].
    - Bounds, memory and text: [capacity_hints_bounded],
      [buffer_holds_what_was_written], [print_trie_prints_the_tree].

    Hash collisions are never excluded in general: where it matters, a theorem
    assumes no collision between the strings it names.  The hypotheses on a chain
    ([block_of_chain]) and on a stream ([honest_stream], [streamable]) say that there
    is a world with the roots in the headers and that strings which are compared by
    their hashes do not collide with the true ones.  Of the changes of a block
    [streamable] says more than that:
    - the changed accounts differ and their integers are in range;
    - an account that is removed did not exist before the block ([writable_removed]);
      since EIP-6780 and EIP-161 a block removes only accounts it created, and the
      code is wrong about others ([emptied_chunk_diverges]);
    - deletions of slots see the siblings they merge with ([writable_sees]);
    - the state tries on the way, after a part of the changes in any order, are not
      empty and collide neither with the strings of the stream nor with the empty
      trie ([secure_world]);
    - the buffers of the stream and the changes fit arenas of 2^32 nodes.
    It is assumed of every report that a run on the stream can end with, a run on
    accounts the stream forged included.

    ** Conventions

    A [u8], [u64] or [U256] is an [N] with its wrap-around written out; a node id
    is an index that [add_node] takes modulo 2^32.  A [usize] is a [nat].  A
    function that takes [&mut self] is a [machine] over the structure.  An
    out-of-range index, [unwrap] on [None] and a doubly borrowed cell are panics.
    A hash map is a [gmap], and where the code iterates over one, the iteration
    order is a list that the theorems quantify over.  A recursion that the source
    does not bound (decoding, resolving from a store of nodes) takes fuel, and a
    theorem says how much is enough or that none is.

    ** Not modelled

    - The memory of bump arenas and the capacities of vectors, [BumpBuf] apart: a
      slice is its bytes.
    - [Display] and [Debug], which write text for people.
    - serde and bincode formats: a serialized value is the value it was written
      from.
    - The EVM, the consensus rules with their chain specifications, and the RPC
      provider, which are parameters.  A provider answers the same each time; the
      Tokio runtime that waits for it is left out.
    - The executor with a state hook, which nothing calls.
    - Command lines, files, proving back ends, reports, trie tools with random data
      and timing loops, and tests. *)

From stdpp Require Export prelude gmap.

#[global] Set Default Goal Selector "!".
#[export] Set Warnings "-clear-no-such-hyp,-register-all".

(** ** Machine integers

    A [u8] is an [N]; the bit operations are those of Rust on [u8], so a left
    shift drops the bits that leave the byte.  A [usize] is a [nat]; [as_u32]
    is Rust's [as u32] cast, which keeps the low 32 bits. *)

Abbreviation u8 := N.
Abbreviation bytes := (list N).

Definition is_u8 (b : u8) : Prop := (b < 256)%N.
Definition is_nibble (b : u8) : Prop := (b < 16)%N.

Definition u8_and (a b : u8) : u8 := N.land a b.
Definition u8_or (a b : u8) : u8 := N.lor a b.
Definition u8_shr (a k : u8) : u8 := N.shiftr a k.
Definition u8_shl (a k : u8) : u8 := N.land (N.shiftl a k) 255.

(** The order of byte strings, byte by byte. *)
Fixpoint bytes_le (a b : bytes) : bool :=
  match a, b with
  | [], _ => true
  | _ :: _, [] => false
  | x :: a', y :: b' => if (x <? y)%N then true else if (y <? x)%N then false else bytes_le a' b'
  end.

Declare Scope u8_scope.
Delimit Scope u8_scope with u8.
Infix "&." := u8_and (at level 40, left associativity) : u8_scope.
Infix "|." := u8_or (at level 50, left associativity) : u8_scope.
Infix ">>." := u8_shr (at level 40, left associativity) : u8_scope.
Infix "<<." := u8_shl (at level 40, left associativity) : u8_scope.

Definition u32_modulus : N := 4294967296.
Definition as_u32 (n : nat) : nat := N.to_nat (N.of_nat n `mod` u32_modulus).

(** ** Outcomes

    What a Rust function can do: return, return an error, panic, or (for a
    definition that recurses on fuel) not have finished yet. *)

Inductive panic : Type :=
  | IndexOutOfBounds
  | SliceOutOfBounds
  | UnwrapOnNone
  | UnwrapOnErr
  | LengthMismatch
  | AlreadyBorrowed
  | Unreachable
  | Unimplemented
  | AssertionFailed
  | CapacityOverflow
  | AdvanceOutOfBounds.

Inductive outcome (E A : Type) : Type :=
  | Ok (a : A)
  | Err (e : E)
  | Panic (p : panic)
  | OutOfFuel.
Arguments Ok {E A} a.
Arguments Err {E A} e.
Arguments Panic {E A} p.
Arguments OutOfFuel {E A}.

#[global] Instance panic_eq_dec : EqDecision panic.
Proof. solve_decision. Defined.
#[global] Instance outcome_eq_dec `{EqDecision E, EqDecision A} : EqDecision (outcome E A).
Proof. solve_decision. Defined.

#[global] Instance outcome_ret E : MRet (outcome E) := λ A a, Ok a.
#[global] Instance outcome_bind E : MBind (outcome E) := λ A B f m,
  match m with
  | Ok a => f a
  | Err e => Err e
  | Panic p => Panic p
  | OutOfFuel => OutOfFuel
  end.
#[global] Instance outcome_fmap E : FMap (outcome E) := λ A B f m,
  match m with
  | Ok a => Ok (f a)
  | Err e => Err e
  | Panic p => Panic p
  | OutOfFuel => OutOfFuel
  end.

Definition is_Ok {E A} (o : outcome E A) : Prop := ∃ a, o = Ok a.

Definition succeeds {E A} (o : outcome E A) : bool := match o with Ok _ => true | _ => false end.

(** The [?] operator with a [From] conversion: only the error type changes. *)
Definition map_err {E F A} (f : E → F) (o : outcome E A) : outcome F A :=
  match o with
  | Ok a => Ok a
  | Err e => Err (f e)
  | Panic p => Panic p
  | OutOfFuel => OutOfFuel
  end.

(** ** Stateful code

    [&mut self] code is a function from the state to an outcome and the state
    it leaves behind, on errors and panics too. *)

Definition machine (S E A : Type) : Type := S → outcome E A * S.

#[global] Instance machine_ret S E : MRet (machine S E) := λ A a s, (Ok a, s).
#[global] Instance machine_bind S E : MBind (machine S E) := λ A B f m s,
  match m s with
  | (Ok a, s') => f a s'
  | (Err e, s') => (Err e, s')
  | (Panic p, s') => (Panic p, s')
  | (OutOfFuel, s') => (OutOfFuel, s')
  end.

Definition get_state {S E} : machine S E S := λ s, (Ok s, s).
Definition put_state {S E} (s : S) : machine S E unit := λ _, (Ok (), s).
Definition modify {S E} (f : S → S) : machine S E unit := λ s, (Ok (), f s).
Definition lift {S E A} (o : outcome E A) : machine S E A := λ s, (o, s).
Definition throw {S E A} (e : E) : machine S E A := λ s, (Err e, s).
Definition panics {S E A} (p : panic) : machine S E A := λ s, (Panic p, s).

(** [for x in l { f(x)?; }] *)
Fixpoint for_each {S E A} (f : A → machine S E unit) (l : list A) : machine S E unit :=
  match l with
  | [] => mret ()
  | x :: l' => f x;; for_each f l'
  end.

(** [result.unwrap()] *)
Definition unwrap_machine {S E A} (f : machine S E A) : machine S E A := λ s,
  match f s with
  | (Err _, s') => (Panic UnwrapOnErr, s')
  | r => r
  end.

(** ** Checked slice accesses *)

Definition index {E A} (l : list A) (i : nat) : outcome E A :=
  match l !! i with Some x => Ok x | None => Panic IndexOutOfBounds end.

(** [&l[i..]] *)
Definition slice_from {E A} (l : list A) (i : nat) : outcome E (list A) :=
  if decide (i ≤ length l) then Ok (drop i l) else Panic SliceOutOfBounds.

(** [&l[..i]] *)
Definition slice_to {E A} (l : list A) (i : nat) : outcome E (list A) :=
  if decide (i ≤ length l) then Ok (take i l) else Panic SliceOutOfBounds.

(** [l[i] = x] on an array or vector. *)
Definition store {E A} (l : list A) (i : nat) (x : A) : outcome E (list A) :=
  if decide (i < length l) then Ok (<[i := x]> l) else Panic IndexOutOfBounds.

Definition unwrap {E A} (o : option A) : outcome E A :=
  match o with Some x => Ok x | None => Panic UnwrapOnNone end.

(** [slice.strip_prefix(prefix)] of the Rust standard library. *)
Fixpoint strip_prefix {A} `{EqDecision A} (p l : list A) : option (list A) :=
  match p, l with
  | [], _ => Some l
  | x :: p', y :: l' => if decide (x = y) then strip_prefix p' l' else None
  | _ :: _, [] => None
  end.

(** [(start..stop).step_by(step)]: the indices a counting loop visits. *)
Definition step_range (start stop step : nat) : list nat :=
  (λ k, start + k * step) <$> seq 0 ((stop - start + (step - 1)) / step).

(** ** Automation *)

Create HintDb reth discriminated.
#[export] Hint Constants Opaque : reth.
#[export] Hint Variables Transparent : reth.
Create Rewrite HintDb reth_exec.

(** Decides closed bytes, nibbles and lists of them. *)
Ltac by_computation := vm_compute; repeat constructor; try discriminate.

(** Splits every [if decide _] and every match on a variable in sight. *)
Ltac split_cases := repeat (case_decide || case_match); simplify_eq.

Section outcome_lemmas.
Context {S E : Type}.

Lemma machine_bind_ok {A B} (m : machine S E A) (f : A → machine S E B) s a s' :
  m s = (Ok a, s') → (m ≫= f) s = f a s'.
Proof. intros H. unfold mbind, machine_bind. by rewrite H. Qed.

Lemma machine_bind_err {A B} (m : machine S E A) (f : A → machine S E B) s e s' :
  m s = (Err e, s') → (m ≫= f) s = (Err e, s').
Proof. intros H. unfold mbind, machine_bind. by rewrite H. Qed.

Lemma machine_bind_panic {A B} (m : machine S E A) (f : A → machine S E B) s p s' :
  m s = (Panic p, s') → (m ≫= f) s = (Panic p, s').
Proof. intros H. unfold mbind, machine_bind. by rewrite H. Qed.

Lemma machine_bind_ret {A B} (a : A) (f : A → machine S E B) s :
  (mret a ≫= f) s = f a s.
Proof. done. Qed.

Lemma machine_bind_get {B} (f : S → machine S E B) s :
  (get_state ≫= f) s = f s s.
Proof. done. Qed.

Lemma machine_bind_modify {B} (g : S → S) (f : unit → machine S E B) s :
  (modify g ≫= f) s = f () (g s).
Proof. done. Qed.

Lemma machine_bind_put {B} t (f : unit → machine S E B) s :
  (put_state t ≫= f) s = f () t.
Proof. done. Qed.

Lemma machine_bind_lift_ok {A B} (a : A) (f : A → machine S E B) s :
  (lift (Ok a) ≫= f) s = f a s.
Proof. done. Qed.

Lemma machine_bind_bind {A B C} (m : machine S E A) (f : A → machine S E B)
    (g : B → machine S E C) s :
  ((m ≫= f) ≫= g) s = (m ≫= (λ a, f a ≫= g)) s.
Proof. unfold mbind, machine_bind. by destruct (m s) as [[] ?]. Qed.

Lemma machine_bind_inv {A B} (m : machine S E A) (f : A → machine S E B) s b s' :
  (m ≫= f) s = (Ok b, s') → ∃ a s1, m s = (Ok a, s1) ∧ f a s1 = (Ok b, s').
Proof. unfold mbind, machine_bind. destruct (m s) as [[a| | |] s1]; naive_solver. Qed.

Lemma machine_bind_ext {A B} (f g : machine S E A) (k : A → machine S E B) s :
  f s = g s → (f ≫= k) s = (g ≫= k) s.
Proof. intros Hfg. unfold mbind, machine_bind. by rewrite Hfg. Qed.

Lemma machine_bind_ext_r {A B} (f : machine S E A) (k k' : A → machine S E B) s :
  (∀ a s', k a s' = k' a s') → (f ≫= k) s = (f ≫= k') s.
Proof. intros Hk. unfold mbind, machine_bind. destruct (f s) as [[] ?]; auto. Qed.

Lemma outcome_bind_ok {A B} (a : A) (f : A → outcome E B) : (Ok a ≫= f) = f a.
Proof. done. Qed.

Lemma index_ok {A} (l : list A) i x : l !! i = Some x → index (E:=E) l i = Ok x.
Proof. unfold index. by intros ->. Qed.

Lemma slice_from_ok {A} (l : list A) i :
  i ≤ length l → slice_from (E:=E) l i = Ok (drop i l).
Proof. intros. unfold slice_from. by rewrite decide_True. Qed.

Lemma slice_to_ok {A} (l : list A) i :
  i ≤ length l → slice_to (E:=E) l i = Ok (take i l).
Proof. intros. unfold slice_to. by rewrite decide_True. Qed.

Lemma store_ok {A} (l : list A) i x :
  i < length l → store (E:=E) l i x = Ok (<[i := x]> l).
Proof. intros. unfold store. by rewrite decide_True. Qed.
End outcome_lemmas.

#[export] Hint Rewrite @machine_bind_ret @machine_bind_get @machine_bind_modify
  @machine_bind_put @machine_bind_lift_ok @machine_bind_bind @outcome_bind_ok : reth_exec.

(** Runs the monadic steps whose outcome is already known. *)
Ltac exec := repeat (progress (autorewrite with reth_exec; cbn beta iota)).

(** ** Lists *)

Section list_lemmas.
Context {A : Type}.
Implicit Types l : list A.

Lemma strip_prefix_Some `{EqDecision A} (p l t : list A) :
  strip_prefix p l = Some t ↔ l = p ++ t.
Proof.
  revert l. induction p as [|x p IH]; intros [|y l]; simpl; try naive_solver.
  case_decide; [rewrite IH; naive_solver | naive_solver].
Qed.

Lemma strip_prefix_app `{EqDecision A} (p t : list A) : strip_prefix p (p ++ t) = Some t.
Proof. by apply strip_prefix_Some. Qed.

Lemma strip_prefix_app_l `{EqDecision A} (p q l : list A) :
  strip_prefix (p ++ q) l =
  match strip_prefix p l with Some t => strip_prefix q t | None => None end.
Proof. revert l. induction p as [|x p IH]; intros [|y l]; simpl; try done. by case_decide. Qed.

(** Comparing with [p ++ q] is stripping [p] and comparing the rest with [q]. *)
Lemma decide_app_strip `{EqDecision A} {B} (p q l : list A) (x y : B) :
  (if decide (p ++ q = l) then x else y) =
  match strip_prefix p l with
  | Some t => if decide (q = t) then x else y
  | None => y
  end.
Proof.
  destruct (strip_prefix p l) as [t|] eqn:Hs.
  - apply strip_prefix_Some in Hs as ->. repeat case_decide; simplify_list_eq; done.
  - rewrite decide_False; [done|]. intros <-. by rewrite strip_prefix_app in Hs.
Qed.

Lemma strip_prefix_None `{EqDecision A} (p l : list A) :
  strip_prefix p l = None ↔ ∀ t, l ≠ p ++ t.
Proof.
  split.
  - intros H t ->. by rewrite strip_prefix_app in H.
  - intros H. destruct (strip_prefix p l) as [t|] eqn:Hs; [|done].
    apply strip_prefix_Some in Hs. naive_solver.
Qed.

(** The element at [i] splits the list around it, and an update keeps the two
    sides. *)
Lemma lookup_split l i x :
  l !! i = Some x → l = take i l ++ x :: drop (S i) l.
Proof. intros. by rewrite take_drop_middle. Qed.

Lemma insert_split l i x y :
  l !! i = Some x → <[i := y]> l = take i l ++ y :: drop (S i) l.
Proof. intros. apply insert_take_drop. by eapply lookup_lt_Some. Qed.

(** Replacing a middle part of a duplicate-free list by duplicate-free elements
    that are its own or new. *)
Lemma NoDup_replace_middle (P : A → Prop) (a x x' b : list A) :
  NoDup (a ++ x ++ b) → NoDup x' →
  (∀ y, y ∈ x' → y ∈ x ∨ P y) → (∀ y, y ∈ a ++ b → ¬ P y) →
  NoDup (a ++ x' ++ b).
Proof.
  rewrite !NoDup_app. intros (Ha & Hax & Hx & Hxb & Hb) Hx' Hsub Hfresh.
  split_and!; [done| |done| |done].
  - intros y Hy [Hin|Hin]%elem_of_app; [|set_solver].
    destruct (Hsub y Hin); [set_solver|]. apply (Hfresh y); set_solver.
  - intros y Hy Hin. destruct (Hsub y Hy); [set_solver|]. apply (Hfresh y); set_solver.
Qed.

(** The two sides of the element after a prefix. *)
Lemma drop_after p x l : drop (length p + 1) (p ++ x :: l) = l.
Proof.
  rewrite Nat.add_1_r. replace (S (length p)) with (length (p ++ [x])) by (rewrite length_app; simpl; lia).
  rewrite (cons_middle x p l). by rewrite (app_assoc p [x] l), drop_app_length.
Qed.

Lemma slice_after {E} p x l : slice_from (E:=E) (p ++ x :: l) (length p + 1) = Ok l.
Proof. rewrite slice_from_ok by (rewrite length_app; simpl; lia). by rewrite drop_after. Qed.

Lemma slice_suffix {E} p l : slice_from (E:=E) (p ++ l) (length p) = Ok l.
Proof. rewrite slice_from_ok by (rewrite length_app; lia). by rewrite drop_app_length. Qed.

Lemma index_after {E} p x l : index (E:=E) (p ++ x :: l) (length p) = Ok x.
Proof. apply index_ok. by apply list_lookup_middle. Qed.

Lemma Forall_lookup_split l (P : A → Prop) i x :
  Forall P l → l !! i = Some x → P x.
Proof. intros H ?. by eapply Forall_lookup_1. Qed.
End list_lemmas.

Lemma as_u32_small n : (N.of_nat n < u32_modulus)%N → as_u32 n = n.
Proof. intros H. unfold as_u32. rewrite N.mod_small by done. apply Nat2N.id. Qed.

(** ** Maps from lists

    Collecting the elements of a list by a key of theirs: the last one with a key
    stays. *)
Section maps.
Context `{Countable K} {A : Type} (f : A → K).

Abbreviation put_by := (λ (m : gmap K A) (x : A), <[f x := x]> m).

Lemma foldl_put_lookup l m k x :
  foldl put_by m l !! k = Some x → (x ∈ l ∧ f x = k) ∨ m !! k = Some x.
Proof.
  revert m. induction l as [|y l IH]; intros m Hl; [by right|]. cbn [foldl] in Hl.
  apply IH in Hl as [[Hin Hx]|Hl]; [left; split; [by right|done]|].
  apply lookup_insert_Some in Hl as [[Hk ->]|[_ Hl]]; [left; split; [left|done]|by right].
Qed.

Lemma foldl_put_here l m k : k ∈ f <$> l → is_Some (foldl put_by m l !! k).
Proof.
  revert m. induction l as [|y l IH]; intros m Hk; [by apply elem_of_nil in Hk|]. cbn [foldl].
  destruct (decide (k ∈ f <$> l)) as [Hin|Hin]; [by apply IH|].
  apply elem_of_cons in Hk as [->|Hk]; [|done]. clear IH.
  assert (∀ m' : gmap K A, is_Some (m' !! f y) → is_Some (foldl put_by m' l !! f y)) as Hkeep.
  { clear Hin. induction l as [|z l IHl]; intros m' Hm'; [done|]. cbn [foldl]. apply IHl.
    apply lookup_insert_is_Some'. by right. }
  apply Hkeep. by rewrite lookup_insert_eq.
Qed.

(** When the elements of the list can be told by their keys, all are there. *)
Lemma foldl_put_unique l x :
  (∀ y, y ∈ l → f y = f x → y = x) → x ∈ l → foldl put_by ∅ l !! f x = Some x.
Proof.
  intros Hu Hx. destruct (foldl_put_here l ∅ (f x)) as [y Hy]; [by apply list_elem_of_fmap_2|].
  destruct (foldl_put_lookup _ _ _ _ Hy) as [[Hin Hf]|Hn]; [|by rewrite lookup_empty in Hn].
  rewrite Hy. f_equal. by apply Hu.
Qed.
End maps.
