(* ===== verification/BumpBuf.v ===== *)
(** * The byte buffer over a bump arena ([crates/mpt/src/bump_bufmut.rs])

    [BumpBytesMut] lets the encoders write into memory of a bump arena.  The buffer
    is a vector of [bumpalo] whose memory beyond its length is not initialised; the
    unsafe part of [BufMut] hands that memory out and later counts what was written
    there.  Memory is a list with [None] for a byte that was never written. *)

From S2P Require Import Prelude.

(** ** The vector *)

(** [bumpalo::collections::Vec<u8>]: its memory, as long as its capacity, and its
    length; [bv_write] is a write through a pointer into the memory. *)
Class BumpVecs : Type := {
  isize_max : nat;
  BumpVec : Type;
  bv_memory : BumpVec → list (option u8);
  bv_len : BumpVec → nat;
  bv_with_capacity_in : nat → BumpVec;
  bv_reserve : nat → machine BumpVec Empty_set unit;
  bv_extend_from_slice : bytes → machine BumpVec Empty_set unit;
  bv_resize : nat → u8 → machine BumpVec Empty_set unit;
  bv_set_len : nat → BumpVec → BumpVec;
  bv_write : nat → bytes → BumpVec → BumpVec;
}.

Definition bv_capacity `{BumpVecs} (v : BumpVec) : nat := length (bv_memory v).

(** The bytes counted by the length were all written, and the length is within the
    capacity, which is one that an allocation can have. *)
Record vec_holds `{BumpVecs} (v : BumpVec) (w : bytes) : Prop := {
  holds_prefix : take (bv_len v) (bv_memory v) = Some <$> w;
  holds_len : bv_len v ≤ bv_capacity v;
  holds_capacity : bv_capacity v ≤ isize_max;
}.

(** How an operation ends: as told, or because the vector cannot grow, and then the
    state is still fine. *)
Definition grows {S A} (fine : S → Prop) (f : machine S Empty_set A) (s : S) (post : A → S → Prop) : Prop :=
  match f s with
  | (Ok a, s') => post a s'
  | (Panic CapacityOverflow, s') => fine s'
  | _ => False
  end.

Definition vec_fine `{BumpVecs} (v : BumpVec) : Prop := ∃ w, vec_holds v w.

(** What is documented of the vector. *)
Class BumpVecsOk `{BumpVecs} : Prop := {
  with_capacity_ok capacity : capacity ≤ isize_max → vec_holds (bv_with_capacity_in capacity) [];
  reserve_ok n v w : vec_holds v w →
    grows vec_fine (bv_reserve n) v (λ _ v', vec_holds v' w ∧ bv_len v + n ≤ bv_capacity v');
  extend_ok src v w : vec_holds v w →
    grows vec_fine (bv_extend_from_slice src) v (λ _ v', vec_holds v' (w ++ src));
  resize_ok n x v w : vec_holds v w →
    grows vec_fine (bv_resize n x) v (λ _ v', vec_holds v' (take n w ++ replicate (n - length w) x));
  set_len_ok n v : bv_len (bv_set_len n v) = n ∧ bv_memory (bv_set_len n v) = bv_memory v;
  write_ok i src v : i + length src ≤ bv_capacity v →
    bv_len (bv_write i src v) = bv_len v ∧
    bv_memory (bv_write i src v) = list_inserts i (Some <$> src) (bv_memory v);
}.

Section buffer.
Context `{BumpVecs}.

Definition usize_max : nat := 2 * isize_max + 1.

(** ** [BumpBytesMut] *)

Record BumpBytesMut : Type := mkBumpBytesMut { inner : BumpVec }.

Definition on_inner {A} (f : machine BumpVec Empty_set A) : machine BumpBytesMut Empty_set A := λ b,
  let '(o, v) := f (inner b) in (o, mkBumpBytesMut v).

Definition with_capacity_in (capacity : nat) : BumpBytesMut := mkBumpBytesMut (bv_with_capacity_in capacity).
Definition into_inner (b : BumpBytesMut) : BumpVec := inner b.
Definition len (b : BumpBytesMut) : nat := bv_len (inner b).
Definition remaining_mut (b : BumpBytesMut) : nat := isize_max - bv_len (inner b).

Definition advance_mut (cnt : nat) : machine BumpBytesMut Empty_set unit := on_inner (
  v ← get_state;
  let len := bv_len v in
  let remaining := bv_capacity v - len in
  if decide (remaining < cnt) then panics AdvanceOutOfBounds
  else modify (bv_set_len (len + cnt))).

(** [UninitSlice::from_raw_parts_mut]: where the slice is, and how long. *)
Definition chunk_mut : machine BumpBytesMut Empty_set (nat * nat) := on_inner (
  v ← get_state;
  (if decide (bv_capacity v = bv_len v) then bv_reserve 64 else mret ());;
  v ← get_state;
  let cap := bv_capacity v in
  let len := bv_len v in
  mret (len, cap - len)).

(** [while src.has_remaining()]; a [Buf] gives its bytes in pieces. *)
Fixpoint put_chunks (src : list bytes) : machine BumpVec Empty_set unit :=
  match src with
  | [] => mret ()
  | s :: src' => bv_extend_from_slice s;; put_chunks src'
  end.

Definition put (src : list bytes) : machine BumpBytesMut Empty_set unit := on_inner (
  bv_reserve (length (concat src));; put_chunks src).

Definition put_slice (src : bytes) : machine BumpBytesMut Empty_set unit := on_inner (bv_extend_from_slice src).

Definition put_bytes (val : u8) (cnt : nat) : machine BumpBytesMut Empty_set unit :=
  b ← get_state;
  let new_len := (len b + cnt) `min` usize_max in
  on_inner (bv_resize new_len val).

(** What a caller of [chunk_mut] does: write no more than fits into the slice, and
    advance by what was written. *)
Definition fill_chunk (src : bytes) : machine BumpBytesMut Empty_set unit :=
  '(start, room) ← chunk_mut;
  let written := take room src in
  on_inner (modify (bv_write start written));;
  advance_mut (length written).

(** ** What the buffer holds *)

Definition buffer_holds (b : BumpBytesMut) (w : bytes) : Prop := vec_holds (inner b) w.

Context `{!BumpVecsOk}.

Lemma vec_holds_length v w : vec_holds v w → bv_len v = length w.
Proof.
  intros [Hp Hl _]. apply (f_equal length) in Hp. rewrite length_take, length_fmap in Hp.
  unfold bv_capacity in Hl. lia.
Qed.

Lemma write_capacity i src v :
  i + length src ≤ bv_capacity v → bv_capacity (bv_write i src v) = bv_capacity v.
Proof. intros Hroom. unfold bv_capacity. destruct (write_ok i src v Hroom) as [_ ->]. by rewrite length_inserts. Qed.

(** A write behind the length, and then the length. *)
Lemma write_holds src v w :
  vec_holds v w → bv_len v + length src ≤ bv_capacity v →
  vec_holds (bv_set_len (bv_len v + length src) (bv_write (bv_len v) src v)) (w ++ src).
Proof.
  intros Hv Hroom. pose proof (vec_holds_length _ _ Hv) as Hlen. destruct Hv as [Hp Hl Hc].
  destruct (set_len_ok (bv_len v + length src) (bv_write (bv_len v) src v)) as [Hsl Hsm].
  destruct (write_ok (bv_len v) src v Hroom) as [_ Hwm].
  unfold bv_capacity in *. split; unfold bv_capacity; rewrite ?Hsl, ?Hsm, ?Hwm.
  - rewrite <-(take_drop (bv_len v) (bv_memory v)), Hp at 1. rewrite fmap_app.
    replace (bv_len v) with (length (Some <$> w) + 0) at 2 by (rewrite length_fmap; lia).
    rewrite list_inserts_app_r. rewrite take_app_ge by (rewrite length_fmap; lia).
    f_equal. rewrite length_fmap, <-Hlen. replace (bv_len v + length src - bv_len v) with (length src) by lia.
    assert (length src ≤ length (drop (bv_len v) (bv_memory v))) as Hd by (rewrite length_drop; lia).
    apply list_eq. intros i. destruct (decide (i < length src)) as [Hi|Hi].
    + rewrite lookup_take_lt by done. rewrite list_lookup_inserts by (rewrite ?length_fmap; lia).
      by rewrite Nat.sub_0_r.
    + rewrite lookup_take_ge by lia. symmetry. apply lookup_ge_None. rewrite length_fmap. lia.
  - rewrite length_inserts. lia.
  - by rewrite length_inserts.
Qed.

Lemma grows_bind {S A B} fine (f : machine S Empty_set A) (g : A → machine S Empty_set B) s post post' :
  grows fine f s post → (∀ a s', post a s' → grows fine (g a) s' post') → grows fine (mbind g f) s post'.
Proof.
  unfold grows, mbind, machine_bind. intros Hf Hg. destruct (f s) as [[a|[]|[]|] s']; try done. by apply Hg.
Qed.

Lemma grows_impl {S A} fine (f : machine S Empty_set A) s (post post' : A → S → Prop) :
  grows fine f s post → (∀ a s', post a s' → post' a s') → grows fine f s post'.
Proof. unfold grows. intros Hf Himp. destruct (f s) as [[a|[]|[]|] s']; try done. by apply Himp. Qed.

(** ** Every use of the buffer *)

Definition buffer_fine (b : BumpBytesMut) : Prop := ∃ w, buffer_holds b w.

Lemma grows_on_inner {A} (f : machine BumpVec Empty_set A) b post :
  grows vec_fine f (inner b) post → grows buffer_fine (on_inner f) b (λ a b', post a (inner b')).
Proof. unfold grows, on_inner. by destruct (f (inner b)) as [[a|[]|[]|] v']. Qed.

Lemma put_chunks_spec src v w :
  vec_holds v w → grows vec_fine (put_chunks src) v (λ _ v', vec_holds v' (w ++ concat src)).
Proof.
  revert v w. induction src as [|s src IH]; intros v w Hv; cbn [put_chunks concat].
  { cbn. by rewrite app_nil_r. }
  eapply grows_bind; [by apply extend_ok|]. cbn beta. intros _ v' Hv'. rewrite app_assoc. by apply IH.
Qed.

Inductive write_op : Type :=
  | PutSlice (src : bytes)
  | PutBytes (val : u8) (cnt : nat)
  | Put (src : list bytes)
  | FillChunk (src : bytes).

Definition run_write (op : write_op) : machine BumpBytesMut Empty_set unit :=
  match op with
  | PutSlice src => put_slice src
  | PutBytes val cnt => put_bytes val cnt
  | Put src => put src
  | FillChunk src => fill_chunk src
  end.

Fixpoint run_writes (ops : list write_op) : machine BumpBytesMut Empty_set unit :=
  match ops with
  | [] => mret ()
  | op :: ops' => run_write op;; run_writes ops'
  end.

(** The bytes that an operation appends: all it is given, but for a chunk, where it
    is some of them. *)
Definition op_writes (op : write_op) (w : bytes) : Prop :=
  match op with
  | PutSlice src => w = src
  | PutBytes val cnt => w = replicate cnt val
  | Put src => w = concat src
  | FillChunk src => w `prefix_of` src ∧ (src ≠ [] → w ≠ [])
  end.

(** The slice of [chunk_mut] is the memory behind the length, and never empty. *)
Lemma chunk_mut_spec b w :
  buffer_holds b w →
  grows buffer_fine chunk_mut b (λ slice b', buffer_holds b' w ∧
    slice = (bv_len (inner b'), bv_capacity (inner b') - bv_len (inner b')) ∧
    bv_len (inner b') < bv_capacity (inner b')).
Proof.
  intros Hb. unfold chunk_mut. eapply grows_impl; [apply (grows_on_inner _ _ (λ slice v', vec_holds v' w ∧
    slice = (bv_len v', bv_capacity v' - bv_len v') ∧ bv_len v' < bv_capacity v'))|done].
  unfold buffer_holds in Hb. pose proof (vec_holds_length _ _ Hb) as Hlen. destruct b as [v]. cbn [inner] in *.
  eapply (grows_bind _ _ _ _ (λ x v', x = v' ∧ v' = v)); [done|]. intros _ _ [-> ->].
  eapply (grows_bind _ _ _ _ (λ _ v', vec_holds v' w ∧ bv_len v' < bv_capacity v')).
  - case_decide as Hfull.
    + eapply grows_impl; [by apply (reserve_ok 64)|]. cbn beta. intros _ v' [Hv' Hroom].
      split; [done|]. pose proof (vec_holds_length _ _ Hv'). lia.
    + pose proof (holds_len _ _ Hb). split; [done|lia].
  - intros [] v' [Hv' Hroom]. by split_and!.
Qed.

Lemma fill_chunk_spec src b w :
  buffer_holds b w →
  grows buffer_fine (fill_chunk src) b (λ _ b', ∃ w', op_writes (FillChunk src) w' ∧ buffer_holds b' (w ++ w')).
Proof.
  intros Hb. unfold fill_chunk. eapply grows_bind; [by apply chunk_mut_spec|].
  intros [start room] [v] (Hv & Hslice & Hroom). injection Hslice as -> ->. unfold buffer_holds in Hv. cbn [inner] in *.
  set (n := bv_capacity v - bv_len v) in *. set (part := take n src).
  assert (length part ≤ n) as Hpart by (unfold part; rewrite length_take; lia).
  assert (bv_len v + length part ≤ bv_capacity v) as Hfit by (unfold n in Hpart; lia).
  eapply (grows_bind _ _ _ _ (λ _ b', b' = mkBumpBytesMut (bv_write (bv_len v) part v))); [done|].
  intros [] _ ->. unfold grows, advance_mut, on_inner. rewrite machine_bind_get. cbn [inner].
  rewrite (write_capacity _ _ _ Hfit). destruct (write_ok (bv_len v) part v Hfit) as [-> _].
  rewrite decide_False by lia. cbn. exists part. split; [|by apply write_holds]. split; [apply prefix_take|].
  intros Hne Hnil. apply (f_equal length) in Hnil. unfold part in Hnil. rewrite length_take in Hnil.
  destruct src; [done|]. cbn in Hnil. lia.
Qed.

Lemma put_bytes_spec val cnt b w :
  buffer_holds b w →
  grows buffer_fine (put_bytes val cnt) b (λ _ b', buffer_holds b' (w ++ replicate cnt val)).
Proof.
  intros Hb. pose proof (vec_holds_length _ _ Hb) as Hlen. unfold put_bytes.
  eapply (grows_bind _ _ _ _ (λ x b', x = b' ∧ b' = b)); [done|]. intros _ _ [-> ->].
  set (new_len := (len b + cnt) `min` usize_max).
  eapply grows_impl; [apply grows_on_inner, (resize_ok new_len val _ w Hb)|]. intros [] b' Hv'. cbn beta in Hv'.
  pose proof (vec_holds_length _ _ Hv') as Hlen'. rewrite length_app, length_take, length_replicate in Hlen'.
  pose proof (holds_len _ _ Hb). pose proof (holds_capacity _ _ Hb).
  pose proof (holds_len _ _ Hv'). pose proof (holds_capacity _ _ Hv').
  assert (new_len = length w + cnt) as Hnew by (unfold new_len, len, usize_max in *; lia).
  rewrite Hnew, take_ge in Hv' by lia. by replace (length w + cnt - length w) with cnt in Hv' by lia.
Qed.

Lemma run_write_spec op b w :
  buffer_holds b w →
  grows buffer_fine (run_write op) b (λ _ b', ∃ w', op_writes op w' ∧ buffer_holds b' (w ++ w')).
Proof.
  intros Hb. destruct op as [src|val cnt|src|src]; cbn [run_write].
  - eapply grows_impl; [by apply grows_on_inner, extend_ok|]. intros [] b' Hb'. by exists src.
  - eapply grows_impl; [by apply put_bytes_spec|]. intros [] b' Hb'. by exists (replicate cnt val).
  - eapply grows_impl; [apply grows_on_inner; eapply grows_bind; [by apply reserve_ok|]|].
    + intros [] v' [Hv' _]. by apply put_chunks_spec.
    + intros [] b' Hb'. by exists (concat src).
  - by apply fill_chunk_spec.
Qed.

(** C34: The buffer is memory-safe and appends.  Whatever is written to a new buffer
    and in whatever way, in whole slices, runs of a byte, pieces, or through the
    uninitialised memory that [chunk_mut] hands out, the length stays within the
    capacity and every byte it counts was written; the buffer holds what was written,
    in order.  The panic of [advance_mut] is never reached, and a sum of lengths that
    saturates is refused; the one way to fail is a vector that cannot grow. *)
Theorem buffer_holds_what_was_written capacity ops :
  capacity ≤ isize_max →
  grows buffer_fine (run_writes ops) (with_capacity_in capacity)
    (λ _ b, ∃ ws, Forall2 op_writes ops ws ∧ buffer_holds b (concat ws)).
Proof.
  intros Hcap.
  assert (∀ b w, buffer_holds b w →
    grows buffer_fine (run_writes ops) b (λ _ b', ∃ ws, Forall2 op_writes ops ws ∧ buffer_holds b' (w ++ concat ws)))
    as Hgen; [|by apply (Hgen _ []), with_capacity_ok].
  induction ops as [|op ops IH]; intros b w Hb; cbn [run_writes].
  { exists []. split; [done|]. by rewrite app_nil_r. }
  eapply grows_bind; [by apply run_write_spec|]. intros [] b1 (w1 & Hw1 & Hb1).
  eapply grows_impl; [by apply IH|]. intros [] b' (ws & Hws & Hb'). exists (w1 :: ws).
  split; [by constructor|]. cbn. by rewrite app_assoc.
Qed.
End buffer.

(** ** A vector *)

Module PlainVec.
(** Memory of at most a thousand bytes, which grows to what is needed. *)
Record t : Type := mk { memory : list (option u8); length_of : nat }.

Definition set_len (n : nat) (v : t) : t := mk (memory v) n.
Definition write (i : nat) (src : bytes) (v : t) : t := mk (list_inserts i (Some <$> src) (memory v)) (length_of v).

Definition reserve (n : nat) : machine t Empty_set unit := λ v,
  if decide (length_of v + n ≤ length (memory v)) then (Ok (), v)
  else if decide (1000 < length_of v + n) then (Panic CapacityOverflow, v)
  else (Ok (), mk (memory v ++ replicate (length_of v + n - length (memory v)) None) (length_of v)).

Definition append (src : bytes) (v : t) : t :=
  mk (take (length_of v) (memory v) ++ (Some <$> src) ++ drop (length_of v + length src) (memory v))
    (length_of v + length src).

Definition extend_from_slice (src : bytes) : machine t Empty_set unit := reserve (length src);; modify (append src).

Definition resize (n : nat) (x : u8) : machine t Empty_set unit :=
  v ← get_state;
  if decide (length_of v < n) then extend_from_slice (replicate (n - length_of v) x) else modify (set_len n).
End PlainVec.

#[export] Instance plain_vecs : BumpVecs := {
  isize_max := 1000;
  bv_memory := PlainVec.memory;
  bv_len := PlainVec.length_of;
  bv_with_capacity_in capacity := PlainVec.mk (replicate capacity None) 0;
  bv_reserve := PlainVec.reserve;
  bv_extend_from_slice := PlainVec.extend_from_slice;
  bv_resize := PlainVec.resize;
  bv_set_len := PlainVec.set_len;
  bv_write := PlainVec.write;
}.

Lemma plain_reserve n v w :
  vec_holds v w → grows vec_fine (PlainVec.reserve n) v (λ _ v', vec_holds v' w ∧
    bv_len v' = bv_len v ∧ bv_len v + n ≤ bv_capacity v').
Proof.
  intros Hv. unfold grows, PlainVec.reserve. destruct v as [memory len]. cbn [PlainVec.memory PlainVec.length_of].
  destruct Hv as [Hp Hl Hc]. unfold bv_capacity in *. cbn in Hp, Hl, Hc.
  repeat case_decide; [split_and!; [by split|done|done]|by exists w|].
  split_and!; [split; unfold bv_capacity; cbn|done|unfold bv_capacity; cbn].
  - by rewrite take_app_le.
  - rewrite length_app. lia.
  - rewrite length_app, length_replicate. lia.
  - rewrite length_app, length_replicate. lia.
Qed.

Lemma plain_append src v w :
  vec_holds v w → bv_len v + length src ≤ bv_capacity v → vec_holds (PlainVec.append src v) (w ++ src).
Proof.
  intros [Hp Hl Hc] Hroom. destruct v as [memory len]. unfold bv_capacity in *. cbn in Hp, Hl, Hc, Hroom.
  split; unfold bv_capacity, PlainVec.append; cbn.
  - rewrite app_assoc, Hp, <-fmap_app, take_app_length'; [done|].
    apply (f_equal length) in Hp. rewrite length_take, length_fmap in Hp. rewrite length_fmap, length_app. lia.
  - rewrite !length_app, length_take, length_fmap, length_drop. lia.
  - rewrite !length_app, length_take, length_fmap, length_drop. lia.
Qed.

Lemma plain_extend src v w :
  vec_holds v w → grows vec_fine (PlainVec.extend_from_slice src) v (λ _ v', vec_holds v' (w ++ src)).
Proof.
  intros Hv. eapply grows_bind; [by apply plain_reserve|]. cbn beta. intros _ v' (Hv' & Hl & Hroom).
  rewrite <-Hl in Hroom. by apply plain_append.
Qed.

#[export] Instance plain_vecs_ok : BumpVecsOk.
Proof.
  split; cbn.
  - intros capacity Hcap. split; unfold bv_capacity; cbn; [done|lia|by rewrite length_replicate].
  - intros n v w Hv. eapply grows_impl; [by apply plain_reserve|]. by intros _ v' (? & _ & ?).
  - apply plain_extend.
  - intros n x v w Hv. pose proof Hv as [Hp Hl Hc].
    assert (bv_len v = length w) as Hlen.
    { apply (f_equal length) in Hp. rewrite length_take, length_fmap in Hp. unfold bv_capacity in Hl. lia. }
    cbn in Hlen. unfold PlainVec.resize, grows. rewrite machine_bind_get. case_decide as Hgrow.
    + rewrite take_ge by lia. rewrite <-Hlen. by apply plain_extend.
    + cbn. replace (n - length w) with 0 by lia. rewrite app_nil_r. split; unfold bv_capacity in *; cbn in *; [|lia|done].
      rewrite fmap_take, <-Hp, take_take. f_equal. lia.
  - done.
  - done.
Qed.

Lemma buffer_holds_what_was_written_witness :
  let ops := [PutSlice [1; 2; 3]; PutBytes 7 2; FillChunk [4; 5]; Put [[8]; [9; 10]]]%N in
  4 ≤ isize_max ∧
  inner (snd (run_writes ops (with_capacity_in 4))) =
    PlainVec.mk ((Some <$> [1; 2; 3; 7; 7; 4; 5; 8; 9; 10]) ++ replicate 59 None)%N 10 ∧
  grows buffer_fine (run_writes ops) (with_capacity_in 4)
    (λ _ b, ∃ ws, Forall2 op_writes ops ws ∧ buffer_holds b (concat ws)).
Proof.
  split; [cbn; lia|]. split; [vm_compute; reflexivity|]. apply buffer_holds_what_was_written. cbn. lia.
Defined.
