(* ===== verification/External.v ===== *)
(** * The crates the program calls

    [alloy_rlp], the Keccak-256 of [revm_primitives] and the constant of
    [alloy_trie] are not part of the repository.  The class [Crates] has one
    member per item the MPT code uses, and [CratesOk] the documented behaviour
    the proofs rely on.  Containers of other crates ([smallvec], [bumpalo],
    [bytes]) only hold bytes, and a slice of them is a list. *)

From S2P Require Import Prelude.

(** [B256]: 32 bytes. *)
Abbreviation B256 := bytes.

(** [alloy_rlp::PayloadView]: a string payload, or the items of a list, each
    with its own header. *)
Inductive PayloadView : Type :=
  | StringView (payload : bytes)
  | ListView (items : list bytes).

(** The largest payload length the laws below speak of: lengths that fit a
    32-bit [usize]. *)
Definition usize_bound : N := 4294967296.
Definition fits_usize (n : nat) : Prop := (N.of_nat n < usize_bound)%N.

Class Crates : Type := {
  (** [alloy_rlp::Error], and the variant the program constructs *)
  rlp_error : Type;
  UnexpectedLength : rlp_error;
  (** [alloy_rlp::EMPTY_STRING_CODE] *)
  EMPTY_STRING_CODE : u8;
  (** [Header { list, payload_length }.encode(out)]: the bytes written *)
  header_encode : bool → nat → bytes;
  (** [alloy_rlp::length_of_length] *)
  length_of_length : nat → nat;
  (** [Header::decode(&mut buf)]: list flag, payload length, advanced buffer *)
  header_decode : bytes → outcome rlp_error (bool * nat * bytes);
  (** [Header::decode_bytes(&mut buf, is_list)]: payload, advanced buffer *)
  header_decode_bytes : bytes → bool → outcome rlp_error (bytes * bytes);
  (** [Header::decode_raw(&mut buf)]: payload view, advanced buffer *)
  header_decode_raw : bytes → outcome rlp_error (PayloadView * bytes);
  (** [<[u8] as Encodable>::encode] and [::length] *)
  slice_encode : bytes → bytes;
  slice_length : bytes → nat;
  (** [revm_primitives::keccak256] *)
  keccak256 : bytes → B256;
  (** [alloy_trie::EMPTY_ROOT_HASH] *)
  EMPTY_ROOT_HASH : B256;
}.

(** One RLP item: a string, or a list of items. *)
Inductive rlp_item `{Crates} : bytes → Prop :=
  | rlp_string b : fits_usize (length b) → rlp_item (slice_encode b)
  | rlp_list items :
      Forall rlp_item items → fits_usize (length (concat items)) →
      rlp_item (header_encode true (length (concat items)) ++ concat items).

Class CratesOk `{Crates} : Prop := {
  EMPTY_STRING_CODE_value : EMPTY_STRING_CODE = 0x80%N;
  (** a header is as long as [length_of_length] says *)
  header_encode_length l n : length (header_encode l n) = length_of_length n;
  (** ... and the header of a payload of at most 55 bytes is one byte *)
  length_of_length_short n : n ≤ 55 → length_of_length n = 1;
  (** decoding a list header gives its flag and length back and leaves the payload *)
  header_decode_list n rest :
    fits_usize n → n ≤ length rest →
    header_decode (header_encode true n ++ rest) = Ok (true, n, rest);
  (** an encoded string decodes to its length and leaves the string *)
  header_decode_string b rest :
    fits_usize (length b) →
    header_decode (slice_encode b ++ rest) = Ok (false, length b, b ++ rest);
  (** decoding advances the buffer, never past a payload it announced *)
  header_decode_advances buf l n rest :
    header_decode buf = Ok (l, n, rest) →
    ∃ header, buf = header ++ rest ∧ n ≤ length rest ∧ 1 ≤ length header + n;
  slice_length_encode b : slice_length b = length (slice_encode b);
  (** a string of at most 55 bytes, other than one byte, has a one-byte header *)
  slice_encode_short b :
    length b ≤ 55 → length b ≠ 1 →
    slice_encode b = (0x80 + N.of_nat (length b))%N :: b;
  (** a byte below 0x80 is its own encoding *)
  slice_encode_byte b : (b < 0x80)%N → slice_encode [b] = [b];
  header_decode_bytes_string b rest :
    fits_usize (length b) →
    header_decode_bytes (slice_encode b ++ rest) false = Ok (b, rest);
  header_decode_raw_string b rest :
    fits_usize (length b) →
    header_decode_raw (slice_encode b ++ rest) = Ok (StringView b, rest);
  header_decode_raw_list items rest :
    Forall rlp_item items → fits_usize (length (concat items)) →
    header_decode_raw
      (header_encode true (length (concat items)) ++ concat items ++ rest)
    = Ok (ListView items, rest);
  keccak256_length b : length (keccak256 b) = 32;
  keccak256_u8 b : Forall is_u8 (keccak256 b);
  (** the root of the empty trie is the hash of the empty string's encoding *)
  EMPTY_ROOT_HASH_value : EMPTY_ROOT_HASH = keccak256 [EMPTY_STRING_CODE];
}.

(** No two of the listed inputs have the same Keccak-256 hash. *)
Definition no_collision `{Crates} (inputs : list bytes) : Prop :=
  ∀ x y, x ∈ inputs → y ∈ inputs → keccak256 x = keccak256 y → x = y.

Section laws.
Context `{CratesOk}.

Lemma slice_encode_nil : slice_encode [] = [EMPTY_STRING_CODE].
Proof.
  rewrite slice_encode_short, EMPTY_STRING_CODE_value by (simpl; lia). done.
Qed.

Lemma slice_encode_B256 d :
  length d = 32 → slice_encode d = (EMPTY_STRING_CODE + 32)%N :: d.
Proof.
  intros Hd. rewrite slice_encode_short, EMPTY_STRING_CODE_value by lia.
  by rewrite Hd.
Qed.

Lemma EMPTY_ROOT_HASH_length : length EMPTY_ROOT_HASH = 32.
Proof. rewrite EMPTY_ROOT_HASH_value. apply keccak256_length. Qed.

Lemma fits_small n : n < 1000 → fits_usize n.
Proof. intros. unfold fits_usize, usize_bound. lia. Qed.

(** Decoding determines the encoded list and the bytes after it. *)
Lemma list_encode_inj p q r s :
  fits_usize (length p) → fits_usize (length q) →
  header_encode true (length p) ++ p ++ r = header_encode true (length q) ++ q ++ s →
  p = q ∧ r = s.
Proof.
  intros Hp Hq Heq.
  assert (header_decode (header_encode true (length p) ++ p ++ r)
          = Ok (true, length p, p ++ r)) as H1.
  { apply header_decode_list; [done|]. rewrite length_app. lia. }
  rewrite Heq, header_decode_list in H1; [|done|rewrite length_app; lia].
  injection H1 as Hlen Happ. symmetry in Happ. by apply app_inj_1 in Happ.
Qed.

Lemma slice_encode_inj p q r s :
  fits_usize (length p) → fits_usize (length q) →
  slice_encode p ++ r = slice_encode q ++ s → p = q ∧ r = s.
Proof.
  intros Hp Hq Heq.
  pose proof (header_decode_string p r Hp) as H1.
  pose proof (header_decode_string q s Hq) as H2.
  rewrite Heq, H2 in H1. injection H1 as Hlen Happ.
  symmetry in Happ. by apply app_inj_1 in Happ.
Qed.

(** A string is never read as a list. *)
Lemma slice_list_disjoint p q r s :
  fits_usize (length p) → fits_usize (length q) →
  slice_encode p ++ r ≠ header_encode true (length q) ++ q ++ s.
Proof.
  intros Hp Hq Heq.
  pose proof (header_decode_string p r Hp) as H1.
  rewrite Heq, header_decode_list in H1; [done|done|rewrite length_app; lia].
Qed.

Lemma slice_encode_nonempty b : fits_usize (length b) → 1 ≤ length (slice_encode b).
Proof.
  intros Hb. pose proof (header_decode_string b [] Hb) as Hd.
  rewrite !app_nil_r in Hd. apply header_decode_advances in Hd as (h & He & Hn & Hl).
  rewrite He, length_app. lia.
Qed.
End laws.

#[export] Hint Extern 2 (fits_usize _) => (apply fits_small; cbn; lia) : reth.
#[export] Hint Resolve keccak256_length EMPTY_ROOT_HASH_length : reth.
