(* ===== verification/Concrete.v ===== *)
(** * A concrete instance of the crates

    RLP and Keccak-256 as their public specifications define them (the Ethereum
    yellow paper, appendix B; the Keccak submission with the 0x01 padding).  The
    instance is where the witnesses evaluate the model, and it shows that the
    behaviour [CratesOk] asks for can be had. *)

From Stdlib Require Import Uint63.
From S2P Require Import Prelude External.

Module Keccak.

(** A lane is 64 bits, as two words of 32 in primitive integers; the state is 25 lanes, [(x, y)] at
    [x + 5 y]. *)
Record lane : Set := Lane { low : int; high : int }.

#[local] Open Scope uint63_scope.
Definition mask : int := 0xffffffff%uint63.
Definition xor2 (a b : lane) : lane := Lane (low a lxor low b) (high a lxor high b).
Definition xor5 (a b c d e : lane) : lane := xor2 a (xor2 b (xor2 c (xor2 d e))).
(** [x + (1 + y) z] *)
Definition chi1 (x y z : int) : int := x lxor ((y lxor mask) land z).
Definition chi3 (a b c : lane) : lane :=
  Lane (chi1 (low a) (low b) (low c)) (chi1 (high a) (high b) (high c)).
(** The upper word of [x, y] shifted to the left by [n]. *)
Definition shift2 (x y n : int) : int := ((x << n) land mask) lor (y >> (32 - n)).
(** Rotations to the left, by less than 32 and by 32 more. *)
Definition rotl (n : int) (a : lane) : lane :=
  Lane (shift2 (low a) (high a) n) (shift2 (high a) (low a) n).
Definition rotl32 (n : int) (a : lane) : lane :=
  Lane (shift2 (high a) (low a) n) (shift2 (low a) (high a) n).

Definition theta (s : list lane) : list lane :=
  match s with
  | [a0; a1; a2; a3; a4; a5; a6; a7; a8; a9; a10; a11; a12; a13; a14; a15; a16; a17;
     a18; a19; a20; a21; a22; a23; a24] =>
      let c0 := xor5 a0 a5 a10 a15 a20 in
      let c1 := xor5 a1 a6 a11 a16 a21 in
      let c2 := xor5 a2 a7 a12 a17 a22 in
      let c3 := xor5 a3 a8 a13 a18 a23 in
      let c4 := xor5 a4 a9 a14 a19 a24 in
      let d0 := xor2 c4 (rotl 1 c1) in
      let d1 := xor2 c0 (rotl 1 c2) in
      let d2 := xor2 c1 (rotl 1 c3) in
      let d3 := xor2 c2 (rotl 1 c4) in
      let d4 := xor2 c3 (rotl 1 c0) in
      [xor2 a0 d0; xor2 a1 d1; xor2 a2 d2; xor2 a3 d3; xor2 a4 d4; xor2 a5 d0; xor2 a6 d1;
       xor2 a7 d2; xor2 a8 d3; xor2 a9 d4; xor2 a10 d0; xor2 a11 d1; xor2 a12 d2;
       xor2 a13 d3; xor2 a14 d4; xor2 a15 d0; xor2 a16 d1; xor2 a17 d2; xor2 a18 d3;
       xor2 a19 d4; xor2 a20 d0; xor2 a21 d1; xor2 a22 d2; xor2 a23 d3; xor2 a24 d4]
  | _ => s
  end.

(** [B[y, 2x + 3y] = rotl A[x, y]] *)
Definition rho_pi (s : list lane) : list lane :=
  match s with
  | [a0; a1; a2; a3; a4; a5; a6; a7; a8; a9; a10; a11; a12; a13; a14; a15; a16; a17;
     a18; a19; a20; a21; a22; a23; a24] =>
      [a0; rotl32 12 a6; rotl32 11 a12; rotl 21 a18; rotl 14 a24; rotl 28 a3; rotl 20 a9;
       rotl 3 a10; rotl32 13 a16; rotl32 29 a22; rotl 1 a1; rotl 6 a7; rotl 25 a13;
       rotl 8 a19; rotl 18 a20; rotl 27 a4; rotl32 4 a5; rotl 10 a11; rotl 15 a17;
       rotl32 24 a23; rotl32 30 a2; rotl32 23 a8; rotl32 7 a14; rotl32 9 a15; rotl 2 a21]
  | _ => s
  end.

Definition chi (s : list lane) : list lane :=
  match s with
  | [a0; a1; a2; a3; a4; a5; a6; a7; a8; a9; a10; a11; a12; a13; a14; a15; a16; a17;
     a18; a19; a20; a21; a22; a23; a24] =>
      [chi3 a0 a1 a2; chi3 a1 a2 a3; chi3 a2 a3 a4; chi3 a3 a4 a0; chi3 a4 a0 a1;
       chi3 a5 a6 a7; chi3 a6 a7 a8; chi3 a7 a8 a9; chi3 a8 a9 a5; chi3 a9 a5 a6;
       chi3 a10 a11 a12; chi3 a11 a12 a13; chi3 a12 a13 a14; chi3 a13 a14 a10;
       chi3 a14 a10 a11; chi3 a15 a16 a17; chi3 a16 a17 a18; chi3 a17 a18 a19;
       chi3 a18 a19 a15; chi3 a19 a15 a16; chi3 a20 a21 a22; chi3 a21 a22 a23;
       chi3 a22 a23 a24; chi3 a23 a24 a20; chi3 a24 a20 a21]
  | _ => s
  end.

Definition round_constants : list lane :=
  [Lane 0x1 0x0; Lane 0x8082 0x0; Lane 0x808a 0x80000000; Lane 0x80008000 0x80000000;
   Lane 0x808b 0x0; Lane 0x80000001 0x0; Lane 0x80008081 0x80000000;
   Lane 0x8009 0x80000000; Lane 0x8a 0x0; Lane 0x88 0x0; Lane 0x80008009 0x0;
   Lane 0x8000000a 0x0; Lane 0x8000808b 0x0; Lane 0x8b 0x80000000;
   Lane 0x8089 0x80000000; Lane 0x8003 0x80000000; Lane 0x8002 0x80000000;
   Lane 0x80 0x80000000; Lane 0x800a 0x0; Lane 0x8000000a 0x80000000;
   Lane 0x80008081 0x80000000; Lane 0x8080 0x80000000; Lane 0x80000001 0x0;
   Lane 0x80008008 0x80000000].

Definition iota (s : list lane) (rc : lane) : list lane :=
  match s with [] => [] | h :: t => xor2 h rc :: t end.

Definition keccak_f (s : list lane) : list lane :=
  foldl (λ s rc, iota (chi (rho_pi (theta s))) rc) s round_constants.

(** A byte as a word, and the lowest byte of a word. *)
Definition word_of_byte (b : u8) : int :=
  foldr (λ i w, if N.testbit b (N.of_nat i) then (1 lor (w << 1)) else w << 1)%uint63 0%uint63 (seq 0 8).
Definition byte_of_word (w : int) : u8 :=
  foldr (λ i n, if bit w i then N.succ_double n else N.double n) 0%N [0; 1; 2; 3; 4; 5; 6; 7]%uint63.

(** Four bytes are a word and eight a lane, the first byte the lowest. *)
Definition word_of (bs : bytes) : int :=
  foldr (λ b w, word_of_byte b lor (w << 8))%uint63 0%uint63 bs.
Fixpoint lanes_of (n : nat) (bs : bytes) : list lane :=
  match n with
  | 0 => []
  | S n' => Lane (word_of (take 4 bs)) (word_of (take 4 (drop 4 bs))) :: lanes_of n' (drop 8 bs)
  end.
Definition word_bytes (w : int) : bytes :=
  [byte_of_word w; byte_of_word (w >> 8); byte_of_word (w >> 16); byte_of_word (w >> 24)]%uint63.
Definition lane_bytes (a : lane) : bytes := word_bytes (low a) ++ word_bytes (high a).

Fixpoint xor_into (s w : list lane) : list lane :=
  match s, w with x :: s', y :: w' => xor2 x y :: xor_into s' w' | _, _ => s end.

#[local] Close Scope uint63_scope.

Definition rate : nat := 136.

Definition pad (bs : bytes) : bytes :=
  let q := rate - length bs `mod` rate in
  if decide (q = 1) then bs ++ [0x81%N]
  else bs ++ [0x01%N] ++ replicate (q - 2) 0%N ++ [0x80%N].

Fixpoint absorb (n : nat) (s : list lane) (bs : bytes) : list lane :=
  match n with
  | 0 => s
  | S n' =>
      match bs with
      | [] => s
      | _ => absorb n' (keccak_f (xor_into s (lanes_of 17 (take rate bs)))) (drop rate bs)
      end
  end.

Definition zero_lane : lane := Lane 0%uint63 0%uint63.

Definition keccak256 (bs : bytes) : bytes :=
  let padded := pad bs in
  let s := absorb (length padded) (replicate 25 zero_lane) padded in
  concat ((λ i, lane_bytes (default zero_lane (s !! i))) <$> seq 0 4).

End Keccak.

#[global] Arguments Keccak.keccak256 : simpl never.

Module Rlp.

Inductive error : Type :=
  | Overflow | UnexpectedList | UnexpectedString | LeadingZero | InputTooShort
  | NonCanonicalSingleByte | NonCanonicalSize | UnexpectedLengthError.

(** The lowest byte first. *)
Fixpoint le_digits (k : nat) (w : N) : bytes :=
  match k with 0 => [] | S k' => N.land w 255 :: le_digits k' (N.shiftr w 8) end.

Fixpoint le_value (bs : bytes) : N :=
  match bs with [] => 0 | b :: r => b + 256 * le_value r end%N.

Fixpoint digits (fuel : nat) (n : N) : bytes :=
  match fuel with
  | 0 => []
  | S f => if (n =? 0)%N then [] else (n `mod` 256)%N :: digits f (n / 256)%N
  end.

(** Big-endian, without leading zeroes. *)
Definition be_bytes (n : nat) : bytes := reverse (digits 8 (N.of_nat n)).
Definition be_value (bs : bytes) : N := le_value (reverse bs).

Definition header_encode (list : bool) (n : nat) : bytes :=
  let base := if list then 0xc0%N else 0x80%N in
  if decide (n < 56) then [(base + N.of_nat n)%N]
  else (base + 55 + N.of_nat (length (be_bytes n)))%N :: be_bytes n.

Definition length_of_length (n : nat) : nat :=
  if decide (n < 56) then 1 else 1 + length (be_bytes n).

Definition slice_encode (b : bytes) : bytes :=
  match b with
  | [x] => if (x <? 0x80)%N then [x] else header_encode false 1 ++ [x]
  | _ => header_encode false (length b) ++ b
  end.

Definition slice_length (b : bytes) : nat := length (slice_encode b).

Definition check_remaining (l : bool) (n : N) (rest : bytes) : outcome error (bool * nat * bytes) :=
  if decide (N.of_nat (length rest) < n)%N then Err InputTooShort
  else Ok (l, N.to_nat n, rest).

Definition decode_long (l : bool) (k : nat) (rest : bytes) : outcome error (bool * nat * bytes) :=
  if decide (length rest < k) then Err InputTooShort
  else if decide (head rest = Some 0%N) then Err LeadingZero
  else let n := be_value (take k rest) in
       if decide (n < 56)%N then Err NonCanonicalSize
       else check_remaining l n (drop k rest).

Definition header_decode (buf : bytes) : outcome error (bool * nat * bytes) :=
  match buf with
  | [] => Err InputTooShort
  | b :: rest =>
      if (b <? 0x80)%N then Ok (false, 1, buf)
      else if (b <? 0xb8)%N then
        if decide (b = 0x81)%N then
          match rest with
          | [] => Err InputTooShort
          | c :: _ => if (c <? 0x80)%N then Err NonCanonicalSingleByte
                      else Ok (false, 1, rest)
          end
        else check_remaining false (b - 0x80) rest
      else if (b <? 0xc0)%N then decode_long false (N.to_nat (b - 0xb7)) rest
      else if (b <? 0xf8)%N then check_remaining true (b - 0xc0) rest
      else decode_long true (N.to_nat (b - 0xf7)) rest
  end.

Definition header_decode_bytes (buf : bytes) (is_list : bool) : outcome error (bytes * bytes) :=
  '(l, n, rest) ← header_decode buf;
  if decide (l = is_list) then Ok (take n rest, drop n rest)
  else if is_list then Err UnexpectedString else Err UnexpectedList.

Fixpoint split_items (fuel : nat) (buf : bytes) : outcome error (list bytes) :=
  match buf with
  | [] => Ok []
  | _ =>
      match fuel with
      | 0 => OutOfFuel
      | S f =>
          '(_, n, rest) ← header_decode buf;
          let item := take (length buf - length rest + n) buf in
          items ← split_items f (drop n rest);
          Ok (item :: items)
      end
  end.

Definition header_decode_raw (buf : bytes) : outcome error (PayloadView * bytes) :=
  '(l, n, rest) ← header_decode buf;
  let payload := take n rest in
  if (l : bool) then
    items ← split_items (length payload) payload;
    Ok (ListView items, drop n rest)
  else Ok (StringView payload, drop n rest).

End Rlp.

#[export] Instance concrete_crates : Crates := {
  rlp_error := Rlp.error;
  UnexpectedLength := Rlp.UnexpectedLengthError;
  EMPTY_STRING_CODE := 0x80%N;
  header_encode := Rlp.header_encode;
  length_of_length := Rlp.length_of_length;
  header_decode := Rlp.header_decode;
  header_decode_bytes := Rlp.header_decode_bytes;
  header_decode_raw := Rlp.header_decode_raw;
  slice_encode := Rlp.slice_encode;
  slice_length := Rlp.slice_length;
  keccak256 := Keccak.keccak256;
  EMPTY_ROOT_HASH := Keccak.keccak256 [0x80%N];
}.

(** The hash of the empty trie, as Ethereum publishes it. *)
Example empty_root_hash_value :
  Keccak.keccak256 [0x80%N] =
  [0x56; 0xe8; 0x1f; 0x17; 0x1b; 0xcc; 0x55; 0xa6; 0xff; 0x83; 0x45; 0xe6; 0x92; 0xc0;
   0xf8; 0x6e; 0x5b; 0x48; 0xe0; 0x1b; 0x99; 0x6c; 0xad; 0xc0; 0x01; 0x62; 0x2f; 0xb5;
   0xe3; 0x63; 0xb4; 0x21]%N.
Proof. vm_compute. reflexivity. Qed.

(** ** The instance satisfies the laws *)

Lemma byte_of_word_u8 w : is_u8 (Keccak.byte_of_word w).
Proof.
  unfold Keccak.byte_of_word. cbn [foldr]. unfold is_u8.
  repeat match goal with |- context [if ?x then _ else _] => destruct x end; vm_compute; reflexivity.
Qed.

Lemma digits_value f n : (n < 256 ^ N.of_nat f)%N → Rlp.le_value (Rlp.digits f n) = n.
Proof.
  revert n. induction f as [|f IH]; intros n Hn.
  - change (256 ^ N.of_nat 0)%N with 1%N in Hn. simpl. lia.
  - cbn [Rlp.digits]. destruct (N.eqb_spec n 0) as [->|Hz]; [done|].
    cbn [Rlp.le_value]. rewrite IH.
    + pose proof (N.div_mod' n 256). lia.
    + apply N.Div0.div_lt_upper_bound. rewrite <-N.pow_succ_r'.
      by replace (N.succ (N.of_nat f)) with (N.of_nat (S f)) by lia.
Qed.

Lemma digits_length f n : length (Rlp.digits f n) ≤ f.
Proof.
  revert n. induction f as [|f IH]; intros n; simpl; [lia|].
  destruct (n =? 0)%N; simpl; [lia|]. specialize (IH (n / 256)%N). lia.
Qed.

Lemma digits_zero f : Rlp.digits f 0 = [].
Proof. by destruct f. Qed.

Lemma digits_last f n :
  (n ≠ 0)%N → (n < 256 ^ N.of_nat f)%N →
  ∃ d, last (Rlp.digits f n) = Some d ∧ d ≠ 0%N.
Proof.
  revert n. induction f as [|f IH]; intros n Hz Hn.
  { change (256 ^ N.of_nat 0)%N with 1%N in Hn. lia. }
  cbn [Rlp.digits]. destruct (N.eqb_spec n 0) as [?|_]; [done|].
  destruct (decide (n / 256 = 0)%N) as [Hq|Hq].
  - rewrite Hq, digits_zero. exists (n `mod` 256)%N. split; [done|].
    pose proof (N.div_mod' n 256). lia.
  - destruct (IH (n / 256)%N Hq) as (d & Hd & Hd0).
    + apply N.Div0.div_lt_upper_bound. rewrite <-N.pow_succ_r'.
      by replace (N.succ (N.of_nat f)) with (N.of_nat (S f)) by lia.
    + exists d. split; [|done]. destruct (Rlp.digits f (n / 256)) eqn:?; [done|].
      by rewrite last_cons_cons.
Qed.

Lemma fits_usize_digits n : fits_usize n → (N.of_nat n < 256 ^ N.of_nat 8)%N.
Proof.
  unfold fits_usize, usize_bound. intros H. eapply N.lt_le_trans; [exact H|].
  by vm_compute.
Qed.

Lemma be_value_bytes n : fits_usize n → Rlp.be_value (Rlp.be_bytes n) = N.of_nat n.
Proof.
  intros H. unfold Rlp.be_value, Rlp.be_bytes. rewrite reverse_involutive.
  by apply digits_value, fits_usize_digits.
Qed.

Lemma be_bytes_head n : fits_usize n → n ≠ 0 → head (Rlp.be_bytes n) ≠ Some 0%N.
Proof.
  intros Hn Hz. unfold Rlp.be_bytes. rewrite head_reverse.
  destruct (digits_last 8 (N.of_nat n)) as (d & -> & ?); [lia|by apply fits_usize_digits|].
  congruence.
Qed.

Lemma be_bytes_length n : fits_usize n → n ≠ 0 → 1 ≤ length (Rlp.be_bytes n) ≤ 8.
Proof.
  intros Hn Hz. unfold Rlp.be_bytes. rewrite length_reverse. split; [|apply digits_length].
  destruct (digits_last 8 (N.of_nat n)) as (d & Hd & ?); [lia|by apply fits_usize_digits|].
  destruct (Rlp.digits 8 (N.of_nat n)); [done|simpl; lia].
Qed.

Lemma decode_long_encode l n rest :
  fits_usize n → 56 ≤ n → n ≤ length rest →
  Rlp.decode_long l (length (Rlp.be_bytes n)) (Rlp.be_bytes n ++ rest) = Ok (l, n, rest).
Proof.
  intros Hf Hn Hr. pose proof (be_bytes_length n Hf ltac:(lia)) as Hl.
  unfold Rlp.decode_long. rewrite decide_False by (rewrite length_app; lia).
  rewrite decide_False; [|destruct (Rlp.be_bytes n) eqn:He; simpl in *; [lia|]].
  - rewrite take_app_length, drop_app_length, be_value_bytes by done.
    rewrite decide_False by lia. unfold Rlp.check_remaining.
    by rewrite decide_False, Nat2N.id by lia.
  - pose proof (be_bytes_head n Hf ltac:(lia)) as Hh. by rewrite He in Hh.
Qed.

(** A header decodes to its flag and length; one-byte strings have none. *)
Lemma header_decode_encode l n rest :
  fits_usize n → n ≤ length rest →
  (l = false → n = 1 → ∃ c r, rest = c :: r ∧ (0x80 <= c)%N) →
  Rlp.header_decode (Rlp.header_encode l n ++ rest) = Ok (l, n, rest).
Proof.
  intros Hf Hr Hone. unfold Rlp.header_encode. case_decide as Hn.
  - cbn [app Rlp.header_decode]. destruct l.
    + rewrite !(proj2 (N.ltb_ge _ _)), (proj2 (N.ltb_lt _ _)) by lia.
      unfold Rlp.check_remaining. rewrite decide_False by lia. repeat f_equal. lia.
    + rewrite (proj2 (N.ltb_ge _ _)), (proj2 (N.ltb_lt _ _)) by lia. case_decide as H1.
      * assert (n = 1) as -> by lia. destruct Hone as (c & r & -> & Hc); [done..|].
        by rewrite (proj2 (N.ltb_ge _ _)).
      * unfold Rlp.check_remaining. rewrite decide_False by lia. repeat f_equal. lia.
  - pose proof (be_bytes_length n Hf ltac:(lia)) as Hl.
    cbn [app Rlp.header_decode].
    replace (N.of_nat (length (Rlp.be_bytes n))) with
      (0 + N.of_nat (length (Rlp.be_bytes n)))%N by lia.
    destruct l.
    + rewrite !(proj2 (N.ltb_ge _ _)) by lia.
      replace (N.to_nat _) with (length (Rlp.be_bytes n)) by lia.
      apply decode_long_encode; [done|lia..].
    + rewrite !(proj2 (N.ltb_ge _ _)), (proj2 (N.ltb_lt _ _)) by lia.
      replace (N.to_nat _) with (length (Rlp.be_bytes n)) by lia.
      apply decode_long_encode; [done|lia..].
Qed.

Lemma header_decode_slice b rest :
  fits_usize (length b) →
  Rlp.header_decode (Rlp.slice_encode b ++ rest) = Ok (false, length b, b ++ rest).
Proof.
  intros Hf. unfold Rlp.slice_encode. destruct b as [|x [|y b]].
  - by apply (header_decode_encode false 0 rest); [|simpl; lia|].
  - destruct (N.ltb_spec x 0x80) as [Hx|Hx].
    + cbn [app Rlp.header_decode length]. by rewrite (proj2 (N.ltb_lt _ _)).
    + rewrite <-app_assoc. apply header_decode_encode; [done|simpl; lia|]. eauto.
  - rewrite <-app_assoc. apply header_decode_encode; [done| |simpl; lia].
    rewrite length_app. lia.
Qed.

Lemma check_remaining_ok l n rest l' n' rest' :
  Rlp.check_remaining l n rest = Ok (l', n', rest') → rest' = rest ∧ n' ≤ length rest.
Proof. unfold Rlp.check_remaining. case_decide; [done|]. intros [= <- <- <-]. split; [done|lia]. Qed.

Lemma decode_long_ok l k rest l' n rest' :
  Rlp.decode_long l k rest = Ok (l', n, rest') →
  ∃ h, rest = h ++ rest' ∧ n ≤ length rest'.
Proof.
  unfold Rlp.decode_long. repeat case_decide; try done. intros Hc.
  apply check_remaining_ok in Hc as [-> ?]. exists (take k rest). by rewrite take_drop.
Qed.

Lemma check_remaining_suffix b buf l' m l n rest :
  Rlp.check_remaining l' m buf = Ok (l, n, rest) →
  ∃ h, b :: buf = h ++ rest ∧ n ≤ length rest ∧ 1 ≤ length h + n.
Proof. intros [-> ?]%check_remaining_ok. exists [b]. simpl. split_and!; [done|lia..]. Qed.

Lemma decode_long_suffix b buf l' k l n rest :
  Rlp.decode_long l' k buf = Ok (l, n, rest) →
  ∃ h, b :: buf = h ++ rest ∧ n ≤ length rest ∧ 1 ≤ length h + n.
Proof.
  intros (h & -> & ?)%decode_long_ok. exists (b :: h). simpl. split_and!; [done|lia..].
Qed.

Lemma header_decode_suffix buf l n rest :
  Rlp.header_decode buf = Ok (l, n, rest) →
  ∃ h, buf = h ++ rest ∧ n ≤ length rest ∧ 1 ≤ length h + n.
Proof.
  destruct buf as [|b buf]; [done|]. cbn [Rlp.header_decode].
  destruct (b <? 0x80)%N.
  { intros [= <- <- <-]. exists []. simpl. split_and!; [done|lia..]. }
  destruct (b <? 0xb8)%N; [|destruct (b <? 0xc0)%N; [|destruct (b <? 0xf8)%N]];
    eauto using check_remaining_suffix, decode_long_suffix.
  case_decide; [|apply check_remaining_suffix].
  destruct buf as [|c buf]; [done|]. destruct (c <? 0x80)%N; [done|].
  intros [= <- <- <-]. exists [b]. simpl. split_and!; [done|lia..].
Qed.

Lemma rlp_item_decode item rest :
  rlp_item item →
  ∃ l n payload, Rlp.header_decode (item ++ rest) = Ok (l, n, payload ++ rest) ∧
    n = length payload ∧ (∃ h, item = h ++ payload) ∧ 1 ≤ length item.
Proof.
  destruct 1 as [b Hb|items Hi Hf].
  - exists false, (length b), b. split_and!; [by apply header_decode_slice|done| |].
    + change (∃ h, Rlp.slice_encode b = h ++ b). unfold Rlp.slice_encode.
      destruct b as [|x [|y b]]; [by exists [0x80%N]| |eauto].
      destruct (x <? 0x80)%N; [by exists []|eauto].
    + change (1 ≤ length (Rlp.slice_encode b)).
      pose proof (header_decode_slice b [] Hb) as Hd. rewrite !app_nil_r in Hd.
      apply header_decode_suffix in Hd as (h & He & Hn & Hl). rewrite He, length_app. lia.
  - exists true, (length (concat items)), (concat items). split_and!; [|done|eauto|].
    + rewrite <-app_assoc. apply header_decode_encode; [done| |done]. rewrite length_app. lia.
    + rewrite length_app. simpl. unfold Rlp.header_encode. case_decide; simpl; lia.
Qed.

Lemma split_items_concat items fuel :
  Forall rlp_item items → length (concat items) ≤ fuel →
  Rlp.split_items fuel (concat items) = Ok items.
Proof.
  revert fuel. induction items as [|item items IH]; intros fuel Hall Hf; [by destruct fuel|].
  inversion Hall as [|? ? Hi Hr]; subst. cbn [concat] in Hf |- *.
  destruct (rlp_item_decode item (concat items) Hi) as (l & n & payload & Hd & -> & (h & He) & Hne).
  rewrite length_app in Hf. destruct fuel as [|fuel]; [lia|].
  destruct (item ++ concat items) as [|x buf] eqn:Hbuf.
  { apply (f_equal length) in Hbuf. rewrite length_app in Hbuf. simpl in Hbuf. lia. }
  cbn [Rlp.split_items]. rewrite Hd, <-Hbuf. cbn [mbind outcome_bind].
  rewrite drop_app_length, IH by (done || lia). cbn [mbind outcome_bind].
  repeat f_equal. subst item. rewrite !length_app, <-app_assoc.
  replace (length h + length payload + length (concat items) -
    (length payload + length (concat items)) + length payload)
    with (length (h ++ payload)) by (rewrite length_app; lia).
  by rewrite app_assoc, take_app_length.
Qed.

Lemma keccak_output_length bs : length (Keccak.keccak256 bs) = 32.
Proof. reflexivity. Qed.

Lemma keccak_output_u8 bs : Forall is_u8 (Keccak.keccak256 bs).
Proof.
  apply Forall_concat, Forall_fmap, Forall_true. intros i.
  unfold Keccak.lane_bytes, Keccak.word_bytes. apply Forall_app. split; repeat constructor; apply byte_of_word_u8.
Qed.

#[export] Instance concrete_crates_ok : CratesOk.
Proof.
  split; cbn -[Rlp.header_encode Rlp.length_of_length Rlp.slice_encode Rlp.header_decode
    Rlp.header_decode_bytes Rlp.header_decode_raw Keccak.keccak256].
  - done.
  - intros l n. unfold Rlp.header_encode, Rlp.length_of_length. case_decide; done.
  - intros n Hn. unfold Rlp.length_of_length. by rewrite decide_True by lia.
  - intros n rest Hf Hn. by apply header_decode_encode.
  - intros b rest. apply header_decode_slice.
  - intros buf l n rest. apply header_decode_suffix.
  - done.
  - intros b Hb H1. unfold Rlp.slice_encode, Rlp.header_encode.
    destruct b as [|x [|y b]]; [done..|]. by rewrite decide_True by lia.
  - intros b Hb. unfold Rlp.slice_encode. by rewrite (proj2 (N.ltb_lt _ _) Hb).
  - intros b rest Hb. unfold Rlp.header_decode_bytes. rewrite header_decode_slice by done.
    cbn. by rewrite take_app_length, drop_app_length.
  - intros b rest Hb. unfold Rlp.header_decode_raw. rewrite header_decode_slice by done.
    cbn. by rewrite take_app_length, drop_app_length.
  - intros items rest Hall Hf. unfold Rlp.header_decode_raw.
    rewrite header_decode_encode; [|done|rewrite length_app; lia|done].
    cbn. rewrite take_app_length, drop_app_length, split_items_concat by done. done.
  - apply keccak_output_length.
  - apply keccak_output_u8.
  - done.
Qed.
