(* ===== verification/Hp.v ===== *)
(** * Hex-prefix paths ([crates/mpt/src/hp.rs])

    Nibble sequences, their compact encoding, and the comparisons that read an
    encoded path without decoding it.  [prefix_to_nibs] is the reference the
    allocation-free routines are proved against. *)

From S2P Require Import Prelude.

Local Open Scope u8_scope.

Definition HP_FLAG_ODD : u8 := 0x10.
Definition HP_FLAG_LEAF : u8 := 0x20.

(** [for (i, (a, b)) in iter::zip(a, b).enumerate()]; [full] is the value after the loop. *)
Fixpoint lcp_loop (i : nat) (pairs : list (u8 * u8)) (full : nat) : nat :=
  match pairs with
  | [] => full
  | (a, b) :: rest => if decide (a ≠ b) then i else lcp_loop (S i) rest full
  end.

Definition lcp (a b : bytes) : nat :=
  lcp_loop 0 (zip a b) (length a `min` length b).

Definition to_nibs (slice : bytes) : bytes :=
  byte ← slice; [byte >>. 4; byte &. 0x0f].

Definition is_odd_path (first_byte : u8) : bool :=
  bool_decide (first_byte &. HP_FLAG_ODD ≠ 0%N).

Definition prefix_to_nibs (encoded_path : bytes) : bytes :=
  match encoded_path with
  | [] => []
  | first_byte :: rest =>
      (if is_odd_path first_byte then [first_byte &. 0x0f] else []) ++ to_nibs rest
  end.

Definition encoded_path_nibble_count (encoded_path : bytes) : nat :=
  match encoded_path with
  | [] => 0
  | first :: _ =>
      2 * (length encoded_path - 1) + (if is_odd_path first then 1 else 0)
  end.

Section scans.
Context {E : Type}.

(** One round of [while i + 1 < limit]: compares the two nibbles of
    [encoded_path[j]] with [nibs[i]] and [nibs[i + 1]]. *)
Definition byte_matches (encoded_path nibs : bytes) (i j : nat) : outcome E bool :=
  b ← index encoded_path j;
  n0 ← index nibs i;
  if decide (n0 ≠ b >>. 4) then Ok false else
  n1 ← index nibs (i + 1);
  Ok (bool_decide (n1 = b &. 0x0f)).

(** The while loop from [(i, j)]: [None] when a byte differs, otherwise the
    [(i, j)] the loop ends with. *)
Fixpoint scan_bytes (fuel : nat) (encoded_path nibs : bytes) (limit i j : nat)
  : outcome E (option (nat * nat)) :=
  if decide (i + 1 < limit) then
    match fuel with
    | 0 => OutOfFuel
    | S fuel' =>
        same ← byte_matches encoded_path nibs i j;
        if (same : bool) then scan_bytes fuel' encoded_path nibs limit (i + 2) (j + 1)
        else Ok None
    end
  else Ok (Some (i, j)).

(** The odd first nibble, then the loop: [None] is a mismatch. *)
Definition scan_path (encoded_path nibs : bytes) (limit : nat)
  : outcome E (option (nat * nat)) :=
  first ← index encoded_path 0;
  if is_odd_path first then
    n0 ← index nibs 0;
    if decide (n0 ≠ first &. 0x0f) then Ok None
    else scan_bytes limit encoded_path nibs limit 1 1
  else scan_bytes limit encoded_path nibs limit 0 1.

Definition encoded_path_eq_nibs (encoded_path nibs : bytes) : outcome E bool :=
  let nib_count := encoded_path_nibble_count encoded_path in
  if decide (nib_count ≠ length nibs) then Ok false
  else if decide (nib_count = 0) then Ok true
  else
    scanned ← scan_path encoded_path nibs (length nibs);
    match scanned with
    | None => Ok false
    | Some (i, j) =>
        if decide (i < length nibs) then
          b ← index encoded_path j;
          n ← index nibs i;
          Ok (bool_decide (n = b >>. 4))
        else Ok true
    end.

Definition encoded_path_strip_prefix (encoded_path nibs : bytes)
  : outcome E (option bytes) :=
  let nib_count := encoded_path_nibble_count encoded_path in
  if decide (length nibs < nib_count) then Ok None
  else if decide (nib_count = 0) then Ok (Some nibs)
  else
    scanned ← scan_path encoded_path nibs nib_count;
    match scanned with
    | None => Ok None
    | Some (i, j) =>
        if decide (i < nib_count) then
          b ← index encoded_path j;
          n ← index nibs i;
          if decide (n ≠ b >>. 4) then Ok None
          else Some <$> slice_from nibs (i + 1)
        else Some <$> slice_from nibs i
    end.

(** [(nibs[i] << 4) | nibs[i + 1]] *)
Definition pack_at (nibs : bytes) (i : nat) : outcome E u8 :=
  hi ← index nibs i;
  lo ← index nibs (i + 1);
  Ok ((hi <<. 4) |. lo).

Definition to_encoded_path (nibs : bytes) (is_leaf : bool) : outcome E bytes :=
  let is_odd := negb (Nat.even (length nibs)) in
  let prefix := if is_leaf then 0x20%N else 0x00%N in
  if (is_odd : bool) then
    n0 ← index nibs 0;
    packed ← mapM (pack_at nibs) (step_range 1 (length nibs) 2);
    Ok (((prefix |. 0x10) |. n0) :: packed)
  else
    packed ← mapM (pack_at nibs) (step_range 0 (length nibs) 2);
    Ok (prefix :: packed).

(** Same loops, into a bump-allocated vector. *)
Definition to_encoded_path_with_bump (nibs : bytes) (is_leaf : bool) : outcome E bytes :=
  let is_odd := negb (Nat.even (length nibs)) in
  let prefix := if is_leaf then 0x20%N else 0x00%N in
  if (is_odd : bool) then
    n0 ← index nibs 0;
    packed ← mapM (pack_at nibs) (step_range 1 (length nibs) 2);
    Ok (((prefix |. 0x10) |. n0) :: packed)
  else
    packed ← mapM (pack_at nibs) (step_range 0 (length nibs) 2);
    Ok (prefix :: packed).
End scans.

(** ** The encoding as a total function, for use in specifications *)

Fixpoint pack_pairs (nibs : bytes) : bytes :=
  match nibs with
  | hi :: lo :: rest => ((hi <<. 4) |. lo) :: pack_pairs rest
  | _ => []
  end.

Definition hp_flag (is_leaf : bool) : u8 := if is_leaf then 0x20%N else 0x00%N.

Definition hp_encode (nibs : bytes) (is_leaf : bool) : bytes :=
  if Nat.even (length nibs) then hp_flag is_leaf :: pack_pairs nibs
  else match nibs with
       | [] => []
       | n0 :: rest => ((hp_flag is_leaf |. 0x10) |. n0) :: pack_pairs rest
       end.

(** The leaf bit of the first byte, as the decoders test it: [prefix & (2 << 4)]. *)
Definition is_leaf_path (path : bytes) : bool :=
  match path with [] => false | p :: _ => bool_decide (p &. (2 <<. 4) ≠ 0%N) end.

Definition nibbles (l : bytes) : Prop := Forall is_nibble l.

(** ** Bytes and nibbles *)

Definition all_nibbles : list N := N.of_nat <$> seq 0 16.

Lemma nibble_in n : is_nibble n → n ∈ all_nibbles.
Proof.
  intros Hn. unfold all_nibbles. apply list_elem_of_fmap. exists (N.to_nat n).
  split; [lia|]. apply elem_of_seq. unfold is_nibble in Hn. lia.
Qed.

(** A decidable statement about nibbles is proved by trying all of them. *)
Lemma nibble_forall (P : N → bool) :
  forallb P all_nibbles = true → ∀ n, is_nibble n → P n = true.
Proof.
  intros HP n Hn. rewrite forallb_forall in HP. apply HP, list_elem_of_In, nibble_in, Hn.
Qed.

Lemma nibble2_forall (P : N → N → bool) :
  forallb (λ a, forallb (P a) all_nibbles) all_nibbles = true →
  ∀ a b, is_nibble a → is_nibble b → P a b = true.
Proof.
  intros HP a b Ha Hb. apply (nibble_forall (P a)); [|done].
  by apply (nibble_forall (λ a, forallb (P a) all_nibbles)).
Qed.

Lemma pack_unpack hi lo :
  is_nibble hi → is_nibble lo →
  ((hi <<. 4) |. lo) >>. 4 = hi ∧ ((hi <<. 4) |. lo) &. 0x0f = lo ∧
  is_u8 ((hi <<. 4) |. lo).
Proof.
  intros Hh Hl.
  pose proof (nibble2_forall (λ a b,
    let p := (a <<. 4) |. b in
    ((p >>. 4 =? a) && (p &. 0x0f =? b) && (p <? 256))%N)
    ltac:(vm_compute; reflexivity) hi lo Hh Hl) as Hp.
  cbv zeta in Hp. apply andb_prop in Hp as [Hp H3]. apply andb_prop in Hp as [H1 H2].
  apply N.eqb_eq in H1, H2. apply N.ltb_lt in H3. done.
Qed.

Lemma odd_first_byte leaf n :
  is_nibble n →
  is_odd_path ((hp_flag leaf |. 0x10) |. n) = true ∧
  ((hp_flag leaf |. 0x10) |. n) &. 0x0f = n ∧
  bool_decide (((hp_flag leaf |. 0x10) |. n) &. (2 <<. 4) ≠ 0%N) = leaf ∧
  is_u8 ((hp_flag leaf |. 0x10) |. n).
Proof.
  intros Hn.
  pose proof (nibble_forall (λ n,
    let p := (hp_flag leaf |. 0x10) |. n in
    is_odd_path p && (p &. 0x0f =? n)%N && Bool.eqb (is_leaf_path [p]) leaf && (p <? 256)%N)
    ltac:(destruct leaf; vm_compute; reflexivity) n Hn) as Hp.
  cbv zeta in Hp. repeat (apply andb_prop in Hp as [Hp ?]).
  split_and!; [done|by apply N.eqb_eq|by apply Bool.eqb_prop|by apply N.ltb_lt].
Qed.

Lemma even_first_byte leaf :
  is_odd_path (hp_flag leaf) = false ∧
  bool_decide (hp_flag leaf &. (2 <<. 4) ≠ 0%N) = leaf ∧ is_u8 (hp_flag leaf).
Proof. by destruct leaf. Qed.

Lemma shr_nibble b : is_u8 b → is_nibble (b >>. 4).
Proof.
  unfold is_u8, is_nibble, u8_shr. intros H. rewrite N.shiftr_div_pow2.
  apply N.Div0.div_lt_upper_bound. by change (2 ^ 4 * 16)%N with 256%N.
Qed.

Lemma and_nibble b : is_nibble (b &. 0x0f).
Proof.
  unfold is_nibble, u8_and. change 0x0f%N with (N.ones 4). rewrite N.land_ones.
  by apply N.mod_lt.
Qed.

Lemma to_nibs_cons b l : to_nibs (b :: l) = b >>. 4 :: b &. 0x0f :: to_nibs l.
Proof. done. Qed.

Lemma to_nibs_length l : length (to_nibs l) = 2 * length l.
Proof. induction l as [|b l IH]; [done|]. rewrite to_nibs_cons. simpl. lia. Qed.

Lemma to_nibs_nibbles l : Forall is_u8 l → nibbles (to_nibs l).
Proof.
  induction 1; [constructor|]. rewrite to_nibs_cons.
  repeat constructor; auto using shr_nibble, and_nibble.
Qed.

Lemma to_nibs_inj l l' : Forall is_u8 l → Forall is_u8 l' → to_nibs l = to_nibs l' → l = l'.
Proof.
  intros Hl. revert l'. induction Hl as [|b l Hb Hl IH]; intros [|c l'] Hl' Heq; try done.
  rewrite !to_nibs_cons in Heq. inversion Hl'; subst.
  injection Heq as Hhi Hlo Hrest. f_equal; [|by apply IH].
  unfold u8_shr, u8_and in *. rewrite !N.shiftr_div_pow2 in Hhi.
  change 0x0f%N with (N.ones 4) in Hlo. rewrite !N.land_ones in Hlo.
  rewrite (N.div_mod' b (2 ^ 4)), (N.div_mod' c (2 ^ 4)). congruence.
Qed.

(** ** The encoding and its inverse *)

Lemma even_pair_ind (P : bytes → Prop) :
  P [] → (∀ a b l, Nat.even (length l) = true → P l → P (a :: b :: l)) →
  ∀ l, Nat.even (length l) = true → P l.
Proof.
  intros Hn Hc. fix IH 1. intros [|a [|b l]] He; [done|done|].
  apply Hc; [done|]. by apply IH.
Qed.

Lemma even_tail (x : u8) l :
  Nat.even (length (x :: l)) = false → Nat.even (length l) = true.
Proof.
  cbn [length]. rewrite Nat.even_succ, <-Nat.negb_even.
  by destruct (Nat.even (length l)).
Qed.

Lemma to_nibs_pack l : nibbles l → Nat.even (length l) = true → to_nibs (pack_pairs l) = l.
Proof.
  intros Hl He. revert Hl. pattern l. apply even_pair_ind; [done| |done].
  intros a b r _ IH Hl. inversion Hl as [|? ? Ha Hr]; subst. inversion Hr; subst.
  cbn [pack_pairs]. rewrite to_nibs_cons. destruct (pack_unpack a b) as (-> & -> & _); [done..|].
  by rewrite IH.
Qed.

Lemma pack_pairs_u8 l : nibbles l → Nat.even (length l) = true → Forall is_u8 (pack_pairs l).
Proof.
  intros Hl He. revert Hl. pattern l. apply even_pair_ind; [by constructor| |done].
  intros a b r _ IH Hl. inversion Hl as [|? ? Ha Hr]; subst. inversion Hr; subst.
  cbn [pack_pairs]. constructor; [by apply pack_unpack|auto].
Qed.

Lemma hp_encode_decode nibs leaf :
  nibbles nibs →
  prefix_to_nibs (hp_encode nibs leaf) = nibs ∧ is_leaf_path (hp_encode nibs leaf) = leaf.
Proof.
  intros Hn. unfold hp_encode. destruct (Nat.even (length nibs)) eqn:He.
  - destruct (even_first_byte leaf) as (Ho & Hl & _). simpl. rewrite Ho, Hl.
    split; [|done]. by apply to_nibs_pack.
  - destruct nibs as [|n rest]; [done|]. inversion Hn as [|? ? Hn0 Hr]; subst.
    destruct (odd_first_byte leaf n Hn0) as (Ho & Hv & Hl & _). simpl. rewrite Ho, Hv, Hl.
    split; [|done]. simpl. rewrite to_nibs_pack; [done..|]. by eapply even_tail.
Qed.

Lemma hp_decode_encode nibs leaf : nibbles nibs → prefix_to_nibs (hp_encode nibs leaf) = nibs.
Proof. intros. by apply hp_encode_decode. Qed.

Lemma hp_encode_leaf nibs leaf : nibbles nibs → is_leaf_path (hp_encode nibs leaf) = leaf.
Proof. intros. by apply hp_encode_decode. Qed.

Lemma hp_encode_nonempty nibs leaf : hp_encode nibs leaf ≠ [].
Proof. unfold hp_encode. destruct (Nat.even _) eqn:?; [done|]. by destruct nibs. Qed.

Lemma hp_encode_u8 nibs leaf : nibbles nibs → Forall is_u8 (hp_encode nibs leaf).
Proof.
  intros Hn. unfold hp_encode. destruct (Nat.even (length nibs)) eqn:He.
  - constructor; [apply even_first_byte|by apply pack_pairs_u8].
  - destruct nibs as [|n rest]; [done|]. inversion Hn; subst.
    constructor; [by apply odd_first_byte|]. apply pack_pairs_u8; [done|].
    by eapply even_tail.
Qed.

Lemma hp_encode_length nibs leaf : length (hp_encode nibs leaf) = S (length nibs / 2).
Proof.
  assert (∀ l, Nat.even (length l) = true → length (pack_pairs l) = length l / 2) as Hp.
  { apply even_pair_ind; [done|]. intros a b l _ IH. cbn [pack_pairs length].
    rewrite IH. change (S (S (length l))) with (2 + length l).
    replace (2 + length l) with (length l + 1 * 2) by lia.
    rewrite Nat.div_add by done. lia. }
  unfold hp_encode. destruct (Nat.even (length nibs)) eqn:He; [simpl; by rewrite Hp|].
  destruct nibs as [|n rest]; [done|]. simpl length.
  assert (Nat.even (length rest) = true) as Hr by by eapply even_tail.
  rewrite Hp by done. apply Nat.even_spec in Hr as [k ->]. f_equal.
  rewrite <-(Nat.add_1_l (2 * k)), (Nat.mul_comm 2 k), Nat.div_add, Nat.div_mul by done.
  done.
Qed.

Lemma prefix_to_nibs_nibbles p : Forall is_u8 p → nibbles (prefix_to_nibs p).
Proof.
  destruct p as [|b p]; [constructor|]. intros Hp. inversion Hp; subst. simpl.
  apply Forall_app. split; [|by apply to_nibs_nibbles].
  destruct (is_odd_path b); repeat constructor. apply and_nibble.
Qed.

Lemma nibble_count_length p : encoded_path_nibble_count p = length (prefix_to_nibs p).
Proof.
  destruct p as [|b p]; [done|]. simpl. rewrite length_app, to_nibs_length.
  destruct (is_odd_path b); simpl; lia.
Qed.

(** ** The loops compute the total functions *)

Lemma step_range_cons start stop :
  start < stop → step_range start stop 2 = start :: step_range (start + 2) stop 2.
Proof.
  intros H. unfold step_range.
  replace ((stop - start + (2 - 1)) / 2) with (S ((stop - (start + 2) + (2 - 1)) / 2)).
  - cbn [seq fmap list_fmap]. rewrite <-fmap_S_seq, <-list_fmap_compose. f_equal; [lia|].
    apply list_fmap_ext. intros. simpl. lia.
  - destruct (decide (stop = start + 1)) as [->|Hne].
    + by replace (start + 1 - (start + 2)) with 0 by lia;
        replace (start + 1 - start) with 1 by lia.
    + replace (stop - start + (2 - 1)) with ((stop - (start + 2) + (2 - 1)) + 1 * 2) by lia.
      rewrite Nat.div_add by done. lia.
Qed.

Lemma step_range_nil start stop : stop ≤ start → step_range start stop 2 = [].
Proof. intros H. unfold step_range. by replace (stop - start) with 0 by lia. Qed.

Lemma lookup_middle_next {A} (l r : list A) x y : (l ++ x :: y :: r) !! (length l + 1) = Some y.
Proof. rewrite lookup_app_r by lia. by replace (length l + 1 - length l) with 1 by lia. Qed.

Section loops.
Context {E : Type}.

Lemma pack_at_ok nibs i hi lo :
  nibs !! i = Some hi → nibs !! (i + 1) = Some lo →
  pack_at (E:=E) nibs i = Ok ((hi <<. 4) |. lo).
Proof. intros H1 H2. unfold pack_at. by rewrite !(index_ok _ _ _ H1), (index_ok _ _ _ H2). Qed.

Lemma pack_range pre l :
  Nat.even (length l) = true →
  mapM (pack_at (E:=E) (pre ++ l)) (step_range (length pre) (length (pre ++ l)) 2)
  = Ok (pack_pairs l).
Proof.
  intros He. revert pre. pattern l. apply even_pair_ind; [..|done].
  - intros pre. by rewrite app_nil_r, step_range_nil.
  - intros a b r _ IH pre. rewrite step_range_cons by (rewrite length_app; simpl; lia).
    cbn [mapM]. rewrite (pack_at_ok _ _ a b);
      [|by apply list_lookup_middle|apply lookup_middle_next].
    specialize (IH (pre ++ [a; b])). rewrite <-app_assoc in IH. simpl in IH.
    rewrite (length_app pre [a; b]) in IH. cbn [length] in IH.
    cbn [mbind outcome_bind]. rewrite IH. done.
Qed.

Lemma to_encoded_path_spec nibs leaf :
  to_encoded_path (E:=E) nibs leaf = Ok (hp_encode nibs leaf).
Proof.
  unfold to_encoded_path, hp_encode. destruct (Nat.even (length nibs)) eqn:He; cbn [negb].
  - pose proof (pack_range [] nibs He) as Hp. cbn [app length] in Hp. rewrite Hp. by destruct leaf.
  - destruct nibs as [|n rest]; [done|]. cbn [index lookup mbind outcome_bind].
    pose proof (pack_range [n] rest (even_tail _ _ He)) as Hp. cbn [app length] in Hp |- *.
    rewrite Hp. by destruct leaf.
Qed.

Lemma to_encoded_path_with_bump_spec nibs leaf :
  to_encoded_path_with_bump (E:=E) nibs leaf = Ok (hp_encode nibs leaf).
Proof. apply to_encoded_path_spec. Qed.

Lemma scan_bytes_spec fuel p0 q n0 m :
  length q ≤ fuel → 2 * length q ≤ length m →
  scan_bytes (E:=E) fuel (p0 ++ q) (n0 ++ m) (length n0 + 2 * length q) (length n0) (length p0)
  = Ok (if decide (take (2 * length q) m = to_nibs q)
        then Some (length n0 + 2 * length q, length p0 + length q) else None).
Proof.
  revert fuel p0 n0 m. induction q as [|b q IH]; intros fuel p0 n0 m Hf Hm.
  { destruct fuel; simpl; rewrite decide_False by lia; do 3 f_equal; lia. }
  simpl in Hf, Hm. destruct m as [|a [|c m]]; [simpl in Hm; lia..|]. simpl in Hm.
  destruct fuel as [|fuel]; [lia|]. cbn [scan_bytes length].
  rewrite decide_True by lia. unfold byte_matches.
  rewrite (index_ok (p0 ++ b :: q) _ b) by (by apply list_lookup_middle).
  rewrite (index_ok (n0 ++ a :: c :: m) (length n0) a) by (by apply list_lookup_middle).
  rewrite (index_ok (n0 ++ a :: c :: m) _ c) by apply lookup_middle_next.
  cbn [mbind outcome_bind]. rewrite to_nibs_cons.
  replace (2 * S (length q)) with (S (S (2 * length q))) by lia. cbn [take].
  case_decide as Ha; cbn [mbind outcome_bind].
  { rewrite decide_False by congruence. done. }
  case_bool_decide as Hc; [|rewrite decide_False by congruence; done].
  specialize (IH fuel (p0 ++ [b]) (n0 ++ [a; c]) m ltac:(lia) ltac:(lia)).
  rewrite <-!app_assoc in IH. cbn [app] in IH. rewrite !length_app in IH. cbn [length] in IH.
  replace (length n0 + 2 + 2 * length q) with (length n0 + S (S (2 * length q))) in IH by lia.
  rewrite IH.
  destruct (decide (take (2 * length q) m = to_nibs q)) as [Ht|Ht].
  - rewrite decide_True by congruence. do 3 f_equal; lia.
  - rewrite decide_False by congruence. done.
Qed.

(** The scan of a whole path succeeds exactly on the sequences it is a prefix
    of, and then stops at the end of both. *)
Lemma scan_path_spec first rest nibs :
  let path := first :: rest in
  let count := encoded_path_nibble_count path in
  count ≠ 0 → count ≤ length nibs →
  scan_path (E:=E) path nibs count
  = Ok (if decide (take count nibs = prefix_to_nibs path)
        then Some (count, length path) else None).
Proof.
  intros path count Hz Hl. subst path.
  assert (count = length (if is_odd_path first then [first &. 0x0f] else []) + 2 * length rest)
    as Hcount.
  { subst count. rewrite nibble_count_length. simpl. by rewrite length_app, to_nibs_length. }
  clearbody count. subst count. unfold scan_path. cbn [index lookup list_lookup mbind outcome_bind].
  cbn [prefix_to_nibs]. destruct (is_odd_path first).
  - destruct nibs as [|n nibs]; [simpl in Hl; lia|]. cbn [index lookup list_lookup mbind outcome_bind].
    cbn [length app take Nat.add] in Hl |- *. case_decide as Hn.
    { rewrite decide_False by congruence. done. }
    subst.
    pose proof (scan_bytes_spec (S (2 * length rest)) [first] rest [first &. 0x0f] nibs
      ltac:(lia) ltac:(simpl in *; lia)) as Hs.
    cbn [app length Nat.add] in Hs. rewrite Hs.
    destruct (decide (take (2 * length rest) nibs = to_nibs rest)).
    + by rewrite decide_True by congruence.
    + by rewrite decide_False by congruence.
  - cbn [length app Nat.add] in Hl |- *.
    pose proof (scan_bytes_spec (2 * length rest) [first] rest [] nibs
      ltac:(lia) ltac:(simpl in *; lia)) as Hs.
    cbn [app length Nat.add] in Hs. by rewrite Hs.
Qed.

Lemma encoded_path_eq_nibs_spec path nibs :
  encoded_path_eq_nibs (E:=E) path nibs = Ok (bool_decide (prefix_to_nibs path = nibs)).
Proof.
  unfold encoded_path_eq_nibs. case_decide as Hne.
  { rewrite nibble_count_length in Hne. by rewrite bool_decide_false by congruence. }
  case_decide as Hz.
  { rewrite nibble_count_length in Hne, Hz. rewrite Hz in Hne.
    symmetry in Hne. apply nil_length_inv in Hne, Hz. rewrite Hz, Hne. done. }
  destruct path as [|first rest]; [done|].
  rewrite <-Hne, scan_path_spec by (done || lia). cbn [mbind outcome_bind].
  rewrite take_ge by lia. case_decide as Heq.
  - rewrite decide_False by lia. by rewrite bool_decide_true by done.
  - by rewrite bool_decide_false by congruence.
Qed.

Lemma encoded_path_strip_prefix_spec path nibs :
  encoded_path_strip_prefix (E:=E) path nibs = Ok (strip_prefix (prefix_to_nibs path) nibs).
Proof.
  unfold encoded_path_strip_prefix. case_decide as Hlt.
  { rewrite nibble_count_length in Hlt. f_equal. symmetry. apply strip_prefix_None.
    intros t ->. rewrite length_app in Hlt. lia. }
  case_decide as Hz.
  { rewrite nibble_count_length in Hz. apply nil_length_inv in Hz. by rewrite Hz. }
  destruct path as [|first rest]; [done|].
  rewrite scan_path_spec by (done || lia). cbn [mbind outcome_bind]. case_decide as Heq.
  - rewrite decide_False by lia. rewrite slice_from_ok by lia. cbn [fmap outcome_fmap]. f_equal. symmetry.
    apply strip_prefix_Some. rewrite <-Heq. by rewrite take_drop.
  - f_equal. symmetry. apply strip_prefix_None. intros t ->. apply Heq.
    rewrite nibble_count_length. apply take_app_length.
Qed.
End loops.

(** ** Longest common prefix *)

Lemma lcp_loop_spec i a b :
  lcp_loop i (zip a b) (i + length a `min` length b) = i + lcp a b.
Proof.
  unfold lcp. revert i b. induction a as [|x a IH]; intros i b; [simpl; lia|].
  destruct b as [|y b]; [simpl; lia|]. cbn [zip zip_with lcp_loop length Nat.min].
  case_decide; [lia|].
  pose proof (IH (S i) b) as H1. pose proof (IH 1 b) as H2. cbn [zip] in *.
  replace (i + S (length a `min` length b)) with (S i + length a `min` length b) by lia.
  rewrite H1. change (S (length a `min` length b)) with (1 + length a `min` length b).
  rewrite H2. lia.
Qed.

Lemma lcp_cons x y a b : lcp (x :: a) (y :: b) = if decide (x = y) then S (lcp a b) else 0.
Proof.
  unfold lcp at 1. cbn [zip zip_with lcp_loop length Nat.min]. case_decide as Hxy.
  - by rewrite decide_False.
  - subst. rewrite decide_True by done. apply (lcp_loop_spec 1).
Qed.

(** [lcp] is the length of the longest common prefix: up to it the two agree,
    and neither goes on with the same element. *)
Lemma lcp_spec a b :
  ∃ p a' b', a = p ++ a' ∧ b = p ++ b' ∧ length p = lcp a b ∧
    (∀ x, head a' = Some x → head b' = Some x → False).
Proof.
  revert b. induction a as [|x a IH]; intros b.
  { exists [], [], b. split_and!; [done|done|by destruct b|done]. }
  destruct b as [|y b].
  { exists [], (x :: a), []. split_and!; done. }
  rewrite lcp_cons. case_decide as Hxy.
  - subst. destruct (IH b) as (p & a' & b' & -> & -> & Hl & Hd).
    exists (y :: p), a', b'. simpl. split_and!; [done|done|lia|done].
  - exists [], (x :: a), (y :: b). split_and!; [done..|]. simpl. intros z [= ->] [= ->]. done.
Qed.

Lemma lcp_app p a b : lcp (p ++ a) (p ++ b) = length p + lcp a b.
Proof.
  induction p as [|x p IH]; [done|]. cbn [app]. rewrite lcp_cons, decide_True by done.
  rewrite IH. done.
Qed.

(** [common nibs key p a b]: [p] is the longest common prefix of [nibs] and
    [key], and [a] and [b] are what follows it. *)
Definition common (nibs key p a b : bytes) : Prop :=
  nibs = p ++ a ∧ key = p ++ b ∧ ∀ x, head a = Some x → head b = Some x → False.

Lemma lcp_split nibs key :
  let n := lcp nibs key in
  common nibs key (take n nibs) (drop n nibs) (drop n key) ∧
  n = length (take n nibs).
Proof.
  cbv zeta. destruct (lcp_spec nibs key) as (p & a & b & Ha & Hb & Hl & Hd).
  rewrite <-Hl. subst nibs key.
  by rewrite !take_app_length, !drop_app_length.
Qed.

(** Splits [nibs] and [key] after their longest common prefix. *)
Ltac split_common nibs key :=
  let p := fresh "p" in let a := fresh "a" in let b := fresh "b" in
  let Hc := fresh "Hcommon" in let Hl := fresh "Hlen" in
  pose proof (lcp_split nibs key) as [Hc Hl]; cbv zeta in Hc, Hl;
  set (p := take (lcp nibs key) nibs) in *;
  set (a := drop (lcp nibs key) nibs) in *;
  set (b := drop (lcp nibs key) key) in *;
  clearbody p a b; destruct Hc as (Hnibs & Hkey & Hhead).
(** Compares the key [key'] looked up with the prefix [p] of the other paths. *)
Ltac compare_prefix p key' :=
  let tl := fresh "tl" in let Hs := fresh "Hs" in
  destruct (strip_prefix p key') as [tl|] eqn:Hs;
  [apply strip_prefix_Some in Hs; subst; destruct tl | pose proof (proj1 (strip_prefix_None _ _) Hs)].

(** Takes facts about the parts of a sequence of nibbles. *)
Ltac split_nibbles :=
  repeat match goal with
  | H : nibbles (_ ++ _) |- _ => apply Forall_app in H as [? ?]
  | H : nibbles (_ :: _) |- _ => apply Forall_cons in H as [? ?]
  | H : Forall is_nibble (_ :: _) |- _ => apply Forall_cons in H as [? ?]
  | H : Forall is_nibble (_ ++ _) |- _ => apply Forall_app in H as [? ?]
  end.

Lemma nibbles_nil : nibbles [].
Proof. constructor. Qed.

Lemma nibbles_cons_2 n l : is_nibble n → nibbles l → nibbles (n :: l).
Proof. by constructor. Qed.

Lemma nibbles_app_2 k l : nibbles k → nibbles l → nibbles (k ++ l).
Proof. by apply Forall_app_2. Qed.

#[export] Hint Resolve nibbles_nil nibbles_cons_2 nibbles_app_2 hp_encode_nonempty hp_encode_u8 to_nibs_nibbles prefix_to_nibs_nibbles : reth.
#[export] Hint Rewrite hp_decode_encode hp_encode_leaf using done : reth_exec.

(** ** What the rest of the program relies on *)

(** C36: The comparisons that read a compact path in place agree with expanding it
    first: [encoded_path_eq_nibs] tells whether the path expands to the nibbles,
    and [encoded_path_strip_prefix] strips the expanded path.  They do so for
    every byte string and every list of nibbles, without an index out of range. *)
Theorem path_scans_agree_with_expansion E path nibs :
  encoded_path_eq_nibs (E:=E) path nibs = Ok (bool_decide (prefix_to_nibs path = nibs)) ∧
  encoded_path_strip_prefix (E:=E) path nibs = Ok (strip_prefix (prefix_to_nibs path) nibs).
Proof. split; [apply encoded_path_eq_nibs_spec|apply encoded_path_strip_prefix_spec]. Qed.

(** C37: Compact encoding round trip: both encoders give the same bytes for a list
    of nibbles, of which there is one more than half as many as nibbles, and they
    expand to the nibbles again and tell the kind of the node. *)
Theorem path_encoding_roundtrip E nibs is_leaf :
  nibbles nibs →
  ∃ path, to_encoded_path (E:=E) nibs is_leaf = Ok path ∧
    to_encoded_path_with_bump (E:=E) nibs is_leaf = Ok path ∧
    Forall is_u8 path ∧ length path = S (length nibs / 2) ∧
    prefix_to_nibs path = nibs ∧ is_leaf_path path = is_leaf.
Proof.
  intros Hn. exists (hp_encode nibs is_leaf). destruct (hp_encode_decode nibs is_leaf Hn).
  split_and!; auto using to_encoded_path_spec, to_encoded_path_with_bump_spec, hp_encode_u8, hp_encode_length.
Qed.

Lemma path_encoding_roundtrip_witness :
  nibbles [1; 15; 0]%N ∧
  ∃ path, to_encoded_path (E:=unit) [1; 15; 0]%N true = Ok path ∧
    to_encoded_path_with_bump (E:=unit) [1; 15; 0]%N true = Ok path ∧
    Forall is_u8 path ∧ length path = 2 ∧
    prefix_to_nibs path = [1; 15; 0]%N ∧ is_leaf_path path = true.
Proof.
  assert (nibbles [1; 15; 0]%N) as Hn by (repeat constructor).
  split; [exact Hn|]. exact (path_encoding_roundtrip unit [1; 15; 0]%N true Hn).
Defined.
