(* ===== verification/Node.v ===== *)
(** * Nodes, node references and errors
    ([crates/mpt/src/node.rs], the [Error] of [crates/mpt/src/trie.rs]) *)

From S2P Require Import Prelude External.

(** Index of a node in the arena (a [u32] in the code). *)
Abbreviation NodeId := nat.

(** Sentinel index of the null node. *)
Definition NULL_NODE_ID : NodeId := 0.

Inductive NodeData : Type :=
  | Null
  | Branch (children : list (option NodeId))
  | Leaf (path value : bytes)
  | Extension (path : bytes) (child : NodeId)
  | Digest (digest : bytes).

(** [[None; 16]] *)
Definition no_children : list (option NodeId) := replicate 16 None.

(** How a parent refers to a child: the child's own encoding when it is short,
    the hash of it otherwise. *)
Inductive NodeRef : Type :=
  | BytesRef (slice : bytes)
  | DigestRef (slice : bytes).

Definition as_slice (r : NodeRef) : bytes :=
  match r with BytesRef slice => slice | DigestRef slice => slice end.

(** [&slice[1..]] cannot fail here: the slice has 33 bytes. *)
Definition from_rlp_slice (slice : bytes) : NodeRef :=
  if decide (length slice = 33) then DigestRef (drop 1 slice) else BytesRef slice.

(** [PartialEq for NodeRef]: only the bytes count, not the variant. *)
Definition node_ref_eq (a b : NodeRef) : bool := bool_decide (as_slice a = as_slice b).

Definition is_digest_ref (r : NodeRef) : bool :=
  match r with DigestRef _ => true | BytesRef _ => false end.

Definition is_null (d : NodeData) : bool := match d with Null => true | _ => false end.

(** The error type, over the errors of [alloy_rlp]. *)
Inductive error (RlpError : Type) : Type :=
  | NodeRefMismatch
  | NodeNotResolved (digest : B256)
  | RlpError (e : RlpError)
  | ValueInBranch
  | InvalidFrontierPrefix
  | InlineFrontierChunk.
Arguments NodeRefMismatch {RlpError}.
Arguments NodeNotResolved {RlpError} digest.
Arguments RlpError {RlpError} e.
Arguments ValueInBranch {RlpError}.
Arguments InvalidFrontierPrefix {RlpError}.
Arguments InlineFrontierChunk {RlpError}.

Abbreviation Error := (error rlp_error).

(** [B256::from_slice] panics unless it is given 32 bytes. *)
Definition from_slice {E} (slice : bytes) : outcome E B256 :=
  if decide (length slice = 32) then Ok slice else Panic LengthMismatch.

(** A [RefCell]: its content, and whether it is mutably borrowed. *)
Record RefCell (A : Type) : Type := mkCell { cell_value : A; cell_borrowed : bool }.
Arguments mkCell {A} _ _.
Arguments cell_value {A} _.
Arguments cell_borrowed {A} _.

Definition new_cell {A} (a : A) : RefCell A := mkCell a false.

#[export] Instance NodeData_eq_dec : EqDecision NodeData.
Proof. solve_decision. Defined.
#[export] Instance NodeRef_eq_dec : EqDecision NodeRef.
Proof. solve_decision. Defined.

Section node_lemmas.
Context `{CratesOk}.

Lemma from_slice_ok {E} d : length d = 32 → from_slice (E:=E) d = Ok d.
Proof. intros. unfold from_slice. by rewrite decide_True. Qed.

Lemma node_ref_eq_spec a b : node_ref_eq a b = true ↔ as_slice a = as_slice b.
Proof. unfold node_ref_eq. apply bool_decide_eq_true. Qed.

(** A digest reference as it stands in its parent is read back as that digest. *)
Lemma from_rlp_slice_digest d :
  length d = 32 → from_rlp_slice ((EMPTY_STRING_CODE + 32)%N :: d) = DigestRef d.
Proof. intros Hd. unfold from_rlp_slice. rewrite decide_True by (simpl; lia). done. Qed.

Lemma from_rlp_slice_short s : length s < 32 → from_rlp_slice s = BytesRef s.
Proof. intros Hs. unfold from_rlp_slice. by rewrite decide_False by lia. Qed.
End node_lemmas.
