(* ===== verification/Mpt.v ===== *)
(** * The arena trie: data and operations ([crates/mpt/src/trie.rs])

    [Mpt] keeps its nodes in one vector and refers to them by index, with one
    cached reference per node.  Code that takes [&mut self], and code that takes
    [&self] but fills the caches, is a [machine] over the record; code that only
    reads is a function of it.  Recursive operations take fuel; the public ones
    start with [mpt_fuel], which [MptRefine.v] shows to be enough. *)

From S2P Require Import Prelude External Node Hp.

Definition MIN_ALIGN : nat := 4.

(** [bump] is left out: a slice it hands out is the list of its bytes. *)
Record Mpt : Type := mkMpt {
  root_id : NodeId;
  nodes : list NodeData;
  cached_references : list (RefCell (option NodeRef));
  rlp_scratch : RefCell bytes;
}.

Definition set_root_id (id : NodeId) (m : Mpt) : Mpt :=
  mkMpt id (nodes m) (cached_references m) (rlp_scratch m).
Definition set_nodes (ns : list NodeData) (m : Mpt) : Mpt :=
  mkMpt (root_id m) ns (cached_references m) (rlp_scratch m).
Definition set_cached_references (cs : list (RefCell (option NodeRef))) (m : Mpt) : Mpt :=
  mkMpt (root_id m) (nodes m) cs (rlp_scratch m).
Definition set_rlp_scratch (s : RefCell bytes) (m : Mpt) : Mpt :=
  mkMpt (root_id m) (nodes m) (cached_references m) s.

(** [Mpt::with_capacity]; the capacity only sizes the allocation. *)
Definition with_capacity (capacity : nat) : Mpt :=
  mkMpt 0 [Null] [new_cell None] (new_cell []).

Definition new : Mpt := with_capacity 1.

Definition num_nodes (m : Mpt) : nat := length (nodes m).

(** Fuel for operations that walk down from the root. *)
Definition mpt_fuel (m : Mpt) : nat := S (num_nodes m).

(** [RLP] encodings of a type, for the generic [get_rlp] and [insert_rlp]. *)
Class RlpCodec `{Crates} (T : Type) : Type := {
  rlp_encode : T → bytes;
  rlp_decode : bytes → outcome rlp_error T;
}.

Section operations.
Context `{Crates}.

(** ** Access to the arena *)

Definition node_at (id : NodeId) : machine Mpt Error NodeData :=
  m ← get_state; lift (index (nodes m) id).

Definition write_node (id : NodeId) (data : NodeData) : machine Mpt Error unit :=
  m ← get_state;
  ns ← lift (store (nodes m) id data);
  put_state (set_nodes ns m).

Definition cell_at (id : NodeId) : machine Mpt Error (RefCell (option NodeRef)) :=
  m ← get_state; lift (index (cached_references m) id).

Definition write_cell (id : NodeId) (c : RefCell (option NodeRef)) : machine Mpt Error unit :=
  m ← get_state;
  cs ← lift (store (cached_references m) id c);
  put_state (set_cached_references cs m).

Definition add_node (data : NodeData) (node_ref : option NodeRef) : machine Mpt Error NodeId :=
  m ← get_state;
  let id := as_u32 (length (nodes m)) in
  put_state (mkMpt (root_id m) (nodes m ++ [data])
               (cached_references m ++ [new_cell node_ref]) (rlp_scratch m));;
  mret id.

(** [self.cached_references[node_id].borrow_mut().take()] *)
Definition invalidate_ref_cache (id : NodeId) : machine Mpt Error unit :=
  c ← cell_at id;
  if cell_borrowed c then panics AlreadyBorrowed else write_cell id (new_cell None).

(** ** References and encodings *)

Definition NULL_NODE_REF_SLICE : bytes := [EMPTY_STRING_CODE].

Section open_recursion.
(** [self.calc_reference], which the functions below call on children. *)
Variable calc : NodeId → machine Mpt Error NodeRef.

(** [self.cached_references[id].borrow_mut().get_or_insert_with(|| self.calc_reference(id))] *)
Definition cached_reference (id : NodeId) : machine Mpt Error NodeRef :=
  c ← cell_at id;
  if cell_borrowed c then panics AlreadyBorrowed else
  match cell_value c with
  | Some r => mret r
  | None =>
      write_cell id (mkCell None true);;
      r ← calc id;
      write_cell id (mkCell (Some r) false);;
      mret r
  end.

Definition reference_length (id : NodeId) : machine Mpt Error nat :=
  r ← cached_reference id;
  match r with
  | BytesRef slice => mret (length slice)
  | DigestRef _ => mret (1 + 32)
  end.

Definition payload_length (id : NodeId) : machine Mpt Error nat :=
  data ← node_at id;
  match data with
  | Null => mret 0
  | Branch children =>
      lengths ← mapM (λ c, match c with
                           | Some id => reference_length id
                           | None => mret 1
                           end) children;
      mret (1 + sum_list lengths)
  | Leaf path value => mret (slice_length path + slice_length value)
  | Extension path child =>
      n ← reference_length child;
      mret (slice_length path + n)
  | Digest _ => mret 32
  end.

(** The bytes [reference_encode] writes to [out]. *)
Definition reference_encode (id : NodeId) : machine Mpt Error bytes :=
  r ← cached_reference id;
  match r with
  | BytesRef slice => mret slice
  | DigestRef digest => mret ((EMPTY_STRING_CODE + 32)%N :: digest)
  end.

(** The bytes [encode_with_payload_len] writes to [out]. *)
Definition encode_with_payload_len (id : NodeId) (plen : nat) : machine Mpt Error bytes :=
  data ← node_at id;
  match data with
  | Null => mret [EMPTY_STRING_CODE]
  | Branch children =>
      refs ← mapM (λ c, match c with
                        | Some id => reference_encode id
                        | None => mret [EMPTY_STRING_CODE]
                        end) children;
      mret (header_encode true plen ++ concat refs ++ [EMPTY_STRING_CODE])
  | Leaf path value =>
      mret (header_encode true plen ++ slice_encode path ++ slice_encode value)
  | Extension path child =>
      r ← reference_encode child;
      mret (header_encode true plen ++ slice_encode path ++ r)
  | Digest digest => mret (slice_encode digest)
  end.

(** [let mut scratch = self.rlp_scratch.borrow_mut(); scratch.clear();
    self.encode_with_payload_len(..., &mut *scratch); keccak256(&*scratch)] *)
Definition scratch_digest (id : NodeId) (plen : nat) : machine Mpt Error NodeRef :=
  m ← get_state;
  if cell_borrowed (rlp_scratch m) then panics AlreadyBorrowed else
  modify (set_rlp_scratch (mkCell [] true));;
  encoded ← encode_with_payload_len id plen;
  modify (set_rlp_scratch (mkCell encoded false));;
  mret (DigestRef (keccak256 encoded)).
End open_recursion.

Fixpoint calc_reference (fuel : nat) (id : NodeId) : machine Mpt Error NodeRef :=
  match fuel with
  | 0 => lift OutOfFuel
  | S fuel' =>
      data ← node_at id;
      match data with
      | Null => mret (BytesRef NULL_NODE_REF_SLICE)
      | Digest digest => mret (DigestRef digest)
      | _ =>
          plen ← payload_length (calc_reference fuel') id;
          let rlp_length := plen + length_of_length plen in
          if decide (rlp_length < 32) then
            encoded ← encode_with_payload_len (calc_reference fuel') id plen;
            mret (BytesRef encoded)
          else scratch_digest (calc_reference fuel') id plen
      end
  end.

(** [self.calc_reference] of the arena at hand. *)
Definition calc_reference_of (id : NodeId) : machine Mpt Error NodeRef :=
  m ← get_state; calc_reference (mpt_fuel m) id.

Definition hash : machine Mpt Error B256 :=
  m ← get_state;
  data ← node_at (root_id m);
  match data with
  | Null => mret EMPTY_ROOT_HASH
  | _ =>
      r ← cached_reference (calc_reference (mpt_fuel m)) (root_id m);
      match r with
      | DigestRef digest => lift (from_slice digest)
      | BytesRef slice => mret (keccak256 slice)
      end
  end.

Definition subtree_hash (id : NodeId) : machine Mpt Error B256 :=
  data ← node_at id;
  match data with
  | Null => mret EMPTY_ROOT_HASH
  | _ =>
      r ← calc_reference_of id;
      match r with
      | DigestRef digest => lift (from_slice digest)
      | BytesRef slice => mret (keccak256 slice)
      end
  end.

Definition root_is_hash_addressed : machine Mpt Error bool :=
  m ← get_state;
  r ← calc_reference_of (root_id m);
  mret (is_digest_ref r).

Definition is_empty (m : Mpt) : outcome Error bool :=
  data ← index (nodes m) (root_id m);
  Ok (is_null data).

(** ** Lookup *)

Fixpoint get_internal (fuel : nat) (m : Mpt) (id : NodeId) (key_nibs : bytes)
  : outcome Error (option bytes) :=
  match fuel with
  | 0 => OutOfFuel
  | S fuel' =>
      data ← index (nodes m) id;
      match data with
      | Null => Ok None
      | Branch children =>
          match key_nibs with
          | i :: tail =>
              slot ← index children (N.to_nat i);
              match slot with
              | Some child => get_internal fuel' m child tail
              | None => Ok None
              end
          | [] => Ok None
          end
      | Leaf path value =>
          same ← encoded_path_eq_nibs path key_nibs;
          if (same : bool) then Ok (Some value) else Ok None
      | Extension path child =>
          stripped ← encoded_path_strip_prefix path key_nibs;
          match stripped with
          | Some tail => get_internal fuel' m child tail
          | None => Ok None
          end
      | Digest digest =>
          d ← from_slice digest;
          Err (NodeNotResolved d)
      end
  end.

Definition get_nibbles (m : Mpt) (key_nibs : bytes) : outcome Error (option bytes) :=
  get_internal (mpt_fuel m) m (root_id m) key_nibs.

Definition get (m : Mpt) (key : bytes) : outcome Error (option bytes) :=
  get_internal (mpt_fuel m) m (root_id m) (to_nibs key).

Definition get_rlp {T} `{!RlpCodec T} (m : Mpt) (key : bytes) : outcome Error (option T) :=
  value ← get m key;
  match value with
  | Some slice => v ← map_err RlpError (rlp_decode slice); Ok (Some v)
  | None => Ok None
  end.

Definition get_rlp_nibbles {T} `{!RlpCodec T} (m : Mpt) (key_nibs : bytes)
  : outcome Error (option T) :=
  value ← get_nibbles m key_nibs;
  match value with
  | Some slice => v ← map_err RlpError (rlp_decode slice); Ok (Some v)
  | None => Ok None
  end.

(** ** Insertion *)

(** The branch that replaces a leaf or extension whose path splits from the key
    after [common_len] nibbles, under an extension when they share a prefix. *)
Definition place_branch (children : list (option NodeId)) (self_nibs : bytes) (common_len : nat)
  : machine Mpt Error NodeData :=
  if decide (0 < common_len) then
    branch_id ← add_node (Branch children) None;
    shared ← lift (slice_to self_nibs common_len);
    ext_path ← lift (to_encoded_path_with_bump shared false);
    mret (Extension ext_path branch_id)
  else mret (Branch children).

Fixpoint insert_internal (fuel : nat) (node_id : NodeId) (key_nibs value : bytes)
  : machine Mpt Error bool :=
  match fuel with
  | 0 => lift OutOfFuel
  | S fuel' =>
      data ← node_at node_id;
      updated ← match data with
      | Null =>
          path ← lift (to_encoded_path_with_bump key_nibs true);
          write_node node_id (Leaf path value);;
          mret true
      | Branch children =>
          match key_nibs with
          | i :: tail =>
              slot ← lift (index children (N.to_nat i));
              match slot with
              | Some id => insert_internal fuel' id tail value
              | None =>
                  path ← lift (to_encoded_path_with_bump tail true);
                  new_leaf_id ← add_node (Leaf path value) None;
                  children' ← lift (store children (N.to_nat i) (Some new_leaf_id));
                  write_node node_id (Branch children');;
                  mret true
              end
          | [] => throw ValueInBranch
          end
      | Leaf prefix old_value =>
          let self_nibs := prefix_to_nibs prefix in
          let common_len := lcp self_nibs key_nibs in
          if decide (common_len = length self_nibs ∧ common_len = length key_nibs) then
            if decide (old_value = value) then mret false
            else write_node node_id (Leaf prefix value);; mret true
          else if decide (common_len = length self_nibs ∨ common_len = length key_nibs) then
            throw ValueInBranch
          else
            let split_point := common_len + 1 in
            rest1 ← lift (slice_from self_nibs split_point);
            leaf1_path ← lift (to_encoded_path_with_bump rest1 true);
            leaf1_id ← add_node (Leaf leaf1_path old_value) None;
            rest2 ← lift (slice_from key_nibs split_point);
            leaf2_path ← lift (to_encoded_path_with_bump rest2 true);
            leaf2_id ← add_node (Leaf leaf2_path value) None;
            i1 ← lift (index self_nibs common_len);
            children1 ← lift (store no_children (N.to_nat i1) (Some leaf1_id));
            i2 ← lift (index key_nibs common_len);
            children2 ← lift (store children1 (N.to_nat i2) (Some leaf2_id));
            new_node_data ← place_branch children2 self_nibs common_len;
            write_node node_id new_node_data;;
            mret true
      | Extension prefix child_id =>
          let self_nibs := prefix_to_nibs prefix in
          let common_len := lcp self_nibs key_nibs in
          if decide (common_len = length self_nibs) then
            tail ← lift (slice_from key_nibs common_len);
            insert_internal fuel' child_id tail value
          else if decide (common_len = length key_nibs) then throw ValueInBranch
          else
            let split_point := common_len + 1 in
            i1 ← (if decide (split_point < length self_nibs) then
                    rest1 ← lift (slice_from self_nibs split_point);
                    ext_path ← lift (to_encoded_path_with_bump rest1 false);
                    ext_id ← add_node (Extension ext_path child_id) None;
                    mret ext_id
                  else mret child_id);
            n1 ← lift (index self_nibs common_len);
            children1 ← lift (store no_children (N.to_nat n1) (Some i1));
            rest2 ← lift (slice_from key_nibs split_point);
            leaf_path ← lift (to_encoded_path_with_bump rest2 true);
            leaf_id ← add_node (Leaf leaf_path value) None;
            n2 ← lift (index key_nibs common_len);
            children2 ← lift (store children1 (N.to_nat n2) (Some leaf_id));
            new_node_data ← place_branch children2 self_nibs common_len;
            write_node node_id new_node_data;;
            mret true
      | Digest digest =>
          d ← lift (from_slice digest);
          throw (NodeNotResolved d)
      end;
      if (updated : bool) then invalidate_ref_cache node_id;; mret true
      else mret false
  end.

Definition insert_nibbles (key_nibs value : bytes) : machine Mpt Error bool :=
  m ← get_state; insert_internal (mpt_fuel m) (root_id m) key_nibs value.

Definition insert (key value : bytes) : machine Mpt Error bool :=
  m ← get_state; insert_internal (mpt_fuel m) (root_id m) (to_nibs key) value.

Definition insert_rlp {T} `{!RlpCodec T} (key : bytes) (value : T) : machine Mpt Error bool :=
  insert key (rlp_encode value).

Definition insert_rlp_nibbles {T} `{!RlpCodec T} (key_nibs : bytes) (value : T)
  : machine Mpt Error bool :=
  insert_nibbles key_nibs (rlp_encode value).

(** ** Deletion *)

(** [children.iter().enumerate().filter(|(_, n)| n.is_some())] *)
Definition remaining_children {A} (children : list (option A)) : list (nat * A) :=
  omap (λ p, match p with (i, Some c) => Some (i, c) | (_, None) => None end)
    (imap (λ i c, (i, c)) children).

(** What a branch whose only child is [child_id], in slot [index], becomes. *)
Definition collapse_branch (slot : nat) (child_id : NodeId) (child_node_data : NodeData)
  : machine Mpt Error NodeData :=
  match child_node_data with
  | Leaf prefix value =>
      let new_nibs := N.of_nat slot :: prefix_to_nibs prefix in
      new_path ← lift (to_encoded_path_with_bump new_nibs true);
      mret (Leaf new_path value)
  | Extension prefix child_child_id =>
      let new_nibs := N.of_nat slot :: prefix_to_nibs prefix in
      new_path ← lift (to_encoded_path_with_bump new_nibs false);
      mret (Extension new_path child_child_id)
  | Branch _ | Digest _ =>
      new_path ← lift (to_encoded_path_with_bump [N.of_nat slot] false);
      mret (Extension new_path child_id)
  | Null => panics Unreachable
  end.

(** What an extension becomes when its child turned into [child_node_data]. *)
Definition collapse_extension (prefix : bytes) (child_id : NodeId) (child_node_data : NodeData)
  : machine Mpt Error NodeData :=
  let self_nibs := prefix_to_nibs prefix in
  match child_node_data with
  | Null => mret Null
  | Leaf child_path value =>
      new_path ← lift (to_encoded_path_with_bump (self_nibs ++ prefix_to_nibs child_path) true);
      mret (Leaf new_path value)
  | Extension child_path grandchild_id =>
      new_path ← lift (to_encoded_path_with_bump (self_nibs ++ prefix_to_nibs child_path) false);
      mret (Extension new_path grandchild_id)
  | Branch _ | Digest _ => mret (Extension prefix child_id)
  end.

Fixpoint delete_internal (fuel : nat) (node_id : NodeId) (key_nibs : bytes)
  : machine Mpt Error bool :=
  match fuel with
  | 0 => lift OutOfFuel
  | S fuel' =>
      data ← node_at node_id;
      updated ← match data with
      | Null => mret false
      | Branch children =>
          match key_nibs with
          | i :: tail =>
              slot ← lift (index children (N.to_nat i));
              match slot with
              | Some id =>
                  deleted ← delete_internal fuel' id tail;
                  if negb deleted then mret false else
                  child ← node_at id;
                  children' ← (if is_null child then lift (store children (N.to_nat i) None)
                               else mret children);
                  match remaining_children children' with
                  | [] => panics UnwrapOnNone
                  | [(slot1, child_id)] =>
                      child_node_data ← node_at child_id;
                      new_node_data ← collapse_branch slot1 child_id child_node_data;
                      write_node node_id new_node_data;;
                      mret true
                  | _ :: _ :: _ =>
                      write_node node_id (Branch children');;
                      mret true
                  end
              | None => mret false
              end
          | [] => throw ValueInBranch
          end
      | Leaf prefix _ =>
          if decide (prefix_to_nibs prefix ≠ key_nibs) then mret false
          else write_node node_id Null;; mret true
      | Extension prefix child_id =>
          match strip_prefix (prefix_to_nibs prefix) key_nibs with
          | Some tail =>
              deleted ← delete_internal fuel' child_id tail;
              if negb deleted then mret false else
              child_node_data ← node_at child_id;
              new_node_data ← collapse_extension prefix child_id child_node_data;
              write_node node_id new_node_data;;
              mret true
          | None => mret false
          end
      | Digest digest =>
          d ← lift (from_slice digest);
          throw (NodeNotResolved d)
      end;
      if (updated : bool) then invalidate_ref_cache node_id;; mret true
      else mret false
  end.

Definition delete_nibbles (key_nibs : bytes) : machine Mpt Error bool :=
  m ← get_state; delete_internal (mpt_fuel m) (root_id m) key_nibs.

Definition delete (key : bytes) : machine Mpt Error bool :=
  m ← get_state; delete_internal (mpt_fuel m) (root_id m) (to_nibs key).
End operations.
