(* ===== verification/Trie.v ===== *)
(** * Tries as trees: the specification of the arena operations

    The arena of [Mpt.v] represents a tree.  This file has the tree, what each
    operation does to it (errors and panics included), and the laws that make
    the operations those of a finite map.  [MptRefine.v] shows that the arena
    operations implement the ones given here. *)

From S2P Require Import Prelude External Node Hp Mpt.

(** Paths are hex-prefix encoded, as the nodes hold them. *)
Inductive trie : Type :=
  | TNull
  | TDigest (digest : bytes)
  | TLeaf (path value : bytes)
  | TExtension (path : bytes) (child : trie)
  | TBranch (children : list (option trie)).

(** Induction with the hypothesis for every child of a branch. *)
Lemma trie_nested_ind (P : trie → Prop) :
  P TNull → (∀ d, P (TDigest d)) → (∀ p v, P (TLeaf p v)) →
  (∀ p c, P c → P (TExtension p c)) →
  (∀ cs, (∀ i c, cs !! i = Some (Some c) → P c) → P (TBranch cs)) →
  ∀ t, P t.
Proof.
  intros Hn Hd Hl He Hb. fix IH 1. intros [|d|p v|p c|cs];
    [apply Hn|apply Hd|apply Hl|apply He, IH|apply Hb].
  induction cs as [|o cs IHcs]; intros [|i] c Hc; try discriminate.
  - destruct o as [c'|]; [|discriminate]. injection Hc as <-. apply IH.
  - by apply (IHcs i).
Defined.

Section operations.
Context `{Crates}.

(** Applies [f] to the child in slot [i], or returns [none] for an empty slot. *)
Definition at_slot {A B} (f : A → outcome Error B) (none : outcome Error B)
  : list (option A) → nat → outcome Error B :=
  fix go cs i :=
    match cs, i with
    | [], _ => Panic IndexOutOfBounds
    | Some c :: _, 0 => f c
    | None :: _, 0 => none
    | _ :: cs', S i' => go cs' i'
    end.

Fixpoint trie_get (t : trie) (key : bytes) : outcome Error (option bytes) :=
  match t with
  | TNull => Ok None
  | TDigest d => d' ← from_slice d; Err (NodeNotResolved d')
  | TLeaf path value => Ok (if decide (prefix_to_nibs path = key) then Some value else None)
  | TExtension path c =>
      match strip_prefix (prefix_to_nibs path) key with
      | Some tail => trie_get c tail
      | None => Ok None
      end
  | TBranch cs =>
      match key with
      | [] => Ok None
      | i :: tail => at_slot (λ c, trie_get c tail) (Ok None) cs (N.to_nat i)
      end
  end.

Definition leaf (nibs value : bytes) : trie := TLeaf (hp_encode nibs true) value.
Definition extension (nibs : bytes) (c : trie) : trie := TExtension (hp_encode nibs false) c.

(** A branch under the nibbles [shared], if any, with two children. *)
Definition two_way {A} (a : u8) (x : A) (b : u8) (y : A) : list (option A) :=
  <[N.to_nat b := Some y]> (<[N.to_nat a := Some x]> (replicate 16 None)).

Definition fork (shared : bytes) (a : u8) (x : trie) (b : u8) (y : trie) : trie :=
  match shared with
  | [] => TBranch (two_way a x b y)
  | _ => extension shared (TBranch (two_way a x b y))
  end.

(** [None] when the key already has the value. *)
Fixpoint trie_insert (t : trie) (key value : bytes) : outcome Error (option trie) :=
  match t with
  | TNull => Ok (Some (leaf key value))
  | TDigest d => d' ← from_slice d; Err (NodeNotResolved d')
  | TLeaf path old_value =>
      let nibs := prefix_to_nibs path in
      let n := lcp nibs key in
      match drop n nibs, drop n key with
      | [], [] => Ok (if decide (old_value = value) then None else Some (TLeaf path value))
      | a :: nibs', b :: key' =>
          Ok (Some (fork (take n nibs) a (leaf nibs' old_value) b (leaf key' value)))
      | _, _ => Err ValueInBranch
      end
  | TExtension path c =>
      let nibs := prefix_to_nibs path in
      let n := lcp nibs key in
      match drop n nibs, drop n key with
      | [], key' => option_map (TExtension path) <$> trie_insert c key' value
      | a :: nibs', b :: key' =>
          let below := match nibs' with [] => c | _ => extension nibs' c end in
          Ok (Some (fork (take n nibs) a below b (leaf key' value)))
      | _ :: _, [] => Err ValueInBranch
      end
  | TBranch cs =>
      match key with
      | [] => Err ValueInBranch
      | i :: tail =>
          at_slot
            (λ c, option_map (λ c', TBranch (<[N.to_nat i := Some c']> cs)) <$> trie_insert c tail value)
            (Ok (Some (TBranch (<[N.to_nat i := Some (leaf tail value)]> cs))))
            cs (N.to_nat i)
      end
  end.

(** What is left of a branch after one of its children changed. *)
Definition shrink_branch (cs : list (option trie)) : outcome Error trie :=
  match remaining_children cs with
  | [] => Panic UnwrapOnNone
  | [(i, c)] =>
      match c with
      | TNull => Panic Unreachable
      | TLeaf path value => Ok (leaf (N.of_nat i :: prefix_to_nibs path) value)
      | TExtension path c' => Ok (extension (N.of_nat i :: prefix_to_nibs path) c')
      | TBranch _ | TDigest _ => Ok (extension [N.of_nat i] c)
      end
  | _ => Ok (TBranch cs)
  end.

Definition shrink_extension (path : bytes) (c : trie) : trie :=
  let nibs := prefix_to_nibs path in
  match c with
  | TNull => TNull
  | TLeaf path' value => leaf (nibs ++ prefix_to_nibs path') value
  | TExtension path' c' => extension (nibs ++ prefix_to_nibs path') c'
  | TBranch _ | TDigest _ => TExtension path c
  end.

(** The slot of a child that became [c]: a null child is dropped. *)
Definition slot_of (c : trie) : option trie :=
  match c with TNull => None | _ => Some c end.

(** [None] when the key is absent. *)
Fixpoint trie_delete (t : trie) (key : bytes) : outcome Error (option trie) :=
  match t with
  | TNull => Ok None
  | TDigest d => d' ← from_slice d; Err (NodeNotResolved d')
  | TLeaf path _ => Ok (if decide (prefix_to_nibs path = key) then Some TNull else None)
  | TExtension path c =>
      match strip_prefix (prefix_to_nibs path) key with
      | Some tail => option_map (shrink_extension path) <$> trie_delete c tail
      | None => Ok None
      end
  | TBranch cs =>
      match key with
      | [] => Err ValueInBranch
      | i :: tail =>
          at_slot
            (λ c, deleted ← trie_delete c tail;
                  match deleted with
                  | None => Ok None
                  | Some c' => Some <$> shrink_branch (<[N.to_nat i := slot_of c']> cs)
                  end)
            (Ok None) cs (N.to_nat i)
      end
  end.

(** ** Well-formedness *)

(** What every trie the program builds or decodes satisfies. *)
Inductive well_formed : trie → Prop :=
  | wf_null : well_formed TNull
  | wf_digest d : length d = 32 → well_formed (TDigest d)
  | wf_leaf path value : Forall is_u8 path → well_formed (TLeaf path value)
  | wf_extension path c : Forall is_u8 path → well_formed c → well_formed (TExtension path c)
  | wf_branch cs :
      length cs = 16 → (∀ i c, cs !! i = Some (Some c) → well_formed c) →
      well_formed (TBranch cs).

Definition branch_or_digest (t : trie) : Prop :=
  match t with TBranch _ | TDigest _ => True | _ => False end.

(** A subtrie in the shape Ethereum prescribes: minimal paths, an extension
    over a branch (or an unresolved node), at least two children per branch. *)
Inductive canonical_node : trie → Prop :=
  | canonical_digest d : length d = 32 → canonical_node (TDigest d)
  | canonical_leaf nibs value : nibbles nibs → canonical_node (leaf nibs value)
  | canonical_extension nibs c :
      nibbles nibs → nibs ≠ [] → branch_or_digest c → canonical_node c →
      canonical_node (extension nibs c)
  | canonical_branch cs :
      length cs = 16 → 2 ≤ length (remaining_children cs) →
      (∀ i c, cs !! i = Some (Some c) → canonical_node c) →
      canonical_node (TBranch cs).

Definition canonical (t : trie) : Prop := t = TNull ∨ canonical_node t.

(** All keys have [n] nibbles. *)
Inductive uniform : nat → trie → Prop :=
  | uniform_null n : uniform n TNull
  | uniform_digest n d : uniform n (TDigest d)
  | uniform_leaf path value : uniform (length (prefix_to_nibs path)) (TLeaf path value)
  | uniform_extension n path c :
      uniform n c → uniform (length (prefix_to_nibs path) + n) (TExtension path c)
  | uniform_branch n cs :
      (∀ i c, cs !! i = Some (Some c) → uniform n c) → uniform (S n) (TBranch cs).

(** No part of the trie is left out. *)
Inductive resolved : trie → Prop :=
  | resolved_null : resolved TNull
  | resolved_leaf path value : resolved (TLeaf path value)
  | resolved_extension path c : resolved c → resolved (TExtension path c)
  | resolved_branch cs :
      (∀ i c, cs !! i = Some (Some c) → resolved c) → resolved (TBranch cs).
End operations.
