(* ===== verification/TrieLaws.v ===== *)
(** * Laws of the trie operations

    [trie_insert] and [trie_delete] update one key and leave the others alone;
    they preserve well-formedness, the canonical shape and the key length; on a
    trie of that kind they do not fail or panic. *)

From S2P Require Import Prelude External Node Hp Mpt Trie.

(** ** Slots of a branch *)

Section slots.
Context {A : Type}.
Implicit Types cs : list (option A).

Lemma remaining_children_cons o cs :
  remaining_children (o :: cs) =
  match o with Some c => [(0, c)] | None => [] end ++ (prod_map S id <$> remaining_children cs).
Proof.
  unfold remaining_children.
  assert (∀ (l : list (nat * option A)),
    omap (λ p, match p with (i, Some c) => Some (i, c) | (_, None) => None end)
      (prod_map S id <$> l) =
    prod_map S id <$>
      omap (λ p, match p with (i, Some c) => Some (i, c) | (_, None) => None end) l) as Hmap.
  { induction l as [|[i [c|]] l IH]; csimpl; [done|by rewrite IH|done]. }
  rewrite imap_cons. cbn [omap list_omap].
  replace (imap ((λ (i : nat) (c : option A), (i, c)) ∘ S) cs)
    with (prod_map S id <$> imap (λ i c, (i, c)) cs).
  - rewrite Hmap. by destruct o.
  - rewrite fmap_imap. done.
Qed.

Lemma elem_of_remaining cs i c : (i, c) ∈ remaining_children cs ↔ cs !! i = Some (Some c).
Proof.
  revert i. induction cs as [|o cs IH]; intros i; [set_solver|].
  rewrite remaining_children_cons, elem_of_app, list_elem_of_fmap.
  split.
  - intros [Ho|[[j c'] [Heq Hj]]].
    + destruct o; [|by apply elem_of_nil in Ho].
      apply list_elem_of_singleton in Ho. by simplify_eq.
    + cbn in Heq. simplify_eq. cbn. by apply IH.
  - destruct i as [|i]; cbn; [intros [= ->]; left; by left|].
    intros Hi. right. exists (i, c). split; [done|]. by apply IH.
Qed.

Lemma NoDup_remaining cs : NoDup (remaining_children cs).*1.
Proof.
  induction cs as [|o cs IH]; [constructor|]. rewrite remaining_children_cons, fmap_app.
  rewrite <-list_fmap_compose.
  assert (NoDup (fst ∘ prod_map S id <$> remaining_children cs)) as Hnd.
  { replace (fst ∘ prod_map S id <$> remaining_children cs)
      with (S <$> (remaining_children cs).*1) by (rewrite <-list_fmap_compose; done).
    by apply (NoDup_fmap_2 S). }
  destruct o as [c|]; [|done]. cbn. constructor; [|done].
  rewrite list_elem_of_fmap. intros (p & Hp & _). by destruct p.
Qed.

(** Exactly one child. *)
Lemma remaining_single cs i c :
  remaining_children cs = [(i, c)] →
  cs !! i = Some (Some c) ∧ ∀ j d, cs !! j = Some (Some d) → j = i ∧ d = c.
Proof.
  intros Hcs. split.
  - apply elem_of_remaining. rewrite Hcs. by left.
  - intros j d Hj. apply elem_of_remaining in Hj. rewrite Hcs in Hj.
    apply list_elem_of_singleton in Hj. by simplify_eq.
Qed.

Lemma remaining_none cs :
  remaining_children cs = [] → ∀ j d, cs !! j ≠ Some (Some d).
Proof.
  intros Hcs j d Hj. apply elem_of_remaining in Hj. rewrite Hcs in Hj. by apply elem_of_nil in Hj.
Qed.

(** At least two children. *)
Lemma remaining_two cs :
  2 ≤ length (remaining_children cs) ↔
  ∃ i j c d, i ≠ j ∧ cs !! i = Some (Some c) ∧ cs !! j = Some (Some d).
Proof.
  pose proof (NoDup_remaining cs) as Hnd. split.
  - destruct (remaining_children cs) as [|[i c] [|[j d] l]] eqn:Hcs; cbn; [lia..|].
    intros _. exists i, j, c, d. rewrite <-!elem_of_remaining, Hcs. split_and!.
    + cbn in Hnd. apply NoDup_cons in Hnd as [Hn _]. set_solver.
    + by left.
    + right. by left.
  - intros (i & j & c & d & Hne & Hi & Hj).
    apply elem_of_remaining in Hi, Hj.
    destruct (remaining_children cs) as [|p [|q l]]; cbn; [set_solver| |lia].
    apply list_elem_of_singleton in Hi, Hj. naive_solver.
Qed.

Lemma length_remaining_cons o cs :
  length (remaining_children (o :: cs)) =
  match o with Some _ => 1 | None => 0 end + length (remaining_children cs).
Proof. rewrite remaining_children_cons, length_app, length_fmap. by destruct o. Qed.

Lemma remaining_insert_some cs i c :
  i < length cs → length (remaining_children cs) ≤ length (remaining_children (<[i := Some c]> cs)).
Proof.
  revert i. induction cs as [|o cs IH]; intros [|i] Hi; cbn in Hi; [lia..| |].
  - change (<[0 := Some c]> (o :: cs)) with (Some c :: cs).
    rewrite !length_remaining_cons. destruct o; lia.
  - change (<[S i := Some c]> (o :: cs)) with (o :: <[i := Some c]> cs).
    rewrite !length_remaining_cons. specialize (IH i ltac:(lia)). lia.
Qed.

Lemma remaining_insert_none cs i :
  length (remaining_children cs) ≤ S (length (remaining_children (<[i := None]> cs))).
Proof.
  revert i. induction cs as [|o cs IH]; intros [|i]; [cbn; lia..| |].
  - change (<[0 := None]> (o :: cs)) with (None :: cs).
    rewrite !length_remaining_cons. destruct o; lia.
  - change (<[S i := None]> (o :: cs)) with (o :: <[i := None]> cs).
    rewrite !length_remaining_cons. specialize (IH i). lia.
Qed.

Lemma two_way_lookup (a b i : u8) (x y c : A) :
  is_nibble a → is_nibble b → a ≠ b →
  two_way a x b y !! N.to_nat i = Some (Some c) ↔ (i = a ∧ c = x) ∨ (i = b ∧ c = y).
Proof.
  unfold two_way, is_nibble. intros Ha Hb Hne.
  destruct (decide (i = b)) as [->|Hb'].
  { rewrite list_lookup_insert_eq by (rewrite length_insert, length_replicate; lia). naive_solver. }
  rewrite list_lookup_insert_ne by lia.
  destruct (decide (i = a)) as [->|Ha'].
  { rewrite list_lookup_insert_eq by (rewrite length_replicate; lia). naive_solver. }
  rewrite list_lookup_insert_ne by lia.
  destruct (decide (i < 16)%N); [rewrite lookup_replicate_2 by lia|rewrite lookup_ge_None_2 by (rewrite length_replicate; lia)];
  naive_solver.
Qed.

Lemma two_way_length (a b : u8) (x y : A) : length (two_way a x b y) = 16.
Proof. unfold two_way. by rewrite !length_insert, length_replicate. Qed.

Lemma two_way_slot (a b i : u8) (x y : A) :
  is_nibble a → is_nibble b → a ≠ b → is_nibble i →
  two_way a x b y !! N.to_nat i =
  Some (if decide (i = b) then Some y else if decide (i = a) then Some x else None).
Proof.
  unfold two_way, is_nibble. intros Ha Hb Hne Hi.
  case_decide; subst; [by rewrite list_lookup_insert_eq by (rewrite length_insert, length_replicate; lia)|].
  rewrite list_lookup_insert_ne by lia.
  case_decide; subst; [by rewrite list_lookup_insert_eq by (rewrite length_replicate; lia)|].
  rewrite list_lookup_insert_ne by lia. by rewrite lookup_replicate_2 by lia.
Qed.

Lemma two_way_remaining (a b : u8) (x y : A) :
  is_nibble a → is_nibble b → a ≠ b → 2 ≤ length (remaining_children (two_way a x b y)).
Proof.
  intros Ha Hb Hne. apply remaining_two. exists (N.to_nat a), (N.to_nat b), x, y.
  rewrite !two_way_lookup by done. split_and!; [lia|naive_solver..].
Qed.
End slots.

Section laws.
Context `{CratesOk}.

(** ** Equations *)

Lemma at_slot_spec {A B} (f : A → outcome Error B) none cs i :
  at_slot f none cs i =
  match cs !! i with
  | None => Panic IndexOutOfBounds
  | Some None => none
  | Some (Some c) => f c
  end.
Proof.
  revert i. induction cs as [|o cs IH]; intros [|i]; [done..| |].
  - by destruct o.
  - cbn. destruct o; apply IH.
Qed.

Lemma trie_get_leaf nibs value key :
  nibbles nibs → trie_get (leaf nibs value) key = Ok (if decide (nibs = key) then Some value else None).
Proof. intros Hn. cbn. by rewrite hp_decode_encode. Qed.

Lemma trie_get_extension nibs c key :
  nibbles nibs →
  trie_get (extension nibs c) key =
  match strip_prefix nibs key with Some tail => trie_get c tail | None => Ok None end.
Proof. intros Hn. cbn. by rewrite hp_decode_encode. Qed.

Lemma trie_get_branch cs i tail :
  trie_get (TBranch cs) (i :: tail) =
  match cs !! N.to_nat i with
  | None => Panic IndexOutOfBounds
  | Some None => Ok None
  | Some (Some c) => trie_get c tail
  end.
Proof. cbn. by rewrite at_slot_spec. Qed.

Lemma trie_insert_branch cs i tail value :
  trie_insert (TBranch cs) (i :: tail) value =
  match cs !! N.to_nat i with
  | None => Panic IndexOutOfBounds
  | Some None => Ok (Some (TBranch (<[N.to_nat i := Some (leaf tail value)]> cs)))
  | Some (Some c) =>
      option_map (λ c', TBranch (<[N.to_nat i := Some c']> cs)) <$> trie_insert c tail value
  end.
Proof. cbn. by rewrite at_slot_spec. Qed.

Lemma trie_delete_branch cs i tail :
  trie_delete (TBranch cs) (i :: tail) =
  match cs !! N.to_nat i with
  | None => Panic IndexOutOfBounds
  | Some None => Ok None
  | Some (Some c) =>
      deleted ← trie_delete c tail;
      match deleted with
      | None => Ok None
      | Some c' => Some <$> shrink_branch (<[N.to_nat i := slot_of c']> cs)
      end
  end.
Proof. cbn. by rewrite at_slot_spec. Qed.

Lemma trie_get_fork shared a x b y key :
  nibbles shared → is_nibble a → is_nibble b → a ≠ b → nibbles key →
  trie_get (fork shared a x b y) key =
  match strip_prefix shared key with
  | None | Some [] => Ok None
  | Some (i :: tail) =>
      if decide (i = b) then trie_get y tail
      else if decide (i = a) then trie_get x tail else Ok None
  end.
Proof.
  intros Hs Ha Hb Hne Hk.
  assert (∀ tail, nibbles tail → trie_get (TBranch (two_way a x b y)) tail =
    match tail with
    | [] => Ok None
    | i :: tail =>
        if decide (i = b) then trie_get y tail
        else if decide (i = a) then trie_get x tail else Ok None
    end) as Hbranch.
  { intros [|i tail] Ht; [done|]. apply Forall_cons in Ht as [Hi _].
    rewrite trie_get_branch, two_way_slot by done. by repeat case_decide. }
  unfold fork. destruct shared as [|s shared]; [by apply Hbranch|].
  rewrite trie_get_extension by done.
  destruct (strip_prefix (s :: shared) key) as [tail|] eqn:Hstrip; [|done].
  apply strip_prefix_Some in Hstrip. subst. apply Forall_app in Hk as [_ Hk].
  by apply Hbranch.
Qed.

Lemma fmap_Ok_Some {E A B} (f : A → B) (o : outcome E (option A)) b :
  option_map f <$> o = Ok (Some b) ↔ ∃ a, o = Ok (Some a) ∧ b = f a.
Proof. destruct o as [[a|]| | |]; cbn; naive_solver. Qed.

(** ** Insertion updates one key *)

Lemma trie_insert_get t key value t' key' :
  well_formed t → nibbles key → nibbles key' →
  trie_insert t key value = Ok (Some t') →
  trie_get t' key' = if decide (key = key') then Ok (Some value) else trie_get t key'.
Proof.
  intros Hwf. revert key key' t'. induction t as [|d|path old|path c IH|cs IH] using trie_nested_ind;
    intros key key' t' Hk Hk' Hins.
  - injection Hins as <-. rewrite trie_get_leaf by done. by case_decide.
  - cbn in Hins. by destruct (from_slice d).
  - cbn in Hins. split_common (prefix_to_nibs path) key.
    inversion Hwf as [| |? ? Hpath| |]; subst. apply prefix_to_nibs_nibbles in Hpath.
    destruct a as [|x a], b as [|y b]; [|done|done|].
    + case_decide; simplify_eq. cbn. rewrite app_nil_r in *. by repeat case_decide; simplify_eq.
    + assert (x ≠ y) as Hxy by naive_solver.
      simplify_eq. cbn [trie_get]. rewrite Hnibs in *. split_nibbles.
      rewrite trie_get_fork by done.
      compare_prefix p key'; split_nibbles; rewrite ?trie_get_leaf by done.
      all: repeat case_decide; naive_solver.
  - cbn in Hins. split_common (prefix_to_nibs path) key.
    inversion Hwf as [| | |? ? Hpath Hc|]; subst. apply prefix_to_nibs_nibbles in Hpath.
    destruct a as [|x a].
    + apply fmap_Ok_Some in Hins as (c' & Hins & ->). rewrite app_nil_r in Hnibs. subst p.
      cbn [trie_get]. split_nibbles.
      set (p := prefix_to_nibs path) in *.
      destruct (strip_prefix p key') as [tl|] eqn:Hs.
      * apply strip_prefix_Some in Hs. subst. split_nibbles.
        rewrite (IH Hc b tl c') by done. repeat case_decide; naive_solver.
      * rewrite decide_False; [done|]. apply not_eq_sym. by apply strip_prefix_None.
    + destruct b as [|y b]; [done|]. assert (x ≠ y) as Hxy by naive_solver.
      simplify_eq. cbn [trie_get]. rewrite Hnibs in *. split_nibbles.
      rewrite trie_get_fork, strip_prefix_app_l by done.
      compare_prefix p key'; split_nibbles; cbn [strip_prefix]; rewrite ?trie_get_leaf by done.
      1,3: repeat case_decide; naive_solver.
      replace (trie_get match a with [] => c | _ :: _ => extension a c end tl)
        with (match strip_prefix a tl with Some t => trie_get c t | None => Ok None end)
        by (destruct a; [done|by rewrite trie_get_extension]).
      repeat case_decide; naive_solver.
  - destruct key as [|i tail]; [done|]. rewrite trie_insert_branch in Hins.
    inversion Hwf as [| | | |? Hlen Hcs]; subst. split_nibbles.
    destruct key' as [|j tail']; [by destruct (cs !! N.to_nat i) as [[]|]; cbn in Hins; simplify_eq;
      try (apply fmap_Ok_Some in Hins as (? & _ & ->))|]. split_nibbles.
    destruct (cs !! N.to_nat i) as [o|] eqn:Hi; [|done].
    assert (∃ c', t' = TBranch (<[N.to_nat i := Some c']> cs) ∧
      ∀ tl, nibbles tl → trie_get c' tl = if decide (tail = tl) then Ok (Some value)
        else from_option (λ c, trie_get c tl) (Ok None) o) as (c' & -> & Hget).
    { destruct o as [c|].
      - apply fmap_Ok_Some in Hins as (c' & Hins & ->). exists c'. split; [done|].
        intros tl Htl. cbn. apply (IH _ _ Hi); [by eapply Hcs|done..].
      - injection Hins as <-. eexists. split; [done|]. intros tl Htl.
        rewrite trie_get_leaf by done. by case_decide. }
    rewrite !trie_get_branch. destruct (decide (j = i)) as [->|Hne].
    + rewrite list_lookup_insert_eq by (by eapply lookup_lt_Some). rewrite Hget by done.
      rewrite Hi. repeat case_decide; simplify_eq; by destruct o.
    + rewrite list_lookup_insert_ne by lia. rewrite decide_False by naive_solver. done.
Qed.

(** ** Deletion removes one key *)

Lemma shrink_extension_get path c key :
  well_formed (TExtension path c) → nibbles key →
  trie_get (shrink_extension path c) key = trie_get (TExtension path c) key.
Proof.
  intros Hwf Hk. inversion Hwf as [| | |? ? Hpath Hc|]; subst.
  apply prefix_to_nibs_nibbles in Hpath. destruct c as [|d|path' v|path' c|cs]; [|done| | |done].
  - cbn. by destruct (strip_prefix _ _).
  - inversion Hc as [| |? ? Hpath'| |]; subst. apply prefix_to_nibs_nibbles in Hpath'.
    cbn [shrink_extension]. rewrite trie_get_leaf by auto with reth. cbn [trie_get].
    rewrite decide_app_strip. by destruct (strip_prefix _ key).
  - inversion Hc as [| | |? ? Hpath'|]; subst. apply prefix_to_nibs_nibbles in Hpath'.
    cbn [shrink_extension]. rewrite trie_get_extension by auto with reth. cbn [trie_get].
    rewrite strip_prefix_app_l. by destruct (strip_prefix _ key).
Qed.

Lemma shrink_branch_get cs t key :
  well_formed (TBranch cs) → nibbles key → shrink_branch cs = Ok t →
  trie_get t key = trie_get (TBranch cs) key.
Proof.
  intros Hwf Hk Hs. inversion Hwf as [| | | |? Hlen Hcs]; subst. unfold shrink_branch in Hs.
  destruct (remaining_children cs) as [|[i c] [|]] eqn:Hrem; [done| |by injection Hs as <-].
  apply remaining_single in Hrem as [Hi Honly].
  assert (i < 16) as Hi16 by (rewrite <-Hlen; by eapply lookup_lt_Some).
  assert (is_nibble (N.of_nat i)) as Hn by (unfold is_nibble; lia).
  assert (trie_get (TBranch cs) key =
    match strip_prefix [N.of_nat i] key with
    | Some tl => trie_get c tl
    | None => Ok None
    end) as ->.
  { destruct key as [|j tl]; [done|]. rewrite trie_get_branch. split_nibbles. cbn [strip_prefix].
    case_decide as Hij.
    - rewrite <-Hij, Nat2N.id, Hi. done.
    - destruct (lookup_lt_is_Some_2 cs (N.to_nat j)) as [o Hj]; [unfold is_nibble in *; lia|].
      rewrite Hj. destruct o as [d|]; [|done]. apply Honly in Hj. lia. }
  specialize (Hcs _ _ Hi). destruct c as [|d|path v|path c|ds]; simplify_eq.
  - by rewrite trie_get_extension by auto with reth.
  - inversion Hcs as [| |? ? Hpath| |]; subst. apply prefix_to_nibs_nibbles in Hpath.
    rewrite trie_get_leaf by auto with reth.
    change (N.of_nat i :: prefix_to_nibs path) with ([N.of_nat i] ++ prefix_to_nibs path).
    rewrite decide_app_strip. by destruct (strip_prefix _ key).
  - inversion Hcs as [| | |? ? Hpath|]; subst. apply prefix_to_nibs_nibbles in Hpath.
    rewrite trie_get_extension by auto with reth.
    change (N.of_nat i :: prefix_to_nibs path) with ([N.of_nat i] ++ prefix_to_nibs path).
    rewrite strip_prefix_app_l. by destruct (strip_prefix _ key).
  - by rewrite trie_get_extension by auto with reth.
Qed.

(** ** Preservation *)

Lemma leaf_wf nibs value : nibbles nibs → well_formed (leaf nibs value).
Proof. intros. constructor. by apply hp_encode_u8. Qed.

Lemma extension_wf nibs c : nibbles nibs → well_formed c → well_formed (extension nibs c).
Proof. intros. constructor; [by apply hp_encode_u8|done]. Qed.

Lemma branch_update_wf cs i o :
  well_formed (TBranch cs) → (∀ c, o = Some c → well_formed c) →
  well_formed (TBranch (<[i := o]> cs)).
Proof.
  intros Hwf Ho. inversion Hwf as [| | | |? Hlen Hcs]; subst.
  constructor; [by rewrite length_insert|]. intros j c Hj.
  apply list_lookup_insert_Some in Hj as [(-> & Hc & _)|[_ Hj]]; eauto.
Qed.

Lemma fork_wf shared a x b y :
  nibbles shared → is_nibble a → is_nibble b → a ≠ b → well_formed x → well_formed y →
  well_formed (fork shared a x b y).
Proof.
  intros Hs Ha Hb Hne Hx Hy.
  assert (well_formed (TBranch (two_way a x b y))) as Hbranch.
  { constructor; [apply two_way_length|]. intros i c Hi.
    replace i with (N.to_nat (N.of_nat i)) in Hi by lia.
    apply two_way_lookup in Hi; [|done..]. naive_solver. }
  unfold fork. destruct shared; [done|]. by apply extension_wf.
Qed.

Lemma trie_insert_wf t key value t' :
  trie_insert t key value = Ok (Some t') → well_formed t → nibbles key → well_formed t'.
Proof.
  intros Hins0 Hwf Hk0. revert key t' Hins0 Hk0. induction t as [|d|path old|path c IH|cs IH] using trie_nested_ind;
    intros key t' Hins Hk.
  - injection Hins as <-. by apply leaf_wf.
  - cbn in Hins. by destruct (from_slice d).
  - cbn in Hins. split_common (prefix_to_nibs path) key.
    inversion Hwf as [| |? ? Hpath| |]; subst. pose proof (prefix_to_nibs_nibbles _ Hpath) as Hn.
    rewrite Hnibs in Hn. destruct a as [|x a], b as [|y b]; [|done|done|].
    + case_decide; simplify_eq. by constructor.
    + simplify_eq. split_nibbles.
      apply fork_wf; try done; [intros ->; by eapply Hhead|by apply leaf_wf..].
  - cbn in Hins. split_common (prefix_to_nibs path) key.
    inversion Hwf as [| | |? ? Hpath Hc|]; subst. pose proof (prefix_to_nibs_nibbles _ Hpath) as Hn.
    rewrite Hnibs in Hn. destruct a as [|x a].
    + apply fmap_Ok_Some in Hins as (c' & Hins & ->). split_nibbles.
      constructor; [done|]. by eapply IH.
    + destruct b as [|y b]; [done|]. simplify_eq. split_nibbles.
      apply fork_wf; try done; [intros ->; by eapply Hhead| |by apply leaf_wf].
      destruct a; [done|]. by apply extension_wf.
  - destruct key as [|i tail]; [done|]. rewrite trie_insert_branch in Hins. split_nibbles.
    inversion Hwf as [| | | |? Hlen Hcs]; subst.
    destruct (cs !! N.to_nat i) as [[c|]|] eqn:Hi; [| |done].
    + apply fmap_Ok_Some in Hins as (c' & Hins & ->).
      apply branch_update_wf; [done|]. intros ? [= <-]. eapply IH; [done|by eapply Hcs|done..].
    + injection Hins as <-. apply branch_update_wf; [done|]. intros ? [= <-]. by apply leaf_wf.
Qed.

Lemma shrink_extension_wf path c :
  well_formed (TExtension path c) → well_formed (shrink_extension path c).
Proof.
  intros Hwf. inversion Hwf as [| | |? ? Hpath Hc|]; subst.
  pose proof (prefix_to_nibs_nibbles _ Hpath) as Hn.
  destruct c as [|d|path' v|path' c|cs]; cbn; [constructor|done| | |done].
  - inversion Hc as [| |? ? Hpath'| |]; subst. apply leaf_wf, nibbles_app_2; auto with reth.
  - inversion Hc as [| | |? ? Hpath'|]; subst. apply extension_wf; [|done].
    apply nibbles_app_2; auto with reth.
Qed.

Lemma shrink_branch_wf cs t :
  well_formed (TBranch cs) → shrink_branch cs = Ok t → well_formed t.
Proof.
  intros Hwf Hs. inversion Hwf as [| | | |? Hlen Hcs]; subst. unfold shrink_branch in Hs.
  destruct (remaining_children cs) as [|[i c] [|]] eqn:Hrem; [done| |by injection Hs as <-].
  apply remaining_single in Hrem as [Hi _].
  assert (i < 16) as Hi16 by (rewrite <-Hlen; by eapply lookup_lt_Some).
  assert (is_nibble (N.of_nat i)) as Hn by (unfold is_nibble; lia).
  specialize (Hcs _ _ Hi). destruct c as [|d|path v|path c|ds]; simplify_eq.
  - apply extension_wf; [auto with reth|done].
  - inversion Hcs; subst. apply leaf_wf, nibbles_cons_2; auto with reth.
  - inversion Hcs; subst. apply extension_wf; [|done]. apply nibbles_cons_2; auto with reth.
  - apply extension_wf; [auto with reth|done].
Qed.

Lemma slot_of_wf t c : well_formed t → slot_of t = Some c → well_formed c.
Proof. intros Hwf Hs. by destruct t; cbn in Hs; simplify_eq. Qed.

Lemma trie_delete_wf t key t' :
  trie_delete t key = Ok (Some t') → well_formed t → nibbles key → well_formed t'.
Proof.
  intros Hdel0 Hwf Hk0. revert key t' Hdel0 Hk0. induction t as [|d|path old|path c IH|cs IH] using trie_nested_ind;
    intros key t' Hdel Hk.
  - done.
  - cbn in Hdel. by destruct (from_slice d).
  - cbn in Hdel. case_decide; simplify_eq. constructor.
  - cbn in Hdel. destruct (strip_prefix _ key) as [tail|] eqn:Hs; [|done].
    apply strip_prefix_Some in Hs. subst. split_nibbles.
    apply fmap_Ok_Some in Hdel as (c' & Hdel & ->). inversion Hwf; subst.
    apply shrink_extension_wf. constructor; [done|]. by eapply IH.
  - destruct key as [|i tail]; [done|]. rewrite trie_delete_branch in Hdel. split_nibbles.
    inversion Hwf as [| | | |? Hlen Hcs]; subst.
    destruct (cs !! N.to_nat i) as [[c|]|] eqn:Hi; [|done..].
    destruct (trie_delete c tail) as [[c'|]| | |] eqn:Hc; try done. cbn in Hdel.
    destruct (shrink_branch _) as [t''| | |] eqn:Hs; try done. injection Hdel as <-.
    eapply shrink_branch_wf; [|done]. apply branch_update_wf; [done|].
    intros d Hd. eapply slot_of_wf; [|done]. eapply IH; [done|by eapply Hcs|done..].
Qed.

Lemma trie_delete_get t key t' key' :
  well_formed t → nibbles key → nibbles key' →
  trie_delete t key = Ok (Some t') →
  trie_get t' key' = if decide (key = key') then Ok None else trie_get t key'.
Proof.
  intros Hwf. revert key key' t'. induction t as [|d|path old|path c IH|cs IH] using trie_nested_ind;
    intros key key' t' Hk Hk' Hdel.
  - done.
  - cbn in Hdel. by destruct (from_slice d).
  - cbn in Hdel. case_decide; simplify_eq. cbn. by repeat case_decide.
  - cbn in Hdel. destruct (strip_prefix _ key) as [tail|] eqn:Hs; [|done].
    apply strip_prefix_Some in Hs. subst. split_nibbles.
    apply fmap_Ok_Some in Hdel as (c' & Hdel & ->). inversion Hwf as [| | |? ? Hpath Hc|]; subst.
    rewrite shrink_extension_get; [|constructor; [done|by eapply trie_delete_wf]|done].
    cbn [trie_get]. rewrite decide_app_strip.
    destruct (strip_prefix (prefix_to_nibs path) key') as [tl|] eqn:Hs; [|done].
    apply strip_prefix_Some in Hs. subst. split_nibbles. by apply IH.
  - destruct key as [|i tail]; [done|]. rewrite trie_delete_branch in Hdel. split_nibbles.
    inversion Hwf as [| | | |? Hlen Hcs]; subst.
    destruct (cs !! N.to_nat i) as [[c|]|] eqn:Hi; [|done..].
    destruct (trie_delete c tail) as [[c'|]| | |] eqn:Hc; try done. cbn in Hdel.
    destruct (shrink_branch _) as [t''| | |] eqn:Hs; try done. injection Hdel as <-.
    assert (well_formed c) as Hwc by by eapply Hcs.
    assert (well_formed (TBranch (<[N.to_nat i := slot_of c']> cs))) as Hwcs.
    { apply branch_update_wf; [done|]. intros d Hd. eapply slot_of_wf; [|done].
      by eapply trie_delete_wf. }
    rewrite (shrink_branch_get _ _ _ Hwcs) by done.
    destruct key' as [|j tl]; [done|]. split_nibbles. rewrite !trie_get_branch.
    destruct (decide (j = i)) as [->|Hne].
    + rewrite list_lookup_insert_eq by (by eapply lookup_lt_Some). rewrite Hi.
      transitivity (trie_get c' tl); [by destruct c'|].
      rewrite (IH _ _ Hi Hwc tail tl c') by done.
      repeat case_decide; congruence.
    + rewrite list_lookup_insert_ne by lia. by rewrite decide_False by naive_solver.
Qed.

Lemma trie_insert_same t key value : trie_insert t key value = Ok None → trie_get t key = Ok (Some value).
Proof.
  revert key. induction t as [|d|path old|path c IH|cs IH] using trie_nested_ind; intros key Hins.
  - done.
  - cbn in Hins. by destruct (from_slice d).
  - cbn in Hins. split_common (prefix_to_nibs path) key.
    destruct a, b; [|done..]. case_decide; simplify_eq. cbn. by rewrite decide_True by congruence.
  - cbn in Hins. split_common (prefix_to_nibs path) key. destruct a; [|by destruct b].
    destruct (trie_insert c b value) as [[]| | |] eqn:Hc; simplify_eq. cbn [trie_get].
    rewrite app_nil_r in Hnibs. subst. rewrite strip_prefix_app. by apply IH.
  - destruct key as [|i tail]; [done|]. rewrite trie_insert_branch in Hins. rewrite trie_get_branch.
    destruct (cs !! N.to_nat i) as [[c|]|] eqn:Hi; [|done..].
    destruct (trie_insert c tail value) as [[]| | |] eqn:Hc; simplify_eq. by eapply IH.
Qed.

Lemma trie_delete_absent t key :
  is_Ok (trie_get t key) → trie_delete t key = Ok None → trie_get t key = Ok None.
Proof.
  revert key. induction t as [|d|path old|path c IH|cs IH] using trie_nested_ind; intros key Hok Hdel.
  - done.
  - cbn in Hdel. by destruct (from_slice d).
  - cbn in Hdel |- *. by case_decide.
  - cbn in Hok, Hdel |- *. destruct (strip_prefix _ key) as [tail|]; [|done].
    apply IH; [done|]. by destruct (trie_delete c tail) as [[]| | |].
  - destruct key as [|i tail]; [done|]. rewrite trie_delete_branch in Hdel.
    rewrite trie_get_branch in *. destruct (cs !! N.to_nat i) as [[c|]|] eqn:Hi; [|done..].
    destruct (trie_delete c tail) as [[c'|]| | |] eqn:Hc; try done; cbn in Hdel.
    + by destruct (shrink_branch _).
    + by eapply IH.
Qed.

(** ** The canonical shape *)

Lemma canonical_wf t : canonical_node t → well_formed t.
Proof.
  intros Hc. induction t as [|d|path old|path c IH|cs IH] using trie_nested_ind;
    inversion Hc; subst; constructor; eauto with reth.
Qed.

Lemma canonical_fork shared a x b y :
  nibbles shared → is_nibble a → is_nibble b → a ≠ b → canonical_node x → canonical_node y →
  canonical_node (fork shared a x b y).
Proof.
  intros Hs Ha Hb Hne Hx Hy.
  assert (canonical_node (TBranch (two_way a x b y))) as Hbranch.
  { constructor; [apply two_way_length|by apply two_way_remaining|]. intros i c Hi.
    replace i with (N.to_nat (N.of_nat i)) in Hi by lia.
    apply two_way_lookup in Hi; [|done..]. naive_solver. }
  unfold fork. destruct shared; [done|]. by constructor.
Qed.

Lemma trie_insert_keeps_branch cs key value t' :
  trie_insert (TBranch cs) key value = Ok (Some t') → branch_or_digest t'.
Proof.
  destruct key as [|i tail]; [done|]. rewrite trie_insert_branch.
  destruct (cs !! N.to_nat i) as [[c|]|]; [| |done].
  - intros (c' & _ & ->)%fmap_Ok_Some. done.
  - by intros [= <-].
Qed.

Lemma canonical_branch_update cs i c :
  canonical_node (TBranch cs) → i < 16 → canonical_node c →
  canonical_node (TBranch (<[i := Some c]> cs)).
Proof.
  intros Hcs Hi Hc. inversion Hcs as [| | |? Hlen Hrem Hall]; subst. constructor.
  - by rewrite length_insert.
  - etransitivity; [done|]. apply remaining_insert_some. lia.
  - intros j d [(-> & ? & _)|[_ ?]]%list_lookup_insert_Some; naive_solver.
Qed.

Lemma trie_insert_canonical t key value t' :
  trie_insert t key value = Ok (Some t') → canonical t → nibbles key → canonical_node t'.
Proof.
  intros Hins0 [->|Hct] Hk0; [injection Hins0 as <-; by constructor|]. revert key t' Hins0 Hk0.
  induction t as [|d|path old|path c IH|cs IH] using trie_nested_ind; intros key t' Hins Hk.
  - inversion Hct.
  - cbn in Hins. by destruct (from_slice d).
  - inversion Hct as [|nibs ? Hn Heq| |]; subst. cbn in Hins. rewrite hp_decode_encode in Hins by done.
    split_common nibs key. subst nibs key. split_nibbles.
    destruct a as [|x a], b as [|y b]; [|done|done|]; split_nibbles.
    + case_decide; simplify_eq. rewrite app_nil_r. by constructor.
    + simplify_eq. apply canonical_fork; try done; [intros ->; by eapply Hhead|by constructor..].
  - inversion Hct as [| |nibs ? Hn Hne Hb Hc Heq|]; subst. cbn in Hins.
    rewrite hp_decode_encode in Hins by done. split_common nibs key. subst nibs key. split_nibbles.
    destruct a as [|x a].
    + apply fmap_Ok_Some in Hins as (c' & Hins & ->). rewrite app_nil_r in *.
      destruct c as [|d| | |cs]; try done; [cbn in Hins; by destruct (from_slice d)|]. constructor; [done..| |].
      * by eapply trie_insert_keeps_branch.
      * by eapply IH.
    + destruct b as [|y b]; [done|]. simplify_eq. split_nibbles.
      apply canonical_fork; try done; [intros ->; by eapply Hhead| |by constructor].
      destruct a; [done|]. by constructor.
  - destruct key as [|i tail]; [done|]. rewrite trie_insert_branch in Hins. split_nibbles.
    assert (N.to_nat i < 16) as Hi16 by (unfold is_nibble in *; lia).
    inversion Hct as [| | |? Hlen Hrem Hcs]; subst.
    destruct (cs !! N.to_nat i) as [[c|]|] eqn:Hi; [| |done].
    + apply fmap_Ok_Some in Hins as (c' & Hins & ->).
      apply canonical_branch_update; [done..|]. eapply IH; [done|by eapply Hcs|done..].
    + injection Hins as <-. apply canonical_branch_update; [done..|]. by constructor.
Qed.

Lemma shrink_extension_canonical nibs c :
  nibbles nibs → nibs ≠ [] → canonical c → canonical (shrink_extension (hp_encode nibs false) c).
Proof.
  intros Hn Hne [->|Hc]; [by left|]. unfold shrink_extension. rewrite hp_decode_encode by done.
  inversion Hc as [|nibs' v Hn'|nibs' c' Hn' Hne' Hb'|]; subst; right.
  - by apply canonical_extension.
  - unfold leaf. rewrite hp_decode_encode by done. apply canonical_leaf. auto with reth.
  - unfold extension at 1. rewrite hp_decode_encode by done.
    apply canonical_extension; [auto with reth|by destruct nibs|done..].
  - by apply canonical_extension.
Qed.

Lemma shrink_branch_canonical cs :
  length cs = 16 → 1 ≤ length (remaining_children cs) →
  (∀ i c, cs !! i = Some (Some c) → canonical_node c) →
  ∃ t, shrink_branch cs = Ok t ∧ canonical_node t.
Proof.
  intros Hlen Hrem Hcs. unfold shrink_branch.
  destruct (remaining_children cs) as [|[i c] [|]] eqn:Hr; [cbn in Hrem; lia| |].
  - apply remaining_single in Hr as [Hi _].
    assert (is_nibble (N.of_nat i)) as Hn.
    { apply lookup_lt_Some in Hi. unfold is_nibble. lia. }
    specialize (Hcs _ _ Hi). inversion Hcs as [|nibs v Hn'|nibs c' Hn' Hne' Hb'|]; subst;
      cbn [leaf extension]; rewrite ?hp_decode_encode by done; eexists; (split; [done|]);
      constructor; auto with reth; done.
  - eexists. split; [done|]. constructor; [done| |done]. rewrite Hr. cbn. lia.
Qed.

Lemma trie_delete_canonical t key :
  canonical t → nibbles key →
  match trie_delete t key with
  | Ok (Some t') => canonical t'
  | Ok None | Err _ => True
  | _ => False
  end.
Proof.
  intros [->|Hct] Hk; [done|]. revert key Hk.
  induction t as [|d|path old|path c IH|cs IH] using trie_nested_ind; intros key Hk.
  - done.
  - inversion Hct; subst. cbn. by rewrite from_slice_ok.
  - cbn. case_decide; [by left|done].
  - inversion Hct as [| |nibs ? Hn Hne Hb Hc Heq|]; subst. cbn. rewrite hp_decode_encode by done.
    destruct (strip_prefix nibs key) as [tail|] eqn:Hs; [|done].
    apply strip_prefix_Some in Hs. subst. split_nibbles.
    specialize (IH Hc tail ltac:(done)). destruct (trie_delete c tail) as [[c'|]| | |]; try done.
    by apply shrink_extension_canonical.
  - destruct key as [|i tail]; [done|]. rewrite trie_delete_branch. split_nibbles.
    inversion Hct as [| | |? Hlen Hrem Hcs]; subst.
    destruct (lookup_lt_is_Some_2 cs (N.to_nat i)) as [o Hi]; [unfold is_nibble in *; lia|].
    rewrite Hi. destruct o as [c|]; [|done].
    specialize (IH _ _ Hi (Hcs _ _ Hi) tail ltac:(done)).
    destruct (trie_delete c tail) as [[c'|]| | |]; try done. cbn.
    destruct (shrink_branch_canonical (<[N.to_nat i := slot_of c']> cs)) as (t' & -> & Ht').
    + by rewrite length_insert.
    + destruct (slot_of c') as [d|].
      * pose proof (remaining_insert_some cs (N.to_nat i) d ltac:(by eapply lookup_lt_Some)). lia.
      * pose proof (remaining_insert_none cs (N.to_nat i)). lia.
    + intros j d [(_ & Hd & _)|[_ ?]]%list_lookup_insert_Some; [|by eapply Hcs].
      destruct IH as [->|IH]; [done|]. by destruct c'; cbn in Hd; simplify_eq.
    + by right.
Qed.

(** ** Key length *)

Lemma uniform_leaf_nibs nibs value n :
  nibbles nibs → n = length nibs → uniform n (leaf nibs value).
Proof.
  intros Hn ->. pose proof (uniform_leaf (hp_encode nibs true) value) as Hu.
  by rewrite hp_decode_encode in Hu.
Qed.

Lemma uniform_extension_nibs nibs c n m :
  nibbles nibs → n = length nibs + m → uniform m c → uniform n (extension nibs c).
Proof.
  intros Hn -> Hc. pose proof (uniform_extension m (hp_encode nibs false) c Hc) as Hu.
  by rewrite hp_decode_encode in Hu.
Qed.

Lemma uniform_fork shared a x b y n m :
  nibbles shared → is_nibble a → is_nibble b → a ≠ b → n = length shared + S m →
  uniform m x → uniform m y → uniform n (fork shared a x b y).
Proof.
  intros Hs Ha Hb Hne -> Hx Hy.
  assert (uniform (S m) (TBranch (two_way a x b y))) as Hbranch.
  { constructor. intros i c Hi. replace i with (N.to_nat (N.of_nat i)) in Hi by lia.
    apply two_way_lookup in Hi; [|done..]. naive_solver. }
  unfold fork. destruct shared; [done|]. by eapply uniform_extension_nibs.
Qed.

Lemma uniform_branch_update n cs i o :
  uniform (S n) (TBranch cs) → (∀ c, o = Some c → uniform n c) →
  uniform (S n) (TBranch (<[i := o]> cs)).
Proof.
  intros Hcs Ho. inversion Hcs; subst. constructor.
  intros j d [(_ & ? & _)|[_ ?]]%list_lookup_insert_Some; eauto.
Qed.

Lemma trie_insert_uniform n t key value t' :
  trie_insert t key value = Ok (Some t') → well_formed t → uniform n t →
  nibbles key → length key = n → uniform n t'.
Proof.
  intros Hins0 Hwf Hu0 Hk0 Hn0. revert n key t' Hins0 Hu0 Hk0 Hn0.
  induction t as [|d|path old|path c IH|cs IH] using trie_nested_ind; intros n key t' Hins Hu Hk Hn.
  - injection Hins as <-. by apply uniform_leaf_nibs.
  - cbn in Hins. by destruct (from_slice d).
  - inversion Hu as [| |? ? Hlen Heq| |]; subst.
    inversion Hwf as [| |? ? Hpath| |]; subst. pose proof (prefix_to_nibs_nibbles _ Hpath) as Hp.
    cbn in Hins. split_common (prefix_to_nibs path) key.
    destruct a as [|x a], b as [|y b]; [|done|done|].
    + case_decide; simplify_eq. constructor.
    + rewrite Hnibs in *. simplify_eq. split_nibbles. rewrite !length_app in *. cbn in *.
      apply (uniform_fork _ _ _ _ _ _ (length a)); [done..|intros ->; by eapply Hhead|lia| |];
        apply uniform_leaf_nibs; done || lia.
  - inversion Hu as [| | |m ? ? Hc Heq|]; subst.
    inversion Hwf as [| | |? ? Hpath Hwc|]; subst. pose proof (prefix_to_nibs_nibbles _ Hpath) as Hp.
    cbn in Hins. split_common (prefix_to_nibs path) key. destruct a as [|x a].
    + apply fmap_Ok_Some in Hins as (c' & Hins & ->). rewrite app_nil_r in Hnibs. subst p.
      split_nibbles. constructor. subst key. rewrite length_app in *. split_nibbles.
      eapply IH; [done..|lia].
    + destruct b as [|y b]; [done|]. rewrite Hnibs in *. simplify_eq. split_nibbles.
      rewrite !length_app in *. cbn in *.
      apply (uniform_fork _ _ _ _ _ _ (length a + m));
        [done..|intros ->; by eapply Hhead|lia| |apply uniform_leaf_nibs; [done|lia]].
      destruct a; [done|]. by eapply uniform_extension_nibs.
  - destruct key as [|i tail]; [done|]. rewrite trie_insert_branch in Hins. split_nibbles.
    cbn in Hn. subst n.
    inversion Hu as [| | | |m ? Hcs]; subst. inversion Hwf as [| | | |? Hlen Hwcs]; subst.
    destruct (cs !! N.to_nat i) as [[c|]|] eqn:Hi; [| |done].
    + apply fmap_Ok_Some in Hins as (c' & Hins & ->).
      apply uniform_branch_update; [done|]. intros ? [= <-]. eapply IH; eauto.
    + injection Hins as <-. apply uniform_branch_update; [done|]. intros ? [= <-].
      by apply uniform_leaf_nibs.
Qed.

Lemma shrink_extension_uniform n path c :
  well_formed (TExtension path c) → uniform n (TExtension path c) →
  uniform n (shrink_extension path c).
Proof.
  intros Hwf Hu. inversion Hwf as [| | |? ? Hpath Hwc|]; subst.
  inversion Hu as [| | |m ? ? Hc|]; subst. pose proof (prefix_to_nibs_nibbles _ Hpath) as Hp.
  destruct c as [|d|path' v|path' c|cs]; cbn; [constructor|done| | |done].
  - inversion Hwc; subst. inversion Hc; subst.
    apply uniform_leaf_nibs; [auto with reth|by rewrite length_app].
  - inversion Hwc; subst. inversion Hc; subst.
    eapply uniform_extension_nibs; [auto with reth| |done]. rewrite length_app. lia.
Qed.

Lemma shrink_branch_uniform n cs t :
  well_formed (TBranch cs) → uniform (S n) (TBranch cs) → shrink_branch cs = Ok t → uniform (S n) t.
Proof.
  intros Hwf Hu Hs. inversion Hwf as [| | | |? Hlen Hwcs]; subst.
  inversion Hu as [| | | |? ? Hcs]; subst. unfold shrink_branch in Hs.
  destruct (remaining_children cs) as [|[i c] [|]] eqn:Hrem; [done| |by injection Hs as <-].
  apply remaining_single in Hrem as [Hi _].
  assert (is_nibble (N.of_nat i)) as Hn.
  { apply lookup_lt_Some in Hi. unfold is_nibble. lia. }
  specialize (Hcs _ _ Hi). specialize (Hwcs _ _ Hi).
  destruct c as [|d|path v|path c|ds]; simplify_eq.
  - by eapply uniform_extension_nibs; [auto with reth| |].
  - inversion Hcs; subst. inversion Hwcs; subst. apply uniform_leaf_nibs; [auto with reth|done].
  - inversion Hcs; subst. inversion Hwcs; subst.
    by eapply uniform_extension_nibs; [auto with reth| |].
  - by eapply uniform_extension_nibs; [auto with reth| |].
Qed.

Lemma trie_delete_uniform n t key t' :
  trie_delete t key = Ok (Some t') → well_formed t → uniform n t → nibbles key → uniform n t'.
Proof.
  intros Hdel0 Hwf Hu0 Hk0. revert n key t' Hdel0 Hu0 Hk0.
  induction t as [|d|path old|path c IH|cs IH] using trie_nested_ind; intros n key t' Hdel Hu Hk.
  - done.
  - cbn in Hdel. by destruct (from_slice d).
  - cbn in Hdel. case_decide; simplify_eq. constructor.
  - cbn in Hdel. destruct (strip_prefix _ key) as [tail|] eqn:Hs; [|done].
    apply strip_prefix_Some in Hs. subst. split_nibbles.
    apply fmap_Ok_Some in Hdel as (c' & Hdel & ->). inversion Hwf; subst. inversion Hu; subst.
    apply shrink_extension_uniform; constructor; [done|by eapply trie_delete_wf|by eapply IH].
  - destruct key as [|i tail]; [done|]. rewrite trie_delete_branch in Hdel. split_nibbles.
    inversion Hwf as [| | | |? Hlen Hwcs]; subst. inversion Hu as [| | | |m ? Hcs]; subst.
    destruct (cs !! N.to_nat i) as [[c|]|] eqn:Hi; [|done..].
    destruct (trie_delete c tail) as [[c'|]| | |] eqn:Hc; try done. cbn in Hdel.
    destruct (shrink_branch _) as [t''| | |] eqn:Hs; try done. injection Hdel as <-.
    assert (well_formed c) as Hwc by by eapply Hwcs.
    assert (uniform m c') as Hc' by by eapply IH; eauto.
    eapply shrink_branch_uniform; [| |done].
    + apply branch_update_wf; [done|]. intros d Hd. eapply slot_of_wf; [|done].
      by eapply trie_delete_wf.
    + apply uniform_branch_update; [done|]. intros d Hd. by destruct c'; cbn in Hd; simplify_eq.
Qed.

(** ** Operations on uniform tries fail only at unresolved nodes *)

Lemma length_tail_zero {A} (l : list A) : length l = 0 → l = [].
Proof. by destruct l. Qed.

(** On keys of the right length insertion fails exactly where a lookup does,
    and changes the trie unless the key already has the value. *)
Lemma trie_insert_total n t key value :
  well_formed t → uniform n t → nibbles key → length key = n →
  (∃ e, trie_get t key = Err e ∧ trie_insert t key value = Err e) ∨
  (∃ old r, trie_get t key = Ok old ∧ trie_insert t key value = Ok r ∧
    (r = None ↔ old = Some value)).
Proof.
  intros Hwf. revert n key. induction t as [|d|path old|path c IH|cs IH] using trie_nested_ind;
    intros n key Hu Hk Hn.
  - right. by do 2 eexists.
  - inversion Hwf; subst. left. cbn. rewrite from_slice_ok by done. by eexists.
  - right. inversion Hu as [| |? ? Hlen Heq| |]; subst. cbn.
    split_common (prefix_to_nibs path) key. rewrite Hnibs, Hkey in Hlen.
    rewrite !length_app in Hlen.
    destruct a as [|x a], b as [|y b]; cbn in Hlen; try lia.
    + rewrite decide_True by congruence. do 2 eexists. split_and!; [done..|]. case_decide; naive_solver.
    + rewrite decide_False; [by do 2 eexists|]. rewrite Hnibs, Hkey. intros Heq'.
      simplify_list_eq. by eapply Hhead.
  - inversion Hu as [| | |m ? ? Hc|]; subst. inversion Hwf as [| | |? ? Hpath Hwc|]; subst. cbn.
    split_common (prefix_to_nibs path) key. destruct a as [|x a].
    + rewrite app_nil_r in Hnibs. subst p key. rewrite strip_prefix_app.
      rewrite length_app in *. split_nibbles.
      destruct (IH Hwc m b) as [(e & -> & ->)|(old & r & -> & -> & Hr)]; [done..|lia| |].
      * left. by eexists.
      * right. do 2 eexists. split_and!; [done..|]. destruct r; cbn; naive_solver.
    + destruct b as [|y b].
      { exfalso. rewrite Hnibs in *. subst key. rewrite !length_app in *. cbn in *. lia. }
      right. rewrite Hnibs, Hkey. rewrite strip_prefix_app_l, strip_prefix_app. cbn [strip_prefix].
      rewrite decide_False by (intros ->; by eapply Hhead). by do 2 eexists.
  - destruct key as [|i tail]; [inversion Hu; subst; done|]. split_nibbles. cbn in Hn. subst n.
    inversion Hu as [| | | |m ? Hcs]; subst. inversion Hwf as [| | | |? Hlen Hwcs]; subst.
    rewrite trie_get_branch, trie_insert_branch.
    destruct (lookup_lt_is_Some_2 cs (N.to_nat i)) as [o Hi]; [unfold is_nibble in *; lia|].
    rewrite Hi. destruct o as [c|]; [|right; by do 2 eexists].
    destruct (IH _ _ Hi (Hwcs _ _ Hi) (length tail) tail) as [(e & -> & ->)|(old & r & -> & -> & Hr)];
      [by eapply Hcs|done..| |].
    + left. by eexists.
    + right. do 2 eexists. split_and!; [done..|]. destruct r; cbn; naive_solver.
Qed.

Lemma shrink_branch_no_error cs e : shrink_branch cs ≠ Err e.
Proof. unfold shrink_branch. by repeat case_match. Qed.

(** Deletion from a canonical trie, likewise. *)
Lemma trie_delete_total n t key :
  canonical t → uniform n t → nibbles key → length key = n →
  (∃ e, trie_get t key = Err e ∧ trie_delete t key = Err e) ∨
  (∃ old r, trie_get t key = Ok old ∧ trie_delete t key = Ok r ∧ (r = None ↔ old = None)).
Proof.
  intros [->|Hct]; [right; by do 2 eexists|]. revert n key.
  induction t as [|d|path old|path c IH|cs IH] using trie_nested_ind; intros n key Hu Hk Hn.
  - inversion Hct.
  - inversion Hct; subst. left. cbn. rewrite from_slice_ok by done. by eexists.
  - right. cbn. do 2 eexists. split_and!; [done..|]. by case_decide.
  - pose proof (canonical_wf _ Hct) as Hwf.
    inversion Hct as [| |nibs ? Hnb Hne Hb Hc Heq|]; subst.
    inversion Hu as [| | |m ? ? Huc|]; subst. cbn. rewrite hp_decode_encode in * by done.
    destruct (strip_prefix nibs key) as [tail|] eqn:Hs; [|right; by do 2 eexists].
    apply strip_prefix_Some in Hs. subst. rewrite length_app in *. split_nibbles.
    destruct (IH Hc m tail) as [(e & -> & ->)|(old & r & -> & -> & Hr)]; [done..|lia| |].
    + left. by eexists.
    + right. do 2 eexists. split_and!; [done..|]. destruct r; cbn; naive_solver.
  - pose proof (trie_delete_canonical (TBranch cs) key (or_intror Hct) Hk) as Hdel.
    destruct key as [|i tail]; [inversion Hu; subst; done|]. split_nibbles. cbn in Hn. subst n.
    inversion Hu as [| | | |m ? Hcs]; subst. inversion Hct as [| | |? Hlen _ Hccs]; subst.
    rewrite trie_get_branch. rewrite trie_delete_branch in *.
    destruct (cs !! N.to_nat i) as [[c|]|] eqn:Hi; [|right; by do 2 eexists|done].
    destruct (IH _ _ Hi (Hccs _ _ Hi) (length tail) tail) as [(e & He & Hd)|(old & r & Ho & Hd & Hr)];
      [by eapply Hcs|done..| |]; rewrite ?He, ?Ho, Hd in *.
    + left. by eexists.
    + right. destruct r as [c'|]; cbn in Hdel |- *; [|do 2 eexists; split_and!; first [done|naive_solver]].
      destruct (shrink_branch _) eqn:Hs; try done; [|by apply shrink_branch_no_error in Hs].
      do 2 eexists. split_and!; first [done|naive_solver].
Qed.

(** ** Resolved tries *)

Lemma trie_get_resolved t key :
  well_formed t → resolved t → nibbles key → is_Ok (trie_get t key).
Proof.
  intros Hwf Hr. revert key. induction t as [|d|path old|path c IH|cs IH] using trie_nested_ind;
    intros key Hk; [by eexists|by inversion Hr|by eexists| |].
  - inversion Hwf; inversion Hr; subst. cbn. destruct (strip_prefix _ key) as [tail|] eqn:Hs; [|by eexists].
    apply strip_prefix_Some in Hs. subst. split_nibbles. by apply IH.
  - destruct key as [|i tail]; [by eexists|]. split_nibbles. rewrite trie_get_branch.
    inversion Hwf as [| | | |? Hlen Hwcs]; inversion Hr as [| | |? Hrcs]; subst.
    destruct (lookup_lt_is_Some_2 cs (N.to_nat i)) as [o Hi]; [unfold is_nibble in *; lia|].
    rewrite Hi. destruct o as [c|]; [|by eexists]. eapply IH; eauto.
Qed.

Lemma resolved_fork shared a x b y :
  is_nibble a → is_nibble b → a ≠ b → resolved x → resolved y → resolved (fork shared a x b y).
Proof.
  intros Ha Hb Hne Hx Hy.
  assert (resolved (TBranch (two_way a x b y))) as Hbranch.
  { constructor. intros i c Hi. replace i with (N.to_nat (N.of_nat i)) in Hi by lia.
    apply two_way_lookup in Hi; [|done..]. naive_solver. }
  unfold fork. destruct shared; [done|]. by constructor.
Qed.

Lemma resolved_branch_update cs i o :
  resolved (TBranch cs) → (∀ c, o = Some c → resolved c) → resolved (TBranch (<[i := o]> cs)).
Proof.
  intros Hcs Ho. inversion Hcs; subst. constructor.
  intros j d [(_ & ? & _)|[_ ?]]%list_lookup_insert_Some; eauto.
Qed.

Lemma trie_insert_resolved t key value t' :
  trie_insert t key value = Ok (Some t') → well_formed t → resolved t → nibbles key → resolved t'.
Proof.
  intros Hins0 Hwf Hr0 Hk0. revert key t' Hins0 Hk0.
  induction t as [|d|path old|path c IH|cs IH] using trie_nested_ind; intros key t' Hins Hk.
  - injection Hins as <-. constructor.
  - inversion Hr0.
  - cbn in Hins. split_common (prefix_to_nibs path) key.
    inversion Hwf as [| |? ? Hpath| |]; subst. pose proof (prefix_to_nibs_nibbles _ Hpath) as Hn.
    rewrite Hnibs in Hn. destruct a as [|x a], b as [|y b]; [|done|done|].
    + case_decide; simplify_eq. by constructor.
    + simplify_eq. split_nibbles.
      apply resolved_fork; try done; [intros ->; by eapply Hhead|constructor..].
  - cbn in Hins. split_common (prefix_to_nibs path) key. inversion Hr0; subst.
    inversion Hwf as [| | |? ? Hpath Hc|]; subst. pose proof (prefix_to_nibs_nibbles _ Hpath) as Hn.
    rewrite Hnibs in Hn. destruct a as [|x a].
    + apply fmap_Ok_Some in Hins as (c' & Hins & ->). split_nibbles. constructor. by eapply IH.
    + destruct b as [|y b]; [done|]. simplify_eq. split_nibbles.
      apply resolved_fork; try done; [intros ->; by eapply Hhead| |constructor].
      destruct a; [done|]. by constructor.
  - destruct key as [|i tail]; [done|]. rewrite trie_insert_branch in Hins. split_nibbles.
    inversion Hwf as [| | | |? Hlen Hcs]; inversion Hr0 as [| | |? Hrcs]; subst.
    destruct (cs !! N.to_nat i) as [[c|]|] eqn:Hi; [| |done].
    + apply fmap_Ok_Some in Hins as (c' & Hins & ->).
      apply resolved_branch_update; [done|]. intros ? [= <-]. eapply IH; eauto.
    + injection Hins as <-. apply resolved_branch_update; [done|]. intros ? [= <-]. constructor.
Qed.

Lemma trie_delete_resolved t key t' :
  trie_delete t key = Ok (Some t') → resolved t → resolved t'.
Proof.
  intros Hdel0 Hr0. revert key t' Hdel0.
  induction t as [|d|path old|path c IH|cs IH] using trie_nested_ind; intros key t' Hdel.
  - done.
  - inversion Hr0.
  - cbn in Hdel. case_decide; simplify_eq. constructor.
  - cbn in Hdel. destruct (strip_prefix _ key) as [tail|]; [|done]. inversion Hr0; subst.
    apply fmap_Ok_Some in Hdel as (c' & Hdel & ->).
    assert (resolved c') as Hc' by by eapply IH.
    destruct Hc'; cbn; by repeat constructor.
  - destruct key as [|i tail]; [done|]. rewrite trie_delete_branch in Hdel.
    inversion Hr0 as [| | |? Hrcs]; subst.
    destruct (cs !! N.to_nat i) as [[c|]|] eqn:Hi; [|done..].
    destruct (trie_delete c tail) as [[c'|]| | |] eqn:Hc; try done. cbn in Hdel.
    destruct (shrink_branch _) as [t''| | |] eqn:Hs; try done. injection Hdel as <-.
    assert (resolved c') as Hc' by (eapply IH; eauto).
    assert (resolved (TBranch (<[N.to_nat i := slot_of c']> cs))) as Hbranch.
    { apply resolved_branch_update; [done|]. intros d Hd. by destruct c'; cbn in Hd; simplify_eq. }
    revert Hs Hbranch. generalize (<[N.to_nat i := slot_of c']> cs). intros ds Hs Hds.
    unfold shrink_branch in Hs.
    destruct (remaining_children ds) as [|[j e] [|]] eqn:Hrem; [done| |by injection Hs as <-].
    apply remaining_single in Hrem as [Hj _]. inversion Hds as [| | |? Hall]; subst.
    specialize (Hall _ _ Hj). by destruct Hall; simplify_eq; repeat constructor.
Qed.

(** An insertion leaves a node. *)
Lemma trie_insert_not_null t key value t' : trie_insert t key value = Ok (Some t') → t' ≠ TNull.
Proof.
  destruct t as [|d|path old|path c|cs]; cbn [trie_insert].
  - by intros [= <-].
  - by destruct (from_slice d).
  - destruct (drop _ (prefix_to_nibs path)), (drop _ key); try done; [case_decide; by intros [= <-]|].
    intros [= <-]. unfold fork. by case_match.
  - destruct (drop _ (prefix_to_nibs path)).
    + by intros (c' & _ & ->)%fmap_Ok_Some.
    + destruct (drop _ key); [done|]. intros [= <-]. unfold fork. by case_match.
  - destruct key as [|i tail]; [done|]. rewrite at_slot_spec. destruct (cs !! _) as [[c|]|]; [|by intros [= <-]|done].
    by intros (c' & _ & ->)%fmap_Ok_Some.
Qed.
End laws.
