(* ===== verification/Canon.v ===== *)
(** * Canonical tries are determined by their contents

    Two resolved canonical tries that bind the same keys to the same values are
    the same tree, so what is computed from the tree (its root hash, its
    serialization) is a function of the contents, whatever the order of the
    updates that led to it. *)

From S2P Require Import Prelude External Node Hp Mpt Trie TrieLaws.

Section canonical.
Context `{CratesOk}.

(** [t] has value [value] under the [n]-nibble key [key]. *)
Definition binds (n : nat) (t : trie) (key value : bytes) : Prop :=
  nibbles key ∧ length key = n ∧ trie_get t key = Ok (Some value).

Definition same_contents (n : nat) (t t' : trie) : Prop :=
  ∀ key value, binds n t key value ↔ binds n t' key value.

Lemma binds_leaf n nibs v key value :
  nibbles nibs → binds n (leaf nibs v) key value ↔ length nibs = n ∧ key = nibs ∧ value = v.
Proof.
  intros Hn. unfold binds. rewrite trie_get_leaf by done. case_decide; naive_solver.
Qed.

Lemma binds_extension n nibs c key value :
  nibbles nibs →
  binds (length nibs + n) (extension nibs c) key value ↔
  ∃ tail, key = nibs ++ tail ∧ binds n c tail value.
Proof.
  intros Hn. unfold binds. rewrite trie_get_extension by done. split.
  - destruct (strip_prefix nibs key) as [tail|] eqn:Hs; [|naive_solver].
    apply strip_prefix_Some in Hs. subst. rewrite length_app. intros (Hk & Hl & Hg).
    split_nibbles. exists tail. split_and!; [done..|lia|done].
  - intros (tail & -> & Hk & Hl & Hg). rewrite strip_prefix_app, length_app.
    split_and!; [auto with reth|lia|done].
Qed.

Lemma binds_branch n cs i c tail value :
  is_nibble i → cs !! N.to_nat i = Some (Some c) →
  binds (S n) (TBranch cs) (i :: tail) value ↔ binds n c tail value.
Proof.
  intros Hn Hi. unfold binds. rewrite trie_get_branch, Hi. split.
  - intros (Hk & Hl & Hg). split_nibbles. by injection Hl.
  - intros (Hk & Hl & Hg). split_and!; [auto with reth|cbn; by f_equal|done].
Qed.

Lemma resolved_no_digest t : resolved t → branch_or_digest t → ∃ cs, t = TBranch cs.
Proof. intros Hr Hb. destruct Hr; naive_solver. Qed.

(** A nonempty canonical trie binds some key. *)
Lemma canonical_binds n t :
  canonical_node t → resolved t → uniform n t → ∃ key value, binds n t key value.
Proof.
  revert n. induction t as [|d|path v|path c IH|cs IH] using trie_nested_ind;
    intros n Hct Hr Hu; [by inversion Hct|by inversion Hr| | |].
  - inversion Hct as [|nibs ? Hn| |]; subst. inversion Hu; subst. exists nibs, v.
    rewrite hp_decode_encode by done. by apply binds_leaf.
  - inversion Hct as [| |nibs ? Hn Hne Hb Hc|]; subst. inversion Hu as [| | |m ? ? Huc|]; subst.
    inversion Hr; subst. destruct (IH m) as (tail & v & Ht); [done..|].
    exists (nibs ++ tail), v. rewrite hp_decode_encode by done. apply binds_extension; eauto.
  - inversion Hct as [| | |? Hlen Hrem Hccs]; subst. inversion Hu as [| | | |m ? Hucs]; subst.
    inversion Hr as [| | |? Hrcs]; subst.
    apply remaining_two in Hrem as (i & j & c & d & Hne & Hi & Hj).
    destruct (IH _ _ Hi m) as (tail & v & Ht); eauto.
    exists (N.of_nat i :: tail), v. apply lookup_lt_Some in Hi as Hi'.
    apply (binds_branch _ _ _ c); [unfold is_nibble; lia|by rewrite Nat2N.id|done].
Qed.

(** A canonical branch binds keys that start with different nibbles. *)
Lemma canonical_branch_diverges n cs :
  canonical_node (TBranch cs) → resolved (TBranch cs) → uniform (S n) (TBranch cs) →
  ∃ i j s t v w, i ≠ j ∧ binds (S n) (TBranch cs) (i :: s) v ∧ binds (S n) (TBranch cs) (j :: t) w.
Proof.
  intros Hct Hr Hu.
  inversion Hct as [| | |? Hlen Hrem Hccs]; subst. inversion Hu as [| | | |m ? Hucs]; subst.
  inversion Hr as [| | |? Hrcs]; subst.
  apply remaining_two in Hrem as (i & j & c & d & Hne & Hi & Hj).
  destruct (canonical_binds n c) as (s & v & Hs); eauto.
  destruct (canonical_binds n d) as (t & w & Ht); eauto.
  apply lookup_lt_Some in Hi as Hi'. apply lookup_lt_Some in Hj as Hj'.
  exists (N.of_nat i), (N.of_nat j), s, t, v, w. split_and!; [lia| |].
  - apply (binds_branch _ _ _ c); [unfold is_nibble; lia|by rewrite Nat2N.id|done].
  - apply (binds_branch _ _ _ d); [unfold is_nibble; lia|by rewrite Nat2N.id|done].
Qed.

(** An extension binds keys that agree on its path and differ right after it. *)
Lemma canonical_extension_diverges n nibs c :
  nibbles nibs → branch_or_digest c → canonical_node c → resolved c → uniform n c →
  ∃ i j s t v w, i ≠ j ∧ binds (length nibs + n) (extension nibs c) (nibs ++ i :: s) v ∧
    binds (length nibs + n) (extension nibs c) (nibs ++ j :: t) w.
Proof.
  intros Hn Hb Hct Hr Hu. destruct (resolved_no_digest c) as [cs ->]; [done..|].
  inversion Hu as [| | | |m ? Hucs]; subst.
  destruct (canonical_branch_diverges m cs) as (i & j & s & t & v & w & Hne & Hi & Hj); [done..|].
  exists i, j, s, t, v, w. split_and!; [done|apply binds_extension; eauto..].
Qed.

(** A prefix of two sequences that diverge after [p] is a prefix of [p]. *)
Lemma prefix_of_divergence {A} (p q s t s' t' : list A) i j :
  i ≠ j → p ++ i :: s = q ++ s' → p ++ j :: t = q ++ t' → ∃ r, p = q ++ r.
Proof.
  revert q. induction p as [|x p IH]; intros [|y q] Hne Hs Ht; cbn in *; simplify_eq; eauto.
  destruct (IH q) as [r ->]; eauto.
Qed.

Lemma same_contents_sym n t t' : same_contents n t t' → same_contents n t' t.
Proof. unfold same_contents. naive_solver. Qed.

Lemma leaf_extension_differ n nibs v q d :
  nibbles nibs → nibbles q → branch_or_digest d → canonical_node d → resolved d →
  uniform n (extension q d) → ¬ same_contents n (leaf nibs v) (extension q d).
Proof.
  intros Hn Hq Hb Hct Hr Hu Hs. inversion Hu as [| | |m ? ? Hum|]; subst.
  rewrite hp_decode_encode in Hs by done.
  destruct (canonical_extension_diverges m q d) as (i & j & s & t & w & w' & Hne & Hi & Hj); [done..|].
  apply Hs, binds_leaf in Hi as (_ & Hi & _); [|done].
  apply Hs, binds_leaf in Hj as (_ & Hj & _); [|done]. simplify_list_eq.
Qed.

Lemma leaf_branch_differ n nibs v cs :
  nibbles nibs → canonical_node (TBranch cs) → resolved (TBranch cs) →
  uniform n (TBranch cs) → ¬ same_contents n (leaf nibs v) (TBranch cs).
Proof.
  intros Hn Hct Hr Hu Hs. inversion Hu as [| | | |m ? Hum]; subst.
  destruct (canonical_branch_diverges m cs) as (i & j & s & t & w & w' & Hne & Hi & Hj); [done..|].
  apply Hs, binds_leaf in Hi as (_ & Hi & _); [|done].
  apply Hs, binds_leaf in Hj as (_ & Hj & _); [|done]. by simplify_eq.
Qed.

Lemma extension_branch_differ n nibs c cs :
  nibbles nibs → nibs ≠ [] → canonical_node (TBranch cs) → resolved (TBranch cs) →
  uniform n (extension nibs c) → uniform n (TBranch cs) →
  ¬ same_contents n (extension nibs c) (TBranch cs).
Proof.
  intros Hn Hne Hct Hr Huc Hu Hs. inversion Hu as [| | | |m ? Hum]; subst.
  destruct (canonical_branch_diverges m cs) as (i & j & s & t & w & w' & Hij & Hi & Hj); [done..|].
  inversion Huc as [| | |m' ? ? Hum' Hm|]; subst. rewrite hp_decode_encode in Hm by done.
  rewrite <-Hm in *. apply Hs, binds_extension in Hi as (s' & Hi & _); [|done].
  apply Hs, binds_extension in Hj as (t' & Hj & _); [|done].
  destruct nibs; [done|]. by simplify_list_eq.
Qed.

Lemma binds_slot n cs i tail value :
  length cs = 16 → i < 16 →
  binds (S n) (TBranch cs) (N.of_nat i :: tail) value ↔
  ∃ c, cs !! i = Some (Some c) ∧ binds n c tail value.
Proof.
  intros Hlen Hi. destruct (lookup_lt_is_Some_2 cs i) as [[c|] Hc]; [lia| |].
  - rewrite (binds_branch _ _ _ c); [naive_solver|unfold is_nibble; lia|by rewrite Nat2N.id].
  - split; [|naive_solver]. intros (_ & _ & Hg). rewrite trie_get_branch, Nat2N.id, Hc in Hg. done.
Qed.

Lemma same_contents_slot n cs ds i o o' :
  length cs = 16 → length ds = 16 → i < 16 → cs !! i = Some o → ds !! i = Some o' →
  same_contents (S n) (TBranch cs) (TBranch ds) →
  ∀ key value, (∃ c, o = Some c ∧ binds n c key value) ↔ (∃ d, o' = Some d ∧ binds n d key value).
Proof.
  intros Hlen Hlen' Hi Ho Ho' Hs key value.
  specialize (Hs (N.of_nat i :: key) value). rewrite !binds_slot, Ho, Ho' in Hs by done.
  naive_solver.
Qed.

Lemma canonical_node_unique n t t' :
  canonical_node t → canonical_node t' → resolved t → resolved t' → uniform n t → uniform n t' →
  same_contents n t t' → t = t'.
Proof.
  revert n t'. induction t as [|d|path v|path c IH|cs IH] using trie_nested_ind;
    intros n t' Hct Hct' Hr Hr' Hu Hu' Hs; [by inversion Hct|by inversion Hr| | |].
  - inversion Hct as [|nibs ? Hn| |]; subst.
    destruct Hct' as [|nibs' v' Hn'|q d Hq Hqne Hb Hd|cs Hlen Hrem Hcs]; [by inversion Hr'| | |].
    + inversion Hu; subst. rewrite hp_decode_encode in * by done.
      pose proof (proj1 (Hs nibs v) ltac:(by apply binds_leaf)) as Hb.
      apply binds_leaf in Hb as (_ & -> & ->); done.
    + inversion Hr'; subst. by eapply leaf_extension_differ in Hs.
    + eapply leaf_branch_differ in Hs; try done. by constructor.
  - inversion Hct as [| |nibs ? Hn Hne Hb Hc|]; subst. inversion Hr; subst.
    fold (extension nibs c) in *.
    destruct Hct' as [|nibs' v' Hn'|q d Hq Hqne Hb' Hd|cs Hlen Hrem Hcs]; [by inversion Hr'| | |].
    + apply same_contents_sym in Hs. by eapply leaf_extension_differ in Hs.
    + inversion Hr'; subst. inversion Hu as [| | |m ? ? Hum Hm|]; subst.
      inversion Hu' as [| | |m' ? ? Hum' Hm'|]; subst. rewrite !hp_decode_encode in * by done.
      destruct (canonical_extension_diverges m nibs c)
        as (i & j & s & t & w & w' & Hij & Hi & Hj); [done..|].
      destruct (canonical_extension_diverges m' q d)
        as (i' & j' & s' & t' & x & x' & Hij' & Hi' & Hj'); [done..|].
      rewrite Hm' in Hi', Hj'.
      apply Hs in Hi, Hj, Hi', Hj'. rewrite <-Hm' in Hi, Hj.
      apply binds_extension in Hi as (? & Hi & _), Hj as (? & Hj & _); [|done..].
      apply binds_extension in Hi' as (? & Hi' & _), Hj' as (? & Hj' & _); [|done..].
      destruct (prefix_of_divergence nibs q _ _ _ _ _ _ Hij Hi Hj) as [r Hr1].
      destruct (prefix_of_divergence q nibs _ _ _ _ _ _ Hij' Hi' Hj') as [r' Hr2].
      assert (r = []) as ->.
      { apply (f_equal length) in Hr1, Hr2. rewrite length_app in Hr1, Hr2.
        apply nil_length_inv. lia. }
      rewrite app_nil_r in Hr1. subst q. f_equal.
      assert (m' = m) as -> by lia. apply (IH m); try done.
      intros key value. specialize (Hs (nibs ++ key) value).
      rewrite !binds_extension in Hs by done. split.
      * intros Hk. destruct (proj1 Hs (ex_intro _ key (conj eq_refl Hk))) as (tl & Htl & ?).
        by simplify_list_eq.
      * intros Hk. destruct (proj2 Hs (ex_intro _ key (conj eq_refl Hk))) as (tl & Htl & ?).
        by simplify_list_eq.
    + eapply extension_branch_differ in Hs; try done. by constructor.
  - destruct Hct' as [|nibs' v' Hn'|q d Hq Hqne Hb' Hd|ds Hlen' Hrem' Hcs']; [by inversion Hr'| | |].
    + apply same_contents_sym in Hs. by eapply leaf_branch_differ in Hs.
    + apply same_contents_sym in Hs. by eapply extension_branch_differ in Hs.
    + inversion Hct as [| | |? Hlen Hrem Hccs]; subst. inversion Hu as [| | | |m ? Hucs]; subst.
      inversion Hr as [| | |? Hrcs]; subst. inversion Hu' as [| | | |m' ? Hucs']; subst.
        inversion Hr' as [| | |? Hrcs']; subst. f_equal.
      apply (list_eq_same_length _ _ 16); [done..|]. intros i o o' Hi16 Hi Hi'.
      pose proof (same_contents_slot m cs ds i o o' Hlen Hlen' Hi16 Hi Hi' Hs) as Hslot.
      destruct o as [c|], o' as [d|]; [| | |done].
      * f_equal. eapply (IH _ _ Hi m); eauto. intros key value. specialize (Hslot key value).
        naive_solver.
      * destruct (canonical_binds m c) as (k & v & Hb); eauto.
        by destruct (proj1 (Hslot k v) (ex_intro _ c (conj eq_refl Hb))) as (? & ? & _).
      * destruct (canonical_binds m d) as (k & v & Hb); eauto.
        by destruct (proj2 (Hslot k v) (ex_intro _ d (conj eq_refl Hb))) as (? & ? & _).
Qed.

Lemma canonical_unique n t t' :
  canonical t → canonical t' → resolved t → resolved t' → uniform n t → uniform n t' →
  same_contents n t t' → t = t'.
Proof.
  intros [->|Hct] [->|Hct'] Hr Hr' Hu Hu' Hs; [done| | |by eapply canonical_node_unique].
  - destruct (canonical_binds n t') as (k & v & Hb); [done..|]. by apply Hs in Hb as (_ & _ & ?).
  - destruct (canonical_binds n t) as (k & v & Hb); [done..|]. by apply Hs in Hb as (_ & _ & ?).
Qed.
End canonical.
