(* ===== verification/TrieHash.v ===== *)
(** * Encodings and hashes of tries

    The RLP encoding of a node, its reference in the parent, and the root hash,
    as functions of the tree.  [MptHash.v] shows that the cached and
    scratch-buffer computations of the arena give these values. *)

From S2P Require Import Prelude External Node Hp Mpt Trie.

Section hashes.
Context `{Crates}.

(** A node reference as it stands in the parent's encoding. *)
Definition ref_bytes (r : NodeRef) : bytes :=
  match r with
  | BytesRef slice => slice
  | DigestRef digest => (EMPTY_STRING_CODE + 32)%N :: digest
  end.

Definition list_rlp (payload : bytes) : bytes :=
  header_encode true (length payload) ++ payload.

(** The reference of a node with encoding [rlp]. *)
Definition reference_with (rlp : bytes) (t : trie) : NodeRef :=
  match t with
  | TNull => BytesRef [EMPTY_STRING_CODE]
  | TDigest d => DigestRef d
  | _ => if decide (length rlp < 32) then BytesRef rlp else DigestRef (keccak256 rlp)
  end.

Fixpoint trie_rlp (t : trie) : bytes :=
  match t with
  | TNull => [EMPTY_STRING_CODE]
  | TDigest d => slice_encode d
  | TLeaf path value => list_rlp (slice_encode path ++ slice_encode value)
  | TExtension path c =>
      list_rlp (slice_encode path ++ ref_bytes (reference_with (trie_rlp c) c))
  | TBranch cs =>
      list_rlp
        (concat (map (λ o, match o with
                           | Some c => ref_bytes (reference_with (trie_rlp c) c)
                           | None => [EMPTY_STRING_CODE]
                           end) cs)
         ++ [EMPTY_STRING_CODE])
  end.

Definition trie_ref (t : trie) : NodeRef := reference_with (trie_rlp t) t.

Definition slot_bytes (o : option trie) : bytes :=
  match o with Some c => ref_bytes (trie_ref c) | None => [EMPTY_STRING_CODE] end.

Definition trie_hash (t : trie) : B256 :=
  match t with
  | TNull => EMPTY_ROOT_HASH
  | _ => match trie_ref t with
         | DigestRef d => d
         | BytesRef slice => keccak256 slice
         end
  end.

(** The payload under the node's list header. *)
Definition trie_payload (t : trie) : bytes :=
  match t with
  | TNull | TDigest _ => []
  | TLeaf path value => slice_encode path ++ slice_encode value
  | TExtension path c => slice_encode path ++ ref_bytes (trie_ref c)
  | TBranch cs => concat (slot_bytes <$> cs) ++ [EMPTY_STRING_CODE]
  end.

Lemma trie_rlp_list t :
  match t with
  | TNull => trie_rlp t = [EMPTY_STRING_CODE]
  | TDigest d => trie_rlp t = slice_encode d
  | _ => trie_rlp t = list_rlp (trie_payload t)
  end.
Proof. by destruct t. Qed.

Context `{!CratesOk}.

Lemma trie_ref_digest_length t d : well_formed t → trie_ref t = DigestRef d → length d = 32.
Proof.
  intros Hwf Ht. destruct Hwf; cbn in Ht; repeat case_decide; simplify_eq; auto with reth.
Qed.

Lemma trie_hash_length t : well_formed t → length (trie_hash t) = 32.
Proof.
  intros Hwf. unfold trie_hash. destruct (trie_ref t) as [s|d] eqn:Hr.
  - destruct t; auto with reth.
  - apply trie_ref_digest_length in Hr; [|done]. destruct t; auto with reth.
Qed.

Lemma list_rlp_length payload : length (list_rlp payload) = length_of_length (length payload) + length payload.
Proof. unfold list_rlp. by rewrite length_app, header_encode_length. Qed.
End hashes.
