(* ===== verification/MptRefine.v ===== *)
(** * The arena represents a tree

    [represents m a]: the nodes and the caches of [m] hold the tree [a], in
    which every node carries its index.  The file shows that the operations on
    the arena do to the represented tree what [trie_get], [trie_insert] and
    [trie_delete] say, that they stay within the fuel, and that a failing
    operation leaves the arena as it was. *)

From S2P Require Import Prelude External Node Hp Mpt Trie TrieLaws TrieHash.

(** A tree whose nodes know their index in the arena. *)
Inductive atrie : Type :=
  | ANull (id : NodeId)
  | ADigest (id : NodeId) (digest : bytes)
  | ALeaf (id : NodeId) (path value : bytes)
  | AExtension (id : NodeId) (path : bytes) (child : atrie)
  | ABranch (id : NodeId) (children : list (option atrie)).

Lemma atrie_nested_ind (P : atrie → Prop) :
  (∀ i, P (ANull i)) → (∀ i d, P (ADigest i d)) → (∀ i p v, P (ALeaf i p v)) →
  (∀ i p c, P c → P (AExtension i p c)) →
  (∀ i cs, (∀ j c, cs !! j = Some (Some c) → P c) → P (ABranch i cs)) →
  ∀ a, P a.
Proof.
  intros Hn Hd Hl He Hb. fix IH 1. intros [i|i d|i p v|i p c|i cs];
    [apply Hn|apply Hd|apply Hl|apply He, IH|apply Hb].
  induction cs as [|o cs IHcs]; intros [|j] c Hc; try discriminate.
  - destruct o as [c'|]; [|discriminate]. injection Hc as <-. apply IH.
  - by apply (IHcs j).
Defined.

Definition root (a : atrie) : NodeId :=
  match a with
  | ANull id | ADigest id _ | ALeaf id _ _ | AExtension id _ _ | ABranch id _ => id
  end.

Definition data (a : atrie) : NodeData :=
  match a with
  | ANull _ => Null
  | ADigest _ d => Digest d
  | ALeaf _ path value => Leaf path value
  | AExtension _ path c => Extension path (root c)
  | ABranch _ cs => Branch (option_map root <$> cs)
  end.

Fixpoint erase (a : atrie) : trie :=
  match a with
  | ANull _ => TNull
  | ADigest _ d => TDigest d
  | ALeaf _ path value => TLeaf path value
  | AExtension _ path c => TExtension path (erase c)
  | ABranch _ cs => TBranch (map (λ o, match o with Some c => Some (erase c) | None => None end) cs)
  end.

(** The nodes strictly below the root. *)
Fixpoint below (a : atrie) : list atrie :=
  match a with
  | AExtension _ _ c => c :: below c
  | ABranch _ cs => concat (map (λ o, match o with Some c => c :: below c | None => [] end) cs)
  | _ => []
  end.

Definition subtries (a : atrie) : list atrie := a :: below a.
Definition ids (a : atrie) : list NodeId := root <$> subtries a.

Fixpoint height (t : trie) : nat :=
  match t with
  | TExtension _ c => S (height c)
  | TBranch cs =>
      S (max_list (map (λ o, match o with Some c => height c | None => 0 end) cs))
  | _ => 1
  end.

Lemma erase_branch id cs : erase (ABranch id cs) = TBranch (option_map erase <$> cs).
Proof. done. Qed.

(** ** Nodes of a tree *)

Lemma below_branch_none id cs i c :
  cs !! i = Some None →
  below (ABranch id (<[i := Some c]> cs)) ≡ₚ subtries c ++ below (ABranch id cs).
Proof.
  revert i. induction cs as [|o cs IH]; intros [|i] Hi; simplify_eq/=.
  - done.
  - specialize (IH i Hi). cbn in IH. rewrite IH.
    apply (Permutation_app_swap_app _ (c :: below c)).
Qed.

Lemma below_branch_some id cs i c :
  cs !! i = Some (Some c) →
  below (ABranch id cs) ≡ₚ subtries c ++ below (ABranch id (<[i := None]> cs)).
Proof.
  revert i. induction cs as [|o cs IH]; intros [|i] Hi; simplify_eq/=.
  - done.
  - specialize (IH i Hi). cbn in IH. rewrite IH.
    apply (Permutation_app_swap_app _ (c :: below c)).
Qed.

Lemma below_branch_update id cs i c o :
  cs !! i = Some (Some c) →
  below (ABranch id (<[i := o]> cs)) ≡ₚ
  from_option subtries [] o ++ below (ABranch id (<[i := None]> cs)).
Proof.
  intros Hi. apply lookup_lt_Some in Hi as Hlt. destruct o as [c'|]; [|done].
  rewrite <-(below_branch_none id (<[i := None]> cs) i c').
  - by rewrite list_insert_insert_eq.
  - by rewrite list_lookup_insert_eq.
Qed.

Lemma below_two_way id a x b y :
  is_nibble a → is_nibble b → a ≠ b →
  below (ABranch id (two_way a x b y)) ≡ₚ subtries y ++ subtries x.
Proof.
  unfold two_way, is_nibble. intros Ha Hb Hne.
  rewrite below_branch_none.
  - rewrite below_branch_none by (rewrite lookup_replicate_2 by lia; done).
    change (below (ABranch id (replicate 16 None))) with (@nil atrie). by rewrite app_nil_r.
  - rewrite list_lookup_insert_ne by lia. by rewrite lookup_replicate_2 by lia.
Qed.

Lemma height_pos t : 1 ≤ height t.
Proof. destruct t; cbn; lia. Qed.

Lemma height_child cs i c : cs !! i = Some (Some c) → height c < height (TBranch cs).
Proof.
  intros Hi. cbn. apply Nat.lt_succ_r. apply max_list_elem_of_le.
  apply list_elem_of_fmap. exists (Some c). split; [done|]. by eapply list_elem_of_lookup_2.
Qed.

Lemma height_le_size a : height (erase a) ≤ length (subtries a).
Proof.
  induction a as [| | |i p c IH|i cs IH] using atrie_nested_ind; cbn in *; try lia.
  apply le_n_S. induction cs as [|o cs IHcs]; [done|]. cbn. rewrite length_app.
  assert (∀ j c, cs !! j = Some (Some c) → height (erase c) ≤ length (subtries c)) as Hcs.
  { intros j. apply (IH (S j)). }
  specialize (IHcs Hcs). specialize (IH 0). destruct o as [c|]; cbn in *; [|lia].
  specialize (IH c eq_refl). lia.
Qed.

Section refinement.
Context `{CratesOk}.

(** ** Representation *)

Definition stored (m : Mpt) (a : atrie) : Prop := nodes m !! root a = Some (data a).

(** The cell of the node is free, and a cached reference is the right one. *)
Definition cache_ok (m : Mpt) (a : atrie) : Prop :=
  ∃ o, cached_references m !! root a = Some (new_cell o) ∧
       ∀ r, o = Some r → r = trie_ref (erase a).

Definition node_ok (m : Mpt) (a : atrie) : Prop := stored m a ∧ cache_ok m a.

Definition represents (m : Mpt) (a : atrie) : Prop :=
  Forall (node_ok m) (subtries a) ∧ NoDup (ids a).

(** The arena at rest: one cell per node, the scratch buffer not in use. *)
Definition at_rest (m : Mpt) : Prop :=
  length (cached_references m) = length (nodes m) ∧ cell_borrowed (rlp_scratch m) = false.

(** [m'] comes from [m] by updating the nodes [owned] and adding new ones. *)
Record evolves (m m' : Mpt) (owned : list NodeId) : Prop := {
  evolves_root : root_id m' = root_id m;
  evolves_rest : at_rest m → at_rest m';
  evolves_length : length (nodes m) ≤ length (nodes m');
  evolves_nodes j : j < length (nodes m) → j ∉ owned → nodes m' !! j = nodes m !! j;
  evolves_cells j :
    j < length (nodes m) → j ∉ owned → cached_references m' !! j = cached_references m !! j;
}.

Lemma evolves_refl m owned : evolves m m owned.
Proof. by split. Qed.

Lemma evolves_trans m m1 m2 owned :
  evolves m m1 owned → evolves m1 m2 owned → evolves m m2 owned.
Proof.
  intros [Hr1 Ha1 Hl1 Hn1 Hc1] [Hr2 Ha2 Hl2 Hn2 Hc2]. split; [congruence|auto|lia| | ].
  - intros j Hj Ho. rewrite Hn2, Hn1; auto with lia.
  - intros j Hj Ho. rewrite Hc2, Hc1; auto with lia.
Qed.

Lemma evolves_weaken m m' owned owned' :
  (∀ j, j ∈ owned → j ∈ owned') → evolves m m' owned → evolves m m' owned'.
Proof. intros Hsub [Hr Ha Hl Hn Hc]. split; auto. Qed.

(** Nodes that are not owned keep what they hold. *)
Lemma evolves_frame m m' owned a :
  evolves m m' owned → root a ∉ owned → node_ok m a → node_ok m' a.
Proof.
  intros Hev Ho [Hs (o & Hc & Hr)]. assert (root a < length (nodes m)) by by eapply lookup_lt_Some.
  split.
  - unfold stored. by rewrite (evolves_nodes _ _ _ Hev).
  - exists o. split; [|done]. by rewrite (evolves_cells _ _ _ Hev).
Qed.

Lemma represents_root m a : represents m a → node_ok m a.
Proof. intros [Hall _]. by inversion Hall. Qed.

Lemma represents_lt m a j : represents m a → j ∈ ids a → j < length (nodes m).
Proof.
  intros [Hall _] (x & -> & Hx)%list_elem_of_fmap. rewrite Forall_forall in Hall.
  destruct (Hall x Hx) as [Hs _]. by eapply lookup_lt_Some.
Qed.

Lemma represents_part m a c rest :
  below a ≡ₚ subtries c ++ rest → represents m a →
  represents m c ∧ Forall (node_ok m) rest ∧
  NoDup (root a :: ids c ++ (root <$> rest)).
Proof.
  intros Hp [Hall Hnd]. unfold ids, subtries in Hall, Hnd. cbn in Hnd. rewrite Hp in Hall, Hnd.
  apply Forall_cons in Hall as [_ Hall]. apply Forall_app in Hall as [Hc Hrest].
  rewrite fmap_app in Hnd. split_and!; [split; [done|]|done|done].
  apply NoDup_cons in Hnd as [_ Hnd]. by apply NoDup_app in Hnd as (? & _ & _).
Qed.

Lemma represents_child m i cs j c :
  cs !! j = Some (Some c) → represents m (ABranch i cs) → represents m c.
Proof. intros Hj Hr. by eapply represents_part in Hr as (? & _); [|by apply below_branch_some]. Qed.

Lemma represents_extension m i p c : represents m (AExtension i p c) → represents m c.
Proof.
  intros Hr. eapply (represents_part _ _ c []) in Hr as (? & _); [done|]. by rewrite app_nil_r.
Qed.

Lemma size_le_nodes m a : represents m a → length (subtries a) ≤ length (nodes m).
Proof.
  intros Hr. assert (ids a ⊆+ seq 0 (length (nodes m))) as Hsub.
  { apply NoDup_submseteq; [apply Hr|]. intros j Hj. apply elem_of_seq.
    split; [lia|]. by eapply represents_lt. }
  apply submseteq_length in Hsub. unfold ids in Hsub. by rewrite length_fmap, length_seq in Hsub.
Qed.

(** Enough fuel: a tree is not higher than the arena has nodes. *)
Lemma height_le_fuel m a : represents m a → height (erase a) ≤ mpt_fuel m.
Proof.
  intros Hr. pose proof (height_le_size a). apply size_le_nodes in Hr.
  unfold mpt_fuel, num_nodes. lia.
Qed.

(** ** Steps of the arena *)

Lemma node_at_ok m id d : nodes m !! id = Some d → node_at id m = (Ok d, m).
Proof. intros Hd. unfold node_at. exec. unfold lift. by rewrite (index_ok _ _ _ Hd). Qed.

(** A node is replaced and its cached reference dropped. *)
Definition rewrite_node (id : NodeId) (d : NodeData) (m : Mpt) : Mpt :=
  mkMpt (root_id m) (<[id := d]> (nodes m)) (<[id := new_cell None]> (cached_references m))
    (rlp_scratch m).

(** Nodes are added at the end. *)
Definition grow (extra : list NodeData) (m : Mpt) : Mpt :=
  mkMpt (root_id m) (nodes m ++ extra)
    (cached_references m ++ replicate (length extra) (new_cell None)) (rlp_scratch m).

Lemma grow_nil m : grow [] m = m.
Proof. destruct m. unfold grow. cbn. by rewrite !app_nil_r. Qed.

Lemma add_node_grow m extra d :
  (N.of_nat (length (nodes m) + length extra) < u32_modulus)%N →
  add_node d None (grow extra m) = (Ok (length (nodes m) + length extra), grow (extra ++ [d]) m).
Proof.
  intros Hlt. unfold add_node. exec. unfold grow. cbn [nodes cached_references root_id rlp_scratch].
  rewrite length_app, as_u32_small by done.
  rewrite length_app, replicate_add, <-!app_assoc. done.
Qed.

Lemma write_node_ok m id d :
  id < length (nodes m) → write_node id d m = (Ok (), set_nodes (<[id := d]> (nodes m)) m).
Proof. intros Hlt. unfold write_node. exec. by rewrite store_ok. Qed.

Lemma invalidate_ok m id c :
  cached_references m !! id = Some c → cell_borrowed c = false →
  invalidate_ref_cache id m =
  (Ok (), set_cached_references (<[id := new_cell None]> (cached_references m)) m).
Proof.
  intros Hc Hb. unfold invalidate_ref_cache, cell_at, write_cell. exec.
  rewrite (index_ok _ _ _ Hc). exec. rewrite Hb. exec.
  by rewrite store_ok by (by eapply lookup_lt_Some).
Qed.

(** The end of every update: the node is written, then its cache dropped. *)
Lemma write_invalidate m id d c :
  cached_references m !! id = Some c → cell_borrowed c = false → id < length (nodes m) →
  (write_node id d ≫= λ _, mret true ≫= λ updated : bool,
     if updated then invalidate_ref_cache id;; mret true else mret false) m
  = (Ok true, rewrite_node id d m).
Proof.
  intros Hc Hb Hlt. erewrite machine_bind_ok by (by apply write_node_ok). exec.
  by erewrite machine_bind_ok by (by eapply invalidate_ok).
Qed.

Lemma rewrite_node_id m id d :
  nodes m !! id = Some d →
  rewrite_node id d m =
  set_cached_references (<[id := new_cell None]> (cached_references m)) m.
Proof. intros Hd. unfold rewrite_node. by rewrite list_insert_id. Qed.

Lemma evolves_rewrite m id d : evolves m (rewrite_node id d m) [id].
Proof.
  split; cbn; [done| |by rewrite length_insert| | ].
  - intros [Hl Hs]. split; cbn; [by rewrite !length_insert|done].
  - intros j _ Hj. rewrite list_lookup_insert_ne; [done|set_solver].
  - intros j _ Hj. rewrite list_lookup_insert_ne; [done|set_solver].
Qed.

Lemma evolves_grow m extra : at_rest m → evolves m (grow extra m) [].
Proof.
  intros [Hrest Hs]. split; cbn; [done| |rewrite length_app; lia| | ].
  - intros _. split; cbn; [by rewrite !length_app, length_replicate, Hrest|done].
  - intros j Hj _. by rewrite lookup_app_l.
  - intros j Hj _. rewrite lookup_app_l; [done|lia].
Qed.

(** ** Updates of the represented tree *)

(** [m'] holds [a'] where [m] held [a], and differs from [m] only there. *)
Record updated (m m' : Mpt) (a a' : atrie) : Prop := {
  updated_represents : represents m' a';
  updated_root : root a' = root a;
  updated_evolves : evolves m m' (ids a);
  updated_fresh j : j ∈ ids a' → j ∈ ids a ∨ length (nodes m) ≤ j;
}.

Lemma updated_rewrite m m1 a a' owned :
  represents m a → root a' = root a →
  evolves m m1 owned → (∀ j, j ∈ owned → j ∈ root <$> below a) →
  Forall (node_ok m1) (below a') → NoDup (root <$> below a') →
  (∀ j, j ∈ root <$> below a' → j ∈ root <$> below a ∨ length (nodes m) ≤ j) →
  updated m (rewrite_node (root a) (data a') m1) a a'.
Proof.
  intros Hr Hroot Hev Howned Hbelow Hnd Hfresh.
  assert (root a ∉ root <$> below a) as Hra by (destruct Hr as [_ Hnd']; by inversion Hnd').
  assert (root a < length (nodes m)) as Hlt by (eapply represents_lt; [done|by left]).
  assert (root a ∉ root <$> below a') as Hra'.
  { intros Hin. destruct (Hfresh _ Hin); [done|lia]. }
  pose proof (represents_root _ _ Hr) as [_ (o & Hcell & _)].
  rewrite <-(evolves_cells _ _ _ Hev) in Hcell by (done || auto).
  pose proof (evolves_length _ _ _ Hev) as Hlen.
  split.
  - split.
    + constructor.
      * split; [|exists None; split; [|done]].
        -- unfold stored. cbn. rewrite Hroot. apply list_lookup_insert_eq. lia.
        -- cbn. rewrite Hroot. apply list_lookup_insert_eq. by eapply lookup_lt_Some.
      * rewrite Forall_forall in Hbelow |- *. intros x Hx.
        eapply evolves_frame; [apply evolves_rewrite| |by apply Hbelow].
        intros Hin%list_elem_of_singleton. apply Hra'. rewrite <-Hin.
        by apply list_elem_of_fmap_2.
    + cbn. rewrite Hroot. by constructor.
  - done.
  - eapply evolves_trans; [eapply evolves_weaken; [|done]|].
    + intros j Hj. right. by apply Howned.
    + eapply evolves_weaken; [|apply evolves_rewrite]. intros j ->%list_elem_of_singleton. by left.
  - intros j Hj. unfold ids in *. cbn in *. rewrite Hroot in Hj.
    apply elem_of_cons in Hj as [->|Hj]; [left; by left|].
    destruct (Hfresh _ Hj); [left; by right|by right].
Qed.

(** After an update of the child [c], it and its siblings are all in place. *)
Lemma updated_parts m m1 a c c' rest :
  represents m a → below a ≡ₚ subtries c ++ rest → updated m m1 c c' →
  Forall (node_ok m1) (subtries c' ++ rest) ∧ NoDup (root <$> subtries c' ++ rest) ∧
  (∀ j, j ∈ root <$> subtries c' ++ rest → j ∈ root <$> below a ∨ length (nodes m) ≤ j).
Proof.
  intros Hr Hbelow [Hc' Hroot Hev Hfresh].
  destruct (represents_part _ _ _ _ Hbelow Hr) as (Hc & Hrest & Hnd).
  apply NoDup_cons in Hnd as [_ Hnd]. apply NoDup_app in Hnd as (_ & Hdis & Hnd).
  assert (∀ j, j ∈ root <$> rest → j < length (nodes m)) as Hrestlt.
  { intros j Hj. eapply represents_lt; [exact Hr|]. unfold ids, subtries. cbn.
    rewrite Hbelow, fmap_app. right. set_solver. }
  split_and!.
  - apply Forall_app. split; [apply Hc'|]. rewrite Forall_forall in Hrest |- *. intros x Hx.
    eapply evolves_frame; [done| |by apply Hrest]. intros Hin.
    apply (Hdis _ Hin). by apply list_elem_of_fmap_2.
  - rewrite fmap_app. apply NoDup_app. split_and!; [apply Hc'| |done].
    intros j Hj Hin. destruct (Hfresh _ Hj) as [Hin'|Hge]; [by apply (Hdis j)|].
    apply Hrestlt in Hin. lia.
  - intros j Hin. rewrite fmap_app, elem_of_app in Hin. rewrite Hbelow, fmap_app.
    destruct Hin as [Hin|Hin]; [|set_solver].
    destruct (Hfresh _ Hin); [left; unfold ids in *; set_solver|by right].
Qed.

(** One child was updated, and the node above it follows. *)
Lemma updated_parent m m1 a c c' rest a' dropped :
  represents m a → below a ≡ₚ subtries c ++ rest → updated m m1 c c' →
  root a' = root a → subtries c' ++ rest ≡ₚ dropped ++ below a' →
  updated m (rewrite_node (root a) (data a') m1) a a'.
Proof.
  intros Hr Hbelow Hu Hroot' Hbelow'.
  destruct (updated_parts _ _ _ _ _ _ Hr Hbelow Hu) as (Hall & Hnd & Hfresh).
  rewrite Hbelow' in Hall, Hnd. setoid_rewrite Hbelow' in Hfresh.
  rewrite fmap_app in Hnd. setoid_rewrite fmap_app in Hfresh.
  apply Forall_app in Hall as [_ Hall]. apply NoDup_app in Hnd as (_ & _ & Hnd).
  eapply updated_rewrite; [done|done|by apply Hu| |done|done|].
  - intros j Hj. rewrite Hbelow, fmap_app. set_solver.
  - intros j Hj. apply Hfresh. set_solver.
Qed.

(** The node was rewritten over new nodes and the ones it keeps. *)
Lemma updated_grow m extra a a' dropped kept fresh :
  represents m a → at_rest m → root a' = root a →
  below a ≡ₚ dropped ++ kept → below a' ≡ₚ fresh ++ kept →
  root <$> fresh ≡ₚ seq (length (nodes m)) (length extra) →
  Forall (λ x, extra !! (root x - length (nodes m)) = Some (data x)) fresh →
  updated m (rewrite_node (root a) (data a') (grow extra m)) a a'.
Proof.
  intros Hr Hrest Hroot Hbelow Hbelow' Hids Hdata.
  destruct Hr as [Hall Hnd] eqn:Hreq. clear Hreq.
  assert (represents m a) as Hr' by done.
  unfold ids, subtries in Hnd. cbn in Hnd. rewrite Hbelow in Hnd.
  apply Forall_cons in Hall as [_ Hall]. rewrite Hbelow in Hall.
  rewrite fmap_app in Hnd. apply NoDup_cons in Hnd as [_ Hnd].
  apply NoDup_app in Hnd as (_ & _ & Hnd). apply Forall_app in Hall as [_ Hkept].
  assert (∀ j, j ∈ root <$> kept → j < length (nodes m)) as Hlt.
  { intros j Hj. eapply represents_lt; [exact Hr'|]. unfold ids, subtries. cbn.
    rewrite Hbelow, fmap_app. right. set_solver. }
  assert (∀ j, j ∈ root <$> fresh → length (nodes m) ≤ j < length (nodes m) + length extra) as Hge.
  { intros j Hj. rewrite Hids in Hj. by apply elem_of_seq in Hj. }
  eapply updated_rewrite; [done..|by eapply evolves_grow| | | |].
  - intros j Hj. by apply elem_of_nil in Hj.
  - rewrite Hbelow'. apply Forall_app. split.
    + rewrite Forall_forall in Hdata |- *. intros x Hx.
      assert (length (nodes m) ≤ root x < length (nodes m) + length extra) as Hx'.
      { apply Hge. by apply list_elem_of_fmap_2. }
      split.
      * unfold stored. cbn. rewrite lookup_app_r by lia. by apply Hdata.
      * exists None. split; [|done]. cbn. destruct Hrest as [Hrest _].
        rewrite lookup_app_r by lia. apply lookup_replicate_2. lia.
    + rewrite Forall_forall in Hkept |- *. intros x Hx.
      eapply evolves_frame; [by eapply evolves_grow|apply not_elem_of_nil|by apply Hkept].
  - rewrite Hbelow', fmap_app. apply NoDup_app. split_and!; [rewrite Hids; apply NoDup_seq| |done].
    intros j Hj Hin. apply Hlt in Hin. apply Hge in Hj. lia.
  - intros j. rewrite Hbelow', Hbelow, !fmap_app, !elem_of_app. intros [Hj|Hj].
    + right. apply Hge in Hj. lia.
    + left. by right.
Qed.

(** ** Lookup *)

Lemma get_refines a m fuel key :
  represents m a → height (erase a) ≤ fuel →
  get_internal fuel m (root a) key = trie_get (erase a) key.
Proof.
  intros Hr. revert fuel key. induction a as [i|i d|i p v|i p c IH|i cs IH] using atrie_nested_ind;
    intros fuel key Hf; destruct fuel as [|fuel]; try (by pose proof (height_pos (erase c)); cbn in Hf; lia);
    try (cbn in Hf; lia);
    pose proof (represents_root _ _ Hr) as [Hs _]; cbn [get_internal]; rewrite (index_ok _ _ _ Hs); exec;
    cbn [data].
  - done.
  - done.
  - rewrite encoded_path_eq_nibs_spec. exec. cbn. case_bool_decide; by case_decide.
  - rewrite encoded_path_strip_prefix_spec. exec. cbn.
    destruct (strip_prefix _ key) as [tail|]; [|done].
    apply IH; [by eapply represents_extension|cbn in Hf; lia].
  - destruct key as [|j tail]; [done|]. rewrite erase_branch, trie_get_branch, list_lookup_fmap.
    unfold index. rewrite list_lookup_fmap.
    destruct (cs !! N.to_nat j) as [[c|]|] eqn:Hj; cbn [fmap option_fmap option_map]; exec; [|done..].
    apply (IH _ _ Hj); [by eapply represents_child|].
    rewrite erase_branch in Hf.
    pose proof (height_child (option_map erase <$> cs) (N.to_nat j) (erase c)) as Hh.
    rewrite list_lookup_fmap, Hj in Hh. specialize (Hh eq_refl). lia.
Qed.

(** ** Insertion *)

Lemma two_way_fmap {A B} (f : A → B) a x b y :
  option_map f <$> two_way a x b y = two_way a (f x) b (f y).
Proof. unfold two_way. by rewrite !list_fmap_insert, fmap_replicate. Qed.

(** [fork], with [branch_id] for the branch when it is a new node. *)
Definition afork (i : NodeId) (shared : bytes) (a : u8) (x : atrie) (b : u8) (y : atrie)
  (branch_id : NodeId) : atrie :=
  match shared with
  | [] => ABranch i (two_way a x b y)
  | _ => AExtension i (hp_encode shared false) (ABranch branch_id (two_way a x b y))
  end.

(** The nodes [place_branch] adds. *)
Definition fork_extra (shared : bytes) (children : list (option NodeId)) : list NodeData :=
  match shared with [] => [] | _ => [Branch children] end.

Lemma erase_afork i shared a x b y branch_id :
  erase (afork i shared a x b y branch_id) = fork shared a (erase x) b (erase y).
Proof.
  unfold afork, fork, extension. rewrite <-two_way_fmap.
  destruct shared; cbn [erase]; by rewrite ?erase_branch.
Qed.

Lemma place_branch_ok m extra i shared rest a x b y :
  (N.of_nat (length (nodes m) + length extra) < u32_modulus)%N →
  place_branch (two_way a (root x) b (root y)) (shared ++ rest) (length shared) (grow extra m) =
  (Ok (data (afork i shared a x b y (length (nodes m) + length extra))),
   grow (extra ++ fork_extra shared (two_way a (root x) b (root y))) m).
Proof.
  intros Hcap. unfold place_branch, afork, fork_extra. destruct shared as [|s shared].
  - rewrite decide_False by (cbn; lia). cbn [data]. by rewrite two_way_fmap, app_nil_r.
  - rewrite decide_True by (cbn; lia).
    erewrite machine_bind_ok by (by apply add_node_grow).
    rewrite slice_to_ok by (rewrite length_app; lia). exec.
    by rewrite take_app_length, to_encoded_path_with_bump_spec.
Qed.

Lemma updated_fork m extra o shared a x b y dropped kept fresh :
  represents m o → at_rest m → is_nibble a → is_nibble b → a ≠ b →
  below o ≡ₚ dropped ++ kept → subtries y ++ subtries x ≡ₚ fresh ++ kept →
  root <$> fresh ≡ₚ seq (length (nodes m)) (length extra) →
  Forall (λ z, extra !! (root z - length (nodes m)) = Some (data z)) fresh →
  let a' := afork (root o) shared a x b y (length (nodes m) + length extra) in
  updated m (rewrite_node (root o) (data a')
    (grow (extra ++ fork_extra shared (two_way a (root x) b (root y))) m)) o a'.
Proof.
  intros Hr Hrest Ha Hb Hne Hbelow Hxy Hids Hdata. cbv zeta. unfold afork, fork_extra.
  destruct shared as [|s shared].
  - rewrite app_nil_r. eapply updated_grow; [done..| |done|done].
    by rewrite below_two_way.
  - eapply (updated_grow m _ o _ dropped kept
      (ABranch (length (nodes m) + length extra) (two_way a x b y) :: fresh)); [done..| | |].
    + set (branch := ABranch _ _). change (branch :: below branch ≡ₚ branch :: fresh ++ kept).
      apply Permutation_skip. unfold branch. by rewrite below_two_way.
    + cbn [fmap list_fmap root]. rewrite length_app, seq_app, Hids. cbn.
      apply Permutation_cons_append.
    + constructor.
      * cbn [root data]. rewrite lookup_app_r by lia. rewrite two_way_fmap.
        by replace (length (nodes m) + length extra - length (nodes m) - length extra) with 0 by lia.
      * rewrite Forall_forall in Hdata |- *. intros z Hz. by apply lookup_app_l_Some, Hdata.
Qed.

Lemma insert_fork m extra o shared rest a x b y dropped kept fresh :
  represents m o → at_rest m → is_nibble a → is_nibble b → a ≠ b →
  below o ≡ₚ dropped ++ kept → subtries y ++ subtries x ≡ₚ fresh ++ kept →
  root <$> fresh ≡ₚ seq (length (nodes m)) (length extra) →
  Forall (λ z, extra !! (root z - length (nodes m)) = Some (data z)) fresh →
  (N.of_nat (length (nodes m)) + 3 < u32_modulus)%N → length extra ≤ 2 →
  ∃ m' a',
    (place_branch (two_way a (root x) b (root y)) (shared ++ rest) (length shared) ≫= λ d,
     (write_node (root o) d ≫= λ _, mret true) ≫= λ updated : bool,
     if updated then invalidate_ref_cache (root o) ≫= λ _, mret true else mret false)
      (grow extra m) = (Ok true, m') ∧
    erase a' = fork shared a (erase x) b (erase y) ∧
    updated m m' o a' ∧ length (nodes m') ≤ length (nodes m) + 3.
Proof.
  intros Hr Hrest Ha Hb Hne Hbelow Hxy Hids Hdata Hcap Hextra.
  erewrite machine_bind_ok by (apply (place_branch_ok _ _ (root o)); lia). exec.
  set (children := two_way a (root x) b (root y)).
  pose proof (evolves_grow m (extra ++ fork_extra shared children) Hrest) as Hev.
  pose proof (represents_root _ _ Hr) as Hok.
  assert (root o < length (nodes m)) as Hlt by (destruct Hok; by eapply lookup_lt_Some).
  eapply evolves_frame in Hok as [_ (r & Hcell & _)]; [|done|apply not_elem_of_nil].
  erewrite write_invalidate; [|done..|].
  - do 2 eexists. split_and!; [done|by apply erase_afork|by eapply updated_fork|].
    cbn. rewrite length_insert, !length_app. unfold fork_extra. destruct shared; cbn; lia.
  - cbn. rewrite length_app. lia.
Qed.

(** A child was updated under the same index: only the cache is dropped. *)
Lemma invalidate_parent m m1 a c c' rest a' :
  represents m a → below a ≡ₚ subtries c ++ rest → updated m m1 c c' →
  root a' = root a → data a' = data a → subtries c' ++ rest ≡ₚ below a' →
  (invalidate_ref_cache (root a) ≫= λ _, mret true) m1 =
    (Ok true, rewrite_node (root a) (data a') m1) ∧
  updated m (rewrite_node (root a) (data a') m1) a a'.
Proof.
  intros Hr Hbelow Hu Hroot Hdata Hbelow'. split; [|by eapply (updated_parent _ _ _ _ _ _ _ [])].
  destruct (represents_part _ _ _ _ Hbelow Hr) as (_ & _ & Hnd).
  apply NoDup_cons in Hnd as [Hnin _].
  pose proof (represents_root _ _ Hr) as Hok.
  eapply evolves_frame in Hok as [Hs (o & Hcell & _)]; [|by apply Hu|set_solver].
  erewrite machine_bind_ok by (by eapply invalidate_ok).
  rewrite Hdata. by rewrite rewrite_node_id.
Qed.

Lemma insert_refines a m fuel key value :
  represents m a → at_rest m → well_formed (erase a) → height (erase a) ≤ fuel → nibbles key →
  (N.of_nat (length (nodes m)) + 3 < u32_modulus)%N →
  match trie_insert (erase a) key value with
  | Ok None => insert_internal fuel (root a) key value m = (Ok false, m)
  | Ok (Some t') =>
      ∃ m' a', insert_internal fuel (root a) key value m = (Ok true, m') ∧
        erase a' = t' ∧ updated m m' a a' ∧ length (nodes m') ≤ length (nodes m) + 3
  | Err e => insert_internal fuel (root a) key value m = (Err e, m)
  | _ => False
  end.
Proof.
  intros Hr Hrest Hwf Hf Hk Hcap. revert fuel key Hf Hk.
  induction a as [i|i d|i p v|i p c IH|i cs IH] using atrie_nested_ind;
    intros fuel key Hf Hk; destruct fuel as [|fuel]; try (cbn in Hf; lia);
    pose proof (represents_root _ _ Hr) as [Hs (o & Hcell & _)]; cbn [insert_internal];
    erewrite machine_bind_ok by (by apply node_at_ok); cbn [data].
  - rewrite to_encoded_path_with_bump_spec. exec.
    erewrite write_invalidate; [|done..|by eapply lookup_lt_Some]. cbn.
    pose proof (updated_grow m [] (ANull i) (ALeaf i (hp_encode key true) value) [] [] []
      Hr Hrest) as Hu. rewrite grow_nil in Hu.
    do 2 eexists. split_and!; [done| |by apply Hu|cbn; rewrite length_insert; lia]. done.
  - cbn. inversion Hwf; subst. rewrite from_slice_ok by done. by exec.
  - cbn [erase trie_insert]. split_common (prefix_to_nibs p) key.
    inversion Hwf as [| |? ? Hpath| |]; subst.
    pose proof (prefix_to_nibs_nibbles _ Hpath) as Hn. rewrite Hnibs in *.
    cbv zeta. rewrite Hlen, !length_app. destruct a as [|x a], b as [|y b]; cbn [length].
    + destruct (decide (v = value)); rewrite decide_True by lia; [by exec|]. exec.
      erewrite write_invalidate; [|done..|by eapply lookup_lt_Some].
      pose proof (updated_grow m [] (ALeaf i p v) (ALeaf i p value) [] [] []
        Hr Hrest) as Hu. rewrite grow_nil in Hu.
      do 2 eexists. split_and!; [done| |by apply Hu|cbn; rewrite length_insert; lia]. done.
    + rewrite decide_False, decide_True by lia. done.
    + rewrite decide_False, decide_True by lia. done.
    + rewrite decide_False, decide_False by lia. split_nibbles.
      assert (x ≠ y) as Hxy by (intros ->; by eapply Hhead).
      pose proof (add_node_grow m [] (Leaf (hp_encode a true) v)) as Hadd1.
      pose proof (add_node_grow m [Leaf (hp_encode a true) v] (Leaf (hp_encode b true) value)) as Hadd2.
      rewrite grow_nil in Hadd1. cbn [length app] in Hadd1, Hadd2. rewrite Nat.add_0_r in Hadd1.
      rewrite !slice_after, !index_after. exec. rewrite to_encoded_path_with_bump_spec. exec.
      erewrite machine_bind_ok by (apply Hadd1; lia). exec.
      rewrite to_encoded_path_with_bump_spec. exec.
      erewrite machine_bind_ok by (apply Hadd2; lia). exec.
      rewrite store_ok by (unfold is_nibble in *; cbn; lia). exec.
      rewrite store_ok by (unfold is_nibble in *; rewrite length_insert; cbn; lia). exec.
      apply (insert_fork m _ (ALeaf i p v) p0 (x :: a) x (ALeaf (length (nodes m)) (hp_encode a true) v)
        y (ALeaf (length (nodes m) + 1) (hp_encode b true) value) [] []
        [ALeaf (length (nodes m) + 1) (hp_encode b true) value;
         ALeaf (length (nodes m)) (hp_encode a true) v]); try done.
      * cbn. rewrite Nat.add_1_r. constructor.
      * repeat constructor; cbn [root]; [|by rewrite Nat.sub_diag].
        by replace (length (nodes m) + 1 - length (nodes m)) with 1 by lia.
  - cbn [erase trie_insert]. split_common (prefix_to_nibs p) key.
    inversion Hwf as [| | |? ? Hpath Hwc|]; subst.
    pose proof (prefix_to_nibs_nibbles _ Hpath) as Hn. rewrite Hnibs in Hn. split_nibbles.
    cbv zeta. rewrite Hlen, Hnibs, !length_app. destruct a as [|x a]; cbn [length].
    + rewrite decide_True by lia. rewrite slice_suffix. exec.
      assert (represents m c) as Hrc by by eapply represents_extension.
      specialize (IH Hrc Hwc fuel b ltac:(cbn in Hf; lia) ltac:(done)).
      destruct (trie_insert (erase c) b value) as [[t'|]|e| |]; cbn [fmap outcome_fmap option_map];
        try done.
      * destruct IH as (m1 & c' & Hins & He & Hu & Hl). erewrite machine_bind_ok by done. cbn beta iota.
        destruct (invalidate_parent m m1 (AExtension i p c) c c' [] (AExtension i p c')) as [-> Hu'];
          [done|by rewrite app_nil_r|done|done| |by rewrite app_nil_r|].
        -- cbn. by rewrite (updated_root _ _ _ _ Hu).
        -- eexists _, (AExtension i p c'). split_and!; [done|cbn; by rewrite He|done|].
           cbn. by rewrite length_insert.
      * erewrite machine_bind_ok by done. done.
      * by erewrite machine_bind_err by done.
    + rewrite decide_False by lia.  destruct b as [|y b]; cbn [length]; [by rewrite decide_True by lia|].
      rewrite decide_False by lia. split_nibbles.
      assert (x ≠ y) as Hxy by (intros ->; by eapply Hhead).
      rewrite !slice_after, !index_after. exec.
      destruct a as [|z a]; cbn [length].
      * rewrite decide_False by lia. exec.
        pose proof (add_node_grow m [] (Leaf (hp_encode b true) value)) as Hadd.
        rewrite grow_nil in Hadd. cbn [length app] in Hadd. rewrite Nat.add_0_r in Hadd.
        rewrite store_ok by (unfold is_nibble in *; cbn; lia). exec.
        rewrite to_encoded_path_with_bump_spec. exec.
        erewrite machine_bind_ok by (apply Hadd; lia). exec.
        rewrite store_ok by (unfold is_nibble in *; rewrite length_insert; cbn; lia). exec.
        apply (insert_fork m [Leaf (hp_encode b true) value] (AExtension i p c) p0 [x] x c
          y (ALeaf (length (nodes m)) (hp_encode b true) value) [] (subtries c)
          [ALeaf (length (nodes m)) (hp_encode b true) value]); try done; [|cbn; lia].
        repeat constructor; cbn [root]. by rewrite Nat.sub_diag.
      * rewrite decide_True by lia.
        pose proof (add_node_grow m [] (Extension (hp_encode (z :: a) false) (root c))) as Hadd1.
        pose proof (add_node_grow m [Extension (hp_encode (z :: a) false) (root c)]
          (Leaf (hp_encode b true) value)) as Hadd2.
        rewrite grow_nil in Hadd1. cbn [length app] in Hadd1, Hadd2. rewrite Nat.add_0_r in Hadd1.
        exec. rewrite to_encoded_path_with_bump_spec. exec.
        erewrite machine_bind_ok by (apply Hadd1; lia). exec.
        rewrite store_ok by (unfold is_nibble in *; cbn; lia). exec.
        rewrite to_encoded_path_with_bump_spec. exec.
        erewrite machine_bind_ok by (apply Hadd2; lia). exec.
        rewrite store_ok by (unfold is_nibble in *; rewrite length_insert; cbn; lia). exec.
        apply (insert_fork m _ (AExtension i p c) p0 (x :: z :: a) x
          (AExtension (length (nodes m)) (hp_encode (z :: a) false) c)
          y (ALeaf (length (nodes m) + 1) (hp_encode b true) value) [] (subtries c)
          [ALeaf (length (nodes m) + 1) (hp_encode b true) value;
           AExtension (length (nodes m)) (hp_encode (z :: a) false) c]); try done.
        -- cbn. rewrite Nat.add_1_r. constructor.
        -- repeat constructor; cbn [root]; [|by rewrite Nat.sub_diag].
           by replace (length (nodes m) + 1 - length (nodes m)) with 1 by lia.
  - destruct key as [|j tail]; [done|]. split_nibbles. rewrite erase_branch in *.
    inversion Hwf as [| | | |? Hlen Hwcs]; subst. rewrite length_fmap in Hlen.
    rewrite trie_insert_branch, list_lookup_fmap.
    assert (N.to_nat j < 16) as Hj16 by (unfold is_nibble in *; lia).
    destruct (lookup_lt_is_Some_2 cs (N.to_nat j)) as [r Hj]; [lia|].
    rewrite (index_ok _ _ (option_map root r)) by (by rewrite list_lookup_fmap, Hj). exec.
    rewrite Hj. destruct r as [c|]; cbn [fmap option_fmap option_map].
    + assert (represents m c) as Hrc by by eapply represents_child.
      assert (well_formed (erase c)) as Hwc.
      { eapply (Hwcs (N.to_nat j)). by rewrite list_lookup_fmap, Hj. }
      pose proof (height_child (option_map erase <$> cs) (N.to_nat j) (erase c)
        ltac:(by rewrite list_lookup_fmap, Hj)) as Hh.
      specialize (IH _ _ Hj Hrc Hwc fuel tail ltac:(lia) ltac:(done)).
      destruct (trie_insert (erase c) tail value) as [[t'|]|e| |]; cbn [fmap outcome_fmap option_map];
        try done.
      * destruct IH as (m1 & c' & Hins & He & Hu & Hl). erewrite machine_bind_ok by done. cbn beta iota.
        destruct (invalidate_parent m m1 (ABranch i cs) c c' (below (ABranch i (<[N.to_nat j := None]> cs)))
          (ABranch i (<[N.to_nat j := Some c']> cs))) as [-> Hu'];
          [done|by apply below_branch_some|done|done| |symmetry; by eapply below_branch_update|].
        -- cbn. rewrite list_fmap_insert. cbn. rewrite (updated_root _ _ _ _ Hu).
           f_equal. apply list_insert_id. by rewrite list_lookup_fmap, Hj.
        -- eexists _, (ABranch i (<[N.to_nat j := Some c']> cs)).
           split_and!; [done| |done|cbn; by rewrite length_insert].
           rewrite erase_branch, list_fmap_insert. cbn. by rewrite He.
      * erewrite machine_bind_ok by done. done.
      * by erewrite machine_bind_err by done.
    + rewrite to_encoded_path_with_bump_spec. exec.
      pose proof (add_node_grow m [] (Leaf (hp_encode tail true) value)) as Hadd.
      rewrite grow_nil in Hadd. cbn [length app] in Hadd. rewrite Nat.add_0_r in Hadd.
      erewrite machine_bind_ok by (apply Hadd; lia). exec.
      rewrite store_ok by (rewrite length_fmap; lia). exec.
      pose proof (evolves_grow m [Leaf (hp_encode tail true) value] Hrest) as Hev.
      pose proof (represents_root _ _ Hr) as Hok.
      eapply evolves_frame in Hok as [Hs' (q & Hcell' & _)]; [|done|apply not_elem_of_nil].
      erewrite write_invalidate; [|done..|by eapply lookup_lt_Some].
      pose proof (updated_grow m [Leaf (hp_encode tail true) value] (ABranch i cs)
        (ABranch i (<[N.to_nat j := Some (ALeaf (length (nodes m)) (hp_encode tail true) value)]> cs))
        [] (below (ABranch i cs)) [ALeaf (length (nodes m)) (hp_encode tail true) value] Hr Hrest)
        as Hu.
      cbn [data] in Hu. rewrite list_fmap_insert in Hu. cbn [option_map root] in Hu.
      eexists _, (ABranch i (<[N.to_nat j := _]> cs)). split_and!; [done| |apply Hu|]; try done.
      * by rewrite erase_branch, list_fmap_insert.
      * by apply below_branch_none.
      * repeat constructor. cbn [root]. by rewrite Nat.sub_diag.
      * cbn. rewrite length_insert, length_app. cbn. lia.
Qed.

(** ** Deletion *)

(** A child was updated: the node above is written and its cache dropped. *)
Lemma write_parent m m1 a c c' rest a' dropped :
  represents m a → below a ≡ₚ subtries c ++ rest → updated m m1 c c' →
  root a' = root a → subtries c' ++ rest ≡ₚ dropped ++ below a' →
  (write_node (root a) (data a') ≫= λ _, mret true ≫= λ updated : bool,
     if updated then invalidate_ref_cache (root a) ≫= λ _, mret true else mret false) m1 =
    (Ok true, rewrite_node (root a) (data a') m1) ∧
  updated m (rewrite_node (root a) (data a') m1) a a'.
Proof.
  intros Hr Hbelow Hu Hroot Hbelow'. split; [|by eapply updated_parent].
  destruct (represents_part _ _ _ _ Hbelow Hr) as (_ & _ & Hnd).
  apply NoDup_cons in Hnd as [Hnin _].
  pose proof (represents_root _ _ Hr) as Hok.
  eapply evolves_frame in Hok as [Hs (o & Hcell & _)]; [|by apply Hu|set_solver].
  eapply write_invalidate; [done..|by eapply lookup_lt_Some].
Qed.

Lemma remaining_fmap {A B} (f : A → B) cs :
  remaining_children (option_map f <$> cs) = prod_map id f <$> remaining_children cs.
Proof.
  induction cs as [|o cs IH]; [done|]. cbn [fmap list_fmap].
  rewrite !remaining_children_cons, IH, fmap_app, <-!list_fmap_compose.
  destruct o; cbn; [f_equal|]; apply list_fmap_ext; by intros ? [].
Qed.

(** A node that took the place of the child in a slot. *)
Definition aslot (c : atrie) : option atrie :=
  match c with ANull _ => None | _ => Some c end.

Lemma erase_aslot c : option_map erase (aslot c) = slot_of (erase c).
Proof. by destruct c. Qed.

(** What the extension over a child that became [c] turns into. *)
Definition ashrink_extension (i : NodeId) (path : bytes) (c : atrie) : atrie :=
  let nibs := prefix_to_nibs path in
  match c with
  | ANull _ => ANull i
  | ALeaf _ path' value => ALeaf i (hp_encode (nibs ++ prefix_to_nibs path') true) value
  | AExtension _ path' g => AExtension i (hp_encode (nibs ++ prefix_to_nibs path') false) g
  | ABranch _ _ | ADigest _ _ => AExtension i path c
  end.

Lemma collapse_extension_ok m i path c :
  collapse_extension path (root c) (data c) m = (Ok (data (ashrink_extension i path c)), m).
Proof.
  destruct c; unfold collapse_extension, ashrink_extension; cbn [data];
    rewrite ?to_encoded_path_with_bump_spec; done.
Qed.

Lemma erase_ashrink_extension i path c :
  erase (ashrink_extension i path c) = shrink_extension path (erase c).
Proof. by destruct c. Qed.

Lemma below_ashrink_extension i path c :
  ∃ dropped, subtries c ≡ₚ dropped ++ below (ashrink_extension i path c).
Proof.
  destruct c as [k|k d|k p v|k p g|k cs]; cbn.
  - by exists [ANull k].
  - by exists [].
  - by exists [ALeaf k p v].
  - by exists [AExtension k p g].
  - by exists [].
Qed.

(** What a branch whose only child is [c], in slot [k], turns into. *)
Definition acollapse (i k : NodeId) (c : atrie) : option atrie :=
  match c with
  | ANull _ => None
  | ALeaf _ path value => Some (ALeaf i (hp_encode (N.of_nat k :: prefix_to_nibs path) true) value)
  | AExtension _ path g =>
      Some (AExtension i (hp_encode (N.of_nat k :: prefix_to_nibs path) false) g)
  | ABranch _ _ | ADigest _ _ => Some (AExtension i (hp_encode [N.of_nat k] false) c)
  end.

Lemma collapse_branch_ok m i k c :
  collapse_branch k (root c) (data c) m =
  match acollapse i k c with
  | Some a' => (Ok (data a'), m)
  | None => (Panic Unreachable, m)
  end.
Proof.
  destruct c; unfold collapse_branch, acollapse; cbn [data];
    rewrite ?to_encoded_path_with_bump_spec; done.
Qed.

Lemma below_acollapse i k c a' :
  acollapse i k c = Some a' → root a' = i ∧ ∃ dropped, subtries c ≡ₚ dropped ++ below a'.
Proof.
  destruct c as [j|j d|j p v|j p g|j cs]; intros Ha; simplify_eq/=; (split; [done|]).
  - by exists [].
  - by exists [ALeaf j p v].
  - by exists [AExtension j p g].
  - by exists [].
Qed.

Lemma erase_acollapse i k c cs :
  remaining_children cs = [(k, c)] →
  shrink_branch (option_map erase <$> cs) =
  match acollapse i k c with Some a' => Ok (erase a') | None => Panic Unreachable end.
Proof.
  intros Hrem. unfold shrink_branch. rewrite remaining_fmap, Hrem. by destruct c.
Qed.

(** The end of the branch case of [delete_internal], from the updated slots on. *)
Definition shrink_step (i : NodeId) (children : list (option NodeId)) : machine Mpt Error bool :=
  match remaining_children children with
  | [] => panics UnwrapOnNone
  | [(slot1, child_id)] =>
      child_node_data ← node_at child_id;
      new_node_data ← collapse_branch slot1 child_id child_node_data;
      write_node i new_node_data;;
      mret true
  | _ :: _ :: _ => write_node i (Branch children);; mret true
  end.

Definition drop_cache (i : NodeId) (updated : bool) : machine Mpt Error bool :=
  if updated then invalidate_ref_cache i;; mret true else mret false.

Lemma slot_parts i cs j c c' :
  cs !! j = Some (Some c) →
  ∃ dropped, subtries c' ++ below (ABranch i (<[j := None]> cs)) ≡ₚ
    dropped ++ below (ABranch i (<[j := aslot c']> cs)).
Proof.
  intros Hj. pose proof (below_branch_update i cs j c (aslot c') Hj) as Hp.
  destruct c'; [by exists [ANull id]|exists []; by rewrite Hp..].
Qed.

Lemma shrink_step_refines m m1 i cs j c c' :
  represents m (ABranch i cs) → cs !! j = Some (Some c) → updated m m1 c c' →
  let cs' := <[j := aslot c']> cs in
  match shrink_branch (option_map erase <$> cs') with
  | Ok t' =>
      ∃ m' a', (shrink_step i (option_map root <$> cs') ≫= drop_cache i) m1 = (Ok true, m') ∧
        erase a' = t' ∧ updated m m' (ABranch i cs) a' ∧ length (nodes m') = length (nodes m1)
  | Panic p => ∃ m', (shrink_step i (option_map root <$> cs') ≫= drop_cache i) m1 = (Panic p, m')
  | _ => False
  end.
Proof.
  intros Hr Hj Hu. cbv zeta. set (cs' := <[j := aslot c']> cs).
  destruct (slot_parts i cs j c c' Hj) as [dropped Hslot]. fold cs' in Hslot.
  pose proof (below_branch_some i cs j c Hj) as Hbelow.
  destruct (updated_parts _ _ _ _ _ _ Hr Hbelow Hu) as (Hall & _ & _).
  unfold shrink_step. rewrite remaining_fmap.
  destruct (remaining_children cs') as [|[k d] [|q rem]] eqn:Hrem.
  - unfold shrink_branch. rewrite remaining_fmap, Hrem. by eexists.
  - rewrite (erase_acollapse i k d) by done. cbn [fmap list_fmap prod_map].
    apply remaining_single in Hrem as [Hk _].
    pose proof (below_branch_some i cs' k d Hk) as Hbelow'.
    rewrite Hslot, Hbelow' in Hall. apply Forall_app in Hall as [_ Hall].
    apply Forall_cons in Hall as [[Hd _] _]. cbn [fst snd]. exec.
    erewrite machine_bind_ok by (by apply node_at_ok). exec.
    pose proof (collapse_branch_ok m1 i k d) as Hcol.
    destruct (acollapse i k d) as [a'|] eqn:Ha.
    + erewrite machine_bind_ok by done. apply below_acollapse in Ha as [Hroot [dropped' Hd']].
      destruct (write_parent m m1 (ABranch i cs) c c' _ a'
        (dropped ++ dropped' ++ below (ABranch i (<[k := None]> cs'))) Hr Hbelow Hu) as [Hw Hu'].
      { done. }
      { rewrite Hslot, Hbelow', Hd', <-!app_assoc. do 2 apply Permutation_app_head.
        apply Permutation_app_comm. }
      cbn [root] in Hw. exec. do 2 eexists. split_and!; [exact Hw|done|done|].
      cbn. by rewrite length_insert.
    + erewrite machine_bind_panic by done. by eexists.
  - unfold shrink_branch. rewrite remaining_fmap, Hrem. cbn [fmap list_fmap].
    destruct (write_parent m m1 (ABranch i cs) c c' _ (ABranch i cs') dropped Hr Hbelow Hu eq_refl Hslot)
      as [Hw Hu'].
    cbn [root data] in Hw. cbn [prod_map fst snd]. exec. eexists _, (ABranch i cs').
    split_and!; [exact Hw|by rewrite erase_branch|done|]. cbn. by rewrite length_insert.
Qed.

Lemma drop_slot cs j c c' :
  cs !! j = Some (Some c) → root c' = root c →
  (if is_null (data c') then lift (store (option_map root <$> cs) j None)
   else mret (option_map root <$> cs) : machine Mpt Error _) =
  mret (option_map root <$> <[j := aslot c']> cs).
Proof.
  intros Hj Hroot. rewrite list_fmap_insert.
  assert (option_map root (aslot c') = None ∧ is_null (data c') = true ∨
    option_map root (aslot c') = Some (root c) ∧ is_null (data c') = false) as [[-> ->]|[-> ->]].
  { rewrite <-Hroot. destruct c'; naive_solver. }
  - rewrite store_ok; [done|]. rewrite length_fmap. by eapply lookup_lt_Some.
  - rewrite list_insert_id; [done|]. by rewrite list_lookup_fmap, Hj.
Qed.

Lemma delete_refines a m fuel key :
  represents m a → well_formed (erase a) → height (erase a) ≤ fuel → nibbles key →
  match trie_delete (erase a) key with
  | Ok None => delete_internal fuel (root a) key m = (Ok false, m)
  | Ok (Some t') =>
      ∃ m' a', delete_internal fuel (root a) key m = (Ok true, m') ∧
        erase a' = t' ∧ updated m m' a a' ∧ length (nodes m') = length (nodes m)
  | Err e => delete_internal fuel (root a) key m = (Err e, m)
  | Panic p => ∃ m', delete_internal fuel (root a) key m = (Panic p, m')
  | OutOfFuel => False
  end.
Proof.
  intros Hr Hwf Hf Hk. revert fuel key Hf Hk.
  induction a as [i|i d|i p v|i p c IH|i cs IH] using atrie_nested_ind;
    intros fuel key Hf Hk; destruct fuel as [|fuel]; try (cbn in Hf; lia);
    pose proof (represents_root _ _ Hr) as [Hs (o & Hcell & _)]; cbn [delete_internal];
    erewrite machine_bind_ok by (by apply node_at_ok); cbn [data].
  - done.
  - cbn. inversion Hwf; subst. rewrite from_slice_ok by done. by exec.
  - cbn [erase trie_delete]. destruct (decide (prefix_to_nibs p = key)) as [->|Hne].
    + rewrite decide_False by naive_solver. exec.
      erewrite write_invalidate; [|done..|by eapply lookup_lt_Some].
      eexists _, (ANull i). split_and!; [done..| |cbn; by rewrite length_insert].
      eapply (updated_rewrite m m (ALeaf i p v) (ANull i) []); [done..|apply evolves_refl| | | |];
        try constructor; cbn; set_solver.
    + rewrite decide_True by done. done.
  - cbn [erase trie_delete]. inversion Hwf as [| | |? ? Hpath Hwc|]; subst.
    destruct (strip_prefix (prefix_to_nibs p) key) as [tail|] eqn:Hstrip; [|done].
    apply strip_prefix_Some in Hstrip. subst. split_nibbles.
    assert (represents m c) as Hrc by by eapply represents_extension.
    specialize (IH Hrc Hwc fuel tail ltac:(cbn in Hf; lia) ltac:(done)). exec.
    destruct (trie_delete (erase c) tail) as [[t'|]|e|q|]; cbn [fmap outcome_fmap option_map];
      [| | | |done].
    + destruct IH as (m1 & c' & Hdel & He & Hu & Hl). erewrite machine_bind_ok by done.
      cbn [negb]. exec. pose proof (represents_root _ _ (updated_represents _ _ _ _ Hu)) as [Hc' _].
      rewrite <-(updated_root _ _ _ _ Hu).
      erewrite machine_bind_ok by (by apply node_at_ok). exec.
      erewrite machine_bind_ok by (by apply (collapse_extension_ok _ i)). exec.
      destruct (below_ashrink_extension i p c') as [dropped Hd].
      destruct (write_parent m m1 (AExtension i p c) c c' [] (ashrink_extension i p c') dropped)
        as [Hw Hu']; [done|by rewrite app_nil_r|done|by destruct c'|by rewrite app_nil_r|].
      eexists _, (ashrink_extension i p c').
      split_and!; [exact Hw|by rewrite erase_ashrink_extension, He|done|].
      cbn. by rewrite length_insert.
    + erewrite machine_bind_ok by done. by exec.
    + by erewrite machine_bind_err by done.
    + destruct IH as [m1 Hdel]. erewrite machine_bind_panic by done. by eexists.
  - destruct key as [|j tail]; [done|]. split_nibbles. rewrite erase_branch in *.
    inversion Hwf as [| | | |? Hlen Hwcs]; subst. rewrite length_fmap in Hlen.
    rewrite trie_delete_branch, list_lookup_fmap.
    assert (N.to_nat j < 16) as Hj16 by (unfold is_nibble in *; lia).
    destruct (lookup_lt_is_Some_2 cs (N.to_nat j)) as [r Hj]; [lia|].
    rewrite (index_ok _ _ (option_map root r)) by (by rewrite list_lookup_fmap, Hj). exec.
    rewrite Hj. destruct r as [c|]; cbn [fmap option_fmap option_map]; [|done].
    assert (represents m c) as Hrc by by eapply represents_child.
    assert (well_formed (erase c)) as Hwc.
    { eapply (Hwcs (N.to_nat j)). by rewrite list_lookup_fmap, Hj. }
    pose proof (height_child (option_map erase <$> cs) (N.to_nat j) (erase c)
      ltac:(by rewrite list_lookup_fmap, Hj)) as Hh.
    specialize (IH _ _ Hj Hrc Hwc fuel tail ltac:(lia) ltac:(done)). exec.
    destruct (trie_delete (erase c) tail) as [[t'|]|e|q|]; cbn [mbind outcome_bind]; [| | | |done].
    + destruct IH as (m1 & c' & Hdel & He & Hu & Hl). erewrite machine_bind_ok by done.
      cbn [negb]. exec. pose proof (represents_root _ _ (updated_represents _ _ _ _ Hu)) as [Hc' _].
      rewrite <-(updated_root _ _ _ _ Hu).
      erewrite machine_bind_ok by (by apply node_at_ok). exec.
      rewrite (drop_slot _ _ c) by (done || by apply Hu). exec.
      pose proof (shrink_step_refines m m1 i cs (N.to_nat j) c c' Hr Hj Hu) as Hshrink.
      cbv zeta in Hshrink. rewrite (list_fmap_insert (option_map erase)), erase_aslot, He in Hshrink.
      destruct (shrink_branch _) as [t''|?|q|]; cbn [fmap outcome_fmap]; [|done| |done].
      * destruct Hshrink as (m' & a' & Hstep & He' & Hu' & Hl'). do 2 eexists.
        split_and!; [exact Hstep|done|done|lia].
      * destruct Hshrink as [m' Hstep]. eexists. exact Hstep.
    + erewrite machine_bind_ok by done. by exec.
    + by erewrite machine_bind_err by done.
    + destruct IH as [m1 Hdel]. erewrite machine_bind_panic by done. by eexists.
Qed.
End refinement.
