(* ===== verification/MptHash.v ===== *)
(** * Hashing the arena

    The references computed through the caches and the shared scratch buffer
    are the ones of the tree ([trie_ref], [trie_hash]).  No cell is borrowed
    twice on the way, the fuel is enough, and what is left in the caches is
    right again. *)

From S2P Require Import Prelude External Node Hp Mpt Trie TrieLaws TrieHash MptRefine.

Section hashing.
Context `{CratesOk}.

(** [m'] comes from [m] by filling caches of the nodes [owned] and using the
    scratch buffer. *)
Record fills (m m' : Mpt) (owned : list NodeId) : Prop := {
  fills_root : root_id m' = root_id m;
  fills_nodes : nodes m' = nodes m;
  fills_scratch : cell_borrowed (rlp_scratch m') = cell_borrowed (rlp_scratch m);
  fills_length : length (cached_references m') = length (cached_references m);
  fills_cells j : j ∉ owned → cached_references m' !! j = cached_references m !! j;
}.

Lemma fills_refl m owned : fills m m owned.
Proof. by split. Qed.

Lemma fills_trans m m1 m2 owned owned' :
  fills m m1 owned → fills m1 m2 owned' → fills m m2 (owned ++ owned').
Proof.
  intros [Hr1 Hn1 Hs1 Hl1 Hc1] [Hr2 Hn2 Hs2 Hl2 Hc2]. split; [congruence..|].
  intros j Hj. rewrite Hc2, Hc1; set_solver.
Qed.

Lemma fills_weaken m m' owned owned' :
  (∀ j, j ∈ owned → j ∈ owned') → fills m m' owned → fills m m' owned'.
Proof. intros Hsub [Hr Hn Hs Hl Hc]. split; auto. Qed.

Lemma fills_stored m m' owned a : fills m m' owned → stored m a → stored m' a.
Proof. intros Hf. unfold stored. by rewrite (fills_nodes _ _ _ Hf). Qed.

Lemma fills_cache_ok m m' owned a :
  fills m m' owned → root a ∉ owned → cache_ok m a → cache_ok m' a.
Proof. intros Hf Ho. unfold cache_ok. by rewrite (fills_cells _ _ _ Hf). Qed.

Definition scratch_free (m : Mpt) : Prop := cell_borrowed (rlp_scratch m) = false.

(** The reference of the node is in its cell. *)
Definition cached_as (m : Mpt) (a : atrie) : Prop :=
  cached_references m !! root a = Some (new_cell (Some (trie_ref (erase a)))).

Lemma cached_as_ok m a : cached_as m a → cache_ok m a.
Proof. intros Hc. eexists. split; [exact Hc|naive_solver]. Qed.

Lemma fills_cached_as m m' owned a :
  fills m m' owned → root a ∉ owned → cached_as m a → cached_as m' a.
Proof. intros Hf Ho. unfold cached_as. by rewrite (fills_cells _ _ _ Hf). Qed.

(** What [calc_reference] does on the tree [a]. *)
Definition calc_spec (fuel : nat) (a : atrie) : Prop :=
  ∀ m, Forall (stored m) (subtries a) → Forall (cache_ok m) (below a) → scratch_free m →
  ∃ m', calc_reference fuel (root a) m = (Ok (trie_ref (erase a)), m') ∧
    fills m m' (root <$> below a) ∧ Forall (cache_ok m') (below a).

Lemma write_cell_ok m id c :
  id < length (cached_references m) →
  write_cell id c m = (Ok (), set_cached_references (<[id := c]> (cached_references m)) m).
Proof. intros Hlt. unfold write_cell. exec. by rewrite store_ok. Qed.

Lemma cell_at_ok m id c :
  cached_references m !! id = Some c → cell_at id m = (Ok c, m).
Proof. intros Hc. unfold cell_at. exec. unfold lift. by rewrite (index_ok _ _ _ Hc). Qed.

Lemma fills_write_cell m id c :
  fills m (set_cached_references (<[id := c]> (cached_references m)) m) [id].
Proof.
  split; cbn; [done..|by rewrite length_insert|]. intros j Hj.
  rewrite list_lookup_insert_ne; [done|set_solver].
Qed.

Lemma cached_reference_hit calc m a :
  cached_as m a → cached_reference calc (root a) m = (Ok (trie_ref (erase a)), m).
Proof.
  intros Hc. unfold cached_reference. erewrite machine_bind_ok by (by apply cell_at_ok). done.
Qed.

Lemma cached_reference_spec fuel a m :
  calc_spec fuel a → NoDup (ids a) → Forall (node_ok m) (subtries a) → scratch_free m →
  ∃ m', cached_reference (calc_reference fuel) (root a) m = (Ok (trie_ref (erase a)), m') ∧
    fills m m' (ids a) ∧ Forall (cache_ok m') (below a) ∧ cached_as m' a.
Proof.
  intros Hspec Hnd Hall Hfree. apply NoDup_cons in Hnd as [Hnin Hnd]. fold (root <$> below a) in *.
  inversion Hall as [|? ? [Hs (o & Hcell & Hval)] Hall']; subst.
  assert (root a < length (cached_references m)) as Hlt by by eapply lookup_lt_Some.
  assert (Forall (cache_ok m) (below a)) as Hbelow by (eapply Forall_impl; [exact Hall'|by intros ? []]).
  assert (Forall (stored m) (subtries a)) as Hstored by (eapply Forall_impl; [exact Hall|by intros ? []]).
  destruct o as [r|].
  { rewrite (Hval r eq_refl) in Hcell. exists m. rewrite cached_reference_hit by done.
    split_and!; [done|apply fills_refl|done|done]. }
  unfold cached_reference. erewrite machine_bind_ok by (by apply cell_at_ok).
  cbn [cell_borrowed new_cell cell_value].
  erewrite machine_bind_ok by (by apply write_cell_ok).
  pose proof (fills_write_cell m (root a) (mkCell None true)) as Hf1.
  set (m1 := set_cached_references _ m) in *.
  destruct (Hspec m1) as (m2 & Hcalc & Hf2 & Hok2).
  { eapply Forall_impl; [exact Hstored|]. intros x. by eapply fills_stored. }
  { rewrite Forall_forall in Hbelow |- *. intros x Hx. eapply fills_cache_ok; [done| |by apply Hbelow].
    intros Hin%list_elem_of_singleton. apply Hnin. rewrite <-Hin. by apply list_elem_of_fmap_2. }
  { unfold scratch_free. by rewrite (fills_scratch _ _ _ Hf1). }
  erewrite machine_bind_ok by exact Hcalc.
  assert (root a < length (cached_references m2)) as Hlt2.
  { by rewrite (fills_length _ _ _ Hf2), (fills_length _ _ _ Hf1). }
  erewrite machine_bind_ok by (by apply write_cell_ok).
  pose proof (fills_write_cell m2 (root a) (mkCell (Some (trie_ref (erase a))) false)) as Hf3.
  eexists. split_and!; [done| | |].
  - eapply fills_weaken; [|eapply fills_trans; [exact Hf1|]; eapply fills_trans; [exact Hf2|exact Hf3]].
    unfold ids, subtries. cbn. set_solver.
  - rewrite Forall_forall in Hok2 |- *. intros x Hx. eapply fills_cache_ok; [done| |by apply Hok2].
    intros Hin%list_elem_of_singleton. apply Hnin. rewrite <-Hin. by apply list_elem_of_fmap_2.
  - unfold cached_as. cbn. by apply list_lookup_insert_eq.
Qed.

Lemma reference_length_spec fuel a m :
  calc_spec fuel a → well_formed (erase a) →
  NoDup (ids a) → Forall (node_ok m) (subtries a) → scratch_free m →
  ∃ m', reference_length (calc_reference fuel) (root a) m =
      (Ok (length (ref_bytes (trie_ref (erase a)))), m') ∧
    fills m m' (ids a) ∧ Forall (cache_ok m') (below a) ∧ cached_as m' a.
Proof.
  intros Hspec Hwf Hnd Hall Hfree.
  destruct (cached_reference_spec fuel a m) as (m' & Hc & Hrest); [done..|].
  exists m'. split; [|done]. unfold reference_length. erewrite machine_bind_ok by exact Hc.
  destruct (trie_ref (erase a)) as [s|d] eqn:Hr; [done|].
  apply trie_ref_digest_length in Hr; [|done]. cbn. by rewrite Hr.
Qed.

(** The trees in a list of slots. *)
Definition slots_below (cs : list (option atrie)) : list atrie :=
  concat (map (λ o, match o with Some c => subtries c | None => [] end) cs).

Definition slot_length (o : option atrie) : nat := length (slot_bytes (option_map erase o)).

Definition all_cached (m : Mpt) (cs : list (option atrie)) : Prop :=
  ∀ j c, cs !! j = Some (Some c) → cached_as m c.

Lemma slots_below_cons o cs :
  slots_below (o :: cs) = from_option subtries [] o ++ slots_below cs.
Proof. by destruct o. Qed.

Lemma slots_lengths fuel cs m :
  (∀ j c, cs !! j = Some (Some c) → calc_spec fuel c ∧ well_formed (erase c)) →
  NoDup (root <$> slots_below cs) → Forall (node_ok m) (slots_below cs) → scratch_free m →
  ∃ m', mapM (λ c, match c with
                   | Some id => reference_length (calc_reference fuel) id
                   | None => mret 1
                   end) (option_map root <$> cs) m = (Ok (slot_length <$> cs), m') ∧
    fills m m' (root <$> slots_below cs) ∧ Forall (cache_ok m') (slots_below cs) ∧
    all_cached m' cs.
Proof.
  revert m. induction cs as [|o cs IH]; intros m Hspec Hnd Hall Hfree.
  { exists m. split_and!; [done|apply fills_refl|constructor|by intros j]. }
  rewrite slots_below_cons in *. rewrite fmap_app in Hnd. apply NoDup_app in Hnd as (Hnd & Hdis & Hnd').
  apply Forall_app in Hall as [Ho Hall]. cbn [mapM fmap list_fmap].
  assert (∃ m1, match option_map root o with
      | Some id => reference_length (calc_reference fuel) id
      | None => mret 1
      end m = (Ok (slot_length o), m1) ∧ fills m m1 (root <$> from_option subtries [] o) ∧
      Forall (cache_ok m1) (from_option subtries [] o) ∧ ∀ c, o = Some c → cached_as m1 c)
    as (m1 & Hrun & Hf1 & Hok1 & Hc1).
  { destruct o as [c|]; [|exists m; split_and!; [done|apply fills_refl|constructor|done]].
    destruct (Hspec 0 c eq_refl) as [Hcalc Hwf].
    destruct (reference_length_spec fuel c m) as (m1 & Hrun & Hf & Hok & Hc); [done..|].
    exists m1. split_and!; [done|done| |naive_solver].
    constructor; [by apply cached_as_ok|done]. }
  erewrite machine_bind_ok by exact Hrun.
  assert (Forall (node_ok m1) (slots_below cs)) as Hall1.
  { rewrite Forall_forall in Hall |- *. intros x Hx. destruct (Hall x Hx) as [Hs Hc]. split.
    - by eapply fills_stored.
    - eapply fills_cache_ok; [done| |done]. intros Hin. apply (Hdis _ Hin).
      by apply list_elem_of_fmap_2. }
  destruct (IH m1) as (m2 & Hrun2 & Hf2 & Hok2 & Hc2); [|done|done| |].
  { intros j. apply (Hspec (S j)). }
  { unfold scratch_free. by rewrite (fills_scratch _ _ _ Hf1). }
  erewrite machine_bind_ok by exact Hrun2.
  assert (∀ j, j ∈ root <$> from_option subtries [] o → j ∉ root <$> slots_below cs) as Hdis' by done.
  exists m2. split_and!; [done| | |].
  - rewrite fmap_app. by eapply fills_trans.
  - apply Forall_app. split; [|done]. rewrite Forall_forall in Hok1 |- *. intros x Hx.
    eapply fills_cache_ok; [done| |by apply Hok1]. apply Hdis'. by apply list_elem_of_fmap_2.
  - intros [|j] c Hj; [|by eapply Hc2]. injection Hj as ->.
    eapply fills_cached_as; [done| |by apply Hc1]. apply Hdis'. by left.
Qed.

Lemma reference_encode_hit calc m a :
  cached_as m a → reference_encode calc (root a) m = (Ok (ref_bytes (trie_ref (erase a))), m).
Proof.
  intros Hc. unfold reference_encode. erewrite machine_bind_ok by (by apply cached_reference_hit).
  by destruct (trie_ref (erase a)).
Qed.

Lemma slots_refs calc cs m :
  all_cached m cs →
  mapM (λ c, match c with
             | Some id => reference_encode calc id
             | None => mret [EMPTY_STRING_CODE]
             end) (option_map root <$> cs) m
  = (Ok (slot_bytes <$> (option_map erase <$> cs)), m).
Proof.
  induction cs as [|o cs IH]; intros Hc; [done|]. cbn [mapM fmap list_fmap].
  assert (match option_map root o with
      | Some id => reference_encode calc id
      | None => mret [EMPTY_STRING_CODE]
      end m = (Ok (slot_bytes (option_map erase o)), m)) as Ho.
  { destruct o as [c|]; [|done]. by apply reference_encode_hit, (Hc 0). }
  erewrite machine_bind_ok by exact Ho.
  erewrite machine_bind_ok by (apply IH; intros j; apply (Hc (S j))). done.
Qed.

Definition child_of (c a : atrie) : Prop :=
  match a with
  | AExtension _ _ c' => c = c'
  | ABranch _ cs => ∃ j, cs !! j = Some (Some c)
  | _ => False
  end.

Lemma child_of_below c a : child_of c a → ∃ rest, below a ≡ₚ subtries c ++ rest.
Proof.
  destruct a as [| | |i p c'|i cs]; try done.
  - intros ->. exists []. by rewrite app_nil_r.
  - intros [j Hj]. eexists. by apply below_branch_some.
Qed.

Lemma child_of_NoDup c a :
  child_of c a → NoDup (root <$> below a) → NoDup (root <$> below c).
Proof.
  intros [rest Hrest]%child_of_below Hnd. rewrite Hrest, fmap_app in Hnd.
  apply NoDup_app in Hnd as (Hnd & _ & _). by inversion Hnd.
Qed.

Lemma child_of_height c a : child_of c a → height (erase c) < height (erase a).
Proof.
  destruct a as [| | |i p c'|i cs]; try done; [intros ->; cbn; lia|].
  intros [j Hj]. rewrite erase_branch. eapply (height_child _ j). by rewrite list_lookup_fmap, Hj.
Qed.

Lemma child_of_wf c a : child_of c a → well_formed (erase a) → well_formed (erase c).
Proof.
  destruct a as [| | |i p c'|i cs]; try done; [intros -> Hwf; by inversion Hwf|].
  intros [j Hj] Hwf. rewrite erase_branch in Hwf. inversion Hwf as [| | | |? Hlen Hcs]; subst.
  eapply (Hcs j). by rewrite list_lookup_fmap, Hj.
Qed.

(** The children of the root of [a]. *)
Definition children_cached (m : Mpt) (a : atrie) : Prop :=
  match a with
  | AExtension _ _ c => cached_as m c
  | ABranch _ cs => all_cached m cs
  | _ => True
  end.

Lemma encode_cached calc m a :
  stored m a → children_cached m a →
  encode_with_payload_len calc (root a) (length (trie_payload (erase a))) m
  = (Ok (trie_rlp (erase a)), m).
Proof.
  intros Hs Hc. unfold encode_with_payload_len. erewrite machine_bind_ok by (by apply node_at_ok).
  destruct a as [i|i d|i p v|i p c|i cs]; cbn [data].
  - done.
  - done.
  - done.
  - by erewrite machine_bind_ok by (by apply reference_encode_hit).
  - erewrite machine_bind_ok by (by apply slots_refs). done.
Qed.

Lemma sum_slot_length cs :
  sum_list (slot_length <$> cs) = length (concat (slot_bytes <$> (option_map erase <$> cs))).
Proof. induction cs as [|o cs IH]; [done|]. cbn. by rewrite length_app, IH. Qed.

Lemma payload_length_spec fuel a m :
  (∀ c, child_of c a → calc_spec fuel c) →
  well_formed (erase a) → NoDup (root <$> below a) →
  Forall (node_ok m) (below a) → stored m a → scratch_free m →
  ∃ m', payload_length (calc_reference fuel) (root a) m =
      (Ok (match a with ADigest _ _ => 32 | _ => length (trie_payload (erase a)) end), m') ∧
    fills m m' (root <$> below a) ∧ Forall (cache_ok m') (below a) ∧ children_cached m' a.
Proof.
  intros Hspec Hwf Hnd Hall Hs Hfree.
  unfold payload_length. erewrite machine_bind_ok by (by apply node_at_ok).
  destruct a as [i|i d|i p v|i p c|i cs]; cbn [data];
    try (exists m; split_and!; [|apply fills_refl|constructor|done]).
  - done.
  - done.
  - cbn. by rewrite length_app, !slice_length_encode.
  - destruct (reference_length_spec fuel c m) as (m' & Hrun & Hf & Hok & Hc);
      [by apply Hspec|by apply (child_of_wf c (AExtension i p c))|done..|].
    exists m'. erewrite machine_bind_ok by exact Hrun. split_and!; [|done| |done].
    + cbn. by rewrite length_app, slice_length_encode.
    + constructor; [by apply cached_as_ok|done].
  - destruct (slots_lengths fuel cs m) as (m' & Hrun & Hf & Hok & Hc); [|done..|].
    { intros j c Hj. assert (child_of c (ABranch i cs)) as Hc by by exists j.
      split; [by apply Hspec|by eapply child_of_wf]. }
    exists m'. erewrite machine_bind_ok by exact Hrun. split_and!; [|done..].
    rewrite sum_slot_length. cbn [erase trie_payload]. rewrite length_app. cbn [length].
    unfold mret, machine_ret. do 2 f_equal. change (map _ cs) with (option_map erase <$> cs). lia.
Qed.

Lemma scratch_digest_spec calc m a :
  stored m a → children_cached m a → scratch_free m →
  ∃ m', scratch_digest calc (root a) (length (trie_payload (erase a))) m =
      (Ok (DigestRef (keccak256 (trie_rlp (erase a)))), m') ∧
    fills m m' [] ∧ cached_references m' = cached_references m.
Proof.
  intros Hs Hc Hfree. unfold scratch_digest. exec. rewrite Hfree. exec.
  set (m1 := set_rlp_scratch _ m).
  assert (stored m1 a ∧ children_cached m1 a) as [Hs1 Hc1] by by destruct a.
  erewrite machine_bind_ok by (by apply encode_cached). exec.
  eexists. split_and!; [done| |done]. by split.
Qed.

(** [calc_reference] computes [trie_ref] and leaves good caches below. *)
Lemma calc_reference_spec a fuel :
  well_formed (erase a) → NoDup (root <$> below a) → height (erase a) ≤ fuel → calc_spec fuel a.
Proof.
  revert a. induction fuel as [|fuel IH]; intros a Hwf Hnd Hf m Hstored Hcaches Hfree.
  { pose proof (height_pos (erase a)). lia. }
  inversion Hstored as [|? ? Hs Hstored']; subst. cbn [calc_reference].
  erewrite machine_bind_ok by (by apply node_at_ok).
  assert (∀ c, child_of c a → calc_spec fuel c) as Hchildren.
  { intros c Hc. pose proof (child_of_height _ _ Hc).
    apply IH; [by eapply child_of_wf|by eapply child_of_NoDup|lia]. }
  assert (Forall (node_ok m) (below a)) as Hall.
  { rewrite Forall_forall in Hstored', Hcaches |- *. intros x Hx. split; auto. }
  destruct (payload_length_spec fuel a m Hchildren Hwf Hnd Hall Hs Hfree)
    as (m1 & Hlen & Hf1 & Hok1 & Hc1).
  assert (stored m1 a) as Hs1 by by eapply fills_stored.
  assert (scratch_free m1) as Hfree1 by (unfold scratch_free; by rewrite (fills_scratch _ _ _ Hf1)).
  assert (trie_rlp (erase a) = list_rlp (trie_payload (erase a)) →
    match a with ADigest _ _ => 32 | _ => length (trie_payload (erase a)) end =
      length (trie_payload (erase a)) →
    trie_ref (erase a) = (if decide (length (trie_rlp (erase a)) < 32)
      then BytesRef (trie_rlp (erase a)) else DigestRef (keccak256 (trie_rlp (erase a)))) →
    ∃ m', (payload_length (calc_reference fuel) (root a) ≫= λ plen,
        if decide (plen + length_of_length plen < 32) then
          encode_with_payload_len (calc_reference fuel) (root a) plen ≫= λ encoded, mret (BytesRef encoded)
        else scratch_digest (calc_reference fuel) (root a) plen) m = (Ok (trie_ref (erase a)), m') ∧
      fills m m' (root <$> below a) ∧ Forall (cache_ok m') (below a)) as Hlist.
  { intros Hrlp Hplen Href. rewrite Hplen in Hlen. erewrite machine_bind_ok by exact Hlen.
    assert (length (trie_rlp (erase a)) =
      length (trie_payload (erase a)) + length_of_length (length (trie_payload (erase a)))) as Hl
      by (rewrite Hrlp, list_rlp_length; lia).
    rewrite <-Hl, Href. case_decide.
    - erewrite machine_bind_ok by (by apply encode_cached). by exists m1.
    - destruct (scratch_digest_spec (calc_reference fuel) m1 a) as (m2 & -> & Hf2 & Hcells); [done..|].
      exists m2. split_and!; [done| |].
      + eapply fills_weaken; [|eapply fills_trans; [exact Hf1|exact Hf2]]. set_solver.
      + unfold cache_ok. by rewrite Hcells. }
  destruct a as [i|i d|i p v|i p c|i cs]; cbn [data].
  - exists m. split_and!; [done|apply fills_refl|constructor].
  - exists m. split_and!; [done|apply fills_refl|constructor].
  - by apply Hlist.
  - by apply Hlist.
  - by apply Hlist.
Qed.
End hashing.
