(* ===== verification/MptSpec.v ===== *)
(** * What the arena trie promises

    [valid n m]: the arena holds a canonical trie, possibly with unresolved
    nodes, whose keys have [n] bytes.  The public operations keep an arena
    valid, and on a valid arena they are those of an authenticated finite map. *)

From S2P Require Import Prelude External Node Hp Mpt Trie TrieLaws Canon TrieHash MptRefine.
From S2P Require Import MptHash.

Section spec.
Context `{CratesOk}.

(** The arena holds the trie [t]. *)
Definition models (m : Mpt) (t : trie) : Prop :=
  ∃ a, represents m a ∧ root a = root_id m ∧ erase a = t ∧ at_rest m ∧ well_formed t.

Definition valid (n : nat) (m : Mpt) : Prop :=
  ∃ t, models m t ∧ canonical t ∧ uniform (2 * n) t.

(** A byte key of the arena. *)
Definition byte_key (n : nat) (key : bytes) : Prop := Forall is_u8 key ∧ length key = n.

Lemma byte_key_nibs n key :
  byte_key n key → nibbles (to_nibs key) ∧ length (to_nibs key) = 2 * n.
Proof. intros [Hk <-]. split; [by apply to_nibs_nibbles|apply to_nibs_length]. Qed.

(** Room for the nodes an insertion can add. *)
Definition has_room (m : Mpt) : Prop := (N.of_nat (num_nodes m) + 3 < u32_modulus)%N.

Lemma models_fuel m t : models m t → height t ≤ mpt_fuel m.
Proof. intros (a & Hr & _ & <- & _). by apply height_le_fuel. Qed.

Lemma models_get_nibbles m t key : models m t → get_nibbles m key = trie_get t key.
Proof.
  intros Hm. pose proof (models_fuel _ _ Hm) as Hf. destruct Hm as (a & Hr & Hroot & <- & _).
  unfold get_nibbles. rewrite <-Hroot. by apply get_refines.
Qed.

Lemma models_get m t key : models m t → get m key = trie_get t (to_nibs key).
Proof. apply models_get_nibbles. Qed.

Lemma models_insert m t key value :
  models m t → nibbles key → has_room m →
  match trie_insert t key value with
  | Ok None => insert_nibbles key value m = (Ok false, m)
  | Ok (Some t') => ∃ m', insert_nibbles key value m = (Ok true, m') ∧ models m' t' ∧
                      num_nodes m' ≤ num_nodes m + 3
  | Err e => insert_nibbles key value m = (Err e, m)
  | _ => False
  end.
Proof.
  intros Hm Hk Hroom. pose proof (models_fuel _ _ Hm) as Hf.
  destruct Hm as (a & Hr & Hroot & <- & Hrest & Hwf).
  pose proof (insert_refines a m (mpt_fuel m) key value Hr Hrest Hwf Hf Hk Hroom) as Hins.
  unfold insert_nibbles. exec. rewrite <-Hroot.
  destruct (trie_insert (erase a) key value) as [[t'|]|e| |] eqn:Ht; try done.
  destruct Hins as (m' & a' & Hrun & He & Hu & Hlen). exists m'. split_and!; [done| |done].
  exists a'. split_and!; [by apply Hu| |done| |by eapply trie_insert_wf].
  - rewrite (updated_root _ _ _ _ Hu), Hroot.
    by rewrite (evolves_root _ _ _ (updated_evolves _ _ _ _ Hu)).
  - by apply (evolves_rest _ _ _ (updated_evolves _ _ _ _ Hu)).
Qed.

Lemma models_delete m t key :
  models m t → nibbles key →
  match trie_delete t key with
  | Ok None => delete_nibbles key m = (Ok false, m)
  | Ok (Some t') => ∃ m', delete_nibbles key m = (Ok true, m') ∧ models m' t' ∧
                      num_nodes m' = num_nodes m
  | Err e => delete_nibbles key m = (Err e, m)
  | Panic p => ∃ m', delete_nibbles key m = (Panic p, m')
  | OutOfFuel => False
  end.
Proof.
  intros Hm Hk. pose proof (models_fuel _ _ Hm) as Hf.
  destruct Hm as (a & Hr & Hroot & <- & Hrest & Hwf).
  pose proof (delete_refines a m (mpt_fuel m) key Hr Hwf Hf Hk) as Hdel.
  unfold delete_nibbles. exec. rewrite <-Hroot.
  destruct (trie_delete (erase a) key) as [[t'|]|e| |] eqn:Ht; try done.
  destruct Hdel as (m' & a' & Hrun & He & Hu & Hlen). exists m'. split_and!; [done| |done].
  exists a'. split_and!; [by apply Hu| |done| |by eapply trie_delete_wf].
  - rewrite (updated_root _ _ _ _ Hu), Hroot.
    by rewrite (evolves_root _ _ _ (updated_evolves _ _ _ _ Hu)).
  - by apply (evolves_rest _ _ _ (updated_evolves _ _ _ _ Hu)).
Qed.

(** ** Hashing *)

(** Only caches and the scratch buffer differ. *)
Definition same_nodes (m m' : Mpt) : Prop := root_id m' = root_id m ∧ nodes m' = nodes m.

Lemma models_hash m t :
  models m t → ∃ m', hash m = (Ok (trie_hash t), m') ∧ models m' t ∧ same_nodes m m'.
Proof.
  intros Hm. pose proof (models_fuel _ _ Hm) as Hf.
  destruct Hm as (a & Hr & Hroot & <- & Hrest & Hwf).
  pose proof (represents_root _ _ Hr) as [Hs _]. destruct Hr as [Hall Hnd].
  unfold hash. exec. rewrite <-Hroot. erewrite machine_bind_ok by (by apply node_at_ok).
  assert (∃ m', cached_reference (calc_reference (mpt_fuel m)) (root a) m =
      (Ok (trie_ref (erase a)), m') ∧ models m' (erase a) ∧ same_nodes m m') as (m' & Hc & Hm' & Hsame).
  { destruct (cached_reference_spec (mpt_fuel m) a m) as (m' & Hc & Hfill & Hok & Hca); [|done..|apply Hrest|].
    { apply calc_reference_spec; [done| |done]. by inversion Hnd. }
    exists m'. split_and!; [done| |split; apply Hfill].
    exists a. split_and!; [split; [|done]|by rewrite (fills_root _ _ _ Hfill)|done| |done].
    - apply Forall_forall. intros x Hx. split.
      + eapply fills_stored; [done|]. rewrite Forall_forall in Hall. by apply Hall.
      + apply elem_of_cons in Hx as [->|Hx]; [by apply cached_as_ok|].
        rewrite Forall_forall in Hok. by apply Hok.
    - destruct Hrest as [Hl Hsc]. split.
      + by rewrite (fills_length _ _ _ Hfill), (fills_nodes _ _ _ Hfill).
      + by rewrite (fills_scratch _ _ _ Hfill). }
  assert (data a ≠ Null → ∃ m'', (cached_reference (calc_reference (mpt_fuel m)) (root a) ≫= λ r,
      match r with
      | DigestRef digest => lift (from_slice digest)
      | BytesRef slice => mret (keccak256 slice)
      end) m = (Ok (trie_hash (erase a)), m'') ∧ models m'' (erase a) ∧ same_nodes m m'') as Hmain.
  { intros Hnn. erewrite machine_bind_ok by exact Hc. exists m'. split; [|done].
    unfold trie_hash. destruct (trie_ref (erase a)) as [s|d] eqn:Href.
    - by destruct a.
    - apply trie_ref_digest_length in Href; [|done]. rewrite from_slice_ok by done. by destruct a. }
  destruct a as [i|i d|i p v|i p c|i cs]; cbn [data] in *; [|by apply Hmain..].
  exists m. split_and!; [done| |done]. exists (ANull i). split_and!; done.
Qed.

(** ** The invariant of partially resolved arenas *)

Lemma decide_to_nibs {B} key key' (x y : B) :
  Forall is_u8 key → Forall is_u8 key' →
  (if decide (to_nibs key = to_nibs key') then x else y) = (if decide (key = key') then x else y).
Proof.
  intros Hk Hk'. destruct (decide (key = key')) as [->|Hne]; [by rewrite decide_True|].
  rewrite decide_False; [done|]. intros Heq. by apply to_nibs_inj in Heq.
Qed.

Lemma trie_get_no_panic t key :
  well_formed t → nibbles key → is_Ok (trie_get t key) ∨ ∃ d, trie_get t key = Err (NodeNotResolved d).
Proof.
  intros Hwf. revert key. induction t as [|d|path old|path c IH|cs IH] using trie_nested_ind;
    intros key Hk; try (left; by eexists).
  - inversion Hwf; subst. right. exists d. cbn. by rewrite from_slice_ok.
  - inversion Hwf; subst. cbn [trie_get].
    destruct (strip_prefix (prefix_to_nibs path) key) as [tail|] eqn:Hs; [|left; by eexists].
    apply strip_prefix_Some in Hs. subst. split_nibbles. by eapply IH.
  - destruct key as [|i tail]; [left; by eexists|]. split_nibbles. rewrite trie_get_branch.
    inversion Hwf as [| | | |? Hlen Hcs]; subst.
    destruct (lookup_lt_is_Some_2 cs (N.to_nat i)) as [o Hi]; [unfold is_nibble in *; lia|].
    rewrite Hi. destruct o as [c|]; [|left; by eexists]. eapply IH; eauto.
Qed.

Lemma trie_get_error t key e :
  well_formed t → nibbles key → trie_get t key = Err e → ∃ d, e = NodeNotResolved d.
Proof.
  intros Hwf Hk He. destruct (trie_get_no_panic t key Hwf Hk) as [[o Ho]|[d Hd]]; [congruence|].
  exists d. congruence.
Qed.

(** ** Contents as a finite map *)

(** Looking up byte keys in [t] is looking them up in [M]. *)
Definition contents (n : nat) (t : trie) (M : gmap bytes bytes) : Prop :=
  (∀ key, byte_key n key → trie_get t (to_nibs key) = Ok (M !! key)) ∧
  (∀ key, is_Some (M !! key) → byte_key n key).

(** The arena holds, in canonical form, exactly the map [M]. *)
Definition holds (n : nat) (m : Mpt) (M : gmap bytes bytes) : Prop :=
  ∃ t, models m t ∧ canonical t ∧ uniform (2 * n) t ∧ resolved t ∧ contents n t M.

Lemma models_wf m t : models m t → well_formed t.
Proof. by intros (a & _ & _ & _ & _ & ?). Qed.

Lemma models_new : models new TNull.
Proof.
  exists (ANull 0). split_and!; [|done..|constructor]. split; [|apply NoDup_singleton].
  repeat constructor. exists None. naive_solver.
Qed.

Lemma holds_new n : holds n new ∅.
Proof.
  exists TNull. split_and!; [apply models_new|by left|constructor..|].
  split; [done|]. intros key [v Hv]. by rewrite lookup_empty in Hv.
Qed.

Lemma holds_get n m M key : holds n m M → byte_key n key → get m key = Ok (M !! key).
Proof.
  intros (t & Hm & _ & _ & _ & Hc) Hk. rewrite (models_get _ _ _ Hm). by apply Hc.
Qed.

Lemma trie_insert_contents n t M key value :
  canonical t → uniform (2 * n) t → resolved t → contents n t M → well_formed t → byte_key n key →
  match trie_insert t (to_nibs key) value with
  | Ok None => M !! key = Some value
  | Ok (Some t') =>
      M !! key ≠ Some value ∧
      canonical t' ∧ uniform (2 * n) t' ∧ resolved t' ∧ contents n t' (<[key := value]> M)
  | _ => False
  end.
Proof.
  intros Hct Hu Hr [Hc Hkeys] Hwf Hk. destruct (byte_key_nibs _ _ Hk) as [Hn Hl].
  destruct (trie_insert_total (2 * n) t (to_nibs key) value Hwf Hu Hn Hl)
    as [(e & He & _)|(old & r & Hold & Hins & Hiff)].
  { rewrite Hc in He by done. done. }
  rewrite Hc in Hold by done. injection Hold as <-. rewrite Hins.
  destruct r as [t'|]; [|by apply Hiff].
  split_and!; [naive_solver| | | |split].
  - right. by eapply trie_insert_canonical.
  - by eapply trie_insert_uniform.
  - by eapply trie_insert_resolved.
  - intros key' Hk'. destruct (byte_key_nibs _ _ Hk') as [Hn' _].
    rewrite (trie_insert_get t (to_nibs key) value t') by done.
    rewrite decide_to_nibs by (apply Hk || apply Hk').
    destruct (decide (key = key')) as [->|Hne]; [by rewrite lookup_insert_eq|].
    rewrite lookup_insert_ne by done. by apply Hc.
  - intros key'. destruct (decide (key = key')) as [->|Hne]; [done|].
    rewrite lookup_insert_ne by done. apply Hkeys.
Qed.

Lemma holds_insert n m M key value :
  holds n m M → byte_key n key → has_room m →
  ∃ m', insert key value m = (Ok (bool_decide (M !! key ≠ Some value)), m') ∧
    holds n m' (<[key := value]> M) ∧ num_nodes m' ≤ num_nodes m + 3.
Proof.
  intros (t & Hm & Hct & Hu & Hr & Hc) Hk Hroom. pose proof (models_wf _ _ Hm) as Hwf.
  destruct (byte_key_nibs _ _ Hk) as [Hn _].
  pose proof (trie_insert_contents n t M key value Hct Hu Hr Hc Hwf Hk) as Ht.
  pose proof (models_insert m t (to_nibs key) value Hm Hn Hroom) as Hins.
  destruct (trie_insert t (to_nibs key) value) as [[t'|]| | |]; try done.
  - destruct Ht as (Hne & Hct' & Hu' & Hr' & Hc'). destruct Hins as (m' & Hrun & Hm' & Hlen).
    exists m'. rewrite bool_decide_eq_true_2 by done. split_and!; [done| |done]. by exists t'.
  - exists m. rewrite bool_decide_eq_false_2 by naive_solver.
    split_and!; [done| |lia]. exists t. rewrite insert_id by done. done.
Qed.

Lemma trie_delete_contents n t M key :
  canonical t → uniform (2 * n) t → resolved t → contents n t M → byte_key n key →
  match trie_delete t (to_nibs key) with
  | Ok None => M !! key = None
  | Ok (Some t') =>
      is_Some (M !! key) ∧
      canonical t' ∧ uniform (2 * n) t' ∧ resolved t' ∧ contents n t' (base.delete key M)
  | _ => False
  end.
Proof.
  intros Hct Hu Hr [Hc Hkeys] Hk. destruct (byte_key_nibs _ _ Hk) as [Hn Hl].
  assert (well_formed t) as Hwf by (destruct Hct as [->|]; [constructor|by apply canonical_wf]).
  destruct (trie_delete_total (2 * n) t (to_nibs key) Hct Hu Hn Hl)
    as [(e & He & _)|(old & r & Hold & Hd & Hiff)].
  { rewrite Hc in He by done. done. }
  rewrite Hc in Hold by done. injection Hold as <-.
  pose proof (trie_delete_canonical t (to_nibs key) Hct Hn) as Hcan. rewrite Hd in Hcan |- *.
  destruct r as [t'|]; [|by apply Hiff].
  split_and!; [destruct (M !! key); [by eexists|naive_solver]|done| | |split].
  - by eapply trie_delete_uniform.
  - by eapply trie_delete_resolved.
  - intros key' Hk'. destruct (byte_key_nibs _ _ Hk') as [Hn' _].
    rewrite (trie_delete_get t (to_nibs key) t') by done.
    rewrite decide_to_nibs by (apply Hk || apply Hk').
    destruct (decide (key = key')) as [->|Hne]; [by rewrite lookup_delete_eq|].
    rewrite lookup_delete_ne by done. by apply Hc.
  - intros key' [v Hv]. apply lookup_delete_Some in Hv as [_ Hv]. apply Hkeys. by eexists.
Qed.

Lemma holds_delete n m M key :
  holds n m M → byte_key n key →
  ∃ m', delete key m = (Ok (bool_decide (is_Some (M !! key))), m') ∧
    holds n m' (base.delete key M) ∧ num_nodes m' = num_nodes m.
Proof.
  intros (t & Hm & Hct & Hu & Hr & Hc) Hk. destruct (byte_key_nibs _ _ Hk) as [Hn _].
  pose proof (models_delete m t (to_nibs key) Hm Hn) as Hdel.
  pose proof (trie_delete_contents n t M key Hct Hu Hr Hc Hk) as Ht.
  destruct (trie_delete t (to_nibs key)) as [[t'|]| | |]; try done.
  - destruct Ht as (Hsome & Hct' & Hu' & Hr' & Hc'). destruct Hdel as (m' & Hrun & Hm' & Hlen).
    exists m'. rewrite bool_decide_eq_true_2 by done. split_and!; [done| |done]. by exists t'.
  - exists m. rewrite Ht, bool_decide_eq_false_2 by (by intros []).
    split_and!; [done| |done]. exists t. rewrite delete_id by done. by split_and!.
Qed.

(** Every even sequence of nibbles comes from a byte key. *)
Lemma nibs_of_bytes n k :
  nibbles k → length k = 2 * n → ∃ key, byte_key n key ∧ to_nibs key = k.
Proof.
  intros Hk Hl. assert (Nat.even (length k) = true) as He by (rewrite Hl; apply Nat.even_even).
  exists (pack_pairs k). split; [|by apply to_nibs_pack]. split; [by apply pack_pairs_u8|].
  pose proof (to_nibs_length (pack_pairs k)) as Hp.
  rewrite to_nibs_pack in Hp by done. lia.
Qed.

(** A map has at most one canonical trie. *)
Lemma contents_unique n t t' M :
  canonical t → canonical t' → uniform (2 * n) t → uniform (2 * n) t' → resolved t → resolved t' →
  contents n t M → contents n t' M → t = t'.
Proof.
  intros Hct Hct' Hu Hu' Hr Hr' [Hc _] [Hc' _]. apply (canonical_unique (2 * n)); try done.
  intros k v. unfold binds. split; intros (Hk & Hl & Hg); (split_and!; [done..|]);
    destruct (nibs_of_bytes n k) as (key & Hkey & <-); try done; rewrite ?Hc, ?Hc' in * by done; done.
Qed.
End spec.
