(* ===== verification/PrintTrie.v ===== *)
(** * Printing a trie ([print_trie] of [crates/mpt/src/trie.rs])

    The lines that [print_trie] writes are those of the tree the arena holds, every
    node below its parent and deeper indented. *)

From stdpp Require Import strings pretty.
From S2P Require Import Prelude External Concrete Node Hp Mpt Trie TrieLaws TrieHash MptRefine MptHash MptSpec.

(** [hex::encode], and how [B256] is shown for debugging. *)
Class HexText : Type := {
  hex_encode : bytes → string;
  b256_debug : B256 → string;
}.

(** [s.repeat(n)] *)
Fixpoint repeat_string (s : string) (n : nat) : string :=
  match n with 0 => EmptyString | S n' => s +:+ repeat_string s n' end.

Definition indent (depth : nat) : string := repeat_string "  "%string depth.

Section print.
Local Open Scope string_scope.
Context `{CratesOk, HexText}.

(** What was printed so far, a string per line. *)
Definition println (line : string) : machine (list string) Error unit := modify (λ out, (out ++ [line])%list).

Fixpoint print_trie_internal (fuel : nat) (m : Mpt) (node_id : NodeId) (depth : nat)
  : machine (list string) Error unit :=
  match fuel with
  | 0 => lift OutOfFuel
  | S fuel' =>
      let indent := indent depth in
      data ← lift (index (nodes m) node_id);
      match data with
      | Null => println (indent +:+ "Null")
      | Branch children =>
          println (indent +:+ "Branch");;
          for_each (λ '(i, child),
            match child with
            | Some child_id =>
                println (indent +:+ "  [" +:+ hex_encode [N.of_nat i] +:+ "]:");;
                print_trie_internal fuel' m child_id (depth + 2)
            | None => mret ()
            end) (imap pair children)
      | Leaf path value =>
          println (indent +:+ "Leaf path=" +:+ hex_encode path +:+ " value_len=" +:+ pretty (length value))
      | Extension path child_id =>
          println (indent +:+ "Extension path=" +:+ hex_encode path);;
          print_trie_internal fuel' m child_id (depth + 1)
      | Digest digest =>
          d ← lift (from_slice digest);
          println (indent +:+ "Digest " +:+ b256_debug d)
      end
  end.

Definition print_trie (m : Mpt) : machine (list string) Error unit :=
  print_trie_internal (mpt_fuel m) m (root_id m) 0.

(** ** The lines of a tree *)

Fixpoint trie_lines (depth : nat) (t : trie) : list string :=
  match t with
  | TNull => [indent depth +:+ "Null"]
  | TDigest d => [indent depth +:+ "Digest " +:+ b256_debug d]
  | TLeaf path value =>
      [indent depth +:+ "Leaf path=" +:+ hex_encode path +:+ " value_len=" +:+ pretty (length value)]
  | TExtension path c => (indent depth +:+ "Extension path=" +:+ hex_encode path) :: trie_lines (depth + 1) c
  | TBranch cs =>
      (indent depth +:+ "Branch") ::
      concat (imap (λ i o, match o with
        | Some lines => (indent depth +:+ "  [" +:+ hex_encode [N.of_nat i] +:+ "]:") :: lines
        | None => []
        end) (map (λ o, match o with Some c => Some (trie_lines (depth + 2) c) | None => None end) cs))
  end.

Local Close Scope string_scope.

(** A loop that prints lines for each item. *)
Lemma for_each_prints {A} (f : A → machine (list string) Error unit) l ls out :
  Forall2 (λ x lines, ∀ out, f x out = (Ok (), out ++ lines)) l ls →
  for_each f l out = (Ok (), out ++ concat ls).
Proof.
  intros Hall. revert out. induction Hall as [|x lines l ls Hx _ IH]; intros out; cbn [for_each concat].
  { by rewrite app_nil_r. }
  by rewrite (machine_bind_ok _ _ _ _ _ (Hx out)), IH, app_assoc.
Qed.

Lemma println_prints line out : println line out = (Ok (), out ++ [line]).
Proof. done. Qed.

Lemma print_refines m a fuel depth out :
  represents m a → well_formed (erase a) → height (erase a) ≤ fuel →
  print_trie_internal fuel m (root a) depth out = (Ok (), out ++ trie_lines depth (erase a)).
Proof.
  intros Hr. revert fuel depth out.
  induction a as [i|i d|i p v|i p c IH|i cs IH] using atrie_nested_ind; intros fuel depth out Hwf Hf;
    (destruct fuel as [|fuel]; [cbn in Hf; lia|]);
    pose proof (represents_root _ _ Hr) as [Hs _]; cbn [print_trie_internal]; rewrite (index_ok _ _ _ Hs); exec;
    cbn [data].
  - done.
  - inversion Hwf. rewrite from_slice_ok by done. by exec.
  - done.
  - rewrite (machine_bind_ok _ _ _ _ _ (println_prints _ _)), IH, <-app_assoc; [done|by eapply represents_extension| |].
    + by inversion Hwf.
    + cbn in Hf. lia.
  - rewrite (machine_bind_ok _ _ _ _ _ (println_prints _ _)). rewrite erase_branch in *. cbn [trie_lines].
    erewrite for_each_prints; [by rewrite <-app_assoc|].
    apply Forall2_lookup. intros j. change @map with (λ A B, @fmap list _ A B). rewrite !list_lookup_imap, !list_lookup_fmap.
    destruct (cs !! j) as [[c|]|] eqn:Hj; cbn; constructor; intros out'; [|by rewrite app_nil_r].
    assert ((option_map erase <$> cs) !! j = Some (Some (erase c))) as Hj' by by rewrite list_lookup_fmap, Hj.
    rewrite (machine_bind_ok _ _ _ _ _ (println_prints _ _)), (IH j c Hj), <-app_assoc; [done|by eapply represents_child| |].
    + inversion Hwf. eauto.
    + apply height_child in Hj'. lia.
Qed.

(** C35: [print_trie] prints the trie: on every arena that holds a tree it ends, with
    neither an index out of bounds nor a digest of the wrong length, and what it has
    printed are the lines of the tree, whatever the numbers of the nodes in the arena
    and whatever else the arena has. *)
Theorem print_trie_prints_the_tree m t out :
  models m t → print_trie m out = (Ok (), out ++ trie_lines 0 t).
Proof.
  intros (a & Hr & Hroot & <- & _ & Hwf). unfold print_trie. rewrite <-Hroot.
  apply print_refines; [done|done|by apply height_le_fuel].
Qed.
End print.

(** ** A printed trie *)

Module HexDigits.
Local Open Scope string_scope.

Definition digit (n : N) : string :=
  match n with
  | 0 => "0" | 1 => "1" | 2 => "2" | 3 => "3" | 4 => "4" | 5 => "5" | 6 => "6" | 7 => "7"
  | 8 => "8" | 9 => "9" | 10 => "a" | 11 => "b" | 12 => "c" | 13 => "d" | 14 => "e" | _ => "f"
  end%N.

Definition encode (b : bytes) : string :=
  foldr (λ x s, digit (x / 16) +:+ digit (x `mod` 16) +:+ s) EmptyString b.
End HexDigits.

#[export] Instance hex_digits : HexText := {
  hex_encode := HexDigits.encode;
  b256_debug d := String.append "0x" (HexDigits.encode d);
}.

Definition two_leaves : machine Mpt Error bool :=
  _ ← insert_nibbles [1; 2]%N [7; 7; 7]%N; insert_nibbles [1; 3]%N [8]%N.

Lemma print_trie_prints_the_tree_witness :
  ∃ m t, two_leaves new = (Ok true, m) ∧ models m t ∧
    print_trie m [] = (Ok (), [] ++ trie_lines 0 t) ∧
    trie_lines 0 t = ["Extension path=11"; "  Branch"; "    [02]:"; "      Leaf path=20 value_len=3";
      "    [03]:"; "      Leaf path=20 value_len=1"]%string.
Proof.
  assert (Forall is_nibble [1; 2]%N ∧ Forall is_nibble [1; 3]%N) as [Hk1 Hk2].
  { split; by_computation. }
  pose proof (models_insert new TNull [1; 2]%N [7; 7; 7]%N models_new Hk1 ltac:(by_computation)) as H1.
  vm_compute (trie_insert _ _ _) in H1. destruct H1 as (m1 & Hr1 & Hm1 & Hn1).
  pose proof (models_insert m1 _ [1; 3]%N [8]%N Hm1 Hk2) as H2.
  vm_compute (trie_insert _ _ _) in H2. destruct H2 as (m2 & Hr2 & Hm2 & _).
  { change (num_nodes new) with 1 in Hn1. unfold has_room, u32_modulus. lia. }
  exists m2. eexists. split; [|split; [exact Hm2|split; [exact (print_trie_prints_the_tree m2 _ [] Hm2)|]]].
  - unfold two_leaves. by rewrite (machine_bind_ok _ _ _ _ _ Hr1), Hr2.
  - vm_compute. reflexivity.
Defined.
