(* ===== verification/TrieMap.v ===== *)
(** * The arena trie is an authenticated finite map

    The theorems a user of [Mpt] relies on: sequences of operations behave as
    operations on a finite map, the root hash is a function of that map, and
    what holds on a trie that is only partly in memory. *)

From S2P Require Import Prelude External Concrete Node Hp Mpt Trie TrieLaws Canon TrieHash.
From S2P Require Import MptRefine MptHash MptSpec.

(** Calls a user makes, with what they return. *)
Inductive operation : Type :=
  | OpGet (key : bytes)
  | OpInsert (key value : bytes)
  | OpDelete (key : bytes)
  | OpHash.

Inductive result : Type :=
  | RGet (value : option bytes)
  | RUpdated (changed : bool)
  | RHash (root : B256).

Section simulation.
Context `{Crates}.

Definition run_op (op : operation) : machine Mpt Error result :=
  match op with
  | OpGet key => m ← get_state; value ← lift (get m key); mret (RGet value)
  | OpInsert key value => changed ← insert key value; mret (RUpdated changed)
  | OpDelete key => changed ← Mpt.delete key; mret (RUpdated changed)
  | OpHash => root ← hash; mret (RHash root)
  end.

Definition run_ops (ops : list operation) : machine Mpt Error (list result) := mapM run_op ops.

(** The trie of a map, built from nothing. *)
Definition trie_of_list (l : list (bytes * bytes)) : trie :=
  foldr (λ kv t, match trie_insert t (to_nibs kv.1) kv.2 with
                 | Ok (Some t') => t'
                 | _ => t
                 end) TNull l.

(** The root hash of a map. *)
Definition map_root (M : gmap bytes bytes) : B256 := trie_hash (trie_of_list (map_to_list M)).

(** What the operation returns and does on a finite map. *)
Definition spec_op (op : operation) (M : gmap bytes bytes) : result * gmap bytes bytes :=
  match op with
  | OpGet key => (RGet (M !! key), M)
  | OpInsert key value => (RUpdated (bool_decide (M !! key ≠ Some value)), <[key := value]> M)
  | OpDelete key => (RUpdated (bool_decide (is_Some (M !! key))), base.delete key M)
  | OpHash => (RHash (map_root M), M)
  end.

Fixpoint spec_ops (ops : list operation) (M : gmap bytes bytes)
  : list result * gmap bytes bytes :=
  match ops with
  | [] => ([], M)
  | op :: ops' =>
      let '(r, M1) := spec_op op M in
      let '(rs, M2) := spec_ops ops' M1 in (r :: rs, M2)
  end.

Definition op_key_ok (n : nat) (op : operation) : Prop :=
  match op with
  | OpGet key | OpInsert key _ | OpDelete key => byte_key n key
  | OpHash => True
  end.
End simulation.

Section theorems.
Context `{CratesOk}.

Lemma trie_of_list_ok n l :
  Forall (λ kv, byte_key n kv.1) l →
  let t := trie_of_list l in
  canonical t ∧ uniform (2 * n) t ∧ resolved t ∧ well_formed t ∧ contents n t (list_to_map l).
Proof.
  induction 1 as [|[k v] l Hk Hl IH].
  - split_and!; [by left|constructor..|]. split; [done|].
    intros key [w Hw]. exfalso. by apply (lookup_empty_Some (M:=gmap bytes) key w).
  - assert (trie_of_list ((k, v) :: l) = match trie_insert (trie_of_list l) (to_nibs k) v with
      | Ok (Some t') => t' | _ => trie_of_list l end) as -> by done.
    change (list_to_map ((k, v) :: l)) with (<[k := v]> (list_to_map l : gmap bytes bytes)).
    cbv zeta in IH |- *. destruct IH as (Hct & Hu & Hr & Hwf & Hc).
    pose proof (trie_insert_contents n _ _ k v Hct Hu Hr Hc Hwf Hk) as Hins.
    destruct (trie_insert _ (to_nibs k) v) as [[t'|]| | |] eqn:Ht; try done.
    + destruct Hins as (_ & Hct' & Hu' & Hr' & Hc'). split_and!; try done.
      eapply trie_insert_wf; [done..|]. by apply (byte_key_nibs n).
    + split_and!; try done. by rewrite insert_id.
Qed.

Lemma holds_hash n m M :
  holds n m M → ∃ m', hash m = (Ok (map_root M), m') ∧ holds n m' M ∧ same_nodes m m'.
Proof.
  intros (t & Hm & Hct & Hu & Hr & Hc).
  destruct (models_hash _ _ Hm) as (m' & Hrun & Hm' & Hsame). exists m'. split_and!; [|by exists t|done].
  rewrite Hrun. do 2 f_equal. unfold map_root. f_equal.
  destruct (trie_of_list_ok n (map_to_list M)) as (Hct' & Hu' & Hr' & _ & Hc').
  { apply Forall_forall. intros [k v] Hin. apply elem_of_map_to_list in Hin.
    destruct Hc as [_ Hkeys]. apply Hkeys. by eexists. }
  rewrite list_to_map_to_list in Hc'. by eapply contents_unique.
Qed.

Lemma run_op_refines n m M op :
  holds n m M → op_key_ok n op → has_room m →
  ∃ m', run_op op m = (Ok (spec_op op M).1, m') ∧ holds n m' (spec_op op M).2 ∧
    num_nodes m' ≤ num_nodes m + 3.
Proof.
  intros Hh Hk Hroom. destruct op as [key|key value|key|]; cbn [run_op spec_op fst snd op_key_ok] in *.
  - exec. rewrite (holds_get _ _ _ _ Hh) by done. exec. exists m. split_and!; [done|done|lia].
  - destruct (holds_insert n m M key value) as (m' & Hrun & ? & ?); [done..|].
    exists m'. by erewrite machine_bind_ok by exact Hrun.
  - destruct (holds_delete n m M key) as (m' & Hrun & ? & ?); [done..|].
    exists m'. erewrite machine_bind_ok by exact Hrun. split_and!; [done|done|lia].
  - destruct (holds_hash n m M) as (m' & Hrun & ? & [_ Hn]); [done|].
    exists m'. erewrite machine_bind_ok by exact Hrun. split_and!; [done|done|].
    unfold num_nodes. rewrite Hn. lia.
Qed.

Lemma run_ops_refines n m M ops :
  holds n m M → Forall (op_key_ok n) ops →
  (N.of_nat (num_nodes m) + 3 * N.of_nat (length ops) + 3 < u32_modulus)%N →
  ∃ m', run_ops ops m = (Ok (spec_ops ops M).1, m') ∧ holds n m' (spec_ops ops M).2.
Proof.
  intros Hh Hops. revert m M Hh. induction Hops as [|op ops Hop Hops IH]; intros m M Hh Hlen.
  { by exists m. }
  cbn [length] in Hlen. unfold run_ops. cbn [mapM spec_ops].
  destruct (run_op_refines n m M op) as (m1 & Hrun & Hh1 & Hn1); [done|done|unfold has_room; lia|].
  destruct (spec_op op M) as [r M1]. cbn [fst snd] in *.
  destruct (IH m1 M1 Hh1) as (m2 & Hrun2 & Hh2); [lia|].
  destruct (spec_ops ops M1) as [rs M2]. cbn [fst snd] in *. exists m2.
  erewrite machine_bind_ok by exact Hrun. by erewrite machine_bind_ok by exact Hrun2.
Qed.

(** C15: Starting from an empty arena, any sequence of lookups, insertions,
    deletions and root-hash computations on keys of [n] bytes returns what the
    same sequence returns on a finite map, whatever is cached on the way, and
    ends in an arena that holds the resulting map.  The root hashes are those of
    the map at that point.  No operation fails or panics or runs out of fuel. *)
Theorem operations_refine_map n ops :
  Forall (op_key_ok n) ops → (3 * N.of_nat (length ops) + 4 < u32_modulus)%N →
  ∃ m, run_ops ops new = (Ok (spec_ops ops ∅).1, m) ∧ holds n m (spec_ops ops ∅).2.
Proof.
  intros Hops Hlen. apply run_ops_refines; [apply holds_new|done|]. cbn. lia.
Qed.

(** C23: The root hash depends on the final contents only: two sequences of
    operations that lead to the same map lead to the same root hash. *)
Theorem root_hash_order_independent n ops ops' :
  Forall (op_key_ok n) ops → Forall (op_key_ok n) ops' →
  (3 * N.of_nat (length ops) + 4 < u32_modulus)%N →
  (3 * N.of_nat (length ops') + 4 < u32_modulus)%N →
  (spec_ops ops ∅).2 = (spec_ops ops' ∅).2 →
  ∃ root, ((run_ops ops;; hash) new).1 = Ok root ∧ ((run_ops ops';; hash) new).1 = Ok root.
Proof.
  intros Hops Hops' Hlen Hlen' Hsame.
  destruct (run_ops_refines n new ∅ ops) as (m & Hrun & Hh); [apply holds_new|done|cbn; lia|].
  destruct (run_ops_refines n new ∅ ops') as (m' & Hrun' & Hh'); [apply holds_new|done|cbn; lia|].
  rewrite <-Hsame in Hh'.
  destruct (holds_hash _ _ _ Hh) as (m1 & Hhash & _), (holds_hash _ _ _ Hh') as (m1' & Hhash' & _).
  eexists. erewrite !machine_bind_ok by done. by rewrite Hhash, Hhash'.
Qed.

(** ** Tries that are only partly in memory *)

Lemma valid_insert n m key value :
  valid n m → byte_key n key → has_room m →
  (∃ digest, get m key = Err (NodeNotResolved digest) ∧
     insert key value m = (Err (NodeNotResolved digest), m)) ∨
  (∃ old m', get m key = Ok old ∧
     insert key value m = (Ok (bool_decide (old ≠ Some value)), m') ∧ valid n m' ∧
     num_nodes m' ≤ num_nodes m + 3 ∧
     ∀ key', byte_key n key' →
       get m' key' = if decide (key = key') then Ok (Some value) else get m key').
Proof.
  intros (t & Hm & Hct & Hu) Hk Hroom. pose proof (models_wf _ _ Hm) as Hwf.
  destruct (byte_key_nibs _ _ Hk) as [Hn Hl]. rewrite (models_get _ _ _ Hm).
  pose proof (models_insert m t (to_nibs key) value Hm Hn Hroom) as Hins.
  destruct (trie_insert_total (2 * n) t (to_nibs key) value Hwf Hu Hn Hl)
    as [(e & He & Hi)|(old & r & Hold & Hi & Hiff)]; rewrite Hi in Hins.
  - left. destruct (trie_get_error _ _ _ Hwf Hn He) as [d ->]. by exists d.
  - right. exists old. destruct r as [t'|].
    + destruct Hins as (m' & Hrun & Hm' & Hlen). exists m'.
      rewrite bool_decide_eq_true_2 by naive_solver. split_and!; [done|exact Hrun| |exact Hlen|].
      * exists t'. split_and!; [done|right; by eapply trie_insert_canonical|by eapply trie_insert_uniform].
      * intros key' Hk'. destruct (byte_key_nibs _ _ Hk') as [Hn' _].
        rewrite (models_get _ _ _ Hm'), (models_get _ _ _ Hm).
        rewrite (trie_insert_get t (to_nibs key) value t') by done.
        apply decide_to_nibs; [apply Hk|apply Hk'].
    + exists m. rewrite (proj1 Hiff eq_refl) in *. rewrite bool_decide_eq_false_2 by naive_solver.
      split_and!; [done|exact Hins|by exists t|lia|].
      intros key' _. case_decide; [subst|done]. by rewrite (models_get _ _ _ Hm).
Qed.

Lemma valid_delete n m key :
  valid n m → byte_key n key →
  (∃ digest, get m key = Err (NodeNotResolved digest) ∧
     Mpt.delete key m = (Err (NodeNotResolved digest), m)) ∨
  (∃ old m', get m key = Ok old ∧
     Mpt.delete key m = (Ok (bool_decide (old ≠ None)), m') ∧ valid n m' ∧
     num_nodes m' = num_nodes m ∧
     ∀ key', byte_key n key' →
       get m' key' = if decide (key = key') then Ok None else get m key').
Proof.
  intros (t & Hm & Hct & Hu) Hk. pose proof (models_wf _ _ Hm) as Hwf.
  destruct (byte_key_nibs _ _ Hk) as [Hn Hl]. rewrite (models_get _ _ _ Hm).
  pose proof (models_delete m t (to_nibs key) Hm Hn) as Hdel.
  destruct (trie_delete_total (2 * n) t (to_nibs key) Hct Hu Hn Hl)
    as [(e & He & Hi)|(old & r & Hold & Hi & Hiff)]; rewrite Hi in Hdel.
  - left. destruct (trie_get_error _ _ _ Hwf Hn He) as [d ->]. by exists d.
  - right. exists old. destruct r as [t'|].
    + destruct Hdel as (m' & Hrun & Hm' & Hlen). exists m'.
      rewrite bool_decide_eq_true_2 by naive_solver. split_and!; [done|exact Hrun| |exact Hlen|].
      * exists t'. split_and!; [done| |by eapply trie_delete_uniform].
        pose proof (trie_delete_canonical t (to_nibs key) Hct Hn) as Hcan. by rewrite Hi in Hcan.
      * intros key' Hk'. destruct (byte_key_nibs _ _ Hk') as [Hn' _].
        rewrite (models_get _ _ _ Hm'), (models_get _ _ _ Hm).
        rewrite (trie_delete_get t (to_nibs key) t') by done.
        apply decide_to_nibs; [apply Hk|apply Hk'].
    + exists m. rewrite (proj1 Hiff eq_refl) in *. rewrite bool_decide_eq_false_2 by naive_solver.
      split_and!; [done|exact Hdel|by exists t|done|].
      intros key' _. case_decide; [subst|done]. by rewrite (models_get _ _ _ Hm).
Qed.

(** C19: Insertion into a partly resolved canonical trie either stops at an
    unresolved node, exactly when a lookup of the key does, and leaves the arena
    as it was; or it returns whether the value changed, and afterwards the key
    has the value while every other lookup (errors included) is what it was. *)
Theorem insert_updates_one_key n m key value :
  valid n m → byte_key n key → has_room m →
  (∃ digest, get m key = Err (NodeNotResolved digest) ∧
     insert key value m = (Err (NodeNotResolved digest), m)) ∨
  (∃ old m', get m key = Ok old ∧
     insert key value m = (Ok (bool_decide (old ≠ Some value)), m') ∧ valid n m' ∧
     ∀ key', byte_key n key' →
       get m' key' = if decide (key = key') then Ok (Some value) else get m key').
Proof.
  intros Hv Hk Hroom. destruct (valid_insert n m key value Hv Hk Hroom) as [?|(old & m' & ? & ? & ? & _ & ?)];
    [by left|right; by exists old, m'].
Qed.

(** C20: Deletion from a partly resolved canonical trie either stops at an
    unresolved node and leaves the arena as it was; or it returns whether the
    key was there, and afterwards the key is absent while every other lookup is
    what it was.  It never panics, so the branches it collapses have a child
    left. *)
Theorem delete_removes_one_key n m key :
  valid n m → byte_key n key →
  (∃ digest, get m key = Err (NodeNotResolved digest) ∧
     Mpt.delete key m = (Err (NodeNotResolved digest), m)) ∨
  (∃ old m', get m key = Ok old ∧
     Mpt.delete key m = (Ok (bool_decide (old ≠ None)), m') ∧ valid n m' ∧
     ∀ key', byte_key n key' →
       get m' key' = if decide (key = key') then Ok None else get m key').
Proof.
  intros Hv Hk. destruct (valid_delete n m key Hv Hk) as [?|(old & m' & ? & ? & ? & _ & ?)];
    [by left|right; by exists old, m'].
Qed.

(** An arena without cached references. *)
Definition clear_caches (m : Mpt) : Mpt :=
  set_cached_references (replicate (length (cached_references m)) (new_cell None)) m.

Lemma clear_caches_models m t : models m t → models (clear_caches m) t.
Proof.
  intros (a & [Hall Hnd] & Hroot & He & [Hl Hs] & Hwf). exists a.
  split_and!; [split; [|done]|done|done| |done].
  - eapply Forall_impl; [exact Hall|]. intros x [Hx (o & Hc & _)]. split; [done|].
    exists None. split; [|done]. cbn. apply lookup_replicate_2. by eapply lookup_lt_Some.
  - split; [|done]. cbn. by rewrite length_replicate.
Qed.

(** An insertion needs room for the nodes it adds. *)
Definition op_fits (op : operation) (m : Mpt) : Prop :=
  match op with OpInsert _ _ => has_room m | _ => True end.

(** One change of a key: it fails when a lookup of the key does, and changes nothing
    then; else it leaves the lookups of all other keys as they are. *)
Definition changes (op : operation) (key : bytes) : Prop :=
  match op with OpInsert k _ | OpDelete k => k = key | _ => False end.

Lemma run_change n m op key :
  valid n m → byte_key n key → changes op key → op_fits op m →
  (∃ digest, get m key = Err (NodeNotResolved digest) ∧
     run_op op m = (Err (NodeNotResolved digest), m)) ∨
  (∃ old r m', get m key = Ok old ∧ run_op op m = (Ok r, m') ∧ valid n m' ∧
     num_nodes m' ≤ num_nodes m + 3 ∧
     ∀ key', byte_key n key' → key ≠ key' → get m' key' = get m key').
Proof.
  intros Hv Hk Hc Hfits. destruct op as [|k value|k|]; try done; cbn in Hc; subst k; cbn [run_op].
  - destruct (valid_insert n m key value Hv Hk Hfits) as [(d & Hg & Hi)|(old & m' & Hg & Hi & Hv' & Hlen & Hgets)].
    + left. exists d. split; [done|]. unfold mbind, machine_bind. by rewrite Hi.
    + right. do 3 eexists. erewrite machine_bind_ok by exact Hi. split_and!; [done..|].
      intros key' Hk' Hne. rewrite Hgets by done. by rewrite decide_False.
  - destruct (valid_delete n m key Hv Hk) as [(d & Hg & Hi)|(old & m' & Hg & Hi & Hv' & Hlen & Hgets)].
    + left. exists d. split; [done|]. unfold mbind, machine_bind. by rewrite Hi.
    + right. do 3 eexists. erewrite machine_bind_ok by exact Hi. split_and!; [done..|lia|].
      intros key' Hk' Hne. rewrite Hgets by done. by rewrite decide_False.
Qed.

Lemma valid_hash n m : valid n m → ∃ root m', hash m = (Ok root, m') ∧ valid n m' ∧ same_nodes m m'.
Proof.
  intros (t & Hm & Hct & Hu). destruct (models_hash _ _ Hm) as (m' & Hrun & Hm' & Hsame).
  exists (trie_hash t), m'. split_and!; [done|by exists t|done].
Qed.

(** No operation, successful or not, makes a canonical trie or its caches wrong. *)
Lemma run_op_valid n m op :
  valid n m → op_key_ok n op → op_fits op m → valid n (run_op op m).2.
Proof.
  intros Hv Hk Hfits. destruct op as [key|key value|key|].
  - cbn [run_op]. exec. by destruct (get m key).
  - by destruct (run_change n m (OpInsert key value) key Hv Hk eq_refl Hfits)
      as [(d & _ & ->)|(old & r & m' & _ & -> & Hv' & _)].
  - by destruct (run_change n m (OpDelete key) key Hv Hk eq_refl Hfits)
      as [(d & _ & ->)|(old & r & m' & _ & -> & Hv' & _)].
  - cbn [run_op]. destruct (valid_hash n m Hv) as (root & m' & Hrun & Hv' & _).
    by erewrite machine_bind_ok by exact Hrun.
Qed.
End theorems.

(** ** The theorems at concrete inputs *)

(** Two keys that share a nibble, a third one elsewhere. *)
Definition sample_ops : list operation :=
  [OpInsert [0x12; 0x34] [1]; OpHash; OpInsert [0x15; 0x00] [2]; OpInsert [0xab; 0xcd] [3];
   OpHash; OpDelete [0x12; 0x34]; OpGet [0x15; 0x00]]%N.

(** The same contents in another order. *)
Definition sample_ops' : list operation :=
  [OpInsert [0xab; 0xcd] [7]; OpInsert [0x15; 0x00] [2]; OpHash; OpInsert [0xab; 0xcd] [3]]%N.

Lemma operations_refine_map_witness :
  ∃ m, run_ops sample_ops new = (Ok (spec_ops sample_ops ∅).1, m) ∧
       holds 2 m (spec_ops sample_ops ∅).2.
Proof. apply operations_refine_map; [by_computation|vm_compute; reflexivity]. Defined.

Lemma root_hash_order_independent_witness :
  ∃ root, ((run_ops sample_ops;; hash) new).1 = Ok root ∧
          ((run_ops sample_ops';; hash) new).1 = Ok root.
Proof.
  apply (root_hash_order_independent 2); [by_computation..|vm_compute; reflexivity|
    vm_compute; reflexivity|vm_compute; reflexivity].
Defined.

(** A branch with a leaf in slot 1 and an unresolved node in slot 5. *)
Definition partial_atrie : atrie :=
  ABranch 2 (<[1 := Some (ALeaf 0 (hp_encode [2%N] true) [9%N])]>
            (<[5 := Some (ADigest 1 (replicate 32 7%N))]> (replicate 16 None))).

Definition partial_arena : Mpt :=
  mkMpt 2 [Leaf (hp_encode [2%N] true) [9%N]; Digest (replicate 32 7%N);
           Branch (<[1 := Some 0]> (<[5 := Some 1]> no_children))]
    [new_cell None; new_cell (Some (DigestRef (replicate 32 7%N))); new_cell None] (new_cell []).

Lemma partial_slots (P : trie → Prop) :
  P (leaf [2%N] [9%N]) → P (TDigest (replicate 32 7%N)) →
  ∀ i c, (option_map erase <$> (<[1 := Some (ALeaf 0 (hp_encode [2%N] true) [9%N])]>
    (<[5 := Some (ADigest 1 (replicate 32 7%N))]> (replicate 16 None)))) !! i = Some (Some c) → P c.
Proof.
  intros Hl Hd i c Hi. do 16 (destruct i as [|i]; [cbn in Hi; by simplify_eq|]). done.
Qed.

Lemma partial_canonical : canonical_node (erase partial_atrie).
Proof.
  unfold partial_atrie. rewrite erase_branch. constructor; [done|cbn; lia|].
  apply partial_slots; [constructor; by_computation|by constructor].
Qed.

Lemma partial_valid : valid 1 partial_arena.
Proof.
  exists (erase partial_atrie). split_and!; [|right; apply partial_canonical|].
  - exists partial_atrie. split_and!; [split|done|done|done|apply canonical_wf, partial_canonical].
    + assert (cache_ok partial_arena (ADigest 1 (replicate 32 7%N))) as Hd.
      { exists (Some (DigestRef (replicate 32 7%N))). split; [done|by intros ? [= <-]]. }
      assert (∀ a, cached_references partial_arena !! root a = Some (new_cell None) →
        cache_ok partial_arena a) as Hn by (intros a Ha; by exists None).
      repeat constructor; [by apply Hn..|done].
    + by_computation; set_solver.
  - unfold partial_atrie. rewrite erase_branch. change (2 * 1) with 2. constructor.
    apply partial_slots; [by apply uniform_leaf_nibs; by_computation|constructor].
Qed.

Lemma insert_updates_one_key_witness :
  (∃ digest, get partial_arena [0x13%N] = Err (NodeNotResolved digest) ∧
     insert [0x13%N] [5%N] partial_arena = (Err (NodeNotResolved digest), partial_arena)) ∨
  (∃ old m', get partial_arena [0x13%N] = Ok old ∧
     insert [0x13%N] [5%N] partial_arena = (Ok (bool_decide (old ≠ Some [5%N])), m') ∧ valid 1 m' ∧
     ∀ key', byte_key 1 key' →
       get m' key' = if decide ([0x13%N] = key') then Ok (Some [5%N]) else get partial_arena key').
Proof.
  apply (insert_updates_one_key 1 partial_arena [0x13%N] [5%N] partial_valid); by_computation.
Defined.

Lemma delete_removes_one_key_witness :
  (∃ digest, get partial_arena [0x12%N] = Err (NodeNotResolved digest) ∧
     Mpt.delete [0x12%N] partial_arena = (Err (NodeNotResolved digest), partial_arena)) ∨
  (∃ old m', get partial_arena [0x12%N] = Ok old ∧
     Mpt.delete [0x12%N] partial_arena = (Ok (bool_decide (old ≠ None)), m') ∧ valid 1 m' ∧
     ∀ key', byte_key 1 key' →
       get m' key' = if decide ([0x12%N] = key') then Ok None else get partial_arena key').
Proof.
  apply (delete_removes_one_key 1 partial_arena [0x12%N] partial_valid); by_computation.
Defined.
