(* ===== verification/View.v ===== *)
(** * Partial tries stand for full ones

    The client works on tries in which the parts it does not need are digests.
    [view t T]: [t] is the full trie [T] with some hash-addressed subtries
    replaced by their digests.  Both have the same root hash, and an operation
    that succeeds on [t] does to [t] what it does to [T]. *)

From S2P Require Import Prelude External Node Hp Mpt Trie TrieLaws TrieHash.

Section view.
Context `{CratesOk}.

Inductive view : trie → trie → Prop :=
  | view_digest d T : trie_ref T = DigestRef d → view (TDigest d) T
  | view_null : view TNull TNull
  | view_leaf path value : view (TLeaf path value) (TLeaf path value)
  | view_extension path t T : view t T → view (TExtension path t) (TExtension path T)
  | view_branch cs ds :
      length cs = length ds →
      (∀ i c, cs !! i = Some (Some c) → ∃ d, ds !! i = Some (Some d) ∧ view c d) →
      (∀ i, cs !! i = Some None → ds !! i = Some None) →
      view (TBranch cs) (TBranch ds).

Lemma view_slot (cs ds : list (option trie)) i o :
  (∀ i c, cs !! i = Some (Some c) → ∃ d, ds !! i = Some (Some d) ∧ view c d) →
  (∀ i, cs !! i = Some None → ds !! i = Some None) →
  cs !! i = Some o → ∃ o', ds !! i = Some o' ∧ match o, o' with
    | Some c, Some d => view c d
    | None, None => True
    | _, _ => False
    end.
Proof.
  intros Hs Hn Hi. destruct o as [c|]; [destruct (Hs _ _ Hi) as (d & ? & ?)|]; eauto.
  exists None. split; [by apply Hn|done].
Qed.

Lemma view_refl t : view t t.
Proof.
  induction t as [|d|path old|path c IH|cs IH] using trie_nested_ind; constructor; eauto.
Qed.

(** A view has the references of what it stands for. *)
Lemma view_ref t T : view t T → trie_ref t = trie_ref T.
Proof.
  revert T. induction t as [|d|path old|path c IH|cs IH] using trie_nested_ind; intros T Hv;
    inversion Hv as [| | |? ? ? Hc|? ds Hlen Hs Hn]; subst; [done..| |].
  - assert (trie_rlp (TExtension path c) = trie_rlp (TExtension path T0)) as Heq.
    { cbn. fold (trie_ref c) (trie_ref T0). by rewrite (IH T0). }
    unfold trie_ref. by rewrite Heq.
  - assert (slot_bytes <$> cs = slot_bytes <$> ds) as Hslots.
    { apply list_eq. intros i. rewrite !list_lookup_fmap.
      destruct (cs !! i) as [o|] eqn:Hi.
      - destruct (view_slot _ _ _ _ Hs Hn Hi) as (o' & -> & Ho).
        destruct o as [c|], o' as [d|]; try done. cbn. by rewrite (IH _ _ Hi d).
      - apply lookup_ge_None in Hi. by rewrite lookup_ge_None_2 by lia. }
    assert (trie_rlp (TBranch cs) = trie_rlp (TBranch ds)) as Heq.
    { pose proof (trie_rlp_list (TBranch cs)) as H1. pose proof (trie_rlp_list (TBranch ds)) as H2.
      cbn [trie_payload] in H1, H2. by rewrite H1, H2, Hslots. }
    unfold trie_ref. by rewrite Heq.
Qed.

(** ... and so the same root hash. *)
Lemma view_hash t T : view t T → trie_hash t = trie_hash T.
Proof.
  intros Hv. pose proof (view_ref _ _ Hv) as Hr. unfold trie_hash. rewrite <-Hr.
  destruct Hv as [d T HT| | | |]; try done. destruct T; done.
Qed.

Lemma view_get t T key o :
  view t T → trie_get t key = Ok o → trie_get T key = Ok o.
Proof.
  revert T key. induction t as [|d|path old|path c IH|cs IH] using trie_nested_ind; intros T key Hv Hg;
    inversion Hv as [| | |? ? ? Hc|? ds Hlen Hs Hn]; subst; try done.
  - cbn in Hg. by destruct (from_slice d).
  - cbn [trie_get] in *. destruct (strip_prefix _ key) as [tail|]; [|done]. by apply IH.
  - destruct key as [|i tail]; [done|]. rewrite trie_get_branch in *.
    destruct (cs !! N.to_nat i) as [o'|] eqn:Hi; [|done].
    destruct (view_slot _ _ _ _ Hs Hn Hi) as (o'' & -> & Ho).
    destruct o' as [c|], o'' as [d|]; try done. by eapply IH.
Qed.

Lemma view_extension_nibs nibs t T : view t T → view (extension nibs t) (extension nibs T).
Proof. by constructor. Qed.

Lemma view_branch_update cs ds i c d :
  view (TBranch cs) (TBranch ds) → view c d →
  view (TBranch (<[i := Some c]> cs)) (TBranch (<[i := Some d]> ds)).
Proof.
  intros Hv Hc. inversion Hv as [| | | |? ? Hlen Hs Hn]; subst.
  constructor; [by rewrite !length_insert| |].
  - intros j e [(-> & He & Hlt)|[Hne Hj]]%list_lookup_insert_Some.
    + injection He as ->. exists d. rewrite list_lookup_insert_eq by lia. done.
    + rewrite list_lookup_insert_ne by done. by apply Hs.
  - intros j [(-> & ? & _)|[Hne Hj]]%list_lookup_insert_Some; [done|].
    rewrite list_lookup_insert_ne by done. by apply Hn.
Qed.

Lemma view_two_way a x b y x' y' :
  view x x' → view y y' → view (TBranch (two_way a x b y)) (TBranch (two_way a x' b y')).
Proof. intros Hx Hy. unfold two_way. by repeat apply view_branch_update; [apply view_refl| |]. Qed.

Lemma view_fork shared a x b y x' y' :
  view x x' → view y y' → view (fork shared a x b y) (fork shared a x' b y').
Proof.
  intros Hx Hy. unfold fork. destruct shared; [by apply view_two_way|].
  by apply view_extension_nibs, view_two_way.
Qed.

(** An insertion that succeeds on the view does the same to the full trie. *)
Lemma view_insert t T key value r :
  view t T → trie_insert t key value = Ok r →
  ∃ R, trie_insert T key value = Ok R ∧
    match r, R with Some t', Some T' => view t' T' | None, None => True | _, _ => False end.
Proof.
  revert T key r. induction t as [|d|path old|path c IH|cs IH] using trie_nested_ind;
    intros T key r Hv Hins; inversion Hv as [| | |? ? ? Hc|? ds Hlen Hs Hn]; subst.
  - eexists. split; [done|]. injection Hins as <-. apply view_refl.
  - cbn in Hins. by destruct (from_slice d).
  - eexists. split; [exact Hins|]. destruct r; [apply view_refl|done].
  - cbn [trie_insert] in *. destruct (drop _ (prefix_to_nibs path)) as [|a nibs].
    + destruct (trie_insert c _ value) as [r'| | |] eqn:Hc'; try done. injection Hins as <-.
      destruct (IH _ _ _ Hc Hc') as (R & -> & HR). eexists. split; [done|].
      destruct r', R; try done. by constructor.
    + destruct (drop _ key) as [|b key']; [done|]. injection Hins as <-.
      eexists. split; [done|]. apply view_fork; [|apply view_refl].
      destruct nibs; [done|]. by apply view_extension_nibs.
  - destruct key as [|i tail]; [done|]. rewrite trie_insert_branch in *.
    destruct (cs !! N.to_nat i) as [o|] eqn:Hi; [|done].
    destruct (view_slot _ _ _ _ Hs Hn Hi) as (o' & -> & Ho).
    destruct o as [c|], o' as [d|]; try done.
    + destruct (trie_insert c tail value) as [r'| | |] eqn:Hc'; try done. injection Hins as <-.
      destruct (IH _ _ Hi _ _ _ Ho Hc') as (R & -> & HR). eexists. split; [done|].
      destruct r', R; try done. cbn. by apply view_branch_update.
    + injection Hins as <-. eexists. split; [done|]. apply view_branch_update; [done|apply view_refl].
Qed.

(** ** Deletion and unresolved siblings *)

Definition slot_test {A} (f : A → bool) : list (option A) → nat → bool :=
  fix go cs i :=
    match cs, i with
    | Some c :: _, 0 => f c
    | _ :: cs', S i' => go cs' i'
    | _, _ => false
    end.

Lemma slot_test_spec {A} (f : A → bool) cs i :
  slot_test f cs i = match cs !! i with Some (Some c) => f c | _ => false end.
Proof.
  revert i. induction cs as [|o cs IH]; intros [|i]; [done..| |].
  - by destruct o.
  - cbn. destruct o; apply IH.
Qed.

Definition single_digest (cs : list (option trie)) : bool :=
  match remaining_children cs with [(_, TDigest _)] => true | _ => false end.

(** Whether deleting [key] leaves, somewhere on its path, a branch whose only
    child is unresolved, so that it cannot be seen whether the branch should
    merge with that child. *)
Fixpoint collapses_unresolved (t : trie) (key : bytes) : bool :=
  match t with
  | TExtension path c =>
      match strip_prefix (prefix_to_nibs path) key with
      | Some tail => collapses_unresolved c tail
      | None => false
      end
  | TBranch cs =>
      match key with
      | [] => false
      | i :: tail =>
          slot_test
            (λ c, collapses_unresolved c tail ||
                  match trie_delete c tail with
                  | Ok (Some c') => single_digest (<[N.to_nat i := slot_of c']> cs)
                  | _ => false
                  end) cs (N.to_nat i)
      end
  | _ => false
  end.

Lemma view_slot_update cs ds i c d :
  view (TBranch cs) (TBranch ds) → view c d → (slot_of c = None ↔ slot_of d = None) →
  view (TBranch (<[i := slot_of c]> cs)) (TBranch (<[i := slot_of d]> ds)).
Proof.
  intros Hv Hc Hiff. inversion Hv as [| | | |? ? Hlen Hs Hn]; subst.
  constructor; [by rewrite !length_insert| |].
  - intros j e [(-> & He & Hlt)|[Hne Hj]]%list_lookup_insert_Some.
    + rewrite list_lookup_insert_eq by lia.
      assert (e = c) as -> by (destruct c; cbn in He; congruence).
      destruct (slot_of d) as [d'|] eqn:Hd; [|by rewrite (proj2 Hiff) in He].
      exists d'. split; [done|]. by assert (d' = d) as -> by (destruct d; cbn in Hd; congruence).
    + rewrite list_lookup_insert_ne by done. by apply Hs.
  - intros j [(-> & He & Hlt)|[Hne Hj]]%list_lookup_insert_Some.
    + rewrite list_lookup_insert_eq by lia. by rewrite (proj1 Hiff).
    + rewrite list_lookup_insert_ne by done. by apply Hn.
Qed.

Lemma view_remaining cs ds :
  view (TBranch cs) (TBranch ds) →
  Forall2 (λ p q, p.1 = q.1 ∧ view p.2 q.2) (remaining_children cs) (remaining_children ds).
Proof.
  intros Hv. inversion Hv as [| | | |? ? Hlen Hs Hn]; subst. clear Hv.
  revert ds Hlen Hs Hn. induction cs as [|o cs IH]; intros [|o' ds] Hlen Hs Hn; try done.
  rewrite !remaining_children_cons. apply Forall2_app.
  - destruct (view_slot _ _ 0 o Hs Hn eq_refl) as (o'' & [= <-] & Ho).
    destruct o, o'; try done; by repeat constructor.
  - apply Forall2_fmap_2. eapply Forall2_impl; [apply IH|].
    + by injection Hlen.
    + intros i. apply (Hs (S i)).
    + intros i. apply (Hn (S i)).
    + intros [i c] [j d] [Hij Hcd]. cbn in *. by subst.
Qed.

Lemma view_shrink_branch cs ds t :
  view (TBranch cs) (TBranch ds) → single_digest cs = false → shrink_branch cs = Ok t →
  ∃ T, shrink_branch ds = Ok T ∧ view t T ∧ t ≠ TNull ∧ T ≠ TNull.
Proof.
  intros Hv Hd Hs. pose proof (view_remaining _ _ Hv) as Hrem.
  unfold shrink_branch, single_digest in *.
  destruct Hrem as [|[i c] [j d] rem rem' [Hij Hcd] Hrem]; [done|]. cbn in Hij, Hcd. subst j.
  destruct Hrem as [|? ? ? ? _ Hrem].
  - destruct Hcd as [d' T HT| |path v|path c d Hcd|cs' ds' Hl Hs' Hn']; try done;
      injection Hs as <-; eexists; (split; [done|]); (split; [|done]).
    + apply view_refl.
    + by apply view_extension_nibs.
    + apply view_extension_nibs. by constructor.
  - injection Hs as <-. by eexists.
Qed.

Lemma view_shrink_extension path c d :
  view c d → (∀ h, c ≠ TDigest h) →
  view (shrink_extension path c) (shrink_extension path d).
Proof.
  intros [h T HT| |path' v|path' c' d' Hcd|cs' ds' Hl Hs' Hn'] Hh; cbn.
  - by exfalso; eapply Hh.
  - constructor.
  - apply view_refl.
  - by apply view_extension_nibs.
  - constructor. by constructor.
Qed.

Lemma trie_delete_not_digest t key t' h :
  trie_delete t key = Ok (Some t') → t' ≠ TDigest h.
Proof.
  destruct t as [|d|path v|path c|cs]; cbn [trie_delete].
  - done.
  - by destruct (from_slice d).
  - by case_decide; intros [= <-].
  - destruct (strip_prefix _ key); [|done]. intros (c' & _ & ->)%fmap_Ok_Some. by destruct c'.
  - destruct key as [|i tail]; [done|]. rewrite at_slot_spec.
    destruct (cs !! _) as [[c|]|]; [|done..].
    destruct (trie_delete c tail) as [[c'|]| | |]; try done. cbn.
    destruct (shrink_branch _) as [T| | |] eqn:Hs; [|done..]. intros [= <-].
    unfold shrink_branch in Hs. repeat case_match; by simplify_eq.
Qed.

(** A deletion that succeeds on the view and sees the siblings it merges with
    does the same to the full trie. *)
Lemma view_delete t T key r :
  view t T → collapses_unresolved t key = false → trie_delete t key = Ok r →
  ∃ R, trie_delete T key = Ok R ∧
    match r, R with
    | Some t', Some T' => view t' T' ∧ (t' = TNull ↔ T' = TNull)
    | None, None => True
    | _, _ => False
    end.
Proof.
  revert T key r. induction t as [|d|path old|path c IH|cs IH] using trie_nested_ind;
    intros T key r Hv Hsafe Hdel; inversion Hv as [| | |? ? ? Hc|? ds Hlen Hs Hn]; subst.
  - eexists. split; [done|]. by injection Hdel as <-.
  - cbn in Hdel. by destruct (from_slice d).
  - eexists. split; [exact Hdel|]. destruct r; [|done]. split; [apply view_refl|done].
  - cbn [trie_delete collapses_unresolved] in *.
    destruct (strip_prefix _ key) as [tail|]; [|injection Hdel as <-; by eexists].
    destruct (trie_delete c tail) as [r'| | |] eqn:Hc'; try done. injection Hdel as <-.
    destruct (IH _ _ _ Hc Hsafe Hc') as (R & -> & HR). eexists. split; [done|].
    destruct r' as [c'|], R as [C'|]; try done. destruct HR as [HR Hnull]. cbn. split.
    + apply view_shrink_extension; [done|]. intros h. by eapply trie_delete_not_digest.
    + destruct c', C'; naive_solver.
  - destruct key as [|i tail]; [done|]. rewrite trie_delete_branch in *.
    cbn [collapses_unresolved] in Hsafe. rewrite slot_test_spec in Hsafe.
    destruct (cs !! N.to_nat i) as [o|] eqn:Hi; [|done].
    destruct (view_slot _ _ _ _ Hs Hn Hi) as (o' & -> & Ho).
    destruct o as [c|], o' as [d|]; try done; [|injection Hdel as <-; by eexists].
    apply orb_false_iff in Hsafe as [Hsafe Hsingle].
    destruct (trie_delete c tail) as [r'| | |] eqn:Hc'; try done. cbn in Hdel.
    destruct (IH _ _ Hi _ _ _ Ho Hsafe Hc') as (R & -> & HR). cbn.
    destruct r' as [c'|], R as [C'|]; try done; [|injection Hdel as <-; by eexists].
    destruct HR as [HR Hnull].
    destruct (shrink_branch _) as [t'| | |] eqn:Hshrink; try done. injection Hdel as <-.
    assert (view (TBranch (<[N.to_nat i := slot_of c']> cs))
                 (TBranch (<[N.to_nat i := slot_of C']> ds))) as Hupd.
    { apply view_slot_update; [done..|]. destruct c', C'; naive_solver. }
    destruct (view_shrink_branch _ _ _ Hupd Hsingle Hshrink) as (T' & -> & HT & ? & ?).
    eexists. split; [done|]. cbn. split; [done|naive_solver].
Qed.
End view.
