(* ===== verification/Stateless.v ===== *)
(** * Running on a witness

    The client does not have the whole state trie, only the part its block
    touches.  Here: what it computes on that part is what would be computed on
    the whole trie. *)

From S2P Require Import Prelude External Concrete Node Hp Mpt Trie TrieLaws Canon TrieHash.
From S2P Require Import MptRefine MptHash MptSpec TrieMap View.

Section stateless.
Context `{CratesOk}.

(** The arena holds a partial view of the canonical trie of [M]. *)
Definition views (n : nat) (m : Mpt) (M : gmap bytes bytes) : Prop :=
  ∃ t T, models m t ∧ canonical t ∧ uniform (2 * n) t ∧ view t T ∧
    canonical T ∧ uniform (2 * n) T ∧ resolved T ∧ contents n T M.

(** The arena has the root hash of [M] and never tells anything wrong of it: it
    holds a partial view, or, for the empty map, only the digest of the empty
    trie, on which every lookup and every change fails. *)
Definition stands_for (n : nat) (m : Mpt) (M : gmap bytes bytes) : Prop :=
  views n m M ∨ (M = ∅ ∧ models m (TDigest EMPTY_ROOT_HASH)).

(** Deletions of the run never leave a branch with one unresolved child. *)
Definition sees_siblings (m : Mpt) (op : operation) : Prop :=
  match op with
  | OpDelete key => ∀ t, models m t → collapses_unresolved t (to_nibs key) = false
  | _ => True
  end.

Fixpoint sees_all (m : Mpt) (ops : list operation) : Prop :=
  match ops with
  | [] => True
  | op :: ops' => sees_siblings m op ∧ sees_all (run_op op m).2 ops'
  end.

Lemma empty_digest_from_slice : from_slice (E:=Error) EMPTY_ROOT_HASH = Ok EMPTY_ROOT_HASH.
Proof. apply from_slice_ok. auto with reth. Qed.

Lemma stands_for_valid n m M : stands_for n m M → valid n m.
Proof.
  intros [(t & T & Hm & Hct & Hu & _)|[_ Hm]]; [by exists t|].
  exists (TDigest EMPTY_ROOT_HASH). split_and!; [done|right; constructor; auto with reth|constructor].
Qed.

Lemma stands_for_get n m M key o :
  stands_for n m M → byte_key n key → get m key = Ok o → o = M !! key.
Proof.
  intros [(t & T & Hm & _ & _ & Hv & _ & _ & _ & Hc)|[_ Hm]] Hk Hg; rewrite (models_get _ _ _ Hm) in Hg.
  - apply (view_get _ T) in Hg; [|done]. destruct Hc as [Hc _]. rewrite Hc in Hg by done. congruence.
  - cbn in Hg. by rewrite empty_digest_from_slice in Hg.
Qed.

Lemma stands_for_insert n m M key value b m' :
  stands_for n m M → byte_key n key → has_room m → insert key value m = (Ok b, m') →
  b = bool_decide (M !! key ≠ Some value) ∧ stands_for n m' (<[key := value]> M) ∧
  num_nodes m' ≤ num_nodes m + 3.
Proof.
  intros [(t & T & Hm & Hct & Hu & Hv & HcT & HuT & HrT & Hc)|[_ Hm]] Hk Hroom Hrun; last first.
  { pose proof (models_insert m _ (to_nibs key) value Hm (proj1 (byte_key_nibs _ _ Hk)) Hroom) as Hins.
    cbn in Hins. rewrite empty_digest_from_slice in Hins. cbn in Hins. unfold insert in Hrun.
    unfold insert_nibbles in Hins. congruence. }
  pose proof (models_wf _ _ Hm) as Hwf. destruct (byte_key_nibs _ _ Hk) as [Hn Hl].
  assert (well_formed T) as HwT by (destruct HcT as [->|]; [constructor|by apply canonical_wf]).
  pose proof (models_insert m t (to_nibs key) value Hm Hn Hroom) as Hins.
  pose proof (trie_insert_contents n T M key value HcT HuT HrT Hc HwT Hk) as HT.
  change (insert key value m) with (insert_nibbles (to_nibs key) value m) in Hrun.
  destruct (trie_insert t (to_nibs key) value) as [r| | |] eqn:Ht; try done; [|congruence].
  destruct (view_insert t T (to_nibs key) value r Hv Ht) as (R & HR & Hview). rewrite HR in HT.
  destruct r as [t'|], R as [T'|]; try done.
  - destruct Hins as (m'' & Hrun' & Hm' & Hlen). rewrite Hrun in Hrun'. simplify_eq.
    destruct HT as (Hne & HcT' & HuT' & HrT' & Hc'). rewrite bool_decide_eq_true_2 by done.
    split_and!; [done| |done]. left. exists t', T'. split_and!; try done.
    + right. by eapply trie_insert_canonical.
    + by eapply trie_insert_uniform.
  - rewrite Hrun in Hins. simplify_eq. rewrite bool_decide_eq_false_2 by naive_solver.
    rewrite insert_id by done. split_and!; [done| |lia]. left. by exists t, T.
Qed.

Lemma stands_for_delete n m M key b m' :
  stands_for n m M → byte_key n key → sees_siblings m (OpDelete key) →
  Mpt.delete key m = (Ok b, m') →
  b = bool_decide (is_Some (M !! key)) ∧ stands_for n m' (base.delete key M) ∧
  num_nodes m' = num_nodes m.
Proof.
  intros [(t & T & Hm & Hct & Hu & Hv & HcT & HuT & HrT & Hc)|[_ Hm]] Hk Hsafe Hrun; last first.
  { pose proof (models_delete m _ (to_nibs key) Hm (proj1 (byte_key_nibs _ _ Hk))) as Hdel.
    cbn in Hdel. rewrite empty_digest_from_slice in Hdel. cbn in Hdel. unfold Mpt.delete in Hrun.
    unfold delete_nibbles in Hdel. congruence. }
  pose proof (models_wf _ _ Hm) as Hwf. destruct (byte_key_nibs _ _ Hk) as [Hn Hl].
  pose proof (models_delete m t (to_nibs key) Hm Hn) as Hdel.
  pose proof (trie_delete_contents n T M key HcT HuT HrT Hc Hk) as HT.
  change (Mpt.delete key m) with (delete_nibbles (to_nibs key) m) in Hrun.
  pose proof (trie_delete_canonical t (to_nibs key) Hct Hn) as Hcan.
  destruct (trie_delete t (to_nibs key)) as [r|e| |] eqn:Ht; try done; [|congruence].
  destruct (view_delete t T (to_nibs key) r Hv (Hsafe t Hm) Ht) as (R & HR & Hview). rewrite HR in HT.
  destruct r as [t'|], R as [T'|]; try done.
  - destruct Hdel as (m'' & Hrun' & Hm' & Hlen). rewrite Hrun in Hrun'. simplify_eq.
    destruct HT as (Hne & HcT' & HuT' & HrT' & Hc'). rewrite bool_decide_eq_true_2 by done.
    split_and!; [done| |done]. left. exists t', T'. split_and!; try done; [|by apply Hview].
    by eapply trie_delete_uniform.
  - rewrite Hrun in Hdel. simplify_eq. rewrite HT, bool_decide_eq_false_2 by (by intros []).
    rewrite delete_id by done. split_and!; [done| |done]. left. by exists t, T.
Qed.

Lemma stands_for_hash n m M :
  stands_for n m M → ∃ m', hash m = (Ok (map_root M), m') ∧ stands_for n m' M ∧ same_nodes m m'.
Proof.
  intros [(t & T & Hm & Hct & Hu & Hv & HcT & HuT & HrT & Hc)|[-> Hm]];
    destruct (models_hash _ _ Hm) as (m' & Hrun & Hm' & Hsame); exists m'; last first.
  { split_and!; [by rewrite Hrun|by right|done]. }
  split_and!; [|left; by exists t, T|done].
  rewrite Hrun, (view_hash _ _ Hv). do 2 f_equal. unfold map_root. f_equal.
  destruct (trie_of_list_ok n (map_to_list M)) as (Hct' & Hu' & Hr' & _ & Hc').
  { apply Forall_forall. intros [k v] Hin. apply elem_of_map_to_list in Hin.
    destruct Hc as [_ Hkeys]. apply Hkeys. by eexists. }
  rewrite list_to_map_to_list in Hc'. by eapply contents_unique.
Qed.

Lemma stands_for_step n m M op r m' :
  stands_for n m M → op_key_ok n op → sees_siblings m op → has_room m →
  run_op op m = (Ok r, m') →
  r = (spec_op op M).1 ∧ stands_for n m' (spec_op op M).2 ∧ num_nodes m' ≤ num_nodes m + 3.
Proof.
  intros Hh Hk Hsee Hroom Hrun. destruct op as [key|key value|key|]; cbn [run_op spec_op fst snd] in *.
  - revert Hrun. exec. intros Hrun.
    apply machine_bind_inv in Hrun as (o & m1 & Hg & Hret). injection Hg as Hg <-.
    injection Hret as <- <-. rewrite (stands_for_get _ _ _ _ _ Hh Hk Hg). split_and!; [done|done|lia].
  - apply machine_bind_inv in Hrun as (b & m1 & Hi & Hret). injection Hret as <- <-.
    by destruct (stands_for_insert _ _ _ _ _ _ _ Hh Hk Hroom Hi) as (-> & ? & ?).
  - apply machine_bind_inv in Hrun as (b & m1 & Hd & Hret). injection Hret as <- <-.
    destruct (stands_for_delete _ _ _ _ _ _ Hh Hk Hsee Hd) as (-> & ? & ?).
    split_and!; [done|done|lia].
  - apply machine_bind_inv in Hrun as (h & m1 & Hhash & Hret). injection Hret as <- <-.
    destruct (stands_for_hash _ _ _ Hh) as (m2 & Hrun & Hh' & [_ Hnodes]).
    rewrite Hhash in Hrun. simplify_eq. split_and!; [done|done|].
    unfold num_nodes. rewrite Hnodes. lia.
Qed.

Lemma run_ops_sound n m M ops rs m' :
  stands_for n m M → Forall (op_key_ok n) ops → sees_all m ops →
  (N.of_nat (num_nodes m) + 3 * N.of_nat (length ops) + 3 < u32_modulus)%N →
  run_ops ops m = (Ok rs, m') →
  rs = (spec_ops ops M).1 ∧ stands_for n m' (spec_ops ops M).2.
Proof.
  intros Hh Hops. revert m M rs Hh.
  induction Hops as [|op ops Hop Hops IH]; intros m M rs Hh Hsee Hlen Hrun.
  { injection Hrun as <- <-. done. }
  cbn [length] in Hlen. destruct Hsee as [Hsee Hsees]. unfold run_ops in Hrun.
  cbn [mapM spec_ops] in *. apply machine_bind_inv in Hrun as (r & m1 & Hrun1 & Hrun).
  apply machine_bind_inv in Hrun as (rs' & m2 & Hrun2 & Hret). injection Hret as <- <-.
  rewrite Hrun1 in Hsees.
  destruct (stands_for_step n m M op r m1) as (-> & Hh1 & Hn); [done|done|done|unfold has_room; lia|done|].
  destruct (spec_op op M) as [r M1]. cbn [fst snd] in *.
  destruct (IH m1 M1 rs' Hh1) as [-> Hh2]; [done|lia|done|].
  by destruct (spec_ops ops M1) as [rs M2].
Qed.

(** C16: Stateless execution is sound: when a sequence of operations succeeds on a
    partial view of a trie (an operation that meets an unresolved node fails),
    and its deletions see the siblings they merge with, then what it returns,
    root hashes included, is what it returns on the whole contents, and the
    arena it leaves is a partial view of the resulting contents. *)
Theorem witness_run_sound n m M ops rs m' :
  stands_for n m M → Forall (op_key_ok n) ops → sees_all m ops →
  (N.of_nat (num_nodes m) + 3 * N.of_nat (length ops) + 3 < u32_modulus)%N →
  run_ops ops m = (Ok rs, m') →
  rs = (spec_ops ops M).1 ∧ stands_for n m' (spec_ops ops M).2.
Proof. apply run_ops_sound. Qed.
End stateless.

(** ** A witness with one unresolved leaf *)

Definition sample_contents : list (bytes * bytes) :=
  [([0x12%N], [9%N]); ([0x56%N], replicate 40 7%N); ([0x90%N], [1%N])].

Definition hidden_digest : bytes := Eval vm_compute in keccak256 (trie_rlp (leaf [6%N] (replicate 40 7%N))).

(** The branch over the three leaves, the second of them given by [hidden]. *)
Definition sample_slots {A} (a hidden c : A) : list (option A) :=
  <[9 := Some c]> (<[5 := Some hidden]> (<[1 := Some a]> (replicate 16 None))).

Definition sample_view : atrie :=
  ABranch 3 (sample_slots (ALeaf 0 (hp_encode [2%N] true) [9%N]) (ADigest 1 hidden_digest)
    (ALeaf 2 (hp_encode [0%N] true) [1%N])).

Definition sample_arena : Mpt :=
  mkMpt 3 [Leaf (hp_encode [2%N] true) [9%N]; Digest hidden_digest;
           Leaf (hp_encode [0%N] true) [1%N]; Branch (sample_slots 0 1 2)]
    (replicate 4 (new_cell None)) (new_cell []).

(** A fact about the three children holds for every slot. *)
Lemma sample_slots_forall {A} (a h c : A) (P : nat → A → Prop) :
  P 1 a → P 5 h → P 9 c → ∀ i x, sample_slots a h c !! i = Some (Some x) → P i x.
Proof.
  intros Ha Hh Hc i x Hi. do 16 (destruct i as [|i]; [cbn in Hi; by simplify_eq|]). done.
Qed.

Lemma hidden_digest_length : length hidden_digest = 32.
Proof. reflexivity. Qed.

Lemma sample_represents : represents sample_arena sample_view.
Proof.
  split; [|by_computation; set_solver].
  assert (∀ a, nodes sample_arena !! root a = Some (data a) → root a < 4 → node_ok sample_arena a)
    as Hok.
  { intros a Hn Hlt. split; [done|]. exists None. split; [|done]. by apply lookup_replicate_2. }
  repeat constructor; apply Hok; (reflexivity || (cbn; lia)).
Qed.

Lemma sample_view_slots :
  erase sample_view = TBranch (sample_slots (leaf [2%N] [9%N]) (TDigest hidden_digest) (leaf [0%N] [1%N])).
Proof. reflexivity. Qed.

Lemma sample_canonical : canonical_node (erase sample_view).
Proof.
  rewrite sample_view_slots. constructor; [done|cbn; lia|].
  apply (sample_slots_forall _ _ _ (λ _, canonical_node)); constructor; by_computation || apply hidden_digest_length.
Qed.

Lemma sample_stands_for : stands_for 1 sample_arena (list_to_map sample_contents).
Proof.
  destruct (trie_of_list_ok 1 sample_contents) as (Hct & Hu & Hr & _ & Hc); [by_computation|].
  left. exists (erase sample_view), (trie_of_list sample_contents). split_and!; try done.
  - exists sample_view. split_and!; [apply sample_represents|done..|apply canonical_wf, sample_canonical].
  - right. apply sample_canonical.
  - rewrite sample_view_slots. change (2 * 1) with 2. constructor.
    apply (sample_slots_forall _ _ _ (λ _, uniform 1));
      [apply uniform_leaf_nibs; by_computation|constructor|apply uniform_leaf_nibs; by_computation].
  - assert (trie_of_list sample_contents = TBranch (sample_slots (leaf [2%N] [9%N])
      (leaf [6%N] (replicate 40 7%N)) (leaf [0%N] [1%N]))) as -> by (vm_compute; reflexivity).
    rewrite sample_view_slots. constructor; [done| |].
    + apply (sample_slots_forall _ _ _ (λ i c, ∃ d, _ !! i = Some (Some d) ∧ view c d));
        (eexists; split; [reflexivity|constructor]). vm_compute. reflexivity.
    + intros i Hi. do 16 (destruct i as [|i]; [cbn in Hi |- *; by simplify_eq|]). done.
Qed.

Definition sample_run : list operation :=
  [OpGet [0x12%N]; OpInsert [0x13%N] [4%N]; OpHash; OpInsert [0x90%N] [2%N]; OpHash].

Lemma witness_run_sound_witness :
  match run_ops sample_run sample_arena with
  | (Ok rs, m') =>
      rs = (spec_ops sample_run (list_to_map sample_contents)).1 ∧
      stands_for 1 m' (spec_ops sample_run (list_to_map sample_contents)).2
  | _ => False
  end.
Proof.
  assert (succeeds (run_ops sample_run sample_arena).1 = true) as Hok by (vm_compute; reflexivity).
  destruct (run_ops sample_run sample_arena) as [[rs| | |] m'] eqn:Hrun; try discriminate Hok.
  eapply (witness_run_sound 1 sample_arena (list_to_map sample_contents) sample_run);
    [apply sample_stands_for|by_computation|by repeat split|vm_compute; reflexivity|exact Hrun].
Defined.

(** ** A deletion next to an unresolved node *)

(** The same two keys, the second leaf in memory or as its digest. *)
Definition resolved_pair : Mpt :=
  mkMpt 2 [Leaf (hp_encode [2%N] true) [9%N]; Leaf (hp_encode [6%N] true) (replicate 40 7%N);
           Branch (<[5 := Some 1]> (<[1 := Some 0]> no_children))]
    (replicate 3 (new_cell None)) (new_cell []).

Definition unresolved_pair : Mpt :=
  mkMpt 2 [Leaf (hp_encode [2%N] true) [9%N]; Digest hidden_digest;
           Branch (<[5 := Some 1]> (<[1 := Some 0]> no_children))]
    (replicate 3 (new_cell None)) (new_cell []).

(** C25: Two arenas with the same root hash, one with a leaf resolved and one with
    its digest.  Deleting the other key succeeds in both, but the roots differ
    afterwards: [delete_internal] puts an extension over the digest, which is the
    canonical shape only when the digest hides a branch. *)
Theorem delete_beside_unresolved_leaf_diverges :
  (hash resolved_pair).1 = (hash unresolved_pair).1 ∧
  (Mpt.delete [0x12%N] resolved_pair).1 = Ok true ∧
  (Mpt.delete [0x12%N] unresolved_pair).1 = Ok true ∧
  ((Mpt.delete [0x12%N];; hash) resolved_pair).1 ≠ ((Mpt.delete [0x12%N];; hash) unresolved_pair).1.
Proof.
  refine (conj _ (conj _ (conj _ _))); [vm_compute; reflexivity..|vm_compute; discriminate].
Qed.
