(* ===== verification/Codec.v ===== *)
(** * Serialized tries ([encode_trie], [decode_trie] of [crates/mpt/src/trie.rs])

    A trie travels as the RLP encodings of its nodes in depth-first order, each
    padded to the word size.  [decode_trie] checks every node against the
    reference in its parent while it rebuilds the arena. *)

From S2P Require Import Prelude External Node Hp Mpt.

Section encoding.
Context `{Crates}.

(** [(MIN_ALIGN - (len % MIN_ALIGN)) % MIN_ALIGN] *)
Definition padding_len (len : nat) : nat := (MIN_ALIGN - len `mod` MIN_ALIGN) `mod` MIN_ALIGN.

(** The bytes [encode_trie_internal] writes to [out]. *)
Fixpoint encode_trie_internal (fuel : nat) (id : NodeId) : machine Mpt Error bytes :=
  match fuel with
  | 0 => lift OutOfFuel
  | S fuel' =>
      m ← get_state;
      let calc := calc_reference (mpt_fuel m) in
      plen ← payload_length calc id;
      encoded ← encode_with_payload_len calc id plen;
      let rlp_length := plen + length_of_length plen in
      let padding := replicate (padding_len rlp_length) 0%N in
      data ← node_at id;
      below ← match data with
              | Branch childs =>
                  outs ← mapM (λ c, match c with
                                    | Some child_id => encode_trie_internal fuel' child_id
                                    | None => mret []
                                    end) childs;
                  mret (concat outs)
              | Extension _ ext_id => encode_trie_internal fuel' ext_id
              | _ => mret []
              end;
      mret (encoded ++ padding ++ below)
  end.

Definition encode_trie : machine Mpt Error bytes :=
  m ← get_state; encode_trie_internal (mpt_fuel m) (root_id m).

Definition encoded_subtrie (id : NodeId) : machine Mpt Error bytes :=
  m ← get_state; encode_trie_internal (mpt_fuel m) id.

Fixpoint subtree_num_nodes (fuel : nat) (m : Mpt) (id : NodeId) : outcome Error nat :=
  match fuel with
  | 0 => OutOfFuel
  | S fuel' =>
      data ← index (nodes m) id;
      match data with
      | Branch children =>
          counts ← mapM (λ c, match c with
                              | Some child => subtree_num_nodes fuel' m child
                              | None => Ok 0
                              end) children;
          Ok (1 + sum_list counts)
      | Extension _ child => n ← subtree_num_nodes fuel' m child; Ok (1 + n)
      | _ => Ok 1
      end
  end.
End encoding.

Section decoding.
Context `{Crates}.

(** The trie being built and the rest of the input. *)
Record Decoder : Type := mkDecoder { dec_trie : Mpt; dec_bytes : bytes }.

(** [let (bytes, rest) = buf.split_at(cnt); *buf = rest; bytes] *)
Definition advance_unchecked {E} (buf : bytes) (cnt : nat) : outcome E (bytes * bytes) :=
  if decide (cnt ≤ length buf) then Ok (take cnt buf, drop cnt buf) else Panic SliceOutOfBounds.

(** [Header::decode(&mut buf)?] and the advance over the payload: list flag,
    payload, the whole item, the rest of the buffer. *)
Definition decode_item (buf : bytes) : outcome Error (bool * bytes * bytes * bytes) :=
  '(list, payload_length, after_header) ← map_err RlpError (header_decode buf);
  '(payload, rest) ← advance_unchecked after_header payload_length;
  item ← slice_to buf (length buf - length rest);
  Ok (list, payload, item, rest).

Definition set_dec_bytes (b : bytes) : machine Decoder Error unit :=
  modify (λ s, mkDecoder (dec_trie s) b).

Definition dec_add_node (data : NodeData) (r : NodeRef) : machine Decoder Error NodeId := λ s,
  let '(o, trie) := add_node data (Some r) (dec_trie s) in (o, mkDecoder trie (dec_bytes s)).

(** The reference of a node read as [rlp_node], checked against the parent's. *)
Definition check_reference (list : bool) (payload rlp_node : bytes) (expected : NodeRef)
  : outcome Error NodeRef :=
  if decide (length rlp_node < 32) then
    if decide (rlp_node ≠ as_slice expected) then Err NodeRefMismatch else Ok (BytesRef rlp_node)
  else if decide (length payload = 32 ∧ list = false) then
    if decide (payload ≠ as_slice expected) then Err NodeRefMismatch else Ok expected
  else
    let digest := keccak256 rlp_node in
    if decide (digest ≠ as_slice expected) then Err NodeRefMismatch else Ok expected.

Section open_recursion.
Variable decode_child : NodeRef → machine Decoder Error NodeId.

(** A slot of a branch, given the item that refers to it. *)
Definition decode_slot (item : bytes) : machine Decoder Error (option NodeId) :=
  let expected := from_rlp_slice item in
  if decide (as_slice expected = NULL_NODE_REF_SLICE) then mret None
  else id ← decode_child expected; mret (Some id).

(** [for child in &mut childs[2..]]: the slots and the payload after them. *)
Fixpoint decode_slots (count : nat) (payload : bytes)
  : machine Decoder Error (list (option NodeId) * bytes) :=
  match count with
  | 0 => mret ([], payload)
  | S count' =>
      '(_, _, item, payload') ← lift (decode_item payload);
      child ← decode_slot item;
      '(childs, payload'') ← decode_slots count' payload';
      mret (child :: childs, payload'')
  end.

(** The part of [decode_trie_internal] after the reference check, for a list. *)
Definition decode_list (payload : bytes) (node_ref : NodeRef) : machine Decoder Error NodeId :=
  '(_, item0_payload, item0, payload1) ← lift (decode_item payload);
  '(_, item1_payload, item1, payload2) ← lift (decode_item payload1);
  match payload2 with
  | [] =>
      let path := item0_payload in
      prefix ← lift (index path 0);
      if decide (u8_and prefix (u8_shl 2 4) = 0%N) then
        ext_node_id ← decode_child (from_rlp_slice item1);
        dec_add_node (Extension path ext_node_id) node_ref
      else dec_add_node (Leaf path item1_payload) node_ref
  | _ =>
      child0 ← decode_slot item0;
      child1 ← decode_slot item1;
      '(childs, rest) ← decode_slots 14 payload2;
      if decide (rest ≠ NULL_NODE_REF_SLICE) then throw ValueInBranch
      else dec_add_node (Branch (child0 :: child1 :: childs)) node_ref
  end.
End open_recursion.

Fixpoint decode_trie_internal (fuel : nat) (expected_node_ref : NodeRef)
  : machine Decoder Error NodeId :=
  match fuel with
  | 0 => lift OutOfFuel
  | S fuel' =>
      s ← get_state;
      '(list, payload, rlp_node, rest) ← lift (decode_item (dec_bytes s));
      '(_, rest') ← lift (advance_unchecked rest (padding_len (length rlp_node)));
      set_dec_bytes rest';;
      node_ref ← lift (check_reference list payload rlp_node expected_node_ref);
      if (list : bool) then decode_list (decode_trie_internal fuel') payload node_ref
      else if decide (length payload = 0) then mret NULL_NODE_ID
      else if decide (length payload = 32) then dec_add_node (Digest payload) (DigestRef payload)
      else throw (RlpError UnexpectedLength)
  end.

(** The reference the first node of the input must have. *)
Definition root_reference (buf : bytes) : outcome Error NodeRef :=
  '(list, payload, rlp_node, _) ← decode_item buf;
  if decide (length rlp_node < 32) then Ok (BytesRef rlp_node)
  else if negb list then Ok (DigestRef payload)
  else Ok (DigestRef (keccak256 rlp_node)).

(** Every call reads at least one byte, so the length of the input is enough
    fuel.  The result has the rest of the input with it. *)
Definition decode_trie (buf : bytes) (num_nodes : nat) : outcome Error (Mpt * bytes) :=
  if decide (buf = [EMPTY_STRING_CODE; 0%N; 0%N; 0%N]) then Ok (new, buf)
  else
    let capacity := num_nodes + num_nodes / 2 in
    let trie := with_capacity capacity in
    root_ref ← root_reference buf;
    match decode_trie_internal (S (length buf)) root_ref (mkDecoder trie buf) with
    | (Ok root_id, s) => Ok (set_root_id root_id (dec_trie s), dec_bytes s)
    | (Err e, _) => Err e
    | (Panic p, _) => Panic p
    | (OutOfFuel, _) => OutOfFuel
    end.
End decoding.
