(* ===== verification/CodecLaws.v ===== *)
(** * What serialization and its inverse do

    The arena routines of [Codec.v] against the tree: [encode_trie] writes
    [trie_encode], [decode_trie] reads it back, and whatever [decode_trie]
    accepts under the root of a trie is a partial view of that trie. *)

From S2P Require Import Prelude External Node Hp Mpt Trie TrieLaws TrieHash MptRefine MptHash.
From S2P Require Import MptSpec View Codec.

Section encoding.
Context `{CratesOk}.

Definition padding (len : nat) : bytes := replicate (padding_len len) 0%N.

(** A node's encoding and its padding. *)
Definition padded (t : trie) : bytes := trie_rlp t ++ padding (length (trie_rlp t)).

Fixpoint trie_encode (t : trie) : bytes :=
  padded t ++
  match t with
  | TExtension _ c => trie_encode c
  | TBranch cs => concat (map (λ o, match o with Some c => trie_encode c | None => [] end) cs)
  | _ => []
  end.

(** [payload_length] of a node. *)
Definition payload_len (t : trie) : nat :=
  match t with TDigest _ => 32 | _ => length (trie_payload t) end.

Lemma payload_len_rlp t :
  well_formed t → length (trie_rlp t) = payload_len t + length_of_length (payload_len t).
Proof.
  intros Hwf. pose proof (trie_rlp_list t) as Hr.
  destruct Hwf as [|d Hd| | |]; cbn [payload_len]; rewrite Hr.
  - cbn. by rewrite length_of_length_short by lia.
  - rewrite slice_encode_B256 by done. cbn. rewrite Hd. by rewrite length_of_length_short by lia.
  - rewrite list_rlp_length. lia.
  - rewrite list_rlp_length. lia.
  - rewrite list_rlp_length. lia.
Qed.

(** What is kept by everything that only fills caches. *)
Definition good (m : Mpt) (a : atrie) : Prop := Forall (node_ok m) (subtries a) ∧ NoDup (ids a).

Lemma fills_node_ok m m' owned x :
  fills m m' owned → root x ∉ owned → node_ok m x → node_ok m' x.
Proof. intros Hf Ho [Hs Hc]. split; [by eapply fills_stored|by eapply fills_cache_ok]. Qed.

(** Encoding one node. *)
Lemma encode_node_spec a m :
  good m a → well_formed (erase a) → scratch_free m → height (erase a) ≤ mpt_fuel m →
  ∃ m', (plen ← payload_length (calc_reference (mpt_fuel m)) (root a);
         encoded ← encode_with_payload_len (calc_reference (mpt_fuel m)) (root a) plen;
         mret (plen, encoded)) m =
      (Ok (payload_len (erase a), trie_rlp (erase a)), m') ∧
    fills m m' (root <$> below a) ∧ Forall (node_ok m') (subtries a).
Proof.
  intros [Hall Hnd] Hwf Hfree Hf. apply NoDup_cons in Hnd as [Hnin Hnd].
  fold (root <$> below a) in *. inversion Hall as [|? ? Hroot Hbelow]; subst.
  destruct (payload_length_spec (mpt_fuel m) a m) as (m1 & Hlen & Hf1 & Hok1 & Hc1); try done.
  { intros c Hc. pose proof (child_of_height _ _ Hc).
    apply calc_reference_spec; [by eapply child_of_wf|by eapply child_of_NoDup|lia]. }
  { apply Hroot. }
  assert (stored m1 a) as Hs1 by (eapply fills_stored; [done|apply Hroot]).
  assert (encode_with_payload_len (calc_reference (mpt_fuel m)) (root a) (payload_len (erase a)) m1
    = (Ok (trie_rlp (erase a)), m1)) as Henc.
  { destruct a as [i|i d|i p v|i p c|i cs]; try (by apply encode_cached).
    unfold encode_with_payload_len. by erewrite machine_bind_ok by (by apply node_at_ok). }
  exists m1. erewrite machine_bind_ok.
  - erewrite machine_bind_ok by exact Henc. split; [done|]. split; [done|].
    constructor; [by eapply fills_node_ok|].
    rewrite Forall_forall in Hbelow, Hok1 |- *. intros x Hx. split; [|by apply Hok1].
    eapply fills_stored; [done|]. by apply Hbelow.
  - rewrite Hlen. by destruct a.
Qed.

(** What encoding the subtree [a] does. *)
Definition encode_spec (fuel height_bound : nat) (a : atrie) : Prop :=
  ∀ m, good m a → scratch_free m → height_bound ≤ mpt_fuel m →
  ∃ m', encode_trie_internal fuel (root a) m = (Ok (trie_encode (erase a)), m') ∧
    fills m m' (root <$> subtries a) ∧ Forall (node_ok m') (subtries a).

Definition slot_encoding (o : option atrie) : bytes :=
  match o with Some c => trie_encode (erase c) | None => [] end.

Lemma fills_fuel m m' owned : fills m m' owned → mpt_fuel m' = mpt_fuel m.
Proof. intros Hf. unfold mpt_fuel, num_nodes. by rewrite (fills_nodes _ _ _ Hf). Qed.

Lemma slots_encode fuel h cs m :
  (∀ j c, cs !! j = Some (Some c) → encode_spec fuel h c) →
  NoDup (root <$> slots_below cs) → Forall (node_ok m) (slots_below cs) → scratch_free m →
  h ≤ mpt_fuel m →
  ∃ m', mapM (λ c, match c with
                   | Some id => encode_trie_internal fuel id
                   | None => mret []
                   end) (option_map root <$> cs) m = (Ok (slot_encoding <$> cs), m') ∧
    fills m m' (root <$> slots_below cs) ∧ Forall (node_ok m') (slots_below cs).
Proof.
  revert m. induction cs as [|o cs IH]; intros m Hspec Hnd Hall Hfree Hh.
  { exists m. split_and!; [done|apply fills_refl|constructor]. }
  rewrite slots_below_cons in *. rewrite fmap_app in Hnd. apply NoDup_app in Hnd as (Hnd & Hdis & Hnd').
  apply Forall_app in Hall as [Ho Hall]. cbn [mapM fmap list_fmap].
  assert (∃ m1, match option_map root o with
      | Some id => encode_trie_internal fuel id
      | None => mret []
      end m = (Ok (slot_encoding o), m1) ∧ fills m m1 (root <$> from_option subtries [] o) ∧
      Forall (node_ok m1) (from_option subtries [] o)) as (m1 & Hrun & Hf1 & Hok1).
  { destruct o as [c|]; [|exists m; split_and!; [done|apply fills_refl|constructor]].
    by apply (Hspec 0 c eq_refl). }
  erewrite machine_bind_ok by exact Hrun.
  assert (Forall (node_ok m1) (slots_below cs)) as Hall1.
  { rewrite Forall_forall in Hall |- *. intros x Hx. eapply fills_node_ok; [done| |by apply Hall].
    intros Hin. apply (Hdis _ Hin). by apply list_elem_of_fmap_2. }
  destruct (IH m1) as (m2 & Hrun2 & Hf2 & Hok2); [|done|done| | |].
  { intros j. apply (Hspec (S j)). }
  { unfold scratch_free. by rewrite (fills_scratch _ _ _ Hf1). }
  { by rewrite (fills_fuel _ _ _ Hf1). }
  erewrite machine_bind_ok by exact Hrun2. exists m2. split_and!; [done| |].
  - rewrite fmap_app. by eapply fills_trans.
  - apply Forall_app. split; [|done]. rewrite Forall_forall in Hok1 |- *. intros x Hx.
    eapply fills_node_ok; [done| |by apply Hok1].
    intros Hin. eapply Hdis; [|done]. by apply list_elem_of_fmap_2.
Qed.

(** The recursive part of [encode_trie_internal]. *)
Definition encode_below (fuel : nat) (data : NodeData) : machine Mpt Error bytes :=
  match data with
  | Branch childs =>
      outs ← mapM (λ c, match c with
                        | Some child_id => encode_trie_internal fuel child_id
                        | None => mret []
                        end) childs;
      mret (concat outs)
  | Extension _ ext_id => encode_trie_internal fuel ext_id
  | _ => mret []
  end.

Lemma encode_step a fuel m :
  good m a → well_formed (erase a) → scratch_free m → height (erase a) ≤ mpt_fuel m →
  ∃ m1, encode_trie_internal (S fuel) (root a) m =
      (encode_below fuel (data a) ≫= λ below, mret (padded (erase a) ++ below)) m1 ∧
    fills m m1 (root <$> below a) ∧ Forall (node_ok m1) (subtries a).
Proof.
  intros Hgood Hwf Hfree Hh.
  destruct (encode_node_spec _ m Hgood Hwf Hfree Hh) as (m1 & Hrun & Hf1 & Hok1).
  apply machine_bind_inv in Hrun as (plen & s1 & Hlen & Hrun).
  apply machine_bind_inv in Hrun as (enc & s2 & Henc & Hrun). injection Hrun as -> -> ->.
  exists m1. split; [|done]. cbn [encode_trie_internal]. exec.
  erewrite machine_bind_ok by exact Hlen. erewrite machine_bind_ok by exact Henc.
  cbn beta zeta. rewrite <-payload_len_rlp by done.
  inversion Hok1 as [|? ? [Hs1 _] _]; subst. erewrite machine_bind_ok by (by apply node_at_ok).
  transitivity ((encode_below fuel (data a) ≫= λ below,
    mret (trie_rlp (erase a) ++ padding (length (trie_rlp (erase a))) ++ below)) m1); [done|].
  unfold mbind, machine_bind, padded.
  by destruct (encode_below fuel (data a) m1) as [[] ?]; rewrite ?app_assoc.
Qed.

Lemma slot_encodings i cs :
  trie_encode (erase (ABranch i cs)) =
  padded (erase (ABranch i cs)) ++ concat (slot_encoding <$> cs).
Proof.
  rewrite erase_branch. cbn [trie_encode]. do 2 f_equal.
  change (map ?f (option_map erase <$> cs)) with (f <$> (option_map erase <$> cs)).
  rewrite <-list_fmap_compose. apply list_fmap_ext. by intros j [c|] _.
Qed.

Lemma encode_refines a fuel :
  well_formed (erase a) → height (erase a) ≤ fuel → encode_spec fuel (height (erase a)) a.
Proof.
  revert fuel. induction a as [i|i d|i p v|i p c IH|i cs IH] using atrie_nested_ind;
    intros fuel Hwf Hf m Hgood Hfree Hh; (destruct fuel as [|fuel]; [cbn in Hf; lia|]);
    destruct (encode_step _ fuel m Hgood Hwf Hfree Hh) as (m1 & -> & Hf1 & Hok1);
    (assert (scratch_free m1) as Hfree1 by (unfold scratch_free; by rewrite (fills_scratch _ _ _ Hf1)));
    pose proof (fills_fuel _ _ _ Hf1) as Hfuel1.
  1-3: (exists m1; split_and!; [done| |done]; eapply fills_weaken; [|done]; set_solver).
  - cbn [data encode_below]. destruct Hgood as [_ Hnd]. apply NoDup_cons in Hnd as [Hnin Hnd].
    inversion Hok1 as [|? ? Hroot1 Hbelow1]; subst.
    destruct (IH fuel) with (m := m1) as (m2 & Hrun & Hf2 & Hok2).
    { by inversion Hwf. }
    { cbn in Hf. lia. }
    { split; [done|exact Hnd]. }
    { done. }
    { cbn in Hh. lia. }
    erewrite machine_bind_ok by exact Hrun. exists m2. split_and!; [done| |].
    + eapply fills_weaken; [|eapply fills_trans; [exact Hf1|exact Hf2]].
      intros j. rewrite elem_of_app. intros [Hj|Hj]; right; exact Hj.
    + constructor; [|done]. eapply fills_node_ok; [done|exact Hnin|done].
  - cbn [data encode_below]. destruct Hgood as [_ Hnd]. apply NoDup_cons in Hnd as [Hnin Hnd].
    inversion Hok1 as [|? ? Hroot1 Hbelow1]; subst.
    destruct (slots_encode fuel (height (erase (ABranch i cs)) - 1) cs m1)
      as (m2 & Hrun & Hf2 & Hok2); [|exact Hnd|exact Hbelow1|done|lia|].
    { intros j c Hj. pose proof (height_child (option_map erase <$> cs) j (erase c)
        ltac:(by rewrite list_lookup_fmap, Hj)) as Hlt. rewrite <-(erase_branch i) in Hlt.
      intros m' Hg' Hfree' Hh'. apply (IH _ _ Hj); [| |done|done|lia].
      - eapply (child_of_wf _ (ABranch i cs)); [by exists j|done].
      - lia. }
    rewrite machine_bind_bind. erewrite machine_bind_ok by exact Hrun. exec.
    exists m2. split_and!; [| |].
    + by rewrite slot_encodings.
    + eapply fills_weaken; [|eapply fills_trans; [exact Hf1|exact Hf2]].
      intros j. rewrite elem_of_app. intros [Hj|Hj]; right; exact Hj.
    + constructor; [|done]. eapply fills_node_ok; [done|exact Hnin|done].
Qed.
End encoding.

(** ** Items of a serialized node *)

Section items.
Context `{CratesOk}.

Lemma decode_item_inv buf l p item rest :
  decode_item buf = Ok (l, p, item, rest) →
  buf = item ++ rest ∧ 1 ≤ length item ∧ header_decode buf = Ok (l, length p, p ++ rest).
Proof.
  unfold decode_item. destruct (header_decode buf) as [[[l' n] after]| | |] eqn:Hd; cbn; [|done..].
  pose proof (header_decode_advances _ _ _ _ Hd) as (header & -> & Hn & Hl).
  unfold advance_unchecked. rewrite decide_True by done. cbn. rewrite slice_to_ok by lia. cbn.
  intros [= <- <- <- <-].
  assert (take (length (header ++ after) - length (drop n after)) (header ++ after) =
    header ++ take n after) as Htake.
  { rewrite length_app, length_drop.
    replace (length header + length after - (length after - n)) with (length header + n) by lia.
    by rewrite take_app_add. }
  rewrite Htake. split_and!.
  - by rewrite <-app_assoc, take_drop.
  - rewrite length_app, length_take. lia.
  - rewrite length_take, take_drop. by rewrite Nat.min_l by lia.
Qed.

Lemma decode_item_payload buf l p item rest :
  decode_item buf = Ok (l, p, item, rest) → length p ≤ length item.
Proof.
  intros Hd. pose proof (decode_item_inv _ _ _ _ _ Hd) as (Hb & _ & Hh).
  apply header_decode_advances in Hh as (header & Hb' & _).
  apply (f_equal length) in Hb'. rewrite Hb, !length_app in Hb'. lia.
Qed.

Lemma decode_item_ok l p item rest :
  header_decode (item ++ rest) = Ok (l, length p, p ++ rest) →
  decode_item (item ++ rest) = Ok (l, p, item, rest).
Proof.
  intros Hd. unfold decode_item. rewrite Hd. cbn. unfold advance_unchecked.
  rewrite decide_True by (rewrite length_app; lia). cbn.
  rewrite take_app_length, drop_app_length. rewrite slice_to_ok by lia. cbn.
  rewrite length_app. replace (length item + length rest - length rest) with (length item) by lia.
  by rewrite take_app_length.
Qed.

Lemma decode_item_string b rest :
  fits_usize (length b) → decode_item (slice_encode b ++ rest) = Ok (false, b, slice_encode b, rest).
Proof. intros Hb. by apply decode_item_ok, header_decode_string. Qed.

Lemma decode_item_list p rest :
  fits_usize (length p) → decode_item (list_rlp p ++ rest) = Ok (true, p, list_rlp p, rest).
Proof.
  intros Hp. apply decode_item_ok. unfold list_rlp. rewrite <-app_assoc.
  apply header_decode_list; [done|]. rewrite length_app. lia.
Qed.

(** Lengths that the length type can hold, everywhere in the trie. *)
Inductive sized : trie → Prop :=
  | sized_null : sized TNull
  | sized_digest d : length d = 32 → sized (TDigest d)
  | sized_leaf path value :
      fits_usize (length path) → fits_usize (length value) →
      fits_usize (length (trie_payload (TLeaf path value))) → sized (TLeaf path value)
  | sized_extension path c :
      fits_usize (length path) → fits_usize (length (trie_payload (TExtension path c))) →
      sized c → sized (TExtension path c)
  | sized_branch cs :
      fits_usize (length (trie_payload (TBranch cs))) →
      (∀ i c, cs !! i = Some (Some c) → sized c) → sized (TBranch cs).

Lemma sized_payload t : sized t → fits_usize (length (trie_payload t)).
Proof. destruct 1; try done; apply fits_small; cbn; lia. Qed.

Definition is_list_node (t : trie) : bool :=
  match t with TNull | TDigest _ => false | _ => true end.

Lemma rlp_of_list_node t : is_list_node t = true → trie_rlp t = list_rlp (trie_payload t).
Proof. by destruct t. Qed.

Lemma trie_ref_cases t :
  sized t →
  (∃ d, trie_ref t = DigestRef d ∧ length d = 32) ∨
  (t = TNull ∧ trie_ref t = BytesRef [EMPTY_STRING_CODE]) ∨
  (is_list_node t = true ∧ trie_ref t = BytesRef (trie_rlp t) ∧ length (trie_rlp t) < 32).
Proof.
  intros Hs. unfold trie_ref, reference_with. destruct Hs as [|d Hd| | |]; eauto;
    case_decide; eauto 8 with reth.
Qed.

Lemma from_rlp_slice_ref t : sized t → from_rlp_slice (ref_bytes (trie_ref t)) = trie_ref t.
Proof.
  intros Hs. destruct (trie_ref_cases t Hs) as [(d & -> & Hd)|[[_ ->]|(_ & -> & Hl)]]; cbn [ref_bytes].
  - by apply from_rlp_slice_digest.
  - by apply from_rlp_slice_short; cbn; lia.
  - by apply from_rlp_slice_short.
Qed.

Lemma list_rlp_not_null p : fits_usize (length p) → list_rlp p ≠ [EMPTY_STRING_CODE].
Proof.
  intros Hp Heq. apply (slice_list_disjoint [] p [] []); [auto with reth|done|].
  rewrite slice_encode_nil, !app_nil_r. by rewrite <-Heq.
Qed.

Lemma trie_ref_null_iff t :
  sized t → as_slice (trie_ref t) = [EMPTY_STRING_CODE] ↔ t = TNull.
Proof.
  intros Hs. split; [|by intros ->].
  destruct (trie_ref_cases t Hs) as [(d & -> & Hd)|[[-> _]|(Hl & -> & _)]]; cbn [as_slice]; [|done|].
  - by intros ->.
  - rewrite rlp_of_list_node by done. intros Heq. exfalso. apply (list_rlp_not_null (trie_payload t)); [|done].
    by apply sized_payload.
Qed.

(** The reference to a child is one item of the parent. *)
Lemma decode_item_slot o rest :
  (∀ c, o = Some c → sized c) →
  ∃ l p, decode_item (slot_bytes o ++ rest) = Ok (l, p, slot_bytes o, rest).
Proof.
  intros Hs. destruct o as [c|]; cbn [slot_bytes].
  - destruct (trie_ref_cases c (Hs c eq_refl)) as [(d & -> & Hd)|[[_ ->]|(Hl & -> & _)]]; cbn [ref_bytes].
    + rewrite <-slice_encode_B256 by done. do 2 eexists. apply decode_item_string. rewrite Hd. auto with reth.
    + rewrite <-slice_encode_nil. do 2 eexists. apply decode_item_string. auto with reth.
    + rewrite rlp_of_list_node by done. do 2 eexists. by apply decode_item_list, sized_payload, Hs.
  - rewrite <-slice_encode_nil. do 2 eexists. apply decode_item_string. auto with reth.
Qed.

Lemma slot_bytes_nonempty o : (∀ c, o = Some c → sized c) → 1 ≤ length (slot_bytes o).
Proof.
  intros Hs. destruct (decode_item_slot o [] Hs) as (l & p & Hd). by apply decode_item_inv in Hd as (_ & ? & _).
Qed.

(** ** [decode_list] on the payload of a node *)

Definition decode_ref (dc : NodeRef → machine Decoder Error NodeId) (o : option trie)
  : machine Decoder Error (option NodeId) :=
  match o with
  | Some c => id ← dc (trie_ref c); mret (Some id)
  | None => mret None
  end.

Definition slots_sized (cs : list (option trie)) : Prop :=
  ∀ i c, cs !! i = Some (Some c) → sized c ∧ c ≠ TNull.

Lemma slots_sized_cons o cs :
  slots_sized (o :: cs) → (∀ c, o = Some c → sized c ∧ c ≠ TNull) ∧ slots_sized cs.
Proof. intros Hs. split; [intros c ->; by apply (Hs 0)|intros i; apply (Hs (S i))]. Qed.

Lemma decode_slot_ref dc o s :
  (∀ c, o = Some c → sized c ∧ c ≠ TNull) → decode_slot dc (slot_bytes o) s = decode_ref dc o s.
Proof.
  intros Hs. unfold decode_slot. destruct o as [c|]; cbn [slot_bytes decode_ref].
  - destruct (Hs c eq_refl) as [Hsz Hnn]. rewrite from_rlp_slice_ref by done.
    rewrite decide_False; [done|]. intros Heq. by apply trie_ref_null_iff in Heq.
  - rewrite from_rlp_slice_short by (cbn; lia). by rewrite decide_True.
Qed.

Lemma decode_slots_refs dc cs rest s :
  slots_sized cs →
  decode_slots dc (length cs) (concat (slot_bytes <$> cs) ++ rest) s =
  (childs ← mapM (decode_ref dc) cs; mret (childs, rest)) s.
Proof.
  revert s. induction cs as [|o cs IH]; intros s Hs; [done|].
  apply slots_sized_cons in Hs as [Ho Hs].
  cbn [length decode_slots fmap list_fmap concat mapM]. rewrite <-app_assoc.
  destruct (decode_item_slot o (concat (slot_bytes <$> cs) ++ rest)) as (l & p & Hd).
  { intros c Hc. by apply Ho. }
  cbn [fmap list_fmap] in Hd. rewrite Hd. rewrite machine_bind_lift_ok. cbn beta iota.
  rewrite machine_bind_bind. erewrite machine_bind_ext by (by apply decode_slot_ref).
  apply machine_bind_ext_r. intros child s'.
  rewrite machine_bind_bind. rewrite (machine_bind_ext _ _ _ _ (IH s' Hs)).
  by rewrite machine_bind_bind.
Qed.

Lemma decode_list_leaf dc path value r s :
  fits_usize (length path) → fits_usize (length value) → is_leaf_path path = true →
  decode_list dc (trie_payload (TLeaf path value)) r s = dec_add_node (Leaf path value) r s.
Proof.
  intros Hp Hv Hleaf. unfold decode_list. cbn [trie_payload].
  rewrite decode_item_string by done. rewrite machine_bind_lift_ok. cbn beta iota.
  pose proof (decode_item_string value [] Hv) as Hd. rewrite app_nil_r in Hd. rewrite Hd.
  rewrite machine_bind_lift_ok. cbn beta iota. destruct path as [|b path]; [done|].
  cbn [index lookup list_lookup]. rewrite machine_bind_lift_ok. cbn beta iota.
  unfold is_leaf_path in Hleaf. apply bool_decide_eq_true in Hleaf. by rewrite decide_False.
Qed.

Lemma decode_list_extension dc path c r s :
  fits_usize (length path) → sized c → path ≠ [] → is_leaf_path path = false →
  decode_list dc (trie_payload (TExtension path c)) r s =
  (id ← dc (trie_ref c); dec_add_node (Extension path id) r) s.
Proof.
  intros Hp Hc Hne Hleaf. unfold decode_list. cbn [trie_payload].
  rewrite decode_item_string by done. rewrite machine_bind_lift_ok. cbn beta iota.
  destruct (decode_item_slot (Some c) []) as (l & p & Hd); [by intros ? [= <-]|].
  rewrite app_nil_r in Hd. cbn [slot_bytes] in Hd. rewrite Hd, machine_bind_lift_ok. cbn beta iota.
  destruct path as [|b path]; [done|].
  cbn [index lookup list_lookup]. rewrite machine_bind_lift_ok. cbn beta iota.
  unfold is_leaf_path in Hleaf. apply bool_decide_eq_false in Hleaf.
  rewrite decide_True by (by apply dec_stable). by rewrite from_rlp_slice_ref.
Qed.

Lemma decode_list_branch dc cs r s :
  length cs = 16 → slots_sized cs →
  decode_list dc (trie_payload (TBranch cs)) r s =
  (childs ← mapM (decode_ref dc) cs; dec_add_node (Branch childs) r) s.
Proof.
  intros Hlen Hs. destruct cs as [|o0 [|o1 cs]]; [done..|]. injection Hlen as Hlen.
  apply slots_sized_cons in Hs as [Ho0 Hs]. apply slots_sized_cons in Hs as [Ho1 Hs].
  unfold decode_list. cbn [trie_payload fmap list_fmap concat]. rewrite <-!app_assoc.
  destruct (decode_item_slot o0 (slot_bytes o1 ++ concat (slot_bytes <$> cs) ++ [EMPTY_STRING_CODE]))
    as (l0 & p0 & Hd0); [intros c Hc; by apply Ho0|].
  cbn [fmap list_fmap] in Hd0. rewrite Hd0, machine_bind_lift_ok. cbn beta iota.
  destruct (decode_item_slot o1 (concat (slot_bytes <$> cs) ++ [EMPTY_STRING_CODE]))
    as (l1 & p1 & Hd1); [intros c Hc; by apply Ho1|].
  cbn [fmap list_fmap] in Hd1. rewrite Hd1, machine_bind_lift_ok. cbn beta iota.
  match goal with |- context [match ?x with [] => _ | _ => _ end] =>
    destruct x eqn:Hrest; [by apply app_nil in Hrest as [_ ?]|] end.
  rewrite <-Hrest. clear Hrest. cbn [mapM].
  rewrite (machine_bind_ext _ _ _ _ (decode_slot_ref dc o0 s Ho0)). rewrite machine_bind_bind.
  apply machine_bind_ext_r. intros child0 s0.
  rewrite (machine_bind_ext _ _ _ _ (decode_slot_ref dc o1 s0 Ho1)), !machine_bind_bind.
  apply machine_bind_ext_r. intros child1 s1.
  rewrite <-Hlen.
  rewrite (machine_bind_ext _ _ _ _ (decode_slots_refs dc cs [EMPTY_STRING_CODE] s1 Hs)).
  rewrite !machine_bind_bind. apply machine_bind_ext_r. intros childs s2.
  rewrite !machine_bind_ret. by rewrite decide_False by (intros Hne; by apply Hne).
Qed.
End items.

(** ** Building the arena *)

Section building.
Context `{CratesOk}.

(** A decoder whose arena can take a node per remaining input byte. *)
Definition roomy (s : Decoder) : Prop :=
  at_rest (dec_trie s) ∧
  (N.of_nat (num_nodes (dec_trie s) + length (dec_bytes s)) < u32_modulus)%N.

(** [s'] comes from [s] by reading input and adding at most a node per byte. *)
Record reads (s s' : Decoder) : Prop := {
  reads_evolves : evolves (dec_trie s) (dec_trie s') [];
  reads_count : num_nodes (dec_trie s') + length (dec_bytes s') ≤
                num_nodes (dec_trie s) + length (dec_bytes s);
  reads_suffix : ∃ k, dec_bytes s' = drop k (dec_bytes s);
}.

Lemma reads_refl s : reads s s.
Proof. split; [apply evolves_refl|done|by exists 0]. Qed.

Lemma reads_trans s s1 s2 : reads s s1 → reads s1 s2 → reads s s2.
Proof.
  intros [He1 Hc1 [k1 Hk1]] [He2 Hc2 [k2 Hk2]]. split; [by eapply evolves_trans|lia|].
  exists (k1 + k2). by rewrite Hk2, Hk1, drop_drop.
Qed.

Lemma reads_roomy s s' : reads s s' → roomy s → roomy s'.
Proof.
  intros [He Hc _] [Hr Hn]. split; [by apply (evolves_rest _ _ _ He)|]. lia.
Qed.

(** The tree [a] was added to the arena of [s]. *)
Record added (s s' : Decoder) (a : atrie) : Prop := {
  added_reads : reads s s';
  added_represents : represents (dec_trie s') a;
  added_fresh j : j ∈ ids a → num_nodes (dec_trie s) ≤ j;
}.

Definition append_node (d : NodeData) (r : NodeRef) (m : Mpt) : Mpt :=
  mkMpt (root_id m) (nodes m ++ [d]) (cached_references m ++ [new_cell (Some r)]) (rlp_scratch m).

Lemma dec_add_ok d r s :
  (N.of_nat (num_nodes (dec_trie s)) < u32_modulus)%N →
  dec_add_node d r s =
  (Ok (num_nodes (dec_trie s)), mkDecoder (append_node d r (dec_trie s)) (dec_bytes s)).
Proof.
  intros Hn. unfold dec_add_node, add_node. exec. unfold num_nodes in *.
  by rewrite as_u32_small by done.
Qed.

Lemma evolves_append d r m : at_rest m → evolves m (append_node d r m) [].
Proof.
  intros [Hrest Hs]. split; cbn; [done| |rewrite length_app; lia| |].
  - intros _. split; cbn; [by rewrite !length_app, Hrest|done].
  - intros j Hj _. by rewrite lookup_app_l.
  - intros j Hj _. rewrite lookup_app_l; [done|lia].
Qed.

(** The node goes on top of children that are in place. *)
Lemma added_node s0 s s' a id :
  reads s0 s → num_nodes (dec_trie s) + length (dec_bytes s) <
    num_nodes (dec_trie s0) + length (dec_bytes s0) → roomy s →
  root a = num_nodes (dec_trie s) → Forall (node_ok (dec_trie s)) (below a) →
  NoDup (root <$> below a) → (∀ j, j ∈ root <$> below a → num_nodes (dec_trie s0) ≤ j) →
  dec_add_node (data a) (trie_ref (erase a)) s = (Ok id, s') →
  id = root a ∧ added s0 s' a.
Proof.
  intros Hreads Hcount [Hrest Hroom] Hroot Hbelow Hnd Hfresh Hadd.
  rewrite dec_add_ok in Hadd by lia. injection Hadd as <- <-.
  pose proof (evolves_append (data a) (trie_ref (erase a)) _ Hrest) as Hev.
  assert (∀ j, j ∈ root <$> below a → j < num_nodes (dec_trie s)) as Hlt.
  { intros j (x & -> & Hx)%list_elem_of_fmap. rewrite Forall_forall in Hbelow.
    destruct (Hbelow x Hx) as [Hs _]. by eapply lookup_lt_Some. }
  split; [done|]. destruct Hreads as [He _ Hsuf]. split.
  - split; [by eapply evolves_trans| |exact Hsuf].
    unfold num_nodes in *. cbn. rewrite length_app. cbn. lia.
  - split.
    + constructor.
      * unfold node_ok, stored, cache_ok. rewrite Hroot. split.
        -- cbn. by apply list_lookup_middle.
        -- eexists. split; [cbn; apply list_lookup_middle; symmetry; apply Hrest|]. by intros ? [= <-].
      * rewrite Forall_forall in Hbelow |- *. intros x Hx.
        eapply evolves_frame; [exact Hev|apply not_elem_of_nil|by apply Hbelow].
    + constructor; [|exact Hnd]. intros Hin. apply Hlt in Hin. lia.
  - intros j Hj. apply elem_of_cons in Hj as [->|Hj]; [|by apply Hfresh].
    rewrite Hroot. by apply (evolves_length _ _ _ He).
Qed.

(** The children of a branch, one after the other. *)
Definition slot_rel (R : trie → trie → Prop) (o : option atrie) (o' : option trie) : Prop :=
  match o, o' with Some a, Some T => R (erase a) T | None, None => True | _, _ => False end.

Record added_slots (R : trie → trie → Prop) (s s' : Decoder) (acs : list (option atrie))
    (cs : list (option trie)) : Prop := {
  slots_reads : reads s s';
  slots_view : Forall2 (slot_rel R) acs cs;
  slots_ok : Forall (node_ok (dec_trie s')) (slots_below acs);
  slots_nodup : NoDup (root <$> slots_below acs);
  slots_fresh j : j ∈ root <$> slots_below acs → num_nodes (dec_trie s) ≤ j;
}.

Lemma added_slots_cons R s s1 s2 a T acs cs :
  added s s1 a → R (erase a) T → added_slots R s1 s2 acs cs →
  added_slots R s s2 (Some a :: acs) (Some T :: cs).
Proof.
  intros [Hr1 Hrep Hf1] HR [Hr2 Hv Hok Hnd Hf2]. rewrite ?slots_below_cons.
  assert (∀ j, j ∈ ids a → j < num_nodes (dec_trie s1)) as Hlt by (intros j; by apply represents_lt).
  split; rewrite ?slots_below_cons; cbn [from_option].
  - by eapply reads_trans.
  - by constructor.
  - apply Forall_app. split; [|done]. destruct Hrep as [Hall _].
    eapply Forall_impl; [exact Hall|]. intros x.
    apply evolves_frame with (owned := []); [apply Hr2|apply not_elem_of_nil].
  - rewrite fmap_app. apply NoDup_app. split_and!; [apply Hrep| |done].
    intros j Hj Hin. apply Hlt in Hj. apply Hf2 in Hin. lia.
  - intros j. rewrite fmap_app, elem_of_app. intros [Hj|Hj]; [by apply Hf1|].
    apply Hf2 in Hj. pose proof (evolves_length _ _ _ (reads_evolves _ _ Hr1)). unfold num_nodes in *. lia.
Qed.

Lemma added_slots_none R s s2 acs cs :
  added_slots R s s2 acs cs → added_slots R s s2 (None :: acs) (None :: cs).
Proof. intros [Hr Hv Hok Hnd Hf]. split; rewrite ?slots_below_cons; try done. by constructor. Qed.

(** Decoding the children yields the slots, if decoding each yields a tree. *)
Lemma decode_refs_added (R : trie → trie → Prop) (P : Decoder → Prop) dc cs ids s s' :
  (∀ i c s1 id s2, cs !! i = Some (Some c) → roomy s1 → P s1 → dc (trie_ref c) s1 = (Ok id, s2) →
    ∃ a, root a = id ∧ R (erase a) c ∧ added s1 s2 a) →
  (∀ s1 s2, reads s1 s2 → P s1 → P s2) →
  roomy s → P s → mapM (decode_ref dc) cs s = (Ok ids, s') →
  ∃ acs, ids = option_map root <$> acs ∧ added_slots R s s' acs cs.
Proof.
  intros Hdc HP. revert ids s. induction cs as [|o cs IH]; intros ids s Hroom Hs Hrun.
  { injection Hrun as <- <-. exists []. split; [done|].
    split; [apply reads_refl|constructor|constructor|constructor|by intros j ?%elem_of_nil]. }
  cbn [mapM] in Hrun. apply machine_bind_inv in Hrun as (x & s1 & Hx & Hrun).
  apply machine_bind_inv in Hrun as (xs & s2 & Hxs & Hret). injection Hret as <- <-.
  assert (∀ i c s1 id s2, cs !! i = Some (Some c) → roomy s1 → P s1 → dc (trie_ref c) s1 = (Ok id, s2) →
    ∃ a, root a = id ∧ R (erase a) c ∧ added s1 s2 a) as Hdc' by (intros i; apply (Hdc (S i))).
  destruct o as [c|]; cbn [decode_ref] in Hx.
  - apply machine_bind_inv in Hx as (id & s3 & Hc & Hret). injection Hret as <- <-.
    destruct (Hdc 0 c s id s3 eq_refl Hroom Hs Hc) as (a & <- & HR & Hadd).
    pose proof (added_reads _ _ _ Hadd) as Hreads.
    destruct (IH Hdc' xs s3) as (acs & -> & Hslots);
      [by eapply reads_roomy|by eapply HP|done|].
    exists (Some a :: acs). split; [done|]. by eapply added_slots_cons.
  - injection Hx as <- <-. destruct (IH Hdc' xs s) as (acs & -> & Hslots); [done..|].
    exists (None :: acs). split; [done|]. by apply added_slots_none.
Qed.
End building.

(** ** Authentication *)

Section authentication.
Context `{CratesOk}.

(** The encodings of the nodes of a trie. *)
Fixpoint encodings (t : trie) : list bytes :=
  trie_rlp t ::
  match t with
  | TExtension _ c => encodings c
  | TBranch cs => concat (map (λ o, match o with Some c => encodings c | None => [] end) cs)
  | _ => []
  end.

Lemma encodings_self t : trie_rlp t ∈ encodings t.
Proof. destruct t; apply list_elem_of_here. Qed.

(** No item of the input has the hash of a different node of [T]. *)
Definition authentic (buf : bytes) (T : trie) : Prop :=
  ∀ k l p item rest y, decode_item (drop k buf) = Ok (l, p, item, rest) → y ∈ encodings T →
    keccak256 item = keccak256 y → item = y.

Lemma authentic_drop buf T k : authentic buf T → authentic (drop k buf) T.
Proof. intros Ha k' l p item rest y Hd. rewrite drop_drop in Hd. by eapply Ha. Qed.

Lemma authentic_child buf path c : authentic buf (TExtension path c) → authentic buf c.
Proof. intros Ha k l p item rest y Hd Hy. eapply Ha; [done|]. cbn [encodings]. by right. Qed.

Lemma authentic_slot buf cs i c :
  cs !! i = Some (Some c) → authentic buf (TBranch cs) → authentic buf c.
Proof.
  intros Hi Ha k l p item rest y Hd Hy. eapply Ha; [done|]. cbn [encodings]. right.
  apply list_elem_of_In, in_concat. exists (encodings c). split; [|by apply list_elem_of_In].
  apply in_map_iff. exists (Some c). split; [done|]. apply list_elem_of_In. by eapply list_elem_of_lookup_2.
Qed.

(** What the caller of [decode_trie] compares against: a fully known trie. *)
Definition known (T : trie) : Prop := canonical_node T ∧ resolved T ∧ sized T.

Lemma known_list_node T : known T → is_list_node T = true.
Proof. intros (Hct & Hr & _). destruct Hct; try done. inversion Hr. Qed.

Lemma known_extension nibs c : known (extension nibs c) → known c.
Proof.
  intros (Hct & Hr & Hs). inversion Hr; subst. inversion Hs; subst.
  inversion Hct as [| |? ? _ _ _ Hc Heq|]; subst. done.
Qed.

Lemma known_slot cs i c : known (TBranch cs) → cs !! i = Some (Some c) → known c.
Proof.
  intros (Hct & Hr & Hs) Hi. inversion Hct as [| | |? _ _ Hc]; subst.
  inversion Hr as [| | |? Hrc]; subst. inversion Hs as [| | | |? _ Hsc]; subst.
  split_and!; eauto.
Qed.

Lemma known_slots_sized cs : known (TBranch cs) → slots_sized cs.
Proof.
  intros Hk i c Hi. destruct (known_slot _ _ _ Hk Hi) as (Hct & _ & Hs).
  split; [done|]. intros ->. inversion Hct.
Qed.

Lemma list_node_digest T d :
  is_list_node T = true → trie_ref T = DigestRef d → d = keccak256 (trie_rlp T).
Proof.
  intros Hl Hr. unfold trie_ref, reference_with in Hr. by destruct T; cbn in Hl; try done; case_decide; simplify_eq.
Qed.

(** A node is read: the arena gains either [T]'s digest, or what [decode_list]
    makes of [T]'s own payload. *)
Lemma decode_internal_inv fuel T s id s' :
  known T → roomy s → authentic (dec_bytes s) T →
  decode_trie_internal (S fuel) (trie_ref T) s = (Ok id, s') →
  ∃ s1, reads s s1 ∧ roomy s1 ∧
    num_nodes (dec_trie s1) + length (dec_bytes s1) < num_nodes (dec_trie s) + length (dec_bytes s) ∧
    dec_trie s1 = dec_trie s ∧
    ((∃ d, trie_ref T = DigestRef d ∧ length d = 32 ∧
           dec_add_node (Digest d) (DigestRef d) s1 = (Ok id, s')) ∨
     decode_list (decode_trie_internal fuel) (trie_payload T) (trie_ref T) s1 = (Ok id, s')).
Proof.
  intros Hk Hroom Hauth Hrun. destruct Hk as (Hct & Hres & Hsz).
  assert (is_list_node T = true) as Hlist by (by apply known_list_node).
  cbn [decode_trie_internal] in Hrun. rewrite machine_bind_get in Hrun.
  apply machine_bind_inv in Hrun as ([[[l p] item] rest] & s0 & Hitem & Hrun).
  injection Hitem as Hitem <-.
  apply machine_bind_inv in Hrun as ([pad rest'] & s0 & Hpad & Hrun). injection Hpad as Hpad <-.
  unfold set_dec_bytes in Hrun. rewrite machine_bind_modify in Hrun. cbn beta iota in Hrun.
  apply machine_bind_inv in Hrun as (r & s0 & Hcheck & Hrun). injection Hcheck as Hcheck <-.
  pose proof (decode_item_inv _ _ _ _ _ Hitem) as (Hbytes & Hitem1 & Hhead).
  unfold advance_unchecked in Hpad. destruct (decide _) as [Hle|]; [|done]. injection Hpad as _ <-.
  set (s1 := mkDecoder (dec_trie s) (drop (padding_len (length item)) rest)) in *.
  assert (length (dec_bytes s1) < length (dec_bytes s)) as Hlt.
  { rewrite Hbytes, length_app. cbn. rewrite length_drop. lia. }
  assert (reads s s1) as Hreads.
  { split; [apply evolves_refl|cbn in *; lia|]. exists (length item + padding_len (length item)).
    rewrite Hbytes. cbn. by rewrite <-drop_drop, drop_app_length. }
  exists s1. split_and!; [done|by eapply reads_roomy|cbn in *; lia|done|].
  assert (item = trie_rlp T → r = trie_ref T →
    decode_list (decode_trie_internal fuel) (trie_payload T) (trie_ref T) s1 = (Ok id, s')) as Hsame.
  { intros -> ->. rewrite rlp_of_list_node in Hbytes by done.
    pose proof (decode_item_list (trie_payload T) rest (sized_payload _ Hsz)) as Hd.
    rewrite rlp_of_list_node in Hitem by done. rewrite <-Hbytes, Hitem in Hd. injection Hd as -> ->.
    exact Hrun. }
  unfold check_reference in Hcheck. destruct (trie_ref_cases T Hsz) as
    [(d & Href & Hd)|[[-> _]|(_ & Href & Hshort)]]; [|done|]; rewrite Href in Hcheck; cbn [as_slice] in Hcheck.
  - destruct (decide (length item < 32)) as [Hshort|Hlong];
      [|destruct (decide (length p = 32 ∧ l = false)) as [[Hp ->]|Hstr]];
      (destruct (decide (_ ≠ d)) as [Hne|Heq%dec_stable]; [done|]).
    + subst item. lia.
    + subst p. left. exists d. split_and!; [done..|].
      rewrite decide_False, decide_True in Hrun by lia. exact Hrun.
    + injection Hcheck as <-. right. apply Hsame; [|done].
      apply (Hauth 0 l p item rest); [done|apply encodings_self|].
      rewrite Heq. by apply list_node_digest.
  - destruct (decide (length item < 32)) as [Hsh|Hlong];
      [|destruct (decide (length p = 32 ∧ l = false)) as [[Hp ->]|Hstr]];
      (destruct (decide (_ ≠ trie_rlp T)) as [Hne|Heq%dec_stable]; [done|]).
    + injection Hcheck as <-. right. apply Hsame; [done|]. by rewrite Href, Heq.
    + rewrite Heq in Hp. lia.
    + pose proof (keccak256_length item) as Hl. rewrite Heq in Hl. lia.
Qed.

(** The root reference [decode_trie] starts from. *)
Lemma decode_internal_view fuel T s id s' :
  known T → roomy s → authentic (dec_bytes s) T →
  decode_trie_internal fuel (trie_ref T) s = (Ok id, s') →
  ∃ a, root a = id ∧ view (erase a) T ∧ added s s' a.
Proof.
  revert fuel s id s'. induction T as [|d|path v|path c IH|cs IH] using trie_nested_ind;
    intros fuel s id s' Hk Hroom Hauth Hrun; (destruct fuel as [|fuel]; [done|]);
    try (by destruct Hk as [Hct _]; inversion Hct); try (by destruct Hk as (_ & Hr & _); inversion Hr);
    destruct (decode_internal_inv _ _ _ _ _ Hk Hroom Hauth Hrun)
      as (s1 & Hreads & Hroom1 & Hlt & Htrie & [(d & Href & Hd & Hadd)|Hlist]);
    try (destruct (added_node s s1 s' (ADigest (num_nodes (dec_trie s1)) d) id) as [-> Hadded];
      [done|done|done|done|constructor|constructor|by intros j ?%elem_of_nil|exact Hadd|];
      eexists; split; [reflexivity|]; split; [by constructor|exact Hadded]).
  - destruct Hk as (Hct & Hr & Hsz). inversion Hct as [|nibs ? Hn| |]; subst. inversion Hsz; subst.
    rewrite decode_list_leaf in Hlist by (done || by apply hp_encode_leaf).
    destruct (added_node s s1 s' (ALeaf (num_nodes (dec_trie s1)) (hp_encode nibs true) v) id)
      as [-> Hadded]; [done|done|done|done|constructor|constructor|by intros j ?%elem_of_nil|exact Hlist|].
    eexists. split; [reflexivity|]. split; [constructor|exact Hadded].
  - pose proof Hk as (Hct & Hr & Hsz). inversion Hct as [| |nibs ? Hn Hne Hb Hc|]; subst.
    inversion Hsz; subst. fold (extension nibs c) in *.
    unfold extension in Hlist. rewrite decode_list_extension in Hlist by (done || by apply hp_encode_leaf || by apply hp_encode_nonempty).
    apply machine_bind_inv in Hlist as (cid & s2 & Hcrun & Hadd).
    destruct (IH fuel s1 cid s2) as (a & <- & Hv & Hadded); [by eapply known_extension|done| |done|].
    { destruct (reads_suffix _ _ Hreads) as [k ->]. apply authentic_drop. by eapply authentic_child. }
    destruct Hadded as [Hreads2 Hrep Hfresh].
    destruct (added_node s s2 s' (AExtension (num_nodes (dec_trie s2)) (hp_encode nibs false) a) id)
      as [-> Hadded2].
    + by eapply reads_trans.
    + pose proof (reads_count _ _ Hreads2). lia.
    + by eapply reads_roomy.
    + done.
    + apply Hrep.
    + apply Hrep.
    + intros j Hj. apply Hfresh in Hj. rewrite Htrie in Hj. done.
    + cbn [data]. assert (trie_ref (erase (AExtension (num_nodes (dec_trie s2)) (hp_encode nibs false) a))
        = trie_ref (extension nibs c)) as -> by (apply view_ref; by constructor). exact Hadd.
    + eexists. split; [reflexivity|]. split; [by constructor|exact Hadded2].
  - pose proof Hk as (Hct & Hr & Hsz). inversion Hct as [| | |? Hlen Hrem Hcs]; subst.
    rewrite decode_list_branch in Hlist by (done || by apply known_slots_sized).
    apply machine_bind_inv in Hlist as (childs & s2 & Hcrun & Hadd).
    destruct (decode_refs_added view (λ s, authentic (dec_bytes s) (TBranch cs))
      (decode_trie_internal fuel) cs childs s1 s2) as (acs & -> & Hslots);
      [| |done| |done|].
    { intros i c s3 cid s4 Hi Hroom3 Hauth3 Hc. eapply (IH _ _ Hi); [by eapply known_slot|done| |done].
      by eapply authentic_slot. }
    { intros s3 s4 [_ _ [k ->]] Hauth3. by apply authentic_drop. }
    { destruct (reads_suffix _ _ Hreads) as [k ->]. by apply authentic_drop. }
    destruct Hslots as [Hreads2 Hv Hok Hnd Hfresh].
    assert (view (erase (ABranch (num_nodes (dec_trie s2)) acs)) (TBranch cs)) as Hview.
    { rewrite erase_branch. constructor.
      - rewrite length_fmap. by eapply Forall2_length.
      - intros i c Hi. rewrite list_lookup_fmap in Hi.
        destruct (acs !! i) as [[a|]|] eqn:Ha; cbn in Hi; simplify_eq.
        eapply Forall2_lookup_l in Hv as (o & Ho & Hrel); [|done]. destruct o; [by eexists|done].
      - intros i Hi. rewrite list_lookup_fmap in Hi.
        destruct (acs !! i) as [[a|]|] eqn:Ha; cbn in Hi; simplify_eq.
        eapply Forall2_lookup_l in Hv as (o & Ho & Hrel); [|done]. by destruct o. }
    destruct (added_node s s2 s' (ABranch (num_nodes (dec_trie s2)) acs) id) as [-> Hadded2].
    + by eapply reads_trans.
    + pose proof (reads_count _ _ Hreads2). lia.
    + by eapply reads_roomy.
    + done.
    + exact Hok.
    + exact Hnd.
    + intros j Hj. apply Hfresh in Hj. rewrite Htrie in Hj. done.
    + cbn [data]. rewrite (view_ref _ _ Hview). exact Hadd.
    + eexists. split; [reflexivity|]. split; [exact Hview|exact Hadded2].
Qed.
End authentication.

(** ** Decoding a whole trie *)

Section whole.
Context `{CratesOk}.

(** One cell per node, whatever the input. *)
Definition paired (s : Decoder) : Prop :=
  length (cached_references (dec_trie s)) = length (nodes (dec_trie s)).

Definition measure (s : Decoder) : nat := num_nodes (dec_trie s) + length (dec_bytes s).

(** [f] keeps nodes and cells paired, and adds at most [k] nodes more than it
    reads bytes. *)
Definition keeps {A} (k : nat) (f : machine Decoder Error A) : Prop :=
  ∀ s a s', f s = (Ok a, s') → paired s → paired s' ∧ measure s' ≤ measure s + k.

Lemma keeps_bind {A B} i j (f : machine Decoder Error A) (g : A → machine Decoder Error B) :
  keeps i f → (∀ a, keeps j (g a)) → keeps (i + j) (f ≫= g).
Proof.
  intros Hf Hg s b s' (a & s1 & Ha & Hb)%machine_bind_inv Hp.
  destruct (Hf _ _ _ Ha Hp) as [Hp1 Hm1]. destruct (Hg _ _ _ _ Hb Hp1) as [Hp2 Hm2].
  split; [done|lia].
Qed.

Lemma keeps_ret {A} k (a : A) : keeps k (mret a).
Proof. intros s b s' [= <- <-]. split; [done|lia]. Qed.

Lemma keeps_lift {A} (o : outcome Error A) : keeps 0 (lift o).
Proof. intros s b s' [= _ <-]. split; [done|lia]. Qed.

Lemma keeps_throw {A} k (e : Error) : keeps k (throw (A:=A) e).
Proof. by intros s b s' [=]. Qed.

Lemma keeps_add d r : keeps 1 (dec_add_node d r).
Proof.
  intros s id s' Hadd Hp. unfold dec_add_node, add_node in Hadd.
  revert Hadd. exec. intros [= <- <-]. unfold paired, measure, num_nodes in *. cbn.
  rewrite !length_app, Hp. cbn. lia.
Qed.

Lemma keeps_slot dc item : (∀ r, keeps 0 (dc r)) → keeps 0 (decode_slot dc item).
Proof.
  intros Hdc. unfold decode_slot. case_decide; [apply keeps_ret|].
  apply (keeps_bind 0 0); [done|]. intros id. apply keeps_ret.
Qed.

Lemma keeps_slots dc n payload : (∀ r, keeps 0 (dc r)) → keeps 0 (decode_slots dc n payload).
Proof.
  intros Hdc. revert payload. induction n as [|n IH]; intros payload; [apply keeps_ret|].
  cbn [decode_slots]. apply (keeps_bind 0 0); [apply keeps_lift|]. intros [[[? ?] ?] ?].
  apply (keeps_bind 0 0); [by apply keeps_slot|]. intros child.
  apply (keeps_bind 0 0); [apply IH|]. intros [? ?]. apply keeps_ret.
Qed.

Lemma keeps_list dc payload r : (∀ r, keeps 0 (dc r)) → keeps 1 (decode_list dc payload r).
Proof.
  intros Hdc. unfold decode_list. apply (keeps_bind 0 1); [apply keeps_lift|]. intros [[[? p0] i0] p1].
  apply (keeps_bind 0 1); [apply keeps_lift|]. intros [[[? p1'] i1] p2]. destruct p2 as [|x2 p2].
  - apply (keeps_bind 0 1); [apply keeps_lift|]. intros prefix. case_decide; [|apply keeps_add].
    apply (keeps_bind 0 1); [done|]. intros id. apply keeps_add.
  - apply (keeps_bind 0 1); [by apply keeps_slot|]. intros c0.
    apply (keeps_bind 0 1); [by apply keeps_slot|].
    intros c1. apply (keeps_bind 0 1); [by apply keeps_slots|]. intros [childs rest].
    case_decide; [apply keeps_throw|apply keeps_add].
Qed.

(** [decode_trie_internal] reads an item, and goes on from there. *)
Lemma decode_internal_start fuel r s id s' :
  decode_trie_internal (S fuel) r s = (Ok id, s') →
  ∃ l p item rest node_ref,
    let s1 := mkDecoder (dec_trie s) (drop (padding_len (length item)) rest) in
    decode_item (dec_bytes s) = Ok (l, p, item, rest) ∧
    check_reference l p item r = Ok node_ref ∧ measure s1 < measure s ∧
    (if l : bool then decode_list (decode_trie_internal fuel) p node_ref
     else if decide (length p = 0) then mret NULL_NODE_ID
     else if decide (length p = 32) then dec_add_node (Digest p) (DigestRef p)
     else throw (RlpError UnexpectedLength)) s1 = (Ok id, s').
Proof.
  intros Hrun. cbn [decode_trie_internal] in Hrun. rewrite machine_bind_get in Hrun.
  apply machine_bind_inv in Hrun as ([[[l p] item] rest] & s0 & Hitem & Hrun).
  injection Hitem as Hitem <-.
  apply machine_bind_inv in Hrun as ([pad rest'] & s0 & Hpad & Hrun). injection Hpad as Hpad <-.
  unfold set_dec_bytes in Hrun. rewrite machine_bind_modify in Hrun. cbn beta iota in Hrun.
  apply machine_bind_inv in Hrun as (node_ref & s0 & Hcheck & Hrun). injection Hcheck as Hcheck <-.
  unfold advance_unchecked in Hpad. destruct (decide _) as [Hle|]; [|done]. injection Hpad as _ <-.
  exists l, p, item, rest, node_ref. split_and!; [done|done| |done].
  pose proof (decode_item_inv _ _ _ _ _ Hitem) as (Hbytes & Hitem1 & _).
  unfold measure. rewrite Hbytes, length_app. cbn. rewrite length_drop. lia.
Qed.

Lemma keeps_internal fuel r : keeps 0 (decode_trie_internal fuel r).
Proof.
  revert r. induction fuel as [|fuel IH]; intros r s id s' Hrun Hp; [done|].
  apply decode_internal_start in Hrun as (l & p & item & rest & node_ref & _ & _ & Hm & Hrun).
  set (s1 := mkDecoder _ _) in *. assert (paired s1) as Hp1 by done.
  assert (paired s' ∧ measure s' ≤ measure s1 + 1) as [? ?]; [|split; [done|lia]].
  destruct l; [by eapply keeps_list|].
  repeat case_decide.
  - by eapply (keeps_ret 1).
  - by eapply keeps_add.
  - done.
Qed.

(** The node just added, with its reference in the cache. *)
Definition installed (s : Decoder) (id : NodeId) (r : NodeRef) : Prop :=
  cached_references (dec_trie s) !! id = Some (new_cell (Some r)) ∧
  ∃ d, nodes (dec_trie s) !! id = Some d ∧ d ≠ Null.

Lemma dec_add_installed d r s id s' :
  d ≠ Null → paired s → (N.of_nat (num_nodes (dec_trie s)) < u32_modulus)%N →
  dec_add_node d r s = (Ok id, s') → installed s' id r.
Proof.
  intros Hd Hp Hn Hadd. rewrite dec_add_ok in Hadd by done. injection Hadd as <- <-.
  split; [cbn; apply list_lookup_middle; by rewrite Hp|]. exists d. split; [|done].
  cbn. by apply list_lookup_middle.
Qed.

Lemma decode_list_installed dc payload r s id s' :
  (∀ r, keeps 0 (dc r)) → paired s → (N.of_nat (measure s) < u32_modulus)%N →
  decode_list dc payload r s = (Ok id, s') → installed s' id r.
Proof.
  intros Hdc Hp Hm Hrun. unfold decode_list in Hrun.
  apply machine_bind_inv in Hrun as ([[[? p0] i0] p1] & s1 & [= _ <-] & Hrun).
  apply machine_bind_inv in Hrun as ([[[? p1'] i1] p2] & s1 & [= _ <-] & Hrun).
  assert (∀ d s1, d ≠ Null → paired s1 ∧ measure s1 ≤ measure s + 0 →
    dec_add_node d r s1 = (Ok id, s') → installed s' id r) as Hadd.
  { intros d s1 Hd [Hp1 Hm1]. apply dec_add_installed; [done..|]. unfold measure in *. lia. }
  destruct p2 as [|x2 p2].
  - apply machine_bind_inv in Hrun as (prefix & s1 & [= _ <-] & Hrun). case_decide.
    + apply machine_bind_inv in Hrun as (cid & s1 & Hc & Hrun). refine (Hadd _ _ _ _ Hrun); [done|].
      by eapply Hdc.
    + refine (Hadd _ _ _ _ Hrun); [done|]. split; [done|lia].
  - apply machine_bind_inv in Hrun as (c0 & s1 & Hr0 & Hrun).
    apply machine_bind_inv in Hrun as (c1 & s2 & Hr1 & Hrun).
    apply machine_bind_inv in Hrun as ([cs rest] & s3 & Hr2 & Hrun). case_decide; [discriminate|].
    refine (Hadd _ _ _ _ Hrun); [done|].
    destruct (keeps_slot dc _ Hdc _ _ _ Hr0 Hp) as [Hp1 Hm1].
    destruct (keeps_slot dc _ Hdc _ _ _ Hr1 Hp1) as [Hp2 Hm2].
    destruct (keeps_slots dc _ _ Hdc _ _ _ Hr2 Hp2) as [Hp3 Hm3]. split; [done|lia].
Qed.

Lemma hash_installed s id r h m' :
  installed s id r → hash (set_root_id id (dec_trie s)) = (Ok h, m') →
  match r with DigestRef d => h = d | BytesRef slice => h = keccak256 slice end.
Proof.
  intros [Hcell (d & Hnode & Hd)] Hhash. unfold hash in Hhash. revert Hhash. exec.
  erewrite machine_bind_ok by (by apply node_at_ok).
  assert (cached_reference (calc_reference (mpt_fuel (set_root_id id (dec_trie s)))) id
    (set_root_id id (dec_trie s)) = (Ok r, set_root_id id (dec_trie s))) as Hc.
  { unfold cached_reference. by erewrite machine_bind_ok by (by apply cell_at_ok). }
  destruct d; [done| | | |]; cbn beta iota; (erewrite machine_bind_ok by exact Hc);
    (destruct r as [slice|dg]; [by intros [= <-]|]); unfold lift, from_slice;
    case_decide; by intros [= <-].
Qed.

(** The root hash of a decoded trie tells what its first node was checked
    against. *)
Lemma decode_trie_root buf n m rest h m' :
  (N.of_nat (length buf) + 1 < u32_modulus)%N →
  decode_trie buf n = Ok (m, rest) → hash m = (Ok h, m') →
  m = new ∨
  (∃ l p item rest', decode_item buf = Ok (l, p, item, rest') ∧ length item < 32 ∧
     h = keccak256 item ∧ (l = false → p ≠ [])) ∨
  (∃ s id, decode_trie_internal (S (length buf)) (DigestRef h) (mkDecoder new buf) = (Ok id, s) ∧
     m = set_root_id id (dec_trie s)).
Proof.
  intros Hlen Hdec Hhash. unfold decode_trie in Hdec.
  destruct (decide (buf = _)) as [_|_].
  { injection Hdec as <- <-. by left. }
  change (with_capacity _) with new in Hdec.
  unfold root_reference in Hdec.
  destruct (decode_item buf) as [[[[l p] item] rest0]| | |] eqn:Hitem; try done.
  set (ref := if decide (length item < 32) then BytesRef item
              else if negb l then DigestRef p else DigestRef (keccak256 item)).
  assert (match decode_trie_internal (S (length buf)) ref (mkDecoder new buf) with
    | (Ok root_id, s) => Ok (set_root_id root_id (dec_trie s), dec_bytes s)
    | (Err e, _) => Err e
    | (Panic p, _) => Panic p
    | (OutOfFuel, _) => OutOfFuel
    end = Ok (m, rest)) as Hrun.
  { rewrite <-Hdec. unfold ref. cbn. by destruct (decide (length item < 32)); [|destruct l]. }
  clear Hdec. destruct (decode_trie_internal _ ref _) as [[id| | |] s] eqn:Hint; try done.
  injection Hrun as <- <-.
  pose proof Hint as Hstart.
  apply decode_internal_start in Hstart as (l' & p' & item' & rest' & r & Hitem' & Hcheck & Hm & Hstep).
  cbn [dec_bytes dec_trie] in Hitem'. rewrite Hitem in Hitem'. injection Hitem' as <- <- <- <-.
  cbn [dec_trie] in Hm, Hstep. set (s1 := mkDecoder new (drop (padding_len (length item)) rest0)) in *.
  assert (paired s1 ∧ (N.of_nat (measure s1) < u32_modulus)%N) as [Hp1 Hm1].
  { split; [done|]. assert (measure (mkDecoder new buf) = 1 + length buf) by done. lia. }
  assert (set_root_id id (dec_trie s) = new ∨ installed s id r ∧ (l = false → p ≠ []))
    as [->|[Hinst Hpl]]; [|by left|right].
  { destruct l; [right; split; [|by intros [=]]; eapply (decode_list_installed (decode_trie_internal (length buf)));
      [intros r0; apply keeps_internal|exact Hp1|exact Hm1|exact Hstep]|].
    destruct (decide (length p = 0)) as [Hz|Hz].
    { left. by injection Hstep as <- <-. }
    destruct (decide (length p = 32)) as [H32|H32]; [|done]. right. split; [|by intros _ ->].
    eapply dec_add_installed in Hstep; [|done..|unfold measure in *; lia].
    pose proof (decode_item_payload _ _ _ _ _ Hitem) as Hle.
    unfold check_reference, ref in Hcheck. rewrite !decide_False, decide_True in Hcheck by lia.
    cbn [negb] in Hcheck. rewrite (decide_False (P:=length item < 32)) in Hcheck by lia.
    destruct (decide (p ≠ as_slice (DigestRef p))) as [Hn|_]; [by destruct Hn|].
    by injection Hcheck as <-. }
  pose proof (hash_installed _ _ _ _ _ Hinst Hhash) as Hh.
  unfold check_reference in Hcheck. destruct (decide (length item < 32)) as [Hshort|Hlong].
  - left. exists l, p, item, rest0. split_and!; [done|done| |done].
    destruct (decide (item ≠ as_slice ref)); [discriminate Hcheck|]. by injection Hcheck as <-.
  - right. exists s, id. split; [|done].
    assert (r = ref) as ->.
    { destruct (decide (length p = 32 ∧ l = false)); destruct (decide (_ ≠ as_slice ref));
        first [discriminate Hcheck|by injection Hcheck]. }
    assert (ref = DigestRef h) as <-; [|done].
    unfold ref in *. destruct l; cbn [negb] in *; by subst h.
Qed.
End whole.
