(* ===== verification/TrieBounds.v ===== *)
(** * How high a trie is and how long its encodings are

    A canonical trie whose keys have [n] nibbles is at most [n + 1] nodes high,
    and its encoding grows with [n]: with 32-byte keys the root is always
    referred to by its hash. *)

From S2P Require Import Prelude External Node Hp Mpt Trie TrieLaws TrieHash MptRefine MptHash MptSpec.
From S2P Require Import Codec CodecLaws.

Section bounds.
Context `{CratesOk}.

Lemma uniform_height n t : uniform n t → canonical_node t → height t ≤ S n.
Proof.
  revert n. induction t as [|d|path v|path c IH|cs IH] using trie_nested_ind; intros n Hu Hct;
    try (cbn; lia).
  - inversion Hct as [| |nibs ? Hn Hne Hb Hc|]; subst. inversion Hu; subst. cbn.
    rewrite hp_decode_encode by done. destruct nibs; [done|]. specialize (IH _ ltac:(done) Hc). cbn. lia.
  - inversion Hct as [| | |? Hlen Hrem Hcs]; subst. inversion Hu as [| | | |n' ? Hucs]; subst.
    assert (∀ o, o ∈ cs → match o with Some c => height c | None => 0 end ≤ S n') as Hall.
    { intros [c|] [i Hi]%list_elem_of_lookup; [|lia]. by eapply IH; eauto. }
    cbn. apply le_n_S. clear -Hall. induction cs as [|o cs IHcs]; cbn; [lia|].
    assert (max_list (map (λ o, match o with Some c => height c | None => 0 end) cs) ≤ S n').
    { apply IHcs. intros o' Ho'. apply Hall. by right. }
    specialize (Hall o ltac:(left)). lia.
Qed.

Lemma canonical_height n t : uniform n t → canonical t → height t ≤ S n.
Proof. intros Hu [->|Hct]; [cbn; lia|by apply uniform_height]. Qed.

(** A reference is as long as the encoding, or a digest's 33 bytes. *)
Lemma ref_length t :
  canonical_node t → sized t →
  length (ref_bytes (trie_ref t)) = 33 ∨ ref_bytes (trie_ref t) = trie_rlp t.
Proof.
  intros Hct Hs. destruct (trie_ref_cases t Hs) as [(d & -> & Hd)|[[-> _]|(_ & -> & _)]]; [|by inversion Hct|by right].
  left. cbn. lia.
Qed.

Lemma list_rlp_longer p : fits_usize (length p) → length p < length (list_rlp p).
Proof.
  intros Hp. unfold list_rlp. rewrite length_app.
  destruct (header_encode true (length p)) eqn:He; [|cbn; lia]. exfalso.
  pose proof (header_decode_list (length p) (slice_encode p) Hp) as Hl. rewrite He in Hl. cbn [app] in Hl.
  pose proof (header_decode_string p [] Hp) as Hd. rewrite !app_nil_r in Hd.
  assert (length p ≤ length (slice_encode p)) as Hle; [|rewrite Hd in Hl; by specialize (Hl Hle)].
  apply header_decode_advances in Hd as (h & -> & ? & _). rewrite length_app. lia.
Qed.

Lemma slice_encode_longer p : fits_usize (length p) → length p ≤ length (slice_encode p).
Proof.
  intros Hp. pose proof (header_decode_string p [] Hp) as Hd. rewrite !app_nil_r in Hd.
  apply header_decode_advances in Hd as (h & -> & ? & _). rewrite length_app. lia.
Qed.

(** As many children as there are, each as long as any. *)
Lemma slots_length (cs : list (option trie)) (f : option trie → nat) k :
  (∀ i c, cs !! i = Some (Some c) → k ≤ f (Some c)) →
  length (remaining_children cs) * k ≤ sum_list (f <$> cs).
Proof.
  induction cs as [|o cs IH]; intros Hk; [done|]. rewrite remaining_children_cons, length_app, length_fmap.
  cbn. specialize (IH (λ i, Hk (S i))). specialize (Hk 0). destruct o as [c|]; cbn; [|lia].
  specialize (Hk c eq_refl). lia.
Qed.

Lemma concat_slots_length cs : length (concat (slot_bytes <$> cs)) = sum_list ((λ o, length (slot_bytes o)) <$> cs).
Proof. induction cs as [|o cs IH]; [done|]. cbn. by rewrite length_app, <-IH. Qed.

Lemma rlp_long n t :
  uniform n t → canonical_node t → sized t → n + 2 ≤ 2 * length (trie_rlp t) ∨ 32 ≤ length (trie_rlp t).
Proof.
  revert n. induction t as [|d|path v|path c IH|cs IH] using trie_nested_ind; intros n Hu Hct Hs;
    try (by inversion Hct).
  - right. inversion Hct; subst. cbn. rewrite slice_encode_B256 by done. cbn. lia.
  - left. inversion Hct as [|nibs ? Hn| |]; subst. inversion Hu; subst. inversion Hs as [| |? ? Hp _ Hpay| |]; subst.
    rewrite hp_decode_encode by done. pose proof (list_rlp_longer _ Hpay) as Hl.
    rewrite rlp_of_list_node by done. cbn [trie_payload] in *. rewrite length_app in Hl.
    pose proof (slice_encode_longer _ Hp) as Hlp. rewrite hp_encode_length in Hlp.
    pose proof (Nat.div_mod_eq (length nibs) 2). pose proof (Nat.mod_upper_bound (length nibs) 2). lia.
  - inversion Hct as [| |nibs ? Hn Hne Hb Hc|]; subst. inversion Hu as [| | |? ? ? Huc|]; subst.
    inversion Hs as [| | |? ? Hp Hpay Hsc|]; subst. rewrite hp_decode_encode by done.
    pose proof (list_rlp_longer _ Hpay) as Hl. rewrite rlp_of_list_node by done.
    cbn [trie_payload] in *. rewrite length_app in Hl.
    pose proof (slice_encode_longer _ Hp) as Hlp. rewrite hp_encode_length in Hlp.
    pose proof (Nat.div_mod_eq (length nibs) 2). pose proof (Nat.mod_upper_bound (length nibs) 2).
    specialize (IH _ Huc Hc Hsc). destruct (ref_length c Hc Hsc) as [Href|Href]; rewrite Href in *; lia.
  - inversion Hct as [| | |? Hlen Hrem Hcs]; subst. inversion Hu as [| | | |n' ? Hucs]; subst.
    inversion Hs as [| | | |? Hpay Hscs]; subst.
    pose proof (list_rlp_longer _ Hpay) as Hl. rewrite rlp_of_list_node by done.
    cbn [trie_payload] in *. rewrite length_app in Hl.
    assert (length (remaining_children cs) * (32 `min` ((n' + 3) / 2)) ≤ length (concat (slot_bytes <$> cs))) as Hsum.
    { rewrite concat_slots_length. apply (slots_length _ (λ o, length (slot_bytes o))). intros i c Hi. cbn [slot_bytes].
      specialize (IH _ _ Hi n' (Hucs _ _ Hi) (Hcs _ _ Hi) (Hscs _ _ Hi)).
      pose proof (Nat.div_mod_eq (n' + 3) 2). pose proof (Nat.mod_upper_bound (n' + 3) 2).
      destruct (ref_length c (Hcs _ _ Hi) (Hscs _ _ Hi)) as [Href|Href]; rewrite Href; lia. }
    pose proof (Nat.div_mod_eq (n' + 3) 2). pose proof (Nat.mod_upper_bound (n' + 3) 2).
    assert (2 * (32 `min` ((n' + 3) / 2)) ≤ length (remaining_children cs) * (32 `min` ((n' + 3) / 2))) by
      (by apply Nat.mul_le_mono_r). lia.
Qed.

(** The root of a trie with keys of 31 bytes or more has a digest. *)
Lemma root_digest n t :
  62 ≤ n → uniform n t → canonical_node t → sized t → trie_ref t = DigestRef (trie_hash t).
Proof.
  intros Hn Hu Hct Hs. unfold trie_hash.
  destruct (trie_ref_cases t Hs) as [(d & Hr & Hd)|[[-> _]|(Hl & Hr & Hlen)]]; [|by inversion Hct|].
  - rewrite Hr. by inversion Hct.
  - destruct (rlp_long n t Hu Hct Hs); lia.
Qed.

(** ** Shorter paths give shorter encodings *)

Lemma hp_head_small nibs leaf : nibbles nibs → ∃ b rest, hp_encode nibs leaf = b :: rest ∧ (b < 0x80)%N.
Proof.
  intros Hn. unfold hp_encode. destruct (Nat.even (length nibs)) eqn:He.
  - eexists _, _. split; [done|]. by destruct leaf.
  - destruct nibs as [|n rest]; [done|]. inversion Hn as [|? ? Hn0 _]; subst. eexists _, _. split; [done|].
    apply N.ltb_lt. apply (nibble_forall (λ n, ((hp_flag leaf |. 0x10) |. n)%u8 <? 0x80)%N); [|done].
    by destruct leaf.
Qed.

Lemma path_encode_length nibs leaf :
  nibbles nibs → length (hp_encode nibs leaf) ≤ 55 →
  length (slice_encode (hp_encode nibs leaf)) =
  if decide (length (hp_encode nibs leaf) = 1) then 1 else S (length (hp_encode nibs leaf)).
Proof.
  intros Hn Hl. case_decide as H1; [|by rewrite slice_encode_short].
  destruct (hp_head_small nibs leaf Hn) as (b & rest & Hhp & Hb). rewrite Hhp in H1 |- *.
  destruct rest; [|done]. by rewrite slice_encode_byte.
Qed.

Lemma path_drop_length i nibs leaf :
  nibbles nibs → length (hp_encode nibs leaf) ≤ 55 →
  length (slice_encode (hp_encode (drop i nibs) leaf)) ≤ length (slice_encode (hp_encode nibs leaf)).
Proof.
  intros Hn Hl. assert (length (hp_encode (drop i nibs) leaf) ≤ length (hp_encode nibs leaf)) as Hle.
  { rewrite !hp_encode_length, length_drop. apply le_n_S, Nat.Div0.div_le_mono. lia. }
  rewrite !path_encode_length; [|done|done|by apply Forall_drop|lia].
  pose proof (hp_encode_length nibs leaf). pose proof (hp_encode_length (drop i nibs) leaf).
  repeat case_decide; lia.
Qed.

(** A payload of less than 32 bytes has a header of one byte. *)
Lemma list_rlp_short p q : length p ≤ length q → length (list_rlp q) < 32 → length (list_rlp p) < 32.
Proof.
  intros Hle Hq. rewrite list_rlp_length in Hq |- *.
  rewrite !length_of_length_short in * by lia. lia.
Qed.
End bounds.
