(* ===== verification/Decode.v ===== *)
(** * Serialization theorems

    [decode_trie] inverts [encode_trie], and authenticates: what it accepts under
    the root hash of a state is a partial view of that state.  Also: the reference
    caches of every arena that operations lead to from there are right. *)

From S2P Require Import Prelude External Concrete Node Hp Mpt Trie TrieLaws Canon TrieHash.
From S2P Require Import MptRefine MptHash MptSpec TrieMap View Stateless Codec CodecLaws.

Section decode.
Context `{CratesOk}.

(** ** Round trip *)

Lemma decode_item_node t rest :
  canonical_node t → sized t →
  ∃ p, decode_item (trie_rlp t ++ rest) = Ok (is_list_node t, p, trie_rlp t, rest) ∧
    (is_list_node t = true → p = trie_payload t) ∧ (∀ d, t = TDigest d → p = d).
Proof.
  intros Hct Hsz. destruct (is_list_node t) eqn:Hl.
  - exists (trie_payload t). rewrite rlp_of_list_node by done.
    split_and!; [by apply decode_item_list, sized_payload|done|by intros d ->].
  - destruct Hct as [d Hd| | |]; try done. exists d. cbn.
    split_and!; [|done|by intros ? [= <-]]. apply decode_item_string. rewrite Hd. auto with reth.
Qed.

Lemma check_reference_node t p :
  canonical_node t → sized t →
  (is_list_node t = true → p = trie_payload t) → (∀ d, t = TDigest d → p = d) →
  check_reference (is_list_node t) p (trie_rlp t) (trie_ref t) = Ok (trie_ref t).
Proof.
  intros Hct Hsz Hp Hd. unfold check_reference.
  destruct (is_list_node t) eqn:Hl.
  - unfold trie_ref, reference_with.
    destruct t; try done; case_decide as Hlen; cbn [as_slice];
      rewrite ?(decide_False (P := length p = 32 ∧ true = false)) by (by intros []);
      by rewrite decide_False by (intros Hn; by apply Hn).
  - destruct Hct as [d Hlen| | |]; try done. rewrite (Hd d eq_refl). cbn.
    rewrite slice_encode_B256 by done. cbn [length]. rewrite decide_False by lia.
    rewrite decide_True by done. by rewrite decide_False by (intros Hn; by apply Hn).
Qed.

Lemma node_rlp_nonempty t : canonical_node t → sized t → 1 ≤ length (trie_rlp t).
Proof.
  intros Hct Hsz. destruct (decode_item_node t [] Hct Hsz) as (p & Hd & _).
  by apply decode_item_inv in Hd as (_ & ? & _).
Qed.

Lemma canonical_slot cs i c : canonical_node (TBranch cs) → cs !! i = Some (Some c) → canonical_node c.
Proof. intros Hct Hi. inversion Hct; subst. eauto. Qed.

Lemma canonical_slots_sized cs : canonical_node (TBranch cs) → sized (TBranch cs) → slots_sized cs.
Proof.
  intros Hct Hsz i c Hi. inversion Hsz; subst. split; [eauto|].
  intros ->. by apply canonical_slot in Hi; [inversion Hi|].
Qed.

Definition slots_encoding (cs : list (option trie)) : bytes :=
  concat (map (λ o, match o with Some c => trie_encode c | None => [] end) cs).

(** Decoding an encoded tree, followed by anything, adds that tree. *)
Definition decodes (fuel : nat) (t : trie) : Prop :=
  ∀ s rest, roomy s → dec_bytes s = trie_encode t ++ rest →
  ∃ s' a, decode_trie_internal fuel (trie_ref t) s = (Ok (root a), s') ∧
    erase a = t ∧ added s s' a ∧ dec_bytes s' = rest.

Lemma decode_slots_ok fuel cs s rest :
  (∀ i c, cs !! i = Some (Some c) → decodes fuel c) →
  roomy s → dec_bytes s = slots_encoding cs ++ rest →
  ∃ s' acs, mapM (decode_ref (decode_trie_internal fuel)) cs s = (Ok (option_map root <$> acs), s') ∧
    added_slots eq s s' acs cs ∧ dec_bytes s' = rest.
Proof.
  revert s. induction cs as [|o cs IH]; intros s Hdec Hroom Hbytes.
  { exists s, []. split_and!; [done| |done].
    split; [apply reads_refl|constructor|constructor|constructor|by intros j ?%elem_of_nil]. }
  assert (∀ i c, cs !! i = Some (Some c) → decodes fuel c) as Hdec' by (intros i; apply (Hdec (S i))).
  cbn [mapM]. destruct o as [c|]; cbn [decode_ref].
  - unfold slots_encoding in Hbytes. cbn [map concat] in Hbytes. rewrite <-app_assoc in Hbytes.
    destruct (Hdec 0 c eq_refl s _ Hroom Hbytes) as (s1 & a & Hrun & He & Hadd & Hb1).
    destruct (IH s1 Hdec') as (s2 & acs & Hrun2 & Hslots & Hb2);
      [by eapply reads_roomy; [apply Hadd|]|done|].
    exists s2, (Some a :: acs). rewrite machine_bind_bind.
    erewrite machine_bind_ok by exact Hrun. rewrite machine_bind_ret.
    erewrite machine_bind_ok by exact Hrun2. split_and!; [done| |done].
    by eapply added_slots_cons.
  - destruct (IH s Hdec') as (s2 & acs & Hrun2 & Hslots & Hb2); [done|done|].
    exists s2, (None :: acs). rewrite machine_bind_ret.
    erewrite machine_bind_ok by exact Hrun2. split_and!; [done| |done].
    by apply added_slots_none.
Qed.

(** [decode_trie_internal] after it read the node [t]. *)
Lemma decode_node_step fuel t s rest :
  canonical_node t → sized t → roomy s → dec_bytes s = padded t ++ rest →
  let s1 := mkDecoder (dec_trie s) rest in
  reads s s1 ∧ measure s1 < measure s ∧
  decode_trie_internal (S fuel) (trie_ref t) s =
  (if is_list_node t then decode_list (decode_trie_internal fuel) (trie_payload t) (trie_ref t)
   else dec_add_node (data (match t with TDigest d => ADigest 0 d | _ => ANull 0 end)) (trie_ref t)) s1.
Proof.
  intros Hct Hsz Hroom Hbytes. cbv zeta.
  unfold padded in Hbytes. rewrite <-app_assoc in Hbytes.
  destruct (decode_item_node t (padding (length (trie_rlp t)) ++ rest) Hct Hsz)
    as (p & Hitem & Hp & Hd).
  pose proof (node_rlp_nonempty t Hct Hsz) as Hne. split_and!.
  - split; [apply evolves_refl| |].
    + cbn [dec_trie dec_bytes]. rewrite Hbytes, !length_app. lia.
    + exists (length (trie_rlp t) + padding_len (length (trie_rlp t))). rewrite Hbytes.
      rewrite <-drop_drop, drop_app_length. cbn. unfold padding.
      by rewrite drop_app_length' by (by rewrite length_replicate).
  - unfold measure. cbn [dec_trie dec_bytes]. rewrite Hbytes, !length_app. lia.
  - cbn [decode_trie_internal]. rewrite machine_bind_get. rewrite Hbytes, Hitem, machine_bind_lift_ok.
    cbn beta iota. unfold advance_unchecked, padding.
    rewrite (decide_True (P := padding_len _ ≤ _)) by (rewrite length_app, length_replicate; lia).
    rewrite machine_bind_lift_ok. cbn beta iota.
    rewrite drop_app_length' by (by rewrite length_replicate).
    unfold set_dec_bytes. rewrite machine_bind_modify.
    rewrite (check_reference_node t p Hct Hsz Hp Hd), machine_bind_lift_ok. cbn beta.
    destruct (is_list_node t) eqn:Hl; [by rewrite (Hp eq_refl)|].
    destruct Hct as [d Hlen| | |]; try done. rewrite (Hd d eq_refl).
    by rewrite decide_False, decide_True by lia.
Qed.

Lemma added_node_ok s0 s a :
  reads s0 s → measure s < measure s0 → roomy s →
  root a = num_nodes (dec_trie s) → Forall (node_ok (dec_trie s)) (below a) →
  NoDup (root <$> below a) → (∀ j, j ∈ root <$> below a → num_nodes (dec_trie s0) ≤ j) →
  ∃ s', dec_add_node (data a) (trie_ref (erase a)) s = (Ok (root a), s') ∧
    added s0 s' a ∧ dec_bytes s' = dec_bytes s.
Proof.
  intros Hreads Hm Hroom Hroot Hbelow Hnd Hfresh.
  pose proof (dec_add_ok (data a) (trie_ref (erase a)) s ltac:(destruct Hroom; lia)) as Hadd.
  eexists. rewrite Hroot. split; [exact Hadd|]. split; [|done].
  by eapply (added_node s0 s _ a) in Hadd as [_ ?].
Qed.

Lemma decodes_all t fuel : canonical_node t → sized t → height t ≤ fuel → decodes fuel t.
Proof.
  revert fuel. induction t as [|d|path v|path c IH|cs IH] using trie_nested_ind;
    intros fuel Hct Hsz Hf s rest Hroom Hbytes; [by inversion Hct| | | |];
    (destruct fuel as [|fuel]; [cbn in Hf; lia|]); cbn [trie_encode] in Hbytes; rewrite <-app_assoc in Hbytes;
    destruct (decode_node_step fuel _ s _ Hct Hsz Hroom Hbytes) as (Hreads & Hm & ->);
    (set (s1 := mkDecoder _ _) in *); pose proof (reads_roomy _ _ Hreads Hroom) as Hroom1;
    cbn [is_list_node].
  - destruct (added_node_ok s s1 (ADigest (num_nodes (dec_trie s1)) d)) as (s' & Hrun & Hadd & Hb);
      [done|done|done|done|constructor|constructor|by intros j ?%elem_of_nil|].
    exists s', (ADigest (num_nodes (dec_trie s1)) d). split_and!; [exact Hrun|done..].
  - inversion Hct as [|nibs ? Hn| |]; subst. inversion Hsz; subst.
    rewrite decode_list_leaf by (done || by apply hp_encode_leaf).
    destruct (added_node_ok s s1 (ALeaf (num_nodes (dec_trie s1)) (hp_encode nibs true) v))
      as (s' & Hrun & Hadd & Hb);
      [done|done|done|done|constructor|constructor|by intros j ?%elem_of_nil|].
    exists s', (ALeaf (num_nodes (dec_trie s1)) (hp_encode nibs true) v).
    split_and!; [exact Hrun|done..].
  - inversion Hct as [| |nibs ? Hn Hne Hb Hc|]; subst. inversion Hsz; subst.
    rewrite decode_list_extension by (done || by apply hp_encode_leaf || by apply hp_encode_nonempty).
    destruct (IH fuel Hc) with (s := s1) (rest := rest) as (s2 & a & Hrun & <- & Hadd & Hb2);
      [done|cbn in Hf; lia|done..|].
    destruct Hadd as [Hreads2 Hrep Hfresh].
    erewrite machine_bind_ok by exact Hrun.
    destruct (added_node_ok s s2 (AExtension (num_nodes (dec_trie s2)) (hp_encode nibs false) a))
      as (s' & Hrun' & Hadd & Hb').
    + by eapply reads_trans.
    + pose proof (reads_count _ _ Hreads2). unfold measure in *. lia.
    + by eapply reads_roomy.
    + done.
    + apply Hrep.
    + apply Hrep.
    + intros j Hj. by apply Hfresh in Hj.
    + eexists s', _. split_and!; [exact Hrun'|done|exact Hadd|congruence].
  - inversion Hct as [| | |? Hlen Hrem Hcs]; subst. inversion Hsz as [| | | |? Hfit Hscs]; subst.
    rewrite decode_list_branch by (done || by apply canonical_slots_sized).
    destruct (decode_slots_ok fuel cs s1 rest) as (s2 & acs & Hrun & Hslots & Hb2);
      [|done|done|].
    { intros i c Hi. apply (IH _ _ Hi); eauto. pose proof (height_child _ _ _ Hi). lia. }
    erewrite machine_bind_ok by exact Hrun. destruct Hslots as [Hreads2 Hv Hok Hnd Hfresh].
    assert (erase (ABranch (num_nodes (dec_trie s2)) acs) = TBranch cs) as He.
    { rewrite erase_branch. f_equal. clear -Hv. induction Hv as [|o o' acs cs Ho Hv IH]; [done|].
      cbn. rewrite IH. f_equal. destruct o, o'; cbn in Ho; by subst. }
    destruct (added_node_ok s s2 (ABranch (num_nodes (dec_trie s2)) acs)) as (s' & Hrun' & Hadd & Hb').
    + by eapply reads_trans.
    + pose proof (reads_count _ _ Hreads2). unfold measure in *. lia.
    + by eapply reads_roomy.
    + done.
    + exact Hok.
    + exact Hnd.
    + intros j Hj. by apply Hfresh in Hj.
    + rewrite He in Hrun'. eexists s', _. split_and!; [exact Hrun'|exact He|exact Hadd|congruence].
Qed.
Lemma slots_encoding_le cs i c :
  cs !! i = Some (Some c) → length (trie_encode c) ≤ length (slots_encoding cs).
Proof.
  revert i. induction cs as [|o cs IH]; intros [|i] Hi; try discriminate;
    unfold slots_encoding in *; cbn [map concat]; rewrite length_app.
  - injection Hi as ->. lia.
  - specialize (IH i Hi). lia.
Qed.

Lemma padded_nonempty t : canonical_node t → sized t → 1 ≤ length (padded t).
Proof. intros Hct Hsz. unfold padded. rewrite length_app. pose proof (node_rlp_nonempty t Hct Hsz). lia. Qed.

(** The bytes that are read are fuel enough. *)
Lemma height_le_encoding t : canonical_node t → sized t → height t ≤ length (trie_encode t).
Proof.
  induction t as [|d|path v|path c IH|cs IH] using trie_nested_ind; intros Hct Hsz;
    try (by inversion Hct); pose proof (padded_nonempty _ Hct Hsz) as Hp;
    cbn [trie_encode]; rewrite length_app; cbn [height]; [lia..| |].
  - inversion Hct; subst. inversion Hsz; subst. cbn [height]. unfold extension in *.
    assert (height c ≤ length (trie_encode c)) by auto. lia.
  - inversion Hct as [| | |? _ _ Hcs]; subst. inversion Hsz as [| | | |? _ Hscs]; subst.
    change (concat _) with (slots_encoding cs). cbn [height].
    assert (max_list (map (λ o, match o with Some c => height c | None => 0 end) cs)
      ≤ length (slots_encoding cs)); [|lia].
    assert (∀ o, o ∈ cs → match o with Some c => height c | None => 0 end ≤ length (slots_encoding cs)) as Hall.
    { intros [c|] [i Hi]%list_elem_of_lookup; [|lia]. etrans; [|by eapply slots_encoding_le]. eauto. }
    clear -Hall. revert Hall. generalize (length (slots_encoding cs)). intros n Hall.
    induction cs as [|o cs IH]; cbn; [lia|].
    assert (match o with Some c => height c | None => 0 end ≤ n) by (apply Hall; left).
    assert (max_list (map (λ o, match o with Some c => height c | None => 0 end) cs) ≤ n); [|lia].
    apply IH. intros o' Ho'. apply Hall. by right.
Qed.

Lemma encode_ref t rest :
  canonical_node t → sized t → root_reference (trie_encode t ++ rest) = Ok (trie_ref t).
Proof.
  intros Hct Hsz.
  assert (∃ tail, trie_encode t ++ rest = trie_rlp t ++ tail) as [tail ->].
  { destruct t; cbn [trie_encode]; unfold padded; rewrite <-!app_assoc; eauto. }
  destruct (decode_item_node t tail Hct Hsz) as (p & Hitem & _ & Hd).
  unfold root_reference. rewrite Hitem. cbn.
  destruct (is_list_node t) eqn:Hl; cbn.
  - unfold trie_ref, reference_with. by destruct t; try done; case_decide.
  - destruct Hct as [d Hlen| | |]; try done. rewrite (Hd d eq_refl). cbn.
    rewrite slice_encode_B256 by done. cbn [length]. by rewrite decide_False by lia.
Qed.

Lemma encode_not_empty t rest :
  canonical_node t → sized t → trie_encode t ++ rest ≠ [EMPTY_STRING_CODE; 0%N; 0%N; 0%N].
Proof.
  intros Hct Hsz Heq.
  assert (∃ tail, trie_encode t ++ rest = trie_rlp t ++ tail) as [tail Ht].
  { destruct t; cbn [trie_encode]; unfold padded; rewrite <-!app_assoc; eauto. }
  destruct (decode_item_node t tail Hct Hsz) as (p & Hitem & _ & Hd). rewrite <-Ht, Heq in Hitem.
  pose proof (decode_item_string [] [0%N; 0%N; 0%N] ltac:(auto with reth)) as He.
  rewrite slice_encode_nil in He. cbn [app] in He. rewrite He in Hitem. injection Hitem as Hl <- _ _.
  destruct Hct as [d Hlen| | |]; try done. by rewrite <-(Hd d eq_refl) in Hlen.
Qed.

(** Room for a node per byte, and for the null node. *)
Definition addressable (buf : bytes) : Prop := (N.of_nat (length buf) + 1 < u32_modulus)%N.

Lemma decode_encode t rest k :
  canonical_node t → sized t → addressable (trie_encode t ++ rest) →
  ∃ m, decode_trie (trie_encode t ++ rest) k = Ok (m, rest) ∧ models m t.
Proof.
  intros Hct Hsz Hlen. unfold decode_trie.
  destruct (decide (_ = _)) as [He|_]; [by apply encode_not_empty in He|].
  rewrite encode_ref by done. cbn [mbind outcome_bind].
  change (with_capacity _) with new.
  set (s0 := mkDecoder new _).
  assert (roomy s0) as Hroom.
  { split; [done|]. unfold addressable in Hlen. cbn [dec_trie dec_bytes s0]. change (num_nodes new) with 1. lia. }
  destruct (decodes_all t (S (length (trie_encode t ++ rest))) Hct Hsz) with (s := s0) (rest := rest)
    as (s' & a & -> & He & [Hreads Hrep _] & Hb).
  { pose proof (height_le_encoding t Hct Hsz). rewrite length_app. lia. }
  { done. }
  { done. }
  eexists. rewrite Hb. split; [done|]. exists a. split_and!; [exact Hrep|done|done| |by apply canonical_wf].
  apply (evolves_rest _ _ _ (reads_evolves _ _ Hreads)). apply Hroom.
Qed.

Lemma models_encode m t :
  models m t → ∃ m', encode_trie m = (Ok (trie_encode t), m') ∧ models m' t ∧ same_nodes m m'.
Proof.
  intros Hm. pose proof (models_fuel _ _ Hm) as Hf.
  destruct Hm as (a & Hr & Hroot & <- & Hrest & Hwf).
  destruct (encode_refines a (mpt_fuel m) Hwf Hf m) as (m' & Hrun & Hfill & Hok); [exact Hr|apply Hrest|done|].
  exists m'. unfold encode_trie. exec. rewrite <-Hroot. split_and!; [exact Hrun| |split; apply Hfill].
  exists a. split_and!; [|by rewrite (fills_root _ _ _ Hfill)|done| |done].
  - split; [exact Hok|apply Hr].
  - destruct Hrest as [Hl Hsc]. split.
    + by rewrite (fills_length _ _ _ Hfill), (fills_nodes _ _ _ Hfill).
    + by rewrite (fills_scratch _ _ _ Hfill).
Qed.

(** C17: Serialization round trip: [encode_trie] succeeds on every arena that holds
    a canonical trie, partly resolved ones included, and changes only caches;
    [decode_trie] accepts its output whatever capacity it is told, and returns an
    arena with the same trie, so the same root hash and the same lookups. *)
Theorem encode_decode_roundtrip m t k :
  models m t → canonical t → sized t → addressable (trie_encode t) →
  ∃ buf m1 m2 rest,
    encode_trie m = (Ok buf, m1) ∧ same_nodes m m1 ∧
    decode_trie buf k = Ok (m2, rest) ∧ models m2 t ∧
    (hash m2).1 = (hash m).1 ∧ ∀ key, get m2 key = get m key.
Proof.
  intros Hm Hct Hsz Hlen.
  destruct (models_encode _ _ Hm) as (m1 & Henc & _ & Hsame).
  assert (∃ m2 rest, decode_trie (trie_encode t) k = Ok (m2, rest) ∧ models m2 t)
    as (m2 & rest & Hdec & Hm2).
  { destruct Hct as [->|Hct].
    - exists new, (trie_encode TNull). split; [|apply models_new].
      unfold decode_trie. rewrite decide_True; [done|]. reflexivity.
    - destruct (decode_encode t [] k) as (m2 & Hdec & Hm2); rewrite ?app_nil_r in *; eauto. }
  exists (trie_encode t), m1, m2, rest. split_and!; try done.
  - destruct (models_hash _ _ Hm) as (? & -> & _), (models_hash _ _ Hm2) as (? & -> & _). done.
  - intros key. by rewrite (models_get _ _ _ Hm), (models_get _ _ _ Hm2).
Qed.

(** ** Authentication *)

Lemma view_branch_or_digest t T : view t T → branch_or_digest T → branch_or_digest t.
Proof. by destruct 1. Qed.

Lemma view_canonical t T : view t T → canonical_node T → canonical_node t.
Proof.
  revert T. induction t as [|d|path v|path c IH|cs IH] using trie_nested_ind; intros T Hv HT;
    inversion Hv as [? ? Href| | |? ? ? Hc|? ds Hlen Hs Hn]; subst; try done.
  - constructor. apply trie_ref_digest_length in Href; [done|by apply canonical_wf].
  - inversion HT as [| |nibs ? Hnn Hne Hb Hcan|]; subst. unfold extension in *. constructor; try done.
    + by eapply view_branch_or_digest.
    + by eapply IH.
  - inversion HT as [| | |? Hl Hrem Hcs]; subst. constructor; [congruence| |].
    + pose proof (view_remaining _ _ Hv) as Hr. apply Forall2_length in Hr. lia.
    + intros i c Hi. destruct (Hs _ _ Hi) as (d & Hd & Hcd). by eapply IH; eauto.
Qed.

Lemma view_uniform n t T : view t T → uniform n T → uniform n t.
Proof.
  revert n T. induction t as [|d|path v|path c IH|cs IH] using trie_nested_ind; intros n T Hv HT;
    inversion Hv as [? ? Href| | |? ? ? Hc|? ds Hlen Hs Hn]; subst; try done; [by constructor| |].
  - inversion HT; subst. constructor. by eapply IH.
  - inversion HT as [| | | |? ? Hds]; subst. constructor.
    intros i c Hi. destruct (Hs _ _ Hi) as (d & Hd & Hcd). by eapply IH; eauto.
Qed.

(** The trie of a map, and what the byte string [buf] must not collide with. *)
Definition map_trie (M : gmap bytes bytes) : trie := trie_of_list (map_to_list M).

Lemma map_trie_ok n M :
  (∀ key, is_Some (M !! key) → byte_key n key) →
  canonical (map_trie M) ∧ uniform (2 * n) (map_trie M) ∧ resolved (map_trie M) ∧
  contents n (map_trie M) M.
Proof.
  intros Hkeys. destruct (trie_of_list_ok n (map_to_list M)) as (Hct & Hu & Hr & _ & Hc).
  { apply Forall_forall. intros [key v] Hin. apply elem_of_map_to_list in Hin. apply Hkeys. by eexists. }
  by rewrite list_to_map_to_list in Hc.
Qed.

Lemma map_trie_empty M : map_trie M = TNull → ∀ n, contents n (map_trie M) M → M = ∅.
Proof.
  intros Ht n [Hc Hkeys]. apply map_eq. intros key. rewrite lookup_empty.
  destruct (M !! key) as [v|] eqn:Hv; [|done].
  specialize (Hc key ltac:(apply Hkeys; by eexists)). rewrite Ht, Hv in Hc. done.
Qed.

(** What is assumed of a map and a byte string: the lengths fit, the root is
    hash-addressed and has not the hash of the empty trie, and Keccak-256 is
    collision free between the items of the string and the nodes of the map's
    trie. *)
Record trusted (M : gmap bytes bytes) (buf : bytes) : Prop := {
  trusted_sized : sized (map_trie M);
  trusted_long : M ≠ ∅ → 32 ≤ length (trie_rlp (map_trie M));
  trusted_root : M ≠ ∅ → map_root M ≠ EMPTY_ROOT_HASH;
  trusted_authentic : authentic buf (map_trie M);
  trusted_addressable : addressable buf;
}.

Lemma decoded_empty n buf s id :
  authentic buf TNull → addressable buf →
  decode_trie_internal (S (length buf)) (DigestRef EMPTY_ROOT_HASH) (mkDecoder new buf) = (Ok id, s) →
  stands_for n (set_root_id id (dec_trie s)) ∅.
Proof.
  intros Hauth Hlen Hint.
  apply decode_internal_start in Hint as (l & p & item & rest & r & Hitem & Hcheck & Hm & Hstep).
  cbn [dec_bytes dec_trie] in *. pose proof EMPTY_ROOT_HASH_length as Hel.
  unfold check_reference in Hcheck. cbn [as_slice] in Hcheck.
  destruct (decide (length item < 32)).
  { destruct (decide (item ≠ EMPTY_ROOT_HASH)) as [|Heq%dec_stable]; [done|]. subst. lia. }
  destruct (decide (length p = 32 ∧ l = false)) as [[Hp ->]|Hnot].
  - destruct (decide (p ≠ EMPTY_ROOT_HASH)) as [|Heq%dec_stable]; [done|].
    rewrite decide_False, decide_True in Hstep by lia.
    right. split; [done|].
    destruct (added_node (mkDecoder new buf) (mkDecoder new (drop (padding_len (length item)) rest)) s
      (ADigest 1 p) id) as [-> [Hreads Hrep _]];
      [|exact Hm| |done|constructor|constructor|by intros j ?%elem_of_nil|exact Hstep|].
    + split; [apply evolves_refl|cbn in *; lia|]. apply decode_item_inv in Hitem as (-> & _ & _).
      exists (length item + padding_len (length item)). cbn. by rewrite <-drop_drop, drop_app_length.
    + split; [done|]. unfold measure, addressable in *. cbn [dec_trie dec_bytes] in *.
      change (num_nodes new) with 1 in *. lia.
    + exists (ADigest 1 p). split_and!; [exact Hrep|done|by rewrite <-Heq| |by constructor].
      apply (evolves_rest _ _ _ (reads_evolves _ _ Hreads)). done.
  - destruct (decide (keccak256 item ≠ EMPTY_ROOT_HASH)) as [|Heq%dec_stable]; [done|]. exfalso.
    assert (item = [EMPTY_STRING_CODE]) as ->; [|cbn in *; lia].
    apply (Hauth 0 l p item rest); [by rewrite drop_0|left|]. by rewrite Heq, EMPTY_ROOT_HASH_value.
Qed.

(** A root that is not the empty one. *)
Lemma decoded_known T buf k m rest m' :
  known T → 32 ≤ length (trie_rlp T) → trie_hash T ≠ EMPTY_ROOT_HASH → authentic buf T → addressable buf →
  decode_trie buf k = Ok (m, rest) → hash m = (Ok (trie_hash T), m') →
  ∃ t, models m t ∧ view t T.
Proof.
  intros Hk Hlong Hroot Hauth Hlen Hdec Hhash. pose proof (known_list_node _ Hk) as Hl.
  assert (trie_ref T = DigestRef (keccak256 (trie_rlp T))) as Href.
  { unfold trie_ref, reference_with. destruct T; try done; by rewrite decide_False by lia. }
  assert (trie_hash T = keccak256 (trie_rlp T)) as Hmr.
  { unfold trie_hash. rewrite Href. by destruct T. }
  destruct (decode_trie_root buf k m rest (trie_hash T) m') as
    [->|[(l & p & item & rest' & Hitem & Hshort & Hh & Hpl)|(s & id & Hint & ->)]]; [done..| | |].
  - exfalso. apply Hroot. revert Hhash. cbn. by intros [= <-].
  - exfalso. rewrite Hmr in Hh.
    assert (item = trie_rlp T) as Heq; [|rewrite Heq in Hshort; lia].
    apply (Hauth 0 l p item rest'); [by rewrite drop_0|apply encodings_self|done].
  - rewrite Hmr, <-Href in Hint.
    destruct (decode_internal_view (S (length buf)) T (mkDecoder new buf) id s)
      as (a & <- & Hv & [Hreads Hrep _]); [done| |done|done|].
    { split; [done|]. cbn [dec_trie dec_bytes]. change (num_nodes new) with 1.
      unfold addressable in Hlen. lia. }
    exists (erase a). split; [|done]. exists a. split_and!; [exact Hrep|done|done| |].
    + apply (evolves_rest _ _ _ (reads_evolves _ _ Hreads)). done.
    + destruct Hk as (Hct & _ & _). by eapply canonical_wf, view_canonical.
Qed.

Lemma decoded_nonempty n M buf k m rest m' :
  (∀ key, is_Some (M !! key) → byte_key n key) → trusted M buf → M ≠ ∅ →
  decode_trie buf k = Ok (m, rest) → hash m = (Ok (map_root M), m') →
  stands_for n m M.
Proof.
  intros Hkeys [Hsz Hlong Hroot Hauth Hlen] Hne Hdec Hhash. specialize (Hlong Hne). specialize (Hroot Hne).
  destruct (map_trie_ok n M Hkeys) as (Hct & Hu & Hr & Hc).
  assert (canonical_node (map_trie M)) as HcT.
  { destruct Hct as [Hnull|]; [|done]. exfalso. apply Hne. by apply (map_trie_empty M Hnull n). }
  destruct (decoded_known (map_trie M) buf k m rest m') as (t & Hm & Hv); try done.
  left. exists t, (map_trie M). split_and!; try done; [right; by eapply view_canonical|by eapply view_uniform].
Qed.

(** A decoded arena has at most a node per byte, and the null node. *)
Lemma decode_trie_count buf k m rest : decode_trie buf k = Ok (m, rest) → num_nodes m ≤ S (length buf).
Proof.
  intros Hdec. unfold decode_trie in Hdec. case_decide; [injection Hdec as <- <-; cbn; lia|].
  change (with_capacity _) with new in Hdec.
  destruct (root_reference buf) as [r| | |]; try done. cbn [mbind outcome_bind] in Hdec.
  destruct (decode_trie_internal _ r _) as [[id| | |] s] eqn:Hint; try done. injection Hdec as <- _.
  destruct (keeps_internal _ _ _ _ _ Hint ltac:(reflexivity)) as [_ Hm]. unfold measure in Hm. cbn [dec_trie dec_bytes] in Hm.
  change (num_nodes (set_root_id id (dec_trie s))) with (num_nodes (dec_trie s)).
  change (num_nodes new) with 1 in Hm. lia.
Qed.

Lemma views_new n : stands_for n new ∅.
Proof.
  destruct (holds_new n) as (t & Hm & Hct & Hu & Hr & Hc). left. exists t, t.
  split_and!; try done. apply view_refl.
Qed.

Lemma decoded_stands_for n M buf k m rest m' :
  (∀ key, is_Some (M !! key) → byte_key n key) → trusted M buf →
  decode_trie buf k = Ok (m, rest) → hash m = (Ok (map_root M), m') →
  stands_for n m M.
Proof.
  intros Hkeys Htr Hdec Hhash. destruct (decide (M = ∅)) as [->|Hne]; [|by eapply decoded_nonempty].
  destruct Htr as [_ _ _ Hauth Hlen]. change (map_trie ∅) with TNull in Hauth.
  change (map_root ∅) with EMPTY_ROOT_HASH in Hhash.
  destruct (decode_trie_root buf k m rest EMPTY_ROOT_HASH m') as
    [->|[(l & p & item & rest' & Hitem & Hshort & Hh & Hpl)|(s & id & Hint & ->)]]; [done..|apply views_new| |].
  - assert (item = [EMPTY_STRING_CODE]) as ->.
    { apply (Hauth 0 l p item rest'); [by rewrite drop_0|left|]. by rewrite <-Hh, EMPTY_ROOT_HASH_value. }
    pose proof (decode_item_inv _ _ _ _ _ Hitem) as (Hb & _ & _).
    pose proof (decode_item_string [] rest' ltac:(auto with reth)) as Hs.
    rewrite slice_encode_nil, <-Hb, Hitem in Hs. injection Hs as -> ->. by destruct Hpl.
  - by eapply decoded_empty.
Qed.

(** C14: Authentication: when [decode_trie] accepts a byte string and the decoded
    trie has the root hash of a map, the arena is a partial view of that map's
    trie: every lookup that succeeds on it tells what the map has.  Keccak-256 is
    assumed collision free between the items of this string and the nodes of the
    map's trie only. *)
Theorem decoded_witness_is_authentic n M buf k m rest m' :
  (∀ key, is_Some (M !! key) → byte_key n key) → trusted M buf →
  decode_trie buf k = Ok (m, rest) → hash m = (Ok (map_root M), m') →
  stands_for n m M.
Proof. apply decoded_stands_for. Qed.

(** ** Caches *)

(** The arenas that operations lead to: from one with empty caches (a new one, for
    instance) or one decoded from bytes with a trusted root hash, by any sequence
    of lookups, insertions, deletions and computations of the root hash.  An
    operation that fails is a step too. *)
Inductive reached (n : nat) : Mpt → Prop :=
  | reached_cold m : valid n (clear_caches m) → reached n (clear_caches m)
  | reached_decoded M buf k m rest m' :
      (∀ key, is_Some (M !! key) → byte_key n key) → trusted M buf →
      decode_trie buf k = Ok (m, rest) → hash m = (Ok (map_root M), m') → reached n m
  | reached_step m op : reached n m → op_key_ok n op → op_fits op m → reached n (run_op op m).2.

Lemma reached_valid n m : reached n m → valid n m.
Proof.
  induction 1 as [m Hv|M buf k m rest m' Hkeys Htr Hdec Hh|m op _ IH Hop Hroom]; [exact Hv| |].
  - by eapply stands_for_valid, decoded_stands_for.
  - by apply run_op_valid.
Qed.

(** C22: The cached references never go stale: whatever operations led to an arena,
    from empty caches or from decoded bytes, the root hash computed through its
    caches is the one computed with all caches empty; computing it borrows no cell
    twice and changes nothing but caches.  This is what the invalidations of
    [insert_internal] and [delete_internal] are for: an ancestor of a changed node
    that kept its reference would give the root hash of before the change. *)
Theorem caches_are_sound n m :
  reached n m →
  ∃ root m1 m2, hash m = (Ok root, m1) ∧ hash (clear_caches m) = (Ok root, m2) ∧
    reached n m1 ∧ same_nodes m m1.
Proof.
  intros Hr. destruct (reached_valid _ _ Hr) as (t & Hm & _).
  destruct (models_hash _ _ Hm) as (m1 & Hrun & _ & Hsame).
  destruct (models_hash _ _ (clear_caches_models _ _ Hm)) as (m2 & Hrun' & _).
  exists (trie_hash t), m1, m2. split_and!; [done|done| |done].
  pose proof (reached_step n m OpHash Hr I I) as Hnext. cbn [run_op] in Hnext.
  by erewrite machine_bind_ok in Hnext by exact Hrun.
Qed.
End decode.

(** ** The theorems at a witness with one unresolved leaf *)

Definition sample_full : trie :=
  TBranch (sample_slots (leaf [2%N] [9%N]) (leaf [6%N] (replicate 40 7%N)) (leaf [0%N] [1%N])).

Lemma sized_leaf_small path value :
  length path + length value < 100 → length (trie_payload (TLeaf path value)) < 300 →
  sized (TLeaf path value).
Proof. intros. constructor; apply fits_small; lia. Qed.

Lemma sample_slots_sized h :
  sized h → fits_usize (length (trie_payload (TBranch
    (sample_slots (leaf [2%N] [9%N]) h (leaf [0%N] [1%N]))))) →
  sized (TBranch (sample_slots (leaf [2%N] [9%N]) h (leaf [0%N] [1%N]))).
Proof.
  intros Hh Hlen. constructor; [done|].
  apply (sample_slots_forall _ _ _ (λ _, sized)); [|done|]; apply sized_leaf_small; by_computation.
Qed.

Lemma sample_view_sized : sized (erase sample_view).
Proof.
  rewrite sample_view_slots. apply sample_slots_sized; [constructor; apply hidden_digest_length|].
  vm_compute. reflexivity.
Qed.

Lemma sample_full_sized : sized sample_full.
Proof.
  apply sample_slots_sized; [|vm_compute; reflexivity].
  apply sized_leaf_small; vm_compute; apply Nat.leb_le; reflexivity.
Qed.

Lemma sample_models : models sample_arena (erase sample_view).
Proof.
  exists sample_view.
  split_and!; [apply sample_represents|done..|apply canonical_wf, sample_canonical].
Qed.

Lemma encode_decode_roundtrip_witness :
  ∃ buf m1 m2 rest,
    encode_trie sample_arena = (Ok buf, m1) ∧ same_nodes sample_arena m1 ∧
    decode_trie buf 4 = Ok (m2, rest) ∧ models m2 (erase sample_view) ∧
    (hash m2).1 = (hash sample_arena).1 ∧ ∀ key, get m2 key = get sample_arena key.
Proof.
  apply encode_decode_roundtrip;
    [apply sample_models|right; apply sample_canonical|apply sample_view_sized|vm_compute; reflexivity].
Defined.

Definition sample_map : gmap bytes bytes := list_to_map sample_contents.

Definition sample_buf : bytes :=
  Eval vm_compute in match (encode_trie sample_arena).1 with Ok buf => buf | _ => [] end.

Lemma sample_map_trie : map_trie sample_map = sample_full.
Proof. vm_compute. reflexivity. Qed.

(** [authentic], decided with one hash per item and node: the items that can be
    read from some bytes, and the hash of none of them is that of another of the
    encodings. *)
Section confusion.
Context `{CratesOk}.

Definition items_of (buf : bytes) : list bytes :=
  omap (λ k, match decode_item (drop k buf) with Ok (_, _, item, _) => Some item | _ => None end)
    (seq 0 (length buf)).

Definition no_confusion (items known : list bytes) : bool :=
  let hashed := (λ y, (keccak256 y, y)) <$> known in
  forallb (λ item, let digest := keccak256 item in
             forallb (λ hy, if decide (digest = hy.1) then bool_decide (item = hy.2) else true) hashed)
    (remove_dups items).

Lemma no_confusion_spec items known x y :
  no_confusion items known = true → x ∈ items → y ∈ known → keccak256 x = keccak256 y → x = y.
Proof.
  unfold no_confusion. rewrite forallb_forall. intros Hc Hx Hy Heq.
  specialize (Hc x ltac:(by apply list_elem_of_In, elem_of_remove_dups)). cbv zeta in Hc.
  rewrite forallb_forall in Hc. specialize (Hc (keccak256 y, y)
    ltac:(by apply list_elem_of_In, (list_elem_of_fmap_2 (λ y, (keccak256 y, y))))).
  cbn [fst snd] in Hc. rewrite decide_True in Hc by done. by apply bool_decide_eq_true in Hc.
Qed.

Lemma no_confusion_authentic items known buf T :
  no_confusion items known = true → items_of buf ⊆ items → encodings T ⊆ known → authentic buf T.
Proof.
  intros Hc Hitems Hknown k l p item rest y Hd Hy Heq.
  apply (no_confusion_spec items known); [done| |by apply Hknown|done]. apply Hitems.
  apply list_elem_of_omap. exists k. rewrite Hd. split; [|done]. apply elem_of_seq. split; [lia|].
  destruct (decide (k < length buf)) as [Hk|Hk]; [done|].
  rewrite drop_ge in Hd by lia. apply decode_item_inv in Hd as (Hb & Hl & _).
  apply (f_equal length) in Hb. rewrite length_app in Hb. cbn in Hb. lia.
Qed.

Definition authentic_check (buf : bytes) (T : trie) : bool := no_confusion (items_of buf) (encodings T).

Lemma authentic_check_ok buf T : authentic_check buf T = true → authentic buf T.
Proof. intros Hc. by apply (no_confusion_authentic (items_of buf) (encodings T)). Qed.
End confusion.

Lemma sample_authentic : authentic sample_buf sample_full.
Proof. apply authentic_check_ok. vm_compute. reflexivity. Qed.

Lemma sample_keys key : is_Some (sample_map !! key) → byte_key 1 key.
Proof.
  intros [v Hv]. apply elem_of_list_to_map_2 in Hv.
  assert (Forall (λ kv, byte_key 1 kv.1) sample_contents) as Hall by by_computation.
  rewrite Forall_forall in Hall. apply (Hall _ Hv).
Qed.

Lemma sample_trusted : trusted sample_map sample_buf.
Proof.
  split; rewrite ?sample_map_trie.
  - apply sample_full_sized.
  - intros _. vm_compute. apply Nat.leb_le. reflexivity.
  - intros _. change (trie_hash (map_trie sample_map) ≠ EMPTY_ROOT_HASH). rewrite sample_map_trie.
    apply (bool_decide_eq_true_1 (_ ≠ _)). vm_compute. reflexivity.
  - apply sample_authentic.
  - vm_compute. reflexivity.
Qed.

Lemma decoded_witness_is_authentic_witness :
  match decode_trie sample_buf 4 with
  | Ok (m, _) => stands_for 1 m sample_map
  | _ => False
  end.
Proof.
  assert (match decode_trie sample_buf 4 with
    | Ok (m, _) => match hash m with
      | (Ok h, _) => bool_decide (h = map_root sample_map)
      | _ => false
      end
    | _ => false
    end = true) as Hok by (vm_compute; reflexivity).
  destruct (decode_trie sample_buf 4) as [[m rest]| | |] eqn:Hdec; try discriminate Hok.
  destruct (hash m) as [[h| | |] m'] eqn:Hh; try discriminate Hok.
  apply bool_decide_eq_true in Hok. rewrite Hok in Hh.
  exact (decoded_witness_is_authentic 1 sample_map sample_buf 4 m rest m' sample_keys sample_trusted
    Hdec Hh).
Defined.

Definition decoded_sample : Mpt :=
  Eval vm_compute in match decode_trie sample_buf 4 with Ok (m, _) => m | _ => new end.

(** A hash, so that caches are there, changes on both sides of the unresolved node,
    and an operation that fails on it. *)
Definition sample_steps : list operation :=
  [OpHash; OpInsert [0x13%N] [4%N]; OpDelete [0x56%N]; OpHash; OpDelete [0x12%N]; OpGet [0x13%N]].

Definition after_steps : Mpt := foldl (λ m op, (run_op op m).2) decoded_sample sample_steps.

Lemma decoded_sample_reached : reached 1 decoded_sample.
Proof.
  eapply (reached_decoded 1 sample_map sample_buf 4 decoded_sample);
    [exact sample_keys|exact sample_trusted|vm_compute; reflexivity|vm_compute; reflexivity].
Qed.

Lemma caches_are_sound_witness :
  ∃ root m1 m2, hash after_steps = (Ok root, m1) ∧ hash (clear_caches after_steps) = (Ok root, m2) ∧
    reached 1 m1 ∧ same_nodes after_steps m1.
Proof.
  apply (caches_are_sound 1). unfold after_steps. cbn [foldl sample_steps].
  repeat (apply reached_step; [|by_computation|try exact I; vm_compute; reflexivity]).
  exact decoded_sample_reached.
Defined.
