(* ===== verification/Frontier.v ===== *)
(** * The digest frontier of a trie ([crates/mpt/src/trie.rs])

    The host cuts the state trie into subtrees around the accounts a block
    changes.  The frontier is the trie with those subtrees replaced by their
    digests, and each chunk is one of the subtrees, serialized on its own.  The
    guest updates a chunk at a time and puts the new root of each one back into
    its slot of the frontier. *)

From stdpp Require Import sorting.
From S2P Require Import Prelude External Node Hp Mpt Codec.

Record FrontierLimits : Type := mkFrontierLimits {
  max_nodes : nat;
  max_bytes : nat;
  max_keys : nat;
}.

Record FrontierChunk : Type := mkFrontierChunk {
  fc_prefix : bytes;
  fc_expected_root : B256;
  fc_num_nodes : nat;
  fc_bytes : bytes;
}.

Record MptFrontier : Type := mkMptFrontier {
  mf_num_nodes : nat;
  mf_bytes : bytes;
  mf_chunks : list FrontierChunk;
}.

Section frontier.
Context `{Crates}.

(** ** Replacing a slot *)

Fixpoint replace_frontier_slot_internal (fuel : nat) (node_id : NodeId) (prefix : bytes)
    (expected_root new_root : B256) : machine Mpt Error unit :=
  match fuel with
  | 0 => lift OutOfFuel
  | S fuel' =>
      match prefix with
      | [] =>
          actual ← subtree_hash node_id;
          if decide (actual ≠ expected_root) then throw NodeRefMismatch
          else
            write_node node_id (if decide (new_root = EMPTY_ROOT_HASH) then Null else Digest new_root);;
            invalidate_ref_cache node_id
      | head :: tail =>
          data ← node_at node_id;
          match data with
          | Branch children =>
              slot ← lift (index children (N.to_nat head));
              (if decide (tail = [] ∧ slot = None) then
                 if decide (expected_root ≠ EMPTY_ROOT_HASH) then throw NodeRefMismatch
                 else if decide (new_root ≠ EMPTY_ROOT_HASH) then
                   digest_id ← add_node (Digest new_root) None;
                   children' ← lift (store children (N.to_nat head) (Some digest_id));
                   write_node node_id (Branch children')
                 else mret ()
               else
                 match slot with
                 | Some child =>
                     replace_frontier_slot_internal fuel' child tail expected_root new_root
                 | None => throw InvalidFrontierPrefix
                 end);;
              invalidate_ref_cache node_id
          | Extension path child =>
              match strip_prefix (prefix_to_nibs path) prefix with
              | Some tail =>
                  replace_frontier_slot_internal fuel' child tail expected_root new_root;;
                  invalidate_ref_cache node_id
              | None => throw InvalidFrontierPrefix
              end
          | _ => throw InvalidFrontierPrefix
          end
      end
  end.

Definition replace_frontier_slot (prefix : bytes) (expected_root new_root : B256)
  : machine Mpt Error unit :=
  m ← get_state;
  replace_frontier_slot_internal (mpt_fuel m) (root_id m) prefix expected_root new_root.

(** ** Where to cut *)

(** The boundaries found so far: a prefix, and the node there, or [None] for an
    empty slot of a branch. *)
Abbreviation boundaries := (list (bytes * option NodeId)).

(** [matches!(self.calc_reference(id), NodeRef::Digest(_))] *)
Definition hash_addressed (id : NodeId) : machine Mpt Error bool :=
  r ← calc_reference_of id; mret (is_digest_ref r).

(** [.iter().any(..)]: some child is not referred to by a digest. *)
Fixpoint any_inline (out : boundaries) : machine Mpt Error bool :=
  match out with
  | [] => mret false
  | (_, Some id) :: out' =>
      addressed ← hash_addressed id;
      if (addressed : bool) then any_inline out' else mret true
  | (_, None) :: out' => any_inline out'
  end.

(** [key.0.get(prefix.len()) == Some(&nibble)] *)
Definition keys_at (depth : nat) (nibble : u8) (keys : list (bytes * nat)) : list (bytes * nat) :=
  filter (λ key, key.1 !! depth = Some nibble) keys.

Section open_recursion.
(** The recursive call: the node, its prefix, its keys, the boundaries so far. *)
Variable collect : NodeId → bytes → list (bytes * nat) → boundaries → machine Mpt Error boundaries.

(** [for nibble in 0..16u8] *)
Fixpoint collect_children (children : list (option NodeId)) (nibble : u8) (prefix : bytes)
    (keys : list (bytes * nat)) (out : boundaries) : machine Mpt Error boundaries :=
  match children with
  | [] => mret out
  | slot :: children' =>
      let child_keys := keys_at (length prefix) nibble keys in
      out' ← match child_keys, slot with
             | [], _ => mret out
             | _, Some child => collect child (prefix ++ [nibble]) child_keys out
             | _, None => mret (out ++ [(prefix ++ [nibble], None)])
             end;
      collect_children children' (nibble + 1)%N prefix keys out'
  end.
End open_recursion.

Definition over_limit (limits : FrontierLimits) (node_count encoded_len : nat)
    (keys : list (bytes * nat)) : bool :=
  bool_decide (max_nodes limits < node_count) || bool_decide (max_bytes limits < encoded_len) ||
  bool_decide (max_keys limits < sum_list keys.*2).

Fixpoint collect_frontier_boundaries (fuel : nat) (limits : FrontierLimits) (node_id : NodeId)
    (prefix : bytes) (keys : list (bytes * nat)) (out : boundaries) : machine Mpt Error boundaries :=
  match fuel with
  | 0 => lift OutOfFuel
  | S fuel' =>
      encoded ← encoded_subtrie node_id;
      m ← get_state;
      node_count ← lift (subtree_num_nodes (mpt_fuel m) m node_id);
      let here := out ++ [(prefix, Some node_id)] in
      if over_limit limits node_count (length encoded) keys then
        data ← node_at node_id;
        match data with
        | Branch children =>
            out' ← collect_children (collect_frontier_boundaries fuel' limits) children 0 prefix keys out;
            inline ← any_inline (drop (length out) out');
            if (inline : bool) then mret here
            else if decide (length out < length out') then mret out'
            else mret here
        | Extension path child =>
            let path_nibs := prefix_to_nibs path in
            out' ← collect_frontier_boundaries fuel' limits child (prefix ++ path_nibs) keys out;
            inline ← any_inline (drop (length out) out');
            if negb inline && bool_decide (length out < length out') then mret out' else mret here
        | _ => mret here
        end
      else mret here
  end.

(** ** Building the frontier *)

Definition by_nibbles (x y : bytes * nat) : Prop := bytes_le x.1 y.1.
#[global] Instance by_nibbles_dec : RelDecision by_nibbles.
Proof. intros x y. unfold by_nibbles. apply _. Defined.

Definition by_prefix (x y : bytes * option NodeId) : Prop := bytes_le x.1 y.1.
#[global] Instance by_prefix_dec : RelDecision by_prefix.
Proof. intros x y. unfold by_prefix. apply _. Defined.

(** [keys.dedup_by(..)]: equal neighbours become one, with their weights added. *)
Fixpoint dedup_keys (keys : list (bytes * nat)) : list (bytes * nat) :=
  match keys with
  | [] => []
  | (key, weight) :: keys' =>
      match dedup_keys keys' with
      | (key', weight') :: rest =>
          if decide (key = key') then (key, weight + weight') :: rest
          else (key, weight) :: (key', weight') :: rest
      | [] => [(key, weight)]
      end
  end.

(** The root, the number of nodes and the serialization of one chunk. *)
Definition chunk_at (node : option NodeId) : machine Mpt Error (B256 * nat * bytes) :=
  match node with
  | Some node_id =>
      addressed ← hash_addressed node_id;
      m ← get_state;
      if negb addressed && negb (bool_decide (node_id = root_id m)) then throw InlineFrontierChunk
      else
        root ← subtree_hash node_id;
        m ← get_state;
        num_nodes ← lift (subtree_num_nodes (mpt_fuel m) m node_id);
        encoded ← encoded_subtrie node_id;
        mret (root, num_nodes, encoded)
  | None => mret (EMPTY_ROOT_HASH, 1, [EMPTY_STRING_CODE; 0; 0; 0]%N)
  end.

(** [for (prefix, node) in boundaries]: [frontier] is a copy that is cut. *)
Fixpoint cut_chunks (cuts : boundaries) (frontier : Mpt)
  : machine Mpt Error (Mpt * list FrontierChunk) :=
  match cuts with
  | [] => mret (frontier, [])
  | (prefix, node) :: cuts' =>
      '(expected_root, num_nodes, encoded) ← chunk_at node;
      let '(replaced, frontier') := replace_frontier_slot prefix expected_root expected_root frontier in
      _ ← lift replaced;
      '(frontier'', chunks) ← cut_chunks cuts' frontier';
      mret (frontier'', mkFrontierChunk prefix expected_root num_nodes encoded :: chunks)
  end.

Definition build_frontier_weighted (keys : list (B256 * nat)) (limits : FrontierLimits)
  : machine Mpt Error MptFrontier :=
  let keys := dedup_keys (merge_sort by_nibbles (prod_map to_nibs id <$> keys)) in
  match keys with
  | [] =>
      m ← get_state;
      encoded ← encode_trie;
      mret (mkMptFrontier (num_nodes m) encoded [])
  | _ =>
      m ← get_state;
      cuts ← collect_frontier_boundaries (mpt_fuel m) limits (root_id m) [] keys [];
      m ← get_state;
      '(frontier, chunks) ← cut_chunks (merge_sort by_prefix cuts) m;
      _ ← hash;
      let '(encoded, frontier') := encode_trie frontier in
      num_nodes ← lift (subtree_num_nodes (mpt_fuel frontier) frontier (root_id frontier));
      encoded ← lift encoded;
      mret (mkMptFrontier num_nodes encoded chunks)
  end.

Definition build_frontier (keys : list B256) (limits : FrontierLimits) : machine Mpt Error MptFrontier :=
  build_frontier_weighted ((λ key, (key, 1)) <$> keys) limits.
End frontier.
