(* ===== verification/Reads.v ===== *)
(** * Calls that leave the nodes of an arena alone

    Hashing, encoding and cutting a frontier fill the caches of an arena, and the
    scratch buffer, but its nodes stay: lookups after them are lookups before. *)

From stdpp Require Import sorting.
From S2P Require Import Prelude External Node Hp Mpt MptSpec Codec Frontier.

Section reads.
Context `{CratesOk}.

Definition reads {A} (f : machine Mpt Error A) : Prop := ∀ m, same_nodes m (f m).2.

Lemma same_nodes_refl m : same_nodes m m.
Proof. done. Qed.

Lemma same_nodes_trans m1 m2 m3 : same_nodes m1 m2 → same_nodes m2 m3 → same_nodes m1 m3.
Proof. intros [H1 H2] [H3 H4]. split; congruence. Qed.

Lemma reads_run {A} (f : machine Mpt Error A) m o m' : reads f → f m = (o, m') → same_nodes m m'.
Proof. intros Hf Hrun. specialize (Hf m). by rewrite Hrun in Hf. Qed.

Lemma reads_lift {A} (o : outcome Error A) : reads (lift o).
Proof. by intros m. Qed.
Lemma reads_ret {A} (a : A) : reads (mret a).
Proof. by intros m. Qed.
Lemma reads_throw {A} e : reads (A:=A) (throw e).
Proof. by intros m. Qed.
Lemma reads_panics {A} p : reads (A:=A) (panics p).
Proof. by intros m. Qed.
Lemma reads_get : reads get_state.
Proof. by intros m. Qed.

Lemma reads_bind {A B} (f : machine Mpt Error A) (g : A → machine Mpt Error B) :
  reads f → (∀ a, reads (g a)) → reads (mbind g f).
Proof.
  intros Hf Hg m. specialize (Hf m). unfold mbind, machine_bind.
  destruct (f m) as [[a| | |] m1]; try done. eapply same_nodes_trans; [exact Hf|apply Hg].
Qed.

Lemma reads_modify f : (∀ m, same_nodes m (f m)) → reads (modify f).
Proof. intros Hf m. apply Hf. Qed.

Lemma reads_mapM {A B} (f : A → machine Mpt Error B) l : (∀ x, reads (f x)) → reads (mapM f l).
Proof.
  intros Hf. induction l as [|x l IH]; cbn [mapM]; [apply reads_ret|].
  apply reads_bind; [done|]. intros y. apply reads_bind; [done|]. intros k. apply reads_ret.
Qed.

Create HintDb reads.
Hint Resolve reads_lift reads_ret reads_throw reads_panics reads_get : reads.

Ltac reads :=
  repeat first
    [ solve [eauto with reads]
    | apply reads_bind; [|intros ?]
    | apply reads_mapM; intros ?
    | match goal with |- reads (match ?x with _ => _ end) => destruct x end
    | case_decide ].

Lemma reads_node_at id : reads (node_at id).
Proof. unfold node_at. reads. Qed.
Lemma reads_cell_at id : reads (cell_at id).
Proof. unfold cell_at. reads. Qed.
Lemma reads_write_cell id c : reads (write_cell id c).
Proof. intros m. unfold write_cell. rewrite machine_bind_get. by destruct (store (cached_references m) id c). Qed.
Hint Resolve reads_node_at reads_cell_at reads_write_cell : reads.

Section open.
Variable calc : NodeId → machine Mpt Error NodeRef.
Hypothesis calc_reads : ∀ id, reads (calc id).
Hint Resolve calc_reads : reads.

Lemma reads_cached_reference id : reads (cached_reference calc id).
Proof. unfold cached_reference. reads. Qed.
Hint Resolve reads_cached_reference : reads.

Lemma reads_payload_length id : reads (payload_length calc id).
Proof. unfold payload_length, reference_length. reads. Qed.

Lemma reads_encode id n : reads (encode_with_payload_len calc id n).
Proof. unfold encode_with_payload_len, reference_encode. reads. Qed.
Hint Resolve reads_encode : reads.

Lemma reads_scratch_digest id n : reads (scratch_digest calc id n).
Proof. unfold scratch_digest. reads; by apply reads_modify. Qed.
End open.
Hint Resolve reads_cached_reference reads_payload_length reads_encode reads_scratch_digest : reads.

Lemma reads_calc_reference fuel id : reads (calc_reference fuel id).
Proof. revert id. induction fuel as [|fuel IH]; intros id; cbn [calc_reference]; reads. Qed.
Hint Resolve reads_calc_reference : reads.

Lemma reads_calc_reference_of id : reads (calc_reference_of id).
Proof. unfold calc_reference_of. reads. Qed.
Hint Resolve reads_calc_reference_of : reads.

Lemma reads_hash : reads hash.
Proof. unfold hash. reads. Qed.

Lemma reads_subtree_hash id : reads (subtree_hash id).
Proof. unfold subtree_hash. reads. Qed.

Lemma reads_encode_trie_internal fuel id : reads (encode_trie_internal fuel id).
Proof. revert id. induction fuel as [|fuel IH]; intros id; cbn [encode_trie_internal]; reads. Qed.
Hint Resolve reads_hash reads_subtree_hash reads_encode_trie_internal : reads.

Lemma reads_encode_trie : reads encode_trie.
Proof. unfold encode_trie. reads. Qed.
Lemma reads_encoded_subtrie id : reads (encoded_subtrie id).
Proof. unfold encoded_subtrie. reads. Qed.
Lemma reads_hash_addressed id : reads (hash_addressed id).
Proof. unfold hash_addressed. reads. Qed.
Hint Resolve reads_encode_trie reads_encoded_subtrie reads_hash_addressed : reads.

Lemma reads_any_inline out : reads (any_inline out).
Proof. induction out as [|[p [id|]] out IH]; cbn [any_inline]; reads. Qed.
Hint Resolve reads_any_inline : reads.

Lemma reads_collect_children collect children nibble prefix keys out :
  (∀ id p ks o, reads (collect id p ks o)) → reads (collect_children collect children nibble prefix keys out).
Proof.
  intros Hc. revert nibble out. induction children as [|slot children IH]; intros nibble out; cbn [collect_children]; reads.
Qed.

Lemma reads_boundaries fuel limits id prefix keys out :
  reads (collect_frontier_boundaries fuel limits id prefix keys out).
Proof.
  revert id prefix keys out. induction fuel as [|fuel IH]; intros id prefix keys out; cbn [collect_frontier_boundaries].
  { reads. }
  assert (∀ cs n p ks o, reads (collect_children (collect_frontier_boundaries fuel limits) cs n p ks o)) as Hcc.
  { intros. by apply reads_collect_children. }
  cbv zeta. reads.
Qed.

Lemma reads_chunk_at node : reads (chunk_at node).
Proof. unfold chunk_at. reads. Qed.
Hint Resolve reads_boundaries reads_chunk_at : reads.

Lemma reads_cut_chunks cuts frontier : reads (cut_chunks cuts frontier).
Proof.
  revert frontier. induction cuts as [|[p node] cuts IH]; intros frontier; cbn [cut_chunks]; reads.
Qed.
Hint Resolve reads_cut_chunks : reads.

Lemma reads_build_frontier keys limits : reads (build_frontier_weighted keys limits).
Proof. unfold build_frontier_weighted. cbv zeta. reads. Qed.

(** Lookups are the same in arenas with the same nodes. *)
Lemma same_nodes_get m m' key : same_nodes m m' → get m' key = get m key.
Proof.
  intros [Hr Hn]. unfold get, mpt_fuel, num_nodes. rewrite Hr, Hn. generalize (root_id m) as id.
  generalize (to_nibs key). induction (S (length (nodes m))) as [|fuel IH]; intros nibs id; [done|].
  cbn [get_internal]. rewrite Hn. destruct (index (nodes m) id) as [data| | |]; try done.
  cbn [mbind outcome_bind]. destruct data as [|children|path value|path child|d]; try done.
  - destruct nibs as [|i tail]; [done|]. destruct (index children (N.to_nat i)) as [[child|]| | |]; try done. apply IH.
  - destruct (encoded_path_strip_prefix path nibs) as [[tail|]| | |]; try done. apply IH.
Qed.

Lemma same_nodes_get_rlp {T} `{!RlpCodec T} m m' key :
  same_nodes m m' → get_rlp (T:=T) m' key = get_rlp m key.
Proof. intros Hs. unfold get_rlp. by rewrite (same_nodes_get _ _ _ Hs). Qed.
End reads.
