(* ===== verification/FrontierSpec.v ===== *)
(** * Cutting a trie and putting it back together

    Replacing a frontier slot is replacing a subtrie by its digest.  A cut does
    not change the root hash, and putting the digest of an updated subtrie into
    the slot gives a view of the updated trie. *)

From S2P Require Import Prelude External Node Hp Mpt Trie TrieLaws Canon TrieHash MptRefine MptHash.
From S2P Require Import MptSpec View Codec Frontier.

Section plug.
Context `{Crates}.

(** [plug t p s s' t']: at the prefix [p] of [t] is the subtrie [s] (the empty one
    for an empty slot of a branch), and [t'] is [t] with [s'] there. *)
Inductive plug : trie → bytes → trie → trie → trie → Prop :=
  | plug_here t s' : plug t [] t s' s'
  | plug_empty cs i s' :
      cs !! N.to_nat i = Some None →
      plug (TBranch cs) [i] TNull s' (TBranch (<[N.to_nat i := slot_of s']> cs))
  | plug_slot cs i c p s s' c' :
      cs !! N.to_nat i = Some (Some c) → plug c p s s' c' →
      plug (TBranch cs) (i :: p) s s' (TBranch (<[N.to_nat i := Some c']> cs))
  | plug_extension path c p s s' c' :
      prefix_to_nibs path ++ p ≠ [] → plug c p s s' c' →
      plug (TExtension path c) (prefix_to_nibs path ++ p) s s' (TExtension path c').

Lemma plug_wf t p s s' t' : plug t p s s' t' → well_formed t → well_formed s' → well_formed t'.
Proof.
  induction 1 as [t s'|cs i s' Hi|cs i c p s s' c' Hi Hp IH|path c p s s' c' Hne Hp IH]; intros Hwf Hs'; try done;
    inversion Hwf as [| | |? ? Hpath Hc|? Hlen Hcs]; subst.
  - constructor; [by rewrite length_insert|]. intros j c [(<- & Hc & _)|[_ Hj]]%list_lookup_insert_Some;
      [|by eapply Hcs]. by destruct s'; simplify_eq/=.
  - constructor; [by rewrite length_insert|]. intros j d [(<- & Hd & _)|[_ Hj]]%list_lookup_insert_Some;
      [|by eapply Hcs]. simplify_eq. eauto.
  - constructor; auto.
Qed.

(** What a slot holds for a root hash. *)
Definition slot_trie_of (root : B256) : trie :=
  if decide (root = EMPTY_ROOT_HASH) then TNull else TDigest root.

Context `{!CratesOk}.

(** ** The arena does it *)

Lemma write_then_invalidate m id d c :
  cached_references m !! id = Some c → cell_borrowed c = false → id < length (nodes m) →
  (write_node id d;; invalidate_ref_cache id) m = (Ok (), rewrite_node id d m).
Proof.
  intros Hc Hb Hlt. erewrite machine_bind_ok by (by apply write_node_ok).
  by erewrite invalidate_ok.
Qed.

Lemma fills_evolves m m' owned : fills m m' owned → evolves m m' owned.
Proof.
  intros [Hr Hn Hs Hl Hc]. split; [done| |by rewrite Hn|by rewrite Hn|].
  - intros [Hlen Hb]. split; congruence.
  - intros j _ Hj. by apply Hc.
Qed.

(** The hash of a subtree fills caches below it only. *)
Lemma subtree_hash_ok m a :
  represents m a → at_rest m → well_formed (erase a) →
  ∃ m', subtree_hash (root a) m = (Ok (trie_hash (erase a)), m') ∧
    fills m m' (root <$> below a) ∧ Forall (cache_ok m') (below a).
Proof.
  intros Hr Hrest Hwf. pose proof (represents_root _ _ Hr) as [Hs _].
  unfold subtree_hash. erewrite machine_bind_ok by (by apply node_at_ok).
  pose proof (height_le_fuel _ _ Hr) as Hf. destruct Hr as [Hall Hnd].
  pose proof (NoDup_cons_1_2 _ _ Hnd) as Hnd'.
  destruct (calc_reference_spec a (mpt_fuel m) Hwf Hnd' Hf m) as (m' & Hrun & Hfill & Hok).
  { eapply Forall_impl; [exact Hall|by intros ? []]. }
  { apply Forall_cons in Hall as [_ Hall]. eapply Forall_impl; [exact Hall|by intros ? []]. }
  { apply Hrest. }
  assert (calc_reference_of (root a) m = (Ok (trie_ref (erase a)), m')) as Hcalc by exact Hrun.
  destruct a as [i|i d|i p v|i p c|i cs]; cbn [data].
  1: { exists m. split_and!; [done|apply fills_weaken with []; [set_solver|apply fills_refl]|constructor]. }
  all: erewrite machine_bind_ok by exact Hcalc; exists m'; split; [|done];
    unfold trie_hash; destruct (trie_ref _) as [s|d'] eqn:Href; [done|];
    apply trie_ref_digest_length in Href; [|done]; cbn [erase]; by rewrite from_slice_ok.
Qed.

(** A child was updated under the same index. *)
Lemma drop_parent_cache m m1 a c c' rest a' :
  represents m a → below a ≡ₚ subtries c ++ rest → updated m m1 c c' →
  root a' = root a → data a' = data a → subtries c' ++ rest ≡ₚ below a' →
  invalidate_ref_cache (root a) m1 = (Ok (), rewrite_node (root a) (data a') m1) ∧
  updated m (rewrite_node (root a) (data a') m1) a a'.
Proof.
  intros Hr Hbelow Hu Hroot Hdata Hbelow'.
  destruct (invalidate_parent m m1 a c c' rest a' Hr Hbelow Hu Hroot Hdata Hbelow') as [Hrun Hu'].
  split; [|exact Hu']. apply machine_bind_inv in Hrun as ([] & m2 & Hrun & Hret).
  injection Hret as <-. exact Hrun.
Qed.

Definition slot_node (id : NodeId) (new_root : B256) : atrie :=
  if decide (new_root = EMPTY_ROOT_HASH) then ANull id else ADigest id new_root.

Lemma slot_node_erase id r : erase (slot_node id r) = slot_trie_of r.
Proof. unfold slot_node, slot_trie_of. by case_decide. Qed.

Lemma slot_node_root id r : root (slot_node id r) = id.
Proof. unfold slot_node. by case_decide. Qed.

Lemma slot_node_below id r : below (slot_node id r) = [].
Proof. unfold slot_node. by case_decide. Qed.

Lemma slot_node_data id r :
  data (slot_node id r) = if decide (r = EMPTY_ROOT_HASH) then Null else Digest r.
Proof. unfold slot_node. by case_decide. Qed.

Lemma replace_here a m fuel expected new_root r m1 :
  represents m a → at_rest m → well_formed (erase a) →
  replace_frontier_slot_internal (S fuel) (root a) [] expected new_root m = (Ok r, m1) →
  trie_hash (erase a) = expected ∧ updated m m1 a (slot_node (root a) new_root) ∧
  length (nodes m1) = length (nodes m).
Proof.
  intros Hr Hrest Hwf Hrun. pose proof (represents_root _ _ Hr) as [Hs (o & Hcell & _)].
  destruct (subtree_hash_ok m a Hr Hrest Hwf) as (m2 & Hhash & Hfill & Hok).
  cbn [replace_frontier_slot_internal] in Hrun. erewrite machine_bind_ok in Hrun by exact Hhash.
  destruct (decide (trie_hash (erase a) ≠ expected)) as [|Heq%dec_stable]; [done|].
  assert (root a ∉ root <$> below a) as Hnin by (destruct Hr as [_ Hnd]; by inversion Hnd).
  pose proof (fills_cells _ _ _ Hfill _ Hnin) as Hc. rewrite Hcell in Hc.
  erewrite write_then_invalidate in Hrun; [|exact Hc|done|].
  2: { rewrite (fills_nodes _ _ _ Hfill). by eapply lookup_lt_Some. }
  injection Hrun as <- <-. split_and!; [done| |].
  - rewrite <-slot_node_data with (id:=root a). eapply (updated_rewrite m m2 a (slot_node (root a) new_root));
      [done|apply slot_node_root|by apply fills_evolves|done| | |].
    + rewrite slot_node_below. constructor.
    + rewrite slot_node_below. constructor.
    + rewrite slot_node_below. by intros j ?%elem_of_nil.
  - cbn. rewrite length_insert. by rewrite (fills_nodes _ _ _ Hfill).
Qed.

Lemma replace_refines a m fuel p expected new_root r m1 :
  represents m a → at_rest m → well_formed (erase a) → height (erase a) ≤ fuel →
  (N.of_nat (length (nodes m)) + 1 < u32_modulus)%N →
  replace_frontier_slot_internal fuel (root a) p expected new_root m = (Ok r, m1) →
  ∃ s a', plug (erase a) p s (slot_trie_of new_root) (erase a') ∧ trie_hash s = expected ∧
    updated m m1 a a' ∧ length (nodes m1) ≤ S (length (nodes m)).
Proof.
  intros Hr Hrest Hwf Hf Hcap. revert fuel p r m1 Hf.
  induction a as [i|i d|i q v|i q c IH|i cs IH] using atrie_nested_ind;
    intros fuel p r m1 Hf Hrun; destruct fuel as [|fuel]; try (cbn in Hf; lia);
    pose proof (represents_root _ _ Hr) as [Hs (o & Hcell & _)];
    destruct p as [|j tail];
    try (apply replace_here in Hrun as (Hh & Hu & Hl); [|done..];
      do 2 eexists; split_and!; [rewrite slot_node_erase; constructor|exact Hh|exact Hu|lia]);
    cbn [replace_frontier_slot_internal] in Hrun;
    erewrite machine_bind_ok in Hrun by (by apply node_at_ok); cbn [data] in Hrun; try done.
  - destruct (strip_prefix (prefix_to_nibs q) (j :: tail)) as [rest|] eqn:Hstrip; [|done].
    apply strip_prefix_Some in Hstrip. rewrite Hstrip.
    apply machine_bind_inv in Hrun as ([] & m2 & Hchild & Hrun).
    inversion Hwf as [| | |? ? Hpath Hwc|]; subst.
    assert (represents m c) as Hrc by by eapply represents_extension.
    destruct (IH Hrc Hwc fuel rest () m2) as (s & c' & Hplug & Hh & Hu & Hl); [cbn in Hf; lia|done|].
    destruct (drop_parent_cache m m2 (AExtension i q c) c c' [] (AExtension i q c')) as [Hinv Hu'];
      [done|by rewrite app_nil_r|done|done| |by rewrite app_nil_r|].
    { cbn. by rewrite (updated_root _ _ _ _ Hu). }
    rewrite Hinv in Hrun. injection Hrun as <- <-.
    exists s, (AExtension i q c'). split_and!; [constructor; [by rewrite <-Hstrip|done]|done|done|].
    cbn. by rewrite length_insert.
  - rewrite erase_branch in *. inversion Hwf as [| | | |? Hlen Hwcs]; subst. rewrite length_fmap in Hlen.
    apply machine_bind_inv in Hrun as (slot & m' & Hslot & Hrun). injection Hslot as Hslot <-.
    unfold index in Hslot. rewrite list_lookup_fmap in Hslot.
    destruct (cs !! N.to_nat j) as [r'|] eqn:Hj; [|done]. injection Hslot as <-.
    apply machine_bind_inv in Hrun as ([] & m2 & Hchild & Hrun).
    destruct r' as [c|]; cbn [option_map] in Hchild.
    + rewrite decide_False in Hchild by naive_solver.
      assert (represents m c) as Hrc by by eapply represents_child.
      assert (well_formed (erase c)) as Hwc.
      { eapply (Hwcs (N.to_nat j)). by rewrite list_lookup_fmap, Hj. }
      pose proof (height_child (option_map erase <$> cs) (N.to_nat j) (erase c)
        ltac:(by rewrite list_lookup_fmap, Hj)) as Hh.
      destruct (IH _ _ Hj Hrc Hwc fuel tail () m2) as (s & c' & Hplug & Hhash & Hu & Hl); [lia|done|].
      destruct (drop_parent_cache m m2 (ABranch i cs) c c' (below (ABranch i (<[N.to_nat j := None]> cs)))
        (ABranch i (<[N.to_nat j := Some c']> cs))) as [Hinv Hu'];
        [done|by apply below_branch_some|done|done| |symmetry; by eapply below_branch_update|].
      { cbn. rewrite list_fmap_insert. cbn. rewrite (updated_root _ _ _ _ Hu).
        f_equal. apply list_insert_id. by rewrite list_lookup_fmap, Hj. }
      rewrite Hinv in Hrun. injection Hrun as <- <-.
      exists s, (ABranch i (<[N.to_nat j := Some c']> cs)).
      split_and!; [|done|done|cbn; by rewrite length_insert].
      rewrite erase_branch, list_fmap_insert. cbn [option_map].
      apply (plug_slot _ _ (erase c)); [by rewrite list_lookup_fmap, Hj|done].
    + case_decide as Htail; [|done]. destruct Htail as [-> _].
      destruct (decide (expected ≠ EMPTY_ROOT_HASH)) as [|Hexp%dec_stable]; [done|].
      assert ((option_map erase <$> cs) !! N.to_nat j = Some None) as Hje by by rewrite list_lookup_fmap, Hj.
      destruct (decide (new_root ≠ EMPTY_ROOT_HASH)) as [Hne|Heq%dec_stable].
      * pose proof (add_node_grow m [] (Digest new_root)) as Hadd.
        rewrite grow_nil in Hadd. cbn [length app] in Hadd. rewrite Nat.add_0_r in Hadd.
        erewrite machine_bind_ok in Hchild by (apply Hadd; lia).
        rewrite store_ok in Hchild by (rewrite length_fmap; apply lookup_lt_Some in Hj; lia).
        pose proof (evolves_grow m [Digest new_root] Hrest) as Hev.
        pose proof (represents_root _ _ Hr) as Hok.
        eapply evolves_frame in Hok as [Hs' (q & Hcell' & _)]; [|done|apply not_elem_of_nil].
        pose proof (write_then_invalidate (grow [Digest new_root] m) i
          (Branch (<[N.to_nat j := Some (length (nodes m))]> (option_map root <$> cs))) (new_cell q)
          Hcell' eq_refl ltac:(by eapply lookup_lt_Some)) as Hwi.
        cbn [root] in Hrun, Hchild. erewrite machine_bind_ok in Hwi by exact Hchild. rewrite Hrun in Hwi.
        apply (f_equal snd) in Hwi. cbn [snd] in Hwi. subst m1.
        pose proof (updated_grow m [Digest new_root] (ABranch i cs)
          (ABranch i (<[N.to_nat j := Some (ADigest (length (nodes m)) new_root)]> cs))
          [] (below (ABranch i cs)) [ADigest (length (nodes m)) new_root] Hr Hrest) as Hu.
        cbn [data] in Hu. rewrite list_fmap_insert in Hu. cbn [option_map root] in Hu.
        exists TNull, (ABranch i (<[N.to_nat j := Some (ADigest (length (nodes m)) new_root)]> cs)).
        split_and!; [|done| |].
        -- rewrite erase_branch, list_fmap_insert. cbn [option_map erase].
           unfold slot_trie_of. rewrite decide_False by done.
           by apply (plug_empty _ j (TDigest new_root)).
        -- apply Hu; [done|done|by apply below_branch_none|done|].
           repeat constructor. cbn [root]. by rewrite Nat.sub_diag.
        -- cbn. rewrite length_insert, length_app. cbn. lia.
      * injection Hchild as <-. subst.
        pose proof (invalidate_ok m i (new_cell o) Hcell eq_refl) as Hinv. cbn [root] in *.
        rewrite Hinv in Hrun. injection Hrun as <- <-.
        exists TNull, (ABranch i cs). split_and!; [|done| |cbn; lia].
        -- rewrite erase_branch.
           pose proof (plug_empty (option_map erase <$> cs) j (slot_trie_of EMPTY_ROOT_HASH) Hje) as Hplug.
           unfold slot_trie_of in *. rewrite decide_True in * by done. cbn [slot_of] in Hplug.
           by rewrite list_insert_id in Hplug.
        -- rewrite <-(rewrite_node_id m i (data (ABranch i cs))) by exact Hs.
           eapply (updated_rewrite m m (ABranch i cs) (ABranch i cs) []); [done|done|apply evolves_refl| | | |].
           ++ by intros j' ?%elem_of_nil.
           ++ by destruct Hr as [[_ ?]%Forall_cons _].
           ++ destruct Hr as [_ Hnd]. by inversion Hnd.
           ++ intros j' ?. by left.
Qed.

(** A slot was replaced: where it was, and what is there now. *)
Lemma models_replace m t p expected new_root m' :
  models m t → (N.of_nat (num_nodes m) + 1 < u32_modulus)%N →
  replace_frontier_slot p expected new_root m = (Ok (), m') →
  ∃ s t', plug t p s (slot_trie_of new_root) t' ∧ trie_hash s = expected ∧
    (length new_root = 32 → models m' t') ∧ num_nodes m' ≤ S (num_nodes m).
Proof.
  intros Hm Hcap Hrun. pose proof (models_fuel _ _ Hm) as Hf.
  destruct Hm as (a & Hr & Hroot & <- & Hrest & Hwf).
  change (replace_frontier_slot_internal (mpt_fuel m) (root_id m) p expected new_root m = (Ok (), m')) in Hrun.
  rewrite <-Hroot in Hrun.
  destruct (replace_refines a m (mpt_fuel m) p expected new_root () m' Hr Hrest Hwf Hf Hcap Hrun)
    as (s & a' & Hplug & Hh & Hu & Hl).
  exists s, (erase a'). split_and!; [done|done| |done].
  intros Hlen. exists a'. split_and!; [by apply Hu| |done| |].
  - rewrite (updated_root _ _ _ _ Hu), Hroot. by rewrite (evolves_root _ _ _ (updated_evolves _ _ _ _ Hu)).
  - by apply (evolves_rest _ _ _ (updated_evolves _ _ _ _ Hu)).
  - eapply plug_wf; [done|done|]. unfold slot_trie_of. case_decide; by constructor.
Qed.
End plug.
