(* ===== verification/FrontierLaws.v ===== *)
(** * Subtries at a prefix

    What is at a prefix of a trie can be read and updated on its own: lookups and
    insertions below the prefix are lookups and insertions in the subtrie, also
    when the trie around it is known only as a frontier, and the subtrie only from
    a decoded chunk. *)

From S2P Require Import Prelude External Node Hp Mpt Trie TrieLaws Canon TrieHash MptRefine MptHash.
From S2P Require Import MptSpec TrieMap View Stateless Codec CodecLaws Decode Frontier FrontierSpec.

Section laws.
Context `{CratesOk}.

(** ** At a prefix *)

Lemma plug_same t p s s1 t1 : plug t p s s1 t1 → plug t p s s t.
Proof.
  induction 1 as [t s1|cs i s1 Hi|cs i c p s s1 c1 Hi Hp IH|path c p s s1 c1 Hne Hp IH]; [constructor| | |].
  - pose proof (plug_empty cs i TNull Hi) as Hp. cbn in Hp. by rewrite list_insert_id in Hp.
  - pose proof (plug_slot cs i c p s s c Hi IH) as Hp'. by rewrite list_insert_id in Hp'.
  - by constructor.
Qed.

Lemma plug_det t p s s' r r' t1 t2 :
  plug t p s r t1 → plug t p s' r' t2 → s = s' ∧ (r = r' → t1 = t2).
Proof.
  intros Hp. revert s' t2.
  induction Hp as [t s1|cs i s1 Hi|cs i c p s s1 c1 Hi Hp IH|path c p s s1 c1 Hne Hp IH]; intros s' t2 Hp'.
  - inversion Hp'; subst; done.
  - inversion Hp' as [|? ? ? Hi'|? ? ? ? ? ? ? Hi' Hp2|]; subst; [by split; [|intros ->]|].
    by rewrite Hi in Hi'.
  - inversion Hp' as [|? ? ? Hi'|? ? d ? ? ? ? Hi' Hp2|]; subst; [by rewrite Hi in Hi'|].
    rewrite Hi in Hi'. injection Hi' as <-. destruct (IH _ _ Hp2) as [-> Heq].
    split; [done|]. intros Hr. by rewrite (Heq Hr).
  - inversion Hp' as [? ? Hnil|? ? ? Hi'|? ? d ? ? ? ? Hi' Hp2|? ? ? ? ? ? Hne' Hp2]; subst; [done|].
    match goal with He : _ ++ _ = _ ++ _ |- _ => apply app_inv_head in He as -> end.
    destruct (IH _ _ Hp2) as [-> Heq]. split; [done|]. intros Hr. by rewrite (Heq Hr).
Qed.

(** What holds of a trie and of the children of what it holds of. *)
Lemma plug_below (P : trie → Prop) t p s s1 t1 :
  (∀ path c, P (TExtension path c) → P c) →
  (∀ cs i c, P (TBranch cs) → cs !! i = Some (Some c) → P c) →
  plug t p s s1 t1 → P t → s = TNull ∨ P s.
Proof.
  intros Hext Hbranch. induction 1 as [t s1|cs i s1 Hi|cs i c p s s1 c1 Hi Hp IH|path c p s s1 c1 Hne Hp IH];
    intros Ht; [by right|by left|eauto..].
Qed.

Lemma plug_get t p s s1 t1 key : plug t p s s1 t1 → trie_get t (p ++ key) = trie_get s key.
Proof.
  induction 1 as [t s1|cs i s1 Hi|cs i c p s s1 c1 Hi Hp IH|path c p s s1 c1 Hne Hp IH]; [done| | |].
  - cbn [app]. by rewrite trie_get_branch, Hi.
  - cbn [app]. by rewrite trie_get_branch, Hi.
  - rewrite <-app_assoc. cbn [trie_get]. by rewrite strip_prefix_app.
Qed.

Lemma slot_of_some t : t ≠ TNull → slot_of t = Some t.
Proof. by destruct t. Qed.

(** ... and the new subtrie can be replaced again. *)
Lemma plug_again t p s s1 t1 s2 : plug t p s s1 t1 → ∃ t2, plug t1 p s1 s2 t2.
Proof.
  induction 1 as [t s1|cs i s1 Hi|cs i c p s s1 c1 Hi Hp IH|path c p s s1 c1 Hne Hp IH].
  - exists s2. constructor.
  - pose proof (lookup_lt_Some _ _ _ Hi) as Hlt.
    destruct (slot_of s1) as [d|] eqn:Hd.
    + assert (d = s1) as -> by (destruct s1; cbn in Hd; congruence).
      eexists. eapply (plug_slot _ _ s1); [by apply list_lookup_insert_eq|constructor].
    + assert (s1 = TNull) as -> by by destruct s1.
      eexists. apply plug_empty. by rewrite list_lookup_insert_eq.
  - pose proof (lookup_lt_Some _ _ _ Hi) as Hlt. destruct IH as [c2 IH].
    eexists. eapply plug_slot; [by apply list_lookup_insert_eq|exact IH].
  - destruct IH as [c2 IH]. eexists. by constructor.
Qed.

Lemma plug_get_new t p s s1 t1 key : plug t p s s1 t1 → trie_get t1 (p ++ key) = trie_get s1 key.
Proof. intros Hp. destruct (plug_again _ _ _ _ _ TNull Hp) as [t2 Hp2]. by eapply plug_get. Qed.

Lemma trie_delete_none t key t' : trie_get t key = Ok None → trie_delete t key ≠ Ok (Some t').
Proof.
  revert key t'. induction t as [|d|path value|path c IH|cs IH] using trie_nested_ind; intros key t' Hg;
    cbn [trie_get trie_delete] in *.
  - done.
  - by destruct (from_slice d).
  - by case_decide.
  - destruct (strip_prefix _ key) as [tail|]; [|done]. intros (c' & Hd & _)%fmap_Ok_Some. exact (IH _ _ Hg Hd).
  - destruct key as [|i tail]; [done|]. rewrite at_slot_spec.
    change (trie_get (TBranch cs) (i :: tail) = Ok None) in Hg. rewrite trie_get_branch in Hg.
    destruct (cs !! _) as [[c|]|] eqn:Hi; try done.
    destruct (trie_delete c tail) as [[c'|]| | |] eqn:Hd; try done. by destruct (IH _ _ Hi _ _ Hg Hd).
Qed.

Lemma lcp_prefix p l : lcp p (p ++ l) = length p.
Proof. pose proof (lcp_app p [] l) as Hl. rewrite app_nil_r in Hl. rewrite Hl. by destruct l. Qed.

(** Inserting below the prefix is inserting into what is there. *)
Lemma plug_insert t p s s1 t1 key value r :
  plug t p s s1 t1 → trie_insert s1 key value = Ok r →
  match r with
  | Some s2 => ∃ t2, plug t p s s2 t2 ∧ trie_insert t1 (p ++ key) value = Ok (Some t2)
  | None => trie_insert t1 (p ++ key) value = Ok None
  end.
Proof.
  intros Hp. revert r.
  induction Hp as [t s1|cs i s1 Hi|cs i c p s s1 c1 Hi Hp IH|path c p s s1 c1 Hne Hp IH]; intros r Hins.
  - destruct r as [s2|]; [|done]. exists s2. split; [constructor|done].
  - pose proof (lookup_lt_Some _ _ _ Hi) as Hlt. cbn [app]. rewrite trie_insert_branch.
    rewrite list_lookup_insert_eq by done. assert (s1 = TNull ∨ s1 ≠ TNull) as [->|Hs] by (destruct s1; auto).
    + injection Hins as <-. exists (TBranch (<[N.to_nat i := slot_of (leaf key value)]> cs)).
      split; [by constructor|]. cbn [slot_of]. by rewrite list_insert_insert_eq.
    + rewrite slot_of_some by done. rewrite Hins. destruct r as [s2|]; [|done].
      exists (TBranch (<[N.to_nat i := slot_of s2]> cs)). split; [by constructor|]. cbn.
      rewrite slot_of_some by (by eapply trie_insert_not_null). by rewrite list_insert_insert_eq.
  - pose proof (lookup_lt_Some _ _ _ Hi) as Hlt. cbn [app]. rewrite trie_insert_branch.
    rewrite list_lookup_insert_eq by done. specialize (IH r Hins). destruct r as [s2|]; [|by rewrite IH].
    destruct IH as (c2 & Hp2 & ->). exists (TBranch (<[N.to_nat i := Some c2]> cs)).
    split; [by eapply plug_slot|]. cbn. by rewrite list_insert_insert_eq.
  - rewrite <-app_assoc. cbn [trie_insert].
    rewrite lcp_prefix, drop_all, drop_app_length.
    specialize (IH r Hins). destruct r as [s2|]; [|by rewrite IH].
    destruct IH as (c2 & Hp2 & ->). exists (TExtension path c2). split; [by constructor|done].
Qed.

(** Replacing a slot of a view is replacing the same slot of the whole. *)
Lemma plug_view F T p s s' F' :
  view F T → plug F p s s' F' →
  ∃ S, view s S ∧ plug T p S S T ∧
    ∀ S', view s' S' → (slot_of s' = None ↔ slot_of S' = None) → ∃ T', plug T p S S' T' ∧ view F' T'.
Proof.
  intros Hv Hp. revert T Hv.
  induction Hp as [t s1|cs i s1 Hi|cs i c p s s1 c1 Hi Hp IH|path c p s s1 c1 Hne Hp IH]; intros T Hv.
  - exists T. split_and!; [done|constructor|]. intros S' Hv' _. exists S'. split; [constructor|done].
  - inversion Hv as [| | | |? ds Hlen Hs Hn]; subst. exists TNull. pose proof (Hn _ Hi) as Hi'.
    split_and!; [constructor| |].
    + eapply plug_same. by apply (plug_empty ds i TNull).
    + intros S' Hv' Hiff. exists (TBranch (<[N.to_nat i := slot_of S']> ds)).
      split; [by constructor|by apply view_slot_update].
  - inversion Hv as [| | | |? ds Hlen Hs Hn]; subst. destruct (Hs _ _ Hi) as (d & Hd & Hcd).
    destruct (IH _ Hcd) as (S & HvS & HpS & Hrep). exists S. split_and!; [done| |].
    + eapply plug_same. by eapply plug_slot.
    + intros S' Hv' Hiff. destruct (Hrep S' Hv' Hiff) as (d' & Hpd & Hvd).
      exists (TBranch (<[N.to_nat i := Some d']> ds)). split; [by eapply plug_slot|by apply view_branch_update].
  - inversion Hv as [| | |? ? D Hcd|]; subst. destruct (IH _ Hcd) as (S & HvS & HpS & Hrep).
    exists S. split_and!; [done|by constructor|].
    intros S' Hv' Hiff. destruct (Hrep S' Hv' Hiff) as (D' & Hpd & Hvd).
    exists (TExtension path D'). split; by constructor.
Qed.

(** ** The values of a trie *)

Inductive leaves (P : bytes → Prop) : trie → Prop :=
  | leaves_null : leaves P TNull
  | leaves_digest d : leaves P (TDigest d)
  | leaves_leaf path value : P value → leaves P (TLeaf path value)
  | leaves_extension path c : leaves P c → leaves P (TExtension path c)
  | leaves_branch cs :
      (∀ i c, cs !! i = Some (Some c) → leaves P c) → leaves P (TBranch cs).

Lemma leaves_update P cs i c :
  leaves P (TBranch cs) → leaves P c → leaves P (TBranch (<[i := Some c]> cs)).
Proof.
  intros Hcs Hc. inversion Hcs as [| | | |? Hall]; subst. constructor.
  intros j d [(_ & [= ->] & _)|[_ Hj]]%list_lookup_insert_Some; eauto.
Qed.

Lemma leaves_fork P shared a x b y :
  leaves P x → leaves P y → leaves P (fork shared a x b y).
Proof.
  intros Hx Hy. assert (leaves P (TBranch (two_way a x b y))) as Hb.
  { unfold two_way. do 2 (apply leaves_update; [|done]). constructor.
    intros i c [Hi _]%lookup_replicate. done. }
  unfold fork. destruct shared; [done|]. by constructor.
Qed.

Lemma trie_insert_leaves P t key value t' :
  trie_insert t key value = Ok (Some t') → leaves P t → P value → leaves P t'.
Proof.
  intros Hins Ht Hval. revert key t' Hins.
  induction t as [|d|path old|path c IH|cs IH] using trie_nested_ind; intros key t' Hins;
    inversion Ht as [| |? ? Hold|? ? Hc|? Hcs]; subst; cbn [trie_insert] in Hins.
  - injection Hins as <-. by constructor.
  - by destruct (from_slice d).
  - destruct (drop _ (prefix_to_nibs path)), (drop _ key); try done.
    + case_decide; [done|]. injection Hins as <-. by constructor.
    + injection Hins as <-. apply leaves_fork; by constructor.
  - destruct (drop _ (prefix_to_nibs path)) as [|a nibs].
    + apply fmap_Ok_Some in Hins as (c' & Hins & ->). constructor. by eapply IH.
    + destruct (drop _ key); [done|]. injection Hins as <-. apply leaves_fork; [|by constructor].
      destruct nibs; [done|by constructor].
  - destruct key as [|i tail]; [done|]. rewrite at_slot_spec in Hins.
    destruct (cs !! _) as [[c|]|] eqn:Hi; [| |done].
    + apply fmap_Ok_Some in Hins as (c' & Hins & ->). apply leaves_update; [done|]. by eapply IH; eauto.
    + injection Hins as <-. apply leaves_update; [done|by constructor].
Qed.

Lemma map_trie_leaves P M : (∀ key v, M !! key = Some v → P v) → leaves P (map_trie M).
Proof.
  intros HM. unfold map_trie. assert (Forall (λ kv, P kv.2) (map_to_list M)) as Hall.
  { apply Forall_forall. intros [key v] Hin. apply elem_of_map_to_list in Hin. by eapply HM. }
  induction Hall as [|[key v] l Hv Hl IH]; [constructor|].
  change (trie_of_list ((key, v) :: l)) with
    (match trie_insert (trie_of_list l) (to_nibs key) v with Ok (Some t') => t' | _ => trie_of_list l end).
  destruct (trie_insert _ _ _) as [[t'|]| | |] eqn:Hins; try done. by eapply trie_insert_leaves.
Qed.

(** ** Long values make every node long enough to be hashed *)

Lemma slice_encode_length b : fits_usize (length b) → length b ≤ length (slice_encode b).
Proof.
  intros Hb. pose proof (header_decode_string b [] Hb) as Hd. rewrite !app_nil_r in Hd.
  apply header_decode_advances in Hd as (h & He & _ & _). rewrite He, length_app. lia.
Qed.

Lemma long_ref t : is_list_node t = true → 32 ≤ length (trie_rlp t) → trie_ref t = DigestRef (keccak256 (trie_rlp t)).
Proof.
  intros Hl Hlong. unfold trie_ref, reference_with. destruct t; try done; by rewrite decide_False by lia.
Qed.

Lemma long_hash t : is_list_node t = true → 32 ≤ length (trie_rlp t) → trie_hash t = keccak256 (trie_rlp t).
Proof. intros Hl Hlong. unfold trie_hash. rewrite long_ref by done. by destruct t. Qed.

Lemma ref_bytes_long t :
  is_list_node t = true → 32 ≤ length (trie_rlp t) → 32 ≤ length (ref_bytes (trie_ref t)).
Proof. intros Hl Hlong. rewrite long_ref by done. cbn. rewrite keccak256_length. lia. Qed.

Definition long (b : bytes) : Prop := 32 ≤ length b.

Lemma long_nodes t : known t → leaves long t → long (trie_rlp t).
Proof.
  unfold long. induction t as [|d|path value|path c IH|cs IH] using trie_nested_ind; intros Hk Hl;
    pose proof Hk as (Hct & Hr & Hsz); try (by inversion Hct); try (by inversion Hr).
  - inversion Hl; inversion Hsz; subst. rewrite rlp_of_list_node by done. cbn [trie_payload].
    rewrite list_rlp_length, length_app. pose proof (slice_encode_length value ltac:(done)).
    unfold long in *. lia.
  - inversion Hl as [| | |? ? Hc|]; subst. inversion Hct as [| |nibs ? Hn Hne Hb Hcc|]; subst.
    apply known_extension in Hk as Hkc. specialize (IH Hkc Hc).
    rewrite rlp_of_list_node by done. cbn [trie_payload]. rewrite list_rlp_length, length_app.
    pose proof (ref_bytes_long c (known_list_node _ Hkc) IH). lia.
  - inversion Hl as [| | | |? Hcs]; subst. inversion Hct as [| | |? Hlen Htwo Hch]; subst.
    destruct (remaining_children cs) as [|[i c] rem] eqn:Hrem; [cbn in Htwo; lia|].
    assert (cs !! i = Some (Some c)) as Hi.
    { apply elem_of_remaining. rewrite Hrem. left. }
    pose proof (known_slot _ _ _ Hk Hi) as Hkc. specialize (IH _ _ Hi Hkc (Hcs _ _ Hi)).
    pose proof (ref_bytes_long c (known_list_node _ Hkc) IH) as Href.
    rewrite rlp_of_list_node by done. cbn [trie_payload]. rewrite list_rlp_length, length_app.
    assert (length (slot_bytes (Some c)) ≤ length (concat (slot_bytes <$> cs))); [|cbn in *; lia].
    apply list_elem_of_lookup_2 in Hi. clear -Hi. induction Hi as [cs|x y cs Hx IH]; cbn [fmap list_fmap concat];
      rewrite length_app; lia.
Qed.

(** ** A chunk *)

(** The trie of an account map: nodes of hashed length, none with the hash of the
    empty trie. *)
Record hashed_trie (T : trie) : Prop := {
  hashed_known : known T;
  hashed_leaves : leaves long T;
  hashed_nonempty y : y ∈ encodings T → keccak256 y ≠ EMPTY_ROOT_HASH;
}.

Lemma hashed_extension path c : hashed_trie (TExtension path c) → hashed_trie c.
Proof.
  intros [Hk Hl He]. destruct Hk as (Hct & Hr & Hsz). inversion Hct; subst.
  split; [by eapply known_extension|by inversion Hl|].
  intros y Hy. apply He. cbn [encodings]. by right.
Qed.

Lemma hashed_slot cs i c : hashed_trie (TBranch cs) → cs !! i = Some (Some c) → hashed_trie c.
Proof.
  intros [Hk Hl He] Hi. split; [by eapply known_slot|inversion Hl; subst; eauto|].
  intros y Hy. apply He. cbn [encodings]. right. apply list_elem_of_In, in_concat.
  exists (encodings c). split; [|by apply list_elem_of_In].
  apply in_map_iff. exists (Some c). split; [done|]. apply list_elem_of_In. by eapply list_elem_of_lookup_2.
Qed.

Lemma hashed_hash T : hashed_trie T → trie_ref T = DigestRef (trie_hash T) ∧ trie_hash T ≠ EMPTY_ROOT_HASH.
Proof.
  intros [Hk Hl He]. pose proof (long_nodes _ Hk Hl) as Hlong. pose proof (known_list_node _ Hk) as Hnode.
  rewrite long_hash by done. split; [by apply long_ref|]. apply He, encodings_self.
Qed.

(** What a prefix of it holds. *)
Lemma hashed_below T p S s1 t1 : plug T p S s1 t1 → hashed_trie T → S = TNull ∨ hashed_trie S.
Proof. apply plug_below; [apply hashed_extension|apply hashed_slot]. Qed.

Lemma authentic_below buf T p S s1 t1 : plug T p S s1 t1 → authentic buf T → S = TNull ∨ authentic buf S.
Proof. apply (plug_below (authentic buf)); [apply authentic_child|intros cs i c Ha Hi; by eapply authentic_slot]. Qed.

(** A decoded chunk with the root hash of a subtrie is a view of it, or, for an
    empty slot, perhaps only the digest of the empty trie. *)
Lemma decoded_subtrie S buf k m rest m' :
  S = TNull ∨ hashed_trie S ∧ authentic buf S → authentic buf TNull → addressable buf →
  decode_trie buf k = Ok (m, rest) → hash m = (Ok (trie_hash S), m') →
  ∃ t, models m t ∧ (view t S ∨ t = TDigest EMPTY_ROOT_HASH ∧ S = TNull).
Proof.
  intros HS Hnull Hlen Hdec Hhash. destruct HS as [->|[HS Hauth]].
  - destruct (decoded_stands_for 32 ∅ buf k m rest m') as [(t & T & Hm & _ & _ & Hv & HcT & HuT & HrT & Hc)|[_ Hm]].
    + intros key [v Hv]. by rewrite lookup_empty in Hv.
    + split; [constructor|done|done|exact Hnull|done].
    + done.
    + exact Hhash.
    + destruct (map_trie_ok 32 ∅) as (Hct1 & Hu1 & Hr1 & Hc1); [intros key [v ?]; by rewrite lookup_empty in *|].
      assert (T = map_trie ∅) as -> by (by eapply contents_unique).
      exists t. by split; [|left].
    + exists (TDigest EMPTY_ROOT_HASH). split; [done|by right].
  - destruct (hashed_hash _ HS) as [_ Hne]. destruct HS as [Hk Hl He].
    destruct (decoded_known S buf k m rest m') as (t & Hm & Hv); try done; [by apply long_nodes|].
    exists t. by split; [|left].
Qed.

(** What a slot holds for a subtrie stands for it. *)
Lemma slot_trie_of_view S :
  S = TNull ∨ hashed_trie S →
  view (slot_trie_of (trie_hash S)) S ∧ (slot_of (slot_trie_of (trie_hash S)) = None ↔ slot_of S = None).
Proof.
  unfold slot_trie_of. intros [->|HS].
  - cbn [trie_hash]. rewrite decide_True by done. split; [constructor|done].
  - destruct (hashed_hash _ HS) as [Href Hne]. rewrite decide_False by done. split; [by constructor|].
    destruct HS as [Hk _ _]. pose proof (known_list_node _ Hk). by destruct S.
Qed.
End laws.
