(* ===== verification/FrontierSamples.v ===== *)
(** * Where the digest frontier goes wrong

    Two tries on which a cut of the state trie does not do what its callers rely
    on: a chunk that becomes empty, and a key that branches off in the middle of
    an extension. *)

From S2P Require Import Prelude External Concrete Node Hp Mpt Codec Frontier.

(** A trie built by insertions. *)
Definition trie_of (entries : list (bytes * bytes)) : Mpt :=
  (for_each (λ e, insert e.1 e.2;; mret ()) entries new).2.

(** Cuts down to single subtrees. *)
Definition finest : FrontierLimits := mkFrontierLimits 0 0 0.

(** ** A deletion, through a chunk and directly *)

(** What the guest does when one account of a chunk is removed: the chunk and the
    frontier are decoded, the key is deleted from the chunk, and the new root put
    into the slot of the frontier. *)
Definition delete_through_chunk (key : bytes) (limits : FrontierLimits) : machine Mpt Error B256 :=
  frontier ← build_frontier [key] limits;
  match mf_chunks frontier with
  | [c] =>
      '(F, _) ← lift (decode_trie (mf_bytes frontier) (mf_num_nodes frontier));
      '(C, _) ← lift (decode_trie (fc_bytes c) (fc_num_nodes c));
      let '(deleted, C') := delete_nibbles (drop (length (fc_prefix c)) (to_nibs key)) C in
      _ ← lift deleted;
      let '(new_root, _) := hash C' in
      new_root ← lift new_root;
      let '(replaced, F') := replace_frontier_slot (fc_prefix c) (fc_expected_root c) new_root F in
      _ ← lift replaced;
      lift (hash F').1
  | _ => panics Unreachable
  end.

(** The same deletion on the whole trie. *)
Definition delete_directly (key : bytes) : machine Mpt Error B256 := delete key;; hash.

(** Two keys that differ in the first nibble. *)
Definition fork_entries : list (bytes * bytes) :=
  [([0x01; 0x02]%N, replicate 40 7%N); ([0x11; 0x12]%N, replicate 40 9%N)].

(** C26: A chunk that becomes empty breaks the frontier: there is a trie and a key
    such that deleting the key through a chunk and putting the chunk's new root into
    the frontier succeeds, deleting it on the whole trie succeeds, and the two root
    hashes differ.  [replace_frontier_slot] writes a null node into the branch and
    does not collapse a branch that is left with one child. *)
Theorem emptied_chunk_diverges :
  ∃ t key through whole t1 t2,
    delete_through_chunk key finest t = (Ok through, t1) ∧
    delete_directly key t = (Ok whole, t2) ∧ through ≠ whole.
Proof.
  exists (trie_of fork_entries), [0x01; 0x02]%N.
  assert (match (delete_through_chunk [0x01; 0x02]%N finest (trie_of fork_entries)).1,
                (delete_directly [0x01; 0x02]%N (trie_of fork_entries)).1 with
          | Ok a, Ok b => negb (bool_decide (a = b))
          | _, _ => false
          end = true) as Hok by (vm_compute; reflexivity).
  destruct (delete_through_chunk _ _ _) as [[through| | |] t1]; try discriminate Hok.
  destruct (delete_directly _ _) as [[whole| | |] t2]; try discriminate Hok.
  exists through, whole, t1, t2. refine (conj eq_refl (conj eq_refl _)).
  apply negb_true_iff in Hok. exact (bool_decide_eq_false_1 _ Hok).
Qed.

(** ** A key beside an extension *)

(** The root is an extension over two nibbles. *)
Definition shared_entries : list (bytes * bytes) :=
  [([0x11; 0x02]%N, replicate 40 7%N); ([0x11; 0x12]%N, replicate 40 9%N)].

Definition covers (key : bytes) (c : FrontierChunk) : bool :=
  bool_decide (is_Some (strip_prefix (fc_prefix c) (to_nibs key))).

(** C27: A key can be left without a chunk: there is a trie and a key such that
    [build_frontier] for this key succeeds, and there is a chunk, but none whose
    prefix the key starts with.  [collect_frontier_boundaries] hands the keys of an
    extension to its child without looking at the nibbles of the extension, so a key
    that leaves the trie there ends in a chunk it is not in; an update that inserts
    it cannot succeed. *)
Theorem key_beside_extension_has_no_chunk :
  ∃ t key frontier t',
    build_frontier [key] finest t = (Ok frontier, t') ∧ mf_chunks frontier ≠ [] ∧
    forallb (λ c, negb (covers key c)) (mf_chunks frontier) = true.
Proof.
  exists (trie_of shared_entries), [0x12; 0x00]%N.
  assert (match (build_frontier [[0x12; 0x00]%N] finest (trie_of shared_entries)).1 with
          | Ok frontier => negb (length (mf_chunks frontier) =? 0) &&
                           forallb (λ c, negb (covers [0x12; 0x00]%N c)) (mf_chunks frontier)
          | _ => false
          end = true) as Hok by (vm_compute; reflexivity).
  destruct (build_frontier _ _ _) as [[frontier| | |] t']; try discriminate Hok.
  apply andb_prop in Hok as [Hlen Hcov].
  exists frontier, t'. refine (conj eq_refl (conj _ Hcov)).
  intros Hnil. rewrite Hnil in Hlen. discriminate Hlen.
Qed.
