(* ===== verification/Owned.v ===== *)
(** * Tries from proof nodes and node payloads
    ([decode_from_proof_rlp], [payloads] and [MptOwned] of [crates/mpt/src/trie.rs])

    The host gets single nodes from an RPC provider, each with its children as
    hashes or inline.  [MptOwned] is an arena that copies what it is given; its
    nodes are set without regard to the reference caches. *)

From S2P Require Import Prelude External Node Hp Mpt.

Section proofs.
Context `{Crates}.

(** ** Decoding a proof node *)

(** [for (i, mut item) in items.into_iter().take(16).enumerate()] *)
Definition decode_childs (decode : bytes → machine Mpt Error (NodeId * bytes)) (items : list bytes)
  : machine Mpt Error (list (option NodeId)) :=
  mapM (λ item,
    '(child_id, _) ← decode item;
    mret (if decide (child_id = NULL_NODE_ID) then None else Some child_id)) (take 16 items).

(** The id of the node, and the input after it. *)
Fixpoint decode_from_proof_rlp_internal (fuel : nat) (buf : bytes) : machine Mpt Error (NodeId * bytes) :=
  match fuel with
  | 0 => lift OutOfFuel
  | S fuel' =>
      '(view, rest) ← lift (map_err RlpError (header_decode_raw buf));
      node_id ← match view with
        | StringView item =>
            if decide (length item = 0) then mret NULL_NODE_ID
            else if decide (length item = 32) then add_node (Digest item) (Some (DigestRef item))
            else throw (RlpError UnexpectedLength)
        | ListView items =>
            match items with
            | [item0; item1] =>
                '(path, _) ← lift (map_err RlpError (header_decode_bytes item0 false));
                prefix ← lift (index path 0);
                if decide (u8_and prefix (u8_shl 2 4) = 0%N) then
                  '(ext_node_id, _) ← decode_from_proof_rlp_internal fuel' item1;
                  add_node (Extension path ext_node_id) None
                else
                  '(value, _) ← lift (map_err RlpError (header_decode_bytes item1 false));
                  add_node (Leaf path value) None
            | _ =>
                if decide (length items = 17) then
                  last ← lift (index items 16);
                  if decide (last ≠ NULL_NODE_REF_SLICE) then throw ValueInBranch
                  else
                    childs ← decode_childs (decode_from_proof_rlp_internal fuel') items;
                    add_node (Branch childs) None
                else throw (RlpError UnexpectedLength)
            end
        end;
      mret (node_id, rest)
  end.

(** An item is shorter than the list it is in, so the length of the input is
    enough fuel. *)
Definition decode_from_proof_rlp (buf : bytes) : outcome Error (Mpt * bytes) :=
  match decode_from_proof_rlp_internal (S (length buf)) buf (with_capacity 1) with
  | (Ok (root_id, rest), trie) => Ok (set_root_id root_id trie, rest)
  | (Err e, _) => Err e
  | (Panic p, _) => Panic p
  | (OutOfFuel, _) => OutOfFuel
  end.

(** ** The payloads of all nodes *)

Fixpoint payloads_internal (fuel : nat) (node_id : NodeId) : machine Mpt Error (list bytes) :=
  match fuel with
  | 0 => lift OutOfFuel
  | S fuel' =>
      m ← get_state;
      let calc := calc_reference (mpt_fuel m) in
      plen ← payload_length calc node_id;
      buffer ← encode_with_payload_len calc node_id plen;
      data ← node_at node_id;
      below ← match data with
              | Branch children =>
                  outs ← mapM (payloads_internal fuel') (omap id children);
                  mret (concat outs)
              | Extension _ ext_id => payloads_internal fuel' ext_id
              | _ => mret []
              end;
      mret (buffer :: below)
  end.

Definition payloads : machine Mpt Error (list bytes) :=
  m ← get_state; payloads_internal (mpt_fuel m) (root_id m).

(** ** Owned tries *)

(** [MptOwned { inner }]; the bump arena that owns the bytes is left out. *)
Definition MptOwned : Type := Mpt.

(** [MptOwned::default] *)
Definition owned_default : MptOwned := new.

(** [MptOwned::decode_from_proof_rlp]: the input is copied, the rest forgotten. *)
Definition owned_decode_from_proof_rlp (buf : bytes) : outcome Error MptOwned :=
  '(inner, _) ← decode_from_proof_rlp buf; Ok inner.

Definition get_node (m : MptOwned) (node_id : NodeId) : option NodeData := nodes m !! node_id.

(** [self.inner.nodes[i] = ..]: the cached reference stays. *)
Definition set_node (node_id : NodeId) (data : NodeData) : machine MptOwned Error unit :=
  write_node node_id data.

Definition owned_add_node (data : NodeData) : machine MptOwned Error NodeId :=
  node_id ← add_node Null None;
  set_node node_id data;;
  mret node_id.

(** [for (i, node) in other.nodes.iter().enumerate()] *)
Fixpoint copy_nodes (i : nat) (other : list NodeData) : machine MptOwned Error unit :=
  match other with
  | [] => mret ()
  | node :: other' =>
      m ← get_state;
      (if decide (i < num_nodes m) then set_node (as_u32 i) node
       else _ ← owned_add_node node; mret ());;
      copy_nodes (S i) other'
  end.

Definition from_trie (other : Mpt) : outcome Error MptOwned :=
  ((copy_nodes 0 (nodes other);; modify (set_root_id (root_id other));; get_state) owned_default).1.
End proofs.
