(* ===== verification/Growth.v ===== *)
(** * Adding whole trees to an arena

    Decoding a proof, resolving nodes and copying a trie all add trees to an
    arena, children first, without touching what is there.  [grown m m' a]: that
    is how [m'] comes from [m], and [a] is the tree that was added. *)

From S2P Require Import Prelude External Node Hp Mpt Trie TrieLaws TrieHash MptRefine MptHash MptSpec Owned.

(** The nodes of a tree. *)
Fixpoint trie_size (t : trie) : nat :=
  match t with
  | TExtension _ c => S (trie_size c)
  | TBranch cs => S (sum_list (map (λ o, match o with Some c => trie_size c | None => 0 end) cs))
  | _ => 1
  end.

Definition slot_size (o : option trie) : nat := match o with Some c => trie_size c | None => 0 end.
Definition slots_size (cs : list (option trie)) : nat := sum_list (slot_size <$> cs).

Lemma trie_size_pos t : 1 ≤ trie_size t.
Proof. destruct t; cbn; lia. Qed.

Lemma trie_size_branch cs : trie_size (TBranch cs) = S (slots_size cs).
Proof. done. Qed.

Lemma slots_size_le (f : trie → trie) cs :
  (∀ i c, cs !! i = Some (Some c) → trie_size (f c) ≤ trie_size c) →
  slots_size (option_map f <$> cs) ≤ slots_size cs.
Proof.
  unfold slots_size. induction cs as [|o cs IH]; intros Hle; [done|]. cbn.
  specialize (IH (λ i, Hle (S i))). specialize (Hle 0). destruct o as [c|]; cbn; [|done].
  specialize (Hle c eq_refl). lia.
Qed.

Section growth.
Context `{CratesOk}.

(** The arena is at rest, has its null node, and room for [n] more nodes. *)
Record room_for (n : nat) (m : Mpt) : Prop := {
  room_for_rest : at_rest m;
  room_for_null : 1 ≤ num_nodes m;
  room_for_room : (N.of_nat (num_nodes m + n) < u32_modulus)%N;
}.

Record grown (m m' : Mpt) (a : atrie) : Prop := {
  grown_evolves : evolves m m' [];
  grown_represents : represents m' a;
  grown_fresh j : j ∈ ids a → num_nodes m ≤ j;
  grown_count : num_nodes m' ≤ num_nodes m + trie_size (erase a);
}.

(** The trees in the slots of a branch, added one after the other. *)
Record grown_slots (m m' : Mpt) (acs : list (option atrie)) : Prop := {
  grown_slots_evolves : evolves m m' [];
  grown_slots_ok : Forall (node_ok m') (slots_below acs);
  grown_slots_nodup : NoDup (root <$> slots_below acs);
  grown_slots_fresh j : j ∈ root <$> slots_below acs → num_nodes m ≤ j;
  grown_slots_count : num_nodes m' ≤ num_nodes m + slots_size (option_map erase <$> acs);
}.

Lemma room_for_weaken n n' m : n' ≤ n → room_for n m → room_for n' m.
Proof. intros Hn [Hr H1 Hroom]. split; [done..|lia]. Qed.

Lemma room_for_evolves n k m m' :
  evolves m m' [] → num_nodes m' ≤ num_nodes m + k → room_for (k + n) m → room_for n m'.
Proof.
  intros Hev Hk [Hr H1 Hroom]. pose proof (evolves_length _ _ _ Hev).
  split; [by apply (evolves_rest _ _ _ Hev)| |]; unfold num_nodes in *; lia.
Qed.

Lemma grown_ready n m m' a : grown m m' a → room_for (trie_size (erase a) + n) m → room_for n m'.
Proof. intros [Hev _ _ Hk]. by apply room_for_evolves. Qed.

(** A node added with or without a cached reference. *)
Definition push (d : NodeData) (o : option NodeRef) (m : Mpt) : Mpt :=
  mkMpt (root_id m) (nodes m ++ [d]) (cached_references m ++ [new_cell o]) (rlp_scratch m).

Lemma evolves_push d o m : at_rest m → evolves m (push d o m) [].
Proof.
  intros [Hrest Hs]. split; cbn; [done| |rewrite length_app; lia| |].
  - intros _. split; cbn; [by rewrite !length_app, Hrest|done].
  - intros j Hj _. by rewrite lookup_app_l.
  - intros j Hj _. rewrite lookup_app_l; [done|lia].
Qed.

Lemma add_node_push d o m :
  (N.of_nat (num_nodes m) < u32_modulus)%N → add_node d o m = (Ok (num_nodes m), push d o m).
Proof. intros Hn. unfold add_node. exec. by rewrite as_u32_small. Qed.

Lemma owned_add_push d m :
  (N.of_nat (num_nodes m) < u32_modulus)%N → owned_add_node d m = (Ok (num_nodes m), push d None m).
Proof.
  intros Hn. unfold owned_add_node, set_node.
  erewrite machine_bind_ok by (by apply add_node_push).
  erewrite machine_bind_ok by (apply write_node_ok; cbn; rewrite length_app; cbn; unfold num_nodes; lia).
  unfold mret, machine_ret, set_nodes, push, num_nodes. cbn.
  rewrite insert_app_r_alt by lia. by rewrite Nat.sub_diag.
Qed.

(** The node goes on top of children that are in place. *)
Lemma grown_push m0 m a o :
  evolves m0 m [] → at_rest m → (∀ r, o = Some r → r = trie_ref (erase a)) →
  root a = num_nodes m → Forall (node_ok m) (below a) → NoDup (root <$> below a) →
  (∀ j, j ∈ root <$> below a → num_nodes m0 ≤ j) →
  num_nodes m < num_nodes m0 + trie_size (erase a) →
  grown m0 (push (data a) o m) a.
Proof.
  intros He Hrest Ho Hroot Hbelow Hnd Hfresh Hcount.
  pose proof (evolves_push (data a) o _ Hrest) as Hev.
  assert (∀ j, j ∈ root <$> below a → j < num_nodes m) as Hlt.
  { intros j (x & -> & Hx)%list_elem_of_fmap. rewrite Forall_forall in Hbelow.
    destruct (Hbelow x Hx) as [Hs _]. by eapply lookup_lt_Some. }
  split.
  - by eapply evolves_trans.
  - split.
    + constructor.
      * unfold node_ok, stored, cache_ok. rewrite Hroot. split.
        -- cbn. by apply list_lookup_middle.
        -- eexists. split; [cbn; apply list_lookup_middle; symmetry; apply Hrest|done].
      * rewrite Forall_forall in Hbelow |- *. intros x Hx.
        eapply evolves_frame; [exact Hev|apply not_elem_of_nil|by apply Hbelow].
    + constructor; [|exact Hnd]. intros Hin. apply Hlt in Hin. lia.
  - intros j Hj. apply elem_of_cons in Hj as [->|Hj]; [|by apply Hfresh].
    rewrite Hroot. by apply (evolves_length _ _ _ He).
  - unfold num_nodes in *. cbn. rewrite length_app. cbn. lia.
Qed.

Lemma grown_slots_nil m : grown_slots m m [].
Proof. split; [apply evolves_refl|constructor|constructor|by intros j ?%elem_of_nil|lia]. Qed.

Lemma grown_slots_none m m' acs : grown_slots m m' acs → grown_slots m m' (None :: acs).
Proof. intros [He Hok Hnd Hf Hc]. split; rewrite ?slots_below_cons; done. Qed.

Lemma grown_slots_cons m m1 m2 a acs :
  grown m m1 a → grown_slots m1 m2 acs → grown_slots m m2 (Some a :: acs).
Proof.
  intros [He1 Hrep Hf1 Hc1] [He2 Hok Hnd Hf2 Hc2].
  assert (∀ j, j ∈ ids a → j < num_nodes m1) as Hlt by (intros j; by apply represents_lt).
  split; rewrite ?slots_below_cons; cbn [from_option].
  - by eapply evolves_trans.
  - apply Forall_app. split; [|done]. destruct Hrep as [Hall _].
    eapply Forall_impl; [exact Hall|]. intros x.
    apply evolves_frame with (owned := []); [done|apply not_elem_of_nil].
  - rewrite fmap_app. apply NoDup_app. split_and!; [apply Hrep| |done].
    intros j Hj Hin. apply Hlt in Hj. apply Hf2 in Hin. lia.
  - intros j. rewrite fmap_app, elem_of_app. intros [Hj|Hj]; [by apply Hf1|].
    apply Hf2 in Hj. pose proof (evolves_length _ _ _ He1). unfold num_nodes in *. lia.
  - unfold slots_size in *. cbn. lia.
Qed.

(** ** Adding the trees a list of items stands for *)

(** [f] adds the tree [t] for [x], or does nothing where there is none. *)
Definition adds (f : machine Mpt Error (option NodeId)) (o : option trie) : Prop :=
  match o with
  | Some t => ∀ m, room_for (trie_size t) m →
      ∃ m' a, f m = (Ok (Some (root a)), m') ∧ erase a = t ∧ grown m m' a
  | None => ∀ m, room_for 0 m → f m = (Ok None, m)
  end.

Lemma mapM_adds {X} (f : X → machine Mpt Error (option NodeId)) xs ts m :
  Forall2 (λ x o, adds (f x) o) xs ts → room_for (slots_size ts) m →
  ∃ m' acs, mapM f xs m = (Ok (option_map root <$> acs), m') ∧
    option_map erase <$> acs = ts ∧ grown_slots m m' acs.
Proof.
  intros Hall. revert m. induction Hall as [|x o xs ts Hx Hall IH]; intros m Hready.
  { exists m, []. split_and!; [done|done|apply grown_slots_nil]. }
  unfold slots_size in Hready. cbn [fmap list_fmap sum_list sum_list_with foldr] in Hready. cbn [mapM].
  destruct o as [t|]; cbn [slot_size] in Hready.
  - destruct (Hx m) as (m1 & a & Hrun & <- & Hg); [eapply room_for_weaken; [|done]; cbn; lia|].
    destruct (IH m1) as (m2 & acs & Hrun2 & <- & Hgs); [by eapply grown_ready|].
    exists m2, (Some a :: acs). erewrite machine_bind_ok by exact Hrun.
    erewrite machine_bind_ok by exact Hrun2. split_and!; [done|done|by eapply grown_slots_cons].
  - destruct (IH m) as (m2 & acs & Hrun2 & <- & Hgs); [done|].
    exists m2, (None :: acs). erewrite machine_bind_ok by (apply Hx; by eapply room_for_weaken; [|done]; lia).
    erewrite machine_bind_ok by exact Hrun2. split_and!; [done|done|by apply grown_slots_none].
Qed.

(** The code adds the node whose children it has added. *)
Lemma grown_leaf d a m :
  data a = d → below a = [] → root a = num_nodes m → room_for 1 m →
  owned_add_node d m = (Ok (root a), push d None m) ∧ grown m (push d None m) a.
Proof.
  intros <- Hb Hroot Hready. rewrite Hroot.
  rewrite owned_add_push by (destruct Hready; lia). split; [done|].
  apply grown_push; rewrite ?Hb; [apply evolves_refl|apply Hready|done|done|constructor|constructor| |].
  - by intros j ?%elem_of_nil.
  - pose proof (trie_size_pos (erase a)). lia.
Qed.

Lemma grown_extension m m' path a o :
  grown m m' a → room_for (S (trie_size (erase a))) m →
  (∀ r, o = Some r → r = trie_ref (TExtension path (erase a))) →
  room_for 1 m' ∧
  grown m (push (Extension path (root a)) o m') (AExtension (num_nodes m') path a).
Proof.
  intros Hg Hready Ho. assert (room_for 1 m') as Hready'.
  { eapply grown_ready; [exact Hg|]. by eapply room_for_weaken; [|exact Hready]; lia. }
  split; [done|]. destruct Hg as [Hev Hrep Hf Hc].
  apply (grown_push _ _ (AExtension (num_nodes m') path a));
    [done|apply Hready'|done|done|apply Hrep|apply Hrep|done|cbn; lia].
Qed.

Lemma grown_branch m m' acs o :
  grown_slots m m' acs → room_for (S (slots_size (option_map erase <$> acs))) m →
  (∀ r, o = Some r → r = trie_ref (TBranch (option_map erase <$> acs))) →
  room_for 1 m' ∧
  grown m (push (Branch (option_map root <$> acs)) o m') (ABranch (num_nodes m') acs).
Proof.
  intros [Hev Hok Hnd Hf Hc] Hready Ho. assert (room_for 1 m') as Hready'.
  { eapply room_for_evolves; [exact Hev|exact Hc|]. by eapply room_for_weaken; [|exact Hready]; lia. }
  split; [done|].
  apply (grown_push _ _ (ABranch (num_nodes m') acs));
    [done|apply Hready'|done|done|done|done|done|].
  rewrite erase_branch, trie_size_branch. lia.
Qed.

(** An arena that grew by a tree, with that tree as its root. *)
Lemma grown_models m m' a :
  grown m m' a → at_rest m → well_formed (erase a) → models (set_root_id (root a) m') (erase a).
Proof.
  intros [Hev Hrep _ _] Hrest Hwf. exists a. split_and!; [exact Hrep|done|done| |done].
  by apply (evolves_rest _ _ _ Hev) in Hrest.
Qed.

Lemma room_for_new n : (N.of_nat (S n) < u32_modulus)%N → room_for n new.
Proof. intros Hn. by split. Qed.

(** The ids that were added are not the null node's. *)
Lemma grown_root_null n m m' a : grown m m' a → room_for n m → root a ≠ NULL_NODE_ID.
Proof.
  intros [_ _ Hf _] [_ Hn _]. specialize (Hf (root a) (list_elem_of_here _ _)).
  unfold NULL_NODE_ID. lia.
Qed.
End growth.
