(* ===== verification/Expand.v ===== *)
(** * Parts of a trie, and the items of its nodes

    Proofs and node stores give a trie node by node.  [expand present t] is the
    part of [t] that can be put together when the nodes with the digests
    [present] are at hand: what has no digest stands in its parent, everything
    else stays a digest.  It is a view of [t], and lookups succeed in it for
    keys whose path is present. *)

From S2P Require Import Prelude External Node Hp Mpt Trie TrieLaws TrieHash MptRefine MptSpec.
From S2P Require Import View Codec CodecLaws Decode Growth.

Section expand.
Context `{Crates}.

(** What of the child [c] there is, when [f] gives what of it is expanded. *)
Definition reach (present : bytes → bool) (f : trie → trie) (c : trie) : trie :=
  match trie_ref c with
  | DigestRef d => if present d then f c else TDigest d
  | BytesRef _ => f c
  end.

Fixpoint expand (present : bytes → bool) (t : trie) : trie :=
  match t with
  | TExtension path c => TExtension path (reach present (expand present) c)
  | TBranch cs =>
      TBranch (map (λ o, match o with
                         | Some c => Some (reach present (expand present) c)
                         | None => None
                         end) cs)
  | _ => t
  end.

(** A node alone, with the children its encoding contains. *)
Definition shallow : trie → trie := expand (λ _, false).

(** The items of the encoding of a leaf, an extension or a branch. *)
Definition node_items (t : trie) : list bytes :=
  match t with
  | TNull | TDigest _ => []
  | TLeaf path value => [slice_encode path; slice_encode value]
  | TExtension path c => [slice_encode path; ref_bytes (trie_ref c)]
  | TBranch cs => (slot_bytes <$> cs) ++ [[EMPTY_STRING_CODE]]
  end.

(** The nodes below [t] that a lookup of [key] visits. *)
Fixpoint path_below (t : trie) (key : bytes) : list trie :=
  match t with
  | TExtension path c =>
      match strip_prefix (prefix_to_nibs path) key with
      | Some tail => c :: path_below c tail
      | None => []
      end
  | TBranch cs =>
      match key with
      | [] => []
      | i :: tail =>
          (fix go cs i :=
             match cs, i with
             | Some c :: _, 0 => c :: path_below c tail
             | _ :: cs', S i' => go cs' i'
             | _, _ => []
             end) cs (N.to_nat i)
      end
  | _ => []
  end.

(** The digest of a node that stands in its parent by its hash. *)
Definition digest_of (t : trie) : option bytes :=
  match trie_ref t with DigestRef d => Some d | BytesRef _ => None end.

Definition path_digests (t : trie) (key : bytes) : list bytes := omap digest_of (path_below t key).

Lemma expand_branch present cs :
  expand present (TBranch cs) = TBranch (option_map (reach present (expand present)) <$> cs).
Proof. done. Qed.

Lemma path_below_branch cs i tail :
  path_below (TBranch cs) (i :: tail) =
  match cs !! N.to_nat i with Some (Some c) => c :: path_below c tail | _ => [] end.
Proof.
  cbn. generalize (N.to_nat i). intros j. revert j.
  induction cs as [|[c|] cs IH]; intros [|j]; cbn; try done; apply IH.
Qed.

Context `{!CratesOk}.

Lemma expand_view present t : view (expand present t) t.
Proof.
  assert (∀ c, view (expand present c) c → view (reach present (expand present) c) c) as Hreach.
  { intros c Hc. unfold reach. destruct (trie_ref c) as [s|d] eqn:Hr; [done|].
    destruct (present d); [done|by constructor]. }
  induction t as [|d|path v|path c IH|cs IH] using trie_nested_ind; cbn [expand];
    try apply view_refl; [by constructor; apply Hreach|].
  constructor; [by rewrite length_map| |].
  - intros i c Hi. rewrite list_lookup_fmap in Hi. destruct (cs !! i) as [[c'|]|] eqn:Hc; try done.
    injection Hi as <-. exists c'. split; [done|]. apply Hreach. by eapply IH.
  - intros i Hi. rewrite list_lookup_fmap in Hi. by destruct (cs !! i) as [[c'|]|] eqn:Hc.
Qed.

Lemma reach_view present c : view (reach present (expand present) c) c.
Proof.
  unfold reach. destruct (trie_ref c) as [s|d] eqn:Hr; [apply expand_view|].
  destruct (present d); [apply expand_view|by constructor].
Qed.

Lemma view_well_formed t T : view t T → well_formed T → well_formed t.
Proof.
  revert T. induction t as [|d|path v|path c IH|cs IH] using trie_nested_ind; intros T Hv HT;
    inversion Hv as [? ? Href| | |? ? ? Hc|? ds Hlen Hs Hn]; subst; try done.
  - constructor. by eapply trie_ref_digest_length.
  - inversion HT; subst. constructor; [done|]. by eapply IH.
  - inversion HT as [| | | |? Hl Hcs]; subst. constructor; [congruence|].
    intros i c Hi. destruct (Hs _ _ Hi) as (d & Hd & Hcd). by eapply IH; eauto.
Qed.

Lemma expand_size present t : trie_size (expand present t) ≤ trie_size t.
Proof.
  assert (∀ c, trie_size (expand present c) ≤ trie_size c →
    trie_size (reach present (expand present) c) ≤ trie_size c) as Hreach.
  { intros c Hc. unfold reach. pose proof (trie_size_pos c).
    destruct (trie_ref c); [done|]. by destruct (present _). }
  induction t as [|d|path v|path c IH|cs IH] using trie_nested_ind; try done.
  - cbn. specialize (Hreach c IH). lia.
  - rewrite expand_branch, !trie_size_branch. apply le_n_S, slots_size_le. eauto.
Qed.

(** Lookups along present nodes. *)
Lemma expand_get present t key o :
  (∀ d, d ∈ path_digests t key → present d = true) →
  trie_get t key = Ok o → trie_get (expand present t) key = Ok o.
Proof.
  assert (∀ c tail, (∀ d, d ∈ omap digest_of (c :: path_below c tail) → present d = true) →
    reach present (expand present) c = expand present c ∧
    ∀ d, d ∈ path_digests c tail → present d = true) as Hstep.
  { intros c tail Hp. cbn [omap list_omap] in Hp. unfold reach, digest_of in *.
    destruct (trie_ref c) as [s|d]; [done|]. split; [rewrite Hp; [done|left]|].
    intros d' Hd'. apply Hp. by right. }
  revert key. induction t as [|d|path v|path c IH|cs IH] using trie_nested_ind; intros key Hp Hg; try done.
  - cbn [expand trie_get] in *. unfold path_digests in Hp. cbn [path_below] in Hp.
    destruct (strip_prefix _ key) as [tail|]; [|done].
    destruct (Hstep _ _ Hp) as [-> Hp']. by apply IH.
  - destruct key as [|i tail]; [done|]. rewrite expand_branch, trie_get_branch in *.
    unfold path_digests in Hp. rewrite path_below_branch in Hp. rewrite list_lookup_fmap.
    destruct (cs !! N.to_nat i) as [[c|]|] eqn:Hi; try done.
    destruct (Hstep _ _ Hp) as [Hr Hp']. cbn. rewrite Hr. by eapply IH.
Qed.

(** ** Items *)

Lemma concat_items t : is_list_node t = true → concat (node_items t) = trie_payload t.
Proof.
  destruct t as [| |p v|p c|cs]; try done; intros _; cbn [node_items trie_payload concat];
    rewrite ?app_nil_r; [done..|]. by rewrite concat_app.
Qed.

Lemma ref_item c : (is_list_node c = true → rlp_item (trie_rlp c)) → sized c → rlp_item (ref_bytes (trie_ref c)).
Proof.
  intros Hc Hs. destruct (trie_ref_cases c Hs) as [(d & -> & Hd)|[[-> Hr]|(Hl & -> & _)]]; cbn [ref_bytes].
  - rewrite <-slice_encode_B256 by done. constructor. rewrite Hd. auto with reth.
  - rewrite Hr. cbn [ref_bytes]. rewrite <-slice_encode_nil. constructor. auto with reth.
  - by apply Hc.
Qed.

Lemma node_items_ok t : sized t → is_list_node t = true → Forall rlp_item (node_items t).
Proof.
  assert (∀ c, (sized c → is_list_node c = true → Forall rlp_item (node_items c)) → sized c →
    is_list_node c = true → rlp_item (trie_rlp c)) as Hlist.
  { intros c Hc Hs Hl. rewrite rlp_of_list_node by done. unfold list_rlp.
    rewrite <-concat_items by done. constructor; [by apply Hc|].
    rewrite concat_items by done. by apply sized_payload. }
  induction t as [|d|path v|path c IH|cs IH] using trie_nested_ind; intros Hs Hl; try done;
    inversion Hs as [| | | |? Hp Hcs]; subst; cbn [node_items].
  - repeat constructor; done.
  - repeat constructor; [done|]. apply ref_item; [|done]. auto.
  - apply Forall_app. split.
    + apply Forall_fmap, Forall_lookup. intros i o Hi. cbn. destruct o as [c|].
      * cbn. apply ref_item; eauto.
      * cbn. rewrite <-slice_encode_nil. constructor. auto with reth.
    + repeat constructor. rewrite <-slice_encode_nil. constructor. auto with reth.
Qed.

Lemma decode_raw_node t rest :
  sized t → is_list_node t = true →
  header_decode_raw (trie_rlp t ++ rest) = Ok (ListView (node_items t), rest).
Proof.
  intros Hs Hl. rewrite rlp_of_list_node by done. unfold list_rlp.
  rewrite <-concat_items, <-app_assoc by done.
  apply header_decode_raw_list; [by apply node_items_ok|].
  rewrite concat_items by done. by apply sized_payload.
Qed.

Lemma decode_raw_digest d rest :
  length d = 32 → header_decode_raw ((EMPTY_STRING_CODE + 32)%N :: d ++ rest) = Ok (StringView d, rest).
Proof.
  intros Hd. change ((EMPTY_STRING_CODE + 32)%N :: d ++ rest)
    with (((EMPTY_STRING_CODE + 32)%N :: d) ++ rest). rewrite <-slice_encode_B256 by done.
  apply header_decode_raw_string. rewrite Hd. auto with reth.
Qed.

Lemma decode_raw_null rest : header_decode_raw (EMPTY_STRING_CODE :: rest) = Ok (StringView [], rest).
Proof.
  change (EMPTY_STRING_CODE :: rest) with ([EMPTY_STRING_CODE] ++ rest). rewrite <-slice_encode_nil.
  apply header_decode_raw_string. auto with reth.
Qed.

(** The encoding of a node determines its items. *)
Lemma trie_rlp_items t u :
  sized t → sized u → is_list_node t = true → is_list_node u = true →
  trie_rlp t = trie_rlp u → node_items t = node_items u.
Proof.
  intros Ht Hu Hlt Hlu Heq. pose proof (decode_raw_node t [] Ht Hlt) as Hd.
  rewrite Heq, decode_raw_node in Hd by done. by injection Hd.
Qed.
End expand.
