(* ===== verification/ProofNodes.v ===== *)
(** * Single nodes from their encodings

    What [decode_from_proof_rlp], [MptResolver] and [MptOwned::from_trie] make of
    a node's encoding: the node with the children that stand in it, and digests
    for the others. *)

From S2P Require Import Prelude External Node Hp Mpt Trie TrieLaws TrieHash MptRefine MptHash MptSpec.
From S2P Require Import View Codec CodecLaws Decode Owned Growth Expand.

Section nodes.
Context `{CratesOk}.

(** The tries whose nodes a decoder can read: encoded paths, 16 slots, and no
    null node below the root.  Shortened nodes are not canonical, but proper. *)
Inductive proper : trie → Prop :=
  | proper_digest d : length d = 32 → proper (TDigest d)
  | proper_leaf nibs value : nibbles nibs → proper (leaf nibs value)
  | proper_extension nibs c : nibbles nibs → proper c → proper (extension nibs c)
  | proper_branch cs :
      length cs = 16 → (∀ i c, cs !! i = Some (Some c) → proper c) → proper (TBranch cs).

Lemma canonical_proper t : canonical_node t → proper t.
Proof.
  induction t as [|d|path v|path c IH|cs IH] using trie_nested_ind; inversion 1; subst; constructor; eauto.
Qed.

Lemma proper_wf t : proper t → well_formed t.
Proof.
  induction t as [|d|path v|path c IH|cs IH] using trie_nested_ind; inversion 1; subst; constructor; eauto with reth.
Qed.

Lemma proper_expand present t : proper t → proper (expand present t).
Proof.
  induction t as [|d|path v|path c IH|cs IH] using trie_nested_ind; intros Hp; try done.
  - inversion Hp as [| |nibs ? Hn Hc|]; subst. cbn [expand]. apply (proper_extension nibs); [done|].
    unfold reach. destruct (trie_ref c) as [s|d] eqn:Hr; [by apply IH|].
    destruct (present d); [by apply IH|]. constructor.
    by eapply trie_ref_digest_length; [apply proper_wf|].
  - inversion Hp as [| | |? Hl Hcs]; subst. rewrite expand_branch. constructor; [by rewrite length_fmap|].
    intros i c Hi. rewrite list_lookup_fmap in Hi. destruct (cs !! i) as [[c'|]|] eqn:Hc; try done.
    injection Hi as <-. unfold reach. destruct (trie_ref c') as [s|d] eqn:Hr; [by eauto|].
    destruct (present d); [by eauto|]. constructor.
    eapply trie_ref_digest_length; [|done]. apply proper_wf. eauto.
Qed.

Lemma sized_expand present t : sized t → sized (expand present t).
Proof.
  assert (∀ c, sized c → sized (expand present c) → sized (reach present (expand present) c)) as Hreach.
  { intros c Hc He. unfold reach. destruct (trie_ref_cases c Hc) as [(d & -> & Hd)|[[-> Hr]|(_ & -> & _)]];
      [|by rewrite Hr|done]. destruct (present d); [done|by constructor]. }
  assert (∀ c, trie_ref (reach present (expand present) c) = trie_ref c) as Href.
  { intros c. apply view_ref, reach_view. }
  induction t as [|d|path v|path c IH|cs IH] using trie_nested_ind; intros Hs; try done.
  - inversion Hs; subst. cbn [expand]. constructor; [done| |auto]. cbn [trie_payload] in *. by rewrite Href.
  - inversion Hs as [| | | |? Hp Hcs]; subst. rewrite expand_branch. constructor.
    + cbn [trie_payload] in *. rewrite <-list_fmap_compose.
      assert (slot_bytes ∘ option_map (reach present (expand present)) <$> cs = slot_bytes <$> cs) as ->; [|done].
      apply list_fmap_ext. intros i [c|] _; [|done]. cbn. by rewrite Href.
    + intros i c Hi. rewrite list_lookup_fmap in Hi. destruct (cs !! i) as [[c'|]|] eqn:Hc; try done.
      injection Hi as <-. eauto.
Qed.

Lemma proper_not_null t : proper t → t ≠ TNull.
Proof. by inversion 1. Qed.

Lemma proper_bytes_ref t s :
  proper t → sized t → trie_ref t = BytesRef s → is_list_node t = true ∧ s = trie_rlp t ∧ length s < 32.
Proof.
  intros Hp Hs Hr. destruct (trie_ref_cases t Hs) as [(d & Hd & _)|[[-> _]|(Hl & Hb & Hlen)]];
    [congruence|by inversion Hp|]. rewrite Hb in Hr. by injection Hr as <-.
Qed.

Lemma slice_encode_same p q :
  fits_usize (length p) → fits_usize (length q) → slice_encode p = slice_encode q → p = q.
Proof.
  intros Hp Hq Heq. destruct (slice_encode_inj p q [] []) as [-> _]; [done|done|by rewrite Heq|done].
Qed.

Lemma proper_slot_null c : proper c → sized c → ref_bytes (trie_ref c) ≠ [EMPTY_STRING_CODE].
Proof.
  intros Hp Hs Heq. apply (proper_not_null c Hp), (trie_ref_null_iff c Hs).
  destruct (trie_ref c) as [s|d] eqn:Hr; [done|]. injection Heq as _ ->.
  by apply trie_ref_digest_length in Hr; [|apply proper_wf].
Qed.

(** Nodes with the same encoding are the same, as far as it shows. *)
Lemma same_rlp_shallow t u :
  proper t → proper u → sized t → sized u → is_list_node t = true → is_list_node u = true →
  trie_rlp t = trie_rlp u → shallow t = shallow u.
Proof.
  assert (∀ c c', proper c → proper c' → sized c → sized c' →
    (is_list_node c = true → is_list_node c' = true → trie_rlp c = trie_rlp c' → shallow c = shallow c') →
    ref_bytes (trie_ref c) = ref_bytes (trie_ref c') →
    reach (λ _, false) shallow c = reach (λ _, false) shallow c') as Hreach.
  { intros c c' Hp Hp' Hs Hs' Hc Heq. apply (f_equal from_rlp_slice) in Heq.
    rewrite !from_rlp_slice_ref in Heq by done. unfold reach. rewrite <-Heq.
    destruct (trie_ref c) as [s|d] eqn:Hr; [|done]. symmetry in Heq.
    apply proper_bytes_ref in Hr as (Hl & -> & _), Heq as (Hl' & Heq & _); auto. }
  assert (∀ nibs nibs' l l', nibbles nibs → nibbles nibs' → fits_usize (length (hp_encode nibs l)) →
    fits_usize (length (hp_encode nibs' l')) →
    slice_encode (hp_encode nibs l) = slice_encode (hp_encode nibs' l') → nibs = nibs' ∧ l = l') as Hpath.
  { intros nibs nibs' l l' Hn Hn' Hf Hf' Hp.
    apply slice_encode_same in Hp as Hhp; [|done..]. split.
    - by rewrite <-(hp_decode_encode nibs l), <-(hp_decode_encode nibs' l'), Hhp.
    - by rewrite <-(hp_encode_leaf nibs l), <-(hp_encode_leaf nibs' l'), Hhp. }
  revert u. induction t as [|d|path v|path c IH|cs IH] using trie_nested_ind;
    intros u Ht Hu Hst Hsu Hlt Hlu Heq; try done;
    pose proof (trie_rlp_items _ _ Hst Hsu Hlt Hlu Heq) as Hitems;
    (destruct Hu as [|nibs' v' Hn'|nibs' c' Hn' Hc'|cs' Hlen' Hcs']; [done| | |]);
    cbn [node_items leaf extension] in Hitems;
    try (apply (f_equal length) in Hitems; rewrite length_app, length_fmap in Hitems;
         inversion Ht; subst; cbn in Hitems; lia);
    inversion Hsu as [|?|? ? Hfp' Hfv' Hpay'|? ? Hfp' Hpay' Hsc'|? Hpay' Hscs']; subst;
    inversion Hst as [|?|? ? Hfp Hfv Hpay|? ? Hfp Hpay Hsc|? Hpay Hscs]; subst.
  - inversion Ht as [|nibs ? Hn| |]; subst. injection Hitems as Hp Hv.
    apply Hpath in Hp as [<- _]; [|done..].
    by apply slice_encode_same in Hv as <-.
  - inversion Ht as [|nibs ? Hn| |]; subst. injection Hitems as Hp Hv.
    by apply Hpath in Hp as [_ ?].
  - inversion Ht as [| |nibs ? Hn Hc|]; subst. injection Hitems as Hp Hv.
    by apply Hpath in Hp as [_ ?].
  - inversion Ht as [| |nibs ? Hn Hc|]; subst. injection Hitems as Hp Hv.
    apply Hpath in Hp as [<- _]; [|done..]. unfold extension, shallow. cbn [expand]. f_equal. apply Hreach; auto.
  - inversion Ht as [| | |? Hlen Hcs]; subst. apply app_inj_tail in Hitems as [Hslots _].
    unfold shallow. rewrite !expand_branch. f_equal. apply list_eq. intros i.
    apply (f_equal (.!! i)) in Hslots. rewrite !list_lookup_fmap in *.
    destruct (cs !! i) as [o|] eqn:Hi, (cs' !! i) as [o'|] eqn:Hi'; try done. injection Hslots as Hslot.
    destruct o as [c|], o' as [c'|]; cbn in *; [| | |done].
    + do 2 f_equal. apply Hreach; [by eauto..| |done]. intros. eapply IH; eauto.
    + exfalso. eapply (proper_slot_null c); eauto.
    + exfalso. eapply (proper_slot_null c'); eauto.
Qed.

(** ** Decoding a node *)

Lemma header_encode_nonempty n : fits_usize n → header_encode true n ≠ [].
Proof.
  intros Hn He. pose proof (header_decode_list n (slice_encode (replicate n 0%N)) Hn) as Hl.
  pose proof (header_decode_string (replicate n 0%N) []) as Hs. rewrite app_nil_r in Hs.
  rewrite He in Hl. cbn [app] in Hl. rewrite Hs in Hl by (by rewrite length_replicate).
  assert (n ≤ length (slice_encode (replicate n 0%N))) as Hle; [|by specialize (Hl Hle)].
  clear Hl.
  apply header_decode_advances in Hs as (h & -> & Hlen & _); [|by rewrite length_replicate].
  rewrite length_replicate in Hlen. rewrite !length_app, length_replicate. lia.
Qed.

(** A node's items are shorter than the node. *)
Lemma node_item_shorter t item :
  sized t → is_list_node t = true → item ∈ node_items t → length item < length (trie_rlp t).
Proof.
  intros Hs Hl Hin. rewrite rlp_of_list_node by done. unfold list_rlp. rewrite length_app.
  pose proof (header_encode_nonempty _ (sized_payload _ Hs)) as Hne.
  assert (length item ≤ length (trie_payload t)).
  { rewrite <-concat_items by done. apply list_elem_of_split in Hin as (l1 & l2 & ->).
    rewrite concat_app. cbn. rewrite !length_app. lia. }
  destruct (header_encode true (length (trie_payload t))); [done|cbn; lia].
Qed.

(** The match on the items of a branch. *)
Lemma match_branch_items {A} (items : list bytes) (two : bytes → bytes → A) (other : A) :
  length items = 17 → match items with [item0; item1] => two item0 item1 | _ => other end = other.
Proof. by destruct items as [|? [|? [|]]]. Qed.

Lemma branch_items (cs : list (option trie)) :
  length cs = 16 →
  length (node_items (TBranch cs)) = 17 ∧ node_items (TBranch cs) !! 16 = Some [EMPTY_STRING_CODE] ∧
  take 16 (node_items (TBranch cs)) = slot_bytes <$> cs.
Proof.
  intros Hlen. cbn [node_items]. split_and!.
  - rewrite length_app, length_fmap, Hlen. done.
  - apply list_lookup_middle. by rewrite length_fmap.
  - by rewrite take_app_length' by (by rewrite length_fmap).
Qed.

Lemma path_flag nibs leaf :
  nibbles nibs →
  ∃ prefix tail, hp_encode nibs leaf = prefix :: tail ∧
    (u8_and prefix (u8_shl 2 4) = 0%N ↔ leaf = false).
Proof.
  intros Hn. pose proof (hp_encode_leaf nibs leaf Hn) as Hl.
  destruct (hp_encode nibs leaf) as [|b path] eqn:He; [by apply hp_encode_nonempty in He|].
  exists b, path. split; [done|]. unfold is_leaf_path in Hl.
  destruct leaf; [apply bool_decide_eq_true in Hl|apply bool_decide_eq_false, dec_stable in Hl]; split; done.
Qed.

Abbreviation decode_node := decode_from_proof_rlp_internal.

(** [decode_from_proof_rlp_internal] adds [t] for the item. *)
Definition decodes_to (fuel : nat) (item : bytes) (t : trie) : Prop :=
  ∀ rest m, room_for (trie_size t) m →
  ∃ m' a, decode_node fuel (item ++ rest) m = (Ok (root a, rest), m') ∧ erase a = t ∧ grown m m' a.

Lemma decodes_digest fuel d :
  length d = 32 → decodes_to (S fuel) ((EMPTY_STRING_CODE + 32)%N :: d) (TDigest d).
Proof.
  intros Hd rest m Hready. cbn [decode_from_proof_rlp_internal app].
  rewrite decode_raw_digest by done. cbn [map_err]. exec.
  rewrite decide_False, decide_True by lia.
  erewrite machine_bind_ok by (apply add_node_push; destruct Hready; cbn in *; lia).
  exists (push (Digest d) (Some (DigestRef d)) m), (ADigest (num_nodes m) d).
  split_and!; [done|done|].
  apply (grown_push m m (ADigest (num_nodes m) d)); [apply evolves_refl|apply Hready| |done|constructor|constructor| |].
  - by intros r [= <-].
  - by intros j ?%elem_of_nil.
  - cbn. lia.
Qed.

Lemma decodes_child fuel c :
  proper c → sized c → length (ref_bytes (trie_ref c)) < fuel →
  (is_list_node c = true → length (trie_rlp c) < fuel → decodes_to fuel (trie_rlp c) (shallow c)) →
  decodes_to fuel (ref_bytes (trie_ref c)) (reach (λ _, false) shallow c).
Proof.
  intros Hp Hs Hf Hc. unfold reach. destruct (trie_ref c) as [s|d] eqn:Hr; cbn [ref_bytes] in *.
  - apply proper_bytes_ref in Hr as (Hl & -> & _); [|done..]. by apply Hc.
  - destruct fuel as [|fuel]; [lia|]. apply decodes_digest.
    by eapply trie_ref_digest_length; [apply proper_wf|].
Qed.

Definition decode_slot_item (fuel : nat) (item : bytes) : machine Mpt Error (option NodeId) :=
  '(child_id, _) ← decode_node fuel item;
  mret (if decide (child_id = NULL_NODE_ID) then None else Some child_id).

Lemma decodes_slot fuel item t : decodes_to fuel item t → adds (decode_slot_item fuel item) (Some t).
Proof.
  intros Hd m Hready. destruct (Hd [] m Hready) as (m' & a & Hrun & He & Hg).
  rewrite app_nil_r in Hrun. exists m', a. split_and!; [|done|done].
  unfold decode_slot_item. erewrite machine_bind_ok by exact Hrun. cbn beta iota.
  by rewrite decide_False by (by eapply grown_root_null).
Qed.

Lemma decodes_no_slot fuel : adds (decode_slot_item (S fuel) [EMPTY_STRING_CODE]) None.
Proof.
  intros m _. unfold decode_slot_item. cbn [decode_from_proof_rlp_internal].
  rewrite decode_raw_null. cbn [map_err]. exec. by rewrite decide_True.
Qed.

Lemma shallow_branch cs : shallow (TBranch cs) = TBranch (option_map (reach (λ _, false) shallow) <$> cs).
Proof. done. Qed.

Lemma decodes_node t fuel :
  proper t → sized t → is_list_node t = true → length (trie_rlp t) < fuel →
  decodes_to fuel (trie_rlp t) (shallow t).
Proof.
  revert fuel. induction t as [|d|path v|path c IH|cs IH] using trie_nested_ind;
    intros fuel Hp Hs Hl Hf rest m Hready; try done;
    (destruct fuel as [|fuel]; [lia|]); cbn [decode_from_proof_rlp_internal];
    rewrite (decode_raw_node _ rest Hs Hl); cbn [map_err]; exec;
    pose proof (λ item, node_item_shorter _ item Hs Hl) as Hshort.
  - inversion Hp as [|nibs ? Hn| |]; subst. inversion Hs as [| |? ? Hfp Hfv _| |]; subst. cbn [node_items].
    rewrite <-(app_nil_r (slice_encode (hp_encode nibs true))), header_decode_bytes_string by done.
    cbn [map_err]. exec. destruct (path_flag nibs true Hn) as (prefix & tail & -> & Hflag).
    unfold index. cbn [lookup list_lookup]. exec. rewrite decide_False by (by intros ?%Hflag).
    rewrite <-(app_nil_r (slice_encode v)), header_decode_bytes_string by done. cbn [map_err]. exec.
    erewrite machine_bind_ok by (apply add_node_push; destruct Hready; lia).
    eexists _, (ALeaf (num_nodes m) (prefix :: tail) v). split_and!; [done|done|].
    apply (grown_push m m (ALeaf (num_nodes m) (prefix :: tail) v));
      [apply evolves_refl|apply Hready|done|done|constructor|constructor|by intros j ?%elem_of_nil|cbn; lia].
  - inversion Hp as [| |nibs ? Hn Hc|]; subst. inversion Hs as [| | |? ? Hfp _ Hsc|]; subst. cbn [node_items].
    assert (length (ref_bytes (trie_ref c)) < fuel) as Hlen.
    { assert (ref_bytes (trie_ref c) ∈ node_items (TExtension (hp_encode nibs false) c)) as Hi%Hshort by (right; left).
      lia. }
    rewrite <-(app_nil_r (slice_encode (hp_encode nibs false))), header_decode_bytes_string by done.
    cbn [map_err]. exec. destruct (path_flag nibs false Hn) as (prefix & tail & Hpath & Hflag).
    rewrite Hpath. unfold index. cbn [lookup list_lookup]. exec. rewrite decide_True by (by apply Hflag).
    unfold shallow in Hready. cbn [expand trie_size] in Hready.
    destruct (decodes_child fuel c) with (rest := @nil N) (m := m) as (m' & a & Hrun & He & Hg);
      [done|done|done|by intros; apply IH|by eapply room_for_weaken; [|done]; unfold shallow; lia|].
    { rewrite app_nil_r in Hrun. exec. erewrite machine_bind_ok by exact Hrun. cbn beta iota.
      destruct (grown_extension m m' (prefix :: tail) a None Hg) as [Hr' Hg']; [by rewrite He|done|].
      erewrite machine_bind_ok by (apply add_node_push; destruct Hr'; lia).
      eexists _, (AExtension (num_nodes m') (prefix :: tail) a). split_and!; [done| |done].
      cbn. by rewrite He, <-Hpath. }
  - inversion Hp as [| | |? Hlen Hcs]; subst. inversion Hs as [| | | |? _ Hscs]; subst.
    destruct (branch_items cs Hlen) as (Hl17 & Hlast & Htake).
    rewrite match_branch_items, decide_True by done. unfold index. rewrite Hlast. exec.
    rewrite decide_False by (intros Hne; by apply Hne).
    unfold decode_childs. rewrite Htake. rewrite shallow_branch in Hready |- *.
    destruct (mapM_adds (decode_slot_item fuel) (slot_bytes <$> cs)
      (option_map (reach (λ _, false) shallow) <$> cs) m) as (m' & acs & Hrun & He & Hg).
    { apply Forall2_fmap, Forall_Forall2_diag, Forall_lookup. intros i o Hi. destruct o as [c|].
      - apply decodes_slot. apply decodes_child; [by eauto..| |by intros; eapply IH; eauto].
        assert (slot_bytes (Some c) ∈ node_items (TBranch cs)) as Hi'%Hshort; [|cbn [slot_bytes] in Hi'; lia].
        cbn [node_items]. apply elem_of_app. left. apply list_elem_of_fmap. exists (Some c). split; [done|].
        by eapply list_elem_of_lookup_2.
      - destruct fuel; [|apply decodes_no_slot].
        assert ([EMPTY_STRING_CODE] ∈ node_items (TBranch cs)) as Hi'%Hshort; [|change (length [EMPTY_STRING_CODE]) with 1 in Hi'; lia].
        by eapply list_elem_of_lookup_2. }
    { by eapply room_for_weaken; [|done]; rewrite trie_size_branch; lia. }
    exec. erewrite machine_bind_ok by exact Hrun. rewrite trie_size_branch, <-He in Hready.
    destruct (grown_branch m m' acs None Hg Hready) as [Hr' Hg']; [done|].
    erewrite machine_bind_ok by (apply add_node_push; destruct Hr'; lia).
    eexists _, (ABranch (num_nodes m') acs). split_and!; [done| |done].
    by rewrite erase_branch, He.
Qed.

(** The arena can have the nodes of [t] and the null node. *)
Definition indexable (t : trie) : Prop := (N.of_nat (S (trie_size t)) < u32_modulus)%N.

Lemma owned_decode_node t rest :
  proper t → sized t → is_list_node t = true → indexable t →
  ∃ m, owned_decode_from_proof_rlp (trie_rlp t ++ rest) = Ok m ∧ models m (shallow t) ∧
    num_nodes m ≤ S (trie_size t).
Proof.
  intros Hp Hs Hl Hi. pose proof (expand_size (λ _, false) t) as Hsize. change (expand _ t) with (shallow t) in Hsize.
  destruct (decodes_node t (S (length (trie_rlp t ++ rest))) Hp Hs Hl) with (rest := rest) (m := new)
    as (m & a & Hrun & He & Hg).
  { rewrite length_app. lia. }
  { apply room_for_new. unfold indexable in Hi. lia. }
  exists (set_root_id (root a) m). split_and!.
  - unfold owned_decode_from_proof_rlp, decode_from_proof_rlp. change (with_capacity 1) with new.
    by rewrite Hrun.
  - rewrite <-He. eapply grown_models; [done|by split|]. rewrite He. by apply proper_wf, proper_expand.
  - pose proof (grown_count _ _ _ Hg) as Hc. rewrite He in Hc. change (num_nodes new) with 1 in Hc.
    change (num_nodes (set_root_id (root a) m)) with (num_nodes m). lia.
Qed.

(** An empty trie's node. *)
Lemma owned_decode_null : owned_decode_from_proof_rlp [EMPTY_STRING_CODE] = Ok new.
Proof.
  unfold owned_decode_from_proof_rlp, decode_from_proof_rlp. cbn [length decode_from_proof_rlp_internal].
  by rewrite decode_raw_null.
Qed.

(** ** Copies *)

(** The arena with empty caches. *)
Definition bare (m : Mpt) : Mpt :=
  mkMpt (root_id m) (nodes m) (replicate (num_nodes m) (new_cell None)) (new_cell []).

Lemma copy_nodes_run i other s :
  num_nodes s = i → 0 < i → cached_references s = replicate i (new_cell None) →
  rlp_scratch s = new_cell [] → (N.of_nat (i + length other) < u32_modulus)%N →
  copy_nodes i other s =
  (Ok (), mkMpt (root_id s) (nodes s ++ other) (replicate (i + length other) (new_cell None)) (new_cell [])).
Proof.
  revert i s. induction other as [|node other IH]; intros i s Hn Hi Hc Hsc Hroom.
  { cbn. rewrite app_nil_r, Nat.add_0_r. destruct s; cbn in *; by subst. }
  cbn [copy_nodes length] in *. rewrite machine_bind_get, decide_False by lia.
  rewrite !machine_bind_bind. erewrite machine_bind_ok by (apply owned_add_push; lia). exec.
  rewrite IH; cbn.
  - rewrite <-app_assoc. cbn. by rewrite Nat.add_succ_r.
  - unfold num_nodes in *. cbn. rewrite length_app. cbn. lia.
  - lia.
  - rewrite Hc. symmetry. apply replicate_S_end.
  - done.
  - lia.
Qed.

Lemma from_trie_bare m :
  1 ≤ num_nodes m → (N.of_nat (num_nodes m) < u32_modulus)%N → from_trie m = Ok (bare m).
Proof.
  intros Hn Hroom. unfold from_trie, bare. unfold num_nodes in *.
  destruct (nodes m) as [|node other] eqn:Hnodes; [cbn in *; lia|]. cbn [copy_nodes length] in *.
  rewrite !machine_bind_bind, machine_bind_get, decide_True by (change (num_nodes owned_default) with 1; lia).
  rewrite as_u32_small by (cbn; lia). unfold set_node.
  rewrite machine_bind_bind. erewrite machine_bind_ok by (apply write_node_ok; cbn; lia).
  erewrite machine_bind_ok by (apply copy_nodes_run; [done|lia|done|done|cbn in *; lia]). done.
Qed.

Lemma models_nodes m t : models m t → 1 ≤ num_nodes m.
Proof.
  intros (a & Hr & _). destruct (represents_root _ _ Hr) as [Hs _]. apply lookup_lt_Some in Hs.
  unfold num_nodes. lia.
Qed.

Lemma models_bare m t : models m t → models (bare m) t.
Proof.
  intros (a & [Hall Hnd] & Hroot & <- & Hrest & Hwf). exists a. split_and!; [split; [|done]|done|done| |done].
  - eapply Forall_impl; [exact Hall|]. intros x [Hs _]. split; [exact Hs|]. exists None. split; [|done].
    cbn. apply lookup_replicate_2. by eapply lookup_lt_Some.
  - split; cbn; [by rewrite length_replicate|done].
Qed.
End nodes.
