(* ===== verification/Evm.v ===== *)
(** * The types and crates around the execution client

    [revm], [reth] and the [alloy] crates give the client its accounts, headers,
    blocks and the EVM itself.  The data the client reads or builds is here as
    records; what the crates compute is a member of the class [Evm], with the
    documented behaviour the proofs rely on in [EvmOk].  The EVM is a program
    that asks a database and answers in the end, so it can run against the
    witness and against the full state. *)

From S2P Require Import Prelude External Node Mpt.

(** ** Data *)

(** An unsigned 256-bit integer, a [u64]. *)
Abbreviation U256 := N.
Abbreviation u64 := N.

Definition is_u256 (v : U256) : Prop := (v < 2 ^ 256)%N.
Definition is_u64 (v : u64) : Prop := (v < 2 ^ 64)%N.

(** Arithmetic on [u64] wraps around: the release profile does not check it. *)
Definition u64_pred (n : u64) : u64 := ((n + 2 ^ 64 - 1) mod 2 ^ 64)%N.

(** [alloy_primitives::Address]: 20 bytes. *)
Abbreviation Address := bytes.

(** [alloy_trie::TrieAccount] *)
Record TrieAccount : Type := mkTrieAccount {
  ta_nonce : u64;
  ta_balance : U256;
  ta_storage_root : B256;
  ta_code_hash : B256;
}.

#[export] Instance TrieAccount_eq_dec : EqDecision TrieAccount.
Proof. solve_decision. Defined.

(** [revm::database::states::StorageSlot] *)
Record StorageSlot : Type := mkStorageSlot {
  original_value : U256;
  present_value : U256;
}.

(** [alloy_consensus::Header]: the fields the client reads or writes, and the
    others in one. *)
Record Header {Rest : Type} : Type := mkHeader {
  hd_parent_hash : B256;
  hd_ommers_hash : B256;
  hd_state_root : B256;
  hd_transactions_root : B256;
  hd_receipts_root : B256;
  hd_logs_bloom : bytes;
  hd_number : u64;
  hd_withdrawals_root : option B256;
  hd_requests_hash : option B256;
  hd_rest : Rest;
}.
Arguments Header Rest : clear implicits.

(** ** Code of other crates *)

Class Evm `{Crates} : Type := {
  (** [U256::to_be_bytes::<32>] *)
  u256_to_be_bytes : U256 → bytes;
  #[global] account_codec :: RlpCodec TrieAccount;
  #[global] u256_codec :: RlpCodec U256;
  (** [revm::database::AccountStatus] and its [was_destroyed] *)
  AccountStatus : Type;
  was_destroyed : AccountStatus → bool;
  (** [revm::state::Bytecode] and its [hash_slow] *)
  Bytecode : Type;
  bytecode_hash_slow : Bytecode → B256;
  (** the other fields of a header, and [Header::hash_slow] *)
  HeaderRest : Type;
  header_hash_slow : Header HeaderRest → B256;
  (** the body of a block *)
  BlockBody : Type;
  (** error types of [alloy] and [reth] *)
  RecoveryError : Type;
  ConsensusError : Type;
  BlockExecutionErr : Type;
}.

Abbreviation BlockHeader := (Header HeaderRest).

Class EvmOk `{Evm} : Prop := {
  (** decoding inverts encoding *)
  account_roundtrip a :
    is_u64 (ta_nonce a) → is_u256 (ta_balance a) →
    length (ta_storage_root a) = 32 → length (ta_code_hash a) = 32 →
    rlp_decode (rlp_encode a) = Ok a;
  u256_roundtrip (v : U256) : is_u256 v → rlp_decode (rlp_encode v) = Ok v;
  (** an encoded account is longer than the storage root in it *)
  account_encode_long a : length (ta_storage_root a) = 32 → 32 ≤ length (rlp_encode a);
}.

(** ** What the EVM reports *)

Section bundle.
Context `{Evm}.

(** [revm::state::AccountInfo], without the [account_id] that is always empty. *)
Record AccountInfo : Type := mkAccountInfo {
  ai_balance : U256;
  ai_nonce : u64;
  ai_code_hash : B256;
  ai_code : option Bytecode;
}.

(** [revm::database::BundleAccount]; the storage is a hash map, here the list
    of its entries in iteration order. *)
Record BundleAccount : Type := mkBundleAccount {
  ba_info : option AccountInfo;
  ba_storage : list (U256 * StorageSlot);
  ba_status : AccountStatus;
}.

(** [BundleState::state], in iteration order. *)
Definition BundleState : Type := list (Address * BundleAccount).
End bundle.

(** ** Programs over a database

    Block execution reaches the state only through the [DatabaseRef] trait: it is
    a program that makes queries, continues with the answers, and ends.  It
    stops at the first query that fails. *)

Section database.
Context `{Evm}.

Inductive program (A : Type) : Type :=
  | Finish (a : A)
  | AskBasic (address : Address) (k : option AccountInfo → program A)
  | AskCode (hash : B256) (k : Bytecode → program A)
  | AskStorage (address : Address) (index : U256) (k : U256 → program A)
  | AskBlockHash (number : u64) (k : B256 → program A).

(** [revm::DatabaseRef], over what its implementation keeps between queries. *)
Class DatabaseRef (S E : Type) : Type := {
  basic_ref : Address → machine S E (option AccountInfo);
  code_by_hash_ref : B256 → machine S E Bytecode;
  storage_ref : Address → U256 → machine S E U256;
  block_hash_ref : u64 → machine S E B256;
}.

Fixpoint run_program {S E A} `{!DatabaseRef S E} (p : program A) : machine S E A :=
  match p with
  | Finish _ a => mret a
  | AskBasic _ address k => info ← basic_ref address; run_program (k info)
  | AskCode _ hash k => code ← code_by_hash_ref hash; run_program (k code)
  | AskStorage _ address index k => value ← storage_ref address index; run_program (k value)
  | AskBlockHash _ number k => hash ← block_hash_ref number; run_program (k hash)
  end.

(** What one database promises about another: an answer of the first is the
    answer of the second, from then on too. *)
Class Implements (S E S' E' : Type) `{!DatabaseRef S E, !DatabaseRef S' E'}
    (R : S → S' → Prop) : Prop := {
  implements_basic s t address info s' :
    R s t → basic_ref address s = (Ok info, s') →
    ∃ t', basic_ref address t = (Ok info, t') ∧ R s' t';
  implements_code s t hash code s' :
    R s t → code_by_hash_ref hash s = (Ok code, s') →
    ∃ t', code_by_hash_ref hash t = (Ok code, t') ∧ R s' t';
  implements_storage s t address index value s' :
    R s t → storage_ref address index s = (Ok value, s') →
    ∃ t', storage_ref address index t = (Ok value, t') ∧ R s' t';
  implements_block_hash s t number hash s' :
    R s t → block_hash_ref number s = (Ok hash, s') →
    ∃ t', block_hash_ref number t = (Ok hash, t') ∧ R s' t';
}.

(** A program cannot tell them apart. *)
Lemma run_program_implements {S E S' E' A} `{Implements S E S' E' R} (p : program A) s t a s' :
  R s t → run_program p s = (Ok a, s') → ∃ t', run_program p t = (Ok a, t') ∧ R s' t'.
Proof.
  revert s t. induction p as [a'|x k IH|x k IH|x y k IH|x k IH]; intros s t HR Hrun.
  { injection Hrun as -> ->. by exists t. }
  all: cbn [run_program] in *; apply machine_bind_inv in Hrun as (v & s1 & Hask & Hrun).
  1: eapply implements_basic in Hask as (t1 & Hask' & HR1); [|done].
  2: eapply implements_code in Hask as (t1 & Hask' & HR1); [|done].
  3: eapply implements_storage in Hask as (t1 & Hask' & HR1); [|done].
  4: eapply implements_block_hash in Hask as (t1 & Hask' & HR1); [|done].
  all: erewrite machine_bind_ok by exact Hask'; by eapply IH.
Qed.
End database.

(** Programs compose; [prog E A] is one that may end with an error. *)
Fixpoint program_bind `{Evm} {A B} (p : program A) (f : A → program B) : program B :=
  match p with
  | Finish _ a => f a
  | AskBasic _ address k => AskBasic B address (λ v, program_bind (k v) f)
  | AskCode _ hash k => AskCode B hash (λ v, program_bind (k v) f)
  | AskStorage _ address index k => AskStorage B address index (λ v, program_bind (k v) f)
  | AskBlockHash _ number k => AskBlockHash B number (λ v, program_bind (k v) f)
  end.

Definition prog `{Evm} (E A : Type) : Type := program (outcome E A).

#[global] Instance prog_ret `{Evm} E : MRet (prog E) := λ A a, Finish _ (Ok a).
#[global] Instance prog_bind `{Evm} E : MBind (prog E) := λ A B f p,
  program_bind p (λ o, match o with
                       | Ok a => f a
                       | Err e => Finish _ (Err e)
                       | Panic q => Finish _ (Panic q)
                       | OutOfFuel => Finish _ OutOfFuel
                       end).

Definition prog_lift `{Evm} {E A} (o : outcome E A) : prog E A := Finish _ o.
