(* ===== verification/ConcreteEvm.v ===== *)
(** * A concrete instance of the execution crates

    RLP codecs for accounts and 256-bit integers over the concrete RLP of
    [Concrete.v], with their round trips; used at the inputs on which theorems
    are instantiated. *)

From S2P Require Import Prelude External Concrete Node Mpt Evm.

Module EvmCodec.

(** Big-endian without leading zeroes, as RLP has integers. *)
Definition uint_bytes (v : N) : bytes := reverse (Rlp.digits 32 v).
Definition uint_encode (v : N) : bytes := Rlp.slice_encode (uint_bytes v).

(** [(list, fields, rest)]: a value must use up its input. *)
Definition finished {A} (r : A * bytes) : outcome Rlp.error A :=
  match r with (a, []) => Ok a | _ => Err Rlp.UnexpectedLengthError end.

Definition string_decode (buf : bytes) : outcome Rlp.error bytes :=
  r ← Rlp.header_decode_bytes buf false; finished r.

Definition uint_decode (buf : bytes) : outcome Rlp.error N :=
  b ← string_decode buf; Ok (Rlp.be_value b).

Definition account_items (a : TrieAccount) : list bytes :=
  [uint_encode (ta_nonce a); uint_encode (ta_balance a);
   Rlp.slice_encode (ta_storage_root a); Rlp.slice_encode (ta_code_hash a)].

Definition account_encode (a : TrieAccount) : bytes :=
  let payload := concat (account_items a) in
  Rlp.header_encode true (length payload) ++ payload.

Definition account_decode (buf : bytes) : outcome Rlp.error TrieAccount :=
  view ← (r ← Rlp.header_decode_raw buf; finished r);
  match view with
  | ListView [nonce; balance; root; code] =>
      nonce ← uint_decode nonce;
      balance ← uint_decode balance;
      root ← string_decode root;
      code ← string_decode code;
      Ok (mkTrieAccount nonce balance root code)
  | _ => Err Rlp.UnexpectedLengthError
  end.

Inductive status : Type := Loaded | Changed | Destroyed.
End EvmCodec.

#[export] Instance concrete_evm : Evm := {
  u256_to_be_bytes v := reverse (Rlp.le_digits 32 v);
  account_codec := {| rlp_encode := EvmCodec.account_encode; rlp_decode := EvmCodec.account_decode |};
  u256_codec := {| rlp_encode := EvmCodec.uint_encode; rlp_decode := EvmCodec.uint_decode |};
  AccountStatus := EvmCodec.status;
  was_destroyed s := match s with EvmCodec.Destroyed => true | _ => false end;
  Bytecode := bytes;
  bytecode_hash_slow := Keccak.keccak256;
  HeaderRest := unit;
  header_hash_slow h := Keccak.keccak256
    (hd_parent_hash h ++ hd_state_root h ++ hd_transactions_root h ++ EvmCodec.uint_bytes (hd_number h));
  BlockBody := list bytes;
  RecoveryError := unit;
  ConsensusError := unit;
  BlockExecutionErr := unit;
}.

(** ** Round trips *)

Lemma uint_bytes_value v : (v < 2 ^ 256)%N → Rlp.be_value (EvmCodec.uint_bytes v) = v.
Proof.
  intros Hv. unfold Rlp.be_value, EvmCodec.uint_bytes. rewrite reverse_involutive.
  by apply digits_value.
Qed.

Lemma uint_bytes_length v : length (EvmCodec.uint_bytes v) ≤ 32.
Proof. unfold EvmCodec.uint_bytes. rewrite length_reverse. apply digits_length. Qed.

Lemma string_decode_encode b : fits_usize (length b) → EvmCodec.string_decode (Rlp.slice_encode b) = Ok b.
Proof.
  intros Hb. unfold EvmCodec.string_decode.
  pose proof (header_decode_bytes_string (CratesOk:=concrete_crates_ok) b [] Hb) as Hd.
  rewrite app_nil_r in Hd. cbn -[Rlp.header_decode_bytes Rlp.slice_encode] in Hd. rewrite Hd. done.
Qed.

Lemma uint_decode_encode v : (v < 2 ^ 256)%N → EvmCodec.uint_decode (EvmCodec.uint_encode v) = Ok v.
Proof.
  intros Hv. unfold EvmCodec.uint_decode, EvmCodec.uint_encode.
  rewrite string_decode_encode by (pose proof (uint_bytes_length v); apply fits_small; lia).
  change (Ok (E:=Rlp.error) (Rlp.be_value (EvmCodec.uint_bytes v)) = Ok v). by rewrite uint_bytes_value.
Qed.

Lemma slice_encode_length_le b : length b ≤ 32 → length (Rlp.slice_encode b) ≤ 33.
Proof.
  intros Hb. unfold Rlp.slice_encode, Rlp.header_encode.
  destruct b as [|x [|y b]].
  - rewrite decide_True by (cbn; lia). cbn. lia.
  - destruct (x <? 0x80)%N; [cbn; lia|]. rewrite decide_True by lia. cbn. lia.
  - rewrite decide_True by lia. rewrite length_app. cbn [length] in *. lia.
Qed.

Lemma account_decode_encode a :
  (ta_nonce a < 2 ^ 64)%N → (ta_balance a < 2 ^ 256)%N →
  length (ta_storage_root a) = 32 → length (ta_code_hash a) = 32 →
  EvmCodec.account_decode (EvmCodec.account_encode a) = Ok a.
Proof.
  intros Hn Hb Hr Hc. unfold EvmCodec.account_decode, EvmCodec.account_encode.
  assert (∀ b : bytes, length b ≤ 32 → fits_usize (length b)) as Hfit by (intros b Hlen; apply fits_small; lia).
  pose proof (uint_bytes_length (ta_nonce a)) as Hln. pose proof (uint_bytes_length (ta_balance a)) as Hlb.
  pose proof (header_decode_raw_list (CratesOk:=concrete_crates_ok) (EvmCodec.account_items a) []) as Hd.
  rewrite app_nil_r in Hd. cbn -[Rlp.header_decode_raw Rlp.header_encode EvmCodec.account_items concat length] in Hd.
  rewrite Hd.
  2: { unfold EvmCodec.account_items, EvmCodec.uint_encode.
       repeat first [apply Forall_nil; done|apply Forall_cons; split];
         apply (rlp_string (H:=concrete_crates)), Hfit; lia. }
  - cbn -[EvmCodec.uint_decode EvmCodec.string_decode EvmCodec.uint_encode Rlp.slice_encode].
    assert (ta_nonce a < 2 ^ 256)%N by (etrans; [exact Hn|reflexivity]).
    rewrite !uint_decode_encode by done.
    cbn -[EvmCodec.string_decode Rlp.slice_encode]. rewrite !string_decode_encode by (apply Hfit; lia).
    cbn. by destruct a.
  - apply fits_small. unfold EvmCodec.account_items, EvmCodec.uint_encode. cbn [concat]. rewrite !length_app.
    pose proof (slice_encode_length_le _ Hln). pose proof (slice_encode_length_le _ Hlb).
    pose proof (slice_encode_length_le (ta_storage_root a)). pose proof (slice_encode_length_le (ta_code_hash a)).
    cbn [length]. lia.
Qed.

#[export] Instance concrete_evm_ok : EvmOk.
Proof.
  split.
  - intros a Hn Hb Hr Hc. by apply account_decode_encode.
  - intros v Hv. by apply uint_decode_encode.
  - intros a Hr. cbn. unfold EvmCodec.account_encode, EvmCodec.account_items. cbn [concat].
    rewrite !length_app. pose proof (slice_encode_short (ta_storage_root a) ltac:(lia) ltac:(lia)) as He.
    cbn in He. rewrite He. cbn [length]. lia.
Qed.
