(* ===== verification/State.v ===== *)
(** * The Ethereum state ([crates/mpt/src/state.rs])

    A state trie of accounts and a storage trie per account.  After a block the
    changes the EVM reports are written to the tries. *)

From stdpp Require Import sorting.
From S2P Require Import Prelude External Node Hp Mpt Codec Evm.

Record EthereumState : Type := mkEthereumState {
  state_trie : Mpt;
  storage_tries : gmap B256 Mpt;
}.

(** [EthereumState::new], [from_tries] *)
Definition new_state : EthereumState := mkEthereumState new ∅.

Definition from_tries (state : Mpt) (storage : list (B256 * Mpt)) : EthereumState :=
  mkEthereumState state (list_to_map (reverse storage)).

Section state.
Context `{Evm}.

(** ** Access to the tries *)

(** A call on [self.state_trie]. *)
Definition on_state {A} (f : machine Mpt Error A) : machine EthereumState Error A := λ s,
  let '(o, t) := f (state_trie s) in (o, mkEthereumState t (storage_tries s)).

(** [self.storage_tries.entry(hashed_address).or_insert(Mpt::new(self.bump))] *)
Definition entry_or_insert (hashed_address : B256) : machine EthereumState Error unit :=
  modify (λ s,
    match storage_tries s !! hashed_address with
    | Some _ => s
    | None => mkEthereumState (state_trie s) (<[hashed_address := new]> (storage_tries s))
    end).

(** A call on the entry, through the reference [or_insert] returned. *)
Definition on_storage {A} (hashed_address : B256) (f : machine Mpt Error A)
  : machine EthereumState Error A := λ s,
  match storage_tries s !! hashed_address with
  | Some t =>
      let '(o, t') := f t in
      (o, mkEthereumState (state_trie s) (<[hashed_address := t']> (storage_tries s)))
  | None => (Panic UnwrapOnNone, s)
  end.

Definition remove_storage (hashed_address : B256) : machine EthereumState Error unit :=
  modify (λ s, mkEthereumState (state_trie s) (base.delete hashed_address (storage_tries s))).

(** ** Applying the changes of a block *)

(** [for (slot, value) in &account.storage] *)
Definition write_slot (entry : U256 * StorageSlot) : machine Mpt Error unit :=
  let '(slot, value) := entry in
  let hashed_slot := keccak256 (u256_to_be_bytes slot) in
  if decide (present_value value = 0%N) then Mpt.delete hashed_slot;; mret ()
  else insert_rlp hashed_slot (present_value value);; mret ().

Definition write_account (entry : Address * BundleAccount) : machine EthereumState Error unit :=
  let '(address, account) := entry in
  let hashed_address := keccak256 address in
  match ba_info account with
  | Some info =>
      entry_or_insert hashed_address;;
      (if was_destroyed (ba_status account) then on_storage hashed_address (put_state new)
       else mret ());;
      on_storage hashed_address (for_each write_slot (ba_storage account));;
      storage_root ← on_storage hashed_address hash;
      on_state (insert_rlp hashed_address
        (mkTrieAccount (ai_nonce info) (ai_balance info) storage_root (ai_code_hash info)));;
      mret ()
  | None =>
      unwrap_machine (on_state (Mpt.delete hashed_address));;
      remove_storage hashed_address
  end.

Definition update_from_bundle_state (bundle_state : BundleState) : machine EthereumState Error unit :=
  for_each write_account bundle_state.

(** ** Serialization *)

Record EthereumStateBytes : Type := mkEthereumStateBytes {
  sb_state_trie : nat * bytes;
  sb_storage_tries : list (B256 * nat * bytes);
}.

Definition by_address (x y : B256 * nat * bytes) : Prop := bytes_le x.1.1 y.1.1.

#[global] Instance by_address_dec : RelDecision by_address.
Proof. intros x y. unfold by_address. apply _. Defined.

(** [encode_trie] fills caches of the trie it is called on, so the state
    changes with it. *)
Definition encode_storage (entry : B256 * Mpt)
  : machine EthereumState Error (B256 * nat * bytes) :=
  let '(addr, trie) := entry in
  encoded ← on_storage addr encode_trie;
  mret (addr, num_nodes trie, encoded).

Definition encode_to_state_bytes : machine EthereumState Error EthereumStateBytes :=
  s ← get_state;
  let state_num_nodes := num_nodes (state_trie s) in
  state_bytes ← on_state encode_trie;
  storage_bytes ← mapM encode_storage (map_to_list (storage_tries s));
  mret (mkEthereumStateBytes (state_num_nodes, state_bytes) (merge_sort by_address storage_bytes)).
End state.
