(* ===== verification/StateSpec.v ===== *)
(** * What applying a block's changes means

    The world is a map from hashed addresses to accounts and, per hashed
    address, a map from hashed slots to values.  [update_from_bundle_state] on
    tries that hold the world, or on partial views of them, is [apply_bundle] on
    the world. *)

From S2P Require Import Prelude External Concrete Node Hp Mpt Trie TrieLaws MptRefine MptHash.
From S2P Require Import MptSpec TrieMap View Stateless Codec Evm State.

(** ** The world *)

Record World : Type := mkWorld {
  accounts : gmap B256 TrieAccount;
  slots : B256 → gmap B256 U256;
}.

Section spec.
Context `{Evm}.

(** The contents of the tries of a world. *)
Definition account_trie (W : World) : gmap bytes bytes := rlp_encode <$> accounts W.
Definition slot_trie (S : gmap B256 U256) : gmap bytes bytes := rlp_encode <$> S.

Definition set_slots (h : B256) (S : gmap B256 U256) (f : B256 → gmap B256 U256)
  : B256 → gmap B256 U256 := λ h', if decide (h = h') then S else f h'.

Definition apply_slot (S : gmap B256 U256) (entry : U256 * StorageSlot) : gmap B256 U256 :=
  let hashed_slot := keccak256 (u256_to_be_bytes entry.1) in
  if decide (present_value entry.2 = 0%N) then base.delete hashed_slot S
  else <[hashed_slot := present_value entry.2]> S.

(** The slots of an account after the block. *)
Definition account_slots (S : gmap B256 U256) (account : BundleAccount) : gmap B256 U256 :=
  foldl apply_slot (if was_destroyed (ba_status account) then ∅ else S) (ba_storage account).

Definition apply_account (W : World) (entry : Address * BundleAccount) : World :=
  let h := keccak256 entry.1 in
  match ba_info entry.2 with
  | Some info =>
      let S := account_slots (slots W h) entry.2 in
      mkWorld
        (<[h := mkTrieAccount (ai_nonce info) (ai_balance info) (map_root (slot_trie S))
                  (ai_code_hash info)]> (accounts W))
        (set_slots h S (slots W))
  | None => mkWorld (base.delete h (accounts W)) (set_slots h ∅ (slots W))
  end.

Definition apply_bundle (W : World) (bundle : BundleState) : World :=
  foldl apply_account W bundle.

(** The state root of the world. *)
Definition world_root (W : World) : B256 := map_root (account_trie W).

(** ** The calls on one trie *)

Definition slot_op (entry : U256 * StorageSlot) : operation :=
  let hashed_slot := keccak256 (u256_to_be_bytes entry.1) in
  if decide (present_value entry.2 = 0%N) then OpDelete hashed_slot
  else OpInsert hashed_slot (rlp_encode (present_value entry.2)).

(** The trie the slots of the account are written to. *)
Definition start_trie (s : EthereumState) (h : B256) (account : BundleAccount) : Mpt :=
  if was_destroyed (ba_status account) then new else default new (storage_tries s !! h).

Context `{!CratesOk}.

Lemma write_slots_run l t :
  for_each write_slot l t =
  (run_ops (slot_op <$> l);; mret ()) t.
Proof.
  revert t. induction l as [|[slot v] l IH]; intros t; [done|].
  assert (write_slot (slot, v) t = (run_op (slot_op (slot, v));; mret ()) t) as Hone.
  { unfold write_slot, slot_op. cbn [fst snd]. case_decide; cbn [run_op]; by rewrite machine_bind_bind. }
  unfold run_ops in *. cbn [for_each fmap list_fmap mapM].
  rewrite (machine_bind_ext _ _ _ _ Hone), !machine_bind_bind.
  apply machine_bind_ext_r. intros r t'. rewrite machine_bind_ret, IH, machine_bind_bind.
  by apply machine_bind_ext_r.
Qed.

Lemma spec_slot e S : (spec_op (slot_op e) (slot_trie S)).2 = slot_trie (apply_slot S e).
Proof.
  unfold slot_op, apply_slot, slot_trie. case_decide; cbn [spec_op snd];
    by rewrite ?fmap_delete, ?fmap_insert.
Qed.

Lemma spec_ops_cons op ops M : (spec_ops (op :: ops) M).2 = (spec_ops ops (spec_op op M).2).2.
Proof. cbn. destruct (spec_op op M). cbn. by destruct (spec_ops ops _). Qed.

Lemma spec_slots l S :
  (spec_ops (slot_op <$> l) (slot_trie S)).2 = slot_trie (foldl apply_slot S l).
Proof.
  revert S. induction l as [|e l IH]; intros S; [done|].
  cbn [fmap list_fmap foldl]. by rewrite spec_ops_cons, spec_slot.
Qed.

Lemma slot_ops_ok l : Forall (op_key_ok 32) (slot_op <$> l).
Proof.
  apply Forall_fmap, Forall_true. intros [slot v]. unfold slot_op. cbn.
  assert (byte_key 32 (keccak256 (u256_to_be_bytes slot))).
  { split; [apply keccak256_u8|apply keccak256_length]. }
  by case_decide.
Qed.

(** ** One account *)

Lemma on_storage_ok {A} h (f : machine Mpt Error A) s t o t' :
  storage_tries s !! h = Some t → f t = (o, t') →
  on_storage h f s = (o, mkEthereumState (state_trie s) (<[h := t']> (storage_tries s))).
Proof. intros Hh Hf. unfold on_storage. by rewrite Hh, Hf. Qed.

(** After the first two statements the entry of the account is [start_trie]. *)
Lemma entry_ready h account s :
  (entry_or_insert h;;
   (if was_destroyed (ba_status account) then on_storage h (put_state new) else mret ())) s =
  (Ok (), mkEthereumState (state_trie s) (<[h := start_trie s h account]> (storage_tries s))).
Proof.
  unfold entry_or_insert, start_trie. rewrite machine_bind_modify.
  destruct (storage_tries s !! h) as [t|] eqn:Hh; cbn [default].
  - destruct (was_destroyed _).
    + by erewrite on_storage_ok.
    + unfold mret, machine_ret. rewrite insert_id by done. by destruct s.
  - destruct (was_destroyed _).
    + erewrite on_storage_ok by (cbn; by rewrite ?lookup_insert_eq || done).
      cbn. by rewrite insert_insert_eq.
    + done.
Qed.

(** What [write_account] does, from what happens on the two tries. *)
Lemma write_account_some address account info s :
  ba_info account = Some info →
  let h := keccak256 address in
  let t := start_trie s h account in
  write_account (address, account) s =
  match (run_ops (slot_op <$> ba_storage account);; hash) t with
  | (Ok root, t') =>
      let '(o, m) := insert_rlp h (mkTrieAccount (ai_nonce info) (ai_balance info) root
                                     (ai_code_hash info)) (state_trie s) in
      ((λ _, ()) <$> o, mkEthereumState m (<[h := t']> (storage_tries s)))
  | (Err e, t') => (Err e, mkEthereumState (state_trie s) (<[h := t']> (storage_tries s)))
  | (Panic p, t') => (Panic p, mkEthereumState (state_trie s) (<[h := t']> (storage_tries s)))
  | (OutOfFuel, t') => (OutOfFuel, mkEthereumState (state_trie s) (<[h := t']> (storage_tries s)))
  end.
Proof.
  intros Hinfo h t. unfold write_account. rewrite Hinfo. fold h.
  rewrite <-machine_bind_bind. erewrite machine_bind_ok by apply entry_ready. fold t.
  set (s1 := mkEthereumState _ _).
  assert (storage_tries s1 !! h = Some t) as Hs1 by apply lookup_insert_eq.
  pose proof (write_slots_run (ba_storage account) t) as Hw.
  unfold mbind, machine_bind in *. unfold on_storage at 1. rewrite Hs1, Hw.
  destruct (run_ops (slot_op <$> ba_storage account) t) as [[rs| | |] t1];
    cbn; rewrite ?insert_insert_eq; try done.
  unfold on_storage. cbn. rewrite lookup_insert_eq.
  destruct (hash t1) as [[root| | |] t2]; cbn; rewrite ?insert_insert_eq; try done.
  unfold on_state. cbn. by destruct (insert_rlp h _ (state_trie s)) as [[] ?].
Qed.

Lemma write_account_none address account s :
  ba_info account = None →
  let h := keccak256 address in
  write_account (address, account) s =
  match Mpt.delete h (state_trie s) with
  | (Ok _, m) => (Ok (), mkEthereumState m (base.delete h (storage_tries s)))
  | (Err _, m) => (Panic UnwrapOnErr, mkEthereumState m (storage_tries s))
  | (Panic p, m) => (Panic p, mkEthereumState m (storage_tries s))
  | (OutOfFuel, m) => (OutOfFuel, mkEthereumState m (storage_tries s))
  end.
Proof.
  intros Hinfo h. unfold write_account. rewrite Hinfo. fold h.
  unfold mbind, machine_bind, unwrap_machine, on_state.
  by destruct (Mpt.delete h (state_trie s)) as [[] m].
Qed.

(** ** Tries of the whole world *)

Lemma account_op_key address : byte_key 32 (keccak256 address).
Proof. split; [apply keccak256_u8|apply keccak256_length]. Qed.

Lemma account_trie_insert W h a f :
  <[h := rlp_encode a]> (account_trie W) = account_trie (mkWorld (<[h := a]> (accounts W)) f).
Proof. unfold account_trie. cbn. by rewrite fmap_insert. Qed.

Lemma account_trie_delete W h f :
  base.delete h (account_trie W) = account_trie (mkWorld (base.delete h (accounts W)) f).
Proof. unfold account_trie. cbn. by rewrite fmap_delete. Qed.

Lemma set_slots_eq h S f : set_slots h S f h = S.
Proof. unfold set_slots. by rewrite decide_True. Qed.

Lemma set_slots_ne h h' S f : h ≠ h' → set_slots h S f h' = f h'.
Proof. intros. unfold set_slots. by rewrite decide_False. Qed.

(** The tries of [s] hold the world, as far as they are there. *)
Record complete (W : World) (s : EthereumState) : Prop := {
  complete_state : holds 32 (state_trie s) (account_trie W);
  complete_storage h t : storage_tries s !! h = Some t → holds 32 t (slot_trie (slots W h));
}.

Record backs (W : World) (s : EthereumState) : Prop := {
  backs_state : stands_for 32 (state_trie s) (account_trie W);
  backs_storage h t : storage_tries s !! h = Some t → stands_for 32 t (slot_trie (slots W h));
}.

(** An account without a storage trie in [s] has no slots. *)
Definition covered (W : World) (s : EthereumState) (e : Address * BundleAccount) : Prop :=
  storage_tries s !! keccak256 e.1 = None → slots W (keccak256 e.1) = ∅.

(** The arenas have room for the changes. *)
Definition slots_fit (s : EthereumState) (e : Address * BundleAccount) : Prop :=
  (N.of_nat (num_nodes (start_trie s (keccak256 e.1) e.2)) +
     3 * N.of_nat (length (ba_storage e.2)) + 3 < u32_modulus)%N.

Definition accounts_fit (s : EthereumState) (bundle : BundleState) : Prop :=
  (N.of_nat (num_nodes (state_trie s)) + 3 * N.of_nat (length bundle) + 3 < u32_modulus)%N.

(** Deletions see the nodes they merge with. *)
Definition account_sees (s : EthereumState) (e : Address * BundleAccount) : Prop :=
  let h := keccak256 e.1 in
  match ba_info e.2 with
  | Some _ => sees_all (start_trie s h e.2) (slot_op <$> ba_storage e.2)
  | None => sees_siblings (state_trie s) (OpDelete h)
  end.

Fixpoint bundle_sees (s : EthereumState) (bundle : BundleState) : Prop :=
  match bundle with
  | [] => True
  | e :: bundle' => account_sees s e ∧ bundle_sees (write_account e s).2 bundle'
  end.

Lemma holds_stands_for n m M : holds n m M → stands_for n m M.
Proof.
  intros (t & Hm & Hct & Hu & Hr & Hc). left. exists t, t. split_and!; try done. apply view_refl.
Qed.

(** Entries other than the account's own are as before. *)
Definition elsewhere (h : B256) (W W' : World) (s s' : EthereumState) : Prop :=
  ∀ h', h ≠ h' → storage_tries s' !! h' = storage_tries s !! h' ∧ slots W' h' = slots W h'.

Lemma apply_account_elsewhere W e h' :
  keccak256 e.1 ≠ h' → slots (apply_account W e) h' = slots W h'.
Proof. intros Hne. unfold apply_account. destruct (ba_info e.2); cbn; by apply set_slots_ne. Qed.

(** The storage tries after the account's entry was replaced. *)
Lemma storage_updated (P : Mpt → gmap bytes bytes → Prop) (h : B256) (t : Mpt) (S : gmap B256 U256) (f : B256 → gmap B256 U256) (tries : gmap B256 Mpt) :
  (∀ h' t', tries !! h' = Some t' → P t' (slot_trie (f h'))) → P t (slot_trie S) →
  ∀ h' t', <[h := t]> tries !! h' = Some t' → P t' (slot_trie (set_slots h S f h')).
Proof.
  intros Htries Ht h' t'. destruct (decide (h = h')) as [<-|Hne].
  - rewrite lookup_insert_eq, set_slots_eq. by intros [= <-].
  - rewrite lookup_insert_ne, set_slots_ne by done. apply Htries.
Qed.

Lemma storage_removed (P : Mpt → gmap bytes bytes → Prop) (h : B256) (S : gmap B256 U256) (f : B256 → gmap B256 U256) (tries : gmap B256 Mpt) :
  (∀ h' t', tries !! h' = Some t' → P t' (slot_trie (f h'))) →
  ∀ h' t', base.delete h tries !! h' = Some t' → P t' (slot_trie (set_slots h S f h')).
Proof.
  intros Htries h' t'. destruct (decide (h = h')) as [<-|Hne].
  - by rewrite lookup_delete_eq.
  - rewrite lookup_delete_ne, set_slots_ne by done. apply Htries.
Qed.

(** The trie the slots are written to holds the slots they are written over. *)
Lemma start_trie_holds (P : Mpt → gmap bytes bytes → Prop) W s e :
  P new ∅ → (∀ h t, storage_tries s !! h = Some t → P t (slot_trie (slots W h))) → covered W s e →
  P (start_trie s (keccak256 e.1) e.2)
    (slot_trie (if was_destroyed (ba_status e.2) then ∅ else slots W (keccak256 e.1))).
Proof.
  intros Hnew Htries Hcov. unfold start_trie. unfold covered in Hcov.
  assert (slot_trie ∅ = ∅) as He by apply fmap_empty.
  destruct (was_destroyed _); [by rewrite He|].
  destruct (storage_tries s !! keccak256 e.1) as [t|] eqn:Ht; [by apply Htries|].
  cbn. by rewrite Hcov, He.
Qed.

Lemma write_account_complete W s e :
  complete W s → covered W s e → slots_fit s e → has_room (state_trie s) →
  ∃ s', write_account e s = (Ok (), s') ∧ complete (apply_account W e) s' ∧
    elsewhere (keccak256 e.1) W (apply_account W e) s s' ∧
    num_nodes (state_trie s') ≤ num_nodes (state_trie s) + 3.
Proof.
  intros [Hst Htries] Hcov Hfit Hroom. destruct e as [address account]. cbn [fst snd] in *.
  destruct (ba_info account) as [info|] eqn:Hinfo.
  - rewrite (write_account_some _ _ _ _ Hinfo).
    pose proof (start_trie_holds (holds 32) W s (address, account) (holds_new 32) Htries Hcov) as Ht.
    cbn [fst snd] in Ht.
    destruct (run_ops_refines 32 _ _ (slot_op <$> ba_storage account) Ht) as (t1 & Hrun & Ht1).
    { apply slot_ops_ok. }
    { rewrite length_fmap. exact Hfit. }
    rewrite spec_slots in Ht1. fold (account_slots (slots W (keccak256 address)) account) in Ht1.
    destruct (holds_hash _ _ _ Ht1) as (t2 & Hhash & Ht2 & _).
    erewrite machine_bind_ok by exact Hrun. rewrite Hhash. unfold insert_rlp.
    destruct (holds_insert 32 (state_trie s) (account_trie W) (keccak256 address)
      (rlp_encode (mkTrieAccount (ai_nonce info) (ai_balance info)
        (map_root (slot_trie (account_slots (slots W (keccak256 address)) account)))
        (ai_code_hash info))) Hst (account_op_key address) Hroom) as (m' & -> & Hm' & Hn).
    eexists. split; [done|]. unfold apply_account. cbn [fst snd]. rewrite Hinfo. split_and!; [split| |done].
    + cbn [state_trie]. by erewrite <-account_trie_insert.
    + cbn [storage_tries slots]. by apply (storage_updated (holds 32)).
    + intros h' Hne. cbn. by rewrite lookup_insert_ne, set_slots_ne.
  - rewrite (write_account_none _ _ _ Hinfo).
    destruct (holds_delete 32 (state_trie s) (account_trie W) (keccak256 address) Hst
      (account_op_key address)) as (m' & -> & Hm' & Hn).
    eexists. split; [done|]. unfold apply_account. cbn [fst snd]. rewrite Hinfo. split_and!; [split| |cbn; lia].
    + cbn [state_trie]. by erewrite <-account_trie_delete.
    + cbn [storage_tries slots]. by apply (storage_removed (holds 32)).
    + intros h' Hne. cbn. by rewrite lookup_delete_ne, set_slots_ne.
Qed.

Lemma write_account_backs W s e s' :
  backs W s → covered W s e → slots_fit s e → has_room (state_trie s) → account_sees s e →
  write_account e s = (Ok (), s') →
  backs (apply_account W e) s' ∧ elsewhere (keccak256 e.1) W (apply_account W e) s s' ∧
  num_nodes (state_trie s') ≤ num_nodes (state_trie s) + 3.
Proof.
  intros [Hst Htries] Hcov Hfit Hroom Hsees Hrun. destruct e as [address account]. cbn [fst snd] in *.
  unfold account_sees in Hsees. cbn [fst snd] in Hsees. unfold apply_account. cbn [fst snd].
  destruct (ba_info account) as [info|] eqn:Hinfo.
  - rewrite (write_account_some _ _ _ _ Hinfo) in Hrun.
    pose proof (start_trie_holds (stands_for 32) W s (address, account)
      (holds_stands_for _ _ _ (holds_new 32)) Htries Hcov) as Ht. cbn [fst snd] in Ht.
    destruct ((run_ops (slot_op <$> ba_storage account);; hash) (start_trie s (keccak256 address) account))
      as [[root| | |] t2] eqn:Hslots; try discriminate Hrun.
    apply machine_bind_inv in Hslots as (rs & t1 & Hops & Hhash).
    apply (run_ops_sound 32 _ _ _ _ _ Ht) in Hops as [_ Ht1];
      [|apply slot_ops_ok|done|rewrite length_fmap; exact Hfit].
    rewrite spec_slots in Ht1. fold (account_slots (slots W (keccak256 address)) account) in Ht1.
    destruct (stands_for_hash _ _ _ Ht1) as (t2' & Hhash' & Ht2 & _).
    rewrite Hhash in Hhash'. injection Hhash' as -> <-.
    unfold insert_rlp in Hrun. destruct (insert _ _ (state_trie s)) as [[b| | |] m'] eqn:Hins;
      try discriminate Hrun. injection Hrun as <-.
    destruct (stands_for_insert _ _ _ _ _ _ _ Hst (account_op_key address) Hroom Hins) as (_ & Hm' & Hn).
    split_and!; [split| |done].
    + cbn [state_trie]. by erewrite <-account_trie_insert.
    + cbn [storage_tries slots]. by apply (storage_updated (stands_for 32)).
    + intros h' Hne. cbn. by rewrite lookup_insert_ne, set_slots_ne.
  - rewrite (write_account_none _ _ _ Hinfo) in Hrun.
    destruct (Mpt.delete _ (state_trie s)) as [[b| | |] m'] eqn:Hdel; try discriminate Hrun.
    injection Hrun as <-.
    destruct (stands_for_delete _ _ _ _ _ _ Hst (account_op_key address) Hsees Hdel) as (_ & Hm' & Hn).
    split_and!; [split| |cbn; lia].
    + cbn [state_trie]. by erewrite <-account_trie_delete.
    + cbn [storage_tries slots]. by apply (storage_removed (stands_for 32)).
    + intros h' Hne. cbn. by rewrite lookup_delete_ne, set_slots_ne.
Qed.

(** ** The whole bundle *)

Definition distinct_accounts (bundle : BundleState) : Prop :=
  NoDup ((λ e, keccak256 e.1) <$> bundle).

Definition ready (W : World) (s : EthereumState) (bundle : BundleState) : Prop :=
  distinct_accounts bundle ∧ accounts_fit s bundle ∧
  Forall (covered W s) bundle ∧ Forall (slots_fit s) bundle.

(** Writing the first account leaves the others ready. *)
Lemma ready_next W W' s s' e bundle :
  ready W s (e :: bundle) → elsewhere (keccak256 e.1) W W' s s' →
  num_nodes (state_trie s') ≤ num_nodes (state_trie s) + 3 →
  ready W' s' bundle.
Proof.
  intros (Hnd & Hacc & Hcov & Hfit) Helse Hn.
  unfold distinct_accounts in Hnd. cbn [fmap list_fmap] in Hnd. apply NoDup_cons in Hnd as [Hnin Hnd].
  apply Forall_cons in Hcov as [_ Hcov]. apply Forall_cons in Hfit as [_ Hfit].
  assert (∀ e', e' ∈ bundle → storage_tries s' !! keccak256 e'.1 = storage_tries s !! keccak256 e'.1 ∧
    slots W' (keccak256 e'.1) = slots W (keccak256 e'.1)) as Hsame.
  { intros e' He'. apply Helse. intros Heq. apply Hnin. rewrite Heq. apply list_elem_of_fmap. by exists e'. }
  split_and!; [done| | |].
  - unfold accounts_fit in *. cbn [length] in Hacc. lia.
  - rewrite Forall_forall in Hcov |- *. intros e' He'. destruct (Hsame e' He') as [Ht Hs].
    unfold covered. rewrite Ht, Hs. by apply Hcov.
  - rewrite Forall_forall in Hfit |- *. intros e' He'. destruct (Hsame e' He') as [Ht _].
    specialize (Hfit e' He'). unfold slots_fit, start_trie in *. by rewrite Ht.
Qed.

Lemma ready_room W s e bundle : ready W s (e :: bundle) → has_room (state_trie s).
Proof. intros (_ & Hacc & _). unfold accounts_fit in Hacc. unfold has_room. cbn [length] in Hacc. lia. Qed.

Lemma update_complete W s bundle :
  complete W s → ready W s bundle →
  ∃ s', update_from_bundle_state bundle s = (Ok (), s') ∧ complete (apply_bundle W bundle) s'.
Proof.
  revert W s. induction bundle as [|e bundle IH]; intros W s Hc Hr; [by exists s|].
  pose proof (ready_room _ _ _ _ Hr) as Hroom.
  assert (covered W s e ∧ slots_fit s e) as [Hcov Hfit].
  { destruct Hr as (_ & _ & Hcov & Hfit). apply Forall_cons in Hcov as [? _], Hfit as [? _]. done. }
  destruct (write_account_complete W s e Hc Hcov Hfit Hroom) as (s1 & Hrun & Hc1 & Helse & Hn).
  destruct (IH _ s1 Hc1) as (s2 & Hrun2 & Hc2); [by eapply ready_next|].
  exists s2. unfold update_from_bundle_state in *. cbn [for_each]. by erewrite machine_bind_ok by exact Hrun.
Qed.

Lemma update_backs W s bundle s' :
  backs W s → ready W s bundle → bundle_sees s bundle →
  update_from_bundle_state bundle s = (Ok (), s') → backs (apply_bundle W bundle) s'.
Proof.
  revert W s. induction bundle as [|e bundle IH]; intros W s Hb Hr Hsees Hrun.
  { by injection Hrun as <-. }
  pose proof (ready_room _ _ _ _ Hr) as Hroom.
  assert (covered W s e ∧ slots_fit s e) as [Hcov Hfit].
  { destruct Hr as (_ & _ & Hcov & Hfit). apply Forall_cons in Hcov as [? _], Hfit as [? _]. done. }
  unfold update_from_bundle_state in *. cbn [for_each] in Hrun.
  apply machine_bind_inv in Hrun as ([] & s1 & Hrun1 & Hrun).
  destruct Hsees as [Hsee Hsees]. rewrite Hrun1 in Hsees.
  destruct (write_account_backs W s e s1 Hb Hcov Hfit Hroom Hsee Hrun1) as (Hb1 & Helse & Hn).
  apply (IH _ s1 Hb1); [by eapply ready_next|done|done].
Qed.

(** ** Iteration order

    The EVM reports its changes in hash maps.  Worlds that differ in nothing one
    can look up are equivalent, and the changes lead to equivalent worlds in
    whatever order they are visited. *)

#[global] Instance world_equiv : Equiv World := λ W W',
  accounts W = accounts W' ∧ ∀ h, slots W h = slots W' h.

#[global] Instance world_equivalence : Equivalence (≡@{World}).
Proof.
  split.
  - by split.
  - intros W W' [Ha Hs]. by split.
  - intros W1 W2 W3 [Ha1 Hs1] [Ha2 Hs2]. split; [congruence|]. intros h. by rewrite Hs1.
Qed.

#[global] Instance apply_account_proper : Proper ((≡) ==> eq ==> (≡)) apply_account.
Proof.
  intros W W' [Ha Hs] e ? <-. unfold apply_account.
  destruct (ba_info e.2); (split; cbn; [by rewrite Ha, ?Hs|]);
    intros h; unfold set_slots; case_decide; by rewrite ?Hs.
Qed.

#[global] Instance apply_bundle_proper : Proper ((≡) ==> eq ==> (≡)) apply_bundle.
Proof.
  intros W W' HW bundle ? <-. unfold apply_bundle. revert W W' HW.
  induction bundle as [|e bundle IH]; intros W W' HW; [done|]. cbn. apply IH. by rewrite HW.
Qed.

#[global] Instance world_root_proper : Proper ((≡) ==> eq) world_root.
Proof. intros W W' [Ha _]. unfold world_root, account_trie. by rewrite Ha. Qed.

(** Slots are written in the order they come; the order does not matter. *)
Definition distinct_slots (storage : list (U256 * StorageSlot)) : Prop :=
  NoDup ((λ e, keccak256 (u256_to_be_bytes e.1)) <$> storage).

Lemma apply_slot_comm S e e' :
  keccak256 (u256_to_be_bytes e.1) ≠ keccak256 (u256_to_be_bytes e'.1) →
  apply_slot (apply_slot S e) e' = apply_slot (apply_slot S e') e.
Proof.
  intros Hne. unfold apply_slot. repeat case_decide.
  - apply delete_delete.
  - by rewrite delete_insert_ne.
  - by rewrite <-delete_insert_ne.
  - by apply insert_insert_ne.
Qed.

Lemma apply_slots_permutation l l' S :
  l ≡ₚ l' → distinct_slots l → foldl apply_slot S l = foldl apply_slot S l'.
Proof.
  unfold distinct_slots. intros Hp. revert S.
  induction Hp as [|e l l' Hp IH|e e' l|l1 l2 l3 Hp1 IH1 Hp2 IH2]; intros S Hnd; [done| | |].
  - cbn in *. apply NoDup_cons in Hnd as [_ Hnd]. by apply IH.
  - cbn in *. apply NoDup_cons in Hnd as [Hnin Hnd]. rewrite apply_slot_comm; [done|].
    intros Heq. apply Hnin. rewrite Heq. left.
  - rewrite IH1 by done. apply IH2. by rewrite <-Hp1.
Qed.

(** The same changes, visited in another order. *)
Definition same_account (e e' : Address * BundleAccount) : Prop :=
  e.1 = e'.1 ∧ ba_info e.2 = ba_info e'.2 ∧ ba_status e.2 = ba_status e'.2 ∧
  ba_storage e.2 ≡ₚ ba_storage e'.2 ∧ distinct_slots (ba_storage e.2).

Definition same_changes (bundle bundle' : BundleState) : Prop :=
  ∃ mid, bundle ≡ₚ mid ∧ Forall2 same_account mid bundle'.

Lemma same_account_apply W e e' : same_account e e' → apply_account W e = apply_account W e'.
Proof.
  intros (Ha & Hi & Hst & Hp & Hd). unfold apply_account, account_slots. rewrite Ha, Hi, Hst.
  destruct (ba_info e'.2); [|done]. by erewrite apply_slots_permutation.
Qed.

Lemma apply_account_comm W e e' :
  keccak256 e.1 ≠ keccak256 e'.1 →
  apply_account (apply_account W e) e' ≡ apply_account (apply_account W e') e.
Proof.
  intros Hne. pose proof (apply_account_elsewhere W e (keccak256 e'.1) Hne) as Hs1.
  pose proof (apply_account_elsewhere W e' (keccak256 e.1) (not_eq_sym Hne)) as Hs2.
  unfold apply_account at 1 3. rewrite Hs1, Hs2. unfold apply_account.
  assert (∀ S S' (f : B256 → gmap B256 U256) h, set_slots (keccak256 e'.1) S' (set_slots (keccak256 e.1) S f) h =
    set_slots (keccak256 e.1) S (set_slots (keccak256 e'.1) S' f) h) as Hslots.
  { intros S S' f h. unfold set_slots. by repeat case_decide; subst. }
  destruct (ba_info e.2), (ba_info e'.2); (split; cbn; [|intros h; apply Hslots]).
  - by apply insert_insert_ne.
  - by rewrite delete_insert_ne.
  - by rewrite <-delete_insert_ne.
  - apply delete_delete.
Qed.

Lemma apply_bundle_permutation W bundle bundle' :
  bundle ≡ₚ bundle' → distinct_accounts bundle → apply_bundle W bundle ≡ apply_bundle W bundle'.
Proof.
  unfold distinct_accounts. intros Hp. revert W.
  induction Hp as [|e l l' Hp IH|e e' l|l1 l2 l3 Hp1 IH1 Hp2 IH2]; intros W Hnd; [done| | |].
  - cbn in *. apply NoDup_cons in Hnd as [_ Hnd]. by apply IH.
  - cbn in *. apply NoDup_cons in Hnd as [Hnin _]. fold (apply_bundle).
    change (apply_bundle (apply_account (apply_account W e') e) l ≡
            apply_bundle (apply_account (apply_account W e) e') l).
    rewrite apply_account_comm; [done|]. intros Heq. apply Hnin. rewrite <-Heq. left.
  - rewrite IH1 by done. apply IH2. by rewrite <-Hp1.
Qed.

Lemma apply_bundle_same W bundle bundle' :
  same_changes bundle bundle' → distinct_accounts bundle →
  apply_bundle W bundle ≡ apply_bundle W bundle'.
Proof.
  intros (mid & Hp & Hsame) Hnd. rewrite apply_bundle_permutation by done. clear Hp Hnd.
  revert W. induction Hsame as [|e e' l l' He Hl IH]; intros W; [done|].
  cbn. rewrite (same_account_apply W e e' He). apply IH.
Qed.

(** C18: Applying a block to the full state: on tries that hold a world,
    [update_from_bundle_state] succeeds, whatever order the changes come in, and
    leaves tries that hold the changed world, so the new root hash is the
    changed world's state root. *)
Theorem bundle_update_refines_world W s bundle :
  complete W s → ready W s bundle →
  ∃ s' m', update_from_bundle_state bundle s = (Ok (), s') ∧
    complete (apply_bundle W bundle) s' ∧
    hash (state_trie s') = (Ok (world_root (apply_bundle W bundle)), m').
Proof.
  intros Hc Hr. destruct (update_complete W s bundle Hc Hr) as (s' & Hrun & Hc').
  destruct (holds_hash _ _ _ (complete_state _ _ Hc')) as (m' & Hhash & _). by exists s', m'.
Qed.

(** C11: Applying a block to a witness: when the tries are partial views of the
    world's and [update_from_bundle_state] succeeds, the result is a partial view
    of the changed world, and the root hash computed from it is the changed
    world's state root, although most of the world is not in memory.  Assumed are:
    - that the changes are of different accounts, each changed account that has slots
      has a storage trie, and the arenas have room ([ready]);
    - that each deletion sees the sibling it merges with ([bundle_sees]).
    The code checks neither; [execute_accepts_missing_storage_trie] and
    [delete_beside_unresolved_leaf_diverges] are updates that succeed without them
    and give a wrong root. *)
Theorem bundle_update_sound_on_witness W s bundle s' :
  backs W s → ready W s bundle → bundle_sees s bundle →
  update_from_bundle_state bundle s = (Ok (), s') →
  backs (apply_bundle W bundle) s' ∧
  ∃ m', hash (state_trie s') = (Ok (world_root (apply_bundle W bundle)), m').
Proof.
  intros Hb Hr Hsees Hrun. pose proof (update_backs W s bundle s' Hb Hr Hsees Hrun) as Hb'.
  split; [done|]. destruct (stands_for_hash _ _ _ (backs_state _ _ Hb')) as (m' & Hhash & _).
  by exists m'.
Qed.
End spec.
