(* ===== verification/UpdateOrder.v ===== *)
(** * The order of the changes

    The EVM reports its changes in hash maps, which [update_from_bundle_state]
    visits in an unspecified order.  Here: on partly resolved tries too, whether
    the update succeeds and what state root it leads to depend on the changes
    alone.  It succeeds exactly when each change finds its path resolved, and a
    change of one key resolves and hides nothing of the others. *)

From S2P Require Import Prelude External Concrete Node Hp Mpt Trie TrieLaws Canon TrieHash MptRefine MptSpec TrieMap.
From S2P Require Import View Stateless Codec Evm State StateSpec.

(** ** Changes of one trie *)

Section tries.
Context `{CratesOk}.

(** The path of the key is in memory. *)
Definition reads (m : Mpt) (key : bytes) : Prop := ∃ o, get m key = Ok o.

Lemma run_ops_cons op ops m : run_ops (op :: ops) m = (r ← run_op op; rs ← run_ops ops; mret (r :: rs)) m.
Proof. done. Qed.

(** Changes of different keys succeed together exactly when each key is readable. *)
Lemma run_changes n m ops keys :
  valid n m → Forall (byte_key n) keys → NoDup keys → Forall2 changes ops keys →
  (N.of_nat (num_nodes m) + 3 * N.of_nat (length ops) + 3 < u32_modulus)%N →
  (Forall (reads m) keys ∧ ∃ rs m', run_ops ops m = (Ok rs, m') ∧ valid n m') ∨
  (¬ Forall (reads m) keys ∧ ∃ e m', run_ops ops m = (Err e, m')).
Proof.
  intros Hv Hkeys Hnd Hops. revert m Hv Hkeys Hnd.
  induction Hops as [|op key ops keys Hop Hops IH]; intros m Hv Hkeys Hnd Hlen.
  { left. split; [done|]. by exists [], m. }
  apply Forall_cons in Hkeys as [Hk Hkeys]. apply NoDup_cons in Hnd as [Hnin Hnd]. cbn [length] in Hlen.
  rewrite run_ops_cons, Forall_cons.
  destruct (run_change n m op key Hv Hk Hop) as [(d & Hg & Hrun)|(old & r & m1 & Hg & Hrun & Hv1 & Hn & Hgets)].
  { destruct op; try done. unfold op_fits, has_room. lia. }
  { right. split; [by intros [[o Ho] _]; rewrite Hg in Ho|]. unfold mbind, machine_bind. rewrite Hrun. eauto. }
  erewrite machine_bind_ok by exact Hrun.
  assert (Forall (reads m1) keys ↔ Forall (reads m) keys) as Hsame.
  { rewrite !Forall_forall in *. split; intros Hr key' Hin; destruct (Hr key' Hin) as [o Ho]; exists o;
      rewrite <-Ho; [symmetry|]; (apply Hgets; [by apply Hkeys|by intros ->]). }
  destruct (IH m1 Hv1 Hkeys Hnd) as [(Hr & rs & m' & Hrs & Hv')|(Hr & e & m' & Hrs)]; [lia| |].
  - left. split; [split; [by exists old|by apply Hsame]|]. erewrite machine_bind_ok by exact Hrs. by exists (r :: rs), m'.
  - right. split; [intros [_ Hall]; by apply Hr, Hsame|]. unfold mbind, machine_bind. rewrite Hrs. eauto.
Qed.
End tries.

(** ** Changes of the state *)

Section order.
Context `{Evm, !CratesOk}.

Definition slot_key (v : U256 * StorageSlot) : bytes := keccak256 (u256_to_be_bytes v.1).

(** The tries are canonical, whatever part of them is there. *)
Definition well_kept (s : EthereumState) : Prop :=
  valid 32 (state_trie s) ∧ ∀ h t, storage_tries s !! h = Some t → valid 32 t.

(** What the change of an account reads is in memory. *)
Definition writable (s : EthereumState) (e : Address * BundleAccount) : Prop :=
  reads (state_trie s) (keccak256 e.1) ∧
  (is_Some (ba_info e.2) → Forall (reads (start_trie s (keccak256 e.1) e.2)) (slot_key <$> ba_storage e.2)).

Lemma slot_ops_change l : Forall2 changes (slot_op <$> l) (slot_key <$> l).
Proof.
  apply Forall2_fmap, Forall_Forall2_diag, Forall_true. intros v. unfold slot_op. by case_decide.
Qed.

Lemma slot_keys_ok l : Forall (byte_key 32) (slot_key <$> l).
Proof. apply Forall_fmap, Forall_true. intros v. apply account_op_key. Qed.

Lemma start_trie_valid s h account : well_kept s → valid 32 (start_trie s h account).
Proof.
  intros [_ Hs]. unfold start_trie.
  assert (valid 32 new) as Hnew by (eapply stands_for_valid, holds_stands_for, holds_new).
  destruct (was_destroyed _); [done|]. destruct (storage_tries s !! h) eqn:Ht; [by eapply Hs|done].
Qed.

(** One account, as far as the others can see. *)
Definition step_frame (h : B256) (s s' : EthereumState) : Prop :=
  num_nodes (state_trie s') ≤ num_nodes (state_trie s) + 3 ∧
  (∀ h', h ≠ h' → storage_tries s' !! h' = storage_tries s !! h') ∧
  ∀ h', byte_key 32 h' → h ≠ h' → get (state_trie s') h' = get (state_trie s) h'.

Lemma write_account_outcome s e :
  well_kept s → distinct_slots (ba_storage e.2) → slots_fit s e → has_room (state_trie s) →
  (writable s e ∧ ∃ s', write_account e s = (Ok (), s') ∧ well_kept s' ∧ step_frame (keccak256 e.1) s s') ∨
  (¬ writable s e ∧ ∀ s', write_account e s ≠ (Ok (), s')).
Proof.
  intros Hw Hd Hfit Hroom. destruct e as [address account]. unfold writable. cbn [fst snd] in *.
  destruct (ba_info account) as [info|] eqn:Hinfo.
  - rewrite (write_account_some _ _ _ _ Hinfo). set (h := keccak256 address).
    destruct (run_changes 32 (start_trie s h account) (slot_op <$> ba_storage account) (slot_key <$> ba_storage account))
      as [(Hr & rs & t1 & Hrun & Hv1)|(Hr & e & t1 & Hrun)];
      [by apply start_trie_valid|apply slot_keys_ok|exact Hd|apply slot_ops_change| | |].
    { rewrite length_fmap. exact Hfit. }
    2: { right. split; [intros [_ Hall]; by apply Hr, Hall|]. unfold mbind, machine_bind. by rewrite Hrun. }
    destruct (valid_hash 32 t1 Hv1) as (root & t2 & Hhash & Hv2 & _).
    erewrite machine_bind_ok by exact Hrun. rewrite Hhash. unfold insert_rlp. destruct Hw as [Hst Hs].
    destruct (valid_insert 32 (state_trie s) h (rlp_encode (mkTrieAccount (ai_nonce info) (ai_balance info)
      root (ai_code_hash info))) Hst (account_op_key _) Hroom)
      as [(d & Hg & ->)|(old & m' & Hg & -> & Hm' & Hn & Hgets)].
    { right. split; [by intros [[o Ho] _]; rewrite Hg in Ho|]. done. }
    left. split; [split; [by exists old|done]|]. eexists. split; [done|]. split; [split; [done|]|split_and!].
    + intros h' t'. cbn. intros [[_ <-]|[_ Ht]]%lookup_insert_Some; [done|by eapply Hs].
    + exact Hn.
    + intros h' Hne. cbn. by rewrite lookup_insert_ne.
    + intros h' Hk Hne. change (get m' h' = get (state_trie s) h'). rewrite Hgets by done. by rewrite decide_False.
  - rewrite (write_account_none _ _ _ Hinfo). destruct Hw as [Hst Hs].
    destruct (valid_delete 32 (state_trie s) (keccak256 address) Hst (account_op_key _))
      as [(d & Hg & ->)|(old & m' & Hg & -> & Hm' & Hn & Hgets)].
    { right. split; [by intros [[o Ho] _]; rewrite Hg in Ho|]. done. }
    left. split; [split; [by exists old|by intros [? ?]]|]. eexists. split; [done|]. split; [split; [done|]|split_and!].
    + intros h' t'. cbn. intros [_ Ht]%lookup_delete_Some. by eapply Hs.
    + cbn. lia.
    + intros h' Hne. cbn. by rewrite lookup_delete_ne.
    + intros h' Hk Hne. change (get m' h' = get (state_trie s) h'). rewrite Hgets by done. by rewrite decide_False.
Qed.

(** ** The whole report *)

Definition slots_distinct (bundle : BundleState) : Prop :=
  Forall (λ e : Address * BundleAccount, distinct_slots (ba_storage e.2)) bundle.

Lemma reads_same m m' key : get m' key = get m key → reads m' key ↔ reads m key.
Proof. unfold reads. by intros ->. Qed.

(** The account before leaves the others as writable as they were. *)
Lemma writable_frame h s s' e :
  step_frame h s s' → h ≠ keccak256 e.1 → writable s' e ↔ writable s e.
Proof.
  intros (_ & Hs & Hg) Hne. unfold writable, start_trie. rewrite (Hs _ Hne).
  by rewrite (reads_same (state_trie s) _ _ (Hg _ (account_op_key _) Hne)).
Qed.

(** The update succeeds exactly when every change finds what it reads. *)
Lemma update_succeeds_iff W s bundle :
  well_kept s → ready W s bundle → slots_distinct bundle →
  (∃ s', update_from_bundle_state bundle s = (Ok (), s')) ↔ Forall (writable s) bundle.
Proof.
  revert W s. induction bundle as [|e bundle IH]; intros W s Hw Hr Hd.
  { split; [done|]. intros _. by exists s. }
  apply Forall_cons in Hd as [Hde Hd]. rewrite Forall_cons.
  assert (slots_fit s e) as Hfit by (destruct Hr as (_ & _ & _ & Hf); by apply Forall_cons in Hf as [? _]).
  unfold update_from_bundle_state in *. cbn [for_each].
  destruct (write_account_outcome s e Hw Hde Hfit (ready_room _ _ _ _ Hr))
    as [(Hwe & s1 & Hrun & Hw1 & Hframe)|(Hwe & Hno)]; last first.
  { split; [|by intros [? _]]. intros [s' Hs']. apply machine_bind_inv in Hs' as ([] & s1 & Hs1 & _).
    by destruct (Hno s1). }
  assert (Forall (writable s1) bundle ↔ Forall (writable s) bundle) as Hsame.
  { destruct Hr as (Hnd & _). unfold distinct_accounts in Hnd. cbn [fmap list_fmap] in Hnd.
    apply NoDup_cons in Hnd as [Hnin _].
    assert (∀ e', e' ∈ bundle → writable s1 e' ↔ writable s e') as Heach; 
      [|rewrite !Forall_forall; split; intros Hall e' Hin; by apply Heach, Hall].
    intros e' Hin. eapply writable_frame; [exact Hframe|]. intros Heq. apply Hnin. rewrite Heq.
    apply list_elem_of_fmap. by exists e'. }
  assert (ready (apply_account W e) s1 bundle) as Hr1.
  { destruct Hframe as (Hn & Hs & _). eapply ready_next; [exact Hr| |exact Hn].
    intros h' Hne. split; [by apply Hs|by apply apply_account_elsewhere]. }
  rewrite <-Hsame, <-(IH _ s1 Hw1 Hr1 Hd). erewrite machine_bind_ok by exact Hrun. tauto.
Qed.

Lemma same_account_key e e' : same_account e e' → keccak256 e.1 = keccak256 e'.1.
Proof. by intros [-> _]. Qed.

Lemma same_account_start s h e e' : same_account e e' → start_trie s h e.2 = start_trie s h e'.2.
Proof. intros (_ & _ & Hst & _). unfold start_trie. by rewrite Hst. Qed.

Lemma same_account_writable s e e' : same_account e e' → writable s e → writable s e'.
Proof.
  intros Hsame. pose proof (same_account_start s (keccak256 e.1) e e' Hsame) as Hstart.
  destruct Hsame as (Ha & Hi & _ & Hp & _). unfold writable. rewrite <-Ha, <-Hi, <-Hstart.
  by rewrite Hp.
Qed.

Lemma same_changes_keys bundle bundle' :
  same_changes bundle bundle' →
  (λ e : Address * BundleAccount, keccak256 e.1) <$> bundle ≡ₚ (λ e, keccak256 e.1) <$> bundle'.
Proof.
  intros (mid & Hp & Hall). rewrite Hp. clear Hp.
  induction Hall as [|e e' l l' He Hl IH]; [done|]. cbn. by rewrite IH, (same_account_key e e').
Qed.

Lemma same_changes_forall (P : Address * BundleAccount → Prop) bundle bundle' :
  (∀ e e', same_account e e' → P e → P e') → same_changes bundle bundle' → Forall P bundle → Forall P bundle'.
Proof.
  intros HP (mid & Hp & Hall). rewrite Hp. clear Hp.
  induction Hall as [|e e' l l' He Hl IH]; [done|]. rewrite !Forall_cons. naive_solver.
Qed.

Lemma same_changes_ready W s bundle bundle' :
  same_changes bundle bundle' → ready W s bundle → ready W s bundle'.
Proof.
  intros Hsame (Hnd & Hacc & Hcov & Hfit). split_and!.
  - unfold distinct_accounts. by rewrite <-same_changes_keys.
  - unfold accounts_fit in *. pose proof (Permutation_length (same_changes_keys _ _ Hsame)) as Hl.
    rewrite !length_fmap in Hl. by rewrite <-Hl.
  - apply (same_changes_forall _ bundle bundle'); [|done|done].
    intros e e' He. unfold covered. by rewrite (same_account_key e e' He).
  - apply (same_changes_forall _ bundle bundle'); [|done|done].
    intros e e' He. unfold slots_fit. rewrite <-(same_account_key e e' He), <-(same_account_start _ _ e e' He).
    destruct He as (_ & _ & _ & Hp & _). by rewrite Hp.
Qed.

Lemma same_changes_distinct bundle bundle' :
  same_changes bundle bundle' → slots_distinct bundle ∧ slots_distinct bundle'.
Proof.
  intros (mid & Hp & Hall). unfold slots_distinct. rewrite Hp. clear Hp.
  induction Hall as [|e e' l l' He Hl [IH IH']]; [done|]. rewrite !Forall_cons.
  destruct He as (_ & _ & _ & Hps & Hd). split; [done|]. split; [|done].
  unfold distinct_slots in *. by rewrite <-Hps.
Qed.

Lemma backs_well_kept W s : backs W s → well_kept s.
Proof. intros [Hst Hs]. split; [by eapply stands_for_valid|]. intros h t Ht. by eapply stands_for_valid, Hs. Qed.

(** C24: The order in which the hash maps of the EVM's report are visited does not
    matter.  On the partial tries the client runs on, with distinct accounts and
    slots, a storage trie for every changed account that has slots, and room in the
    arenas ([ready]): when the update succeeds, it succeeds for the same changes in
    any other order, of the accounts and of the slots within an account; and when
    the deletions of both orders see the siblings they merge with ([bundle_sees]),
    both leave partial views of the same changed world, so the new root hashes are
    equal. *)
Theorem bundle_update_order_independent W s bundle bundle' s1 :
  backs W s → ready W s bundle → same_changes bundle bundle' →
  update_from_bundle_state bundle s = (Ok (), s1) →
  ∃ s2, update_from_bundle_state bundle' s = (Ok (), s2) ∧
    (bundle_sees s bundle → bundle_sees s bundle' →
     backs (apply_bundle W bundle) s1 ∧ backs (apply_bundle W bundle') s2 ∧
     apply_bundle W bundle ≡ apply_bundle W bundle' ∧
     ∃ root m1 m2, hash (state_trie s1) = (Ok root, m1) ∧ hash (state_trie s2) = (Ok root, m2)).
Proof.
  intros Hb Hr Hsame Hrun1. pose proof (same_changes_ready W s _ _ Hsame Hr) as Hr'.
  destruct (same_changes_distinct _ _ Hsame) as [Hd Hd']. pose proof (backs_well_kept W s Hb) as Hw.
  destruct (proj2 (update_succeeds_iff W s bundle' Hw Hr' Hd')) as [s2 Hrun2].
  { apply (same_changes_forall _ bundle bundle'); [apply same_account_writable|done|].
    apply (update_succeeds_iff W s bundle Hw Hr Hd). by exists s1. }
  exists s2. split; [done|]. intros Hsees Hsees'.
  pose proof (update_backs W s bundle s1 Hb Hr Hsees Hrun1) as Hb1.
  pose proof (update_backs W s bundle' s2 Hb Hr' Hsees' Hrun2) as Hb2.
  pose proof (apply_bundle_same W bundle bundle' Hsame (proj1 Hr)) as Heq. split_and!; [done..|].
  destruct (stands_for_hash _ _ _ (backs_state _ _ Hb1)) as (m1 & Hh1 & _).
  destruct (stands_for_hash _ _ _ (backs_state _ _ Hb2)) as (m2 & Hh2 & _).
  exists (world_root (apply_bundle W bundle)), m1, m2. split; [exact Hh1|]. by rewrite Heq.
Qed.
End order.
