(* ===== verification/Samples.v ===== *)
(** * The theorems about states at concrete inputs

    A world of three accounts, its tries, and the changes of a block: the
    hypotheses of the theorems of [StateSpec.v] hold for them. *)

From S2P Require Import Prelude External Concrete Node Hp Mpt Trie TrieLaws TrieHash MptSpec.
From S2P Require Import TrieMap View Stateless Codec CodecLaws Decode Evm ConcreteEvm State.
From S2P Require Import StateSpec.

(** ** Worlds from lists *)

Section build.
Context `{EvmOk, !CratesOk}.

Definition inserts (l : list (bytes * bytes)) : list operation := (λ kv, OpInsert kv.1 kv.2) <$> l.

(** The arena after inserting the entries, the first one last. *)
Definition built (l : list (bytes * bytes)) : Mpt := (run_ops (inserts (reverse l)) new).2.

Lemma spec_inserts l M : (spec_ops (inserts l) M).2 = foldl (λ M kv, <[kv.1 := kv.2]> M) M l.
Proof.
  revert M. induction l as [|[k v] l IH]; intros M; [done|].
  unfold inserts in *. cbn [fmap list_fmap foldl]. by rewrite spec_ops_cons, IH.
Qed.

Lemma foldl_inserts (l : list (bytes * bytes)) :
  foldl (λ M kv, <[kv.1 := kv.2]> M) ∅ (reverse l) = list_to_map (M:=gmap bytes bytes) l.
Proof.
  induction l as [|[k v] l IH]; [done|]. by rewrite reverse_cons, foldl_app, IH.
Qed.

Lemma built_holds n l :
  Forall (λ kv, byte_key n kv.1) l → (3 * N.of_nat (length l) + 4 < u32_modulus)%N →
  holds n (built l) (list_to_map l).
Proof.
  intros Hkeys Hlen. unfold built.
  destruct (run_ops_refines n new ∅ (inserts (reverse l))) as (m & -> & Hm).
  - apply holds_new.
  - apply Forall_fmap, Forall_reverse. exact Hkeys.
  - unfold inserts. rewrite length_fmap, length_reverse. cbn. lia.
  - by rewrite spec_inserts, foldl_inserts in Hm.
Qed.

Definition encoded {V} `{!RlpCodec V} (l : list (B256 * V)) : list (bytes * bytes) :=
  prod_map id rlp_encode <$> l.

Definition world_of (accts : list (B256 * TrieAccount)) (stor : list (B256 * list (B256 * U256)))
  : World :=
  mkWorld (list_to_map accts)
    (λ h, default ∅ ((list_to_map (prod_map id list_to_map <$> stor) : gmap B256 (gmap B256 U256)) !! h)).

Definition full_state (accts : list (B256 * TrieAccount)) (stor : list (B256 * list (B256 * U256)))
  : EthereumState :=
  mkEthereumState (built (encoded accts)) (list_to_map (prod_map id (λ l, built (encoded l)) <$> stor)).

Definition keys_ok {V} (l : list (B256 * V)) : Prop :=
  Forall (λ kv, byte_key 32 kv.1) l ∧ length l < 1000.

Lemma encoded_holds {V} `{!RlpCodec V} (l : list (B256 * V)) :
  keys_ok l → holds 32 (built (encoded l)) (rlp_encode <$> (list_to_map l : gmap B256 V)).
Proof.
  intros [Hkeys Hlen]. rewrite <-list_to_map_fmap. apply built_holds.
  - apply Forall_fmap. exact Hkeys.
  - unfold encoded. rewrite length_fmap. unfold u32_modulus. lia.
Qed.

Lemma full_state_complete accts stor :
  keys_ok accts → Forall (λ kv, keys_ok kv.2) stor →
  complete (world_of accts stor) (full_state accts stor).
Proof.
  intros Hacc Hstor. split; [by apply encoded_holds|].
  intros h t. cbn [full_state storage_tries world_of slots].
  rewrite !list_to_map_fmap, !lookup_fmap.
  destruct ((list_to_map stor : gmap _ _) !! h) as [l|] eqn:Hl; cbn; [|done]. intros [= <-].
  apply encoded_holds. apply elem_of_list_to_map_2 in Hl.
  rewrite Forall_forall in Hstor. exact (Hstor _ Hl).
Qed.
End build.

(** ** A world with three accounts *)

Definition alice : Address := replicate 20 1%N.
Definition bob : Address := replicate 20 2%N.
Definition carol : Address := replicate 20 3%N.
Definition dave : Address := replicate 20 4%N.

Definition hash_of (a : Address) : B256 := Keccak.keccak256 a.
Definition slot_of (n : U256) : B256 := Keccak.keccak256 (u256_to_be_bytes n).

Definition alice_slots : list (B256 * U256) :=
  Eval vm_compute in [(slot_of 0, 7%N); (slot_of 1, 300%N)].

Definition no_code : B256 := Eval vm_compute in Keccak.keccak256 [].

Definition alice_root : B256 :=
  Eval vm_compute in map_root (slot_trie (list_to_map alice_slots)).
Definition empty_root : B256 := Eval vm_compute in EMPTY_ROOT_HASH.

Definition sample_accounts : list (B256 * TrieAccount) :=
  Eval vm_compute in
  [(hash_of alice, mkTrieAccount 1 1000 alice_root no_code);
   (hash_of bob, mkTrieAccount 0 5 empty_root no_code);
   (hash_of carol, mkTrieAccount 3 0 empty_root no_code)].

Definition sample_storage : list (B256 * list (B256 * U256)) :=
  Eval vm_compute in [(hash_of alice, alice_slots); (hash_of bob, [])].

Definition sample_world : World := world_of sample_accounts sample_storage.
Definition sample_state : EthereumState := full_state sample_accounts sample_storage.

(** Alice writes and clears slots, Bob is emptied, Dave appears. *)
Definition alice_change (storage : list (U256 * StorageSlot)) : Address * BundleAccount :=
  (alice, mkBundleAccount (Some (mkAccountInfo 990 2 no_code None)) storage EvmCodec.Changed).
Definition bob_change : Address * BundleAccount := (bob, mkBundleAccount None [] EvmCodec.Destroyed).
Definition dave_change : Address * BundleAccount :=
  (dave, mkBundleAccount (Some (mkAccountInfo 15 0 no_code None)) [(5%N, mkStorageSlot 0 1)] EvmCodec.Changed).

Definition clear_0 : U256 * StorageSlot := (0%N, mkStorageSlot 7 0).
Definition write_2 : U256 * StorageSlot := (2%N, mkStorageSlot 0 77).

Definition sample_bundle : BundleState := [alice_change [clear_0; write_2]; bob_change; dave_change].

Lemma sample_complete : complete sample_world sample_state.
Proof. apply full_state_complete; by_computation. Qed.

(** [ready], decided but for the slots of accounts without a storage trie. *)
Definition ready_check (s : EthereumState) (bundle : BundleState) : bool :=
  bool_decide (NoDup ((λ e, keccak256 e.1) <$> bundle)) &&
  (N.of_nat (num_nodes (state_trie s)) + 3 * N.of_nat (length bundle) + 3 <? u32_modulus)%N &&
  forallb (λ e, (N.of_nat (num_nodes (start_trie s (keccak256 e.1) e.2)) +
                  3 * N.of_nat (length (ba_storage e.2)) + 3 <? u32_modulus)%N) bundle.

Lemma ready_check_ok W s bundle :
  ready_check s bundle = true → Forall (covered W s) bundle → ready W s bundle.
Proof.
  unfold ready_check. intros [[Hnd Hacc]%andb_prop Hfit]%andb_prop Hcov. split_and!; [| |done|].
  - by apply bool_decide_eq_true in Hnd.
  - by apply N.ltb_lt in Hacc.
  - apply Forall_forall. intros e He. rewrite forallb_forall in Hfit.
    specialize (Hfit e ltac:(by apply list_elem_of_In)). by apply N.ltb_lt in Hfit.
Qed.

(** Accounts without an entry in the list have no slots. *)
Lemma covered_world accts stor s e :
  (∀ h, storage_tries s !! h = None → (list_to_map stor : gmap B256 (list (B256 * U256))) !! h = None) →
  covered (world_of accts stor) s e.
Proof.
  intros Hs Hn. cbn. rewrite list_to_map_fmap, lookup_fmap, Hs by done. done.
Qed.

Lemma sample_covered bundle : Forall (covered sample_world sample_state) bundle.
Proof.
  apply Forall_true. intros e. apply covered_world. intros h.
  unfold sample_state, full_state. cbn [storage_tries]. rewrite list_to_map_fmap, lookup_fmap.
  by destruct ((list_to_map sample_storage : gmap B256 _) !! h).
Qed.

Lemma sample_ready : ready sample_world sample_state sample_bundle.
Proof. apply ready_check_ok; [vm_compute; reflexivity|apply sample_covered]. Qed.

Lemma bundle_update_refines_world_witness :
  ∃ s' m', update_from_bundle_state sample_bundle sample_state = (Ok (), s') ∧
    complete (apply_bundle sample_world sample_bundle) s' ∧
    hash (state_trie s') = (Ok (world_root (apply_bundle sample_world sample_bundle)), m').
Proof. apply bundle_update_refines_world; [apply sample_complete|apply sample_ready]. Defined.

Lemma same_account_refl e : distinct_slots (ba_storage e.2) → same_account e e.
Proof. by repeat split. Qed.

Lemma distinct_slots_check l :
  bool_decide (NoDup ((λ e, keccak256 (u256_to_be_bytes e.1)) <$> l)) = true → distinct_slots l.
Proof. apply bool_decide_eq_true. Qed.
