(* ===== verification/Client.v ===== *)
(** * The client's input and its witness database
    ([crates/executor/client/src/io.rs], [error.rs])

    The input carries the block, the headers before it, and the witness: the
    serialized tries and the bytecodes.  [build] decodes and checks it;
    [WitnessDb] answers the EVM's queries from it. *)

From S2P Require Import Prelude External Node Hp Mpt Codec Evm State.

(** ** Errors *)

(** [WitnessAccess] *)
Inductive WitnessAccess : Type :=
  | AccessAccount (hashed_address : B256)
  | AccessStorageTrie (hashed_address : B256)
  | AccessBytecode (hash : B256)
  | AccessStateTrie
  | AccessModifiedAccount (hashed_address : B256) (storage_slots : nat).

(** The messages of [TrieWitnessError], without their wording. *)
Inductive witness_message : Type :=
  | AccountMismatch (hashed_address : B256)
  | UnexpectedWitness
  | DuplicateAccount (hashed_address : B256)
  | StorageAddressMismatch (expected actual : B256)
  | StorageRootMismatch (hashed_address actual expected : B256)
  | BytecodeHashMismatch (expected actual : B256)
  | StorageDecodeError
  | UnsupportedVersion (version : N)
  | ChunkRootMismatch (prefix : bytes) (actual expected : B256)
  | OutsideChunk (hashed_address : B256) (prefix : bytes)
  | PostUpdateAccountMismatch (hashed_address : B256)
  | InvalidStorageWitness (hashed_address : B256) (prefix : bytes)
  | EmptyChunk (prefix : bytes)
  | MissingStorageTrie (hashed_address : B256)
  | UnusedStorageWitnesses
  | AccountsLeft (consumed total : nat)
  | StreamingBytecodeForEagerState.

(** The only [ProviderError] the client makes is [TrieWitnessError(message)]. *)
Abbreviation ProviderError := witness_message.

Section client.
Context `{Evm}.

Inductive ClientExecutionError : Type :=
  | ParentStateRootMismatch (actual expected : B256)
  | ParentStorageRootMismatch (hashed_account actual expected : B256)
  | NonConsecutiveBlockHeaders (parent_block_number child_block_number : u64)
  | ParentBlockHashMismatch (parent_block_number : u64) (expected actual : B256)
  | BlockSenderRecoveryError (e : RecoveryError)
  | InvalidHeader (e : ConsensusError)
  | InvalidBlockPreExecution (e : ConsensusError)
  | InvalidBlockPostExecution (e : ConsensusError)
  | BlockExecutionError (e : BlockExecutionErr)
  | StateRootMismatch (actual expected : B256)
  | MptError (e : Error)
  | TrieWitnessError (message : witness_message).

(** ** Block hashes *)

(** [for (child, parent) in headers.tuple_windows()] *)
Fixpoint block_hashes_loop (headers : list BlockHeader) (block_hashes : gmap u64 B256)
  : outcome ClientExecutionError (gmap u64 B256) :=
  match headers with
  | child :: (parent :: _) as rest =>
      if decide (hd_number parent ≠ u64_pred (hd_number child)) then
        Err (NonConsecutiveBlockHeaders (hd_number parent) (hd_number child))
      else if decide (header_hash_slow parent ≠ hd_parent_hash child) then
        Err (ParentBlockHashMismatch (hd_number parent) (header_hash_slow parent)
               (hd_parent_hash child))
      else
        block_hashes_loop rest (<[hd_number parent := hd_parent_hash child]> block_hashes)
  | _ => Ok block_hashes
  end.

(** [capacity] only sizes the map. *)
Definition build_block_hashes (headers : list BlockHeader) (capacity : nat)
  : outcome ClientExecutionError (gmap u64 B256) :=
  block_hashes_loop headers ∅.

(** ** The input *)

Record Block : Type := mkBlock { bk_header : BlockHeader; bk_body : BlockBody }.

Record ClientExecutorInput : Type := mkClientExecutorInput {
  current_block : Block;
  ancestor_headers : list BlockHeader;
  parent_state_bytes : EthereumStateBytes;
  bytecodes : list Bytecode;
}.

Record ClientExecutorInputWithState : Type := mkInputWithState {
  input : ClientExecutorInput;
  state : EthereumState;
}.

(** A decoded trie and its root hash, checked against the expected one. *)
Definition decode_checked (buf : bytes) (num_nodes : nat) (expected : B256)
    (mismatch : B256 → ClientExecutionError) : outcome ClientExecutionError Mpt :=
  '(trie, _) ← map_err MptError (decode_trie buf num_nodes);
  match hash trie with
  | (Ok actual, trie') => if decide (actual ≠ expected) then Err (mismatch actual) else Ok trie'
  | (Err e, _) => Err (MptError e)
  | (Panic p, _) => Panic p
  | (OutOfFuel, _) => OutOfFuel
  end.

(** [for (hashed_address, num_nodes, storage_trie_bytes) in ..] *)
Fixpoint build_storage_tries (state_trie : Mpt) (entries : list (B256 * nat * bytes))
    (storage_tries : gmap B256 Mpt) : outcome ClientExecutionError (gmap B256 Mpt) :=
  match entries with
  | [] => Ok storage_tries
  | (hashed_address, num_nodes, storage_trie_bytes) :: entries' =>
      account_in_trie ← map_err MptError (get_rlp (T:=TrieAccount) state_trie hashed_address);
      let expected_storage_root :=
        match account_in_trie with Some a => ta_storage_root a | None => EMPTY_ROOT_HASH end in
      storage_trie ← decode_checked storage_trie_bytes num_nodes expected_storage_root
        (λ actual, ParentStorageRootMismatch hashed_address actual expected_storage_root);
      build_storage_tries state_trie entries' (<[hashed_address := storage_trie]> storage_tries)
  end.

Definition build (input : ClientExecutorInput)
  : outcome ClientExecutionError ClientExecutorInputWithState :=
  let '(state_num_nodes, state_bytes) := sb_state_trie (parent_state_bytes input) in
  parent ← index (ancestor_headers input) 0;
  state_trie ← decode_checked state_bytes state_num_nodes (hd_state_root parent)
    (λ actual, ParentStateRootMismatch actual (hd_state_root parent));
  storage_tries ← build_storage_tries state_trie (sb_storage_tries (parent_state_bytes input)) ∅;
  Ok (mkInputWithState input (mkEthereumState state_trie storage_tries)).

(** ** The witness database *)

(** The eager variants of [StateProvider] and [BytecodeProvider].  Both hold the
    same [witness_order] cell. *)
Record WitnessDb : Type := mkWitnessDb {
  wd_state : EthereumState;
  block_hashes : gmap u64 B256;
  bytecode_by_hash : gmap B256 Bytecode;
  account_lookup_order : option (list B256);
  bytecode_lookup_order : option (list B256);
  storage_lookup_order : option (list B256);
  witness_order : option (list WitnessAccess);
}.

(** [bytecodes.iter().map(|code| (code.hash_slow(), code)).collect()]: the last
    code with a hash stays. *)
Definition collect_bytecodes (bytecodes : list Bytecode) : gmap B256 Bytecode :=
  foldl (λ m code, <[bytecode_hash_slow code := code]> m) ∅ bytecodes.

(** [WitnessDb::new] *)
Definition new_witness_db (inner : EthereumState) (hashes : gmap u64 B256)
    (codes : gmap B256 Bytecode) : WitnessDb :=
  mkWitnessDb inner hashes codes None None None None.

Definition from_parts (state : EthereumState) (current_header : BlockHeader)
    (ancestor_headers : list BlockHeader) (bytecodes : list Bytecode)
  : outcome ClientExecutionError WitnessDb :=
  hashes ← build_block_hashes (current_header :: ancestor_headers) (1 + length ancestor_headers);
  Ok (new_witness_db state hashes (collect_bytecodes bytecodes)).

(** [recording] tells whether the caller wants the order of all accesses. *)
Definition from_parts_recording (state : EthereumState) (current_header : BlockHeader)
    (ancestor_headers : list BlockHeader) (bytecodes : list Bytecode) (recording : bool)
  : outcome ClientExecutionError WitnessDb :=
  db ← from_parts state current_header ancestor_headers bytecodes;
  Ok (mkWitnessDb (wd_state db) (block_hashes db) (bytecode_by_hash db)
        (Some []) (Some []) (Some []) (if recording then Some [] else None)).

(** [WitnessInput for ClientExecutorInputWithState] *)
Definition headers (i : ClientExecutorInputWithState) : list BlockHeader :=
  bk_header (current_block (input i)) :: ancestor_headers (input i).

Definition witness_db (i : ClientExecutorInputWithState) : outcome ClientExecutionError WitnessDb :=
  hashes ← build_block_hashes (headers i) (length (headers i));
  Ok (new_witness_db (state i) hashes (collect_bytecodes (bytecodes (input i)))).

Definition witness_db_recording (i : ClientExecutorInputWithState) (recording : bool)
  : outcome ClientExecutionError WitnessDb :=
  from_parts_recording (state i) (bk_header (current_block (input i))) (ancestor_headers (input i))
    (bytecodes (input i)) recording.

(** *** Recording *)

Definition set_account_lookup_order (o : option (list B256)) (db : WitnessDb) : WitnessDb :=
  mkWitnessDb (wd_state db) (block_hashes db) (bytecode_by_hash db) o
    (bytecode_lookup_order db) (storage_lookup_order db) (witness_order db).
Definition set_bytecode_lookup_order (o : option (list B256)) (db : WitnessDb) : WitnessDb :=
  mkWitnessDb (wd_state db) (block_hashes db) (bytecode_by_hash db) (account_lookup_order db)
    o (storage_lookup_order db) (witness_order db).
Definition set_storage_lookup_order (o : option (list B256)) (db : WitnessDb) : WitnessDb :=
  mkWitnessDb (wd_state db) (block_hashes db) (bytecode_by_hash db) (account_lookup_order db)
    (bytecode_lookup_order db) o (witness_order db).
Definition set_witness_order (o : option (list WitnessAccess)) (db : WitnessDb) : WitnessDb :=
  mkWitnessDb (wd_state db) (block_hashes db) (bytecode_by_hash db) (account_lookup_order db)
    (bytecode_lookup_order db) (storage_lookup_order db) o.

(** [witness_order.borrow_mut().push(access)], when there is one. *)
Definition push_witness (access : WitnessAccess) (db : WitnessDb) : WitnessDb :=
  match witness_order db with
  | Some order => set_witness_order (Some (order ++ [access])) db
  | None => db
  end.

(** The first lookup of an account is recorded, in both orders. *)
Definition record_account (hashed_address : B256) (db : WitnessDb) : WitnessDb :=
  match account_lookup_order db with
  | Some order =>
      if decide (hashed_address ∈ order) then db
      else push_witness (AccessAccount hashed_address)
             (set_account_lookup_order (Some (order ++ [hashed_address])) db)
  | None => db
  end.

Definition record_storage (hashed_address : B256) (db : WitnessDb) : WitnessDb :=
  match storage_lookup_order db with
  | Some order =>
      if decide (hashed_address ∈ order) then db
      else push_witness (AccessStorageTrie hashed_address)
             (set_storage_lookup_order (Some (order ++ [hashed_address])) db)
  | None => db
  end.

(** Every lookup of a bytecode is recorded. *)
Definition record_bytecode (hash : B256) (db : WitnessDb) : WitnessDb :=
  push_witness (AccessBytecode hash)
    (match bytecode_lookup_order db with
     | Some order => set_bytecode_lookup_order (Some (order ++ [hash])) db
     | None => db
     end).

(** *** Queries *)

Definition to_account_info (a : TrieAccount) : AccountInfo :=
  mkAccountInfo (ta_balance a) (ta_nonce a) (ta_code_hash a) None.

(** [result.unwrap()], [result.expect(..)] on a pure result. *)
Definition unwrap_outcome {E F A} (o : outcome E A) : outcome F A :=
  match o with
  | Ok a => Ok a
  | Err _ => Panic UnwrapOnErr
  | Panic p => Panic p
  | OutOfFuel => OutOfFuel
  end.

Definition witness_basic_ref (address : Address)
  : machine WitnessDb ProviderError (option AccountInfo) :=
  let hashed_address := keccak256 address in
  modify (record_account hashed_address);;
  db ← get_state;
  account_in_trie ← lift (unwrap_outcome
    (get_rlp (T:=TrieAccount) (state_trie (wd_state db)) hashed_address));
  mret (option_map to_account_info account_in_trie).

Definition witness_code_by_hash_ref (hash : B256) : machine WitnessDb ProviderError Bytecode :=
  modify (record_bytecode hash);;
  db ← get_state;
  lift (unwrap (bytecode_by_hash db !! hash)).

Definition witness_storage_ref (address : Address) (index : U256)
  : machine WitnessDb ProviderError U256 :=
  let hashed_address := keccak256 address in
  let hashed_slot := keccak256 (u256_to_be_bytes index) in
  modify (record_account hashed_address);;
  modify (record_storage hashed_address);;
  db ← get_state;
  storage_trie ← lift (unwrap (storage_tries (wd_state db) !! hashed_address));
  value ← lift (unwrap_outcome (get_rlp (T:=U256) storage_trie hashed_slot));
  mret (default 0%N value).

Definition witness_block_hash_ref (number : u64) : machine WitnessDb ProviderError B256 :=
  db ← get_state;
  lift (unwrap (block_hashes db !! number)).

#[global] Instance witness_database : DatabaseRef WitnessDb ProviderError := {|
  basic_ref := witness_basic_ref;
  code_by_hash_ref := witness_code_by_hash_ref;
  storage_ref := witness_storage_ref;
  block_hash_ref := witness_block_hash_ref;
|}.
End client.
