(* ===== verification/Streaming.v ===== *)
(** * The streaming client ([crates/executor/client/src/io.rs])

    In the zkVM the witness is not one value but a stream: an account, a storage
    trie or a bytecode is read when the EVM first asks for it, and the state trie
    comes last, as a digest frontier with one chunk per group of changed
    accounts.  Accounts are used before they can be checked; the update checks
    every one of them against the state trie. *)

From stdpp Require Import sorting.
From S2P Require Import Prelude External Node Hp Mpt Codec Frontier Evm State Client.

(** ** The items of the stream *)

Record StateTrieHeader : Type := mkStateTrieHeader {
  sth_version : u8;
  sth_num_nodes : nat;
  sth_chunk_count : nat;
}.

Record StateChunkHeader : Type := mkStateChunkHeader {
  sch_prefix : bytes;
  sch_expected_root : B256;
  sch_num_nodes : nat;
  sch_witness_count : nat;
}.

Record StorageTrieHeader : Type := mkStorageTrieHeader {
  sgh_hashed_address : B256;
  sgh_num_nodes : nat;
}.

Record AccountInput : Type := mkAccountInput {
  ain_hashed_address : B256;
  ain_account : option TrieAccount;
}.

Inductive ClientWitnessInput `{Evm} : Type :=
  | WitnessAccount (account_input : AccountInput)
  | WitnessStorageTrie (storage_trie_header : StorageTrieHeader)
  | WitnessBytecode (bytecode : Bytecode)
  | WitnessStateChunk (state_chunk_header : StateChunkHeader).

(** The trait [ClientInputReader]: reading returns an item or panics.  A stream
    is finite; [remaining] bounds the items left. *)
Class ClientInputReader `{Evm} (R : Type) : Type := {
  read_ancestor_headers : machine R Empty_set (list BlockHeader);
  read_state_trie_header : machine R Empty_set StateTrieHeader;
  read_current_block : machine R Empty_set Block;
  read_witness_input : machine R Empty_set ClientWitnessInput;
  read_raw_bytes : machine R Empty_set bytes;
  remaining : R → nat;
}.

(** The order in which a [HashMap] of accounts is visited. *)
Class CacheOrder : Type := {
  cache_entries : gmap B256 (option TrieAccount) → list (B256 * option TrieAccount);
}.

Class CacheOrderOk `{CacheOrder} : Prop := {
  (** every entry is visited once *)
  cache_entries_all cache : cache_entries cache ≡ₚ map_to_list cache;
}.

Section streaming.
Context `{Evm} {R : Type} `{!ClientInputReader R, !CacheOrder}.

(** The input cell has its borrow flag; the borrows of the other two cells all
    end before the next one begins. *)
Record StreamingEthereumState : Type := mkStreamingEthereumState {
  ss_header : StateTrieHeader;
  ss_parent_state_root : B256;
  ss_state_trie : option Mpt;
  ss_account_cache : gmap B256 (option TrieAccount);
  ss_storage_tries : gmap B256 Mpt;
  ss_input : RefCell R;
}.

Definition set_ss_state_trie (t : option Mpt) (s : StreamingEthereumState) : StreamingEthereumState :=
  mkStreamingEthereumState (ss_header s) (ss_parent_state_root s) t (ss_account_cache s)
    (ss_storage_tries s) (ss_input s).
Definition set_ss_account_cache (c : gmap B256 (option TrieAccount)) (s : StreamingEthereumState)
  : StreamingEthereumState :=
  mkStreamingEthereumState (ss_header s) (ss_parent_state_root s) (ss_state_trie s) c
    (ss_storage_tries s) (ss_input s).
Definition set_ss_storage_tries (t : gmap B256 Mpt) (s : StreamingEthereumState) : StreamingEthereumState :=
  mkStreamingEthereumState (ss_header s) (ss_parent_state_root s) (ss_state_trie s)
    (ss_account_cache s) t (ss_input s).
Definition set_ss_input (i : RefCell R) (s : StreamingEthereumState) : StreamingEthereumState :=
  mkStreamingEthereumState (ss_header s) (ss_parent_state_root s) (ss_state_trie s)
    (ss_account_cache s) (ss_storage_tries s) i.

Abbreviation streaming := (machine StreamingEthereumState).

(** [match self.input.borrow_mut().read() { .. }]: the borrow lasts as long as
    the match, arms included. *)
Definition match_input {E A B} (read : machine R Empty_set A) (arms : A → streaming E B)
  : streaming E B := λ s,
  if cell_borrowed (ss_input s) then (Panic AlreadyBorrowed, s) else
  match read (cell_value (ss_input s)) with
  | (Ok a, r) =>
      let '(o, s') := arms a (set_ss_input (mkCell r true) s) in
      (o, set_ss_input (new_cell (cell_value (ss_input s'))) s')
  | (Err e, _) => match e with end
  | (Panic p, r) => (Panic p, set_ss_input (new_cell r) s)
  | (OutOfFuel, r) => (OutOfFuel, set_ss_input (new_cell r) s)
  end.

(** [let x = self.input.borrow_mut().read();] *)
Definition read_input {E A} (read : machine R Empty_set A) : streaming E A := match_input read mret.

(** A call on a trie that is not part of the state. *)
Definition on_local {A} (f : machine Mpt Error A) (t : Mpt)
  : streaming ClientExecutionError (A * Mpt) := λ s,
  match f t with
  | (Ok a, t') => (Ok (a, t'), s)
  | (Err e, _) => (Err (MptError e), s)
  | (Panic p, _) => (Panic p, s)
  | (OutOfFuel, _) => (OutOfFuel, s)
  end.

(** A call on [self.state_trie.as_mut().expect(..)]. *)
Definition on_state_trie {A} (f : machine Mpt Error A) : streaming ClientExecutionError A := λ s,
  match ss_state_trie s with
  | Some t =>
      let '(o, t') := f t in (map_err MptError o, set_ss_state_trie (Some t') s)
  | None => (Panic UnwrapOnNone, s)
  end.

(** [build_streaming_state_from_input_reader] *)
Definition build_streaming_state_from_input_reader (ancestor_headers : list BlockHeader) (input : R)
  : outcome ClientExecutionError StreamingEthereumState :=
  match read_state_trie_header input with
  | (Ok state_trie_header, input') =>
      parent ← index ancestor_headers 0;
      Ok (mkStreamingEthereumState state_trie_header (hd_state_root parent) None ∅ ∅ (new_cell input'))
  | (Err e, _) => match e with end
  | (Panic p, _) => Panic p
  | (OutOfFuel, _) => OutOfFuel
  end.

(** ** Reading while the block executes *)

(** The loop of [read_account]: [fuel] bounds the items left in the stream. *)
Fixpoint read_account_loop (fuel : nat) (hashed_address : B256)
  : streaming ProviderError (option TrieAccount) :=
  match fuel with
  | 0 => lift OutOfFuel
  | S fuel' =>
      account_input ← match_input read_witness_input (λ w,
        match w with
        | WitnessAccount account_input => mret account_input
        | _ => throw UnexpectedWitness
        end);
      let streamed_address := ain_hashed_address account_input in
      s ← get_state;
      if decide (is_Some (ss_account_cache s !! streamed_address)) then
        throw (DuplicateAccount streamed_address)
      else
        let streamed_account := ain_account account_input in
        modify (λ s, set_ss_account_cache (<[streamed_address := streamed_account]> (ss_account_cache s)) s);;
        if decide (streamed_address = hashed_address) then mret streamed_account
        else read_account_loop fuel' hashed_address
  end.

Definition read_account (hashed_address : B256) : streaming ProviderError (option TrieAccount) :=
  s ← get_state;
  match ss_account_cache s !! hashed_address with
  | Some account => mret account
  | None => read_account_loop (S (remaining (cell_value (ss_input s)))) hashed_address
  end.

Definition expected_storage_root (hashed_address : B256) : streaming ProviderError B256 :=
  account_in_trie ← read_account hashed_address;
  mret (match account_in_trie with Some account => ta_storage_root account | None => EMPTY_ROOT_HASH end).

Definition load_storage_trie (hashed_address : B256) : streaming ProviderError unit :=
  s ← get_state;
  if decide (is_Some (ss_storage_tries s !! hashed_address)) then mret ()
  else
    storage_trie_header ← match_input read_witness_input (λ w,
      match w with
      | WitnessStorageTrie storage_trie_header => mret storage_trie_header
      | _ => throw UnexpectedWitness
      end);
    if decide (sgh_hashed_address storage_trie_header ≠ hashed_address) then
      throw (StorageAddressMismatch hashed_address (sgh_hashed_address storage_trie_header))
    else
      expected ← expected_storage_root hashed_address;
      storage_trie_bytes ← read_input read_raw_bytes;
      '(storage_trie, _) ← lift (map_err (λ _, StorageDecodeError)
        (decode_trie storage_trie_bytes (sgh_num_nodes storage_trie_header)));
      match hash storage_trie with
      | (Ok actual, storage_trie) =>
          if decide (actual ≠ expected) then throw (StorageRootMismatch hashed_address actual expected)
          else modify (λ s,
            set_ss_storage_tries (<[hashed_address := storage_trie]> (ss_storage_tries s)) s)
      | (Err _, _) => panics Unreachable
      | (Panic p, _) => panics p
      | (OutOfFuel, _) => lift OutOfFuel
      end.

Definition read_bytecode (h : B256) : streaming ProviderError Bytecode :=
  bytecode ← match_input read_witness_input (λ w,
    match w with
    | WitnessBytecode bytecode => mret bytecode
    | _ => throw UnexpectedWitness
    end);
  if decide (bytecode_hash_slow bytecode ≠ h) then
    throw (BytecodeHashMismatch h (bytecode_hash_slow bytecode))
  else mret bytecode.

(** ** The streaming witness database *)

(** [WitnessDb] with [StateProvider::Streaming] and [BytecodeProvider::Streaming]. *)
Record StreamingDb : Type := mkStreamingDb {
  sd_state : StreamingEthereumState;
  sd_block_hashes : gmap u64 B256;
}.

Definition from_streaming_parts (state : StreamingEthereumState) (current_header : BlockHeader)
    (ancestor_headers : list BlockHeader) : outcome ClientExecutionError StreamingDb :=
  hashes ← build_block_hashes (current_header :: ancestor_headers) (1 + length ancestor_headers);
  Ok (mkStreamingDb state hashes).

Definition on_streaming {E A} (f : streaming E A) : machine StreamingDb E A := λ db,
  let '(o, s) := f (sd_state db) in (o, mkStreamingDb s (sd_block_hashes db)).

Definition streaming_basic_ref (address : Address) : machine StreamingDb ProviderError (option AccountInfo) :=
  account_in_trie ← on_streaming (read_account (keccak256 address));
  mret (option_map to_account_info account_in_trie).

Definition streaming_code_by_hash_ref (h : B256) : machine StreamingDb ProviderError Bytecode :=
  on_streaming (read_bytecode h).

Definition streaming_storage_ref (address : Address) (index : U256)
  : machine StreamingDb ProviderError U256 :=
  let hashed_address := keccak256 address in
  let hashed_slot := keccak256 (u256_to_be_bytes index) in
  on_streaming (load_storage_trie hashed_address);;
  db ← get_state;
  storage_trie ← lift (unwrap (ss_storage_tries (sd_state db) !! hashed_address));
  value ← lift (unwrap_outcome (get_rlp (T:=U256) storage_trie hashed_slot));
  mret (default 0%N value).

Definition streaming_block_hash_ref (number : u64) : machine StreamingDb ProviderError B256 :=
  db ← get_state;
  lift (unwrap (sd_block_hashes db !! number)).

#[global] Instance streaming_database : DatabaseRef StreamingDb ProviderError := {|
  basic_ref := streaming_basic_ref;
  code_by_hash_ref := streaming_code_by_hash_ref;
  storage_ref := streaming_storage_ref;
  block_hash_ref := streaming_block_hash_ref;
|}.

(** ** Applying the changes of the block, chunk by chunk *)

Definition update_storage_trie (storage : list (U256 * StorageSlot)) : machine Mpt Error B256 :=
  for_each write_slot storage;; hash.

(** [nibs[2 * i] = byte >> 4; nibs[2 * i + 1] = byte & 0x0f] for every byte. *)
Definition b256_nibbles (value : B256) : bytes :=
  concat ((λ byte, [u8_shr byte 4; u8_and byte 0x0f]%N) <$> value).

Definition starts_with (nibs prefix : bytes) : bool := bool_decide (is_Some (strip_prefix prefix nibs)).

Definition ensure_state_trie_loaded : streaming ClientExecutionError unit :=
  s ← get_state;
  match ss_state_trie s with
  | Some _ => mret ()
  | None =>
      state_bytes ← read_input read_raw_bytes;
      '(state_trie, _) ← lift (map_err MptError (decode_trie state_bytes (sth_num_nodes (ss_header s))));
      '(actual, state_trie) ← on_local hash state_trie;
      if decide (actual ≠ ss_parent_state_root s) then
        throw (ParentStateRootMismatch actual (ss_parent_state_root s))
      else modify (set_ss_state_trie (Some state_trie))
  end.

Definition state_root : streaming ClientExecutionError B256 := on_state_trie hash.

Definition validate_entry (entry : B256 * option TrieAccount) : streaming ClientExecutionError unit :=
  let '(hashed_address, streamed_account) := entry in
  s ← get_state;
  state_trie ← lift (unwrap (ss_state_trie s));
  trie_account ← lift (map_err MptError (get_rlp (T:=TrieAccount) state_trie hashed_address));
  if decide (trie_account ≠ streamed_account) then
    throw (TrieWitnessError (AccountMismatch hashed_address))
  else mret ().

Definition validate_account_cache : streaming ClientExecutionError unit :=
  s ← get_state;
  _ ← lift (unwrap (ss_state_trie s));
  for_each validate_entry (cache_entries (ss_account_cache s)).

(** [chunk.get_rlp_nibbles(&nibs[prefix.len()..])] *)
Definition chunk_account (chunk : Mpt) (prefix : bytes) (hashed_address : B256)
  : streaming ClientExecutionError (option TrieAccount) :=
  suffix ← lift (slice_from (b256_nibbles hashed_address) (length prefix));
  lift (map_err MptError (get_rlp_nibbles (T:=TrieAccount) chunk suffix)).

(** An account of the cache is taken out and compared with the chunk's. *)
Definition check_cached (chunk : Mpt) (prefix : bytes) (hashed_address : B256)
  : streaming ClientExecutionError unit :=
  s ← get_state;
  let streamed_account := ss_account_cache s !! hashed_address in
  modify (set_ss_account_cache (base.delete hashed_address (ss_account_cache s)));;
  trie_account ← chunk_account chunk prefix hashed_address;
  if decide (streamed_account ≠ Some trie_account) then
    throw (TrieWitnessError (AccountMismatch hashed_address))
  else mret ().

Definition check_cached_accounts (chunk : Mpt) (prefix : bytes) : streaming ClientExecutionError unit :=
  s ← get_state;
  let cached_keys :=
    filter (λ key, starts_with (b256_nibbles key) prefix = true) (cache_entries (ss_account_cache s)).*1 in
  for_each (check_cached chunk prefix) cached_keys.

(** One of the witnesses that follow a chunk; the storage tries among them are
    collected. *)
Definition chunk_witness (chunk : Mpt) (prefix : bytes) (post_storage_tries : gmap B256 Mpt)
  : streaming ClientExecutionError (gmap B256 Mpt) :=
  match_input read_witness_input (λ w,
    match w with
    | WitnessAccount account_input =>
        let h := ain_hashed_address account_input in
        if negb (starts_with (b256_nibbles h) prefix) then
          throw (TrieWitnessError (OutsideChunk h prefix))
        else
          trie_account ← chunk_account chunk prefix h;
          if decide (trie_account ≠ ain_account account_input) then
            throw (TrieWitnessError (PostUpdateAccountMismatch h))
          else mret post_storage_tries
    | WitnessStorageTrie storage_header =>
        let h := sgh_hashed_address storage_header in
        if negb (starts_with (b256_nibbles h) prefix) ||
           bool_decide (is_Some (post_storage_tries !! h))
        then throw (TrieWitnessError (InvalidStorageWitness h prefix))
        else
          account ← chunk_account chunk prefix h;
          let expected :=
            match account with Some account => ta_storage_root account | None => EMPTY_ROOT_HASH end in
          storage_bytes ← read_input read_raw_bytes;
          '(storage, _) ← lift (map_err MptError (decode_trie storage_bytes (sgh_num_nodes storage_header)));
          '(actual, storage) ← on_local hash storage;
          if decide (actual ≠ expected) then throw (ParentStorageRootMismatch h actual expected)
          else mret (<[h := storage]> post_storage_tries)
    | _ => throw (TrieWitnessError UnexpectedWitness)
    end).

(** [for _ in 0..witness_count] *)
Fixpoint chunk_witnesses (count : nat) (chunk : Mpt) (prefix : bytes)
    (post_storage_tries : gmap B256 Mpt) : streaming ClientExecutionError (gmap B256 Mpt) :=
  match count with
  | 0 => mret post_storage_tries
  | S count' =>
      post_storage_tries ← chunk_witness chunk prefix post_storage_tries;
      chunk_witnesses count' chunk prefix post_storage_tries
  end.

(** The storage root of an account that stays, and the storage tries left. *)
Definition new_storage_root (hashed_address : B256) (account : BundleAccount)
    (old_account : option TrieAccount) (post_storage_tries : gmap B256 Mpt)
  : streaming ClientExecutionError (B256 * gmap B256 Mpt) :=
  s ← get_state;
  let forget := modify (λ s,
    set_ss_storage_tries (base.delete hashed_address (ss_storage_tries s)) s) in
  let update := λ storage post,
    '(root, _) ← on_local (update_storage_trie (ba_storage account)) storage; mret (root, post) in
  let old_root :=
    match old_account with Some account => ta_storage_root account | None => EMPTY_ROOT_HASH end in
  if was_destroyed (ba_status account) || negb (bool_decide (ba_storage account = [])) then
    if was_destroyed (ba_status account) then update new post_storage_tries
    else
      match ss_storage_tries s !! hashed_address, post_storage_tries !! hashed_address with
      | Some storage, _ => forget;; update storage post_storage_tries
      | None, Some storage => update storage (base.delete hashed_address post_storage_tries)
      | None, None =>
          if decide (old_root = EMPTY_ROOT_HASH) then update new post_storage_tries
          else throw (TrieWitnessError (MissingStorageTrie hashed_address))
      end
  else
    match ss_storage_tries s !! hashed_address with
    | Some storage =>
        forget;;
        '(actual, _) ← on_local hash storage;
        if decide (actual ≠ old_root) then throw (ParentStorageRootMismatch hashed_address actual old_root)
        else mret (old_root, post_storage_tries)
    | None => mret (old_root, post_storage_tries)
    end.

(** One account of the report. *)
Definition write_chunk_account (prefix : bytes) (entry : B256 * bytes * BundleAccount)
    (chunk : Mpt) (post_storage_tries : gmap B256 Mpt)
  : streaming ClientExecutionError (Mpt * gmap B256 Mpt) :=
  let '(hashed_address, nibs, account) := entry in
  suffix ← lift (slice_from nibs (length prefix));
  old_account ← lift (map_err MptError (get_rlp_nibbles (T:=TrieAccount) chunk suffix));
  match ba_info account with
  | Some info =>
      '(storage_root, post_storage_tries) ←
        new_storage_root hashed_address account old_account post_storage_tries;
      '(_, chunk) ← on_local (insert_rlp_nibbles suffix
        (mkTrieAccount (ai_nonce info) (ai_balance info) storage_root (ai_code_hash info))) chunk;
      mret (chunk, post_storage_tries)
  | None =>
      '(_, chunk) ← on_local (delete_nibbles suffix) chunk;
      modify (λ s, set_ss_storage_tries (base.delete hashed_address (ss_storage_tries s)) s);;
      mret (chunk, post_storage_tries)
  end.

Fixpoint write_chunk_accounts (prefix : bytes) (entries : list (B256 * bytes * BundleAccount))
    (chunk : Mpt) (post_storage_tries : gmap B256 Mpt)
  : streaming ClientExecutionError (Mpt * gmap B256 Mpt) :=
  match entries with
  | [] => mret (chunk, post_storage_tries)
  | entry :: entries' =>
      '(chunk, post_storage_tries) ← write_chunk_account prefix entry chunk post_storage_tries;
      write_chunk_accounts prefix entries' chunk post_storage_tries
  end.

(** The accounts from the cursor on that are in the chunk, and the others:
    [while bundle_cursor < len && bundle_accounts[bundle_cursor].1.starts_with(..)]. *)
Fixpoint span_chunk (prefix : bytes) (accounts : list (B256 * bytes * BundleAccount))
  : list (B256 * bytes * BundleAccount) * list (B256 * bytes * BundleAccount) :=
  match accounts with
  | entry :: accounts' =>
      if starts_with entry.1.2 prefix then
        let '(inside, rest) := span_chunk prefix accounts' in (entry :: inside, rest)
      else ([], accounts)
  | [] => ([], [])
  end.

(** One chunk, given the accounts from the cursor on; it returns those after the
    new cursor. *)
Definition update_chunk (accounts : list (B256 * bytes * BundleAccount))
  : streaming ClientExecutionError (list (B256 * bytes * BundleAccount)) :=
  chunk_header ← match_input read_witness_input (λ w,
    match w with
    | WitnessStateChunk header => mret header
    | _ => throw (TrieWitnessError UnexpectedWitness)
    end);
  let prefix := sch_prefix chunk_header in
  chunk_bytes ← read_input read_raw_bytes;
  '(chunk, _) ← lift (map_err MptError (decode_trie chunk_bytes (sch_num_nodes chunk_header)));
  '(actual, chunk) ← on_local hash chunk;
  if decide (actual ≠ sch_expected_root chunk_header) then
    throw (TrieWitnessError (ChunkRootMismatch prefix actual (sch_expected_root chunk_header)))
  else
    check_cached_accounts chunk prefix;;
    post_storage_tries ← chunk_witnesses (sch_witness_count chunk_header) chunk prefix ∅;
    let '(inside, rest) := span_chunk prefix accounts in
    if decide (inside = []) then throw (TrieWitnessError (EmptyChunk prefix))
    else
      '(chunk, post_storage_tries) ← write_chunk_accounts prefix inside chunk post_storage_tries;
      if decide (post_storage_tries ≠ ∅) then throw (TrieWitnessError UnusedStorageWitnesses)
      else
        '(new_root, chunk) ← on_local hash chunk;
        '(addressed, _) ← (if decide (prefix ≠ [] ∧ new_root ≠ EMPTY_ROOT_HASH)
                           then on_local root_is_hash_addressed chunk else mret (true, chunk));
        if negb addressed then throw (MptError InlineFrontierChunk)
        else
          on_state_trie (replace_frontier_slot prefix (sch_expected_root chunk_header) new_root);;
          mret rest.

(** [for _ in 0..chunk_count] *)
Fixpoint update_chunks (count : nat) (accounts : list (B256 * bytes * BundleAccount))
  : streaming ClientExecutionError (list (B256 * bytes * BundleAccount)) :=
  match count with
  | 0 => mret accounts
  | S count' => rest ← update_chunk accounts; update_chunks count' rest
  end.

(** The accounts of the report by hashed address. *)
Definition by_hashed_address (x y : B256 * bytes * BundleAccount) : Prop := bytes_le x.1.1 y.1.1.
#[global] Instance by_hashed_address_dec : RelDecision by_hashed_address.
Proof. intros x y. unfold by_hashed_address. apply _. Defined.

Definition hashed_accounts (bundle : BundleState) : list (B256 * bytes * BundleAccount) :=
  merge_sort by_hashed_address
    ((λ e, let h := keccak256 e.1 in (h, b256_nibbles h, e.2)) <$> bundle).

Definition streaming_update_from_bundle_state (bundle_state : BundleState)
  : streaming ClientExecutionError unit :=
  ensure_state_trie_loaded;;
  s ← get_state;
  if decide (sth_version (ss_header s) ≠ 2%N) then
    throw (TrieWitnessError (UnsupportedVersion (sth_version (ss_header s))))
  else
    let bundle_accounts := hashed_accounts bundle_state in
    rest ← update_chunks (sth_chunk_count (ss_header s)) bundle_accounts;
    if decide (rest ≠ []) then
      throw (TrieWitnessError
        (AccountsLeft (length bundle_accounts - length rest) (length bundle_accounts)))
    else
      validate_account_cache;;
      modify (set_ss_storage_tries ∅).
End streaming.
