(* ===== verification/ClientSpec.v ===== *)
(** * The witness database tells the truth

    [FullState] is the database of a node that has the whole state and chain.
    What the witness database answers after [build] accepted the witness is what
    [FullState] answers, so a block that executes on the witness executes the
    same way on the full state. *)

From S2P Require Import Prelude External Node Hp Mpt Trie TrieLaws TrieHash MptSpec TrieMap View.
From S2P Require Import Stateless Codec CodecLaws Decode Evm State StateSpec Client.

Section spec.
Context `{Evm}.

(** ** A node with the whole state *)

(** The world, the code with each hash, and the header with each number. *)
Record FullState : Type := mkFullState {
  fs_world : World;
  fs_code : B256 → option Bytecode;
  fs_chain : u64 → option BlockHeader;
}.

#[global] Instance full_database : DatabaseRef FullState ProviderError := {|
  basic_ref address :=
    s ← get_state; mret (to_account_info <$> accounts (fs_world s) !! keccak256 address);
  code_by_hash_ref hash := s ← get_state; lift (unwrap (fs_code s hash));
  storage_ref address index :=
    s ← get_state;
    mret (default 0%N (slots (fs_world s) (keccak256 address) !! keccak256 (u256_to_be_bytes index)));
  block_hash_ref number := s ← get_state; lift (unwrap (header_hash_slow <$> fs_chain s number));
|}.

(** Every account has the storage root of its slots; the integers are in range. *)
Record world_ok (W : World) : Prop := {
  account_key h a : accounts W !! h = Some a → byte_key 32 h;
  account_fields h a : accounts W !! h = Some a →
    is_u64 (ta_nonce a) ∧ is_u256 (ta_balance a) ∧ length (ta_code_hash a) = 32;
  account_root h a : accounts W !! h = Some a → ta_storage_root a = map_root (slot_trie (slots W h));
  slot_key h k v : slots W h !! k = Some v → byte_key 32 k;
  slot_value h k v : slots W h !! k = Some v → is_u256 v;
  slots_absent h : accounts W !! h = None → slots W h = ∅;
}.

(** Headers follow each other by number and hash. *)
Record chain_ok (chain : u64 → option BlockHeader) : Prop := {
  chain_number n hd : chain n = Some hd → hd_number hd = n ∧ is_u64 n;
  chain_parent n hd : chain n = Some hd → (n ≠ 0)%N →
    ∃ parent, chain (n - 1)%N = Some parent ∧ hd_parent_hash hd = header_hash_slow parent;
}.

Context `{!CratesOk, !EvmOk}.

(** ** Reading accounts and slots *)

Lemma map_root_length n M : (∀ key, is_Some (M !! key) → byte_key n key) → length (map_root M) = 32.
Proof.
  intros Hkeys. destruct (map_trie_ok n M Hkeys) as (Hct & _). change (map_root M) with (trie_hash (map_trie M)).
  apply trie_hash_length. destruct Hct as [->|]; [constructor|by apply canonical_wf].
Qed.

Lemma slot_trie_keys W h : world_ok W → ∀ k, is_Some (slot_trie (slots W h) !! k) → byte_key 32 k.
Proof.
  intros HW k [v Hv]. unfold slot_trie in Hv. rewrite lookup_fmap in Hv.
  destruct (slots W h !! k) as [x|] eqn:Hx; [|done]. by eapply slot_key.
Qed.

Lemma account_trie_keys W : world_ok W → ∀ k, is_Some (account_trie W !! k) → byte_key 32 k.
Proof.
  intros HW k [v Hv]. unfold account_trie in Hv. rewrite lookup_fmap in Hv.
  destruct (accounts W !! k) as [x|] eqn:Hx; [|done]. by eapply account_key.
Qed.

Lemma get_rlp_inv {T} `{!RlpCodec T} m h (v : option T) :
  get_rlp m h = Ok v →
  ∃ o, get m h = Ok o ∧
    match o with Some s => ∃ x, rlp_decode s = Ok x ∧ v = Some x | None => v = None end.
Proof.
  unfold get_rlp. destruct (get m h) as [[s|]| | |]; cbn; try done.
  - destruct (rlp_decode s) as [x| | |] eqn:Hd; cbn; try done. intros [= <-].
    exists (Some s). split; [done|]. by exists x.
  - intros [= <-]. by exists None.
Qed.

Lemma get_rlp_account m W h v :
  stands_for 32 m (account_trie W) → world_ok W → byte_key 32 h →
  get_rlp (T:=TrieAccount) m h = Ok v → v = accounts W !! h.
Proof.
  intros Hm HW Hk (o & Hg & Ho)%get_rlp_inv. apply (stands_for_get _ _ _ _ _ Hm Hk) in Hg as ->.
  unfold account_trie in Ho. rewrite lookup_fmap in Ho.
  destruct (accounts W !! h) as [a|] eqn:Ha; cbn in Ho; [|done].
  destruct (account_fields _ HW _ _ Ha) as (? & ? & ?).
  rewrite account_roundtrip in Ho; [by destruct Ho as (x & [= <-] & ->)|done..| |done].
  rewrite (account_root _ HW _ _ Ha). by eapply map_root_length, slot_trie_keys.
Qed.

Lemma get_rlp_slot m W h k v :
  stands_for 32 m (slot_trie (slots W h)) → world_ok W → byte_key 32 k →
  get_rlp (T:=U256) m k = Ok v → v = slots W h !! k.
Proof.
  intros Hm HW Hk (o & Hg & Ho)%get_rlp_inv. apply (stands_for_get _ _ _ _ _ Hm Hk) in Hg as ->.
  unfold slot_trie in Ho. rewrite lookup_fmap in Ho.
  destruct (slots W h !! k) as [x|] eqn:Hx; cbn in Ho; [|done].
  rewrite u256_roundtrip in Ho by (by eapply slot_value). by destruct Ho as (y & [= <-] & ->).
Qed.

(** ** A block keeps the world in order *)

(** The integers of an entry of the EVM's report are in range. *)
Definition entry_ok (e : Address * BundleAccount) : Prop :=
  match ba_info e.2 with
  | Some i => is_u64 (ai_nonce i) ∧ is_u256 (ai_balance i) ∧ length (ai_code_hash i) = 32
  | None => True
  end ∧ Forall (λ slot, is_u256 (present_value slot.2)) (ba_storage e.2).

Definition slots_ok (S : gmap B256 U256) : Prop := ∀ k v, S !! k = Some v → byte_key 32 k ∧ is_u256 v.

Lemma apply_slots_ok l S :
  slots_ok S → Forall (λ slot, is_u256 (present_value slot.2)) l → slots_ok (foldl apply_slot S l).
Proof.
  intros HS Hl. revert S HS. induction Hl as [|e l He Hl IH]; intros S HS; [done|]. cbn [foldl]. apply IH.
  intros k v. unfold apply_slot. case_decide.
  - intros [_ Hk]%lookup_delete_Some. by apply HS.
  - intros [[<- <-]|[_ Hk]]%lookup_insert_Some; [|by apply HS].
    split; [|done]. split; [apply keccak256_u8|apply keccak256_length].
Qed.

Lemma apply_account_ok W e : world_ok W → entry_ok e → world_ok (apply_account W e).
Proof.
  intros HW [Hinfo Hst]. set (h := keccak256 e.1).
  assert (slots_ok (account_slots (slots W h) e.2)) as HS.
  { apply apply_slots_ok; [|done]. destruct (was_destroyed _); [by intros k v|].
    intros k v Hk. split; [by eapply slot_key|by eapply slot_value]. }
  assert (∀ S h' k v, slots_ok S → set_slots h S (slots W) h' !! k = Some v → byte_key 32 k ∧ is_u256 v) as Hall.
  { intros S h' k v HS'. unfold set_slots. case_decide; [apply HS'|].
    intros Hk. split; [by eapply slot_key|by eapply slot_value]. }
  unfold apply_account. fold h. destruct (ba_info e.2) as [info|].
  - split; cbn [accounts slots].
    + intros h' a [[<- _]|[_ Ha]]%lookup_insert_Some; [apply account_op_key|by eapply account_key].
    + intros h' a [[_ <-]|[_ Ha]]%lookup_insert_Some; [done|by eapply account_fields].
    + intros h' a [[<- <-]|[Hne Ha]]%lookup_insert_Some; [by rewrite set_slots_eq|].
      rewrite set_slots_ne by done. by apply (account_root _ HW).
    + intros h' k v Hk. by destruct (Hall _ _ _ _ HS Hk).
    + intros h' k v Hk. by destruct (Hall _ _ _ _ HS Hk).
    + intros h' [Hn Hne]%lookup_insert_None. rewrite set_slots_ne by done. by apply (slots_absent _ HW).
  - split; cbn [accounts slots].
    + intros h' a [_ Ha]%lookup_delete_Some. by eapply account_key.
    + intros h' a [_ Ha]%lookup_delete_Some. by eapply account_fields.
    + intros h' a [Hne Ha]%lookup_delete_Some. rewrite set_slots_ne by done. by apply (account_root _ HW).
    + intros h' k v Hk. destruct (Hall ∅ h' k v) as [? _]; [by intros ? ?|done..].
    + intros h' k v Hk. destruct (Hall ∅ h' k v) as [_ ?]; [by intros ? ?|done..].
    + intros h' [->|Hn]%lookup_delete_None; [by rewrite set_slots_eq|].
      unfold set_slots. case_decide; [done|]. by apply (slots_absent _ HW).
Qed.

(** ** The witness database against the full state *)

(** What the witness database holds is true of the full state. *)
Record truthful (db : WitnessDb) (fs : FullState) : Prop := {
  true_state : backs (fs_world fs) (wd_state db);
  true_world : world_ok (fs_world fs);
  true_code h code : bytecode_by_hash db !! h = Some code → fs_code fs h = Some code;
  true_hash n h : block_hashes db !! n = Some h → header_hash_slow <$> fs_chain fs n = Some h;
}.

(** Recording changes none of it. *)
Lemma truthful_recorded db db' fs :
  wd_state db' = wd_state db → bytecode_by_hash db' = bytecode_by_hash db →
  block_hashes db' = block_hashes db → truthful db fs → truthful db' fs.
Proof. intros Hs Hc Hh [? ? ? ?]. split; by rewrite ?Hs, ?Hc, ?Hh. Qed.

Lemma truthful_push access db fs : truthful db fs → truthful (push_witness access db) fs.
Proof.
  intros Hdb. apply (truthful_recorded db); [| | |done]; unfold push_witness;
    by destruct (witness_order db).
Qed.

Lemma truthful_record_account h db fs : truthful db fs → truthful (record_account h db) fs.
Proof.
  intros Hdb. unfold record_account. destruct (account_lookup_order db); [|done].
  case_decide; [done|]. apply truthful_push. by apply (truthful_recorded db).
Qed.

Lemma truthful_record_storage h db fs : truthful db fs → truthful (record_storage h db) fs.
Proof.
  intros Hdb. unfold record_storage. destruct (storage_lookup_order db); [|done].
  case_decide; [done|]. apply truthful_push. by apply (truthful_recorded db).
Qed.

Lemma truthful_record_bytecode h db fs : truthful db fs → truthful (record_bytecode h db) fs.
Proof.
  intros Hdb. unfold record_bytecode. apply truthful_push.
  destruct (bytecode_lookup_order db); [|done]. by apply (truthful_recorded db).
Qed.

Lemma unwrap_outcome_ok {E F A} (o : outcome E A) (a : A) :
  unwrap_outcome (F:=F) o = Ok a → o = Ok a.
Proof. by destruct o; cbn; intros [= ->]. Qed.

Lemma unwrap_ok {E A} (o : option A) (a : A) : unwrap (E:=E) o = Ok a → o = Some a.
Proof. by destruct o; cbn; intros [= ->]. Qed.

#[global] Instance witness_implements_full :
  Implements WitnessDb ProviderError FullState ProviderError truthful.
Proof.
  split.
  - intros db fs address info db' Hdb Hrun. cbn in Hrun. unfold witness_basic_ref in Hrun.
    rewrite machine_bind_modify, machine_bind_get in Hrun.
    apply machine_bind_inv in Hrun as (v & db1 & Hget & Hret). injection Hret as <- <-.
    injection Hget as Hget <-. apply unwrap_outcome_ok in Hget.
    pose proof (truthful_record_account (keccak256 address) _ _ Hdb) as Hdb'.
    apply (get_rlp_account _ (fs_world fs)) in Hget as ->;
      [|apply Hdb'|apply Hdb|apply account_op_key].
    by exists fs.
  - intros db fs hash code db' Hdb Hrun. cbn in Hrun. unfold witness_code_by_hash_ref in Hrun.
    rewrite machine_bind_modify, machine_bind_get in Hrun. injection Hrun as Hget <-.
    apply unwrap_ok in Hget. pose proof (truthful_record_bytecode hash _ _ Hdb) as Hdb'.
    apply (true_code _ _ Hdb') in Hget. exists fs. split; [|done]. cbn.
    rewrite machine_bind_get, Hget. done.
  - intros db fs address index value db' Hdb Hrun. cbn in Hrun. unfold witness_storage_ref in Hrun.
    rewrite !machine_bind_modify, machine_bind_get in Hrun.
    pose proof (truthful_record_storage (keccak256 address) _ _
      (truthful_record_account (keccak256 address) _ _ Hdb)) as Hdb'.
    apply machine_bind_inv in Hrun as (t & db1 & Ht & Hrun). injection Ht as Ht <-. apply unwrap_ok in Ht.
    apply machine_bind_inv in Hrun as (v & db1 & Hget & Hret). injection Hret as <- <-.
    injection Hget as Hget <-. apply unwrap_outcome_ok in Hget.
    apply (get_rlp_slot _ (fs_world fs) (keccak256 address)) in Hget as ->;
      [|by eapply backs_storage; [apply Hdb'|]|apply Hdb|].
    { by exists fs. }
    split; [apply keccak256_u8|apply keccak256_length].
  - intros db fs number hash db' Hdb Hrun. cbn in Hrun. unfold witness_block_hash_ref in Hrun.
    rewrite machine_bind_get in Hrun. injection Hrun as Hget <-. apply unwrap_ok in Hget.
    apply (true_hash _ _ Hdb) in Hget. exists fs. split; [|done]. cbn. by rewrite machine_bind_get, Hget.
Qed.

(** ** Block hashes *)

(** Consecutive headers: the next one has the number before and the hash the
    previous one names. *)
Fixpoint linked (hs : list BlockHeader) : Prop :=
  match hs with
  | child :: (parent :: _) as rest =>
      hd_number parent = u64_pred (hd_number child) ∧
      header_hash_slow parent = hd_parent_hash child ∧ linked rest
  | _ => True
  end.

Definition insert_hash (m : gmap u64 B256) (hd : BlockHeader) : gmap u64 B256 :=
  <[hd_number hd := header_hash_slow hd]> m.

Lemma block_hashes_loop_spec child rest m :
  match block_hashes_loop (child :: rest) m with
  | Ok m' => linked (child :: rest) ∧ m' = foldl insert_hash m rest
  | Err _ => ¬ linked (child :: rest)
  | _ => False
  end.
Proof.
  revert child m. induction rest as [|parent rest IH]; intros child m; [done|].
  cbn [block_hashes_loop]. case_decide as Hn; [by intros (? & _)|].
  case_decide as Hh; [by intros (_ & ? & _)|].
  cbn [foldl]. unfold insert_hash at 2. rewrite Hh.
  specialize (IH parent (<[hd_number parent:=hd_parent_hash child]> m)).
  change (match rest with [] => Ok _ | _ => _ end) with
    (block_hashes_loop (parent :: rest) (<[hd_number parent:=hd_parent_hash child]> m)).
  destruct (block_hashes_loop (parent :: rest) _) as [m'|e| |]; [|by intros (_ & _ & ?)|done..].
  destruct IH as [Hl ->]. done.
Qed.

Lemma u64_pred_sub n i :
  is_u64 n → (i + 1 < 2 ^ 64)%N →
  ((u64_pred n + 2 ^ 64 - (i + 1)) mod 2 ^ 64 = (n + 2 ^ 64 - (i + 2)) mod 2 ^ 64)%N.
Proof.
  unfold is_u64, u64_pred. intros Hn Hi. destruct (decide (n = 0%N)) as [->|Hz].
  - rewrite (N.mod_small (0 + 2 ^ 64 - 1)) by lia.
    replace (0 + 2 ^ 64 - 1 + 2 ^ 64 - (i + 1))%N with ((2 ^ 64 - (i + 2)) + 1 * 2 ^ 64)%N by lia.
    by rewrite N.Div0.mod_add.
  - replace (n + 2 ^ 64 - 1)%N with (n - 1 + 1 * 2 ^ 64)%N by lia.
    rewrite N.Div0.mod_add, (N.mod_small (n - 1)) by lia. f_equal. lia.
Qed.

Lemma u64_pred_u64 n : is_u64 (u64_pred n).
Proof. apply N.mod_lt. lia. Qed.

Lemma linked_number child rest i a :
  linked (child :: rest) → is_u64 (hd_number child) → rest !! i = Some a →
  (N.of_nat (length rest) < 2 ^ 64)%N →
  hd_number a = ((hd_number child + 2 ^ 64 - (N.of_nat i + 1)) mod 2 ^ 64)%N.
Proof.
  revert child i. induction rest as [|parent rest IH]; intros child i Hl Hu Hi Hlen; [done|].
  destruct Hl as (Hn & _ & Hl). cbn [length] in Hlen. destruct i as [|i].
  - injection Hi as ->. by rewrite Hn.
  - apply lookup_lt_Some in Hi as Hlt. cbn in Hlt.
    rewrite (IH parent i Hl) by (done || lia || (rewrite Hn; apply u64_pred_u64)).
    rewrite Hn, u64_pred_sub by (done || lia). f_equal. lia.
Qed.

Lemma linked_distinct child rest :
  linked (child :: rest) → is_u64 (hd_number child) → (N.of_nat (length rest) < 2 ^ 64)%N →
  NoDup (hd_number <$> rest).
Proof.
  intros Hl Hu Hlen. apply NoDup_alt. intros i j n Hi Hj.
  rewrite list_lookup_fmap in Hi, Hj.
  destruct (rest !! i) as [a|] eqn:Ha; [|done]. destruct (rest !! j) as [a'|] eqn:Ha'; [|done].
  cbn in Hi, Hj. injection Hi as Hi. injection Hj as Hj.
  pose proof (lookup_lt_Some _ _ _ Ha) as Hli. pose proof (lookup_lt_Some _ _ _ Ha') as Hlj.
  pose proof (linked_number child rest i a Hl Hu Ha Hlen) as Hni.
  pose proof (linked_number child rest j a' Hl Hu Ha' Hlen) as Hnj.
  rewrite Hi in Hni. rewrite Hj, Hni in Hnj. clear -Hnj Hu Hli Hlj Hlen. unfold is_u64 in Hu.
  set (n := hd_number child) in *. clearbody n.
  assert (∀ k, (k < 2 ^ 64)%N → ((n + 2 ^ 64 - (k + 1)) mod 2 ^ 64)%N =
    if decide (k + 1 ≤ n)%N then (n - (k + 1))%N else (n + 2 ^ 64 - (k + 1))%N) as Hk.
  { intros k Hk. case_decide.
    - replace (n + 2 ^ 64 - (k + 1))%N with (n - (k + 1) + 1 * 2 ^ 64)%N by lia.
      rewrite N.Div0.mod_add. apply N.mod_small. lia.
    - apply N.mod_small. lia. }
  rewrite !Hk in Hnj by lia. repeat case_decide; lia.
Qed.

Lemma insert_hashes_lookup rest m n :
  NoDup (hd_number <$> rest) →
  ∀ h, foldl insert_hash m rest !! n = Some h ↔
    (∃ a, a ∈ rest ∧ hd_number a = n ∧ header_hash_slow a = h) ∨
    ((n ∉ hd_number <$> rest) ∧ m !! n = Some h).
Proof.
  revert m. induction rest as [|a rest IH]; intros m Hnd h.
  { cbn. set_solver. }
  cbn [fmap list_fmap] in Hnd. apply NoDup_cons in Hnd as [Hnin Hnd]. cbn [foldl].
  rewrite IH by done. unfold insert_hash. cbn [fmap list_fmap].
  assert (n ∉ (hd_number <$> rest) → ¬ (∃ x, x ∈ rest ∧ hd_number x = n ∧ header_hash_slow x = h)) as Hout.
  { intros Hn (x & Hx & <- & _). apply Hn. by apply list_elem_of_fmap_2. }
  destruct (decide (hd_number a = n)) as [<-|Hne].
  - rewrite lookup_insert_eq. split.
    + intros [Hx|[_ [= <-]]]; [by destruct (Hout Hnin)|]. left. exists a. split; [left|done].
    + intros [(x & [->|Hx]%elem_of_cons & Hxn & Hxh)|[Hn _]].
      * right. by rewrite Hxh.
      * left. by exists x.
      * destruct Hn. left.
  - rewrite lookup_insert_ne by done. split.
    + intros [(x & Hx & ? & ?)|[Hn Hm]]; [left; exists x; split; [by right|done]|].
      right. split; [|done]. intros [->|?]%elem_of_cons; done.
    + intros [(x & [->|Hx]%elem_of_cons & Hxn & Hxh)|[Hn Hm]]; [done|left; by exists x|].
      right. split; [|done]. intros Hin. apply Hn. by right.
Qed.

(** C21: [build_block_hashes] accepts exactly the chains of consecutive headers,
    each with the number before and the hash its child names, and maps the number
    of every ancestor to that ancestor's hash, and nothing else. *)
Theorem block_hashes_exact current ancestors capacity :
  is_u64 (hd_number current) → (N.of_nat (length ancestors) < 2 ^ 64)%N →
  match build_block_hashes (current :: ancestors) capacity with
  | Ok hashes => linked (current :: ancestors) ∧
      ∀ n h, hashes !! n = Some h ↔ ∃ a, a ∈ ancestors ∧ hd_number a = n ∧ header_hash_slow a = h
  | Err _ => ¬ linked (current :: ancestors)
  | _ => False
  end.
Proof.
  intros Hu Hlen. unfold build_block_hashes.
  pose proof (block_hashes_loop_spec current ancestors ∅) as Hspec.
  destruct (block_hashes_loop _ _) as [m|e| |]; try done. destruct Hspec as [Hl ->]. split; [done|].
  intros n h. rewrite insert_hashes_lookup by (by eapply linked_distinct). rewrite lookup_empty. naive_solver.
Qed.

(** ** Setting up the witness database *)

(** Hashes of headers identify them: a header with the hash of one on the chain
    is that one, and none has the hash the first block names as its parent. *)
Definition headers_authentic (chain : u64 → option BlockHeader) (hs : list BlockHeader) : Prop :=
  ∀ a, a ∈ hs →
    (∀ n hd, chain n = Some hd → header_hash_slow a = header_hash_slow hd → a = hd) ∧
    (∀ hd, chain 0%N = Some hd → header_hash_slow a ≠ hd_parent_hash hd).

(** [current] is on the chain, [fs] is the state before it, and the hashes in
    the input are collision free with respect to [fs].  Nothing is assumed of
    what the input claims: a wrong witness is one that is rejected. *)
Record honest_hashes (fs : FullState) (i : ClientExecutorInput) : Prop := {
  honest_chain : chain_ok (fs_chain fs);
  honest_world : world_ok (fs_world fs);
  honest_current : fs_chain fs (hd_number (bk_header (current_block i))) = Some (bk_header (current_block i));
  honest_parent parent :
    fs_chain fs (hd_number (bk_header (current_block i)) - 1)%N = Some parent →
    hd_state_root parent = world_root (fs_world fs);
  honest_headers : headers_authentic (fs_chain fs) (ancestor_headers i);
  honest_codes code : code ∈ bytecodes i → fs_code fs (bytecode_hash_slow code) = Some code;
  honest_state : trusted (account_trie (fs_world fs)) (sb_state_trie (parent_state_bytes i)).2;
  honest_storage h n buf : (h, n, buf) ∈ sb_storage_tries (parent_state_bytes i) →
    byte_key 32 h ∧ trusted (slot_trie (slots (fs_world fs) h)) buf;
}.

Lemma linked_on_chain chain child rest :
  chain_ok chain → headers_authentic chain rest → chain (hd_number child) = Some child →
  linked (child :: rest) → ∀ a, a ∈ rest → chain (hd_number a) = Some a.
Proof.
  intros Hc. revert child. induction rest as [|parent rest IH]; intros child Hauth Hchild Hl a Ha.
  { by apply elem_of_nil in Ha. }
  destruct Hl as (Hn & Hh & Hl). destruct (Hauth parent (list_elem_of_here _ _)) as [Hinj Hgen].
  assert (chain (hd_number parent) = Some parent) as Hparent.
  { destruct (decide (hd_number child = 0%N)) as [Hz|Hz].
    - rewrite Hz in Hchild. by destruct (Hgen _ Hchild).
    - destruct (chain_parent _ Hc _ _ Hchild Hz) as (p & Hp & Hph).
      assert (parent = p) as -> by (apply (Hinj _ _ Hp); congruence).
      destruct (chain_number _ Hc _ _ Hchild) as [_ Hu]. rewrite Hn. unfold u64_pred, is_u64 in *.
      replace (hd_number child + 2 ^ 64 - 1)%N with (hd_number child - 1 + 1 * 2 ^ 64)%N by lia.
      by rewrite N.Div0.mod_add, N.mod_small by lia. }
  apply elem_of_cons in Ha as [->|Ha]; [done|].
  apply (IH parent); try done. intros x Hx. apply Hauth. by right.
Qed.

(** A block of the chain whose state before it is that of [fs]; nothing is known of
    the headers given with it but that hashes identify headers. *)
Record block_of_chain (fs : FullState) (current : BlockHeader) (ancestors : list BlockHeader) : Prop := {
  block_chain : chain_ok (fs_chain fs);
  block_current : fs_chain fs (hd_number current) = Some current;
  block_parent parent :
    fs_chain fs (hd_number current - 1)%N = Some parent → hd_state_root parent = world_root (fs_world fs);
  block_headers : headers_authentic (fs_chain fs) ancestors;
}.

Lemma honest_block fs i :
  honest_hashes fs i → block_of_chain fs (bk_header (current_block i)) (ancestor_headers i).
Proof. by intros []. Qed.

(** The first of the headers is the parent of the block. *)
Lemma parent_state_root fs current parent rest :
  block_of_chain fs current (parent :: rest) → linked (current :: parent :: rest) →
  hd_state_root parent = world_root (fs_world fs).
Proof.
  intros [Hc Hcur Hparent Hauth] Hl.
  pose proof (linked_on_chain _ _ _ Hc Hauth Hcur Hl parent (list_elem_of_here _ _)) as Hchain.
  destruct Hl as (Hn & Hph & _). apply Hparent.
  destruct (chain_number _ Hc _ _ Hcur) as [_ Hu].
  destruct (decide (hd_number current = 0%N)) as [Hz|Hz].
  - rewrite Hz in Hcur. destruct (Hauth parent (list_elem_of_here _ _)) as [_ Hgen].
    by destruct (Hgen _ Hcur).
  - rewrite <-Hchain, Hn. f_equal. unfold u64_pred, is_u64 in *.
    replace (hd_number current + 2 ^ 64 - 1)%N with (hd_number current - 1 + 1 * 2 ^ 64)%N by lia.
    by rewrite N.Div0.mod_add, N.mod_small by lia.
Qed.

Lemma block_hashes_true fs current ancestors capacity m :
  block_of_chain fs current ancestors → build_block_hashes (current :: ancestors) capacity = Ok m →
  linked (current :: ancestors) ∧
  ∀ n h, m !! n = Some h → header_hash_slow <$> fs_chain fs n = Some h.
Proof.
  intros [Hc Hcur _ Hauth] Hrun. unfold build_block_hashes in Hrun.
  pose proof (block_hashes_loop_spec current ancestors ∅) as Hspec.
  rewrite Hrun in Hspec. destruct Hspec as [Hl ->]. split; [done|].
  pose proof (linked_on_chain _ _ _ Hc Hauth Hcur Hl) as Hon. clear Hl Hrun Hauth.
  assert (∀ m : gmap u64 B256, (∀ n h, m !! n = Some h → header_hash_slow <$> fs_chain fs n = Some h) →
    ∀ n h, foldl insert_hash m ancestors !! n = Some h →
      header_hash_slow <$> fs_chain fs n = Some h) as Hgen; [|by apply Hgen].
  induction ancestors as [|a rest IH]; intros m Hm; [done|]. cbn. apply IH.
  - intros x Hx. apply Hon. by right.
  - intros n h. unfold insert_hash. destruct (decide (hd_number a = n)) as [<-|Hne].
    + rewrite lookup_insert_eq, Hon by left. by intros [= <-].
    + rewrite lookup_insert_ne by done. apply Hm.
Qed.

Lemma collect_bytecodes_true fs codes h code :
  (∀ c, c ∈ codes → fs_code fs (bytecode_hash_slow c) = Some c) →
  collect_bytecodes codes !! h = Some code → fs_code fs h = Some code.
Proof.
  unfold collect_bytecodes. intros Hcodes.
  assert (∀ m : gmap B256 Bytecode, (∀ h c, m !! h = Some c → fs_code fs h = Some c) →
    foldl (λ m c, <[bytecode_hash_slow c := c]> m) m codes !! h = Some code → fs_code fs h = Some code)
    as Hgen; [|by apply Hgen].
  induction codes as [|c codes IH]; intros m Hm; [by apply Hm|]. cbn. apply IH.
  - intros x Hx. apply Hcodes. by right.
  - intros h' c'. destruct (decide (bytecode_hash_slow c = h')) as [<-|Hne].
    + rewrite lookup_insert_eq. intros [= <-]. apply Hcodes. left.
    + rewrite lookup_insert_ne by done. apply Hm.
Qed.

Lemma map_err_ok {E F A} (f : E → F) (o : outcome E A) (a : A) : map_err f o = Ok a → o = Ok a.
Proof. by destruct o; cbn; intros [= ->]. Qed.

Lemma decode_checked_stands_for M buf k mm t :
  (∀ key, is_Some (M !! key) → byte_key 32 key) → trusted M buf →
  decode_checked buf k (map_root M) mm = Ok t → stands_for 32 t M.
Proof.
  intros Hkeys Htr. unfold decode_checked.
  destruct (decode_trie buf k) as [[t0 rest]| | |] eqn:Hd; try done. cbn.
  destruct (hash t0) as [[root| | |] t1] eqn:Hh; try done.
  case_decide as Hr; [done|]. subst root. intros [= <-].
  pose proof (decoded_stands_for 32 M buf k t0 rest t1 Hkeys Htr Hd Hh) as Hs.
  destruct (stands_for_hash _ _ _ Hs) as (t2 & Hh' & Hs' & _). rewrite Hh in Hh'. by injection Hh' as <-.
Qed.

Lemma build_storage_backs W st entries tries tries' :
  stands_for 32 st (account_trie W) → world_ok W →
  (∀ h n buf, (h, n, buf) ∈ entries → byte_key 32 h ∧ trusted (slot_trie (slots W h)) buf) →
  (∀ h t, tries !! h = Some t → stands_for 32 t (slot_trie (slots W h))) →
  build_storage_tries st entries tries = Ok tries' →
  ∀ h t, tries' !! h = Some t → stands_for 32 t (slot_trie (slots W h)).
Proof.
  intros Hst HW. revert tries. induction entries as [|[[h n] buf] entries IH];
    intros tries Hentries Htries Hrun; [by injection Hrun as <-|].
  cbn [build_storage_tries] in Hrun.
  destruct (map_err MptError (get_rlp st h)) as [account| | |] eqn:Hget; try done.
  cbn [mbind outcome_bind] in Hrun.
  destruct (decode_checked _ _ _ _) as [t| | |] eqn:Hdec; try done. cbn [mbind outcome_bind] in Hrun.
  destruct (Hentries h n buf) as [Hk Htr]; [left|].
  apply map_err_ok, (get_rlp_account st W h) in Hget as ->; [|done..].
  revert Hrun. apply IH.
  - intros h' n' buf' Hin. apply (Hentries h' n' buf'). by right.
  - intros h' t'. destruct (decide (h = h')) as [<-|Hne].
    + rewrite lookup_insert_eq. intros [= <-].
      eapply decode_checked_stands_for; [by apply slot_trie_keys|exact Htr|].
      destruct (accounts W !! h) as [a|] eqn:Ha.
      * rewrite (account_root _ HW _ _ Ha) in Hdec. exact Hdec.
      * rewrite (slots_absent _ HW _ Ha) in Htr |- *. exact Hdec.
    + rewrite lookup_insert_ne by done. apply Htries.
Qed.

Lemma build_input i iws : build i = Ok iws → input iws = i.
Proof.
  unfold build. destruct (sb_state_trie _) as [n buf].
  destruct (index _ _) as [p| | |]; try done. cbn [mbind outcome_bind].
  destruct (decode_checked _ _ _ _) as [st| | |]; try done. cbn [mbind outcome_bind].
  destruct (build_storage_tries _ _ _) as [tries| | |]; try done. by intros [= <-].
Qed.

(** What [build] accepted, once the headers are known to be the chain's. *)
Lemma build_backs fs i iws :
  honest_hashes fs i → linked (bk_header (current_block i) :: ancestor_headers i) →
  build i = Ok iws → backs (fs_world fs) (state iws).
Proof.
  intros Hh Hl Hrun. unfold build in Hrun. pose proof (honest_world _ _ Hh) as HW.
  pose proof (honest_state _ _ Hh) as Hstate. destruct (sb_state_trie _) as [n buf]. cbn [snd] in Hstate.
  unfold index in Hrun. destruct (ancestor_headers i !! 0) as [parent|] eqn:Hp; [|done].
  cbn [mbind outcome_bind] in Hrun.
  assert (hd_state_root parent = world_root (fs_world fs)) as Hroot.
  { pose proof (honest_block _ _ Hh) as Hblock. destruct (ancestor_headers i) as [|p rest]; [done|].
    injection Hp as ->. by eapply parent_state_root. }
  rewrite Hroot in Hrun. unfold world_root in Hrun.
  destruct (decode_checked _ _ _ _) as [st| | |] eqn:Hdec; try done. cbn [mbind outcome_bind] in Hrun.
  destruct (build_storage_tries _ _ _) as [tries| | |] eqn:Hst; try done. injection Hrun as <-.
  apply decode_checked_stands_for in Hdec; [|by apply account_trie_keys|done].
  split; [exact Hdec|]. cbn [storage_tries state].
  eapply (build_storage_backs _ st); [done|done| | |exact Hst].
  { intros h m b. apply (honest_storage _ _ Hh). }
  intros h t. by rewrite lookup_empty.
Qed.

Lemma hashes_true fs i capacity m :
  honest_hashes fs i →
  build_block_hashes (bk_header (current_block i) :: ancestor_headers i) capacity = Ok m →
  linked (bk_header (current_block i) :: ancestor_headers i) ∧
  ∀ n h, m !! n = Some h → header_hash_slow <$> fs_chain fs n = Some h.
Proof. intros Hh. apply block_hashes_true. by apply honest_block. Qed.

Lemma setup_truthful fs i iws hashes capacity :
  honest_hashes fs i → build i = Ok iws →
  build_block_hashes (bk_header (current_block i) :: ancestor_headers i) capacity = Ok hashes →
  truthful (new_witness_db (state iws) hashes (collect_bytecodes (bytecodes i))) fs.
Proof.
  intros Hh Hb Hr. destruct (hashes_true _ _ _ _ Hh Hr) as [Hl Hm]. split.
  - by eapply build_backs.
  - apply (honest_world _ _ Hh).
  - intros h code. apply collect_bytecodes_true. apply (honest_codes _ _ Hh).
  - exact Hm.
Qed.

Lemma witness_db_truthful fs i iws db :
  honest_hashes fs i → build i = Ok iws → witness_db iws = Ok db → truthful db fs.
Proof.
  intros Hh Hb Hdb. unfold witness_db, headers in Hdb. rewrite (build_input _ _ Hb) in Hdb.
  destruct (build_block_hashes _ _) as [m| | |] eqn:Hr; try done. injection Hdb as <-.
  by eapply setup_truthful.
Qed.

Lemma witness_db_recording_truthful fs i iws r db :
  honest_hashes fs i → build i = Ok iws → witness_db_recording iws r = Ok db → truthful db fs.
Proof.
  intros Hh Hb Hdb. unfold witness_db_recording, from_parts_recording, from_parts in Hdb.
  rewrite (build_input _ _ Hb) in Hdb.
  destruct (build_block_hashes _ _) as [m| | |] eqn:Hr; try done. injection Hdb as <-.
  eapply truthful_recorded; [| | |by eapply setup_truthful]; done.
Qed.

(** Queries do not change the full state. *)
Lemma full_run_state {A} (p : program A) fs : (run_program p fs).2 = fs.
Proof.
  induction p as [a|x k IH|x k IH|x y k IH|x k IH]; cbn [run_program]; try done;
    unfold mbind at 1, machine_bind at 1.
  - apply IH.
  - change (code_by_hash_ref x fs) with (unwrap (E:=ProviderError) (fs_code fs x), fs).
    destruct (unwrap _); [apply IH|done..].
  - apply IH.
  - change (block_hash_ref x fs) with
      (unwrap (E:=ProviderError) (header_hash_slow <$> fs_chain fs x), fs).
    destruct (unwrap _); [apply IH|done..].
Qed.

(** C8: Execution on a witness is execution on the full state: when [build] and
    [witness_db] accept an input, whatever program of database queries runs to
    its end on the witness ends with the same result on a node that has the
    whole state, code and chain.  The input may claim anything; only Keccak-256
    collisions are excluded. *)
Theorem witness_execution_is_full_execution {A} fs i iws db (p : program A) a db' :
  honest_hashes fs i → build i = Ok iws → witness_db iws = Ok db →
  run_program p db = (Ok a, db') → run_program p fs = (Ok a, fs).
Proof.
  intros Hh Hb Hdb Hrun.
  destruct (run_program_implements p db fs a db' (witness_db_truthful _ _ _ _ Hh Hb Hdb) Hrun)
    as (fs' & Hfull & _).
  pose proof (full_run_state p fs) as Hs. rewrite Hfull in Hs. cbn in Hs. by subst fs'.
Qed.
End spec.
