(* ===== verification/FromProof.v ===== *)
(** * The host's witness tries ([crates/mpt/src/from_proof.rs])

    An RPC provider proves each account and slot the block touches by the nodes
    on its path, before the block and after it.  The host collects the nodes by
    their hashes and resolves the roots with them.  A deletion can merge a node
    with the one below it, which no proof before the block has; the nodes that end
    the proofs of absence after the block are added in all their shortened forms. *)

From S2P Require Import Prelude External Node Hp Mpt Owned Evm State.

Section from_proof.
Context `{Crates}.

(** [HashMap<B256, MptOwned>] *)
Abbreviation NodeStore := (gmap B256 MptOwned).

(** [node.hash()], and the node with its caches filled. *)
Definition owned_hash (node : MptOwned) : outcome Error (B256 * MptOwned) :=
  let '(h, node') := hash node in h' ← h; Ok (h', node').

Definition parse_proof (proof : list bytes) : outcome Error (list MptOwned) :=
  mapM owned_decode_from_proof_rlp proof.

(** [for node in nodes { node_store.insert(node.hash(), node); }] *)
Fixpoint insert_nodes (nodes : list MptOwned) (node_store : NodeStore) : outcome Error NodeStore :=
  match nodes with
  | [] => Ok node_store
  | node :: nodes' =>
      '(h, node) ← owned_hash node;
      insert_nodes nodes' (<[h := node]> node_store)
  end.

Definition process_proof (proof : list bytes) (node_store : NodeStore)
  : outcome Error (option MptOwned * NodeStore) :=
  proof_nodes ← parse_proof proof;
  let root_node := head proof_nodes in
  node_store ← insert_nodes proof_nodes node_store;
  Ok (root_node, node_store).

(** ** Shortened paths *)

(** The node with the nibbles [shortened_nibs] for its path. *)
Definition shortened_node (node : MptOwned) (data : NodeData) (shortened_nibs : bytes)
  : outcome Error MptOwned :=
  match data with
  | Leaf _ value =>
      path ← to_encoded_path shortened_nibs true;
      ((m ← get_state; set_node (root_id m) (Leaf path value);; get_state) owned_default).1
  | Extension _ child_id =>
      path ← to_encoded_path shortened_nibs false;
      new_node ← from_trie node;
      ((m ← get_state; set_node (root_id m) (Extension path child_id);; get_state) new_node).1
  | _ => Panic Unreachable
  end.

Definition shorten_node_path (node : MptOwned) : outcome Error (list MptOwned) :=
  data ← unwrap (get_node node (root_id node));
  match data with
  | Leaf prefix _ | Extension prefix _ =>
      let nibs := prefix_to_nibs prefix in
      mapM (λ i, shortened_node node data (drop i nibs)) (seq 0 (S (length nibs)))
  | _ => Ok []
  end.

(** ** Resolving nodes *)

(** [fuel] is the depth of the recursion: a store can have nodes that resolve to
    each other in a circle. *)
Fixpoint resolve_nodes_internal (fuel : nat) (node_store : NodeStore) (cur_trie : MptOwned)
    (node_id : NodeId) : machine MptOwned Error NodeId :=
  match fuel with
  | 0 => lift OutOfFuel
  | S fuel' =>
      cur_data ← lift (unwrap (get_node cur_trie node_id));
      match cur_data with
      | Null => owned_add_node Null
      | Leaf prefix value => owned_add_node (Leaf prefix value)
      | Branch childs =>
          resolved_children ← mapM (λ child, match child with
            | Some child_id =>
                resolved ← resolve_nodes_internal fuel' node_store cur_trie child_id;
                mret (Some resolved)
            | None => mret None
            end) childs;
          owned_add_node (Branch resolved_children)
      | Extension prefix child_id =>
          resolved_child_id ← resolve_nodes_internal fuel' node_store cur_trie child_id;
          owned_add_node (Extension prefix resolved_child_id)
      | Digest digest =>
          d ← lift (from_slice digest);
          match node_store !! d with
          | Some trie => resolve_nodes_internal fuel' node_store trie (root_id trie)
          | None => owned_add_node (Digest digest)
          end
      end
  end.

(** The assertion of debug builds, that the root hash is the same, is left out. *)
Definition resolve_nodes (fuel : nat) (root : MptOwned) (node_store : NodeStore)
  : outcome Error MptOwned :=
  match resolve_nodes_internal fuel node_store root (root_id root) owned_default with
  | (Ok root_id, new_trie) => Ok (set_root_id root_id new_trie)
  | (Err e, _) => Err e
  | (Panic p, _) => Panic p
  | (OutOfFuel, _) => OutOfFuel
  end.

Definition mpt_from_proof (fuel : nat) (proof_nodes : list MptOwned) : outcome Error MptOwned :=
  match proof_nodes with
  | [] => Ok owned_default
  | root_node :: _ =>
      node_store ← insert_nodes proof_nodes ∅;
      resolve_nodes fuel root_node node_store
  end.

Definition is_not_included (fuel : nat) (key : bytes) (proof_nodes : list MptOwned)
  : outcome Error bool :=
  proof_trie ← mpt_from_proof fuel proof_nodes;
  value ← get proof_trie key;
  Ok (bool_decide (value = None)).

Definition add_orphaned_leafs (fuel : nat) (key : bytes) (proof : list bytes) (node_store : NodeStore)
  : outcome Error NodeStore :=
  match proof with
  | [] => Ok node_store
  | _ =>
      proof_nodes ← parse_proof proof;
      absent ← is_not_included fuel (keccak256 key) proof_nodes;
      if (absent : bool) then
        node ← unwrap (last proof_nodes);
        shortened ← shorten_node_path node;
        insert_nodes shortened node_store
      else Ok node_store
  end.

Definition B256_ZERO : B256 := replicate 32 0%N.

Definition node_from_digest (digest : B256) : outcome Error MptOwned :=
  if decide (digest = EMPTY_ROOT_HASH ∨ digest = B256_ZERO) then Ok owned_default
  else ((m ← get_state; set_node (root_id m) (Digest digest);; get_state) owned_default).1.

(** ** Proofs of accounts and slots *)

(** [reth_trie::StorageProof], [reth_trie::AccountProof] and its [Account]; of a
    storage proof, the fields the program sets. *)
Record StorageProof : Type := mkStorageProof {
  sp_key : B256;
  sp_value : U256;
  sp_proof : list bytes;
}.
Record Account : Type := mkAccount {
  ac_nonce : u64;
  ac_balance : U256;
  ac_bytecode_hash : option B256;
}.
Record AccountProof : Type := mkAccountProof {
  ap_address : Address;
  ap_info : option Account;
  ap_proof : list bytes;
  ap_storage_root : B256;
  ap_storage_proofs : list StorageProof;
}.

(** [for storage_proof in &proof.storage_proofs]: the last root stays. *)
Fixpoint process_storage_proofs (proofs : list StorageProof) (storage_nodes : NodeStore)
    (storage_root_node : MptOwned) : outcome Error (NodeStore * MptOwned) :=
  match proofs with
  | [] => Ok (storage_nodes, storage_root_node)
  | storage_proof :: proofs' =>
      '(root, storage_nodes) ← process_proof (sp_proof storage_proof) storage_nodes;
      process_storage_proofs proofs' storage_nodes (default storage_root_node root)
  end.

(** [for storage_proof in &fini_proofs.storage_proofs] *)
Fixpoint add_storage_orphans (fuel : nat) (proofs : list StorageProof) (storage_nodes : NodeStore)
  : outcome Error NodeStore :=
  match proofs with
  | [] => Ok storage_nodes
  | storage_proof :: proofs' =>
      storage_nodes ← add_orphaned_leafs fuel (sp_key storage_proof) (sp_proof storage_proof) storage_nodes;
      add_storage_orphans fuel proofs' storage_nodes
  end.

Definition build_storage_trie (fuel : nat) (proof fini_proofs : AccountProof) : outcome Error MptOwned :=
  match ap_storage_proofs proof with
  | [] => node_from_digest (ap_storage_root proof)
  | _ =>
      '(storage_nodes, storage_root_node) ←
        process_storage_proofs (ap_storage_proofs proof) ∅ owned_default;
      storage_nodes ← add_storage_orphans fuel (ap_storage_proofs fini_proofs) storage_nodes;
      resolve_nodes fuel storage_root_node storage_nodes
  end.

(** [for (address, proof) in parent_proofs], in iteration order. *)
Fixpoint process_accounts (fuel : nat) (proofs : gmap Address AccountProof)
    (parent_proofs : list (Address * AccountProof)) (state_nodes : NodeStore)
    (state_root_node : MptOwned) (storage_tries : gmap B256 Mpt)
  : outcome Error (NodeStore * MptOwned * gmap B256 Mpt) :=
  match parent_proofs with
  | [] => Ok (state_nodes, state_root_node, storage_tries)
  | (address, proof) :: parent_proofs' =>
      '(root, state_nodes) ← process_proof (ap_proof proof) state_nodes;
      fini_proofs ← unwrap (proofs !! address);
      state_nodes ← add_orphaned_leafs fuel address (ap_proof fini_proofs) state_nodes;
      storage_trie ← build_storage_trie fuel proof fini_proofs;
      process_accounts fuel proofs parent_proofs' state_nodes (default state_root_node root)
        (<[keccak256 address := storage_trie]> storage_tries)
  end.

(** [parent_proofs] is a hash map, given by its entries in iteration order. *)
Definition transition_proofs_to_tries (fuel : nat) (state_root : B256)
    (parent_proofs : list (Address * AccountProof)) (proofs : gmap Address AccountProof)
  : outcome Error EthereumState :=
  match parent_proofs with
  | [] =>
      state_trie ← node_from_digest state_root;
      Ok (mkEthereumState state_trie ∅)
  | _ =>
      '(state_nodes, state_root_node, storage_tries) ←
        process_accounts fuel proofs parent_proofs ∅ owned_default ∅;
      state_trie ← resolve_nodes fuel state_root_node state_nodes;
      Ok (mkEthereumState state_trie storage_tries)
  end.
End from_proof.
