(* ===== verification/ResolveSpec.v ===== *)
(** * Resolving nodes gives the part of the trie that is in the store

    [resolve_nodes] from a node of a trie, with a store in which the trie's own
    digests lead to the trie's own nodes, ends within a recursion depth given by
    the height, and what it gives is [expand]. *)

From S2P Require Import Prelude External Node Hp Mpt Trie TrieLaws TrieHash MptRefine MptHash MptSpec.
From S2P Require Import View Codec CodecLaws Decode Owned Growth Expand ProofNodes Evm State FromProof.

Section resolve.
Context `{CratesOk}.

(** [subtrie u t]: [u] is [t], or a node below it. *)
Inductive subtrie (u : trie) : trie → Prop :=
  | subtrie_refl : subtrie u u
  | subtrie_extension path c : subtrie u c → subtrie u (TExtension path c)
  | subtrie_slot cs i c : cs !! i = Some (Some c) → subtrie u c → subtrie u (TBranch cs).

Lemma subtrie_trans u v t : subtrie u v → subtrie v t → subtrie u t.
Proof. intros Huv Hvt. induction Hvt; [done|by constructor|by eapply subtrie_slot]. Qed.

Lemma subtrie_encodings u t : subtrie u t → trie_rlp u ∈ encodings t.
Proof.
  induction 1 as [|path c _ IH|cs i c Hi _ IH]; [apply encodings_self|by right|].
  right. apply list_elem_of_In, in_concat. exists (encodings c). split; [|by apply list_elem_of_In].
  apply in_map_iff. exists (Some c). split; [done|]. apply list_elem_of_In. by eapply list_elem_of_lookup_2.
Qed.

Lemma known_subtrie u t : subtrie u t → known t → known u.
Proof.
  induction 1 as [|path c _ IH|cs i c Hi _ IH]; intros Hk; [done| |].
  - apply IH. destruct Hk as (Hct & Hr & Hs). inversion Hct; subst.
    by eapply known_extension.
  - apply IH. by eapply known_slot.
Qed.

(** Which digests the store has a node for. *)
Definition has_node {A} (store : gmap B256 A) (d : bytes) : bool := bool_decide (is_Some (store !! d)).

(** The digests of [T]'s nodes lead to these nodes, or nowhere. *)
Definition serves (store : gmap B256 MptOwned) (T : trie) : Prop :=
  ∀ u d m, subtrie u T → digest_of u = Some d → store !! d = Some m → models m (shallow u).

Lemma serves_subtrie store u T : subtrie u T → serves store T → serves store u.
Proof. intros Hu Hs v d m Hv. apply Hs. by eapply subtrie_trans. Qed.

Lemma get_node_root m a : represents m a → get_node m (root a) = Some (data a).
Proof. intros Hr. by destruct (represents_root _ _ Hr) as [Hs _]. Qed.

(** [resolve_nodes_internal] adds the tree [t] when it is called on [node_id]. *)
Definition resolves_to (fuel : nat) (store : gmap B256 MptOwned) (cur : MptOwned) (id : NodeId) (t : trie)
  : Prop :=
  ∀ m, room_for (trie_size t) m →
  ∃ m' a, resolve_nodes_internal fuel store cur id m = (Ok (root a), m') ∧ erase a = t ∧ grown m m' a.

Lemma resolves_slot fuel store cur id t :
  resolves_to fuel store cur id t →
  adds (resolved ← resolve_nodes_internal fuel store cur id; mret (Some resolved)) (Some t).
Proof.
  intros Ht m Hready. destruct (Ht m Hready) as (m' & a & Hrun & He & Hg).
  exists m', a. by erewrite machine_bind_ok by exact Hrun.
Qed.

Lemma erase_digest_inv a d : erase a = TDigest d → data a = Digest d.
Proof. destruct a; cbn; try done. by intros [= ->]. Qed.

(** A digest the store has no node for stays a digest. *)
Lemma resolves_missing fuel store cur id d :
  length d = 32 → get_node cur id = Some (Digest d) → store !! d = None →
  resolves_to (S fuel) store cur id (TDigest d).
Proof.
  intros Hd Hn Hs m Hready. cbn [resolve_nodes_internal]. rewrite Hn. cbn [unwrap]. exec.
  rewrite from_slice_ok by done. exec. rewrite Hs.
  destruct (grown_leaf (Digest d) (ADigest (num_nodes m) d) m) as [Hadd Hg]; [done..|].
  by eexists _, (ADigest (num_nodes m) d).
Qed.

Lemma resolves_found fuel store cur id d m0 t :
  length d = 32 → get_node cur id = Some (Digest d) → store !! d = Some m0 →
  resolves_to fuel store m0 (root_id m0) t → resolves_to (S fuel) store cur id t.
Proof.
  intros Hd Hn Hs Ht m Hready. cbn [resolve_nodes_internal]. rewrite Hn. cbn [unwrap]. exec.
  rewrite from_slice_ok by done. exec. rewrite Hs. by apply Ht.
Qed.

Lemma known_digest_length c d : known c → trie_ref c = DigestRef d → length d = 32.
Proof. intros (Hct & _) Hr. by eapply trie_ref_digest_length; [apply canonical_wf|]. Qed.

(** A child is resolved where it stands, or through the store. *)
Lemma resolves_child fuel store T cur ac c :
  serves store T → subtrie c T → known c →
  represents cur ac → erase ac = reach (λ _, false) shallow c →
  2 * height c ≤ fuel →
  (∀ fuel' cur' a', represents cur' a' → erase a' = shallow c → 2 * height c ≤ S fuel' →
     resolves_to fuel' store cur' (root a') (expand (has_node store) c)) →
  resolves_to fuel store cur (root ac) (reach (has_node store) (expand (has_node store)) c).
Proof.
  intros Hserve Hsub Hk Hrep He Hf Hc. unfold reach in *.
  destruct (trie_ref c) as [s|d] eqn:Hr; [apply Hc; [done|done|lia]|].
  pose proof (known_digest_length _ _ Hk Hr) as Hd.
  pose proof (get_node_root _ _ Hrep) as Hn. rewrite (erase_digest_inv _ _ He) in Hn.
  pose proof (height_pos c). destruct fuel as [|fuel]; [lia|].
  unfold has_node. case_bool_decide as Hin.
  - destruct Hin as [m0 Hm0]. eapply resolves_found; [done..|].
    destruct (Hserve c d m0 Hsub) as (a0 & Hr0 & <- & He0 & _); [by unfold digest_of; rewrite Hr|done|].
    apply Hc; [done..|lia].
  - apply eq_None_not_Some in Hin. by eapply resolves_missing.
Qed.

Lemma resolves_node store T u :
  serves store T → subtrie u T → known u →
  ∀ fuel cur a, represents cur a → erase a = shallow u → 2 * height u ≤ S fuel →
  resolves_to fuel store cur (root a) (expand (has_node store) u).
Proof.
  intros Hserve. induction u as [|d|path v|path c IH|cs IH] using trie_nested_ind;
    intros Hsub Hk fuel cur a Hrep He Hf; try (by apply known_list_node in Hk);
    pose proof (get_node_root _ _ Hrep) as Hn; cbn [height] in Hf;
    (destruct fuel as [|fuel]; [lia|]); intros m Hready; cbn [resolve_nodes_internal]; rewrite Hn;
    cbn [unwrap]; exec.
  - destruct a as [| |id path' v'| |]; try done. injection He as -> ->. cbn [data].
    destruct (grown_leaf (Leaf path v) (ALeaf (num_nodes m) path v) m) as [Hadd Hg]; [done..|].
    by eexists _, (ALeaf (num_nodes m) path v).
  - destruct a as [| | |id path' ac|]; try done. injection He as -> He. cbn [data].
    assert (subtrie c T) as Hsubc by (by eapply subtrie_trans; [|exact Hsub]; constructor; constructor).
    assert (known c) as Hkc.
    { eapply known_subtrie; [|exact Hk]. constructor. constructor. }
    destruct (resolves_child fuel store T cur ac c) with (m := m) as (m' & a & Hrun & Hea & Hg);
      [done|done|done|by eapply represents_extension|done|lia|by intros; apply IH|
       by eapply room_for_weaken; [|done]; cbn; lia|].
    erewrite machine_bind_ok by exact Hrun.
    destruct (grown_extension m m' path a None Hg) as [Hr' Hg']; [by rewrite Hea|done|].
    rewrite owned_add_push by (destruct Hr'; lia).
    eexists _, (AExtension (num_nodes m') path a). split_and!; [done| |done]. cbn. by rewrite Hea.
  - destruct a as [| | | |id acs]; try done. rewrite erase_branch, shallow_branch in He. injection He as He.
    cbn [data]. rewrite expand_branch in Hready |- *.
    match goal with |- context [mapM ?f _] => set (step := f) end.
    destruct (mapM_adds step (option_map root <$> acs)
      (option_map (reach (has_node store) (expand (has_node store))) <$> cs) m) as (m' & acs' & Hrun & He' & Hg).
    { apply Forall2_fmap, Forall2_same_length_lookup_2.
      { apply (f_equal length) in He. by rewrite !length_fmap in He. }
      intros i o o' Hi Hi'. apply (f_equal (.!! i)) in He. rewrite !list_lookup_fmap, Hi, Hi' in He.
      injection He as He. destruct o as [ac|], o' as [c|]; cbn in He; try done.
      injection He as He. apply resolves_slot. pose proof (height_child _ _ _ Hi') as Hh. cbn [height] in Hh.
      apply (resolves_child fuel store T); [done| | |by eapply represents_child|done|lia|].
      + eapply subtrie_trans; [|exact Hsub]. eapply subtrie_slot; [done|constructor].
      + by eapply known_slot.
      + intros. eapply IH; try done.
        * eapply subtrie_trans; [|exact Hsub]. eapply subtrie_slot; [done|constructor].
        * by eapply known_slot. }
    { by eapply room_for_weaken; [|done]; rewrite trie_size_branch; lia. }
    erewrite machine_bind_ok by exact Hrun. rewrite trie_size_branch, <-He' in Hready.
    destruct (grown_branch m m' acs' None Hg Hready) as [Hr' Hg']; [done|].
    rewrite owned_add_push by (destruct Hr'; lia).
    eexists _, (ABranch (num_nodes m') acs'). split_and!; [done| |done].
    by rewrite erase_branch, He'.
Qed.

Lemma resolve_nodes_spec fuel store T m :
  serves store T → known T → indexable T → 2 * height T ≤ S fuel → models m (shallow T) →
  ∃ m', resolve_nodes fuel m store = Ok m' ∧ models m' (expand (has_node store) T).
Proof.
  intros Hs Hk Hi Hf (a & Hrep & Hroot & He & _). pose proof (expand_size (has_node store) T).
  destruct (resolves_node store T T Hs ltac:(constructor) Hk fuel m a) with (m := new)
    as (m' & a' & Hrun & He' & Hg); [done..| |].
  { apply room_for_new. unfold indexable in Hi. lia. }
  exists (set_root_id (root a') m'). unfold resolve_nodes. rewrite <-Hroot.
  change owned_default with new. rewrite Hrun. split; [done|]. rewrite <-He'.
  eapply grown_models; [done|by split|]. rewrite He'.
  apply proper_wf, proper_expand, canonical_proper, Hk.
Qed.
End resolve.
