(* ===== verification/ProofStore.v ===== *)
(** * Merkle proofs and the stores built from them

    [proof_of T key] is what [eth_getProof] returns for a key: the encodings of
    the nodes on its path that stand in their parents by their hashes, the root
    first.  The host collects such nodes by hash; here: what is in its stores. *)

From S2P Require Import Prelude External Node Hp Mpt Trie TrieLaws TrieHash MptRefine MptHash MptSpec.
From S2P Require Import View Codec CodecLaws Decode Owned Growth Expand ProofNodes Evm State FromProof ResolveSpec.

Lemma Forall2_last {A B} (R : A → B → Prop) l k :
  Forall2 R l k → k ≠ [] → ∃ x y, last l = Some x ∧ last k = Some y ∧ R x y.
Proof.
  induction 1 as [|x y l k Hxy Hall IH]; [done|]. intros _. destruct Hall as [|x' y' l k Hxy' Hall].
  - by exists x, y.
  - destruct IH as (u & v & ? & ? & ?); [done|]. by exists u, v.
Qed.

Section store.
Context `{CratesOk}.

#[local] Instance digest_of_dec (c : trie) : Decision (is_Some (digest_of c)).
Proof. apply is_Some_dec. Defined.

(** The nodes of the proof of a key. *)
Definition proof_nodes (T : trie) (key : bytes) : list trie :=
  match T with
  | TNull => []
  | _ => T :: filter (λ c, is_Some (digest_of c)) (path_below T key)
  end.

Definition proof_of (T : trie) (key : bytes) : list bytes := trie_rlp <$> proof_nodes T key.

(** Providers prove a key of the empty trie by nothing or by its null node. *)
Definition proves (T : trie) (key : bytes) (proof : list bytes) : Prop :=
  proof = proof_of T key ∨ (T = TNull ∧ proof = [[EMPTY_STRING_CODE]]).

(** A trie that is there in full. *)
Definition full (T : trie) : Prop := T = TNull ∨ known T.

(** The store has the node [u], whose encoding is in [pool], at its hash. *)
Definition entry_of (pool : list bytes) (d : B256) (m : MptOwned) : Prop :=
  d = keccak256 [EMPTY_STRING_CODE] ∨
  ∃ u, proper u ∧ sized u ∧ is_list_node u = true ∧ models m (shallow u) ∧
    d = keccak256 (trie_rlp u) ∧ trie_rlp u ∈ pool.

Definition entries (pool : list bytes) (store : gmap B256 MptOwned) : Prop :=
  ∀ d m, store !! d = Some m → entry_of pool d m.

(** Nothing in the pool has the hash of a different node of [T]. *)
Definition no_clash (pool : list bytes) (T : trie) : Prop :=
  ∀ x y, x ∈ [EMPTY_STRING_CODE] :: pool → y ∈ encodings T → keccak256 x = keccak256 y → x = y.

Definition covers (store store' : gmap B256 MptOwned) : Prop :=
  ∀ d, is_Some (store !! d) → is_Some (store' !! d).

Lemma covers_refl store : covers store store.
Proof. by intros d. Qed.

Lemma covers_trans s1 s2 s3 : covers s1 s2 → covers s2 s3 → covers s1 s3.
Proof. intros H12 H23 d Hd. auto. Qed.

Lemma list_node_hash u : is_list_node u = true → trie_hash u = keccak256 (trie_rlp u).
Proof.
  intros Hl. unfold trie_hash, trie_ref, reference_with. destruct u; cbn in Hl; try done; by case_decide.
Qed.

Lemma known_not_null_rlp T u : known T → subtrie u T → trie_rlp u ≠ [EMPTY_STRING_CODE].
Proof.
  intros Hk Hu. apply (known_subtrie _ _ Hu) in Hk as Hku. pose proof (known_list_node _ Hku) as Hl.
  rewrite rlp_of_list_node by done. apply list_rlp_not_null, sized_payload, Hku.
Qed.

Lemma digest_of_known u d : known u → digest_of u = Some d → d = keccak256 (trie_rlp u).
Proof.
  intros Hk Hd. apply known_list_node in Hk. unfold digest_of in Hd.
  destruct (trie_ref u) eqn:Hr; [done|]. injection Hd as ->. by apply list_node_digest.
Qed.

Lemma entries_serve pool store T : entries pool store → no_clash pool T → known T → serves store T.
Proof.
  intros Hent Hclash Hk u d m Hu Hd Hm. pose proof (known_subtrie _ _ Hu Hk) as Hku.
  apply digest_of_known in Hd as ->; [|done]. pose proof (subtrie_encodings _ _ Hu) as Henc.
  destruct (Hent _ _ Hm) as [Heq|(v & Hpv & Hsv & Hlv & Hmv & Heq & Hin)].
  - exfalso. apply (known_not_null_rlp T u Hk Hu). symmetry. apply Hclash; [left|done|done].
  - assert (trie_rlp v = trie_rlp u) as Hrlp by (apply Hclash; [by right|done|done]).
    rewrite <-(same_rlp_shallow v u); [done|done|apply canonical_proper, Hku|done|apply Hku|done| |done].
    by apply known_list_node.
Qed.

Lemma entries_empty pool : entries pool ∅.
Proof. intros d m. by rewrite lookup_empty. Qed.

(** ** Inserting nodes *)

(** An arena with the node [u] alone. *)
Record node_alone (m : MptOwned) (u : trie) : Prop := {
  alone_models : models m (shallow u);
  alone_proper : proper u;
  alone_sized : sized u;
  alone_list : is_list_node u = true;
}.

Lemma insert_nodes_spec pool ms us store :
  Forall2 node_alone ms us → (∀ u, u ∈ us → trie_rlp u ∈ pool) → entries pool store →
  ∃ store', insert_nodes ms store = Ok store' ∧ entries pool store' ∧ covers store store' ∧
    (∀ u, u ∈ us → is_Some (store' !! keccak256 (trie_rlp u))).
Proof.
  intros Hall. revert store. induction Hall as [|m u ms us [Hm Hp Hs Hl] Hall IH]; intros store Hpool Hent.
  { exists store. split_and!; [done|done|apply covers_refl|by intros ? ?%elem_of_nil]. }
  cbn [insert_nodes]. unfold owned_hash. destruct (models_hash _ _ Hm) as (m' & -> & Hm' & _).
  assert (trie_hash (shallow u) = keccak256 (trie_rlp u)) as Hh.
  { rewrite <-list_node_hash by done. apply view_hash, expand_view. }
  cbn [mbind outcome_bind]. rewrite Hh.
  destruct (IH (<[keccak256 (trie_rlp u) := m']> store)) as (store' & Hrun & Hent' & Hcov & Hin).
  - intros v Hv. apply Hpool. by right.
  - intros d m0 [[<- <-]|[_ Hd]]%lookup_insert_Some; [|by apply Hent].
    right. exists u. split_and!; try done. apply Hpool. left.
  - assert (covers store (<[keccak256 (trie_rlp u) := m']> store)) as Hcov0.
    { intros d Hd. destruct (decide (keccak256 (trie_rlp u) = d)) as [<-|Hne];
        [rewrite lookup_insert_eq; by eexists|by rewrite lookup_insert_ne]. }
    exists store'. split_and!; [done|done|by eapply covers_trans|].
    intros v [->|Hv]%elem_of_cons; [|by apply Hin]. apply Hcov. rewrite lookup_insert_eq. by eexists.
Qed.

(** ** Honest proofs *)

Lemma path_below_subtrie T key c : c ∈ path_below T key → subtrie c T.
Proof.
  revert key. induction T as [|d|path v|path c' IH|cs IH] using trie_nested_ind; intros key Hin;
    cbn [path_below] in Hin; try by apply elem_of_nil in Hin.
  - destruct (strip_prefix _ key) as [tail|]; [|by apply elem_of_nil in Hin].
    apply elem_of_cons in Hin as [->|Hin]; constructor; [constructor|by eapply IH].
  - destruct key as [|i tail]; [by apply elem_of_nil in Hin|].
    change (c ∈ path_below (TBranch cs) (i :: tail)) in Hin. rewrite path_below_branch in Hin.
    destruct (cs !! N.to_nat i) as [[c'|]|] eqn:Hi; try by apply elem_of_nil in Hin.
    apply elem_of_cons in Hin as [->|Hin]; eapply subtrie_slot; [done|constructor|done|by eapply IH].
Qed.

Lemma proof_nodes_subtrie T key u : u ∈ proof_nodes T key → subtrie u T.
Proof.
  intros Hin. assert (u ∈ T :: filter (λ c, is_Some (digest_of c)) (path_below T key)) as Hu.
  { destruct T; [by apply elem_of_nil in Hin|done..]. }
  apply elem_of_cons in Hu as [->|[_ Hu]%list_elem_of_filter]; [constructor|by eapply path_below_subtrie].
Qed.

Lemma subtrie_size u T : subtrie u T → trie_size u ≤ trie_size T.
Proof.
  induction 1 as [|path c _ IH|cs i c Hi _ IH]; [done|cbn; lia|]. rewrite trie_size_branch.
  assert (trie_size c ≤ slots_size cs); [|lia]. unfold slots_size.
  apply (sum_list_with_in (trie_size c) id), list_elem_of_fmap. exists (Some c).
  split; [done|]. by eapply list_elem_of_lookup_2.
Qed.

Lemma parse_proof_known T key :
  known T → indexable T →
  ∃ ms, parse_proof (proof_of T key) = Ok ms ∧ Forall2 node_alone ms (proof_nodes T key) ∧
    (∀ m, m ∈ ms → num_nodes m ≤ S (trie_size T)).
Proof.
  intros Hk Hi. unfold proof_of. pose proof (proof_nodes_subtrie T key) as Hsub.
  induction (proof_nodes T key) as [|u us IH].
  { exists []. split_and!; [done|constructor|by intros ? ?%elem_of_nil]. }
  destruct IH as (ms & Hrun & Hall & Hn); [intros v Hv; apply Hsub; by right|].
  assert (subtrie u T) as Hu by (apply Hsub; left). pose proof (known_subtrie _ _ Hu Hk) as Hku.
  pose proof (subtrie_size _ _ Hu) as Hsz. pose proof (known_list_node _ Hku) as Hl.
  destruct (owned_decode_node u []) as (m & Hm & Hmu & Hnu);
    [apply canonical_proper, Hku|apply Hku|done|unfold indexable in *; lia|].
  rewrite app_nil_r in Hm. exists (m :: ms). unfold parse_proof in *. cbn [fmap list_fmap mapM].
  rewrite Hm. cbn [mbind outcome_bind]. rewrite Hrun. split_and!; [done| |].
  - constructor; [|done]. split; [done|apply canonical_proper, Hku|apply Hku|done].
  - intros m' [->|Hm']%elem_of_cons; [lia|by apply Hn].
Qed.

Lemma proof_nodes_known T key :
  known T → proof_nodes T key = T :: filter (λ c, is_Some (digest_of c)) (path_below T key).
Proof. intros Hk. apply known_list_node in Hk. by destruct T. Qed.

Lemma proof_of_encodings T key : proof_of T key ⊆ encodings T.
Proof.
  intros x (u & -> & Hu)%list_elem_of_fmap. apply subtrie_encodings. by eapply proof_nodes_subtrie.
Qed.

(** The digests on the path are those of the proof's nodes. *)
Lemma path_digests_covered (T : trie) (key : bytes) (store : gmap B256 MptOwned) :
  known T → (∀ u, u ∈ proof_nodes T key → is_Some (store !! keccak256 (trie_rlp u))) →
  ∀ d, d ∈ path_digests T key → is_Some (store !! d).
Proof.
  intros Hk Hin d (c & Hc & Hd)%list_elem_of_omap.
  pose proof (known_subtrie _ _ (path_below_subtrie _ _ _ Hc) Hk) as Hkc.
  rewrite (digest_of_known c d Hkc Hd). apply Hin. rewrite proof_nodes_known by done.
  right. apply list_elem_of_filter. split; [by eexists|done].
Qed.

(** ** Collecting a proof *)

(** The store has what a lookup of [key] in [T] needs. *)
Definition path_stored (T : trie) (store : gmap B256 MptOwned) (key : bytes) : Prop :=
  ∀ d, d ∈ path_digests T key → is_Some (store !! d).

Lemma path_stored_covers T store store' key :
  covers store store' → path_stored T store key → path_stored T store' key.
Proof. intros Hc Hs d Hd. auto. Qed.

Lemma process_proof_spec pool T key proof store :
  full T → indexable T → proves T key proof → proof_of T key ⊆ pool → entries pool store →
  ∃ o store', process_proof proof store = Ok (o, store') ∧
    (∀ root, o = Some root → models root (shallow T)) ∧ (T ≠ TNull → is_Some o) ∧
    entries pool store' ∧ covers store store' ∧ path_stored T store' key.
Proof.
  intros Hfull Hi Hp Hpool Hent. destruct Hfull as [->|Hk].
  - destruct Hp as [->|[_ ->]].
    + exists None, store. split_and!; try done; [apply covers_refl|by intros d ?%elem_of_nil].
    + unfold process_proof, parse_proof. cbn [mapM]. rewrite owned_decode_null. cbn [mbind outcome_bind mret outcome_ret head].
      cbn [insert_nodes]. unfold owned_hash.
      destruct (models_hash _ _ models_new) as (m' & -> & Hm' & _). cbn [mbind outcome_bind].
      eexists _, _. split; [done|]. split_and!; [|done| | |].
      * intros root [= <-]. apply models_new.
      * intros d m [[<- <-]|[_ Hd]]%lookup_insert_Some; [|by apply Hent].
        left. cbn. apply EMPTY_ROOT_HASH_value.
      * intros d Hd. destruct (decide (trie_hash TNull = d)) as [<-|Hne];
          [rewrite lookup_insert_eq; by eexists|by rewrite lookup_insert_ne].
      * by intros d ?%elem_of_nil.
  - destruct Hp as [->|[-> _]]; [|apply known_list_node in Hk; done].
    unfold process_proof. destruct (parse_proof_known T key Hk Hi) as (ms & -> & Hall & _).
    cbn [mbind outcome_bind].
    destruct (insert_nodes_spec pool ms (proof_nodes T key) store) as (store' & -> & Hent' & Hcov & Hin);
      [done| |done|].
    { intros u Hu. by apply Hpool, list_elem_of_fmap_2. }
    cbn [mbind outcome_bind]. eexists _, store'. split; [done|].
    rewrite proof_nodes_known in Hall by done. inversion Hall as [|m0 ? ms' ? Hm0 _]; subst.
    split_and!; [|by eexists|done|done|].
    + intros root [= <-]. apply Hm0.
    + exact (path_digests_covered T key store' Hk Hin).
Qed.

Lemma process_proof_known pool T key proof store :
  known T → indexable T → proves T key proof → proof_of T key ⊆ pool → entries pool store →
  ∃ ms store', parse_proof proof = Ok ms ∧ insert_nodes ms store = Ok store' ∧
    Forall2 node_alone ms (proof_nodes T key) ∧ (∀ m, m ∈ ms → num_nodes m ≤ S (trie_size T)) ∧
    entries pool store' ∧ path_stored T store' key.
Proof.
  intros Hk Hi Hp Hpool Hent. destruct Hp as [->|[-> _]]; [|apply known_list_node in Hk; done].
  destruct (parse_proof_known T key Hk Hi) as (ms & Hrun & Hall & Hn). exists ms.
  destruct (insert_nodes_spec pool ms (proof_nodes T key) store) as (store' & Hins & Hent' & _ & Hin);
    [done| |done|].
  { intros u Hu. by apply Hpool, list_elem_of_fmap_2. }
  exists store'. split_and!; try done. exact (path_digests_covered T key store' Hk Hin).
Qed.

(** What is resolved from the collected nodes views the trie, and has the paths. *)
Lemma resolve_root_spec pool fuel T store root :
  full T → indexable T → 2 * height T ≤ S fuel → entries pool store → no_clash pool T →
  models root (shallow T) →
  ∃ m, resolve_nodes fuel root store = Ok m ∧ models m (expand (has_node store) T).
Proof.
  intros [->|Hk] Hi Hf Hent Hclash Hroot.
  - destruct Hroot as (a & Hrep & Hra & He & _). unfold resolve_nodes. rewrite <-Hra.
    cbn in Hf. destruct fuel as [|fuel]; [lia|]. cbn [resolve_nodes_internal].
    rewrite (get_node_root _ _ Hrep). destruct a as [id| | | |]; try done. cbn [data unwrap]. exec.
    destruct (grown_leaf Null (ANull 1) new) as [Hadd Hg]; [done..| |].
    { by apply room_for_new. }
    change owned_default with new. rewrite Hadd. eexists. split; [done|].
    exact (grown_models _ _ (ANull 1) Hg ltac:(by split) ltac:(constructor)).
  - apply resolve_nodes_spec; [by eapply entries_serve|done..].
Qed.

Lemma resolved_get store T key o :
  path_stored T store key → trie_get T key = Ok o → trie_get (expand (has_node store) T) key = Ok o.
Proof.
  intros Hs. apply expand_get. intros d Hd. by apply bool_decide_eq_true, Hs.
Qed.
End store.
