(* ===== verification/FromProofSpec.v ===== *)
(** * The tries the host builds from proofs

    From a provider's proofs of the accounts and slots a block touches, before
    the block and after it, [transition_proofs_to_tries] builds partial views of
    the tries before the block in which every proven account and slot is there. *)

From S2P Require Import Prelude External Node Hp Mpt Trie TrieLaws TrieHash MptRefine MptHash MptSpec.
From S2P Require Import TrieMap View Stateless Codec CodecLaws TrieBounds Decode Owned Growth Expand.
From S2P Require Import ProofNodes Evm State StateSpec FromProof ResolveSpec ProofStore.

Section shorten.
Context `{CratesOk}.

(** The node with every suffix of its path. *)
Definition shortened (t : trie) : list trie :=
  match t with
  | TLeaf path value =>
      let nibs := prefix_to_nibs path in
      (λ i, leaf (drop i nibs) value) <$> seq 0 (S (length nibs))
  | TExtension path c =>
      let nibs := prefix_to_nibs path in
      (λ i, extension (drop i nibs) c) <$> seq 0 (S (length nibs))
  | _ => []
  end.

(** Nothing is cached yet. *)
Definition uncached (m : Mpt) : Prop := ∀ j c, cached_references m !! j = Some c → c = new_cell None.

Lemma bare_uncached m : uncached (bare m).
Proof. intros j c Hj. by apply lookup_replicate in Hj as [-> _]. Qed.

(** Overwriting the root node, the nodes below staying. *)
Lemma replace_root m a a' :
  represents m a → root a = root_id m → at_rest m → uncached m →
  root a' = root a → below a' = below a → well_formed (erase a') →
  models (set_nodes (<[root_id m := data a']> (nodes m)) m) (erase a').
Proof.
  intros [Hall Hnd] Hroot [Hlen Hsc] Hun Hr Hb Hwf.
  apply Forall_cons in Hall as [[Hs (o & Hc & _)] Hall]. apply NoDup_cons in Hnd as [Hni Hnd].
  assert (root a < length (nodes m)) as Hlt by (by eapply lookup_lt_Some).
  exists a'. split_and!; [|by rewrite Hr, Hroot|done| |done].
  - split.
    + constructor.
      * split; [unfold stored; cbn; by rewrite Hr, <-Hroot, list_lookup_insert_eq|].
        exists None. split; [|done]. change (cached_references m !! root a' = Some (new_cell None)).
        rewrite Hr, Hc. f_equal. by eapply Hun.
      * rewrite Hb. rewrite Forall_forall in Hall |- *. intros x Hx. destruct (Hall x Hx) as [Hsx Hcx].
        split; [|done]. unfold stored. cbn. rewrite list_lookup_insert_ne; [done|].
        intros Heq. apply Hni. rewrite Hroot, Heq. by apply list_elem_of_fmap_2.
    + change (ids a') with (root a' :: (root <$> below a')). rewrite Hr, Hb. by constructor.
  - split; cbn; by rewrite ?length_insert.
Qed.

Lemma set_root_run m d :
  root_id m < num_nodes m →
  ((m' ← get_state; set_node (root_id m') d;; get_state) m).1
  = Ok (set_nodes (<[root_id m := d]> (nodes m)) m).
Proof.
  intros Hlt. rewrite machine_bind_get. unfold set_node.
  by erewrite machine_bind_ok by (by apply write_node_ok).
Qed.

Lemma nibbles_drop i nibs : nibbles nibs → nibbles (drop i nibs).
Proof. apply Forall_drop. Qed.

Lemma shortened_leaf_spec m path nibs value :
  nibbles nibs → sized (leaf nibs value) →
  ∃ m', shortened_node m (Leaf path value) nibs = Ok m' ∧ node_alone m' (leaf nibs value).
Proof.
  intros Hn Hs. unfold shortened_node. rewrite to_encoded_path_spec. cbn [mbind outcome_bind].
  rewrite set_root_run by (cbn; lia). eexists. split; [done|].
  split; [|by constructor|done|done].
  apply (replace_root new (ANull 0) (ALeaf 0 (hp_encode nibs true) value)); try done.
  - destruct models_new as (a & Hr & Hroot & He & _). destruct a; try done. cbn in Hroot. by subst.
  - by intros [|j] c; [intros [= <-]|].
  - apply proper_wf. by constructor.
Qed.

Lemma shortened_extension_spec m path nibs child c :
  node_alone m (TExtension path c) → nibbles nibs → sized (extension nibs c) →
  nodes m !! root_id m = Some (Extension path child) → (N.of_nat (num_nodes m) < u32_modulus)%N →
  ∃ m', shortened_node m (Extension path child) nibs = Ok m' ∧ node_alone m' (extension nibs c).
Proof.
  intros [Hm Hp Hs Hl] Hn Hsn Hnode Hroom. unfold shortened_node. rewrite to_encoded_path_spec. cbn [mbind outcome_bind].
  rewrite from_trie_bare by (done || by eapply models_nodes). cbn [mbind outcome_bind].
  destruct (models_bare _ _ Hm) as (a & Hrep & Hroot & He & Hrest & Hwf).
  destruct a as [| | |id path' ac|]; try done. injection He as -> He.
  rewrite set_root_run by (by eapply lookup_lt_Some). eexists. split; [done|].
  assert (proper c) as Hpc by (inversion Hp; by subst).
  split; [|by constructor|done|done].
  assert (child = root ac) as ->.
  { destruct (represents_root _ _ Hrep) as [Hst _]. unfold stored in Hst. cbn [root data] in *. rewrite Hroot in Hst.
    cbn in Hst. rewrite Hnode in Hst. by injection Hst. }
  assert (shallow (extension nibs c) = erase (AExtension id (hp_encode nibs false) ac)) as ->.
  { unfold shallow, extension. cbn [expand erase]. by rewrite He. }
  change (Extension (hp_encode nibs false) (root ac)) with (data (AExtension id (hp_encode nibs false) ac)).
  apply (replace_root (bare m) (AExtension id path ac)); try done; [apply bare_uncached|].
  cbn [erase]. rewrite He. apply (proper_wf (extension nibs (reach (λ _, false) shallow c))).
  apply (proper_expand (λ _, false) (extension nibs c)). by constructor.
Qed.

Lemma mapM_outcome {E A B} (f : A → outcome E B) (R : B → trie → Prop) l us :
  Forall2 (λ x u, ∃ y, f x = Ok y ∧ R y u) l us → ∃ ys, mapM f l = Ok ys ∧ Forall2 R ys us.
Proof.
  induction 1 as [|x u l us (y & Hy & HR) _ (ys & Hys & Hall)]; [by exists []; split; [|constructor]|].
  exists (y :: ys). cbn [mapM]. rewrite Hy. cbn [mbind outcome_bind]. rewrite Hys. by split; [|constructor].
Qed.

Lemma shorten_node_path_spec m u :
  node_alone m u → (N.of_nat (num_nodes m) < u32_modulus)%N → Forall sized (shortened u) →
  ∃ ms, shorten_node_path m = Ok ms ∧ Forall2 node_alone ms (shortened u).
Proof.
  intros Hu Hroom Hs. pose proof Hu as [(a & Hrep & Hroot & He & _) Hp _ Hl].
  pose proof (get_node_root _ _ Hrep) as Hn. rewrite Hroot in Hn. unfold shorten_node_path. rewrite Hn.
  cbn [unwrap mbind outcome_bind].
  destruct u as [| |path value|path c|cs]; try done; unfold shallow in He; cbn [expand] in He;
    destruct a as [| |id p' v'|id p' ac|id acs]; try done; cbn [data].
  - injection He as -> ->. inversion Hp as [|nibs ? Hnib| |]; subst. cbn [shortened] in *.
    apply mapM_outcome. apply Forall2_fmap_r, Forall_Forall2_diag.
    rewrite Forall_fmap in Hs. eapply Forall_impl; [exact Hs|]. cbn. intros i Hsi.
    apply (shortened_leaf_spec m (hp_encode nibs true)); [|done]. apply nibbles_drop. by rewrite hp_decode_encode.
  - injection He as -> He. inversion Hp as [| |nibs ? Hnib Hc|]; subst. cbn [shortened] in *.
    apply mapM_outcome. apply Forall2_fmap_r, Forall_Forall2_diag.
    rewrite Forall_fmap in Hs. eapply Forall_impl; [exact Hs|]. cbn. intros i Hsi.
    apply (shortened_extension_spec m (hp_encode nibs false)); [done| |done|done|done].
    apply nibbles_drop. by rewrite hp_decode_encode.
  - exists []. split; [done|constructor].
Qed.
End shorten.
