(* ===== verification/TransitionSpec.v ===== *)
(** * From proofs to the tries of the block

    The pieces of [FromProofSpec.v] put together along [transition_proofs_to_tries]:
    the host's tries back the world before the block, and have every account and
    slot that was proven. *)

From S2P Require Import Prelude External Node Hp Mpt Trie TrieLaws TrieHash MptRefine MptHash MptSpec.
From S2P Require Import TrieMap View Stateless Codec CodecLaws TrieBounds Decode Owned Growth Expand.
From S2P Require Import ProofNodes Evm State StateSpec Client ClientSpec FromProof ResolveSpec ProofStore.
From S2P Require Import FromProofSpec.

Section transition.
Context `{EvmOk, !CratesOk}.

(** ** One trie, before and after *)

(** The nodes added for a key that is absent after the block. *)
Definition orphans (T' : trie) (key : bytes) : list trie :=
  match trie_get T' key with
  | Ok None => default [] (shortened <$> last (proof_nodes T' key))
  | _ => []
  end.

Definition orphan_rlps (T' : trie) (keys' : list bytes) : list bytes := trie_rlp <$> (keys' ≫= orphans T').

(** The encodings the store of the trie before the block can have. *)
Definition pool_of (T T' : trie) (keys' : list bytes) : list bytes :=
  encodings T ++ orphan_rlps T' keys'.

(** A trie before and after the block, and the keys proven after it: both are
    there in full and fit the arena, and Keccak-256 has no collision among the
    encodings involved. *)
Record trie_pair (T T' : trie) (keys' : list bytes) : Prop := {
  pair_full : full T;
  pair_full' : full T';
  pair_indexable : indexable T;
  pair_indexable' : indexable T';
  pair_orphans : Forall sized (keys' ≫= orphans T');
  pair_distinct : no_collision ([EMPTY_STRING_CODE] :: pool_of T T' keys');
  pair_distinct' : no_collision ([EMPTY_STRING_CODE] :: encodings T');
}.

Lemma pair_no_clash T T' keys' : trie_pair T T' keys' → no_clash (pool_of T T' keys') T.
Proof.
  intros Hp x y Hx Hy. apply (pair_distinct _ _ _ Hp); [done|]. right. apply elem_of_app. by left.
Qed.

Lemma pair_no_clash' T T' keys' : trie_pair T T' keys' → no_clash (encodings T') T'.
Proof. intros Hp x y Hx Hy. apply (pair_distinct' _ _ _ Hp); [done|by right]. Qed.

(** The store has the nodes added for the key. *)
Definition orphans_stored (T' : trie) (key : bytes) (store : gmap B256 MptOwned) : Prop :=
  ∀ u, u ∈ orphans T' key → is_Some (store !! keccak256 (trie_rlp u)).

Lemma orphans_stored_covers T' key store store' :
  covers store store' → orphans_stored T' key store → orphans_stored T' key store'.
Proof. intros Hc Hs u Hu. auto. Qed.

(** Enough recursion depth for both tries. *)
Definition deep_enough (fuel : nat) (T T' : trie) : Prop :=
  2 * height T ≤ S fuel ∧ 2 * height T' ≤ S fuel.

Lemma is_not_included_spec fuel T' key proof ms o :
  full T' → indexable T' → no_clash (encodings T') T' → 2 * height T' ≤ S fuel →
  proves T' (to_nibs key) proof → parse_proof proof = Ok ms → trie_get T' (to_nibs key) = Ok o →
  is_not_included fuel key ms = Ok (bool_decide (o = None)).
Proof.
  intros Hfull Hi Hclash Hf Hp Hms Hg. unfold is_not_included, mpt_from_proof.
  destruct (process_proof_spec (encodings T') T' (to_nibs key) proof ∅ Hfull Hi Hp
    ltac:(apply proof_of_encodings) (entries_empty _)) as (r & store & Hproc & Hroot & Hsome & Hent & _ & Hpath).
  unfold process_proof in Hproc. rewrite Hms in Hproc. cbn [mbind outcome_bind] in Hproc.
  destruct ms as [|root ms].
  - cbn in Hproc. injection Hproc as <- <-. destruct Hfull as [->|Hk].
    + cbn in Hg. injection Hg as <-. done.
    + exfalso. apply known_list_node in Hk. destruct Hsome; [by intros ->|done].
  - cbn [head] in Hproc. destruct (insert_nodes (root :: ms) ∅) as [store'| | |]; try done.
    cbn [mbind outcome_bind] in Hproc |- *. injection Hproc as <- ->.
    destruct (resolve_root_spec (encodings T') fuel T' store root) as (m & -> & Hm); try done; [by apply Hroot|].
    cbn [mbind outcome_bind]. rewrite (models_get _ _ _ Hm).
    by rewrite (resolved_get store T' (to_nibs key) o Hpath Hg).
Qed.

Lemma add_orphaned_leafs_spec fuel T T' keys' key proof store o :
  trie_pair T T' keys' → deep_enough fuel T T' → to_nibs (keccak256 key) ∈ keys' →
  proves T' (to_nibs (keccak256 key)) proof → trie_get T' (to_nibs (keccak256 key)) = Ok o →
  entries (pool_of T T' keys') store →
  ∃ store', add_orphaned_leafs fuel key proof store = Ok store' ∧
    entries (pool_of T T' keys') store' ∧ covers store store' ∧ orphans_stored T' (to_nibs (keccak256 key)) store'.
Proof.
  intros Hpair [_ Hf] Hkey Hp Hg Hent. unfold add_orphaned_leafs.
  destruct proof as [|item proof].
  { exists store. split_and!; [done|done|apply covers_refl|].
    destruct (pair_full' _ _ _ Hpair) as [->|Hk].
    - intros u Hu. by apply elem_of_nil in Hu.
    - destruct Hp as [Hp|[_ Hp]]; [|done]. unfold proof_of in Hp. by rewrite proof_nodes_known in Hp. }
  assert (∃ ms, parse_proof (item :: proof) = Ok ms) as [ms Hms].
  { destruct (process_proof_spec (encodings T') T' (to_nibs (keccak256 key)) (item :: proof) ∅) as (r & s & Hproc & _);
      [apply Hpair|apply Hpair|done|apply proof_of_encodings|apply entries_empty|].
    unfold process_proof in Hproc. destruct (parse_proof (item :: proof)) as [ms| | |]; try done. by exists ms. }
  rewrite Hms. cbn [mbind outcome_bind].
  rewrite (is_not_included_spec fuel T' (keccak256 key) (item :: proof) ms o); try done; [|apply Hpair|apply Hpair|by eapply pair_no_clash'].
  cbn [mbind outcome_bind]. case_bool_decide as Ho; [subst o|].
  2: { exists store. split_and!; [done|done|apply covers_refl|].
       intros u Hu. unfold orphans in Hu. rewrite Hg in Hu. destruct o; [by apply elem_of_nil in Hu|done]. }
  destruct (pair_full' _ _ _ Hpair) as [->|Hk].
  - destruct Hp as [Hp|[_ Hp]]; [done|]. injection Hp as -> ->.
    cbn in Hms. rewrite owned_decode_null in Hms. injection Hms as <-. cbn.
    exists store. split_and!; [done|done|apply covers_refl|]. intros u Hu. by apply elem_of_nil in Hu.
  - destruct Hp as [Hp|[-> _]]; [|by apply known_list_node in Hk].
    destruct (parse_proof_known T' (to_nibs (keccak256 key)) Hk (pair_indexable' _ _ _ Hpair)) as (ms' & Hms' & Hall & Hn).
    rewrite <-Hp, Hms in Hms'. injection Hms' as <-.
    assert (∃ m u, last ms = Some m ∧ last (proof_nodes T' (to_nibs (keccak256 key))) = Some u ∧ node_alone m u)
      as (m & u & Hm & Hu & Hmu).
    { apply (Forall2_last _ _ _ Hall). by rewrite proof_nodes_known. }
    rewrite Hm. cbn [unwrap mbind outcome_bind].
    assert (orphans T' (to_nibs (keccak256 key)) = shortened u) as Horph.
    { unfold orphans. by rewrite Hg, Hu. }
    assert (∀ v, v ∈ shortened u → v ∈ keys' ≫= orphans T') as Hin.
    { intros v Hv. apply list_elem_of_bind. exists (to_nibs (keccak256 key)). by rewrite Horph. }
    destruct (shorten_node_path_spec m u) as (ms' & -> & Hall'); [done| | |].
    { apply last_Some_elem_of in Hm. apply Hn in Hm. pose proof (pair_indexable' _ _ _ Hpair). unfold indexable in *. lia. }
    { apply Forall_forall. intros v Hv%Hin. pose proof (pair_orphans _ _ _ Hpair) as Hs. rewrite Forall_forall in Hs. by apply Hs. }
    cbn [mbind outcome_bind].
    destruct (insert_nodes_spec (pool_of T T' keys') ms' (shortened u) store Hall') as (store' & -> & Hent' & Hcov & Hnew);
      [|done|].
    { intros v Hv%Hin. apply elem_of_app. right. by apply list_elem_of_fmap_2. }
    exists store'. split_and!; [done|done|done|]. intros v Hv. apply Hnew. by rewrite <-Horph.
Qed.

(** ** The storage of an account *)

Lemma process_storage_proofs_spec pool T proofs store root :
  full T → indexable T → encodings T ⊆ pool → entries pool store →
  (∀ sp, sp ∈ proofs → proves T (to_nibs (keccak256 (sp_key sp))) (sp_proof sp)) →
  (T = TNull → models root TNull) →
  ∃ store' root', process_storage_proofs proofs store root = Ok (store', root') ∧
    entries pool store' ∧ covers store store' ∧
    (models root (shallow T) ∨ proofs ≠ [] → models root' (shallow T)) ∧
    (∀ sp, sp ∈ proofs → path_stored T store' (to_nibs (keccak256 (sp_key sp)))).
Proof.
  intros Hfull Hi Hpool. revert store root. induction proofs as [|sp proofs IH]; intros store root Hent Hp Hnull.
  { exists store, root. split_and!; [done|done|apply covers_refl|naive_solver|by intros sp ?%elem_of_nil]. }
  cbn [process_storage_proofs].
  destruct (process_proof_spec pool T (to_nibs (keccak256 (sp_key sp))) (sp_proof sp) store)
    as (o & store1 & -> & Hroot & Hsome & Hent1 & Hcov1 & Hpath); [done|done|apply Hp; left| |done|].
  { etrans; [apply proof_of_encodings|done]. }
  cbn [mbind outcome_bind].
  assert (models (default root o) (shallow T)) as Hroot1.
  { destruct o as [r|]; [by apply Hroot|]. cbn. destruct Hfull as [->|Hk]; [by apply Hnull|].
    apply known_list_node in Hk. by destruct Hsome; [intros ->|]. }
  destruct (IH store1 (default root o)) as (store2 & root2 & Hrun & Hent2 & Hcov2 & Hroot2 & Hpaths);
    [done|intros sp' Hsp'; apply Hp; by right|intros HT; by rewrite HT in Hroot1|].
  exists store2, root2. split_and!; [done|done|by eapply covers_trans|intros _; apply Hroot2; by left|].
  intros sp' [->|Hsp']%elem_of_cons; [by eapply path_stored_covers|by apply Hpaths].
Qed.

Lemma add_storage_orphans_spec fuel T T' keys' proofs store :
  trie_pair T T' keys' → deep_enough fuel T T' →
  (∀ sp, sp ∈ proofs → to_nibs (keccak256 (sp_key sp)) ∈ keys' ∧
     proves T' (to_nibs (keccak256 (sp_key sp))) (sp_proof sp) ∧
     ∃ o, trie_get T' (to_nibs (keccak256 (sp_key sp))) = Ok o) →
  entries (pool_of T T' keys') store →
  ∃ store', add_storage_orphans fuel proofs store = Ok store' ∧
    entries (pool_of T T' keys') store' ∧ covers store store' ∧
    (∀ sp, sp ∈ proofs → orphans_stored T' (to_nibs (keccak256 (sp_key sp))) store').
Proof.
  intros Hpair Hf. revert store. induction proofs as [|sp proofs IH]; intros store Hp Hent.
  { exists store. split_and!; [done|done|apply covers_refl|by intros sp ?%elem_of_nil]. }
  cbn [add_storage_orphans]. destruct (Hp sp) as (Hkey & Hproof & o & Hg); [left|].
  destruct (add_orphaned_leafs_spec fuel T T' keys' (sp_key sp) (sp_proof sp) store o)
    as (store1 & -> & Hent1 & Hcov1 & Ho1); [done..|]. cbn [mbind outcome_bind].
  destruct (IH store1) as (store2 & -> & Hent2 & Hcov2 & Ho2); [intros sp' Hsp'; apply Hp; by right|done|].
  exists store2. split_and!; [done|done|by eapply covers_trans|].
  intros sp' [->|Hsp']%elem_of_cons; [by eapply orphans_stored_covers|by apply Ho2].
Qed.

(** ** Tries of maps *)

Definition keys32 (M : gmap bytes bytes) : Prop := ∀ key, is_Some (M !! key) → byte_key 32 key.

Lemma expand_stands_for M present m :
  keys32 M → models m (expand present (map_trie M)) → stands_for 32 m M.
Proof.
  intros HM Hm. destruct (map_trie_ok 32 M HM) as (Hct & Hu & Hr & Hc).
  pose proof (expand_view present (map_trie M)) as Hv. left.
  exists (expand present (map_trie M)), (map_trie M). split_and!; try done.
  - destruct Hct as [Hn|Hct]; [left; by rewrite Hn|right; by eapply view_canonical].
  - by eapply view_uniform.
Qed.

Lemma map_trie_deep fuel M M' :
  keys32 M → keys32 M' → 129 ≤ fuel → deep_enough fuel (map_trie M) (map_trie M').
Proof.
  intros HM HM' Hf. destruct (map_trie_ok 32 M HM) as (Hct & Hu & _), (map_trie_ok 32 M' HM') as (Hct' & Hu' & _).
  pose proof (canonical_height _ _ Hu Hct). pose proof (canonical_height _ _ Hu' Hct'). split; lia.
Qed.

Lemma map_trie_get M key : keys32 M → byte_key 32 key → trie_get (map_trie M) (to_nibs key) = Ok (M !! key).
Proof. intros HM Hk. destruct (map_trie_ok 32 M HM) as (_ & _ & _ & [Hc _]). by apply Hc. Qed.

Lemma keccak_key b : byte_key 32 (keccak256 b).
Proof. split; [apply keccak256_u8|apply keccak256_length]. Qed.

Lemma expand_get_map store M m key :
  keys32 M → models m (expand (has_node store) (map_trie M)) → byte_key 32 key →
  path_stored (map_trie M) store (to_nibs key) → get m key = Ok (M !! key).
Proof.
  intros HM Hm Hk Hp. rewrite (models_get _ _ _ Hm).
  rewrite (resolved_get store (map_trie M) (to_nibs key) (M !! key) Hp); [done|by apply map_trie_get].
Qed.

Lemma models_digest d : length d = 32 → models (set_nodes [Digest d] new) (TDigest d).
Proof.
  intros Hd. destruct models_new as (a & Hr & Hroot & He & Hrest & _). destruct a as [id| | | |]; try done.
  cbn in Hroot. subst id.
  apply (replace_root new (ANull 0) (ADigest 0 d)); try done; [|by constructor].
  by intros [|j] c; [intros [= <-]|].
Qed.

(** A trie of which only the root hash is known. *)
Lemma node_from_digest_spec M d pool :
  keys32 M → full (map_trie M) → no_clash pool (map_trie M) → map_root M ≠ B256_ZERO →
  d = map_root M ∨ (M = ∅ ∧ d = B256_ZERO) →
  ∃ m, node_from_digest d = Ok m ∧ stands_for 32 m M.
Proof.
  intros HM Hfull Hclash Hz Hd. destruct (map_trie_ok 32 M HM) as (Hct & Hu & Hr & Hc).
  unfold node_from_digest. destruct Hfull as [Hnull|Hk].
  - pose proof (map_trie_empty M Hnull 32 Hc) as ->. exists new. split.
    + rewrite decide_True; [done|]. destruct Hd as [->|[_ ->]]; [left|by right].
      change (map_root ∅) with (trie_hash (map_trie ∅)). by rewrite Hnull.
    + apply holds_stands_for, holds_new.
  - assert (d = map_root M) as ->.
    { destruct Hd as [->|[-> _]]; [done|]. apply known_list_node in Hk. done. }
    pose proof (root_digest 64 (map_trie M) ltac:(lia) Hu (proj1 Hk) (proj2 (proj2 Hk))) as Href.
    change (trie_hash (map_trie M)) with (map_root M) in Href.
    rewrite decide_False.
    + rewrite set_root_run by (cbn; lia). eexists. split; [done|]. left.
      assert (length (map_root M) = 32) as Hlen by (eapply map_root_length, HM).
      exists (TDigest (map_root M)), (map_trie M). split_and!; try done; [by apply models_digest| |constructor|by constructor].
      right. by constructor.
    + intros [He|]; [|done].
      apply (list_rlp_not_null (trie_payload (map_trie M))); [apply sized_payload, Hk|].
      rewrite <-rlp_of_list_node by (by apply known_list_node). symmetry.
      apply Hclash; [left|apply encodings_self|].
      rewrite <-list_node_hash by (by apply known_list_node). by rewrite <-EMPTY_ROOT_HASH_value.
Qed.

(** ** The storage trie of an account *)

Definition state_tree (W : World) : trie := map_trie (account_trie W).
Definition slots_tree (W : World) (h : B256) : trie := map_trie (slot_trie (slots W h)).

Definition slot_nibs (sp : StorageProof) : bytes := to_nibs (keccak256 (sp_key sp)).
Definition address_nibs (address : Address) : bytes := to_nibs (keccak256 address).

(** What an honest provider answers for an account, before and after the block. *)
Record proven (W W' : World) (address : Address) (proof fini : AccountProof) : Prop := {
  proven_account : proves (state_tree W) (address_nibs address) (ap_proof proof);
  proven_account' : proves (state_tree W') (address_nibs address) (ap_proof fini);
  proven_root :
    ap_storage_root proof = map_root (slot_trie (slots W (keccak256 address))) ∨
    (slot_trie (slots W (keccak256 address)) = ∅ ∧ ap_storage_root proof = B256_ZERO);
  proven_slots sp : sp ∈ ap_storage_proofs proof →
    proves (slots_tree W (keccak256 address)) (slot_nibs sp) (sp_proof sp);
  proven_slots' sp : sp ∈ ap_storage_proofs fini →
    proves (slots_tree W' (keccak256 address)) (slot_nibs sp) (sp_proof sp);
  proven_pair : trie_pair (slots_tree W (keccak256 address)) (slots_tree W' (keccak256 address))
    (slot_nibs <$> ap_storage_proofs fini);
  proven_nonzero : map_root (slot_trie (slots W (keccak256 address))) ≠ B256_ZERO;
}.

Lemma slots_keys32 W h : world_ok W → keys32 (slot_trie (slots W h)).
Proof. intros HW. exact (slot_trie_keys W h HW). Qed.

Lemma accounts_keys32 W : world_ok W → keys32 (account_trie W).
Proof. intros HW. exact (account_trie_keys W HW). Qed.

(** What the storage trie is built from: the nodes on the paths of the slots before
    the block, and the nodes added for the absent ones after it. *)
Definition slots_built (W W' : World) (address : Address) (proof fini : AccountProof) (t : Mpt) : Prop :=
  ap_storage_proofs proof ≠ [] → ∃ store,
    models t (expand (has_node store) (slots_tree W (keccak256 address))) ∧
    (∀ sp, sp ∈ ap_storage_proofs proof → path_stored (slots_tree W (keccak256 address)) store (slot_nibs sp)) ∧
    (∀ sp, sp ∈ ap_storage_proofs fini → orphans_stored (slots_tree W' (keccak256 address)) (slot_nibs sp) store).

Lemma build_storage_trie_spec fuel W W' address proof fini :
  world_ok W → world_ok W' → 129 ≤ fuel → proven W W' address proof fini →
  ∃ t, build_storage_trie fuel proof fini = Ok t ∧
    stands_for 32 t (slot_trie (slots W (keccak256 address))) ∧
    (∀ sp, sp ∈ ap_storage_proofs proof →
      get t (keccak256 (sp_key sp)) = Ok (slot_trie (slots W (keccak256 address)) !! keccak256 (sp_key sp))) ∧
    slots_built W W' address proof fini t.
Proof.
  intros HW HW' Hf Hp. set (M := slot_trie (slots W (keccak256 address))).
  set (M' := slot_trie (slots W' (keccak256 address))).
  pose proof (slots_keys32 W (keccak256 address) HW) as HM. pose proof (slots_keys32 W' (keccak256 address) HW') as HM'.
  pose proof (proven_pair _ _ _ _ _ Hp) as Hpair. pose proof (map_trie_deep fuel M M' HM HM' Hf) as Hdeep.
  pose proof (pair_no_clash _ _ _ Hpair) as Hclash. unfold build_storage_trie.
  destruct (ap_storage_proofs proof) as [|sp proofs] eqn:Hproofs.
  { destruct (node_from_digest_spec M (ap_storage_root proof) _ HM (pair_full _ _ _ Hpair) Hclash)
      as (t & Ht & Hst); [apply (proven_nonzero _ _ _ _ _ Hp)|apply (proven_root _ _ _ _ _ Hp)|].
    exists t. split_and!; [done|done|by intros sp ?%elem_of_nil|]. by intros ?; rewrite Hproofs. }
  rewrite <-Hproofs.
  destruct (process_storage_proofs_spec (pool_of (map_trie M) (map_trie M') (slot_nibs <$> ap_storage_proofs fini))
    (map_trie M) (ap_storage_proofs proof) ∅ owned_default)
    as (store & root & -> & Hent & _ & Hroot & Hpaths);
    [apply Hpair|apply Hpair|by apply list_subseteq_app_l|apply entries_empty| |intros _; apply models_new|].
  { apply (proven_slots _ _ _ _ _ Hp). }
  cbn [mbind outcome_bind].
  destruct (add_storage_orphans_spec fuel (map_trie M) (map_trie M') (slot_nibs <$> ap_storage_proofs fini)
    (ap_storage_proofs fini) store Hpair Hdeep) as (store' & -> & Hent' & Hcov & Horph); [|done|].
  { intros sp' Hsp'. split_and!; [by apply (list_elem_of_fmap_2 slot_nibs)|by apply (proven_slots' _ _ _ _ _ Hp)|].
    eexists. apply map_trie_get; [done|apply keccak_key]. }
  cbn [mbind outcome_bind].
  destruct (resolve_root_spec _ fuel (map_trie M) store' root (pair_full _ _ _ Hpair)
    (pair_indexable _ _ _ Hpair) (proj1 Hdeep) Hent' Hclash) as (t & -> & Ht).
  { apply Hroot. right. by rewrite Hproofs. }
  assert (∀ sp', sp' ∈ ap_storage_proofs proof → path_stored (map_trie M) store' (slot_nibs sp')) as Hpaths'.
  { intros sp' Hsp'. eapply path_stored_covers; [done|]. by apply Hpaths. }
  exists t. split_and!; [done|by eapply expand_stands_for| |by intros _; exists store'].
  intros sp' Hsp'. eapply expand_get_map; [done|done|apply keccak_key|]. by apply Hpaths'.
Qed.

(** ** All accounts *)

(** The storage trie has the proven slots. *)
Definition slots_there (W : World) (address : Address) (proof : AccountProof) (t : Mpt) : Prop :=
  ∀ sp, sp ∈ ap_storage_proofs proof →
    get t (keccak256 (sp_key sp)) = Ok (slot_trie (slots W (keccak256 address)) !! keccak256 (sp_key sp)).

Definition state_pool (W W' : World) (keys' : list bytes) : list bytes :=
  pool_of (state_tree W) (state_tree W') keys'.

Record accounts_done (W W' : World) (proofs : gmap Address AccountProof) (parents : list (Address * AccountProof))
    (store : gmap B256 MptOwned) (tries tries' : gmap B256 Mpt) : Prop := {
  done_paths e : e ∈ parents → path_stored (state_tree W) store (address_nibs e.1);
  done_orphans e : e ∈ parents → orphans_stored (state_tree W') (address_nibs e.1) store;
  done_slots e : e ∈ parents → ∃ t fini, tries' !! keccak256 e.1 = Some t ∧ proofs !! e.1 = Some fini ∧
    slots_there W e.1 e.2 t ∧ slots_built W W' e.1 e.2 fini t;
  done_tries h t : tries' !! h = Some t → tries !! h = Some t ∨ stands_for 32 t (slot_trie (slots W h));
  done_others h : h ∉ keccak256 ∘ fst <$> parents → tries' !! h = tries !! h;
}.

Lemma process_accounts_spec fuel W W' keys' proofs parents store root tries :
  world_ok W → world_ok W' → 129 ≤ fuel → trie_pair (state_tree W) (state_tree W') keys' →
  (∀ e, e ∈ parents → address_nibs e.1 ∈ keys' ∧
     ∃ fini, proofs !! e.1 = Some fini ∧ proven W W' e.1 e.2 fini) →
  NoDup (keccak256 ∘ fst <$> parents) →
  entries (state_pool W W' keys') store → (state_tree W = TNull → models root TNull) →
  ∃ store' root' tries',
    process_accounts fuel proofs parents store root tries = Ok (store', root', tries') ∧
    entries (state_pool W W' keys') store' ∧ covers store store' ∧
    (models root (shallow (state_tree W)) ∨ parents ≠ [] → models root' (shallow (state_tree W))) ∧
    accounts_done W W' proofs parents store' tries tries'.
Proof.
  intros HW HW' Hf Hpair. pose proof (accounts_keys32 W HW) as HM. pose proof (accounts_keys32 W' HW') as HM'.
  pose proof (map_trie_deep fuel _ _ HM HM' Hf) as Hdeep.
  revert store root tries. induction parents as [|[address proof] parents IH];
    intros store root tries Hall Hnd Hent Hnull.
  { exists store, root, tries. split_and!; [done|done|apply covers_refl|naive_solver|].
    split; [by intros e ?%elem_of_nil..|by left|done]. }
  cbn [process_accounts]. destruct (Hall (address, proof)) as (Hkey & fini & Hfini & Hp); [left|].
  cbn [fst snd] in *. apply NoDup_cons in Hnd as [Hni Hnd].
  destruct (process_proof_spec (state_pool W W' keys') (state_tree W) (address_nibs address) (ap_proof proof) store)
    as (o & store1 & -> & Hroot & Hsome & Hent1 & Hcov1 & Hpath);
    [apply Hpair|apply Hpair|apply (proven_account _ _ _ _ _ Hp)| |done|].
  { etrans; [apply proof_of_encodings|by apply list_subseteq_app_l]. }
  cbn [mbind outcome_bind]. rewrite Hfini. cbn [unwrap mbind outcome_bind].
  destruct (add_orphaned_leafs_spec fuel (state_tree W) (state_tree W') keys' address (ap_proof fini) store1
    (account_trie W' !! keccak256 address)) as (store2 & -> & Hent2 & Hcov2 & Horph); try done.
  { apply (proven_account' _ _ _ _ _ Hp). }
  { apply map_trie_get; [done|apply keccak_key]. }
  cbn [mbind outcome_bind].
  destruct (build_storage_trie_spec fuel W W' address proof fini) as (t & -> & Ht & Hget & Hbuilt); [done..|].
  cbn [mbind outcome_bind].
  assert (models (default root o) (shallow (state_tree W))) as Hroot1.
  { destruct o as [r|]; [by apply Hroot|]. cbn. destruct (pair_full _ _ _ Hpair) as [Hn|Hk].
    - rewrite Hn. by apply Hnull.
    - apply known_list_node in Hk. destruct Hsome; [by intros Hn; rewrite Hn in Hk|done]. }
  destruct (IH store2 (default root o) (<[keccak256 address := t]> tries))
    as (store3 & root3 & tries3 & Hrun & Hent3 & Hcov3 & Hroot3 & [Hpaths Horphs Hslots Htries Hothers]);
    [intros e He; apply Hall; by right|done|done|intros HT; by rewrite HT in Hroot1|].
  exists store3, root3, tries3. split_and!; [done|done| |intros _; apply Hroot3; by left|].
  { by eapply covers_trans; [|eapply covers_trans]. }
  assert (tries3 !! keccak256 address = Some t) as Ht3 by (by rewrite Hothers, lookup_insert_eq).
  split.
  - intros e [->|He]%elem_of_cons; [|by apply Hpaths].
    eapply path_stored_covers; [|exact Hpath]. by eapply covers_trans.
  - intros e [->|He]%elem_of_cons; [|by apply Horphs]. by eapply orphans_stored_covers.
  - intros e [->|He]%elem_of_cons; [|by apply Hslots]. by exists t, fini.
  - intros h t' Hh. destruct (Htries h t' Hh) as [[[<- <-]|[_ Hin]]%lookup_insert_Some|Hst]; [by right|by left|by right].
  - intros h [Hne Hh]%not_elem_of_cons. rewrite Hothers by done. by apply lookup_insert_ne.
Qed.

(** An honest provider's proofs for a block that turns [W] into [W']: every account
    is proven before and after it. *)
Record honest_proofs (W W' : World) (parents : list (Address * AccountProof))
    (proofs : gmap Address AccountProof) : Prop := {
  honest_before : world_ok W;
  honest_after : world_ok W';
  honest_pair : trie_pair (state_tree W) (state_tree W') ((λ e, address_nibs e.1) <$> parents);
  honest_root : world_root W ≠ B256_ZERO;
  honest_each e : e ∈ parents → ∃ fini, proofs !! e.1 = Some fini ∧ proven W W' e.1 e.2 fini;
  honest_distinct : NoDup (keccak256 ∘ fst <$> parents);
}.

(** What the host hands on: tries that back the world and have all that was proven. *)
Record witnesses (W : World) (parents : list (Address * AccountProof)) (s : EthereumState) : Prop := {
  witnesses_backs : backs W s;
  witnesses_account e : e ∈ parents → get (state_trie s) (keccak256 e.1) = Ok (account_trie W !! keccak256 e.1);
  witnesses_slots e : e ∈ parents →
    ∃ t, storage_tries s !! keccak256 e.1 = Some t ∧ slots_there W e.1 e.2 t;
}.

(** The state trie is built from the nodes on the accounts' paths and the nodes
    added for the accounts that are absent after the block. *)
Record transition_built (W W' : World) (parents : list (Address * AccountProof))
    (proofs : gmap Address AccountProof) (s : EthereumState) : Prop := {
  built_backs : backs W s;
  built_state : parents ≠ [] → ∃ store,
    models (state_trie s) (expand (has_node store) (state_tree W)) ∧
    ∀ e, e ∈ parents → path_stored (state_tree W) store (address_nibs e.1) ∧
      orphans_stored (state_tree W') (address_nibs e.1) store;
  built_slots e : e ∈ parents → ∃ t fini, storage_tries s !! keccak256 e.1 = Some t ∧ proofs !! e.1 = Some fini ∧
    slots_there W e.1 e.2 t ∧ slots_built W W' e.1 e.2 fini t;
  built_only h : is_Some (storage_tries s !! h) → h ∈ keccak256 ∘ fst <$> parents;
}.

Lemma transition_proofs_built fuel W W' parents proofs :
  129 ≤ fuel → honest_proofs W W' parents proofs →
  ∃ s, transition_proofs_to_tries fuel (world_root W) parents proofs = Ok s ∧
    transition_built W W' parents proofs s.
Proof.
  intros Hf [HW HW' Hpair Hz Heach Hnd]. pose proof (accounts_keys32 W HW) as HM.
  pose proof (accounts_keys32 W' HW') as HM'. pose proof (map_trie_deep fuel _ _ HM HM' Hf) as [Hdeep _].
  pose proof (pair_no_clash _ _ _ Hpair) as Hclash. unfold transition_proofs_to_tries.
  destruct parents as [|e parents].
  { destruct (node_from_digest_spec (account_trie W) (world_root W) _ HM (pair_full _ _ _ Hpair) Hclash Hz)
      as (t & -> & Ht); [by left|]. eexists. split; [done|].
    split; [|done|by intros e ?%elem_of_nil|by intros h [? ?]]. split; [done|]. intros h t' Hh. done. }
  destruct (process_accounts_spec fuel W W' ((λ e, address_nibs e.1) <$> e :: parents) proofs (e :: parents)
    ∅ owned_default ∅) as (store & root & tries & -> & Hent & _ & Hroot & [Hpaths Horphs Hslots Htries Hothers]); try done.
  { intros e' He'. split; [by apply (list_elem_of_fmap_2 (λ e, address_nibs e.1))|by apply Heach]. }
  { intros _. apply models_new. }
  cbn [mbind outcome_bind].
  destruct (resolve_root_spec _ fuel (state_tree W) store root (pair_full _ _ _ Hpair)
    (pair_indexable _ _ _ Hpair) Hdeep Hent Hclash) as (t & -> & Ht).
  { apply Hroot. by right. }
  eexists. split; [done|]. split.
  - split; [by eapply expand_stands_for|]. intros h t' Hh. by destruct (Htries h t' Hh).
  - intros _. exists store. split; [done|]. auto.
  - exact Hslots.
  - intros h [t' Ht']. destruct (decide (h ∈ keccak256 ∘ fst <$> e :: parents)) as [Hh|Hh]; [done|].
    cbn [storage_tries] in Ht'. by rewrite Hothers in Ht'.
Qed.

Lemma transition_built_witness W W' parents proofs s :
  world_ok W → transition_built W W' parents proofs s → witnesses W parents s.
Proof.
  intros HW [Hb Hst Hsl _]. split; [done| |].
  - intros e He. destruct Hst as (store & Hm & Hall); [by destruct parents; [apply elem_of_nil in He|]|].
    eapply expand_get_map; [by apply accounts_keys32|done|apply keccak_key|by apply Hall].
  - intros e He. destruct (Hsl e He) as (t & fini & Ht & _ & Hthere & _). by exists t.
Qed.

Lemma stands_for_root M m : stands_for 32 m M → (hash m).1 = Ok (map_root M).
Proof. intros Hm. by destruct (stands_for_hash _ _ _ Hm) as (m' & -> & _). Qed.

(** C5: The host's witness is complete.  Whatever the order in which the accounts
    come, from an honest provider's proofs of the accounts and slots before and
    after the block [transition_proofs_to_tries] builds, with at most 129 nested
    calls of the recursive function, tries that have the state root of the world
    before the block, tell nothing wrong of it, and have every account and every
    slot that was proven, absent ones included. *)
Theorem transition_proofs_complete fuel W W' parents proofs :
  129 ≤ fuel → honest_proofs W W' parents proofs →
  ∃ s, transition_proofs_to_tries fuel (world_root W) parents proofs = Ok s ∧
    (hash (state_trie s)).1 = Ok (world_root W) ∧ witnesses W parents s.
Proof.
  intros Hf Hp. destruct (transition_proofs_built fuel W W' parents proofs Hf Hp) as (s & Hs & Hb).
  exists s. split_and!; [done|apply stands_for_root, Hb|]. by eapply transition_built_witness; [apply Hp|].
Qed.

(** ** A proof that never resolves *)

(** The encoding of a digest, as a provider may send it for a node. *)
Definition digest_item (d : B256) : bytes := (EMPTY_STRING_CODE + 32)%N :: d.

Lemma circular_resolve store m0 d :
  length d = 32 → get_node m0 (root_id m0) = Some (Digest d) → store !! d = Some m0 →
  ∀ fuel cur id m, get_node cur id = Some (Digest d) →
    (resolve_nodes_internal fuel store cur id m).1 = OutOfFuel.
Proof.
  intros Hd Hroot Hs fuel. induction fuel as [|fuel IH]; intros cur id m Hn; [done|].
  cbn [resolve_nodes_internal]. rewrite Hn. cbn [unwrap]. exec. rewrite from_slice_ok by done. exec.
  rewrite Hs. by apply IH.
Qed.

Lemma digest_item_parsed d :
  length d = 32 →
  ∃ m m', owned_decode_from_proof_rlp (digest_item d) = Ok m ∧ owned_hash m = Ok (d, m') ∧
    get_node m (root_id m) = Some (Digest d) ∧ get_node m' (root_id m') = Some (Digest d).
Proof.
  intros Hd. destruct (decodes_digest (length (digest_item d)) d Hd [] new) as (m & a & Hrun & He & Hg);
    [by apply room_for_new|].
  set (m0 := set_root_id (root a) m).
  assert (models m0 (TDigest d)) as Hm.
  { rewrite <-He. apply (grown_models _ _ _ Hg); [by split|]. rewrite He. by constructor. }
  destruct (models_hash _ _ Hm) as (m' & Hh & Hm' & Hsame). exists m0, m'. split_and!.
  - unfold owned_decode_from_proof_rlp, decode_from_proof_rlp. change (with_capacity 1) with new.
    rewrite app_nil_r in Hrun. unfold digest_item in *. by rewrite Hrun.
  - unfold owned_hash. by rewrite Hh.
  - destruct Hm as (a0 & Hr & Hroot & He0 & _). rewrite <-Hroot, (get_node_root _ _ Hr).
    f_equal. by apply erase_digest_inv.
  - destruct Hm' as (a0 & Hr & Hroot & He0 & _). rewrite <-Hroot, (get_node_root _ _ Hr).
    f_equal. by apply erase_digest_inv.
Qed.

(** C32: A provider can make the host recurse without end.  An account proof whose
    one item is the encoding of a 32-byte string is decoded to a digest node, stored
    under that very digest, and resolved to itself over and over: no recursion
    depth is enough, whatever the string, the account and the state root. *)
Theorem circular_proof_never_resolves fuel d root storage_root address info fini proofs :
  length d = 32 → proofs !! address = Some fini → ap_proof fini = [] →
  transition_proofs_to_tries fuel root [(address, mkAccountProof address info [digest_item d] storage_root [])] proofs
  = OutOfFuel.
Proof.
  intros Hd Hp Hfini. destruct (digest_item_parsed d Hd) as (m & m' & Hm & Hh & Hn & Hn').
  unfold transition_proofs_to_tries. cbn [process_accounts ap_proof].
  unfold process_proof, parse_proof. cbn [mapM]. rewrite Hm. cbn [mbind outcome_bind mret outcome_ret head insert_nodes].
  rewrite Hh. cbn [mbind outcome_bind]. rewrite Hp. cbn [unwrap mbind outcome_bind].
  rewrite Hfini. cbn [add_orphaned_leafs mbind outcome_bind]. unfold build_storage_trie. cbn [ap_storage_proofs ap_storage_root].
  unfold node_from_digest. case_decide; cbn [mbind outcome_bind]; rewrite ?set_root_run by (cbn; lia);
    cbn [mbind outcome_bind process_accounts default]; unfold resolve_nodes;
    pose proof (circular_resolve (<[d := m']> ∅) m' d Hd Hn' (lookup_insert_eq _ _ _) fuel m (root_id m) owned_default Hn) as Hloop;
    destruct (resolve_nodes_internal _ _ _ _ _) as [o t]; cbn in Hloop; by rewrite Hloop.
Qed.
End transition.
