(* ===== verification/Loose.v ===== *)
(** * Partial tries whose branches merged too early

    Deleting a key can leave a branch with one child.  When that child is a digest,
    [delete] makes an extension over it, although the node behind the digest may be
    a leaf or an extension that should have merged with the branch.  The root hash
    is then wrong, but nothing is lost: an insertion that parts the extension again
    restores the node.  [loose present K t T]: [t] stands for [T] but for such
    extensions, each below a branch that lost one of the keys [K]; [present] tells
    the digests [t] does not have.  Insertions and deletions that succeed on [t] do
    the same to [T], without a condition on the siblings they see. *)

From S2P Require Import Prelude External Node Hp Mpt Trie TrieLaws TrieHash View.
From S2P Require Import MptRefine MptHash MptSpec Codec CodecLaws Growth Expand.

Section loose.
Context `{CratesOk} (present : bytes → bool).

Definition is_branch (t : trie) : Prop := match t with TBranch _ => True | _ => False end.

(** The path [nibs] passed through a branch that lost a key of [K]. *)
Definition merged (K : bytes → Prop) (nibs : bytes) : Prop :=
  ∃ shared j i tail, nibs = shared ++ [j] ∧ i ≠ j ∧ K (shared ++ i :: tail).

(** [t] under the nibbles [nibs], merged when [t] is a leaf or an extension. *)
Definition join (nibs : bytes) (t : trie) : trie := shrink_extension (hp_encode nibs false) t.

Inductive loose : (bytes → Prop) → trie → trie → Prop :=
  | loose_null K : loose K TNull TNull
  | loose_digest K d T :
      trie_ref T = DigestRef d → present d = false → canonical_node T → resolved T → loose K (TDigest d) T
  | loose_leaf K nibs value : nibbles nibs → loose K (leaf nibs value) (leaf nibs value)
  | loose_extension (K : bytes → Prop) nibs t T :
      nibbles nibs → nibs ≠ [] → branch_or_digest t → loose (λ k, K (nibs ++ k)) t T →
      is_branch T ∨ merged K nibs → loose K (extension nibs t) (join nibs T)
  | loose_branch (K : bytes → Prop) cs ds :
      length cs = 16 → length ds = 16 → 2 ≤ length (remaining_children cs) →
      (∀ i, cs !! i = Some None ↔ ds !! i = Some None) → (∀ i, cs !! i ≠ Some (Some TNull)) →
      (∀ i c d, cs !! i = Some (Some c) → ds !! i = Some (Some d) → loose (λ k, K (N.of_nat i :: k)) c d) →
      loose K (TBranch cs) (TBranch ds).

Lemma merged_mono (K K' : bytes → Prop) nibs : (∀ k, K k → K' k) → merged K nibs → merged K' nibs.
Proof. intros HK (shared & j & i & tail & -> & Hne & Hk). exists shared, j, i, tail. auto. Qed.

Lemma merged_app (K : bytes → Prop) shared nibs : merged (λ k, K (shared ++ k)) nibs → merged K (shared ++ nibs).
Proof.
  intros (p & j & i & tail & -> & Hne & Hk). exists (shared ++ p), j, i, tail. by rewrite <-!app_assoc.
Qed.

(** What is left of the path after its first nibbles. *)
Lemma merged_drop (K : bytes → Prop) shared nibs :
  nibs ≠ [] → merged K (shared ++ nibs) → merged (λ k, K (shared ++ k)) nibs.
Proof.
  intros Hne (p & j & i & tail & Heq & Hij & Hk). destruct (exists_last Hne) as (q & j' & ->).
  rewrite app_assoc in Heq. apply app_inj_tail in Heq as [<- <-].
  exists q, j', i, tail. by rewrite app_assoc.
Qed.

Lemma loose_mono (K K' : bytes → Prop) t T : (∀ k, K k → K' k) → loose K t T → loose K' t T.
Proof.
  intros HK Hl. revert K' HK. induction Hl as [| | |K nibs t T Hn Hne Hb _ IH Hm|K cs ds Hc Hd Hrem Hnone Hnn _ IH];
    intros K' HK.
  - constructor.
  - by constructor.
  - by constructor.
  - constructor; [done..|apply IH; auto|]. destruct Hm as [Hm|Hm]; [by left|right; by eapply merged_mono].
  - constructor; [done..|]. intros i c d Hi Hj. apply (IH i c d Hi Hj). auto.
Qed.

(** ** Joining *)

Lemma join_branch nibs cs : join nibs (TBranch cs) = extension nibs (TBranch cs).
Proof. done. Qed.

Lemma join_leaf nibs q v : nibbles nibs → nibbles q → join nibs (leaf q v) = leaf (nibs ++ q) v.
Proof. intros Hn Hq. unfold join, leaf at 1, shrink_extension. by rewrite !hp_decode_encode. Qed.

Lemma join_extension nibs q c : nibbles nibs → nibbles q → join nibs (extension q c) = extension (nibs ++ q) c.
Proof. intros Hn Hq. unfold join, extension at 1, shrink_extension. by rewrite !hp_decode_encode. Qed.

Lemma join_join nibs q c : nibbles nibs → nibbles q → well_formed c → join nibs (join q c) = join (nibs ++ q) c.
Proof.
  intros Hn Hq Hwf. destruct Hwf as [|d Hd|path v Hp|path c Hp Hc|cs Hl Hcs]; [done| | | |].
  - change (join q (TDigest d)) with (extension q (TDigest d)). by rewrite join_extension.
  - unfold join at 2 3, shrink_extension. rewrite !hp_decode_encode by auto with reth.
    apply prefix_to_nibs_nibbles in Hp. rewrite join_leaf, app_assoc by auto with reth. done.
  - unfold join at 2 3, shrink_extension. rewrite !hp_decode_encode by auto with reth.
    apply prefix_to_nibs_nibbles in Hp. rewrite join_extension, app_assoc by auto with reth. done.
  - rewrite !join_branch. by rewrite join_extension.
Qed.

Lemma join_null nibs c : join nibs c = TNull ↔ c = TNull.
Proof. by destruct c. Qed.

Lemma shrink_branch_join cs j c :
  remaining_children cs = [(j, c)] → j < 16 → canonical_node c → resolved c →
  shrink_branch cs = Ok (join [N.of_nat j] c).
Proof.
  intros Hrem Hj Hc Hr. unfold shrink_branch. rewrite Hrem.
  assert (nibbles [N.of_nat j]) as Hn by (repeat constructor; unfold is_nibble; lia).
  inversion Hc as [d|q v Hq|q e Hq _ _ _|es _ _ _]; subst; [by inversion Hr| | |done].
  - rewrite join_leaf by done. unfold leaf at 1. by rewrite hp_decode_encode.
  - rewrite join_extension by done. unfold extension at 1. by rewrite hp_decode_encode.
Qed.

(** ** The two sides *)

Lemma loose_slot (cs ds : list (option trie)) i o :
  length cs = 16 → length ds = 16 → (∀ i, cs !! i = Some None ↔ ds !! i = Some None) →
  cs !! i = Some o → match o with None => ds !! i = Some None | Some _ => ∃ d, ds !! i = Some (Some d) end.
Proof.
  intros Hc Hd Hnone Hi. destruct o as [c|]; [|by apply Hnone].
  destruct (ds !! i) as [[d|]|] eqn:Hj; [by eexists| |].
  - apply Hnone in Hj. congruence.
  - apply lookup_ge_None in Hj. apply lookup_lt_Some in Hi. lia.
Qed.

Lemma remaining_pointwise (P : nat → trie → trie → Prop) cs ds :
  length cs = length ds → (∀ i, cs !! i = Some None ↔ ds !! i = Some None) →
  (∀ i c d, cs !! i = Some (Some c) → ds !! i = Some (Some d) → P i c d) →
  Forall2 (λ p q, p.1 = q.1 ∧ P p.1 p.2 q.2) (remaining_children cs) (remaining_children ds).
Proof.
  revert P ds. induction cs as [|o cs IH]; intros P [|o' ds] Hlen Hnone Hs; try done.
  rewrite !remaining_children_cons. apply Forall2_app.
  - pose proof (Hnone 0) as Hn0. pose proof (Hs 0) as Hs0. destruct o, o'; cbn in *; [|naive_solver..|constructor].
    repeat constructor. by apply Hs0.
  - apply Forall2_fmap_2. eapply Forall2_impl.
    + apply (IH (λ i, P (S i))); [by injection Hlen|intros i; apply (Hnone (S i))|intros i; apply (Hs (S i))].
    + intros [i c] [j d] [Hij Hcd]. cbn in *. by subst.
Qed.

(** What is stood for is whole and, but for the root, not null. *)
Lemma loose_target K t T : loose K t T → (T = TNull ∧ t = TNull) ∨ (canonical_node T ∧ resolved T ∧ t ≠ TNull).
Proof.
  induction 1 as [| | |K nibs t T Hn Hne Hb _ IH Hm|K cs ds Hc Hd Hrem Hnone Hnn Hs IH]; [by left|right..].
  - done.
  - split_and!; [by constructor|constructor|done].
  - destruct IH as [[-> ->]|(HT & Hr & _)]; [done|]. split_and!; [| |done].
    + inversion HT as [d|q v Hq|q e Hq Hqn He Hce|es Hl Hr' Hcs]; subst; [by inversion Hr| | |].
      * rewrite join_leaf by done. constructor. auto with reth.
      * rewrite join_extension by done. constructor; [auto with reth| |done|done]. by destruct nibs.
      * by constructor.
    + inversion Hr as [|path v|path e He|es Hes]; subst; by repeat constructor.
  - assert (∀ i d, ds !! i = Some (Some d) → canonical_node d ∧ resolved d) as Hds.
    { intros i d Hi. destruct (cs !! i) as [[c|]|] eqn:Hj.
      - destruct (IH i c d Hj Hi) as [[-> ->]|(? & ? & _)]; [by destruct (Hnn i)|done].
      - apply Hnone in Hj. congruence.
      - apply lookup_ge_None in Hj. apply lookup_lt_Some in Hi. lia. }
    pose proof (remaining_pointwise (λ _ _ _, True) cs ds ltac:(lia) Hnone ltac:(done)) as Hp.
    apply Forall2_length in Hp.
    split_and!; [constructor; [done|lia|intros i d Hi; by eapply Hds]|constructor; intros i d Hi; by eapply Hds|done].
Qed.

Lemma loose_null_iff K t T : loose K t T → t = TNull ↔ T = TNull.
Proof.
  intros Hl. destruct (loose_target _ _ _ Hl) as [[-> ->]|(Hc & _ & Ht)]; [done|].
  split; [done|]. intros ->. inversion Hc.
Qed.

Lemma loose_below_branch K cs T : loose K (TBranch cs) T → is_branch T.
Proof. by inversion 1. Qed.

Lemma loose_branch_inv K cs T :
  loose K (TBranch cs) T → ∃ ds, T = TBranch ds.
Proof. intros Hl%loose_below_branch. destruct T; try done. by eexists. Qed.

(** A node of the trie, with digests for what is not present. *)
Lemma loose_reach K c :
  canonical_node c → resolved c → loose K (expand present c) c → loose K (reach present (expand present) c) c.
Proof.
  intros Hc Hr He. unfold reach. destruct (trie_ref c) as [s|d] eqn:Href; [done|].
  destruct (present d) eqn:Hp; [done|by constructor].
Qed.

Lemma loose_expand K t : canonical_node t → resolved t → loose K (expand present t) t.
Proof.
  revert K. induction t as [|d|path v|path c IH|cs IH] using trie_nested_ind; intros K Hc Hr.
  - inversion Hc.
  - inversion Hr.
  - inversion Hc; subst. by constructor.
  - inversion Hc as [| |nibs ? Hn Hne Hb Hcc|]; subst. inversion Hr as [| |? ? Hrc|]; subst.
    destruct c as [|d| | |cs]; try done; [by inversion Hrc|]. 
    change (loose K (extension nibs (reach present (expand present) (TBranch cs))) (join nibs (TBranch cs))).
    apply (loose_extension K nibs (reach present (expand present) (TBranch cs))); [done|done| | |by left].
    + unfold reach. by destruct (trie_ref (TBranch cs)); [|case_match].
    + apply loose_reach; [done..|]. by apply IH.
  - inversion Hc as [| | |? Hlen Hrem Hcs]; subst. inversion Hr as [| | |? Hrcs]; subst. rewrite expand_branch.
    pose proof (expand_view present (TBranch cs)) as Hv. rewrite expand_branch in Hv. constructor.
    + by rewrite length_fmap.
    + done.
    + apply view_remaining, Forall2_length in Hv. by rewrite Hv.
    + intros i. rewrite list_lookup_fmap. by destruct (cs !! i) as [[]|].
    + intros i. rewrite list_lookup_fmap. destruct (cs !! i) as [[c|]|] eqn:Hi; try done. cbn. intros [= Hnull].
      assert (loose K (reach present (expand present) c) c) as Hl by (apply loose_reach; eauto).
      apply loose_null_iff in Hl as [Hnull' _]. specialize (Hnull' Hnull). specialize (Hcs _ _ Hi). subst c. inversion Hcs.
    + intros i c d Hi Hd. rewrite list_lookup_fmap, Hd in Hi. injection Hi as <-. apply loose_reach; eauto.
Qed.

(** ** Insertion *)

(** A branch with one more or another child. *)
Lemma loose_branch_update (K : bytes → Prop) cs ds i c d :
  i < 16 → loose K (TBranch cs) (TBranch ds) → loose (λ k, K (N.of_nat i :: k)) c d → c ≠ TNull →
  loose K (TBranch (<[i := Some c]> cs)) (TBranch (<[i := Some d]> ds)).
Proof.
  intros Hi Hl Hcd Hc. inversion Hl as [| | | |? ? ? Hlc Hld Hrem Hnone Hnn Hs]; subst. constructor.
  - by rewrite length_insert.
  - by rewrite length_insert.
  - pose proof (remaining_insert_some cs i c ltac:(lia)). lia.
  - intros j. destruct (decide (i = j)) as [<-|Hne];
      [by rewrite !list_lookup_insert_eq by lia|by rewrite !list_lookup_insert_ne].
  - intros j [(_ & ? & _)|[_ Hj]]%list_lookup_insert_Some; [congruence|by destruct (Hnn j)].
  - intros j e e' Hj Hj'. destruct (decide (i = j)) as [<-|Hne].
    + rewrite list_lookup_insert_eq in Hj, Hj' by lia. injection Hj as ->. by injection Hj' as ->.
    + rewrite list_lookup_insert_ne in Hj, Hj' by done. by apply (Hs j).
Qed.

Lemma loose_two_way (K : bytes → Prop) a x b y x' y' :
  is_nibble a → is_nibble b → a ≠ b → loose (λ k, K (a :: k)) x x' → loose (λ k, K (b :: k)) y y' →
  x ≠ TNull → y ≠ TNull → loose K (TBranch (two_way a x b y)) (TBranch (two_way a x' b y')).
Proof.
  intros Ha Hb Hne Hx Hy Hxn Hyn. constructor; [apply two_way_length..|by apply two_way_remaining| | |].
  - intros i. destruct (decide (i < 16)) as [Hi|Hi].
    + rewrite <-(Nat2N.id i), !two_way_slot by (done || unfold is_nibble; lia). by repeat case_decide.
    + by rewrite !lookup_ge_None_2 by (rewrite two_way_length; lia).
  - intros i Hi. assert (i < 16) by (rewrite <-(two_way_length a b x y); by eapply lookup_lt_Some).
    rewrite <-(Nat2N.id i), two_way_slot in Hi by (done || unfold is_nibble; lia). repeat case_decide; congruence.
  - intros i c d Hi Hd. assert (i < 16) by (rewrite <-(two_way_length a b x y); by eapply lookup_lt_Some).
    rewrite <-(Nat2N.id i), two_way_slot in Hi, Hd by (done || unfold is_nibble; lia).
    repeat case_decide; subst; congruence.
Qed.

Lemma loose_fork (K : bytes → Prop) shared a x b y x' y' :
  nibbles shared → is_nibble a → is_nibble b → a ≠ b →
  loose (λ k, K (shared ++ a :: k)) x x' → loose (λ k, K (shared ++ b :: k)) y y' →
  x ≠ TNull → y ≠ TNull → loose K (fork shared a x b y) (fork shared a x' b y').
Proof.
  intros Hs Ha Hb Hne Hx Hy Hxn Hyn. unfold fork. destruct shared as [|n shared]; [by apply loose_two_way|].
  apply (loose_extension K (n :: shared) (TBranch (two_way a x b y)) (TBranch (two_way a x' b y'))); [done|done|done| |by left].
  by apply loose_two_way.
Qed.

(** An insertion that leaves the path early does not see what is joined below it. *)
Lemma insert_join shared a nibs c b key value :
  nibbles (shared ++ a :: nibs) → a ≠ b → canonical_node c → resolved c →
  trie_insert (join (shared ++ a :: nibs) c) (shared ++ b :: key) value =
  Ok (Some (fork shared a (match nibs with [] => c | _ => join nibs c end) b (leaf key value))).
Proof.
  intros Hn Hab Hc Hr.
  assert (∀ x y, lcp (shared ++ a :: x) (shared ++ b :: y) = length shared) as Hlcp.
  { intros x y. by rewrite lcp_app, lcp_cons, decide_False, Nat.add_0_r by done. }
  assert (nibbles nibs) as Hnn by (apply Forall_app in Hn as [_ Hn]; by inversion Hn).
  inversion Hc as [d|q v Hq|q e Hq Hqn He Hce|es Hl Hrem Hes]; subst; [by inversion Hr| | |].
  - rewrite join_leaf by done. rewrite <-app_assoc. cbn [app trie_insert leaf].
    rewrite hp_decode_encode, Hlcp, !drop_app_length, take_app_length by (rewrite app_comm_cons, app_assoc; auto with reth).
    by destruct nibs as [|n nibs]; [|rewrite join_leaf by done].
  - rewrite join_extension by done. rewrite <-app_assoc. cbn [app trie_insert extension].
    rewrite hp_decode_encode, Hlcp, !drop_app_length, take_app_length by (rewrite app_comm_cons, app_assoc; auto with reth).
    destruct nibs as [|n nibs]; [|by rewrite join_extension by done]. by destruct q.
  - rewrite join_branch. cbn [trie_insert extension].
    rewrite hp_decode_encode, Hlcp, !drop_app_length, take_app_length by done. by destruct nibs.
Qed.

Lemma insert_below nibs c tail value :
  nibbles nibs →
  trie_insert (extension nibs c) (nibs ++ tail) value = option_map (extension nibs) <$> trie_insert c tail value.
Proof.
  intros Hn. cbn [trie_insert extension]. rewrite hp_decode_encode by done.
  assert (lcp nibs (nibs ++ tail) = length nibs) as ->.
  { rewrite <-(app_nil_r nibs) at 1. rewrite lcp_app. by destruct tail. }
  by rewrite drop_all, drop_app_length.
Qed.

Lemma loose_insert (K : bytes → Prop) t T key value r :
  loose K t T → nibbles key → trie_insert t key value = Ok r →
  ∃ R, trie_insert T key value = Ok R ∧
    match r, R with Some t', Some T' => loose K t' T' | None, None => True | _, _ => False end.
Proof.
  revert K T key r. induction t as [|d|path old|path c IH|cs IH] using trie_nested_ind;
    intros K T key r Hl Hk Hins;
    inversion Hl as [| |? nibs ? Hn|? nibs ? C Hn Hne Hb Hc Hm|? ? ds Hlc Hld Hrem Hnone Hnn Hs]; subst.
  - injection Hins as <-. eexists. split; [done|]. by constructor.
  - cbn in Hins. by destruct (from_slice d).
  - exists r. split; [exact Hins|]. cbn in Hins. rewrite hp_decode_encode in Hins by done.
    split_common nibs key. subst nibs key. split_nibbles.
    destruct a as [|x a], b as [|y b]; [|done|done|]; split_nibbles.
    + case_decide; injection Hins as <-; [done|]. rewrite app_nil_r in *. by constructor.
    + injection Hins as <-. apply loose_fork; try done; [naive_solver|by constructor|by constructor].
  - destruct (strip_prefix nibs key) as [tail|] eqn:Hstrip.
    + apply strip_prefix_Some in Hstrip as ->. split_nibbles. fold (extension nibs c) in Hins.
      rewrite insert_below in Hins by done.
      destruct c as [|d| | |cs]; try done; [by cbn in Hins; destruct (from_slice d)|].
      destruct (loose_branch_inv _ _ _ Hc) as [ds ->]. rewrite join_branch, insert_below by done.
      destruct (trie_insert (TBranch cs) tail value) as [r'| | |] eqn:Hr; try done. injection Hins as <-.
      destruct (IH _ _ tail _ Hc ltac:(done) Hr) as (R & HR & Hrel). rewrite HR. eexists. split; [done|].
      destruct r' as [t'|], R as [T'|]; try done. cbn.
      pose proof (trie_insert_keeps_branch _ _ _ _ Hr) as Hbt. pose proof (trie_insert_keeps_branch _ _ _ _ HR) as HbT.
      destruct T' as [| | | |es]; try done; [|rewrite <-join_branch; constructor; try done; by left].
      destruct (loose_target _ _ _ Hrel) as [[? _]|(_ & Hres & _)]; [done|inversion Hres].
    + cbn [trie_insert extension] in Hins. rewrite hp_decode_encode in Hins by done.
      split_common nibs key. subst nibs key.
      destruct a as [|x a]; [by rewrite app_nil_r, strip_prefix_app in Hstrip|].
      destruct b as [|y b]; [done|]. injection Hins as <-. split_nibbles.
      assert (x ≠ y) as Hxy by naive_solver.
      destruct (loose_target _ _ _ Hc) as [[_ ->]|(HcC & HrC & _)]; [done|].
      rewrite insert_join by (done || auto with reth). eexists. split; [done|].
      apply loose_fork; try done; [|by constructor|by destruct a, c].
      destruct a as [|n a].
      * eapply loose_mono; [|exact Hc]. intros k. cbv beta. by rewrite <-!app_assoc.
      * constructor; [done|done|done| |].
        -- eapply loose_mono; [|exact Hc]. intros k. cbv beta. by rewrite <-!app_assoc.
        -- destruct Hm as [Hm|Hm]; [by left|right].
           eapply merged_mono; [|apply (merged_drop K (p ++ [x])); [done|by rewrite <-app_assoc]].
           intros k. cbv beta. by rewrite <-!app_assoc.
  - destruct key as [|i tail]; [done|]. split_nibbles. rewrite trie_insert_branch in *.
    assert (N.to_nat i < 16) as Hi16 by (unfold is_nibble in *; lia).
    destruct (cs !! N.to_nat i) as [o|] eqn:Hi; [|apply lookup_ge_None in Hi; lia].
    pose proof (loose_slot cs ds _ _ Hlc Hld Hnone Hi) as Ho. destruct o as [c|].
    + destruct Ho as [d Hd]. rewrite Hd. specialize (Hs _ _ _ Hi Hd). rewrite N2Nat.id in Hs.
      destruct (trie_insert c tail value) as [r'| | |] eqn:Hr; try done. injection Hins as <-.
      destruct (IH _ _ Hi _ _ tail _ Hs ltac:(done) Hr) as (R & -> & Hrel). eexists. split; [done|].
      destruct r' as [t'|], R as [T'|]; try done. cbn. apply loose_branch_update; [done|done|by rewrite N2Nat.id|].
      by apply trie_insert_not_null in Hr.
    + rewrite Ho. injection Hins as <-. eexists. split; [done|].
      apply loose_branch_update; [done|done|by constructor|done].
Qed.

(** ** Deletion *)

Lemma delete_below nibs c tail :
  nibbles nibs → trie_delete (extension nibs c) (nibs ++ tail) = option_map (join nibs) <$> trie_delete c tail.
Proof.
  intros Hn. cbn [trie_delete extension]. by rewrite hp_decode_encode, strip_prefix_app by done.
Qed.

Lemma delete_beside nibs c key :
  nibbles nibs → strip_prefix nibs key = None → canonical_node c → resolved c →
  trie_delete (join nibs c) key = Ok None.
Proof.
  intros Hn Hs Hc Hr. inversion Hc as [d|q v Hq|q e Hq Hqn He Hce|es Hl Hrem Hes]; subst; [by inversion Hr| | |].
  - rewrite join_leaf by done. cbn. rewrite hp_decode_encode by auto with reth.
    rewrite decide_False; [done|]. intros <-. by rewrite strip_prefix_app in Hs.
  - rewrite join_extension by done. cbn. rewrite hp_decode_encode by auto with reth. by rewrite strip_prefix_app_l, Hs.
  - rewrite join_branch. cbn. by rewrite hp_decode_encode, Hs by done.
Qed.

(** Joining what is left below the path. *)
Lemma loose_join (K : bytes → Prop) nibs c C :
  nibbles nibs → nibs ≠ [] → loose (λ k, K (nibs ++ k)) c C → (∀ d, c = TDigest d → merged K nibs) →
  loose K (join nibs c) (join nibs C).
Proof.
  intros Hn Hne Hc Hd. inversion Hc as [|? d ? Href Hp HC Hr|? q v Hq|? q e E Hq Hqn Hb He Hm|? cs ds Hlc Hld Hrem Hnone Hnn Hs]; subst.
  - constructor.
  - apply (loose_extension K nibs (TDigest d) C); [done..|right; by eapply Hd].
  - rewrite join_leaf by done. constructor. auto with reth.
  - rewrite join_extension by done.
    destruct (loose_target _ _ _ He) as [[_ ->]|(HcE & _ & _)]; [done|]. rewrite join_join by (done || by apply canonical_wf).
    constructor; [auto with reth|by destruct nibs|done| |].
    + eapply loose_mono; [|exact He]. intros k. cbv beta. by rewrite app_assoc.
    + destruct Hm as [Hm|Hm]; [by left|right]. by apply merged_app.
  - rewrite !join_branch. rewrite <-(join_branch nibs ds). constructor; [done|done|done|done|by left].
Qed.

Lemma loose_slot_update (K : bytes → Prop) cs ds i c d :
  length cs = 16 → length ds = 16 → i < 16 → (∀ j, cs !! j = Some None ↔ ds !! j = Some None) →
  (∀ j, cs !! j ≠ Some (Some TNull)) →
  (∀ j c d, cs !! j = Some (Some c) → ds !! j = Some (Some d) → loose (λ k, K (N.of_nat j :: k)) c d) →
  loose (λ k, K (N.of_nat i :: k)) c d →
  let cs' := <[i := slot_of c]> cs in let ds' := <[i := slot_of d]> ds in
  (∀ j, cs' !! j = Some None ↔ ds' !! j = Some None) ∧ (∀ j, cs' !! j ≠ Some (Some TNull)) ∧
  (∀ j c d, cs' !! j = Some (Some c) → ds' !! j = Some (Some d) → loose (λ k, K (N.of_nat j :: k)) c d).
Proof.
  intros Hlc Hld Hi Hnone Hnn Hs Hcd cs' ds'. unfold cs', ds'. pose proof (loose_null_iff _ _ _ Hcd) as Hnull. split_and!.
  - intros j. destruct (decide (i = j)) as [<-|Hne]; [|by rewrite !list_lookup_insert_ne].
    rewrite !list_lookup_insert_eq by lia. destruct c, d; cbn; naive_solver.
  - intros j. destruct (decide (i = j)) as [<-|Hne]; [|by rewrite !list_lookup_insert_ne].
    rewrite list_lookup_insert_eq by lia. by destruct c.
  - intros j e e' Hj Hj'. destruct (decide (i = j)) as [<-|Hne].
    + rewrite list_lookup_insert_eq in Hj, Hj' by lia.
      assert (e = c) as -> by (destruct c; cbn in Hj; congruence).
      by assert (e' = d) as -> by (destruct d; cbn in Hj'; congruence).
    + rewrite list_lookup_insert_ne in Hj, Hj' by done. by apply (Hs j).
Qed.

(** A branch with one child is joined with it. *)
Lemma loose_shrink_branch (K : bytes → Prop) cs ds i tail t :
  length cs = 16 → length ds = 16 → (∀ j, cs !! j = Some None ↔ ds !! j = Some None) →
  (∀ j, cs !! j ≠ Some (Some TNull)) →
  (∀ j c d, cs !! j = Some (Some c) → ds !! j = Some (Some d) → loose (λ k, K (N.of_nat j :: k)) c d) →
  K (i :: tail) → (∀ j c, remaining_children cs = [(j, c)] → N.of_nat j ≠ i) →
  shrink_branch cs = Ok t → ∃ T, shrink_branch ds = Ok T ∧ loose K t T.
Proof.
  intros Hlc Hld Hnone Hnn Hs HK Hone Hsh.
  pose proof (remaining_pointwise (λ j c d, loose (λ k, K (N.of_nat j :: k)) c d) cs ds ltac:(lia) Hnone Hs) as Hrem.
  destruct (remaining_children cs) as [|[j c] [|p l]] eqn:Hrc.
  - unfold shrink_branch in Hsh. by rewrite Hrc in Hsh.
  - inversion Hrem as [|? [j' d] ? ? [Hj Hcd] Hnil Heq Hrd]; subst. inversion Hnil; subst. cbn in Hj, Hcd. subst j'.
    symmetry in Hrd. apply remaining_single in Hrc as Hjc. destruct Hjc as [Hjc _].
    assert (j < 16) as Hj16 by (rewrite <-Hlc; by eapply lookup_lt_Some).
    destruct (loose_target _ _ _ Hcd) as [[_ ->]|(HcD & HrD & _)]; [by destruct (Hnn j)|].
    eexists. split; [by apply shrink_branch_join|].
    assert (nibbles [N.of_nat j]) as Hnj by (repeat constructor; unfold is_nibble; lia).
    assert (t = join [N.of_nat j] c) as ->.
    { unfold shrink_branch in Hsh. rewrite Hrc in Hsh. destruct c as [|h|path v|path e|es]; [done| | | |]; injection Hsh as <-;
        unfold join, shrink_extension; by rewrite ?hp_decode_encode by done. }
    apply loose_join; [done|done|exact Hcd|]. intros h ->. exists [], (N.of_nat j), i, tail.
    split_and!; [done| |done]. apply not_eq_sym. by eapply Hone.
  - unfold shrink_branch in Hsh |- *. rewrite Hrc in Hsh. apply Forall2_length in Hrem.
    exists (TBranch ds). destruct (remaining_children ds) as [|? [|? ?]] eqn:Hrd; [done..|].
    injection Hsh as <-. split; [by destruct p0|]. constructor; try done. rewrite Hrc. cbn. lia.
Qed.

Lemma loose_delete (K : bytes → Prop) t T key r :
  loose K t T → K key → nibbles key → trie_delete t key = Ok r →
  ∃ R, trie_delete T key = Ok R ∧
    match r, R with Some t', Some T' => loose K t' T' | None, None => True | _, _ => False end.
Proof.
  revert K T key r. induction t as [|d|path old|path c IH|cs IH] using trie_nested_ind;
    intros K T key r Hl HK Hk Hdel;
    inversion Hl as [| |? nibs ? Hn|? nibs ? C Hn Hne Hb Hc Hm|? ? ds Hlc Hld Hrem Hnone Hnn Hs]; subst.
  - injection Hdel as <-. by eexists.
  - cbn in Hdel. by destruct (from_slice d).
  - exists r. split; [exact Hdel|]. cbn in Hdel. case_decide; injection Hdel as <-; [constructor|done].
  - fold (extension nibs c) in Hdel.
    destruct (strip_prefix nibs key) as [tail|] eqn:Hstrip.
    + apply strip_prefix_Some in Hstrip as ->. split_nibbles. rewrite delete_below in Hdel by done.
      destruct c as [|d| | |cs]; try done; [by cbn in Hdel; destruct (from_slice d)|].
      destruct (loose_branch_inv _ _ _ Hc) as [ds ->]. rewrite join_branch, delete_below by done.
      destruct (trie_delete (TBranch cs) tail) as [r'| | |] eqn:Hr; try done. injection Hdel as <-.
      destruct (IH _ _ tail _ Hc HK ltac:(done) Hr) as (R & -> & Hrel). eexists. split; [done|].
      destruct r' as [t'|], R as [T'|]; try done. cbn. apply loose_join; [done..|].
      intros d ->. by apply trie_delete_not_digest with (h := d) in Hr.
    + destruct (loose_target _ _ _ Hc) as [[_ ->]|(HcC & HrC & _)]; [done|].
      rewrite delete_beside by done. cbn [trie_delete extension] in Hdel.
      rewrite hp_decode_encode, Hstrip in Hdel by done. injection Hdel as <-. by eexists.
  - destruct key as [|i tail]; [done|]. split_nibbles. rewrite trie_delete_branch in *.
    assert (N.to_nat i < 16) as Hi16 by (unfold is_nibble in *; lia).
    destruct (cs !! N.to_nat i) as [o|] eqn:Hi; [|apply lookup_ge_None in Hi; lia].
    pose proof (loose_slot cs ds _ _ Hlc Hld Hnone Hi) as Ho. destruct o as [c|]; [|rewrite Ho; injection Hdel as <-; by eexists].
    destruct Ho as [d Hd]. rewrite Hd. pose proof (Hs _ _ _ Hi Hd) as Hcd. rewrite N2Nat.id in Hcd.
    destruct (trie_delete c tail) as [r'| | |] eqn:Hr; try done.
    destruct (IH _ _ Hi _ _ tail _ Hcd HK ltac:(done) Hr) as (R & -> & Hrel). cbn in Hdel |- *.
    destruct r' as [c'|], R as [C'|]; try done; [|injection Hdel as <-; by eexists].
    destruct (shrink_branch _) as [t'| | |] eqn:Hsh in Hdel; try done. injection Hdel as <-.
    destruct (loose_slot_update K cs ds (N.to_nat i) c' C' Hlc Hld Hi16 Hnone Hnn Hs) as (Hnone' & Hnn' & Hs');
      [by rewrite N2Nat.id|].
    destruct (loose_shrink_branch K (<[N.to_nat i := slot_of c']> cs) (<[N.to_nat i := slot_of C']> ds) i tail t')
      as (T' & -> & HT'); [by rewrite length_insert|by rewrite length_insert|done|done|done|done| |done|by eexists].
    intros j e Hone <-. rewrite Nat2N.id in *. apply remaining_single in Hone as Hj. destruct Hj as [Hj _].
    rewrite list_lookup_insert_eq in Hj by lia. injection Hj as Hj. rewrite Hj in Hone.
    pose proof (remaining_insert_some cs j e ltac:(lia)) as Hle. rewrite Hone in Hle. cbn in Hle. lia.
Qed.
End loose.
