(* ===== verification/OrphanSpec.v ===== *)
(** * A deletion on the host's witness

    Deleting a key can merge a branch with its last child.  The proof of the key
    before the block does not have that child, but the proof of its absence after
    the block ends in the merged node, of which the host adds every shortened form.
    That is enough: on what the host builds, the deletion gives the trie after it. *)

From S2P Require Import Prelude External Node Hp Mpt Trie TrieLaws TrieHash MptRefine MptHash MptSpec.
From S2P Require Import TrieMap View Stateless Codec CodecLaws TrieBounds Decode Evm State StateSpec.
From S2P Require Import Client ClientSpec Owned Growth Expand ProofNodes FromProof ResolveSpec ProofStore.
From S2P Require Import FromProofSpec TransitionSpec Loose.

Section deletion.
Context `{CratesOk}.

(** The last node a lookup visits. *)
Definition path_end (t : trie) (key : bytes) : trie := default t (last (path_below t key)).

(** The shortened forms of a node that stand in their parents by a digest are present. *)
Definition shortened_present (present : bytes → bool) (t : trie) : Prop :=
  ∀ u d, u ∈ shortened t → digest_of u = Some d → present d = true.

Lemma last_cons_default {A} (x : A) l : last (x :: l) = Some (default x (last l)).
Proof. revert x. induction l as [|y l IH]; intros x; [done|]. change (last (x :: y :: l)) with (last (y :: l)). by rewrite IH. Qed.

Lemma path_end_branch cs i c tail :
  cs !! N.to_nat i = Some (Some c) → path_end (TBranch cs) (i :: tail) = path_end c tail.
Proof. intros Hi. unfold path_end. by rewrite path_below_branch, Hi, last_cons_default. Qed.

Lemma path_below_extension nibs c key :
  nibbles nibs →
  path_below (extension nibs c) key =
  match strip_prefix nibs key with Some tail => c :: path_below c tail | None => [] end.
Proof. intros Hn. unfold extension. cbn [path_below]. by rewrite hp_decode_encode. Qed.

Lemma shortened_leaf nibs v :
  nibbles nibs → shortened (leaf nibs v) = (λ i, leaf (drop i nibs) v) <$> seq 0 (S (length nibs)).
Proof. intros Hn. unfold leaf at 1. cbn [shortened]. by rewrite hp_decode_encode. Qed.

Lemma shortened_extension nibs c :
  nibbles nibs → shortened (extension nibs c) = (λ i, extension (drop i nibs) c) <$> seq 0 (S (length nibs)).
Proof. intros Hn. unfold extension at 1. cbn [shortened]. by rewrite hp_decode_encode. Qed.

(** A suffix of the path has fewer shortened forms. *)
Lemma shortened_leaf_app p q v :
  nibbles p → nibbles q → shortened (leaf q v) ⊆ shortened (leaf (p ++ q) v).
Proof.
  intros Hp Hq. rewrite !shortened_leaf by auto with reth.
  intros u (i & -> & Hi%elem_of_seq)%list_elem_of_fmap. apply list_elem_of_fmap.
  exists (length p + i). rewrite drop_app_add. split; [done|]. apply elem_of_seq. rewrite length_app. lia.
Qed.

Lemma shortened_extension_app p q c :
  nibbles p → nibbles q → shortened (extension q c) ⊆ shortened (extension (p ++ q) c).
Proof.
  intros Hp Hq. rewrite !shortened_extension by auto with reth.
  intros u (i & -> & Hi%elem_of_seq)%list_elem_of_fmap. apply list_elem_of_fmap.
  exists (length p + i). rewrite drop_app_add. split; [done|]. apply elem_of_seq. rewrite length_app. lia.
Qed.

Lemma shortened_self t : proper t → is_list_node t = true → (∀ cs, t ≠ TBranch cs) → t ∈ shortened t.
Proof.
  intros [d|nibs v Hn|nibs c Hn _|cs] Hl Hb; [done| | |by destruct (Hb cs)].
  - rewrite shortened_leaf by done. apply list_elem_of_fmap. exists 0. split; [done|]. apply elem_of_seq. lia.
  - rewrite shortened_extension by done. apply list_elem_of_fmap. exists 0. split; [done|]. apply elem_of_seq. lia.
Qed.

(** ** Nothing merged too early *)

Lemma extension_beside shared j q i tail c :
  nibbles (shared ++ [j] ++ q) → i ≠ j → path_below (extension (shared ++ [j] ++ q) c) (shared ++ i :: tail) = [].
Proof.
  intros Hn Hne. rewrite path_below_extension by done. rewrite strip_prefix_app_l, strip_prefix_app.
  cbn [app strip_prefix]. by rewrite decide_False by congruence.
Qed.

(** When the shortened forms of the nodes that end the paths of the lost keys are
    present, no digest is left where a leaf or an extension should have merged. *)
Lemma loose_tight present K t T :
  loose present K t T → (∀ k, K k → shortened_present present (path_end T k)) → view t T.
Proof.
  induction 1 as [K|K d T Href Hp Hc Hr|K nibs v Hn|K nibs t T Hn Hne Hb Hl IH Hm|K cs ds Hlc Hld Hrem Hnone Hnn Hs IH];
    intros Hend; [constructor|by constructor|apply view_refl| |].
  - destruct t as [|d| | |cs]; try done.
    + inversion Hl as [|? ? ? Href Hp HcT HrT| | |]; subst.
      destruct T as [|h|path v|path c|es]; [inversion HcT|inversion HrT| | |]; [exfalso..|].
      * inversion HcT as [|q ? Hq| |]; subst. fold (leaf q v) in *.
        destruct Hm as [Hm|(shared & j & i & tail & -> & Hij & HK)]; [done|]. specialize (Hend _ HK).
        rewrite join_leaf in Hend by done.
        rewrite (Hend (leaf q v) d) in Hp; [done| |by unfold digest_of; rewrite Href].
        apply shortened_leaf_app; [done..|]. apply (shortened_self (leaf q v)); [by constructor|done|done].
      * inversion HcT as [| |q ? Hq Hqn Hcb Hcc|]; subst. fold (extension q c) in *.
        destruct Hm as [Hm|(shared & j & i & tail & -> & Hij & HK)]; [done|]. specialize (Hend _ HK).
        rewrite join_extension in Hend by done. unfold path_end in Hend.
        rewrite <-app_assoc, extension_beside in Hend by (rewrite ?app_assoc; auto with reth). cbn [last default] in Hend.
        rewrite (Hend (extension q c) d) in Hp; [done| |by unfold digest_of; rewrite Href].
        rewrite app_assoc. apply shortened_extension_app; [done..|].
        apply (shortened_self (extension q c)); [|done|done]. constructor; [done|by apply canonical_proper].
      * rewrite join_branch. constructor. by constructor.
    + destruct (loose_branch_inv _ _ _ _ Hl) as [es ->]. rewrite join_branch. constructor. apply IH.
      intros k Hk. specialize (Hend _ Hk). unfold path_end in Hend.
      by rewrite join_branch, path_below_extension, strip_prefix_app, last_cons_default in Hend by done.
  - constructor; [lia| |].
    + intros i c Hi. pose proof (loose_slot _ _ _ _ Hlc Hld Hnone Hi) as [d Hd]. exists d. split; [done|].
      apply (IH i c d Hi Hd). intros k Hk. specialize (Hend _ Hk). by rewrite (path_end_branch _ _ d) in Hend by (by rewrite Nat2N.id).
    + intros i Hi. by apply Hnone.
Qed.

(** ** The orphans of a key are enough *)

Lemma shortened_list_node t u : u ∈ shortened t → is_list_node u = true.
Proof.
  destruct t; cbn [shortened]; try (by intros Hu%elem_of_nil); by intros (i & -> & _)%list_elem_of_fmap.
Qed.

Lemma digest_of_list_node u : is_list_node u = true → ∀ d, digest_of u = Some d → d = keccak256 (trie_rlp u).
Proof.
  intros Hl d Hd. unfold digest_of in Hd. destruct (trie_ref u) eqn:Hr; [done|]. injection Hd as ->.
  by apply list_node_digest.
Qed.

Lemma short_inline u : is_list_node u = true → length (trie_rlp u) < 32 → digest_of u = None.
Proof.
  intros Hl Hs. unfold digest_of, trie_ref, reference_with. by destruct u; cbn in Hl; try done; rewrite decide_True.
Qed.

Lemma inline_short u : is_list_node u = true → digest_of u = None → length (trie_rlp u) < 32.
Proof.
  intros Hl. unfold digest_of, trie_ref, reference_with. by destruct u; cbn in Hl; try done; case_decide.
Qed.

(** The shortened forms of a node that stands in its parent stand in theirs. *)
Lemma shortened_inline t u : proper t → sized t → digest_of t = None → u ∈ shortened t → digest_of u = None.
Proof.
  intros Hp Hs Ht Hu. apply short_inline; [by eapply shortened_list_node|].
  destruct Hp as [d Hd|nibs v Hn|nibs c Hn Hc|cs]; try (by apply elem_of_nil in Hu).
  - apply inline_short in Ht; [|done]. rewrite shortened_leaf in Hu by done.
    apply list_elem_of_fmap in Hu as (i & -> & _). rewrite rlp_of_list_node in Ht |- * by done.
    cbn [trie_payload leaf] in *. inversion Hs as [| |? ? Hfp Hfv Hpay| |]; subst.
    eapply list_rlp_short; [|exact Ht]. rewrite !length_app. apply Nat.add_le_mono_r, path_drop_length; [done|].
    pose proof (list_rlp_longer _ Hpay) as Hl. cbn [trie_payload] in Hl. rewrite length_app in Hl.
    pose proof (slice_encode_longer _ Hfp). lia.
  - apply inline_short in Ht; [|done]. rewrite shortened_extension in Hu by done.
    apply list_elem_of_fmap in Hu as (i & -> & _). rewrite rlp_of_list_node in Ht |- * by done.
    cbn [trie_payload extension] in *. inversion Hs as [| | |? ? Hfp Hpay _|]; subst.
    eapply list_rlp_short; [|exact Ht]. rewrite !length_app. apply Nat.add_le_mono_r, path_drop_length; [done|].
    pose proof (list_rlp_longer _ Hpay) as Hl. cbn [trie_payload] in Hl. rewrite length_app in Hl.
    pose proof (slice_encode_longer _ Hfp). lia.
Qed.

Lemma last_filter_digest (l : list trie) t d :
  last l = Some t → digest_of t = Some d → ∀ x, last (x :: filter (λ c, is_Some (digest_of c)) l) = Some t.
Proof.
  intros Hl Hd x. apply last_Some in Hl as [l' ->].
  rewrite filter_app, filter_cons_True by (by eexists). rewrite app_comm_cons. apply last_snoc.
Qed.

(** The node that ends the path is in the proof, unless it stands in its parent. *)
Lemma path_end_proof T key d :
  known T → digest_of (path_end T key) = Some d → last (proof_nodes T key) = Some (path_end T key).
Proof.
  intros Hk Hd. rewrite proof_nodes_known by done. unfold path_end in *.
  destruct (last (path_below T key)) as [t|] eqn:Hl; cbn [default] in *.
  - by eapply last_filter_digest.
  - apply last_None in Hl as ->. done.
Qed.

Lemma orphans_shortened_present T key store :
  full T → trie_get T key = Ok None → orphans_stored T key store →
  shortened_present (has_node store) (path_end T key).
Proof.
  intros [->|Hk] Hg Ho u d Hu Hd; [by apply elem_of_nil in Hu|].
  apply bool_decide_eq_true. apply digest_of_list_node in Hd as Hd'; [|by eapply shortened_list_node]. subst d.
  apply Ho. unfold orphans. rewrite Hg.
  destruct (digest_of (path_end T key)) as [d|] eqn:He.
  - by rewrite (path_end_proof _ _ _ Hk He).
  - exfalso. assert (known (path_end T key)) as Hke.
    { unfold path_end in *. destruct (last (path_below T key)) as [t|] eqn:Hl; [|done]. cbn [default] in *.
      apply last_Some_elem_of in Hl. eapply known_subtrie; [by eapply path_below_subtrie|done]. }
    rewrite (shortened_inline (path_end T key) u) in Hd; [done| |apply Hke|done|done].
    apply canonical_proper, Hke.
Qed.

End deletion.
