(* ===== verification/WitnessUpdate.v ===== *)
(** * The block's changes on the host's witness

    With the tries the host built from an honest provider's proofs, the update by
    the changes of the block succeeds and gives the state root after the block, in
    whatever order the hash maps are visited.  On the way a trie may have merged too
    early; in the end every such place has been restored or is resolved by the
    orphans. *)

From S2P Require Import Prelude External Node Hp Mpt Trie TrieLaws TrieHash MptRefine MptHash MptSpec.
From S2P Require Import TrieMap View Stateless Codec CodecLaws TrieBounds Decode Evm State StateSpec.
From S2P Require Import Client ClientSpec Owned Growth Expand ProofNodes FromProof ResolveSpec ProofStore.
From S2P Require Import FromProofSpec TransitionSpec Loose OrphanSpec.

Section update.
Context `{EvmOk, !CratesOk}.

(** ** One trie *)

Lemma map_trie_is t M :
  keys32 M → canonical t → uniform 64 t → resolved t → contents 32 t M → t = map_trie M.
Proof. intros HM Hct Hu Hr Hc. destruct (map_trie_ok 32 M HM) as (? & ? & ? & ?). by eapply (contents_unique 32). Qed.

Lemma keys32_insert M key v : keys32 M → byte_key 32 key → keys32 (<[key := v]> M).
Proof.
  intros HM Hk key' [w Hw]. destruct (decide (key = key')) as [<-|Hne]; [done|].
  rewrite lookup_insert_ne in Hw by done. apply HM. by eexists.
Qed.

Lemma keys32_delete M key : keys32 M → keys32 (base.delete key M).
Proof. intros HM key' [w [_ Hw]%lookup_delete_Some]. apply HM. by eexists. Qed.

(** The arena has a trie on the way from the contents before the block to the
    contents [M'] after it, with contents [M] at this point; the keys [touched] can
    be looked up, and the keys [cleared] may be deleted. *)
Record following (present : bytes → bool) (K : bytes → Prop) (t : trie)
    (touched cleared : bytes → Prop) (M' : gmap bytes bytes) (m : Mpt) (M : gmap bytes bytes) : Prop := {
  following_models : models m t;
  following_canonical : canonical t;
  following_uniform : uniform 64 t;
  following_keys : keys32 M;
  following_loose : loose present K t (map_trie M);
  following_touched key : touched key → byte_key 32 key ∧ is_Ok (trie_get t (to_nibs key));
  following_cleared key : cleared key → K (to_nibs key);
  following_end k : K k → shortened_present present (path_end (map_trie M') k);
}.

Definition follows (touched cleared : bytes → Prop) (M' : gmap bytes bytes) (m : Mpt) (M : gmap bytes bytes) : Prop :=
  ∃ present K t, following present K t touched cleared M' m M.

Lemma follows_insert touched cleared M' m M key v :
  follows touched cleared M' m M → touched key → has_room m →
  ∃ r m', insert key v m = (Ok r, m') ∧ follows touched cleared M' m' (<[key := v]> M) ∧
    num_nodes m' ≤ num_nodes m + 3.
Proof.
  intros (present & K & t & [Hm Hct Hu HM Hl Ht Hc He]) Hkey Hroom.
  destruct (Ht key Hkey) as [Hk [o Hget]]. destruct (byte_key_nibs _ _ Hk) as [Hn Hlen].
  assert (well_formed t) as Hwf by (destruct Hct as [->|]; [constructor|by apply canonical_wf]).
  destruct (trie_insert_total 64 t (to_nibs key) v Hwf Hu Hn Hlen) as [(e & Herr & _)|(old & r & _ & Hins & _)];
    [congruence|].
  destruct (loose_insert present K t (map_trie M) (to_nibs key) v r Hl Hn Hins) as (R & HR & Hrel).
  destruct (map_trie_ok 32 M HM) as (HctM & HuM & HrM & HcM).
  assert (well_formed (map_trie M)) as HwfM by (destruct HctM as [->|]; [constructor|by apply canonical_wf]).
  pose proof (trie_insert_contents 32 _ M key v HctM HuM HrM HcM HwfM Hk) as Hcont. rewrite HR in Hcont.
  pose proof (models_insert m t (to_nibs key) v Hm Hn Hroom) as Hrun. rewrite Hins in Hrun.
  destruct r as [t'|], R as [T'|]; try done.
  - destruct Hrun as (m' & Hrun & Hm' & Hnum). destruct Hcont as (_ & HctT & HuT & HrT & HcT).
    exists true, m'. split_and!; [done| |done]. exists present, K, t'.
    assert (keys32 (<[key := v]> M)) as HM' by (by apply keys32_insert).
    split; [done|right; by eapply trie_insert_canonical|by eapply trie_insert_uniform|done| | |done|done].
    + by rewrite <-(map_trie_is T' _ HM').
    + intros key' Hkey'. destruct (Ht key' Hkey') as [Hk' [o' Hget']]. split; [done|].
      rewrite (trie_insert_get t (to_nibs key) v t') by (done || by destruct (byte_key_nibs _ _ Hk')).
      case_decide; [by eexists|by exists o'].
  - exists false, m. split_and!; [done| |lia]. rewrite insert_id by done. by exists present, K, t.
Qed.

Lemma follows_delete touched cleared M' m M key :
  follows touched cleared M' m M → touched key → cleared key →
  ∃ r m', Mpt.delete key m = (Ok r, m') ∧ follows touched cleared M' m' (base.delete key M) ∧
    num_nodes m' = num_nodes m.
Proof.
  intros (present & K & t & [Hm Hct Hu HM Hl Ht Hc He]) Hkey Hclear.
  destruct (Ht key Hkey) as [Hk [o Hget]]. destruct (byte_key_nibs _ _ Hk) as [Hn Hlen].
  assert (well_formed t) as Hwf by (destruct Hct as [->|]; [constructor|by apply canonical_wf]).
  destruct (trie_delete_total 64 t (to_nibs key) Hct Hu Hn Hlen) as [(e & Herr & _)|(old & r & _ & Hdel & _)];
    [congruence|].
  destruct (loose_delete present K t (map_trie M) (to_nibs key) r Hl (Hc key Hclear) Hn Hdel) as (R & HR & Hrel).
  destruct (map_trie_ok 32 M HM) as (HctM & HuM & HrM & HcM).
  pose proof (trie_delete_contents 32 _ M key HctM HuM HrM HcM Hk) as Hcont. rewrite HR in Hcont.
  pose proof (models_delete m t (to_nibs key) Hm Hn) as Hrun. rewrite Hdel in Hrun.
  pose proof (trie_delete_canonical t (to_nibs key) Hct Hn) as Hct'. rewrite Hdel in Hct'.
  destruct r as [t'|], R as [T'|]; try done.
  - destruct Hrun as (m' & Hrun & Hm' & Hnum). destruct Hcont as (_ & HctT & HuT & HrT & HcT).
    exists true, m'. split_and!; [done| |done]. exists present, K, t'.
    assert (keys32 (base.delete key M)) as HM' by (by apply keys32_delete).
    split; [done|done|by eapply trie_delete_uniform|done| | |done|done].
    + by rewrite <-(map_trie_is T' _ HM').
    + intros key' Hkey'. destruct (Ht key' Hkey') as [Hk' [o' Hget']]. split; [done|].
      rewrite (trie_delete_get t (to_nibs key) t') by (done || by destruct (byte_key_nibs _ _ Hk')).
      case_decide; [by eexists|by exists o'].
  - exists false, m. split_and!; [done| |done]. rewrite delete_id by done. by exists present, K, t.
Qed.

(** At the end the trie is a view of what it should be. *)
Lemma follows_root touched cleared m M :
  follows touched cleared M m M → ∃ m', hash m = (Ok (map_root M), m') ∧ same_nodes m m'.
Proof.
  intros (present & K & t & [Hm _ _ _ Hl _ _ He]). destruct (models_hash _ _ Hm) as (m' & Hrun & _ & Hsame).
  exists m'. split; [|done]. rewrite Hrun. do 2 f_equal. apply view_hash. by eapply loose_tight.
Qed.

Lemma follows_new touched cleared M' :
  (∀ key, touched key → byte_key 32 key) → follows touched cleared M' new ∅.
Proof.
  intros Ht. exists (λ _, true), (λ _, True), TNull.
  split; [apply models_new|by left|constructor|by intros key []|constructor| |done|done].
  intros key Hkey. split; [by apply Ht|]. by exists None.
Qed.

(** What is built from the nodes on the paths of the touched keys and the orphans
    of the cleared ones. *)
Lemma follows_built touched cleared store m M M' :
  keys32 M → keys32 M' → full (map_trie M) → full (map_trie M') →
  models m (expand (has_node store) (map_trie M)) →
  (∀ key, touched key → byte_key 32 key ∧ path_stored (map_trie M) store (to_nibs key)) →
  (∀ key, cleared key → byte_key 32 key ∧ M' !! key = None ∧ orphans_stored (map_trie M') (to_nibs key) store) →
  follows touched cleared M' m M.
Proof.
  intros HM HM' Hfull Hfull' Hm Ht Hc. destruct (map_trie_ok 32 M HM) as (Hct & Hu & Hr & Hcont).
  pose proof (expand_view (has_node store) (map_trie M)) as Hv.
  exists (has_node store), (λ k, ∃ key, cleared key ∧ k = to_nibs key), (expand (has_node store) (map_trie M)).
  split; [done| |by eapply view_uniform|done| | |by eauto|].
  - destruct Hct as [Hn|Hct]; [left; by rewrite Hn|right; by eapply view_canonical].
  - destruct Hct as [Hn|Hct]; [rewrite Hn; constructor|by apply loose_expand].
  - intros key Hkey. destruct (Ht key Hkey) as [Hk Hp]. split; [done|]. eexists.
    apply (resolved_get store (map_trie M) (to_nibs key)); [done|by apply map_trie_get].
  - intros k (key & Hkey & ->). destruct (Hc key Hkey) as (Hk & Hnone & Ho).
    apply orphans_shortened_present; [done| |done]. by rewrite map_trie_get, Hnone.
Qed.

(** ** The slots of an account *)

Definition slot_hash (w : U256 * StorageSlot) : bytes := keccak256 (u256_to_be_bytes w.1).

Definition slot_allowed (touched cleared : bytes → Prop) (w : U256 * StorageSlot) : Prop :=
  touched (slot_hash w) ∧ (present_value w.2 = 0%N → cleared (slot_hash w)).

Lemma follows_slot touched cleared M' m S w :
  follows touched cleared M' m (slot_trie S) → slot_allowed touched cleared w → has_room m →
  ∃ r m', run_op (slot_op w) m = (Ok r, m') ∧ follows touched cleared M' m' (slot_trie (apply_slot S w)) ∧
    num_nodes m' ≤ num_nodes m + 3.
Proof.
  intros Hf [Ht Hc] Hroom. rewrite <-spec_slot. unfold slot_op. fold (slot_hash w). case_decide as Hz; cbn [run_op spec_op snd].
  - destruct (follows_delete touched cleared M' m _ (slot_hash w) Hf Ht (Hc Hz)) as (r & m' & Hrun & Hf' & Hn).
    exists (RUpdated r), m'. erewrite machine_bind_ok by exact Hrun. split_and!; [done|done|lia].
  - destruct (follows_insert touched cleared M' m _ (slot_hash w) (rlp_encode (present_value w.2)) Hf Ht Hroom)
      as (r & m' & Hrun & Hf' & Hn).
    exists (RUpdated r), m'. by erewrite machine_bind_ok by exact Hrun.
Qed.

Lemma follows_slots touched cleared M' l m S :
  follows touched cleared M' m (slot_trie S) → Forall (slot_allowed touched cleared) l →
  (N.of_nat (num_nodes m) + 3 * N.of_nat (length l) + 3 < u32_modulus)%N →
  ∃ rs m', run_ops (slot_op <$> l) m = (Ok rs, m') ∧
    follows touched cleared M' m' (slot_trie (foldl apply_slot S l)).
Proof.
  intros Hf Hl. revert m S Hf. induction Hl as [|w l Hw Hl IH]; intros m S Hf Hroom; [by exists [], m|].
  cbn [length] in Hroom.
  destruct (follows_slot touched cleared M' m S w Hf Hw) as (r & m1 & Hrun1 & Hf1 & Hn); [unfold has_room; lia|].
  destruct (IH m1 (apply_slot S w) Hf1) as (rs & m2 & Hrun2 & Hf2); [lia|].
  exists (r :: rs), m2. unfold run_ops in *. cbn [fmap list_fmap mapM foldl].
  erewrite machine_bind_ok by exact Hrun1. by erewrite machine_bind_ok by exact Hrun2.
Qed.

(** ** One account *)

Definition slots_before (W : World) (e : Address * BundleAccount) : gmap B256 U256 :=
  if was_destroyed (ba_status e.2) then ∅ else slots W (keccak256 e.1).

(** The trie the slots are written to leads to the slots after the block. *)
Definition slots_follow (W W' : World) (s : EthereumState) (e : Address * BundleAccount) : Prop :=
  let start := start_trie s (keccak256 e.1) e.2 in
  (ba_storage e.2 = [] ∧ stands_for 32 start (slot_trie (slots_before W e))) ∨
  ∃ touched cleared, Forall (slot_allowed touched cleared) (ba_storage e.2) ∧
    follows touched cleared (slot_trie (slots W' (keccak256 e.1))) start (slot_trie (slots_before W e)).

Lemma slots_follow_root W W' s e :
  slots_follow W W' s e → slots_fit s e → slots W' (keccak256 e.1) = account_slots (slots W (keccak256 e.1)) e.2 →
  ∃ m', (run_ops (slot_op <$> ba_storage e.2);; hash) (start_trie s (keccak256 e.1) e.2) =
    (Ok (map_root (slot_trie (slots W' (keccak256 e.1)))), m').
Proof.
  intros Hf Hfit HW'. unfold account_slots in HW'. fold (slots_before W e) in HW'.
  destruct Hf as [[Hnil Hst]|(touched & cleared & Hall & Hf)].
  - rewrite Hnil in *. cbn in HW'. destruct (stands_for_hash _ _ _ Hst) as (m' & Hrun & _).
    exists m'. unfold run_ops. cbn [fmap list_fmap mapM]. exec. by rewrite HW', Hrun.
  - destruct (follows_slots touched cleared _ (ba_storage e.2) _ _ Hf Hall) as (rs & m1 & Hrun & Hf1).
    { unfold slots_fit in Hfit. exact Hfit. }
    rewrite <-HW' in Hf1. destruct (follows_root _ _ _ _ Hf1) as (m2 & Hh & _).
    exists m2. by erewrite machine_bind_ok by exact Hrun.
Qed.

(** The account can be written: its key, and its slots when it stays. *)
Definition account_follows (touched cleared : bytes → Prop) (W W' : World) (s : EthereumState)
    (e : Address * BundleAccount) : Prop :=
  touched (keccak256 e.1) ∧
  match ba_info e.2 with
  | Some _ => slots_follow W W' s e ∧ slots W' (keccak256 e.1) = account_slots (slots W (keccak256 e.1)) e.2
  | None => cleared (keccak256 e.1)
  end.

Lemma write_account_follows touched cleared W W' s e :
  follows touched cleared (account_trie W') (state_trie s) (account_trie W) →
  account_follows touched cleared W W' s e → slots_fit s e → has_room (state_trie s) →
  ∃ s', write_account e s = (Ok (), s') ∧
    follows touched cleared (account_trie W') (state_trie s') (account_trie (apply_account W e)) ∧
    elsewhere (keccak256 e.1) W (apply_account W e) s s' ∧
    num_nodes (state_trie s') ≤ num_nodes (state_trie s) + 3.
Proof.
  intros Hf [Ht Hcase] Hfit Hroom. destruct e as [address account]. cbn [fst snd] in *.
  destruct (ba_info account) as [info|] eqn:Hinfo.
  - destruct Hcase as [Hsf HW'].
    destruct (slots_follow_root W W' s (address, account) Hsf Hfit HW') as (m2 & Hrun). cbn [fst snd] in Hrun.
    rewrite (write_account_some _ _ _ _ Hinfo), Hrun. unfold insert_rlp.
    destruct (follows_insert touched cleared _ _ _ (keccak256 address)
      (rlp_encode (mkTrieAccount (ai_nonce info) (ai_balance info)
        (map_root (slot_trie (slots W' (keccak256 address)))) (ai_code_hash info))) Hf Ht Hroom)
      as (r & m' & -> & Hf' & Hn).
    eexists. split; [done|]. unfold apply_account. cbn [fst snd]. rewrite Hinfo. split_and!; [|intros h' Hne|done].
    + cbn [state_trie]. erewrite <-account_trie_insert. by rewrite <-HW'.
    + cbn. by rewrite lookup_insert_ne, set_slots_ne.
  - rewrite (write_account_none _ _ _ Hinfo).
    destruct (follows_delete touched cleared _ _ _ (keccak256 address) Hf Ht Hcase) as (r & m' & -> & Hf' & Hn).
    eexists. split; [done|]. unfold apply_account. cbn [fst snd]. rewrite Hinfo. split_and!; [|intros h' Hne|cbn; lia].
    + cbn [state_trie]. by erewrite <-account_trie_delete.
    + cbn. by rewrite lookup_delete_ne, set_slots_ne.
Qed.

(** ** The whole bundle *)

Lemma account_follows_next touched cleared W W1 W' s s1 h e :
  elsewhere h W W1 s s1 → h ≠ keccak256 e.1 →
  account_follows touched cleared W W' s e → account_follows touched cleared W1 W' s1 e.
Proof.
  intros Helse Hne [Ht Hcase]. destruct (Helse _ Hne) as [Htries Hslots]. split; [done|].
  destruct (ba_info e.2); [|done]. unfold slots_follow, slots_before, start_trie in *. by rewrite Htries, Hslots.
Qed.

Lemma update_follows touched cleared W W' s bundle :
  follows touched cleared (account_trie W') (state_trie s) (account_trie W) →
  Forall (account_follows touched cleared W W' s) bundle → ready W s bundle →
  ∃ s', update_from_bundle_state bundle s = (Ok (), s') ∧
    follows touched cleared (account_trie W') (state_trie s') (account_trie (apply_bundle W bundle)).
Proof.
  revert W s. induction bundle as [|e bundle IH]; intros W s Hf Hall Hr; [by exists s|].
  pose proof (ready_room _ _ _ _ Hr) as Hroom. apply Forall_cons in Hall as [He Hall].
  assert (slots_fit s e) as Hfit by (destruct Hr as (_ & _ & _ & Hfit); by apply Forall_cons in Hfit as [? _]).
  destruct (write_account_follows touched cleared W W' s e Hf He Hfit Hroom) as (s1 & Hrun & Hf1 & Helse & Hn).
  destruct (IH _ s1 Hf1) as (s2 & Hrun2 & Hf2); [|by eapply ready_next|].
  - destruct Hr as (Hnd & _). unfold distinct_accounts in Hnd. apply NoDup_cons in Hnd as [Hnin _].
    rewrite Forall_forall in Hall |- *. intros e' He'. eapply account_follows_next; [done| |by apply Hall].
    intros Heq. apply Hnin. rewrite Heq. by apply (list_elem_of_fmap_2 (λ e, keccak256 e.1)).
  - exists s2. unfold update_from_bundle_state in *. cbn [for_each]. by erewrite machine_bind_ok by exact Hrun.
Qed.

(** ** What the changes leave at one key *)

Lemma apply_slots_elsewhere l S k : k ∉ slot_hash <$> l → foldl apply_slot S l !! k = S !! k.
Proof.
  revert S. induction l as [|w l IH]; intros S Hk; [done|]. apply not_elem_of_cons in Hk as [Hne Hk].
  cbn [foldl]. rewrite IH by done. unfold apply_slot. fold (slot_hash w).
  case_decide; [by rewrite lookup_delete_ne|by rewrite lookup_insert_ne].
Qed.

Lemma apply_slots_cleared l S w :
  distinct_slots l → w ∈ l → present_value w.2 = 0%N → foldl apply_slot S l !! slot_hash w = None.
Proof.
  unfold distinct_slots. revert S. induction l as [|w' l IH]; intros S Hnd Hw Hz; [by apply elem_of_nil in Hw|].
  cbn [fmap list_fmap] in Hnd. apply NoDup_cons in Hnd as [Hnin Hnd]. cbn [foldl].
  apply elem_of_cons in Hw as [->|Hw]; [|by apply IH].
  rewrite apply_slots_elsewhere by done. unfold apply_slot. rewrite decide_True by done. apply lookup_delete_eq.
Qed.

Lemma apply_bundle_elsewhere W bundle h :
  h ∉ (λ e, keccak256 e.1) <$> bundle →
  slots (apply_bundle W bundle) h = slots W h ∧ accounts (apply_bundle W bundle) !! h = accounts W !! h.
Proof.
  revert W. induction bundle as [|e bundle IH]; intros W Hh; [done|]. apply not_elem_of_cons in Hh as [Hne Hh].
  destruct (IH (apply_account W e) Hh) as [Hs Ha].
  change (apply_bundle W (e :: bundle)) with (apply_bundle (apply_account W e) bundle). rewrite Hs, Ha.
  rewrite apply_account_elsewhere by done. split; [done|].
  unfold apply_account. destruct (ba_info e.2); cbn; [by rewrite lookup_insert_ne|by rewrite lookup_delete_ne].
Qed.

Lemma apply_account_local W W' e :
  slots W (keccak256 e.1) = slots W' (keccak256 e.1) →
  slots (apply_account W e) (keccak256 e.1) = slots (apply_account W' e) (keccak256 e.1) ∧
  accounts (apply_account W e) !! keccak256 e.1 = accounts (apply_account W' e) !! keccak256 e.1.
Proof.
  intros Hs. unfold apply_account. destruct (ba_info e.2); cbn; rewrite !set_slots_eq.
  - by rewrite !lookup_insert_eq, Hs.
  - by rewrite !lookup_delete_eq.
Qed.

Lemma apply_bundle_at W bundle e :
  distinct_accounts bundle → e ∈ bundle →
  slots (apply_bundle W bundle) (keccak256 e.1) = slots (apply_account W e) (keccak256 e.1) ∧
  accounts (apply_bundle W bundle) !! keccak256 e.1 = accounts (apply_account W e) !! keccak256 e.1.
Proof.
  unfold distinct_accounts. revert W. induction bundle as [|e' bundle IH]; intros W Hnd He; [by apply elem_of_nil in He|].
  apply NoDup_cons in Hnd as [Hnin Hnd]. apply elem_of_cons in He as [->|He].
  - apply (apply_bundle_elsewhere (apply_account W e')). done.
  - destruct (IH (apply_account W e') Hnd He) as [Hs Ha].
    change (apply_bundle W (e' :: bundle)) with (apply_bundle (apply_account W e') bundle).
    rewrite Hs, Ha. apply apply_account_local.
    apply apply_account_elsewhere. intros Heq. apply Hnin. rewrite Heq. by apply (list_elem_of_fmap_2 (λ e, keccak256 e.1)).
Qed.

(** ** On the host's tries *)

Definition slot_proven (proof : AccountProof) (w : U256 * StorageSlot) : Prop :=
  ∃ sp, sp ∈ ap_storage_proofs proof ∧ sp_key sp = u256_to_be_bytes w.1.

(** Every account the block changes was proven before and after it, with every slot
    that is written over an old value. *)
Definition changes_proven (parents : list (Address * AccountProof)) (proofs : gmap Address AccountProof)
    (bundle : BundleState) : Prop :=
  ∀ e, e ∈ bundle → distinct_slots (ba_storage e.2) ∧ ∃ proof fini,
    (e.1, proof) ∈ parents ∧ proofs !! e.1 = Some fini ∧
    (was_destroyed (ba_status e.2) = false →
     ∀ w, w ∈ ba_storage e.2 → slot_proven proof w ∧ slot_proven fini w).

Lemma built_slots_follow W W' parents proofs s bundle e :
  honest_proofs W W' parents proofs → W' ≡ apply_bundle W bundle → distinct_accounts bundle →
  changes_proven parents proofs bundle → transition_built W W' parents proofs s →
  e ∈ bundle → is_Some (ba_info e.2) → slots_follow W W' s e.
Proof.
  intros Hp [_ HW'] Hnd Hch Hb He [info Hinfo]. destruct (Hch e He) as (Hds & proof & fini & Hpar & Hfini & Hslots).
  destruct (built_slots _ _ _ _ _ Hb _ Hpar) as (t & fini' & Ht & Hfini' & _ & Hbuilt). cbn [fst snd] in *.
  rewrite Hfini in Hfini'. injection Hfini' as <-.
  assert (slots W' (keccak256 e.1) = foldl apply_slot (slots_before W e) (ba_storage e.2)) as Hafter.
  { rewrite HW'. destruct (apply_bundle_at W bundle e Hnd He) as [-> _].
    unfold apply_account. rewrite Hinfo. cbn. by rewrite set_slots_eq. }
  unfold slots_follow, start_trie, slots_before in *. destruct (was_destroyed (ba_status e.2)) eqn:Hwd.
  { right. exists (λ key, byte_key 32 key), (λ _, True). split.
    - apply Forall_forall. intros w _. split; [apply keccak_key|done].
    - assert (slot_trie ∅ = ∅) as -> by apply fmap_empty. by apply follows_new. }
  rewrite Ht. cbn [default]. destruct (ba_storage e.2) as [|w0 l] eqn:Hst.
  { left. split; [done|]. by apply (backs_storage _ _ (built_backs _ _ _ _ _ Hb)). }
  right. rewrite <-Hst in *. set (h := keccak256 e.1) in *.
  destruct (honest_each _ _ _ _ Hp _ Hpar) as (fini' & Hfini' & Hproven). cbn [fst snd] in *.
  rewrite Hfini in Hfini'. injection Hfini' as <-. pose proof (proven_pair _ _ _ _ _ Hproven) as Hpair.
  destruct Hbuilt as (store & Hm & Hpaths & Horph).
  { destruct (Hslots eq_refl w0) as [(sp & Hsp & _) _]; [rewrite Hst; left|]. by destruct (ap_storage_proofs proof); [apply elem_of_nil in Hsp|]. }
  exists (λ key, ∃ sp, sp ∈ ap_storage_proofs proof ∧ key = keccak256 (sp_key sp)),
    (λ key, ∃ w, w ∈ ba_storage e.2 ∧ present_value w.2 = 0%N ∧ key = slot_hash w). split.
  - apply Forall_forall. intros w Hw. split; [|by eauto]. destruct (Hslots eq_refl w Hw) as [(sp & Hsp & Hkey) _].
    exists sp. split; [done|]. unfold slot_hash. by rewrite Hkey.
  - apply (follows_built _ _ store); [apply slots_keys32, Hp|apply slots_keys32, Hp|apply Hpair|apply Hpair|done| |].
    + intros key (sp & Hsp & ->). split; [apply keccak_key|by apply Hpaths].
    + intros key (w & Hw & Hz & ->). split_and!; [apply keccak_key| |].
      * unfold slot_trie. rewrite lookup_fmap, Hafter, (apply_slots_cleared _ _ w); done.
      * destruct (Hslots eq_refl w Hw) as [_ (sp & Hsp & Hkey)]. unfold slot_hash. rewrite <-Hkey. by apply Horph.
Qed.

(** What the state trie needs for the accounts of the bundle. *)
Definition account_touched (parents : list (Address * AccountProof)) (key : bytes) : Prop :=
  ∃ e, e ∈ parents ∧ key = keccak256 e.1.
Definition account_cleared (bundle : BundleState) (key : bytes) : Prop :=
  ∃ e, e ∈ bundle ∧ ba_info e.2 = None ∧ key = keccak256 e.1.

Lemma built_state_follows W W' parents proofs s bundle :
  honest_proofs W W' parents proofs → W' ≡ apply_bundle W bundle → distinct_accounts bundle →
  changes_proven parents proofs bundle → transition_built W W' parents proofs s → parents ≠ [] →
  follows (account_touched parents) (account_cleared bundle) (account_trie W') (state_trie s) (account_trie W).
Proof.
  intros Hp [HW' _] Hnd Hch Hb Hne. destruct (built_state _ _ _ _ _ Hb Hne) as (store & Hm & Hall).
  pose proof (honest_pair _ _ _ _ Hp) as Hpair.
  apply (follows_built _ _ store); [apply accounts_keys32, Hp|apply accounts_keys32, Hp|apply Hpair|apply Hpair|done| |].
  - intros key (e & He & ->). split; [apply keccak_key|by apply Hall].
  - intros key (e & He & Hinfo & ->). destruct (Hch e He) as (_ & proof & fini & Hpar & _).
    split_and!; [apply keccak_key| |by apply (Hall _ Hpar)].
    unfold account_trie. rewrite lookup_fmap, HW'.
    destruct (apply_bundle_at W bundle e Hnd He) as [_ ->]. unfold apply_account. rewrite Hinfo. cbn.
    by rewrite lookup_delete_eq.
Qed.

Lemma built_accounts_follow W W' parents proofs s bundle :
  honest_proofs W W' parents proofs → W' ≡ apply_bundle W bundle → distinct_accounts bundle →
  changes_proven parents proofs bundle → transition_built W W' parents proofs s →
  Forall (account_follows (account_touched parents) (account_cleared bundle) W W' s) bundle.
Proof.
  intros Hp HW' Hnd Hch Hb. apply Forall_forall. intros e He.
  destruct (Hch e He) as (_ & proof & fini & Hpar & _). split; [by exists (e.1, proof)|].
  destruct (ba_info e.2) as [info|] eqn:Hinfo; [|by exists e]. split.
  - by eapply built_slots_follow; [..|rewrite Hinfo; eexists].
  - destruct HW' as [_ ->]. destruct (apply_bundle_at W bundle e Hnd He) as [-> _].
    unfold apply_account. rewrite Hinfo. cbn. by rewrite set_slots_eq.
Qed.

Lemma built_ready W W' parents proofs s bundle :
  changes_proven parents proofs bundle → transition_built W W' parents proofs s →
  distinct_accounts bundle → accounts_fit s bundle → Forall (slots_fit s) bundle → ready W s bundle.
Proof.
  intros Hch Hb Hnd Hacc Hfit. split_and!; [done|done| |done].
  apply Forall_forall. intros e He Hnone. destruct (Hch e He) as (_ & proof & fini & Hpar & _).
  destruct (built_slots _ _ _ _ _ Hb _ Hpar) as (t & _ & Ht & _). cbn [fst] in Ht. congruence.
Qed.

(** On any state built from the proofs, the update ends at the root after the block. *)
Lemma built_completes W W' parents proofs bundle s :
  honest_proofs W W' parents proofs → W' ≡ apply_bundle W bundle →
  distinct_accounts bundle → changes_proven parents proofs bundle →
  transition_built W W' parents proofs s → accounts_fit s bundle → Forall (slots_fit s) bundle →
  ∃ s' m', update_from_bundle_state bundle s = (Ok (), s') ∧ hash (state_trie s') = (Ok (world_root W'), m').
Proof.
  intros Hp HW' Hnd Hch Hb Hacc Hfit. destruct bundle as [|e bundle].
  { destruct (stands_for_hash _ _ _ (backs_state _ _ (built_backs _ _ _ _ _ Hb))) as (m' & Hh & _).
    exists s, m'. split; [done|]. rewrite Hh. by rewrite HW'. }
  assert (parents ≠ []) as Hne.
  { destruct (Hch e ltac:(left)) as (_ & proof & fini & Hpar & _). intros ->. by apply elem_of_nil in Hpar. }
  destruct (update_follows (account_touched parents) (account_cleared (e :: bundle)) W W' s (e :: bundle))
    as (s' & Hupd & Hfol); [by eapply built_state_follows|by eapply built_accounts_follow|by eapply built_ready|].
  assert (account_trie (apply_bundle W (e :: bundle)) = account_trie W') as Heq.
  { destruct HW' as [Ha _]. unfold account_trie. by rewrite Ha. }
  rewrite Heq in Hfol. destruct (follows_root _ _ _ _ Hfol) as (m' & Hh & _). by exists s', m'.
Qed.

(** C4: The host's witness is enough for the block.  When an honest provider proves
    what the block changes, accounts and slots, before and after it, then on the
    tries that [transition_proofs_to_tries] builds [update_from_bundle_state]
    succeeds and gives the state root after the block, whatever the order in which
    accounts and slots are visited.  A deletion that merges a branch with a node no
    proof before the block has, without seeing it, makes the tries wrong for a
    while; by the end an insertion has parted them again, or the node was one of the
    shortened forms the host added for an absent key. *)
Theorem host_witness_completes_block fuel W W' parents proofs bundle s :
  129 ≤ fuel → honest_proofs W W' parents proofs → W' ≡ apply_bundle W bundle →
  distinct_accounts bundle → changes_proven parents proofs bundle →
  transition_proofs_to_tries fuel (world_root W) parents proofs = Ok s →
  accounts_fit s bundle → Forall (slots_fit s) bundle →
  ∃ s' m', update_from_bundle_state bundle s = (Ok (), s') ∧ hash (state_trie s') = (Ok (world_root W'), m').
Proof.
  intros Hf Hp HW' Hnd Hch Hrun Hacc Hfit.
  destruct (transition_proofs_built fuel W W' parents proofs Hf Hp) as (s0 & Hrun0 & Hb).
  rewrite Hrun in Hrun0. injection Hrun0 as <-. by apply (built_completes W W' parents proofs).
Qed.
End update.
