(* ===== verification/Resolver.v ===== *)
(** * Resolving a trie from its nodes ([crates/mpt/src/resolver.rs])

    [MptResolver] has the encodings of nodes by their hashes and builds the trie
    below a root hash; hashes it has no node for stay digests. *)

From S2P Require Import Prelude External Node Hp Mpt Owned.

(** [MptResolver { node_store }] *)
Definition MptResolver : Type := gmap B256 bytes.

(** [MptResolver::new], and [from_iter]: the last of several nodes stays. *)
Definition new_resolver (node_store : gmap B256 bytes) : MptResolver := node_store.
Definition resolver_from_iter (l : list (B256 * bytes)) : MptResolver :=
  list_to_map (reverse l).

Section resolver.
Context `{Crates}.
Variable node_store : MptResolver.

(** [fuel] is the depth of the recursion; nodes that refer to each other in a
    circle would exhaust any stack. *)
Fixpoint resolve_internal (fuel : nat) (node_bytes : bytes) : machine MptOwned Error NodeId :=
  match fuel with
  | 0 => lift OutOfFuel
  | S fuel' =>
      '(view, _) ← lift (map_err RlpError (header_decode_raw node_bytes));
      match view with
      | StringView item =>
          if decide (length item = 0) then mret NULL_NODE_ID
          else if decide (length item = 32) then
            match node_store !! item with
            | Some resolved_node_bytes => resolve_internal fuel' resolved_node_bytes
            | None => owned_add_node (Digest item)
            end
          else throw (RlpError UnexpectedLength)
      | ListView items =>
          match items with
          | [item0; item1] =>
              '(path, _) ← lift (map_err RlpError (header_decode_bytes item0 false));
              prefix ← lift (index path 0);
              if decide (u8_and prefix (u8_shl 2 4) = 0%N) then
                ext_node_id ← resolve_internal fuel' item1;
                owned_add_node (Extension path ext_node_id)
              else
                '(value, _) ← lift (map_err RlpError (header_decode_bytes item1 false));
                owned_add_node (Leaf path value)
          | _ =>
              if decide (length items = 17) then
                last ← lift (index items 16);
                if decide (last ≠ NULL_NODE_REF_SLICE) then throw ValueInBranch
                else
                  childs ← mapM (λ item,
                    child_id ← resolve_internal fuel' item;
                    mret (if decide (child_id = NULL_NODE_ID) then None else Some child_id))
                    (take 16 items);
                  owned_add_node (Branch childs)
              else throw (RlpError UnexpectedLength)
          end
      end
  end.

Definition resolve (fuel : nat) (root : B256) : outcome Error Mpt :=
  let rlp_root := (EMPTY_STRING_CODE + 32)%N :: root in
  match resolve_internal fuel rlp_root owned_default with
  | (Ok root_id, mpt) => Ok (set_root_id root_id mpt)
  | (Err e, _) => Err e
  | (Panic p, _) => Panic p
  | (OutOfFuel, _) => OutOfFuel
  end.
End resolver.
