(* ===== verification/ResolverSpec.v ===== *)
(** * The resolver builds what its store has of a trie

    [MptResolver] on a store of encodings by their hashes gives the part of the
    trie that is in the store, and the whole trie on the payloads of all nodes. *)

From S2P Require Import Prelude External Node Hp Mpt Trie TrieLaws TrieHash MptRefine MptHash MptSpec.
From S2P Require Import TrieMap View Stateless Codec CodecLaws TrieBounds Decode Evm State StateSpec.
From S2P Require Import Client ClientSpec Owned Growth Expand ProofNodes FromProof ResolveSpec ProofStore.
From S2P Require Import FromProofSpec TransitionSpec Resolver.

Section resolver.
Context `{CratesOk}.
Variable store : MptResolver.

(** The store's node for a digest of [T]'s is the one [T] has. *)
Definition supplies (T : trie) : Prop :=
  ∀ u d b, subtrie u T → digest_of u = Some d → store !! d = Some b → b = trie_rlp u.

Definition stored_part : trie → trie := expand (has_node store).

(** [resolve_internal] adds [t] for the item. *)
Definition resolves_item (fuel : nat) (item : bytes) (t : trie) : Prop :=
  ∀ m, room_for (trie_size t) m →
  ∃ m' a, resolve_internal store fuel item m = (Ok (root a), m') ∧ erase a = t ∧ grown m m' a.

Definition resolve_slot_item (fuel : nat) (item : bytes) : machine MptOwned Error (option NodeId) :=
  child_id ← resolve_internal store fuel item;
  mret (if decide (child_id = NULL_NODE_ID) then None else Some child_id).

Lemma resolves_item_slot fuel item t : resolves_item fuel item t → adds (resolve_slot_item fuel item) (Some t).
Proof.
  intros Ht m Hready. destruct (Ht m Hready) as (m' & a & Hrun & He & Hg). exists m', a.
  split_and!; [|done|done]. unfold resolve_slot_item. erewrite machine_bind_ok by exact Hrun.
  by rewrite decide_False by (by eapply grown_root_null).
Qed.

Lemma resolves_no_item fuel : adds (resolve_slot_item (S fuel) [EMPTY_STRING_CODE]) None.
Proof.
  intros m _. unfold resolve_slot_item. cbn [resolve_internal].
  rewrite decode_raw_null. cbn [map_err]. exec. by rewrite decide_True.
Qed.

Lemma resolves_digest_item T fuel c d :
  supplies T → subtrie c T → trie_ref c = DigestRef d → length d = 32 →
  (is_Some (store !! d) → resolves_item fuel (trie_rlp c) (stored_part c)) →
  resolves_item (S fuel) ((EMPTY_STRING_CODE + 32)%N :: d) (if has_node store d then stored_part c else TDigest d).
Proof.
  intros Hsup Hsub Hr Hd Hc m Hready. cbn [resolve_internal].
  pose proof (decode_raw_digest d [] Hd) as Hraw. rewrite app_nil_r in Hraw. rewrite Hraw.
  cbn [map_err]. exec. rewrite decide_False by lia. rewrite decide_True by done.
  assert (has_node store d = bool_decide (is_Some (store !! d))) as Hhas by done.
  destruct (has_node store d).
  - symmetry in Hhas. apply bool_decide_eq_true in Hhas as [b Hb]. rewrite Hb.
    assert (b = trie_rlp c) as -> by (apply (Hsup c d); [done|unfold digest_of; by rewrite Hr|done]).
    apply Hc; [by eexists|done].
  - symmetry in Hhas. apply bool_decide_eq_false, eq_None_not_Some in Hhas. rewrite Hhas.
    destruct (grown_leaf (Digest d) (ADigest (num_nodes m) d) m) as [Hadd Hg]; [done..|].
    by eexists _, (ADigest (num_nodes m) d).
Qed.

Lemma resolves_child_item T fuel c :
  supplies T → subtrie c T → known c → 2 * height c ≤ fuel →
  (∀ fuel', 2 * height c ≤ S fuel' → resolves_item fuel' (trie_rlp c) (stored_part c)) →
  resolves_item fuel (ref_bytes (trie_ref c)) (reach (has_node store) stored_part c).
Proof.
  intros Hsup Hsub Hk Hf Hc. unfold reach. destruct (trie_ref c) as [s|d] eqn:Hr; cbn [ref_bytes].
  - apply proper_bytes_ref in Hr as (_ & -> & _); [|apply canonical_proper, Hk|apply Hk]. apply Hc. lia.
  - pose proof (height_pos c). destruct fuel as [|fuel]; [lia|].
    eapply resolves_digest_item; [done..|by eapply known_digest_length|]. intros _. apply Hc. lia.
Qed.

Lemma resolves_node_item T u :
  supplies T → subtrie u T → known u →
  ∀ fuel, 2 * height u ≤ S fuel → resolves_item fuel (trie_rlp u) (stored_part u).
Proof.
  intros Hsup. induction u as [|d|path v|path c IH|cs IH] using trie_nested_ind; intros Hsub Hk fuel Hf m Hready;
    pose proof (known_list_node _ Hk) as Hl; try done; pose proof Hk as (Hct & _ & Hs); cbn [height] in Hf;
    (destruct fuel as [|fuel]; [lia|]); cbn [resolve_internal];
    pose proof (decode_raw_node _ [] Hs Hl) as Hraw; rewrite app_nil_r in Hraw; rewrite Hraw;
    cbn [map_err]; exec.
  - inversion Hct as [|nibs ? Hn| |]; subst. inversion Hs as [| |? ? Hfp Hfv _| |]; subst. cbn [node_items].
    rewrite <-(app_nil_r (slice_encode (hp_encode nibs true))), header_decode_bytes_string by done.
    cbn [map_err]. exec. destruct (path_flag nibs true Hn) as (prefix & tail & -> & Hflag).
    unfold index. cbn [lookup list_lookup]. exec. rewrite decide_False by (by intros ?%Hflag).
    rewrite <-(app_nil_r (slice_encode v)), header_decode_bytes_string by done. cbn [map_err]. exec.
    destruct (grown_leaf (Leaf (prefix :: tail) v) (ALeaf (num_nodes m) (prefix :: tail) v) m)
      as [Hadd Hg]; [done..|].
    by eexists _, (ALeaf (num_nodes m) (prefix :: tail) v).
  - inversion Hct as [| |nibs ? Hn Hne Hb Hc|]; subst. inversion Hs as [| | |? ? Hfp _ Hsc|]; subst. cbn [node_items].
    assert (subtrie c T) as Hsubc by (by eapply subtrie_trans; [|exact Hsub]; constructor; constructor).
    assert (known c) as Hkc by (by eapply known_extension).
    rewrite <-(app_nil_r (slice_encode (hp_encode nibs false))), header_decode_bytes_string by done.
    cbn [map_err]. exec. destruct (path_flag nibs false Hn) as (prefix & tail & Hpath & Hflag).
    rewrite Hpath. unfold index. cbn [lookup list_lookup]. exec. rewrite decide_True by (by apply Hflag).
    unfold stored_part in Hready |- *. cbn [expand trie_size] in Hready |- *.
    destruct (resolves_child_item T fuel c) with (m := m) as (m' & a & Hrun & He & Hg);
      [done|done|done|lia|by intros; apply IH|by eapply room_for_weaken; [|exact Hready]; unfold stored_part; lia|].
    erewrite machine_bind_ok by exact Hrun.
    destruct (grown_extension m m' (prefix :: tail) a None Hg) as [Hr' Hg']; [by rewrite He|done|].
    rewrite owned_add_push by (destruct Hr'; lia).
    eexists _, (AExtension (num_nodes m') (prefix :: tail) a). split_and!; [done| |done].
    cbn. by rewrite He, <-Hpath.
  - inversion Hct as [| | |? Hlen Hrem Hcs]; subst.
    destruct (branch_items cs Hlen) as (Hl17 & Hlast & Htake).
    rewrite match_branch_items, decide_True by done. unfold index. rewrite Hlast. exec.
    rewrite decide_False by (intros Hne; by apply Hne). rewrite Htake.
    unfold stored_part in Hready |- *. rewrite expand_branch in Hready |- *.
    destruct (mapM_adds (resolve_slot_item fuel) (slot_bytes <$> cs)
      (option_map (reach (has_node store) stored_part) <$> cs) m) as (m' & acs & Hrun & He & Hg).
    { apply Forall2_fmap, Forall_Forall2_diag, Forall_lookup. intros i o Hi. destruct o as [c|].
      - pose proof (height_child _ _ _ Hi) as Hh. cbn [height] in Hh.
        assert (subtrie c T) as Hsubc.
        { eapply subtrie_trans; [|exact Hsub]. eapply subtrie_slot; [done|constructor]. }
        apply resolves_item_slot, (resolves_child_item T); [done..|by eapply known_slot|lia|].
        intros. eapply IH; try done. by eapply known_slot.
      - destruct fuel; [|apply resolves_no_item]. exfalso.
        destruct (remaining_children cs) as [|[j c] rest] eqn:Hrc; [cbn in Hrem; lia|].
        assert (cs !! j = Some (Some c)) as Hj by (apply elem_of_remaining; rewrite Hrc; left).
        pose proof (height_child _ _ _ Hj) as Hh. pose proof (height_pos c). cbn [height] in Hh. lia. }
    { by eapply room_for_weaken; [|exact Hready]; rewrite trie_size_branch; unfold stored_part; lia. }
    erewrite machine_bind_ok by exact Hrun. rewrite trie_size_branch in Hready.
    change (expand (has_node store)) with stored_part in Hready. rewrite <-He in Hready.
    destruct (grown_branch m m' acs None Hg Hready) as [Hr' Hg']; [done|].
    rewrite owned_add_push by (destruct Hr'; lia).
    eexists _, (ABranch (num_nodes m') acs). split_and!; [done| |done].
    by rewrite erase_branch, He.
Qed.

(** From the root hash: the part that is there, or a digest if the root is not. *)
Lemma resolve_spec fuel T :
  supplies T → known T → indexable T → 2 * height T ≤ fuel → trie_ref T = DigestRef (trie_hash T) →
  ∃ m, resolve store fuel (trie_hash T) = Ok m ∧
    models m (if has_node store (trie_hash T) then stored_part T else TDigest (trie_hash T)).
Proof.
  intros Hsup Hk Hi Hf Hroot. pose proof (known_digest_length _ _ Hk Hroot) as Hlen.
  pose proof (height_pos T). destruct fuel as [|fuel]; [lia|]. unfold resolve.
  pose proof (resolves_digest_item T fuel T (trie_hash T) Hsup ltac:(constructor) Hroot Hlen) as Hitem.
  destruct Hitem with (m := new) as (m & a & Hrun & He & Hg).
  - intros _. apply (resolves_node_item T T Hsup ltac:(constructor) Hk). lia.
  - apply room_for_new. pose proof (expand_size (has_node store) T). unfold indexable in Hi.
    unfold stored_part. pose proof (trie_size_pos T). destruct (has_node store _); cbn [trie_size]; lia.
  - change owned_default with new. rewrite Hrun. eexists. split; [done|]. rewrite <-He.
    eapply grown_models; [done|by split|]. rewrite He. destruct (has_node store _); [|by constructor].
    apply proper_wf, proper_expand, canonical_proper, Hk.
Qed.
End resolver.
