(* ===== verification/PayloadSpec.v ===== *)
(** * The payloads of a trie, and resolving them again

    [payloads] lists the encodings of all nodes; a resolver that has them by
    their hashes gives the trie back. *)

From S2P Require Import Prelude External Concrete Node Hp Mpt Trie TrieLaws TrieHash MptRefine MptHash MptSpec.
From S2P Require Import TrieMap View Stateless Codec CodecLaws TrieBounds Decode Evm ConcreteEvm State StateSpec.
From S2P Require Import Client ClientSpec Owned Growth Expand ProofNodes FromProof ResolveSpec ProofStore.
From S2P Require Import FromProofSpec TransitionSpec Resolver ResolverSpec.

Section payloads.
Context `{CratesOk}.

(** Reading the subtree [a] with [f] gives [out] of its tree. *)
Definition traverses {B} (f : NodeId → machine Mpt Error B) (out : trie → B) (bound : nat) (a : atrie) : Prop :=
  ∀ m, good m a → scratch_free m → bound ≤ mpt_fuel m →
  ∃ m', f (root a) m = (Ok (out (erase a)), m') ∧ fills m m' (root <$> subtries a) ∧
    Forall (node_ok m') (subtries a).

(** ... and so for the children of a branch, one after the other. *)
Lemma children_traverse {B} (f : NodeId → machine Mpt Error B) out bound cs m :
  (∀ j c, cs !! j = Some (Some c) → traverses f out bound c) →
  NoDup (root <$> slots_below cs) → Forall (node_ok m) (slots_below cs) → scratch_free m →
  bound ≤ mpt_fuel m →
  ∃ m', mapM f (omap id (option_map root <$> cs)) m = (Ok ((λ c, out (erase c)) <$> omap id cs), m') ∧
    fills m m' (root <$> slots_below cs) ∧ Forall (node_ok m') (slots_below cs).
Proof.
  revert m. induction cs as [|o cs IH]; intros m Hspec Hnd Hall Hfree Hh.
  { exists m. split_and!; [done|apply fills_refl|constructor]. }
  rewrite slots_below_cons in *. rewrite fmap_app in Hnd. apply NoDup_app in Hnd as (Hnd & Hdis & Hnd').
  apply Forall_app in Hall as [Ho Hall]. specialize (λ j, Hspec (S j)) as Hspec'.
  destruct o as [c|]; cbn [fmap list_fmap option_map omap list_omap id from_option].
  - destruct (Hspec 0 c eq_refl m) as (m1 & Hrun & Hf1 & Hok1); [done..|].
    cbn [mapM]. erewrite machine_bind_ok by exact Hrun.
    assert (Forall (node_ok m1) (slots_below cs)) as Hall1.
    { rewrite Forall_forall in Hall |- *. intros x Hx. eapply fills_node_ok; [done| |by apply Hall].
      intros Hin. apply (Hdis _ Hin). by apply list_elem_of_fmap_2. }
    destruct (IH m1) as (m2 & Hrun2 & Hf2 & Hok2); [exact Hspec'|done|done| | |].
    { unfold scratch_free. by rewrite (fills_scratch _ _ _ Hf1). }
    { by rewrite (fills_fuel _ _ _ Hf1). }
    erewrite machine_bind_ok by exact Hrun2. exists m2. split_and!; [done| |].
    + rewrite fmap_app. by eapply fills_trans.
    + apply Forall_app. split; [|done]. rewrite Forall_forall in Hok1 |- *. intros x Hx.
      eapply fills_node_ok; [done| |by apply Hok1].
      intros Hin. eapply Hdis; [|done]. by apply list_elem_of_fmap_2.
  - apply IH; done.
Qed.

Lemma encodings_branch i cs :
  encodings (erase (ABranch i cs)) =
  trie_rlp (erase (ABranch i cs)) :: concat ((λ c, encodings (erase c)) <$> omap id cs).
Proof.
  rewrite erase_branch. cbn [encodings]. f_equal. induction cs as [|[c|] cs IH]; [done| |done].
  cbn. by rewrite <-IH.
Qed.

Lemma payloads_refines a fuel :
  well_formed (erase a) → height (erase a) ≤ fuel →
  traverses (payloads_internal fuel) encodings (height (erase a)) a.
Proof.
  revert fuel. induction a as [i|i d|i p v|i p c IH|i cs IH] using atrie_nested_ind;
    intros fuel Hwf Hf m Hgood Hfree Hh; (destruct fuel as [|fuel]; [cbn in Hf; lia|]);
    destruct (encode_node_spec _ m Hgood Hwf Hfree Hh) as (m1 & Hrun & Hf1 & Hok1);
    apply machine_bind_inv in Hrun as (plen & s1 & Hlen & Hrun);
    apply machine_bind_inv in Hrun as (enc & s2 & Henc & Hrun); injection Hrun as -> -> ->;
    cbn [payloads_internal]; exec;
    erewrite machine_bind_ok by exact Hlen; erewrite machine_bind_ok by exact Henc; cbn beta zeta;
    inversion Hok1 as [|? ? Hroot1 Hbelow1]; subst; destruct Hroot1 as [Hs1 Hc1];
    erewrite machine_bind_ok by (by apply node_at_ok);
    (assert (scratch_free m1) as Hfree1 by (unfold scratch_free; by rewrite (fills_scratch _ _ _ Hf1)));
    pose proof (fills_fuel _ _ _ Hf1) as Hfuel1; destruct Hgood as [_ Hnd]; apply NoDup_cons in Hnd as [Hnin Hnd].
  1-3: (exists m1; split_and!; [done| |done]; eapply fills_weaken; [|done]; set_solver).
  - cbn [data]. destruct (IH fuel) with (m := m1) as (m2 & Hrun & Hf2 & Hok2);
      [by inversion Hwf|cbn in Hf; lia|by split|done|cbn in Hh; lia|].
    erewrite machine_bind_ok by exact Hrun. exists m2. split_and!; [done| |].
    + eapply fills_weaken; [|eapply fills_trans; [exact Hf1|exact Hf2]].
      intros j. rewrite elem_of_app. intros [Hj|Hj]; right; exact Hj.
    + constructor; [|done]. by eapply fills_node_ok; [done|exact Hnin|].
  - cbn [data]. destruct (children_traverse (payloads_internal fuel) encodings (height (erase (ABranch i cs)) - 1) cs m1)
      as (m2 & Hrun & Hf2 & Hok2); [|exact Hnd|exact Hbelow1|done|lia|].
    { intros j c Hj. pose proof (child_of_height c (ABranch i cs) ltac:(by exists j)) as Hlt.
      intros m' Hg' Hfree' Hh'. apply (IH _ _ Hj); [| |done|done|lia].
      - eapply (child_of_wf _ (ABranch i cs)); [by exists j|done].
      - lia. }
    rewrite machine_bind_bind. erewrite machine_bind_ok by exact Hrun. exec.
    exists m2. split_and!; [by rewrite encodings_branch| |].
    + eapply fills_weaken; [|eapply fills_trans; [exact Hf1|exact Hf2]].
      intros j. rewrite elem_of_app. intros [Hj|Hj]; right; exact Hj.
    + constructor; [|done]. by eapply fills_node_ok; [done|exact Hnin|].
Qed.

Lemma models_payloads m t :
  models m t → ∃ m', payloads m = (Ok (encodings t), m') ∧ same_nodes m m'.
Proof.
  intros Hm. pose proof (models_fuel _ _ Hm) as Hf.
  destruct Hm as (a & Hr & Hroot & <- & Hrest & Hwf).
  destruct (payloads_refines a (mpt_fuel m) Hwf Hf m) as (m' & Hrun & Hfill & _); [exact Hr|apply Hrest|done|].
  exists m'. unfold payloads. exec. rewrite <-Hroot. split; [exact Hrun|]. split; apply Hfill.
Qed.

(** ** Stores of payloads *)

(** The resolver's store for a list of payloads. *)
Definition payload_store (ps : list bytes) : MptResolver :=
  resolver_from_iter ((λ p, (keccak256 p, p)) <$> ps).

(** Every entry is at its hash. *)
Definition addressed (store : MptResolver) : Prop := ∀ d b, store !! d = Some b → d = keccak256 b.

Lemma payload_store_lookup ps d b : payload_store ps !! d = Some b → d = keccak256 b ∧ b ∈ ps.
Proof.
  intros Hd%elem_of_list_to_map_2. rewrite elem_of_reverse in Hd.
  apply list_elem_of_fmap in Hd as (p & [= -> ->] & Hp). done.
Qed.

Lemma payload_store_has ps p : p ∈ ps → is_Some (payload_store ps !! keccak256 p).
Proof.
  intros Hp. destruct (payload_store ps !! keccak256 p) eqn:He; [by eexists|]. exfalso.
  apply not_elem_of_list_to_map_2 in He. apply He. rewrite fmap_reverse, elem_of_reverse.
  apply list_elem_of_fmap. exists (keccak256 p, p). split; [done|]. by apply (list_elem_of_fmap_2 (λ p, (keccak256 p, p))).
Qed.

(** An entry has the hash of a node of [T] only if it is the node's encoding. *)
Definition store_authentic (store : MptResolver) (T : trie) : Prop :=
  ∀ d b y, store !! d = Some b → y ∈ encodings T → keccak256 b = keccak256 y → b = y.

Lemma addressed_supplies store T :
  addressed store → store_authentic store T → known T → supplies store T.
Proof.
  intros Ha Hauth Hk u d b Hu Hd Hb. apply (Hauth d); [done|by apply subtrie_encodings|].
  rewrite <-(Ha _ _ Hb). apply digest_of_known; [|done]. by eapply known_subtrie.
Qed.

Lemma expand_whole present t :
  (∀ u d, subtrie u t → digest_of u = Some d → present d = true) → expand present t = t.
Proof.
  assert (∀ c, (∀ u d, subtrie u c → digest_of u = Some d → present d = true) → expand present c = c →
    reach present (expand present) c = c) as Hreach.
  { intros c Hall Hc. unfold reach. destruct (trie_ref c) as [s|d] eqn:Hr; [done|].
    by rewrite (Hall c d) by (constructor || unfold digest_of; by rewrite Hr). }
  induction t as [|d|path v|path c IH|cs IH] using trie_nested_ind; intros Hall; try done.
  - cbn. f_equal. assert (∀ u d, subtrie u c → digest_of u = Some d → present d = true) as Hc.
    { intros u d Hu. apply Hall. by constructor. }
    apply Hreach; [done|by apply IH].
  - rewrite expand_branch. f_equal. apply list_eq. intros i. rewrite list_lookup_fmap.
    destruct (cs !! i) as [[c|]|] eqn:Hi; try done. cbn. do 2 f_equal.
    assert (∀ u d, subtrie u c → digest_of u = Some d → present d = true) as Hc.
    { intros u d Hu. apply Hall. by eapply subtrie_slot. }
    apply Hreach; [done|by eapply IH].
Qed.

Lemma map_root_digest M :
  keys32 M → known (map_trie M) → trie_ref (map_trie M) = DigestRef (map_root M).
Proof.
  intros HM (Hct & _ & Hs). destruct (map_trie_ok 32 M HM) as (_ & Hu & _).
  apply (root_digest 64); [lia|exact Hu|done|done].
Qed.

Lemma map_trie_height M : keys32 M → height (map_trie M) ≤ 65.
Proof. intros HM. destruct (map_trie_ok 32 M HM) as (Hct & Hu & _). by apply canonical_height in Hu. Qed.

(** C30: The resolver's contract.  On a store that has encodings at their hashes,
    none of them colliding with a node of the trie of [M], the resolver succeeds on
    the root hash of [M] with at most 130 nested calls: the trie has that root hash,
    tells nothing wrong of [M], and has the value, or the absence, of each key whose
    path is in the store. *)
Theorem resolver_builds_view fuel store M :
  keys32 M → known (map_trie M) → indexable (map_trie M) → 130 ≤ fuel →
  addressed store → store_authentic store (map_trie M) →
  ∃ m, resolve store fuel (map_root M) = Ok m ∧ stands_for 32 m M ∧ (hash m).1 = Ok (map_root M) ∧
    ∀ key, byte_key 32 key → is_Some (store !! map_root M) →
      (∀ d, d ∈ path_digests (map_trie M) (to_nibs key) → is_Some (store !! d)) →
      get m key = Ok (M !! key).
Proof.
  intros HM Hk Hi Hf Ha Hauth. pose proof (map_trie_height M HM).
  destruct (resolve_spec store fuel (map_trie M)) as (m & Hrun & Hm);
    [by apply addressed_supplies|done|done|lia|by apply map_root_digest|].
  change (trie_hash (map_trie M)) with (map_root M) in *. exists m.
  assert (stands_for 32 m M) as Hst.
  { destruct (has_node store (map_root M)); [by eapply expand_stands_for|].
    destruct (map_trie_ok 32 M HM) as (Hct & Hu & Hr & Hc). left.
    exists (TDigest (map_root M)), (map_trie M). split_and!; try done; [|constructor|].
    - right. constructor. by eapply map_root_length.
    - constructor. by apply map_root_digest. }
  split_and!; [done|done|by apply stands_for_root|].
  intros key Hkey Hroot Hpath. unfold has_node in Hm. rewrite bool_decide_eq_true_2 in Hm by done.
  rewrite (models_get _ _ _ Hm). apply expand_get; [|by apply map_trie_get].
  intros d Hd. by apply bool_decide_eq_true, Hpath.
Qed.

(** C29: Payloads and resolver are inverse: for an arena that holds a map with
    32-byte keys, [payloads] succeeds without touching the nodes, and a resolver of
    these payloads by their hashes gives, from the root hash, an arena that holds the
    same map. *)
Theorem payloads_resolve_back fuel m M :
  holds 32 m M → known (map_trie M) → indexable (map_trie M) → 130 ≤ fuel →
  no_collision (encodings (map_trie M)) →
  ∃ ps m1 m2, payloads m = (Ok ps, m1) ∧ same_nodes m m1 ∧ (hash m).1 = Ok (map_root M) ∧
    resolve (payload_store ps) fuel (map_root M) = Ok m2 ∧ holds 32 m2 M ∧ (hash m2).1 = Ok (map_root M).
Proof.
  intros (t & Hm & Hct & Hu & Hr & Hc) Hk Hi Hf Hcoll.
  assert (keys32 M) as HM by exact (proj2 Hc). pose proof (map_trie_height M HM).
  destruct (map_trie_ok 32 M HM) as (Hct' & Hu' & Hr' & Hc').
  assert (t = map_trie M) as -> by (by eapply contents_unique).
  destruct (models_payloads _ _ Hm) as (m1 & Hps & Hsame).
  set (store := payload_store (encodings (map_trie M))).
  assert (supplies store (map_trie M)) as Hsup.
  { apply addressed_supplies; [|intros d b y Hb Hy; apply Hcoll; [|done]|done];
      [intros d b|]; by eapply payload_store_lookup. }
  destruct (resolve_spec store fuel (map_trie M)) as (m2 & Hrun & Hm2);
    [done|done|done|lia|by apply map_root_digest|].
  change (trie_hash (map_trie M)) with (map_root M) in *.
  assert (∀ u d, subtrie u (map_trie M) → digest_of u = Some d → has_node store d = true) as Hall.
  { intros u d Hu0 Hd. apply bool_decide_eq_true. rewrite (digest_of_known u d) by (done || by eapply known_subtrie).
    by apply payload_store_has, subtrie_encodings. }
  rewrite (Hall (map_trie M)) in Hm2 by (constructor || by unfold digest_of; rewrite map_root_digest).
  unfold stored_part in Hm2. rewrite expand_whole in Hm2 by done.
  assert (holds 32 m2 M) as Hh2 by (by exists (map_trie M)).
  exists (encodings (map_trie M)), m1, m2. split_and!; try done.
  - apply stands_for_root, holds_stands_for. by exists (map_trie M).
  - by apply stands_for_root, holds_stands_for.
Qed.
End payloads.
