(* ===== verification/StreamSpec.v ===== *)
(** * Executing a block on a witness stream

    The streaming client uses an account before it can check it, so its answers
    are those of the full state only once every account it has read is known to
    be true.  Storage tries and bytecodes are checked when they are read, the
    former against the account. *)

From S2P Require Import Prelude External Node Hp Mpt Trie TrieLaws TrieHash MptSpec TrieMap View.
From S2P Require Import Stateless Codec CodecLaws Decode Frontier Evm State StateSpec Client Streaming.
From S2P Require Import ClientSpec.

Section spec.
Context `{Evm} {R : Type} `{!ClientInputReader R, !CacheOrder}.

(** ** What a reader can yield *)

Inductive read_step : R → R → Prop :=
  | step_headers r hs r' : read_ancestor_headers r = (Ok hs, r') → read_step r r'
  | step_block r block r' : read_current_block r = (Ok block, r') → read_step r r'
  | step_header r header r' : read_state_trie_header r = (Ok header, r') → read_step r r'
  | step_witness r w r' : read_witness_input r = (Ok w, r') → read_step r r'
  | step_raw r buf r' : read_raw_bytes r = (Ok buf, r') → read_step r r'.

Definition yields (r : R) (buf : bytes) : Prop :=
  ∃ r1 r2, rtc read_step r r1 ∧ read_raw_bytes r1 = (Ok buf, r2).

Definition offers (r : R) (w : ClientWitnessInput) : Prop :=
  ∃ r1 r2, rtc read_step r r1 ∧ read_witness_input r1 = (Ok w, r2).

#[local] Abbreviation state := (StreamingEthereumState (R:=R)).

(** ** Reading *)

Lemma match_input_inv {E A B} (read : machine R Empty_set A) (arms : A → machine _ E B) s x s' :
  match_input read arms s = (Ok x, s') →
  ∃ a r s1, read (cell_value (ss_input s)) = (Ok a, r) ∧
    arms a (set_ss_input (mkCell r true) s) = (Ok x, s1) ∧
    s' = set_ss_input (new_cell (cell_value (ss_input s1))) s1.
Proof.
  unfold match_input. destruct (cell_borrowed _); [done|].
  destruct (read _) as [[a|[]| |] r]; try done.
  destruct (arms a _) as [o s1] eqn:Harms. intros [= -> <-]. by exists a, r, s1.
Qed.

Lemma read_input_inv {E A} (read : machine R Empty_set A) s (x : A) s' :
  read_input (E:=E) read s = (Ok x, s') →
  ∃ r, read (cell_value (ss_input s)) = (Ok x, r) ∧ s' = set_ss_input (new_cell r) s.
Proof.
  intros (a & r & s1 & Hr & Ha & ->)%match_input_inv. injection Ha as -> <-. by exists r.
Qed.

(** The state is as before but for the stream. *)
Definition reads_on (s s' : state) : Prop :=
  rtc read_step (cell_value (ss_input s)) (cell_value (ss_input s')) ∧
  s' = set_ss_input (ss_input s') s.

#[global] Instance reads_on_preorder : PreOrder reads_on.
Proof.
  split; [intros s; split; [done|by destruct s]|].
  intros s1 s2 s3 [Hr Hs] [Hr' Hs']. split; [by etrans|]. rewrite Hs', Hs. done.
Qed.

Lemma reads_on_step s r :
  read_step (cell_value (ss_input s)) r → reads_on s (set_ss_input (new_cell r) s).
Proof. intros Hr. split; [by apply rtc_once|done]. Qed.

Lemma after_plain_arm (s : state) r :
  let s1 := set_ss_input (mkCell r true) s in
  set_ss_input (new_cell (cell_value (ss_input s1))) s1 = set_ss_input (new_cell r) s.
Proof. done. Qed.

(** Inverts a match on the next witness whose other arms fail. *)
#[local] Ltac inv_select Hread w r :=
  let s1 := fresh in let Harm := fresh in let Heq := fresh in let Hs := fresh in
  apply match_input_inv in Hread as (w & r & s1 & Hread & Harm & Heq);
  destruct w; try discriminate Harm; injection Harm as <- Hs;
  rewrite <-Hs, after_plain_arm in Heq; clear s1 Hs;
  match type of Heq with ?x = _ => subst x end.

(** ** What is in the state while the block executes *)

Definition storage_root_of (account : option TrieAccount) : B256 :=
  match account with Some a => ta_storage_root a | None => EMPTY_ROOT_HASH end.

(** A trie decoded from the stream and checked against a root. *)
Definition decoded_as (r0 : R) (t : Mpt) (root : B256) : Prop :=
  ∃ buf k rest t0, yields r0 buf ∧ decode_trie buf k = Ok (t0, rest) ∧ hash t0 = (Ok root, t).

Record loading (r0 : R) (s : state) : Prop := {
  loading_input : rtc read_step r0 (cell_value (ss_input s));
  loading_trie : ss_state_trie s = None;
  loading_keys h a : ss_account_cache s !! h = Some a →
    ∃ input, offers r0 (WitnessAccount input) ∧ ain_hashed_address input = h;
  loading_storage h t : ss_storage_tries s !! h = Some t →
    ∃ account, ss_account_cache s !! h = Some account ∧ decoded_as r0 t (storage_root_of account);
}.

(** Nothing is forgotten: accounts read stay, the header and the parent's root do
    not change. *)
Record grows (s s' : state) : Prop := {
  grows_cache : ss_account_cache s ⊆ ss_account_cache s';
  grows_header : ss_header s' = ss_header s;
  grows_root : ss_parent_state_root s' = ss_parent_state_root s;
}.

#[global] Instance grows_preorder : PreOrder grows.
Proof.
  split; [by split|]. intros s1 s2 s3 [Hc Hh Hr] [Hc' Hh' Hr']. split; [by etrans|congruence..].
Qed.

Lemma loading_read r0 s r :
  loading r0 s → read_step (cell_value (ss_input s)) r →
  loading r0 (set_ss_input (new_cell r) s) ∧ grows s (set_ss_input (new_cell r) s).
Proof.
  intros [Hi Ht Hk Hs] Hr. split; [|by split]. split; [|done..]. cbn. by eapply rtc_r.
Qed.

Lemma loading_account r0 s input account :
  let h := ain_hashed_address input in
  loading r0 s → offers r0 (WitnessAccount input) → ss_account_cache s !! h = None →
  let s' := set_ss_account_cache (<[h := account]> (ss_account_cache s)) s in
  loading r0 s' ∧ grows s s'.
Proof.
  cbv zeta. set (h := ain_hashed_address input).
  intros [Hi Ht Hk Hs] Hoff Hn. split; [split; [done|done| |]|split; [|done..]].
  - cbn. intros h' a [[<- _]|[_ Ha]]%lookup_insert_Some; [by exists input|by eapply Hk].
  - intros h' t (a & Ha & Hd)%Hs. exists a. split; [|done]. cbn. rewrite lookup_insert_ne by congruence. done.
  - cbn. by apply insert_subseteq.
Qed.

Lemma loading_trie_added r0 s h t account :
  loading r0 s → ss_account_cache s !! h = Some account → decoded_as r0 t (storage_root_of account) →
  let s' := set_ss_storage_tries (<[h := t]> (ss_storage_tries s)) s in
  loading r0 s' ∧ grows s s'.
Proof.
  intros [Hi Ht Hk Hs] Ha Hd. cbv zeta. split; [split; [done|done|done|]|by split].
  cbn. intros h' t' [(<- & <-)|[_ Hh]]%lookup_insert_Some; [by exists account|]. by apply Hs.
Qed.

Lemma read_account_loop_ok r0 fuel h s account s' :
  loading r0 s → read_account_loop fuel h s = (Ok account, s') →
  loading r0 s' ∧ grows s s' ∧ ss_account_cache s' !! h = Some account.
Proof.
  revert s. induction fuel as [|fuel IH]; intros s Hl Hrun; [done|]. cbn [read_account_loop] in Hrun.
  apply machine_bind_inv in Hrun as (input & s1 & Hread & Hrun).
  inv_select Hread w r.
  destruct (loading_read r0 s r Hl (step_witness _ _ _ Hread)) as [Hl1 Hg1].
  set (s1 := set_ss_input (new_cell r) s) in *. rewrite machine_bind_get in Hrun.
  case_decide as Hdup; [done|]. rewrite machine_bind_modify in Hrun. apply eq_None_not_Some in Hdup.
  destruct (loading_account r0 s1 account_input (ain_account account_input) Hl1) as [Hl2 Hg2]; [|done|].
  { exists (cell_value (ss_input s)), r. split; [apply Hl|done]. }
  case_decide as Heq.
  - injection Hrun as <- <-. split_and!; [done|by etrans|]. rewrite <-Heq. cbn. apply lookup_insert_eq.
  - destruct (IH _ Hl2 Hrun) as (Hl3 & Hg3 & Ha). split_and!; [done| |done]. etrans; [exact Hg1|by etrans].
Qed.

Lemma read_account_ok r0 h s account s' :
  loading r0 s → read_account h s = (Ok account, s') →
  loading r0 s' ∧ grows s s' ∧ ss_account_cache s' !! h = Some account.
Proof.
  intros Hl. unfold read_account. rewrite machine_bind_get.
  destruct (ss_account_cache s !! h) as [a|] eqn:Ha; [|by apply read_account_loop_ok].
  intros [= <- <-]. by split_and!.
Qed.

Lemma load_storage_trie_ok r0 h s s' :
  loading r0 s → load_storage_trie h s = (Ok (), s') →
  loading r0 s' ∧ grows s s' ∧ is_Some (ss_storage_tries s' !! h).
Proof.
  intros Hl Hrun. unfold load_storage_trie in Hrun. rewrite machine_bind_get in Hrun.
  case_decide as Hin; [by injection Hrun as <-|].
  apply machine_bind_inv in Hrun as (header & s1 & Hread & Hrun).
  inv_select Hread w r.
  destruct (loading_read r0 s r Hl (step_witness _ _ _ Hread)) as [Hl1 Hg1].
  case_decide as Haddr; [done|].
  apply machine_bind_inv in Hrun as (expected & s2 & Hexp & Hrun). unfold expected_storage_root in Hexp.
  apply machine_bind_inv in Hexp as (account & s2' & Hacc & Hret). injection Hret as <- <-.
  destruct (read_account_ok r0 _ _ _ _ Hl1 Hacc) as (Hl2 & Hg2 & Ha).
  apply machine_bind_inv in Hrun as (buf & s3 & Hraw & Hrun).
  apply read_input_inv in Hraw as (r3 & Hraw & ->).
  destruct (loading_read r0 s2' r3 Hl2 (step_raw _ _ _ Hraw)) as [Hl3 Hg3].
  apply machine_bind_inv in Hrun as ([t0 rest] & s4 & Hdec & Hrun). injection Hdec as Hdec <-.
  apply map_err_ok in Hdec. destruct (hash t0) as [[actual| | |] t] eqn:Hhash; try done.
  case_decide as Hroot; [done|]. rewrite Hroot in Hhash. injection Hrun as <-.
  destruct (loading_trie_added r0 (set_ss_input (new_cell r3) s2') h t account Hl3 Ha) as [Hl4 Hg4].
  { exists buf, (sgh_num_nodes storage_trie_header), rest, t0. split_and!; [|done|exact Hhash].
    exists (cell_value (ss_input s2')), r3. split; [apply Hl2|done]. }
  split_and!; [exact Hl4| |].
  - etrans; [exact Hg1|]. etrans; [exact Hg2|]. by etrans.
  - cbn. rewrite lookup_insert_eq. by eexists.
Qed.

Lemma read_bytecode_ok r0 h s code s' :
  loading r0 s → read_bytecode h s = (Ok code, s') →
  loading r0 s' ∧ grows s s' ∧ bytecode_hash_slow code = h ∧ offers r0 (WitnessBytecode code).
Proof.
  intros Hl Hrun. unfold read_bytecode in Hrun.
  apply machine_bind_inv in Hrun as (c & s1 & Hread & Hrun).
  inv_select Hread w r.
  destruct (loading_read r0 s r Hl (step_witness _ _ _ Hread)) as [Hl1 Hg1].
  case_decide as Hh; [done|]. injection Hrun as <- <-. split_and!; [done..|].
  exists (cell_value (ss_input s)), r. split; [apply Hl|done].
Qed.

(** ** Against the full state *)

Definition true_cache (W : World) (cache : gmap B256 (option TrieAccount)) : Prop :=
  ∀ h account, cache !! h = Some account → account = accounts W !! h.

Lemma true_cache_subseteq W cache cache' : cache ⊆ cache' → true_cache W cache' → true_cache W cache.
Proof. intros Hsub Ht h a Ha. apply Ht. by eapply lookup_weaken. Qed.

(** What is assumed of the world before the block and of what the stream yields:
    a hash is 32 bytes, and there are no collisions. *)
Record honest_stream (fs : FullState) (r0 : R) : Prop := {
  stream_world : world_ok (fs_world fs);
  stream_keys input : offers r0 (WitnessAccount input) → byte_key 32 (ain_hashed_address input);
  stream_code code : offers r0 (WitnessBytecode code) → fs_code fs (bytecode_hash_slow code) = Some code;
  stream_slots h buf : byte_key 32 h → yields r0 buf → trusted (slot_trie (slots (fs_world fs) h)) buf;
}.

Context `{!CratesOk, !EvmOk}.

Lemma storage_root_true W h :
  world_ok W → storage_root_of (accounts W !! h) = map_root (slot_trie (slots W h)).
Proof.
  intros HW. destruct (accounts W !! h) as [a|] eqn:Ha; [by apply (account_root _ HW)|].
  by rewrite (slots_absent _ HW _ Ha).
Qed.

(** A storage trie that was checked against a true account. *)
Lemma decoded_slots fs r0 h t :
  honest_stream fs r0 → byte_key 32 h →
  decoded_as r0 t (storage_root_of (accounts (fs_world fs) !! h)) →
  stands_for 32 t (slot_trie (slots (fs_world fs) h)) ∧
  ∃ buf, yields r0 buf ∧ num_nodes t ≤ S (length buf).
Proof.
  intros Hh Hk (buf & k & rest & t0 & Hy & Hdec & Hhash). pose proof (stream_world _ _ Hh) as HW.
  rewrite storage_root_true in Hhash by done.
  assert (stands_for 32 t0 (slot_trie (slots (fs_world fs) h))) as Hs.
  { eapply decoded_stands_for; [by apply slot_trie_keys|by eapply stream_slots|done..]. }
  destruct (stands_for_hash _ _ _ Hs) as (t' & Hhash' & Hs' & _ & Hn). rewrite Hhash in Hhash'.
  injection Hhash' as <-. split; [done|]. exists buf. split; [done|]. unfold num_nodes. rewrite Hn.
  by eapply decode_trie_count.
Qed.

(** What a query does to the stream, and what it answers if the accounts read by
    then are true. *)
Definition honest_query {A} (fs : FullState) (r0 : R) (ask : machine (StreamingDb (R:=R)) ProviderError A)
    (full : machine FullState ProviderError A) : Prop :=
  ∀ db a db', loading r0 (sd_state db) → ask db = (Ok a, db') →
    loading r0 (sd_state db') ∧ grows (sd_state db) (sd_state db') ∧
    sd_block_hashes db' = sd_block_hashes db ∧
    ((∀ n h, sd_block_hashes db !! n = Some h → header_hash_slow <$> fs_chain fs n = Some h) →
     true_cache (fs_world fs) (ss_account_cache (sd_state db')) → full fs = (Ok a, fs)).

Lemma on_streaming_inv {E A} (f : machine state E A) (db : StreamingDb) a db' :
  on_streaming f db = (Ok a, db') →
  ∃ s, f (sd_state db) = (Ok a, s) ∧ db' = mkStreamingDb s (sd_block_hashes db).
Proof. unfold on_streaming. destruct (f (sd_state db)) as [o s]. intros [= -> <-]. by exists s. Qed.

Lemma query_basic fs r0 address :
  honest_query fs r0 (basic_ref address) (basic_ref address).
Proof.
  intros db a db' Hl Hrun. change (basic_ref address db) with (streaming_basic_ref address db) in Hrun.
  unfold streaming_basic_ref in Hrun. apply machine_bind_inv in Hrun as (account & db1 & Hread & Hret).
  injection Hret as <- <-. apply on_streaming_inv in Hread as (s & Hread & ->).
  destruct (read_account_ok r0 _ _ _ _ Hl Hread) as (Hl' & Hg & Ha). split_and!; [done..|].
  intros _ Ht. cbn. rewrite machine_bind_get. rewrite (Ht _ _ Ha). done.
Qed.

Lemma query_code fs r0 h : honest_stream fs r0 → honest_query fs r0 (code_by_hash_ref h) (code_by_hash_ref h).
Proof.
  intros Hh db a db' Hl Hrun.
  change (code_by_hash_ref h db) with (streaming_code_by_hash_ref h db) in Hrun.
  apply on_streaming_inv in Hrun as (s & Hread & ->).
  destruct (read_bytecode_ok r0 _ _ _ _ Hl Hread) as (Hl' & Hg & Hcode & Hoff). split_and!; [done..|].
  intros _ _. cbn. rewrite machine_bind_get. rewrite <-Hcode, (stream_code _ _ Hh) by done. done.
Qed.

Lemma query_storage fs r0 address index :
  honest_stream fs r0 → honest_query fs r0 (storage_ref address index) (storage_ref address index).
Proof.
  intros Hh db a db' Hl Hrun. change (storage_ref address index db) with (streaming_storage_ref address index db) in Hrun.
  unfold streaming_storage_ref in Hrun. apply machine_bind_inv in Hrun as ([] & db1 & Hload & Hrun).
  apply on_streaming_inv in Hload as (s & Hload & ->).
  destruct (load_storage_trie_ok r0 _ _ _ Hl Hload) as (Hl' & Hg & _).
  rewrite machine_bind_get in Hrun. cbn [sd_state] in Hrun.
  apply machine_bind_inv in Hrun as (t & db1 & Ht & Hrun). injection Ht as Ht <-. apply unwrap_ok in Ht.
  apply machine_bind_inv in Hrun as (v & db1 & Hget & Hret). injection Hret as <- <-.
  injection Hget as Hget <-. apply unwrap_outcome_ok in Hget. split_and!; [done..|].
  intros _ Htrue. destruct (loading_storage _ _ Hl' _ _ Ht) as (account & Ha & Hd).
  rewrite (Htrue _ _ Ha) in Hd.
  destruct (decoded_slots fs r0 _ t Hh (account_op_key address) Hd) as [Hs _].
  apply (get_rlp_slot _ (fs_world fs) (keccak256 address)) in Hget as ->; [done|done|apply Hh|].
  split; [apply keccak256_u8|apply keccak256_length].
Qed.

Lemma query_block_hash fs r0 n : honest_query fs r0 (block_hash_ref n) (block_hash_ref n).
Proof.
  intros db a db' Hl Hrun. change (block_hash_ref n db) with (streaming_block_hash_ref n db) in Hrun.
  unfold streaming_block_hash_ref in Hrun. rewrite machine_bind_get in Hrun. injection Hrun as Hget <-.
  apply unwrap_ok in Hget. split_and!; [done..|]. intros Hb _. cbn. by rewrite machine_bind_get, (Hb _ _ Hget).
Qed.

(** A program of queries runs as on the full state, if the accounts it was told of
    are true. *)
Lemma streaming_run fs r0 {A} (p : program A) : honest_stream fs r0 → honest_query fs r0 (run_program p) (run_program p).
Proof.
  intros Hh. induction p as [a|x k IH|x k IH|x y k IH|x k IH]; intros db v db' Hl Hrun.
  { injection Hrun as <- <-. split_and!; [done..|]. by intros _ _. }
  all: cbn [run_program] in *; apply machine_bind_inv in Hrun as (u & db1 & Hask & Hrun).
  1: pose proof Hask as Hq; apply (query_basic fs r0) in Hq as (Hl1 & Hg1 & Hb1 & Hq); [|done].
  2: pose proof Hask as Hq; apply (query_code fs r0) in Hq as (Hl1 & Hg1 & Hb1 & Hq); [|done..].
  3: pose proof Hask as Hq; apply (query_storage fs r0) in Hq as (Hl1 & Hg1 & Hb1 & Hq); [|done..].
  4: pose proof Hask as Hq; apply (query_block_hash fs r0) in Hq as (Hl1 & Hg1 & Hb1 & Hq); [|done].
  all: destruct (IH u db1 v db' Hl1 Hrun) as (Hl2 & Hg2 & Hb2 & Hfull);
    (split_and!; [done|by etrans|congruence|]); intros Hhashes Htrue;
    (erewrite machine_bind_ok; [apply Hfull; [by rewrite Hb1|done]|]);
    apply Hq; [done|eapply true_cache_subseteq; [apply Hg2|done]].
Qed.
(** C10: Executing on the stream is executing on the full state, once the accounts
    used turn out to be true: whatever program of database queries runs to its end
    on the stream, if every account that is in the cache at the end is the one of
    the full state, the program ends with the same result there.  Storage tries and
    bytecodes need no such condition: they are checked as they are read. *)
Theorem streaming_execution_is_full_execution {A} fs r0 (p : program A) db a db' :
  honest_stream fs r0 → loading r0 (sd_state db) →
  (∀ n h, sd_block_hashes db !! n = Some h → header_hash_slow <$> fs_chain fs n = Some h) →
  run_program p db = (Ok a, db') →
  (∀ h account, ss_account_cache (sd_state db') !! h = Some account → account = accounts (fs_world fs) !! h) →
  run_program p fs = (Ok a, fs).
Proof.
  intros Hh Hl Hhashes Hrun Htrue.
  destruct (streaming_run fs r0 p Hh db a db' Hl Hrun) as (_ & _ & _ & Hfull). by apply Hfull.
Qed.
End spec.
