(* ===== verification/ChunkSpec.v ===== *)
(** * Chunks of a world's account trie

    A chunk holds the accounts below a prefix.  It tells the truth about them, and
    writing an account into it is writing it into the account trie of the world. *)

From S2P Require Import Prelude External Node Hp Mpt Trie TrieLaws Canon TrieHash MptSpec TrieMap View.
From S2P Require Import Stateless Codec CodecLaws Decode Frontier FrontierSpec FrontierLaws Evm State.
From S2P Require Import StateSpec Client ClientSpec Streaming StreamSpec.

Section chunk.
Context `{EvmOk, !CratesOk}.

Definition world_trie (W : World) : trie := map_trie (account_trie W).

Lemma world_trie_ok W :
  world_ok W →
  canonical (world_trie W) ∧ uniform (2 * 32) (world_trie W) ∧ resolved (world_trie W) ∧
  contents 32 (world_trie W) (account_trie W).
Proof. intros HW. apply map_trie_ok. by apply account_trie_keys. Qed.

(** A trie with the contents of the account trie is the account trie. *)
Lemma world_trie_unique W t :
  world_ok W → canonical t → uniform (2 * 32) t → resolved t → contents 32 t (account_trie W) →
  t = world_trie W.
Proof.
  intros HW Hct Hu Hr Hc. destruct (world_trie_ok W HW) as (? & ? & ? & ?). by eapply contents_unique.
Qed.

Lemma world_trie_wf W : world_ok W → well_formed (world_trie W).
Proof.
  intros HW. destruct (world_trie_ok W HW) as ([Hn|Hct] & _); [rewrite Hn; constructor|by apply canonical_wf].
Qed.

(** There is an account, encodings fit the 32-bit machine, no node has the hash of the empty trie, and
    the account trie is collision free with the bytes of the stream. *)
Record secure_world (bufs : bytes → Prop) (W : World) : Prop := {
  secure_nonempty : accounts W ≠ ∅;
  secure_sized : sized (world_trie W);
  secure_hash y : y ∈ encodings (world_trie W) → keccak256 y ≠ EMPTY_ROOT_HASH;
  secure_authentic buf : bufs buf → authentic buf (world_trie W);
}.

Lemma world_hashed bufs W :
  world_ok W → secure_world bufs W → hashed_trie (world_trie W).
Proof.
  intros HW [Hne Hs Hh _]. destruct (world_trie_ok W HW) as (Hct & Hu & Hr & Hc). split.
  - split_and!; [|done|done]. destruct Hct as [Hn|Hct]; [|done]. exfalso.
    apply (map_trie_empty _ Hn) in Hc. apply Hne. by apply fmap_empty_inv in Hc.
  - apply map_trie_leaves. unfold account_trie. intros k v. rewrite lookup_fmap.
    destruct (accounts W !! k) as [a|] eqn:Ha; [|done]. intros [= <-].
    apply account_encode_long. rewrite (account_root _ HW _ _ Ha).
    by eapply map_root_length, slot_trie_keys.
  - done.
Qed.

(** ** Nibbles of a hashed address *)

Lemma b256_nibbles_eq h : b256_nibbles h = to_nibs h.
Proof.
  induction h as [|x h IH]; [done|]. rewrite to_nibs_cons, <-IH. done.
Qed.

Lemma starts_with_split h p :
  starts_with (b256_nibbles h) p = true → to_nibs h = p ++ drop (length p) (b256_nibbles h).
Proof.
  unfold starts_with. intros [rest Hs]%bool_decide_eq_true. rewrite <-b256_nibbles_eq.
  apply strip_prefix_Some in Hs. rewrite Hs at 2. rewrite drop_app_length. done.
Qed.

Lemma slice_from_inv {E A} (l : list A) n r : slice_from (E:=E) l n = Ok r → r = drop n l.
Proof. unfold slice_from. by case_decide; intros [= <-]. Qed.

(** ** A chunk *)

(** The arena views what is at the prefix [p] of the account trie of [W]; the
    frontier around it is that of [W0]. *)
Definition chunk_of (W0 W : World) (p : bytes) (c : Mpt) : Prop :=
  ∃ t S0 S, models c t ∧ view t S ∧ plug (world_trie W0) p S0 S (world_trie W).

Lemma chunk_get W0 W p c h v :
  chunk_of W0 W p c → world_ok W → byte_key 32 h → starts_with (b256_nibbles h) p = true →
  get_rlp_nibbles (T:=TrieAccount) c (drop (length p) (b256_nibbles h)) = Ok v →
  v = accounts W !! h ∧ get_nibbles c (drop (length p) (b256_nibbles h)) = Ok (account_trie W !! h).
Proof.
  intros (t & S0 & S & Hm & Hv & Hp) HW Hk Hs Hg. unfold get_rlp_nibbles in Hg.
  destruct (get_nibbles c _) as [o| | |] eqn:Hget; try done. cbn [mbind outcome_bind] in Hg.
  rewrite (models_get_nibbles _ _ _ Hm) in Hget. apply (view_get _ _ _ _ Hv) in Hget.
  rewrite <-(plug_get_new _ _ _ _ _ _ Hp), <-starts_with_split in Hget by done.
  destruct (world_trie_ok W HW) as (_ & _ & _ & [Hc _]). rewrite Hc in Hget by done.
  injection Hget as <-. split; [|done]. unfold account_trie in Hg. rewrite lookup_fmap in Hg.
  destruct (accounts W !! h) as [a|] eqn:Ha; cbn in Hg; [|by injection Hg as <-].
  destruct (account_fields _ HW _ _ Ha) as (? & ? & ?).
  rewrite account_roundtrip in Hg; [by injection Hg as <-|done..| |done].
  rewrite (account_root _ HW _ _ Ha). by eapply map_root_length, slot_trie_keys.
Qed.

Lemma suffix_nibbles h p :
  byte_key 32 h → starts_with (b256_nibbles h) p = true → nibbles (drop (length p) (b256_nibbles h)).
Proof.
  intros Hk Hs. destruct (byte_key_nibs _ _ Hk) as [Hn _]. rewrite (starts_with_split h p Hs) in Hn.
  by split_nibbles.
Qed.

(** Writing an account. *)
Lemma chunk_insert W0 W p c h a f b c' :
  chunk_of W0 W p c → world_ok W → byte_key 32 h → starts_with (b256_nibbles h) p = true → has_room c →
  let W' := mkWorld (<[h := a]> (accounts W)) f in
  world_ok W' →
  insert_rlp_nibbles (drop (length p) (b256_nibbles h)) a c = (Ok b, c') →
  chunk_of W0 W' p c' ∧ num_nodes c' ≤ num_nodes c + 3.
Proof.
  intros (t & S0 & S & Hm & Hv & Hp) HW Hk Hs Hroom W' HW' Hrun. unfold insert_rlp_nibbles in Hrun.
  pose proof (models_insert c t _ (rlp_encode a) Hm (suffix_nibbles _ _ Hk Hs) Hroom) as Hins.
  destruct (world_trie_ok W HW) as (Hct & Hu & Hr & Hc).
  pose proof (trie_insert_contents 32 _ _ h (rlp_encode a) Hct Hu Hr Hc (world_trie_wf W HW) Hk) as HT.
  rewrite (account_trie_insert W h a f) in HT. fold W' in HT. rewrite (starts_with_split h p Hs) in HT.
  destruct (trie_insert t _ _) as [r| | |] eqn:Ht; try done; [|congruence].
  destruct (view_insert t S _ _ r Hv Ht) as (RS & HRS & Hview).
  pose proof (plug_insert _ _ _ _ _ _ _ RS Hp HRS) as Hpi.
  destruct r as [t'|], RS as [S'|]; try done.
  - destruct Hins as (c'' & Hrun' & Hm' & Hn). rewrite Hrun in Hrun'. injection Hrun' as -> ->.
    destruct Hpi as (T' & Hp' & HTi). rewrite HTi in HT. destruct HT as (_ & Hct' & Hu' & Hr' & Hc').
    split; [|done]. exists t', S0, S'. split_and!; [done..|]. by rewrite <-(world_trie_unique W' T').
  - rewrite Hrun in Hins. injection Hins as -> ->. rewrite Hpi in HT. split; [|lia].
    exists t, S0, S. split_and!; [done..|]. assert (account_trie W' = account_trie W) as Heq.
    { unfold W'. rewrite <-account_trie_insert. by apply insert_id. }
    unfold world_trie. by rewrite Heq.
Qed.

(** Removing an account that is not there. *)
Lemma chunk_delete W0 W p c h b c' :
  chunk_of W0 W p c → byte_key 32 h → starts_with (b256_nibbles h) p = true →
  get_nibbles c (drop (length p) (b256_nibbles h)) = Ok None →
  delete_nibbles (drop (length p) (b256_nibbles h)) c = (Ok b, c') → c' = c.
Proof.
  intros (t & S0 & S & Hm & _) Hk Hs Hg Hrun. rewrite (models_get_nibbles _ _ _ Hm) in Hg.
  pose proof (models_delete c t _ Hm (suffix_nibbles _ _ Hk Hs)) as Hdel.
  destruct (trie_delete t _) as [[t'|]| | |] eqn:Hd; try done.
  - by apply trie_delete_none in Hd.
  - congruence.
  - congruence.
  - destruct Hdel as (? & Hdel). congruence.
Qed.

(** ** The frontier and a chunk *)

(** The arena views the account trie of the world. *)
Definition frontier_of (W : World) (F : Mpt) : Prop := ∃ t, models F t ∧ view t (world_trie W).

Lemma frontier_stands_for bufs W F :
  world_ok W → secure_world bufs W → frontier_of W F → stands_for 32 F (account_trie W).
Proof.
  intros HW Hsec (t & Hm & Hv). destruct (world_trie_ok W HW) as (Hct & Hu & Hr & Hc).
  destruct (hashed_known _ (world_hashed _ _ HW Hsec)) as (HcT & _ & _).
  left. exists t, (world_trie W). split_and!; try done; [right; by eapply view_canonical|by eapply view_uniform].
Qed.

(** A slot was replaced: what the world had there has the expected root, and
    whatever has the new root may be there now. *)
Lemma replace_slot_sound W p expected new_root F F' :
  frontier_of W F → (N.of_nat (num_nodes F) + 1 < u32_modulus)%N →
  replace_frontier_slot p expected new_root F = (Ok (), F') →
  num_nodes F' ≤ S (num_nodes F) ∧
  ∃ S, plug (world_trie W) p S S (world_trie W) ∧ trie_hash S = expected ∧
    ∀ W' S', plug (world_trie W) p S S' (world_trie W') → S' = TNull ∨ hashed_trie S' →
      new_root = trie_hash S' → frontier_of W' F'.
Proof.
  intros (t & Hm & Hv) Hroom Hrun.
  destruct (models_replace F t p expected new_root F' Hm Hroom Hrun) as (s & t' & Hp & Hs & Hm' & Hn).
  split; [done|]. destruct (plug_view _ _ _ _ _ _ Hv Hp) as (S & HvS & HpS & Hrep).
  exists S. split_and!; [done|by rewrite <-(view_hash _ _ HvS)|].
  intros W' S' Hp' HS' ->. destruct (slot_trie_of_view S' HS') as [Hview Hiff].
  destruct (Hrep S' Hview Hiff) as (T' & HpT & HvT). destruct (plug_det _ _ _ _ _ _ _ _ Hp' HpT) as [_ Heq].
  unfold frontier_of. rewrite (Heq eq_refl).
  exists t'. split; [|done]. apply Hm', trie_hash_length.
  destruct HS' as [->|[(Hct & _) _ _]]; [constructor|by apply canonical_wf].
Qed.

(** A chunk with the root that the world has at the prefix, and that can be read. *)
Lemma chunk_decoded bufs W p S buf k c rest c' key o :
  world_ok W → secure_world bufs W → bufs buf → authentic buf TNull → addressable buf →
  plug (world_trie W) p S S (world_trie W) → decode_trie buf k = Ok (c, rest) →
  hash c = (Ok (trie_hash S), c') → get_nibbles c' key = Ok o →
  chunk_of W W p c' ∧ num_nodes c' ≤ Datatypes.S (length buf).
Proof.
  intros HW Hsec Hbuf Hnull Hlen Hp Hdec Hhash Hget.
  destruct (decoded_subtrie S buf k c rest c') as (t & Hm & Hv); [|done..|].
  { destruct (hashed_below _ _ _ _ _ Hp (world_hashed _ _ HW Hsec)) as [->|HS]; [by left|].
    destruct (authentic_below buf _ _ _ _ _ Hp (secure_authentic _ _ Hsec _ Hbuf)) as [->|Ha]; [by left|].
    by right. }
  destruct (models_hash _ _ Hm) as (c2 & Hhash2 & Hm2 & _ & Hn). rewrite Hhash in Hhash2.
  injection Hhash2 as _ <-. split.
  - exists t, S, S. split_and!; [done| |done]. destruct Hv as [Hv|[-> ->]]; [done|].
    rewrite (models_get_nibbles _ _ _ Hm2) in Hget. cbn in Hget. by rewrite empty_digest_from_slice in Hget.
  - unfold num_nodes. rewrite Hn. by eapply decode_trie_count.
Qed.

(** The frontier as it comes from the stream. *)
Lemma frontier_decoded bufs W buf k F rest F' :
  world_ok W → secure_world bufs W → bufs buf → authentic buf TNull → addressable buf →
  decode_trie buf k = Ok (F, rest) → hash F = (Ok (world_root W), F') →
  frontier_of W F' ∧ num_nodes F' ≤ S (length buf).
Proof.
  intros HW Hsec Hbuf Hnull Hlen Hdec Hhash. pose proof (world_hashed _ _ HW Hsec) as HT.
  change (world_root W) with (trie_hash (world_trie W)) in Hhash.
  destruct (decoded_subtrie (world_trie W) buf k F rest F') as (t & Hm & Hv); [|done..|].
  { right. split; [done|by eapply secure_authentic]. }
  destruct (models_hash _ _ Hm) as (F2 & Hhash2 & Hm2 & _ & Hn). rewrite Hhash in Hhash2.
  injection Hhash2 as _ <-. split.
  - exists t. split; [done|]. destruct Hv as [Hv|[_ Hnull']]; [done|].
    destruct HT as [Hk _ _]. apply known_list_node in Hk. by rewrite Hnull' in Hk.
  - unfold num_nodes. rewrite Hn. by eapply decode_trie_count.
Qed.

(** ** Storage tries *)

(** The trie has the slots [M]: all of them, or as far as the changes need. *)
Definition writable (t : Mpt) (M : gmap bytes bytes) (ops : list operation) : Prop :=
  holds 32 t M ∨ stands_for 32 t M ∧ sees_all t ops.

Lemma update_storage_sound t S l root t' :
  writable t (slot_trie S) (slot_op <$> l) →
  (N.of_nat (num_nodes t) + 3 * N.of_nat (length l) + 3 < u32_modulus)%N →
  update_storage_trie l t = (Ok root, t') →
  root = map_root (slot_trie (foldl apply_slot S l)).
Proof.
  intros Ht Hroom Hrun. unfold update_storage_trie in Hrun.
  apply machine_bind_inv in Hrun as ([] & t1 & Hw & Hhash). rewrite write_slots_run in Hw.
  apply machine_bind_inv in Hw as (rs & t1' & Hops & Hret). injection Hret as <-.
  assert (stands_for 32 t1' (slot_trie (foldl apply_slot S l))) as Hs.
  { rewrite <-spec_slots. destruct Ht as [Ht|[Ht Hsees]].
    - destruct (run_ops_refines 32 t _ (slot_op <$> l) Ht (slot_ops_ok l)) as (t2 & Hrun & Ht2);
        [by rewrite length_fmap|].
      rewrite Hops in Hrun. injection Hrun as _ <-. by apply holds_stands_for.
    - by apply (run_ops_sound 32 _ _ _ _ _ Ht) in Hops as [_ ?]; [|apply slot_ops_ok|done|rewrite length_fmap]. }
  destruct (stands_for_hash _ _ _ Hs) as (t2 & Hh & _). rewrite Hhash in Hh. by injection Hh.
Qed.
End chunk.
