(* ===== verification/StreamUpdateSpec.v ===== *)
(** * Applying a block to the state, chunk by chunk

    Every account used during execution is checked against a chunk before the
    chunk is changed, or against the frontier in the end; every chunk is
    authenticated by the slot of the frontier it came from.  When the update
    succeeds, all accounts were true and the frontier stands for the changed
    world. *)

From S2P Require Import Prelude External Node Hp Mpt Trie TrieLaws Canon TrieHash MptSpec TrieMap View.
From S2P Require Import Stateless Codec CodecLaws Decode Frontier FrontierSpec FrontierLaws Evm State.
From S2P Require Import StateSpec Client ClientSpec Streaming StreamSpec ChunkSpec.

Section pieces.
Context `{EvmOk, !CratesOk} {R : Type} `{!ClientInputReader R, !CacheOrder}.

#[local] Abbreviation state := (StreamingEthereumState (R:=R)).

Lemma on_local_inv {A} (f : machine Mpt Error A) t (s : state) a t' s' :
  on_local f t s = (Ok (a, t'), s') → f t = (Ok a, t') ∧ s' = s.
Proof. unfold on_local. destruct (f t) as [[x| | |] m]; try done. by intros [= -> -> ->]. Qed.

Lemma chunk_account_inv chunk p h (s : state) v s' :
  chunk_account chunk p h s = (Ok v, s') →
  get_rlp_nibbles (T:=TrieAccount) chunk (drop (length p) (b256_nibbles h)) = Ok v ∧ s' = s.
Proof.
  unfold chunk_account. intros (suffix & s1 & Hs & Hg)%machine_bind_inv. injection Hs as Hs <-.
  apply slice_from_inv in Hs as ->. injection Hg as Hg <-. split; [by apply map_err_ok in Hg|done].
Qed.

(** ** The accounts used during execution *)

Lemma check_cached_inv chunk p h (s s' : state) :
  check_cached chunk p h s = (Ok (), s') →
  ∃ a, ss_account_cache s !! h = Some a ∧ s' = set_ss_account_cache (base.delete h (ss_account_cache s)) s ∧
    get_rlp_nibbles (T:=TrieAccount) chunk (drop (length p) (b256_nibbles h)) = Ok a.
Proof.
  unfold check_cached. rewrite machine_bind_get, machine_bind_modify.
  intros (v & s1 & [Hg ->]%chunk_account_inv & Hrun)%machine_bind_inv.
  case_decide as Heq; [done|]. injection Hrun as <-. exists v. by split_and!.
Qed.

Lemma check_cached_list chunk p keys (s s' : state) :
  NoDup keys → for_each (check_cached chunk p) keys s = (Ok (), s') →
  s' = set_ss_account_cache (ss_account_cache s') s ∧
  (∀ h, h ∉ keys → ss_account_cache s' !! h = ss_account_cache s !! h) ∧
  ∀ h, h ∈ keys → ∃ a, ss_account_cache s !! h = Some a ∧
    get_rlp_nibbles (T:=TrieAccount) chunk (drop (length p) (b256_nibbles h)) = Ok a.
Proof.
  intros Hnd. revert s. induction Hnd as [|k keys Hnin Hnd IH]; intros s Hrun.
  { injection Hrun as <-. split_and!; [by destruct s|done|]. by intros h ?%elem_of_nil. }
  cbn [for_each] in Hrun. apply machine_bind_inv in Hrun as ([] & s1 & Hk & Hrun).
  apply check_cached_inv in Hk as (a & Ha & -> & Hg). destruct (IH _ Hrun) as (Hs' & Hout & Hin).
  cbn in Hout, Hin. split_and!.
  - rewrite Hs'. done.
  - intros h [Hne Hh]%not_elem_of_cons. rewrite Hout by done. by rewrite lookup_delete_ne.
  - intros h [->|Hh]%elem_of_cons; [by exists a|]. destruct (Hin h Hh) as (a' & Ha' & Hg').
    exists a'. split; [|done]. apply lookup_delete_Some in Ha' as [_ ?]. done.
Qed.

Context `{!CacheOrderOk}.

Lemma cache_entries_keys cache h : h ∈ (cache_entries cache).*1 ↔ is_Some (cache !! h).
Proof.
  rewrite (cache_entries_all cache). rewrite list_elem_of_fmap. split.
  - intros ([k a] & -> & Hin%elem_of_map_to_list). by eexists.
  - intros [a Ha]. exists (h, a). split; [done|]. by apply elem_of_map_to_list.
Qed.

Lemma cache_entries_nodup cache : NoDup (cache_entries cache).*1.
Proof. rewrite (cache_entries_all cache). apply NoDup_fst_map_to_list. Qed.

Lemma check_cached_accounts_inv chunk p (s s' : state) :
  check_cached_accounts chunk p s = (Ok (), s') →
  s' = set_ss_account_cache (ss_account_cache s') s ∧
  ∀ h a, ss_account_cache s !! h = Some a →
    if starts_with (b256_nibbles h) p
    then get_rlp_nibbles (T:=TrieAccount) chunk (drop (length p) (b256_nibbles h)) = Ok a
    else ss_account_cache s' !! h = Some a.
Proof.
  unfold check_cached_accounts. rewrite machine_bind_get. intros Hrun.
  apply check_cached_list in Hrun as (Hs' & Hout & Hin); [|apply NoDup_filter, cache_entries_nodup].
  split; [done|]. intros h a Ha. destruct (starts_with _ p) eqn:Hp.
  - destruct (Hin h) as (a' & Ha' & Hg); [|by rewrite Ha in Ha'; injection Ha' as <-].
    apply list_elem_of_filter. split; [done|]. apply cache_entries_keys. by exists a.
  - rewrite Hout; [done|]. intros [Hp' _]%list_elem_of_filter. congruence.
Qed.

Lemma validate_cache_inv entries (s s' : state) F :
  ss_state_trie s = Some F → for_each validate_entry entries s = (Ok (), s') →
  s' = s ∧ ∀ h a, (h, a) ∈ entries → get_rlp (T:=TrieAccount) F h = Ok a.
Proof.
  intros HF. induction entries as [|[h a] entries IH]; intros Hrun.
  { injection Hrun as <-. split; [done|]. by intros h a ?%elem_of_nil. }
  cbn [for_each] in Hrun. apply machine_bind_inv in Hrun as ([] & s1 & He & Hrun).
  unfold validate_entry in He. rewrite machine_bind_get, HF in He. cbn [unwrap] in He.
  rewrite machine_bind_lift_ok in He. apply machine_bind_inv in He as (v & s2 & Hg & He).
  injection Hg as Hg <-. case_decide as Hv; [done|]. injection He as <-. subst v.
  destruct (IH Hrun) as [-> Hall]. split; [done|].
  intros h' a' [[= -> ->]|Hin]%elem_of_cons; [by apply map_err_ok in Hg|by apply Hall].
Qed.

(** ** The witnesses after a chunk *)

(** A storage trie among them panics, so none is ever collected. *)
Lemma chunk_witness_inv chunk p post (s : state) post' s' :
  chunk_witness chunk p post s = (Ok post', s') → post' = post ∧ reads_on s s'.
Proof.
  unfold chunk_witness. intros (w & r & s1 & Hread & Harm & ->)%match_input_inv.
  assert (post' = post ∧ s1 = set_ss_input (mkCell r true) s) as [-> ->].
  { destruct w as [input|header| |]; try done.
    - destruct (negb _); [done|]. apply machine_bind_inv in Harm as (v & s2 & [_ ->]%chunk_account_inv & Harm).
      case_decide; [done|]. by injection Harm as <- <-.
    - destruct (negb _ || _); [done|]. apply machine_bind_inv in Harm as (v & s2 & [_ ->]%chunk_account_inv & Harm).
      apply machine_bind_inv in Harm as (b & s2 & Hb & _). done. }
  split; [done|]. rewrite after_plain_arm. apply reads_on_step. by eapply step_witness.
Qed.

Lemma chunk_witnesses_inv count chunk p post (s : state) post' s' :
  chunk_witnesses count chunk p post s = (Ok post', s') → post' = post ∧ reads_on s s'.
Proof.
  revert post s. induction count as [|count IH]; intros post s; cbn [chunk_witnesses].
  { by intros [= <- <-]. }
  intros (post1 & s1 & [-> Hr]%chunk_witness_inv & Hrun)%machine_bind_inv.
  destruct (IH _ _ Hrun) as [-> Hr']. split; [done|by etrans].
Qed.

(** ** The accounts of a chunk *)

(** An entry of the report as the update sees it. *)
Definition hashed_entry (e : Address * BundleAccount) : B256 * bytes * BundleAccount :=
  (keccak256 e.1, b256_nibbles (keccak256 e.1), e.2).

Lemma span_chunk_inv p accounts inside rest :
  span_chunk p (hashed_entry <$> accounts) = (inside, rest) →
  ∃ l1 l2, accounts = l1 ++ l2 ∧ inside = hashed_entry <$> l1 ∧ rest = hashed_entry <$> l2 ∧
    Forall (λ e, starts_with (b256_nibbles (keccak256 e.1)) p = true) l1.
Proof.
  revert inside rest. induction accounts as [|e accounts IH]; intros inside rest; cbn [fmap list_fmap span_chunk].
  { intros [= <- <-]. exists [], []. by split_and!. }
  destruct (starts_with _ _) eqn:Hp.
  - destruct (span_chunk _ _) as [inside' rest'] eqn:Hs. intros [= <- <-].
    destruct (IH _ _ eq_refl) as (l1 & l2 & -> & -> & -> & Hall).
    exists (e :: l1), l2. split_and!; [done..|by constructor].
  - intros [= <- <-]. by exists [], (e :: accounts).
Qed.

(** Writing the accounts touches no part of the state but the storage tries, of
    which it takes some out. *)
Definition takes_tries (s s' : state) : Prop :=
  s' = set_ss_storage_tries (ss_storage_tries s') s ∧ ss_storage_tries s' ⊆ ss_storage_tries s.

#[global] Instance takes_tries_preorder : PreOrder takes_tries.
Proof.
  split; [intros s; split; [by destruct s|done]|].
  intros s1 s2 s3 [Hs Hsub] [Hs' Hsub']. split; [|by etrans]. rewrite Hs', Hs. done.
Qed.

Lemma takes_tries_forget h (s : state) :
  takes_tries s (set_ss_storage_tries (base.delete h (ss_storage_tries s)) s).
Proof. split; [done|]. apply delete_subseteq. Qed.

(** [update_storage_trie] on a trie, and the storage tries left. *)
Definition update_with (storage : list (U256 * StorageSlot)) (t : Mpt) (post : gmap B256 Mpt)
  : machine state ClientExecutionError (B256 * gmap B256 Mpt) :=
  '(root, _) ← on_local (update_storage_trie storage) t; mret (root, post).

Lemma update_with_state storage t post (s : state) x s' : update_with storage t post s = (Ok x, s') → s' = s.
Proof. intros ([root t1] & s1 & [_ ->]%on_local_inv & Hret)%machine_bind_inv. by injection Hret. Qed.

Lemma new_storage_root_takes h account old post (s : state) x s' :
  new_storage_root h account old post s = (Ok x, s') → takes_tries s s'.
Proof.
  unfold new_storage_root. rewrite machine_bind_get. intros Hrun.
  destruct (_ || _).
  - destruct (was_destroyed _); [by apply update_with_state in Hrun as ->|].
    destruct (ss_storage_tries s !! h) as [t|].
    + rewrite machine_bind_modify in Hrun. apply update_with_state in Hrun as ->. apply takes_tries_forget.
    + destruct (post !! h); [by apply update_with_state in Hrun as ->|].
      case_decide; [by apply update_with_state in Hrun as ->|done].
  - destruct (ss_storage_tries s !! h) as [t|]; [|by injection Hrun as _ <-].
    rewrite machine_bind_modify in Hrun.
    apply machine_bind_inv in Hrun as ([actual t'] & s1 & [_ ->]%on_local_inv & Hrun).
    case_decide; [done|]. injection Hrun as _ <-. apply takes_tries_forget.
Qed.

Lemma write_chunk_account_takes p entry chunk post (s : state) x s' :
  write_chunk_account p entry chunk post s = (Ok x, s') → takes_tries s s'.
Proof.
  destruct entry as [[h nibs] account]. unfold write_chunk_account. intros Hrun.
  apply machine_bind_inv in Hrun as (suffix & s1 & Hsuf & Hrun). injection Hsuf as _ <-.
  apply machine_bind_inv in Hrun as (old & s1 & Hold & Hrun). injection Hold as _ <-.
  destruct (ba_info account).
  - apply machine_bind_inv in Hrun as ([root post1] & s1 & Hroot%new_storage_root_takes & Hrun).
    apply machine_bind_inv in Hrun as ([b c1] & s2 & [_ ->]%on_local_inv & Hret). by injection Hret as _ <-.
  - apply machine_bind_inv in Hrun as ([b c1] & s1 & [_ ->]%on_local_inv & Hrun).
    rewrite machine_bind_modify in Hrun. injection Hrun as _ <-. apply takes_tries_forget.
Qed.

Lemma write_chunk_accounts_takes p entries chunk post (s : state) x s' :
  write_chunk_accounts p entries chunk post s = (Ok x, s') → takes_tries s s'.
Proof.
  revert chunk post s. induction entries as [|e entries IH]; intros chunk post s Hrun.
  { by injection Hrun as _ <-. }
  cbn [write_chunk_accounts] in Hrun.
  apply machine_bind_inv in Hrun as ([c1 post1] & s1 & Hone%write_chunk_account_takes & Hrun).
  etrans; [exact Hone|by eapply IH].
Qed.

(** *** One account *)

(** What is assumed of an entry of the report: its integers are in range, an
    account that is removed did not exist before the block, so that the deletion
    finds nothing, the arenas have room, and the storage trie that comes with the
    stream has the nodes deletions of slots merge with.  Since EIP-6780 and EIP-161
    the accounts a block removes are those created in it.  Deleting an account that
    does exist can empty a chunk, which the code does not handle
    ([emptied_chunk_diverges]). *)
Record entry_writable (W : World) (r0 : R) (e : Address * BundleAccount) : Prop := {
  writable_ok : entry_ok e;
  writable_removed : ba_info e.2 = None → accounts W !! keccak256 e.1 = None;
  writable_room buf : yields r0 buf →
    (N.of_nat (length buf) + 3 * N.of_nat (length (ba_storage e.2)) + 4 < u32_modulus)%N;
  writable_sees t : was_destroyed (ba_status e.2) = false →
    decoded_as r0 t (map_root (slot_trie (slots W (keccak256 e.1)))) →
    sees_all t (slot_op <$> ba_storage e.2);
}.

Lemma update_new_inv (s : state) storage post root post' s' :
  update_with storage new post s = (Ok (root, post'), s') →
  (3 * N.of_nat (length storage) + 4 < u32_modulus)%N →
  root = map_root (slot_trie (foldl apply_slot ∅ storage)) ∧ post' = post ∧ s' = s.
Proof.
  intros ([root1 t1] & s1 & [Hup ->]%on_local_inv & Hret)%machine_bind_inv Hroom.
  injection Hret as <- <- <-. split_and!; [|done..].
  eapply update_storage_sound; [left| |exact Hup]; [|change (num_nodes new) with 1; lia].
  assert (slot_trie ∅ = ∅) as -> by apply fmap_empty. apply holds_new.
Qed.

Lemma update_loaded_inv fs r0 e (s : state) t storage post root post' s' :
  honest_stream fs r0 → entry_writable (fs_world fs) r0 e → was_destroyed (ba_status e.2) = false →
  decoded_as r0 t (storage_root_of (accounts (fs_world fs) !! keccak256 e.1)) → storage = ba_storage e.2 →
  update_with storage t post s = (Ok (root, post'), s') →
  root = map_root (slot_trie (foldl apply_slot (slots (fs_world fs) (keccak256 e.1)) storage)) ∧
  post' = post ∧ s' = s.
Proof.
  intros Hh He Hnd Hd -> ([root1 t1] & s1 & [Hup ->]%on_local_inv & Hret)%machine_bind_inv.
  injection Hret as <- <- <-. split_and!; [|done..].
  destruct (decoded_slots fs r0 _ t Hh (account_op_key e.1) Hd) as (Hs & buf & Hy & Hn).
  eapply update_storage_sound; [right; split; [exact Hs|]| |exact Hup].
  - apply (writable_sees _ _ _ He); [done|]. by rewrite <-storage_root_true by apply Hh.
  - pose proof (writable_room _ _ _ He buf Hy). lia.
Qed.

(** The storage root an account is written back with. *)
Lemma new_storage_root_inv fs r0 e (s : state) buf root post' s' :
  honest_stream fs r0 → yields r0 buf → entry_writable (fs_world fs) r0 e →
  let h := keccak256 e.1 in let W := fs_world fs in
  (∀ t, ss_storage_tries s !! h = Some t → decoded_as r0 t (storage_root_of (accounts W !! h))) →
  new_storage_root h e.2 (accounts W !! h) ∅ s = (Ok (root, post'), s') →
  root = map_root (slot_trie (account_slots (slots W h) e.2)) ∧ post' = ∅.
Proof.
  intros Hh Hy He h W Htries Hrun. unfold account_slots.
  pose proof (writable_room _ _ _ He buf Hy) as Hroom.
  pose proof (storage_root_true W h (stream_world _ _ Hh)) as Hold.
  unfold new_storage_root in Hrun. rewrite machine_bind_get in Hrun.
  destruct (was_destroyed (ba_status e.2)) eqn:Hd.
  { cbn [orb] in Hrun. apply update_new_inv in Hrun as (-> & -> & _); [done|lia]. }
  cbn [orb] in Hrun. destruct (decide (ba_storage e.2 = [])) as [Hnil|Hnil].
  - rewrite bool_decide_eq_true_2 in Hrun by done. cbn [negb] in Hrun. rewrite Hnil. cbn [foldl].
    fold (storage_root_of (accounts W !! h)) in Hrun. rewrite Hold in Hrun.
    destruct (ss_storage_tries s !! h) as [t|] eqn:Ht; [|by injection Hrun as <- <- <-].
    rewrite machine_bind_modify in Hrun.
    apply machine_bind_inv in Hrun as ([actual t'] & s1 & [_ ->]%on_local_inv & Hrun).
    case_decide; [done|]. injection Hrun as <- <- <-. done.
  - rewrite bool_decide_eq_false_2 in Hrun by done. cbn [negb] in Hrun. rewrite lookup_empty in Hrun.
    destruct (ss_storage_tries s !! h) as [t|] eqn:Ht.
    + rewrite machine_bind_modify in Hrun. eapply update_loaded_inv in Hrun as (-> & -> & _); [|done..|by apply Htries|done].
      done.
    + case_decide as Hroot; [|done]. fold (storage_root_of (accounts W !! h)) in Hroot. rewrite Hold in Hroot.
      assert (slots W h = ∅) as ->.
      { destruct (decide (slot_trie (slots W h) = ∅)) as [He'|Hne]; [by apply fmap_empty_inv in He'|].
        by destruct (trusted_root _ _ (stream_slots _ _ Hh h buf (account_op_key e.1) Hy) Hne). }
      apply update_new_inv in Hrun as (-> & -> & _); [done|lia].
Qed.

(** The two worlds have the same account and slots at [h]. *)
Definition agree_at (h : B256) (W W' : World) : Prop :=
  accounts W !! h = accounts W' !! h ∧ slots W h = slots W' h.

Lemma agree_at_trans h W1 W2 W3 : agree_at h W1 W2 → agree_at h W2 W3 → agree_at h W1 W3.
Proof. intros [? ?] [? ?]. split; congruence. Qed.

Lemma apply_account_agree W e h : keccak256 e.1 ≠ h → agree_at h (apply_account W e) W.
Proof.
  intros Hne. split; [|by apply apply_account_elsewhere]. unfold apply_account.
  destruct (ba_info e.2); cbn; by rewrite ?lookup_insert_ne, ?lookup_delete_ne.
Qed.

Definition entry_hashes (bundle : BundleState) : list B256 := (λ e, keccak256 e.1) <$> bundle.

Lemma apply_bundle_agree W bundle h : h ∉ entry_hashes bundle → agree_at h (apply_bundle W bundle) W.
Proof.
  revert W. induction bundle as [|e bundle IH]; intros W Hn; [done|].
  apply not_elem_of_cons in Hn as [Hne Hn]. cbn.
  eapply agree_at_trans; [by apply IH|by apply apply_account_agree].
Qed.

Lemma apply_bundle_ok W bundle : world_ok W → Forall entry_ok bundle → world_ok (apply_bundle W bundle).
Proof.
  intros HW Hb. revert W HW. induction Hb as [|e bundle He Hb IH]; intros W HW; [done|].
  cbn. by apply IH, apply_account_ok.
Qed.

Lemma write_chunk_account_inv fs r0 buf W0 W p e (s : state) chunk chunk' post' s' :
  let h := keccak256 e.1 in
  honest_stream fs r0 → yields r0 buf → entry_writable (fs_world fs) r0 e →
  chunk_of W0 W p chunk → world_ok W → has_room chunk →
  starts_with (b256_nibbles h) p = true → agree_at h W (fs_world fs) →
  (∀ t, ss_storage_tries s !! h = Some t →
     decoded_as r0 t (storage_root_of (accounts (fs_world fs) !! h))) →
  write_chunk_account p (hashed_entry e) chunk ∅ s = (Ok (chunk', post'), s') →
  chunk_of W0 (apply_account W e) p chunk' ∧ num_nodes chunk' ≤ num_nodes chunk + 3 ∧ post' = ∅.
Proof.
  intros h Hh Hy He Hc HW Hroom Hp [Ha Hs] Htries Hrun. unfold write_chunk_account, hashed_entry in Hrun.
  pose proof (account_op_key e.1) as Hk. fold h in Hrun, Hk.
  apply machine_bind_inv in Hrun as (suffix & s1 & Hsuf & Hrun). injection Hsuf as Hsuf <-.
  apply slice_from_inv in Hsuf as ->.
  apply machine_bind_inv in Hrun as (old & s1 & Hold & Hrun). injection Hold as Hold <-.
  apply map_err_ok, (chunk_get W0 W) in Hold as [-> Hget]; [|done..]. rewrite Ha in Hrun.
  pose proof (apply_account_ok W e HW (writable_ok _ _ _ He)) as HW'. unfold apply_account in HW' |- *. fold h in HW' |- *.
  destruct (ba_info e.2) as [info|] eqn:Hinfo.
  - apply machine_bind_inv in Hrun as ([root post1] & s1 & Hroot & Hrun).
    apply (new_storage_root_inv fs r0 e s buf) in Hroot as (-> & ->); [|done..].
    fold h in Hrun. rewrite <-Hs in Hrun.
    apply machine_bind_inv in Hrun as ([b c1] & s2 & [Hins ->]%on_local_inv & Hret). injection Hret as <- <- <-.
    eapply chunk_insert in Hins as [Hc' Hn]; [|done..]. by split_and!.
  - apply machine_bind_inv in Hrun as ([b c1] & s2 & [Hdel ->]%on_local_inv & Hrun).
    rewrite machine_bind_modify in Hrun. injection Hrun as <- <- <-.
    pose proof (writable_removed _ _ _ He Hinfo) as Hn. fold h in Hn. rewrite <-Ha in Hn.
    unfold account_trie in Hget. rewrite lookup_fmap, Hn in Hget.
    apply (chunk_delete W0 W) in Hdel as ->; [|done..].
    split_and!; [|lia|done].
    unfold chunk_of, world_trie, account_trie in *. cbn [accounts]. by rewrite delete_id.
Qed.

Lemma write_chunk_accounts_inv fs r0 buf W0 W p entries (s : state) chunk chunk' post' s' :
  honest_stream fs r0 → yields r0 buf → Forall (entry_writable (fs_world fs) r0) entries →
  Forall (λ e, starts_with (b256_nibbles (keccak256 e.1)) p = true) entries → NoDup (entry_hashes entries) →
  chunk_of W0 W p chunk → world_ok W →
  (N.of_nat (num_nodes chunk) + 3 * N.of_nat (length entries) < u32_modulus)%N →
  (∀ h, h ∈ entry_hashes entries → agree_at h W (fs_world fs)) →
  (∀ h t, h ∈ entry_hashes entries → ss_storage_tries s !! h = Some t →
     decoded_as r0 t (storage_root_of (accounts (fs_world fs) !! h))) →
  write_chunk_accounts p (hashed_entry <$> entries) chunk ∅ s = (Ok (chunk', post'), s') →
  chunk_of W0 (apply_bundle W entries) p chunk' ∧ post' = ∅.
Proof.
  intros Hh Hy Hall. revert W s chunk.
  induction Hall as [|e entries He Hall IH]; intros W s chunk Hpre Hnd Hc HW Hroom Hagree Htries Hrun.
  { injection Hrun as <- <- <-. by split_and!. }
  cbn [fmap list_fmap write_chunk_accounts] in Hrun. cbn [length] in Hroom.
  apply Forall_cons in Hpre as [Hp Hpre]. apply NoDup_cons in Hnd as [Hnin Hnd].
  apply machine_bind_inv in Hrun as ([c1 post1] & s1 & Hone & Hrun).
  pose proof (write_chunk_account_takes _ _ _ _ _ _ _ Hone) as Htake.
  apply (write_chunk_account_inv fs r0 buf W0 W) in Hone as (Hc1 & Hn1 & ->);
    [|done|done|done|done|done| |done| |].
  - apply (IH (apply_account W e)) in Hrun as (Hc' & ->); [|done|done|done| | | |].
    + done.
    + apply apply_account_ok; [done|apply He].
    + lia.
    + intros h Hin. eapply agree_at_trans; [|apply Hagree; by right].
      apply apply_account_agree. intros Heq. apply Hnin. by rewrite Heq.
    + intros h t Hin Ht. apply (Htries h t); [by right|]. eapply lookup_weaken; [exact Ht|apply Htake].
  - unfold has_room. lia.
  - apply Hagree. left.
  - intros t. apply Htries. left.
Qed.

(** ** One chunk *)

Lemma match_header_inv {E} (e : ClientWitnessInput → E) (s : state) header s' :
  match_input read_witness_input
    (λ w, match w with WitnessStateChunk header => mret header | _ => throw (e w) end) s = (Ok header, s') →
  reads_on s s'.
Proof.
  intros (w & r & s1 & Hread & Harm & ->)%match_input_inv. destruct w; try done. injection Harm as _ <-.
  rewrite after_plain_arm. apply reads_on_step. by eapply step_witness.
Qed.

Lemma first_account_read p e entries chunk post (s : state) x s' :
  write_chunk_accounts p (hashed_entry <$> e :: entries) chunk post s = (Ok x, s') →
  ∃ o, get_nibbles chunk (drop (length p) (b256_nibbles (keccak256 e.1))) = Ok o.
Proof.
  cbn [fmap list_fmap write_chunk_accounts].
  intros ([c1 post1] & s1 & Hone & _)%machine_bind_inv. unfold write_chunk_account, hashed_entry in Hone.
  apply machine_bind_inv in Hone as (suffix & s2 & Hsuf & Hone). injection Hsuf as Hsuf <-.
  apply slice_from_inv in Hsuf as ->.
  apply machine_bind_inv in Hone as (old & s2 & Hold & _). injection Hold as Hold _.
  apply map_err_ok in Hold. unfold get_rlp_nibbles in Hold.
  destruct (get_nibbles chunk _) as [o| | |]; try done. by exists o.
Qed.

(** What [update_chunk] went through. *)
Lemma update_chunk_inv pending (s : state) rest s' :
  update_chunk (hashed_entry <$> pending) s = (Ok rest, s') →
  ∃ p expected k buf rest0 c0 c1 c2 c3 root s0 r s2 s3 s4 inside later,
    reads_on s s0 ∧ read_raw_bytes (cell_value (ss_input s0)) = (Ok buf, r) ∧
    decode_trie buf k = Ok (c0, rest0) ∧ hash c0 = (Ok expected, c1) ∧
    check_cached_accounts c1 p (set_ss_input (new_cell r) s0) = (Ok (), s2) ∧ reads_on s2 s3 ∧
    pending = inside ++ later ∧ inside ≠ [] ∧ rest = hashed_entry <$> later ∧
    Forall (λ e, starts_with (b256_nibbles (keccak256 e.1)) p = true) inside ∧
    write_chunk_accounts p (hashed_entry <$> inside) c1 ∅ s3 = (Ok (c2, ∅), s4) ∧
    hash c2 = (Ok root, c3) ∧
    on_state_trie (replace_frontier_slot p expected root) s4 = (Ok (), s').
Proof.
  unfold update_chunk. intros (header & s0 & Hread%match_header_inv & Hrun)%machine_bind_inv.
  apply machine_bind_inv in Hrun as (buf & s1 & (r & Hraw & ->)%read_input_inv & Hrun).
  apply machine_bind_inv in Hrun as ([c0 rest0] & s1 & Hdec & Hrun). injection Hdec as Hdec <-.
  apply map_err_ok in Hdec.
  apply machine_bind_inv in Hrun as ([actual c1] & s1 & [Hhash ->]%on_local_inv & Hrun).
  case_decide as Hroot; [done|]. subst actual.
  apply machine_bind_inv in Hrun as ([] & s2 & Hcheck & Hrun).
  apply machine_bind_inv in Hrun as (post & s3 & [-> Hwit]%chunk_witnesses_inv & Hrun).
  destruct (span_chunk _ _) as [inside' rest'] eqn:Hspan.
  apply span_chunk_inv in Hspan as (inside & later & -> & -> & -> & Hpre).
  case_decide as Hne; [done|].
  apply machine_bind_inv in Hrun as ([c2 post] & s4 & Hwrite & Hrun).
  case_decide as Hpost; [done|]. subst post.
  apply machine_bind_inv in Hrun as ([root c3] & s5 & [Hhash' ->]%on_local_inv & Hrun).
  apply machine_bind_inv in Hrun as ([addressed c4] & s5 & Haddr & Hrun).
  assert (s5 = s4) as ->.
  { case_decide; [by apply on_local_inv in Haddr as [_ ->]|by injection Haddr]. }
  destruct (negb addressed); [done|].
  apply machine_bind_inv in Hrun as ([] & s5 & Hrep & Hret). injection Hret as <- <-.
  exists (sch_prefix header), (sch_expected_root header), (sch_num_nodes header), buf, rest0, c0, c1, c2, c3,
    root, s0, r, s2, s3, s4, inside, later.
  split_and!; try done. by intros ->.
Qed.

(** *** The invariant between chunks *)

(** What is assumed of the changes [bundle] and of the stream: the accounts differ,
    each entry can be written ([entry_writable]: no account that existed is removed,
    slot deletions see their siblings), the worlds on the way, after a part of the
    changes in any order, are not empty and collide neither with the strings of the
    stream nor with the empty trie ([secure_world]), and buffers and changes fit
    the arenas. *)
Record streamable (W : World) (r0 : R) (bundle : BundleState) : Prop := {
  streamable_distinct : NoDup (entry_hashes bundle);
  streamable_entries : Forall (entry_writable W r0) bundle;
  streamable_secure l1 l2 : bundle ≡ₚ l1 ++ l2 → secure_world (yields r0) (apply_bundle W l1);
  streamable_null buf : yields r0 buf → authentic buf TNull;
  streamable_room buf : yields r0 buf →
    (N.of_nat (length buf) + 3 * N.of_nat (length bundle) + 4 < u32_modulus)%N;
}.

(** The frontier stands for the world [W] so far, with [pending] changes left;
    every account in [cache0], the accounts used during execution, is true of the
    world [W0] before, or still to be checked and so far unchanged. *)
Record updating (W0 : World) (r0 : R) (cache0 : gmap B256 (option TrieAccount)) (W : World) (pending : nat)
    (s : state) : Prop := {
  updating_input : rtc read_step r0 (cell_value (ss_input s));
  updating_trie : ∃ F, ss_state_trie s = Some F ∧ frontier_of W F ∧
    (N.of_nat (num_nodes F) + N.of_nat pending + 1 < u32_modulus)%N;
  updating_keys h a : cache0 !! h = Some a → byte_key 32 h;
  updating_cache h a : cache0 !! h = Some a →
    a = accounts W0 !! h ∨ ss_account_cache s !! h = Some a ∧ agree_at h W W0;
  updating_storage h t : ss_storage_tries s !! h = Some t →
    ∃ a, cache0 !! h = Some a ∧ decoded_as r0 t (storage_root_of a);
}.

Lemma entry_hashes_elem e bundle : e ∈ bundle → keccak256 e.1 ∈ entry_hashes bundle.
Proof. intros He. by apply (list_elem_of_fmap_2 (λ e, keccak256 e.1)). Qed.

Lemma on_state_trie_inv {A} (f : machine Mpt Error A) (s : state) a s' :
  on_state_trie f s = (Ok a, s') →
  ∃ F F', ss_state_trie s = Some F ∧ f F = (Ok a, F') ∧ s' = set_ss_state_trie (Some F') s.
Proof.
  unfold on_state_trie. destruct (ss_state_trie s) as [F|]; [|done].
  destruct (f F) as [o F'] eqn:Hf. intros [= Ho <-]. apply map_err_ok in Ho as ->. by exists F, F'.
Qed.

(** What a chunk leaves of the state. *)
Lemma chunk_frames (s s0 s2 s3 s4 : state) r buf :
  reads_on s s0 → read_raw_bytes (cell_value (ss_input s0)) = (Ok buf, r) →
  s2 = set_ss_account_cache (ss_account_cache s2) (set_ss_input (new_cell r) s0) →
  reads_on s2 s3 → takes_tries s3 s4 →
  rtc read_step (cell_value (ss_input s)) (cell_value (ss_input s4)) ∧
  ss_state_trie s4 = ss_state_trie s ∧ ss_account_cache s4 = ss_account_cache s2 ∧
  ss_account_cache (set_ss_input (new_cell r) s0) = ss_account_cache s ∧
  ss_storage_tries s3 = ss_storage_tries s ∧ ss_storage_tries s4 ⊆ ss_storage_tries s.
Proof.
  intros [Hr Hs0] Hraw Hs2 [Hr' Hs3] [Hs4 Hsub].
  assert (ss_storage_tries s3 = ss_storage_tries s) as Ht by by rewrite Hs3, Hs2, Hs0.
  split_and!; [|by rewrite Hs4, Hs3, Hs2, Hs0|by rewrite Hs4, Hs3|by rewrite Hs0|done|by rewrite <-Ht].
  etrans; [exact Hr|]. eapply rtc_l; [by eapply step_raw|]. rewrite Hs4. rewrite Hs2 in Hr'. exact Hr'.
Qed.

(** An account in the cache is true once the chunk it is in was checked. *)
Lemma cached_true (W0 W : World) (p : bytes) (c : Mpt) (cache : gmap B256 (option TrieAccount)) h a :
  chunk_of W W p c → world_ok W → starts_with (b256_nibbles h) p = true → byte_key 32 h →
  (a = accounts W0 !! h ∨ cache !! h = Some a ∧ agree_at h W W0) →
  (cache !! h = Some a → get_rlp_nibbles (T:=TrieAccount) c (drop (length p) (b256_nibbles h)) = Ok a) →
  a = accounts W0 !! h.
Proof.
  intros Hc HW Hp Hk [->|[Ha [Hagree _]]] Hchecked; [done|].
  destruct (chunk_get _ _ _ _ _ _ Hc HW Hk Hp (Hchecked Ha)) as [-> _]. done.
Qed.

(** The worlds before and after a chunk, and its accounts. *)
Lemma streamable_worlds fs r0 done inside later :
  let W0 := fs_world fs in let W := apply_bundle W0 done in let W' := apply_bundle W inside in
  honest_stream fs r0 → streamable W0 r0 (done ++ inside ++ later) →
  world_ok W ∧ secure_world (yields r0) W ∧ world_ok W' ∧ secure_world (yields r0) W' ∧
  Forall (entry_writable W0 r0) inside ∧ NoDup (entry_hashes inside) ∧
  ∀ h, h ∈ entry_hashes inside → agree_at h W W0.
Proof.
  intros W0 W W' Hh Hst. pose proof (streamable_distinct _ _ _ Hst) as Hnd.
  unfold entry_hashes in Hnd. rewrite !fmap_app in Hnd.
  apply NoDup_app in Hnd as (_ & Hdisj & Hnd). apply NoDup_app in Hnd as (Hnd & _ & _).
  pose proof (streamable_entries _ _ _ Hst) as Hall. apply Forall_app in Hall as [Hdone Hall].
  apply Forall_app in Hall as [Hinside _].
  assert (∀ l, Forall (entry_writable W0 r0) l → Forall entry_ok l) as Hok.
  { intros l Hl. eapply Forall_impl; [exact Hl|]. intros e He. apply He. }
  assert (world_ok W) as HW by (apply apply_bundle_ok; [apply Hh|by apply Hok]).
  split_and!; [done| |by apply apply_bundle_ok; [|apply Hok]| |done|done|].
  - by apply (streamable_secure _ _ _ Hst done (inside ++ later)).
  - unfold W', W, apply_bundle. rewrite <-foldl_app.
    apply (streamable_secure _ _ _ Hst (done ++ inside) later). by rewrite app_assoc.
  - intros h Hin. apply apply_bundle_agree. intros Hd. apply (Hdisj h Hd). set_solver.
Qed.

Lemma update_chunk_ok fs r0 bundle cache0 done pending (s : state) rest s' :
  honest_stream fs r0 → streamable (fs_world fs) r0 bundle → bundle = done ++ pending →
  updating (fs_world fs) r0 cache0 (apply_bundle (fs_world fs) done) (length pending) s →
  update_chunk (hashed_entry <$> pending) s = (Ok rest, s') →
  ∃ inside later, pending = inside ++ later ∧ rest = hashed_entry <$> later ∧
    updating (fs_world fs) r0 cache0 (apply_bundle (fs_world fs) (done ++ inside)) (length later) s'.
Proof.
  intros Hh Hst -> [Hin (F & HF & Hfront & Hroom) Hkeys Hcache Htries] Hrun.
  set (W0 := fs_world fs) in *. set (W := apply_bundle W0 done) in *.
  apply update_chunk_inv in Hrun as (p & expected & k & buf & rest0 & c0 & c1 & c2 & c3 & root & s0 & r &
    s2 & s3 & s4 & inside & later & Hr0 & Hraw & Hdec & Hhash & Hcheck & Hr23 & -> & Hne & -> & Hpre &
    Hwrite & Hhash' & Hrep).
  exists inside, later. split; [done|]. split; [done|].
  apply on_state_trie_inv in Hrep as (F4 & F' & HF4 & Hrep & ->).
  apply check_cached_accounts_inv in Hcheck as [Hs2 Hchecked].
  assert (yields r0 buf) as Hy.
  { exists (cell_value (ss_input s0)), r. split; [etrans; [exact Hin|apply Hr0]|done]. }
  destruct (streamable_worlds fs r0 done inside later Hh Hst) as (HW & Hsec & HW' & Hsec' & Hall & Hnd & Hagree).
  fold W0 W in HW, Hsec, HW', Hsec', Hall, Hagree.
  pose proof (write_chunk_accounts_takes _ _ _ _ _ _ _ Hwrite) as Htake.
  destruct (chunk_frames s s0 s2 s3 s4 r buf Hr0 Hraw Hs2 Hr23 Htake)
    as (Hin4 & Htrie4 & Hcache4 & Hcache0 & Htries3 & Htries4).
  rewrite Htrie4, HF in HF4. injection HF4 as <-. rewrite Hcache0 in Hchecked.
  rewrite length_app in Hroom.
  destruct (replace_slot_sound W p expected root F F' Hfront ltac:(lia) Hrep) as (Hn' & S & HpS & <- & Hslot).
  assert (∃ key o, get_nibbles c1 key = Ok o) as (key & o & Hget).
  { destruct inside as [|e inside1]; [done|]. apply first_account_read in Hwrite as [o Hget]. eauto. }
  pose proof (streamable_room _ _ _ Hst buf Hy) as Hbuf. rewrite !length_app in Hbuf.
  destruct (chunk_decoded (yields r0) W p S buf k c0 rest0 c1 key o HW Hsec Hy (streamable_null _ _ _ Hst _ Hy))
    as [Hc1 Hn1]; [unfold addressable; lia|done..|].
  assert (∀ h a, cache0 !! h = Some a → starts_with (b256_nibbles h) p = true → a = accounts W0 !! h) as Htrue.
  { intros h a Ha Hp. apply (cached_true W0 W p c1 (ss_account_cache s)); eauto.
    intros Hs. specialize (Hchecked h a Hs). by rewrite Hp in Hchecked. }
  apply (write_chunk_accounts_inv fs r0 buf W W) in Hwrite as [(t2 & S0 & S' & Hm2 & Hv2 & Hp2) _];
    [|done|done|done|done|done|done|done|lia|done|].
  2: { intros h t Hh' Ht. rewrite Htries3 in Ht. apply Htries in Ht as (a & Ha & Hd).
       rewrite (Htrue h a Ha) in Hd; [done|]. unfold entry_hashes in Hh'.
       apply list_elem_of_fmap in Hh' as (e & -> & He). rewrite Forall_forall in Hpre. by apply Hpre. }
  assert (frontier_of (apply_bundle W inside) F') as Hfront'.
  { destruct (plug_det _ _ _ _ _ _ _ _ HpS Hp2) as [<- _]. apply (Hslot _ S'); [done| |].
    - destruct (plug_again _ _ _ _ _ TNull Hp2) as [T2 Hp2']. eapply hashed_below; [exact Hp2'|].
      by apply (world_hashed (yields r0)).
    - destruct (models_hash _ _ Hm2) as (c4 & Hh2 & _). rewrite Hhash' in Hh2. injection Hh2 as -> _.
      by apply view_hash. }
  assert (apply_bundle W0 (done ++ inside) = apply_bundle W inside) as -> by apply foldl_app.
  assert (1 ≤ length inside) as Hlen by (destruct inside; [done|cbn; lia]).
  split.
  - cbn. etrans; [exact Hin|exact Hin4].
  - exists F'. split_and!; [done..|lia].
  - exact Hkeys.
  - intros h a Ha. destruct (starts_with (b256_nibbles h) p) eqn:Hp; [left; by apply Htrue|].
    destruct (Hcache h a Ha) as [->|[Hs Hag]]; [by left|right]. cbn. rewrite Hcache4. split.
    + specialize (Hchecked h a Hs). by rewrite Hp in Hchecked.
    + eapply agree_at_trans; [apply apply_bundle_agree|done]. unfold entry_hashes.
      intros (e & -> & He)%list_elem_of_fmap. rewrite Forall_forall in Hpre. specialize (Hpre e He). congruence.
  - cbn. intros h t Ht. apply Htries. by eapply lookup_weaken.
Qed.

(** ** The whole update *)

Lemma update_chunks_ok fs r0 bundle cache0 count done pending (s : state) rest s' :
  honest_stream fs r0 → streamable (fs_world fs) r0 bundle → bundle = done ++ pending →
  updating (fs_world fs) r0 cache0 (apply_bundle (fs_world fs) done) (length pending) s →
  update_chunks count (hashed_entry <$> pending) s = (Ok rest, s') →
  ∃ mid later, pending = mid ++ later ∧ rest = hashed_entry <$> later ∧
    updating (fs_world fs) r0 cache0 (apply_bundle (fs_world fs) (done ++ mid)) (length later) s'.
Proof.
  intros Hh Hst. revert done pending s. induction count as [|count IH]; intros done pending s Hb Hup Hrun.
  { injection Hrun as <- <-. exists [], pending. by rewrite app_nil_r. }
  cbn [update_chunks] in Hrun. apply machine_bind_inv in Hrun as (rest1 & s1 & Hone & Hrun).
  destruct (update_chunk_ok _ _ _ _ _ _ _ _ _ Hh Hst Hb Hup Hone) as (inside & later & -> & -> & Hup1).
  destruct (IH (done ++ inside) later s1) as (mid & later' & -> & -> & Hup2); [|done..|].
  { by rewrite Hb, app_assoc. }
  exists (inside ++ mid), later'. by rewrite !app_assoc in *.
Qed.

Lemma ensure_loaded_ok fs r0 bundle (s s' : state) :
  honest_stream fs r0 → streamable (fs_world fs) r0 bundle → loading r0 s →
  ss_parent_state_root s = world_root (fs_world fs) → ensure_state_trie_loaded s = (Ok (), s') →
  updating (fs_world fs) r0 (ss_account_cache s) (fs_world fs) (length bundle) s'.
Proof.
  intros Hh Hst Hl Hroot Hrun. unfold ensure_state_trie_loaded in Hrun.
  rewrite machine_bind_get, (loading_trie _ _ Hl) in Hrun.
  apply machine_bind_inv in Hrun as (buf & s1 & (r & Hraw & ->)%read_input_inv & Hrun).
  apply machine_bind_inv in Hrun as ([F0 rest] & s1 & Hdec & Hrun). injection Hdec as Hdec <-.
  apply map_err_ok in Hdec.
  apply machine_bind_inv in Hrun as ([actual F] & s1 & [Hhash ->]%on_local_inv & Hrun).
  case_decide as Ha; [done|]. injection Hrun as <-. rewrite Ha, Hroot in Hhash.
  assert (yields r0 buf) as Hy.
  { exists (cell_value (ss_input s)), r. split; [apply Hl|done]. }
  pose proof (streamable_room _ _ _ Hst buf Hy) as Hbuf.
  destruct (frontier_decoded (yields r0) (fs_world fs) buf (sth_num_nodes (ss_header s)) F0 rest F (stream_world _ _ Hh)) as [Hf Hn];
    [|done|by apply (streamable_null _ _ _ Hst)|unfold addressable; lia|done|done|].
  { by apply (streamable_secure _ _ _ Hst [] bundle). }
  split.
  - cbn. eapply rtc_r; [apply Hl|by eapply step_raw].
  - exists F. split_and!; [done..|lia].
  - intros h a (input & Hoff & <-)%(loading_keys _ _ Hl). by apply (stream_keys _ _ Hh).
  - intros h a Hc. right. by split.
  - intros h t Ht. by apply (loading_storage _ _ Hl).
Qed.

(** The report sorted by hashed address is a permutation of it. *)
Lemma hashed_accounts_sorted bundle :
  ∃ bundle', bundle ≡ₚ bundle' ∧ hashed_accounts bundle = hashed_entry <$> bundle'.
Proof.
  assert (hashed_accounts bundle ≡ₚ map hashed_entry bundle) as Hp by apply sorting.merge_sort_Permutation.
  apply Permutation_map_inv in Hp as (bundle' & -> & Hp). by exists bundle'.
Qed.

Lemma streamable_permutation W r0 bundle bundle' :
  bundle ≡ₚ bundle' → streamable W r0 bundle → streamable W r0 bundle'.
Proof.
  intros Hp [Hd He Hs Hn Hr]. split.
  - unfold entry_hashes. by rewrite <-Hp.
  - by rewrite <-Hp.
  - intros l1 l2 Hl. apply (Hs l1 l2). by rewrite Hp.
  - done.
  - intros buf Hy. rewrite <-Hp. by apply Hr.
Qed.

(** When the update succeeds, the accounts used before it were true, and the root
    is that of the changed world. *)
Lemma streaming_update_sound fs r0 bundle (s : state) root s' :
  honest_stream fs r0 → streamable (fs_world fs) r0 bundle → loading r0 s →
  ss_parent_state_root s = world_root (fs_world fs) →
  (streaming_update_from_bundle_state bundle;; state_root) s = (Ok root, s') →
  true_cache (fs_world fs) (ss_account_cache s) ∧ root = world_root (apply_bundle (fs_world fs) bundle).
Proof.
  intros Hh Hst Hl Hroot Hrun.
  destruct (hashed_accounts_sorted bundle) as (sorted & Hperm & Hsorted).
  pose proof (streamable_permutation _ _ _ _ Hperm Hst) as Hst'.
  apply machine_bind_inv in Hrun as ([] & s4 & Hrun & Hstate). unfold streaming_update_from_bundle_state in Hrun.
  apply machine_bind_inv in Hrun as ([] & s1 & Hload & Hrun).
  pose proof (ensure_loaded_ok _ _ _ _ _ Hh Hst' Hl Hroot Hload) as Hup1.
  rewrite machine_bind_get in Hrun. case_decide as Hver; [done|]. rewrite Hsorted in Hrun.
  apply machine_bind_inv in Hrun as (rest & s2 & Hchunks & Hrun).
  apply (update_chunks_ok fs r0 sorted (ss_account_cache s) _ [] sorted) in Hchunks as (mid & later & Hm & -> & Hup2);
    [|done..]. cbn [app] in Hup2.
  case_decide as Hlater; [done|]. destruct later; [|done]. rewrite app_nil_r in Hm. subst mid.
  destruct Hup2 as [Hin2 (F & HF & Hfront & Hroom) Hkeys Hcache _].
  set (W := apply_bundle (fs_world fs) sorted) in *.
  assert (world_ok W) as HW.
  { apply apply_bundle_ok; [apply Hh|]. eapply Forall_impl; [apply (streamable_entries _ _ _ Hst')|].
    intros e He. apply He. }
  assert (stands_for 32 F (account_trie W)) as Hsf.
  { eapply frontier_stands_for; [done| |done]. apply (streamable_secure _ _ _ Hst' sorted []).
    by rewrite app_nil_r. }
  apply machine_bind_inv in Hrun as ([] & s3 & Hval & Hrun). injection Hrun as <-.
  unfold validate_account_cache in Hval. rewrite machine_bind_get, HF in Hval. cbn [unwrap] in Hval.
  rewrite machine_bind_lift_ok in Hval. apply (validate_cache_inv _ _ _ F HF) in Hval as [-> Hval].
  split.
  - intros h a Ha. destruct (Hcache h a Ha) as [->|[Hs [Hag _]]]; [done|]. rewrite <-Hag.
    eapply (get_rlp_account F W); [done|done|by eapply Hkeys|]. apply Hval.
    rewrite cache_entries_all. by apply elem_of_map_to_list.
  - unfold state_root in Hstate. apply on_state_trie_inv in Hstate as (F2 & F3 & HF2 & Hhash & _).
    cbn in HF2. rewrite HF in HF2. injection HF2 as <-.
    destruct (stands_for_hash _ _ _ Hsf) as (F4 & Hhash' & _). rewrite Hhash in Hhash'. injection Hhash' as -> _.
    change (world_root W = world_root (apply_bundle (fs_world fs) bundle)). symmetry. apply world_root_proper.
    apply apply_bundle_permutation; [done|apply (streamable_distinct _ _ _ Hst)].
Qed.

(** C9: The guest checks every account it used: when the update of a block that
    removes no account of the state before it succeeds on a stream from which
    accounts, storage tries and bytecodes were taken during execution, unchecked,
    then every account that was taken is the one the parent's state has, or is absent
    there if it was taken as absent, and the state root is that of the world after
    the changes.  Assumed are:
    - hashes of 32 bytes and no collisions between what the stream yields and the
      codes and storage tries of the state before the block ([honest_stream]), and
      that the root the frontier is read against is that state's;
    - that the changes are [streamable]: their accounts differ and their integers are
      in range; an account they remove did not exist before the block; the deletions
      of slots see the siblings they merge with; the state tries on the way, with a
      part of the changes written, are not empty and collide neither with the stream
      nor with the empty trie; and buffers and changes fit arenas of 2^32 nodes.
    A removed account that existed can make the root wrong: [emptied_chunk_diverges]
    deletes the last key of a chunk. *)
Theorem streaming_update_checks_accounts fs r0 bundle (s : state) root s' :
  honest_stream fs r0 → streamable (fs_world fs) r0 bundle → loading r0 s →
  ss_parent_state_root s = world_root (fs_world fs) →
  (streaming_update_from_bundle_state bundle;; state_root) s = (Ok root, s') →
  (∀ h account, ss_account_cache s !! h = Some account → account = accounts (fs_world fs) !! h) ∧
  root = world_root (apply_bundle (fs_world fs) bundle).
Proof. intros Hh Hst Hl Hroot. exact (streaming_update_sound fs r0 bundle s root s' Hh Hst Hl Hroot). Qed.
End pieces.
