(* ===== verification/Handover.v ===== *)
(** * From the host's state to the client's

    [encode_to_state_bytes] and [build]: what the client decodes from the host's
    bytes are the tries the host encoded, digests included, when the parent header
    has the state root and every storage trie belongs to an account whose path is
    there. *)

From stdpp Require Import sorting.
From S2P Require Import Prelude External Node Hp Mpt Trie TrieLaws TrieHash MptRefine MptHash MptSpec.
From S2P Require Import TrieMap View Stateless Codec CodecLaws TrieBounds Decode Evm State StateSpec.
From S2P Require Import Client ClientSpec.

Section unique.
Context `{CratesOk}.

(** An arena holds one trie. *)
Lemma represents_unique m a c : represents m a → represents m c → root a = root c → a = c.
Proof.
  revert c. induction a as [i|i d|i p v|i p a IH|i cs IH] using atrie_nested_ind; intros c Ha Hc Hr;
    pose proof (represents_root _ _ Ha) as [Hsa _]; pose proof (represents_root _ _ Hc) as [Hsc _];
    unfold stored in Hsa, Hsc; rewrite <-Hr, Hsa in Hsc; injection Hsc as Hsc;
    destruct c as [j|j d'|j p' v'|j p' c|j cs']; cbn [root data] in *; try done; subst j.
  - done.
  - by injection Hsc as ->.
  - by injection Hsc as -> ->.
  - injection Hsc as -> Hrc. f_equal. apply IH; [by eapply represents_extension..|done].
  - injection Hsc as Hcs. f_equal. apply list_eq. intros j. apply (f_equal (.!! j)) in Hcs.
    rewrite !list_lookup_fmap in Hcs. destruct (cs !! j) as [[x|]|] eqn:Hj, (cs' !! j) as [[y|]|] eqn:Hj'; try done.
    injection Hcs as Hxy. do 2 f_equal. apply (IH j x Hj); [by eapply represents_child..|done].
Qed.

Lemma models_unique m t t' : models m t → models m t' → t = t'.
Proof.
  intros (a & Ha & Hra & <- & _) (c & Hc & Hrc & <- & _). f_equal. apply (represents_unique m); [done|done|congruence].
Qed.

(** [m'] has the trie of [m]. *)
Definition same_trie (m m' : Mpt) : Prop := ∀ t, models m t → models m' t.

Lemma same_trie_intro m m' t : models m t → models m' t → same_trie m m'.
Proof. intros Hm Hm' t' Ht. by rewrite <-(models_unique m t t' Hm Ht). Qed.

Lemma stands_for_same n m m' M : same_trie m m' → stands_for n m M → stands_for n m' M.
Proof.
  intros Hsame [(t & T & Hm & Hrest)|[-> Hm]]; [left; exists t, T|right; split; [done|]].
  - split; [by apply Hsame|done].
  - by apply Hsame.
Qed.

(** A view of a trie that has encodings has one. *)
Lemma view_sized t T : view t T → well_formed T → sized T → sized t.
Proof.
  revert T. induction t as [|d|path v|path c IH|cs IH] using trie_nested_ind; intros T Hv Hwf Hs;
    inversion Hv as [? ? Href| | |? ? C Hc|? ds Hlen Hslots Hnone]; subst; try done.
  - constructor. by eapply trie_ref_digest_length.
  - inversion Hwf; subst. inversion Hs as [| | |? ? Hp Hpay Hsc|]; subst. cbn [trie_payload] in Hpay.
    constructor; [done| |by eapply IH]. cbn [trie_payload]. by rewrite (view_ref c C).
  - inversion Hwf as [| | | |? Hl Hwcs]; subst. inversion Hs as [| | | |? Hpay Hscs]; subst. cbn [trie_payload] in Hpay.
    constructor.
    + cbn [trie_payload]. assert (slot_bytes <$> cs = slot_bytes <$> ds) as ->; [|done].
      apply list_eq. intros i. rewrite !list_lookup_fmap. destruct (cs !! i) as [o|] eqn:Hi.
      * destruct (view_slot _ _ _ _ Hslots Hnone Hi) as (o' & -> & Ho).
        destruct o as [c|], o' as [d|]; try done. cbn. by rewrite (view_ref c d).
      * apply lookup_ge_None in Hi. by rewrite lookup_ge_None_2 by lia.
    + intros i c Hi. destruct (Hslots i c Hi) as (d & Hd & Hcd). by eapply IH; eauto.
Qed.

Lemma stands_for_portable m M :
  stands_for 32 m M → sized (map_trie M) → ∃ t, models m t ∧ canonical t ∧ sized t ∧ trie_hash t = map_root M.
Proof.
  intros Hst Hs. destruct (stands_for_hash _ _ _ Hst) as (m' & Hh & _).
  destruct Hst as [(t & T & Hm & Hct & Hu & Hv & HcT & HuT & HrT & Hc)|[-> Hm]].
  - exists t. destruct (models_hash _ _ Hm) as (m2 & Hh2 & _). assert (trie_hash t = map_root M) as Hroot by congruence.
    split_and!; [done|done| |done].
    destruct (map_trie_ok 32 M) as (HctM & HuM & HrM & HcM); [exact (proj2 Hc)|].
    assert (T = map_trie M) as -> by (by eapply (contents_unique 32)).
    eapply view_sized; [done| |done]. destruct HcT as [->|HcT]; [constructor|by apply canonical_wf].
  - exists (TDigest EMPTY_ROOT_HASH). split_and!; [done|right; constructor; auto with reth|constructor; auto with reth|].
    destruct (models_hash _ _ Hm) as (m2 & Hh2 & _). congruence.
Qed.

(** The client's check accepts what the host encoded. *)
Lemma decode_checked_encoded `{!Evm} m t k mm :
  canonical t → sized t → addressable (trie_encode t) → models m t →
  ∃ m', decode_checked (trie_encode t) k (trie_hash t) mm = Ok m' ∧ models m' t.
Proof.
  intros Hct Hs Ha Hm.
  assert (∃ m2 rest, decode_trie (trie_encode t) k = Ok (m2, rest) ∧ models m2 t) as (m2 & rest & Hdec & Hm2).
  { destruct Hct as [->|Hct].
    - exists new, (trie_encode TNull). split; [|apply models_new].
      unfold decode_trie. rewrite decide_True; [done|]. reflexivity.
    - destruct (decode_encode t [] k) as (m2 & Hdec & Hm2); rewrite ?app_nil_r in *; eauto. }
  unfold decode_checked. rewrite Hdec. cbn [map_err mbind outcome_bind].
  destruct (models_hash _ _ Hm2) as (m3 & -> & Hm3 & _). rewrite decide_False by (by intros ?).
  by exists m3.
Qed.
End unique.

Section handover.
Context `{EvmOk, !CratesOk}.

(** ** Encoding *)

(** The entry of one storage trie. *)
Definition encoded_entry (e : B256 * Mpt) (o : B256 * nat * bytes) : Prop :=
  o.1.1 = e.1 ∧ ∃ t, models e.2 t ∧ o.2 = trie_encode t.

Lemma encode_storage_spec l s :
  NoDup l.*1 → (∀ h m, (h, m) ∈ l → storage_tries s !! h = Some m ∧ ∃ t, models m t) →
  ∃ out s', mapM encode_storage l s = (Ok out, s') ∧ Forall2 encoded_entry l out.
Proof.
  revert s. induction l as [|[h m] l IH]; intros s Hnd Hall; [by exists [], s; split|].
  cbn [fmap list_fmap] in Hnd. apply NoDup_cons in Hnd as [Hni Hnd].
  destruct (Hall h m) as (Hh & t & Ht); [left|]. destruct (models_encode m t Ht) as (m' & Henc & _ & _).
  set (s1 := mkEthereumState (state_trie s) (<[h := m']> (storage_tries s))).
  destruct (IH s1 Hnd) as (out & s2 & Hrun & Hout).
  { intros h' m1 Hin. destruct (Hall h' m1) as [Hh' Hm1]; [by right|]. split; [|done]. cbn.
    rewrite lookup_insert_ne; [done|]. intros <-. apply Hni. by apply (list_elem_of_fmap_2 fst _ (h, m1)). }
  exists ((h, num_nodes m, trie_encode t) :: out), s2. split.
  - assert (encode_storage (h, m) s = (Ok (h, num_nodes m, trie_encode t), s1)) as Hone.
    { unfold encode_storage. by erewrite machine_bind_ok by (by apply (on_storage_ok h encode_trie s m _ m')). }
    cbn [mapM]. erewrite machine_bind_ok by exact Hone. by erewrite machine_bind_ok by exact Hrun.
  - constructor; [|done]. split; [done|]. by exists t.
Qed.

Lemma encode_state_spec s st :
  models (state_trie s) st → (∀ h m, storage_tries s !! h = Some m → ∃ t, models m t) →
  ∃ entries s', encode_to_state_bytes s = (Ok (mkEthereumStateBytes (num_nodes (state_trie s), trie_encode st) entries), s') ∧
    NoDup entries.*1.*1 ∧ (∀ h, is_Some (storage_tries s !! h) → h ∈ entries.*1.*1) ∧
    ∀ o, o ∈ entries → ∃ m t, storage_tries s !! o.1.1 = Some m ∧ models m t ∧ o.2 = trie_encode t.
Proof.
  intros Hst Hall. unfold encode_to_state_bytes. rewrite machine_bind_get.
  destruct (models_encode _ _ Hst) as (m' & Henc & _ & _).
  set (s1 := mkEthereumState m' (storage_tries s)).
  assert (on_state encode_trie s = (Ok (trie_encode st), s1)) as Hone.
  { unfold on_state. by rewrite Henc. }
  erewrite machine_bind_ok by exact Hone.
  destruct (encode_storage_spec (map_to_list (storage_tries s)) s1) as (out & s2 & Hrun & Hout).
  { apply NoDup_fst_map_to_list. }
  { intros h m Hin. apply elem_of_map_to_list in Hin. split; [done|by eapply Hall]. }
  erewrite machine_bind_ok by exact Hrun. eexists _, s2. split; [done|].
  assert (merge_sort by_address out ≡ₚ out) as Hp by apply merge_sort_Permutation.
  assert (out.*1.*1 = (map_to_list (storage_tries s)).*1) as Hkeys.
  { clear -Hout. induction Hout as [|e o l out [He _] Hout IH]; [done|]. cbn. by rewrite He, IH. }
  split_and!.
  - rewrite Hp, Hkeys. apply NoDup_fst_map_to_list.
  - intros h [m Hm]. rewrite Hp, Hkeys. apply (list_elem_of_fmap_2 fst _ (h, m)). by apply elem_of_map_to_list.
  - intros o Ho. rewrite Hp in Ho. apply list_elem_of_lookup in Ho as [i Hi].
    destruct (Forall2_lookup_r _ _ _ _ _ Hout Hi) as ([h m] & Hl & Hkey & t & Hm & Henct). cbn in Hkey.
    exists m, t. rewrite Hkey. split_and!; [|done|done]. apply elem_of_map_to_list. by eapply list_elem_of_lookup_2.
Qed.

(** ** Decoding *)

Lemma get_rlp_there m W h :
  world_ok W → get m h = Ok (account_trie W !! h) → get_rlp (T:=TrieAccount) m h = Ok (accounts W !! h).
Proof.
  intros HW Hg. unfold get_rlp. rewrite Hg. cbn [mbind outcome_bind]. unfold account_trie. rewrite lookup_fmap.
  destruct (accounts W !! h) as [a|] eqn:Ha; cbn; [|done]. destruct (account_fields _ HW _ _ Ha) as (? & ? & ?).
  rewrite account_roundtrip; [done|done|done| |done].
  rewrite (account_root _ HW _ _ Ha). by eapply map_root_length, slot_trie_keys.
Qed.

(** What the entry needs to be accepted, and to give the trie it was made from. *)
Record entry_fits (W : World) (st : Mpt) (s : EthereumState) (o : B256 * nat * bytes) : Prop := {
  entry_account : get st o.1.1 = Ok (account_trie W !! o.1.1);
  entry_trie : ∃ m t, storage_tries s !! o.1.1 = Some m ∧ models m t ∧ canonical t ∧ sized t ∧
    trie_hash t = map_root (slot_trie (slots W o.1.1)) ∧ o.2 = trie_encode t ∧ addressable o.2;
}.

Lemma build_storage_accepts W st s entries tries :
  world_ok W → Forall (entry_fits W st s) entries → NoDup entries.*1.*1 →
  ∃ tries', build_storage_tries st entries tries = Ok tries' ∧
    (∀ h, h ∉ entries.*1.*1 → tries' !! h = tries !! h) ∧
    (∀ h, h ∈ entries.*1.*1 → ∃ m m', storage_tries s !! h = Some m ∧ tries' !! h = Some m' ∧ same_trie m m').
Proof.
  intros HW Hall. revert tries. induction Hall as [|[[h n] buf] entries [Hacc (m & t & Hh & Hm & Hct & Hs & Hroot & Hbuf & Ha)] Hall IH];
    intros tries Hnd; [exists tries; split_and!; [done|done|by intros h ?%elem_of_nil]|].
  cbn [fst snd] in *. cbn [fmap list_fmap fst] in Hnd. apply NoDup_cons in Hnd as [Hni Hnd].
  cbn [build_storage_tries]. rewrite (get_rlp_there st W h HW Hacc). cbn [map_err mbind outcome_bind].
  set (expected := match accounts W !! h with Some a => ta_storage_root a | None => EMPTY_ROOT_HASH end).
  assert (expected = trie_hash t) as Hexp.
  { unfold expected. rewrite Hroot. destruct (accounts W !! h) as [a|] eqn:Hah; [by apply (account_root _ HW)|].
    rewrite (slots_absent _ HW _ Hah). unfold slot_trie. rewrite fmap_empty. done. }
  rewrite Hexp. subst buf.
  destruct (decode_checked_encoded m t n (λ actual, ParentStorageRootMismatch h actual (trie_hash t)) Hct Hs Ha Hm)
    as (m' & -> & Hm'). cbn [mbind outcome_bind].
  destruct (IH (<[h := m']> tries) Hnd) as (tries' & Hrun & Hout & Hin). exists tries'. split_and!; [done| |].
  - intros h' Hh'. cbn in Hh'. apply not_elem_of_cons in Hh' as [Hne Hh']. rewrite Hout by done. by rewrite lookup_insert_ne.
  - intros h' Hh'. cbn in Hh'. apply elem_of_cons in Hh' as [->|Hh']; [|by apply Hin].
    exists m, m'. split_and!; [done|by rewrite Hout, lookup_insert_eq|by eapply same_trie_intro].
Qed.

(** The states have the same tries. *)
Record same_tries (s s' : EthereumState) : Prop := {
  same_state : same_trie (state_trie s) (state_trie s');
  same_storage h : match storage_tries s !! h, storage_tries s' !! h with
                   | Some m, Some m' => same_trie m m'
                   | None, None => True
                   | _, _ => False
                   end;
}.

(** A state that can be handed over: its tries stand for the world's, and the
    accounts of the storage tries can be looked up. *)
Record portable (W : World) (s : EthereumState) : Prop := {
  portable_backs : backs W s;
  portable_sized : sized (map_trie (account_trie W));
  portable_slots h m : storage_tries s !! h = Some m →
    sized (map_trie (slot_trie (slots W h))) ∧ get (state_trie s) h = Ok (account_trie W !! h);
}.

(** The byte strings are short enough for their nodes to be counted. *)
Definition bytes_fit (b : EthereumStateBytes) : Prop :=
  addressable (sb_state_trie b).2 ∧ ∀ o, o ∈ sb_storage_tries b → addressable o.2.

Lemma handover W s b s1 current ancestors codes parent :
  world_ok W → portable W s → encode_to_state_bytes s = (Ok b, s1) → bytes_fit b →
  ancestors !! 0 = Some parent → hd_state_root parent = world_root W →
  ∃ s', build (mkClientExecutorInput current ancestors b codes) =
    Ok (mkInputWithState (mkClientExecutorInput current ancestors b codes) s') ∧ same_tries s s'.
Proof.
  intros HW [Hb Hsz Hslots] Henc [Hfit Hfits] Hparent Hroot.
  destruct (stands_for_portable _ _ (backs_state _ _ Hb) Hsz) as (st & Hst & Hct & Hs & Hh).
  assert (∀ h m, storage_tries s !! h = Some m → ∃ t, models m t ∧ canonical t ∧ sized t ∧
    trie_hash t = map_root (slot_trie (slots W h))) as Hall.
  { intros h m Hm. apply stands_for_portable; [by apply (backs_storage _ _ Hb)|by eapply Hslots]. }
  destruct (encode_state_spec s st Hst) as (entries & s2 & Hrun & Hnd & Hin & Hent).
  { intros h m Hm. destruct (Hall h m Hm) as (t & Ht & _). by exists t. }
  rewrite Henc in Hrun. injection Hrun as -> <-. cbn [sb_state_trie sb_storage_tries snd] in *.
  unfold build. cbn [parent_state_bytes sb_state_trie ancestor_headers sb_storage_tries].
  unfold index. rewrite Hparent. cbn [mbind outcome_bind]. rewrite Hroot. unfold world_root. rewrite <-Hh.
  destruct (decode_checked_encoded (state_trie s) st (num_nodes (state_trie s))
    (λ actual, ParentStateRootMismatch actual (trie_hash st)) Hct Hs Hfit Hst) as (m' & -> & Hm').
  cbn [mbind outcome_bind].
  destruct (build_storage_accepts W m' s entries ∅ HW) as (tries' & -> & Hout & Htries); [|done|].
  { apply Forall_forall. intros o Ho. destruct (Hent o Ho) as (m & t & Hm & Ht & Hbuf). split.
    - destruct (Hslots _ _ Hm) as [_ Hg]. rewrite (models_get _ _ _ Hm'), <-(models_get _ _ _ Hst). exact Hg.
    - destruct (Hall _ _ Hm) as (t' & Ht' & Hct' & Hs' & Hh'). assert (t' = t) as -> by (by eapply models_unique).
      exists m, t. split_and!; try done. by apply Hfits. }
  cbn [mbind outcome_bind]. eexists. split; [done|]. split; cbn [state_trie storage_tries].
  - by eapply same_trie_intro.
  - intros h. destruct (decide (h ∈ entries.*1.*1)) as [Hh1|Hh1].
    + destruct (Htries h Hh1) as (m & m2 & -> & -> & Hsame). done.
    + rewrite Hout by done. rewrite lookup_empty. destruct (storage_tries s !! h) eqn:Hm; [|done].
      apply Hh1, Hin. by rewrite Hm.
Qed.
End handover.
