(* ===== verification/Executor.v ===== *)
(** * Block execution with capacity hints ([crates/executor/client/src/capacity.rs])

    How a block runs: the executor of [reth_evm_ethereum] applies the changes
    before the transactions, the transactions in order, and the changes after.
    The capacity hints only size hash maps. *)

From S2P Require Import Prelude External Node Mpt Evm State Client.

(** ** Capacity hints *)

(** Arithmetic on a [usize] that sticks to the largest one. *)
Definition saturating_add (usize_max a b : N) : N := (a + b) `min` usize_max.
Definition saturating_mul (usize_max a b : N) : N := (a * b) `min` usize_max.

Definition MAX_ACCOUNT_CAPACITY : N := 16384.
Definition MAX_CONTRACT_CAPACITY : N := 4096.
Definition MAX_BLOCK_HASH_CAPACITY : N := 256.

Record CapacityHints : Type := mkCapacityHints {
  ch_accounts : N;
  ch_contracts : N;
  ch_block_hashes : N;
}.

Definition capacity_hints (usize_max transaction_count ancestor_count : N) : CapacityHints :=
  mkCapacityHints
    (saturating_add usize_max (saturating_mul usize_max transaction_count 4) 4096
       `min` MAX_ACCOUNT_CAPACITY)
    (saturating_add usize_max transaction_count 256 `min` MAX_CONTRACT_CAPACITY)
    (ancestor_count `min` MAX_BLOCK_HASH_CAPACITY).

(** The hints are what arithmetic without a bound gives, whatever the width of
    [usize] (it has at least 16 bits), they grow with their arguments, and they
    never pass the limits. *)
Lemma capacity_hints_exact usize_max transaction_count ancestor_count :
  (65535 ≤ usize_max)%N →
  capacity_hints usize_max transaction_count ancestor_count =
  mkCapacityHints ((transaction_count * 4 + 4096) `min` MAX_ACCOUNT_CAPACITY)%N
    ((transaction_count + 256) `min` MAX_CONTRACT_CAPACITY)%N
    (ancestor_count `min` MAX_BLOCK_HASH_CAPACITY)%N.
Proof.
  intros Hmax. unfold capacity_hints, saturating_add, saturating_mul, MAX_ACCOUNT_CAPACITY,
    MAX_CONTRACT_CAPACITY. f_equal; lia.
Qed.

(** C33: Capacity hints are bounded and overflow-safe: on any machine width, up to
    the largest counts, they equal the unbounded formula cut at the limits, grow
    with the counts, and stay within the limits. *)
Theorem capacity_hints_bounded usize_max t t' a a' :
  (65535 ≤ usize_max)%N → (t ≤ t')%N → (a ≤ a')%N →
  let hints := capacity_hints usize_max t a in
  let hints' := capacity_hints usize_max t' a' in
  ch_accounts hints = ((t * 4 + 4096) `min` MAX_ACCOUNT_CAPACITY)%N ∧
  ch_contracts hints = ((t + 256) `min` MAX_CONTRACT_CAPACITY)%N ∧
  (ch_accounts hints ≤ ch_accounts hints' ≤ MAX_ACCOUNT_CAPACITY)%N ∧
  (ch_contracts hints ≤ ch_contracts hints' ≤ MAX_CONTRACT_CAPACITY)%N ∧
  (ch_block_hashes hints ≤ ch_block_hashes hints' ≤ MAX_BLOCK_HASH_CAPACITY)%N.
Proof. intros Hmax Ht Ha. cbv zeta. rewrite !capacity_hints_exact by done. cbn. lia. Qed.

Lemma capacity_hints_bounded_witness :
  let hints := capacity_hints 18446744073709551615 896 3 in
  let hints' := capacity_hints 18446744073709551615 18446744073709551615 18446744073709551615 in
  ch_accounts hints = ((896 * 4 + 4096) `min` MAX_ACCOUNT_CAPACITY)%N ∧
  ch_contracts hints = ((896 + 256) `min` MAX_CONTRACT_CAPACITY)%N ∧
  (ch_accounts hints ≤ ch_accounts hints' ≤ MAX_ACCOUNT_CAPACITY)%N ∧
  (ch_contracts hints ≤ ch_contracts hints' ≤ MAX_CONTRACT_CAPACITY)%N ∧
  (ch_block_hashes hints ≤ ch_block_hashes hints' ≤ MAX_BLOCK_HASH_CAPACITY)%N.
Proof. apply capacity_hints_bounded; lia. Defined.

(** ** The code of [reth] and its EVM *)

Class Reth `{Evm} : Type := {
  (** [reth_chainspec::ChainSpec], and the two the client knows *)
  ChainSpec : Type;
  mainnet : ChainSpec;
  dev : ChainSpec;
  (** a block whose senders are recovered, and its transactions *)
  RecoveredBlock : Type;
  Transaction : Type;
  try_into_recovered : Block → outcome RecoveryError RecoveredBlock;
  transactions_recovered : RecoveredBlock → list Transaction;
  block_access_list_hash : RecoveredBlock → option B256;
  (** [EthBeaconConsensus] and [validate_block_post_execution] *)
  validate_header : ChainSpec → RecoveredBlock → outcome ConsensusError unit;
  validate_block_pre_execution : ChainSpec → RecoveredBlock → outcome ConsensusError unit;
  Receipt : Type;
  Requests : Type;
  validate_block_post_execution :
    RecoveredBlock → ChainSpec → list Receipt → Requests → outcome ConsensusError unit;
  (** the executor [EthEvmConfig] makes for a block, over revm's [State] *)
  RevmState : Type;
  BlockExecutor : Type;
  State_build : RevmState;
  executor_for_block :
    ChainSpec → RevmState → RecoveredBlock → outcome BlockExecutionErr BlockExecutor;
  executor_state : BlockExecutor → RevmState;
  set_bal_builder : bool → BlockExecutor → BlockExecutor;
  bump_bal_index : BlockExecutor → BlockExecutor;
  apply_pre_execution_changes : BlockExecutor → prog BlockExecutionErr BlockExecutor;
  execute_transaction : Transaction → BlockExecutor → prog BlockExecutionErr BlockExecutor;
  apply_post_execution_changes :
    BlockExecutor → prog BlockExecutionErr (BlockExecutor * (list Receipt * Requests));
  merge_transitions : RevmState → RevmState;
  take_bundle : RevmState → BundleState;
  (** a query that failed ends execution with this error *)
  database_error : ProviderError → BlockExecutionErr;
  (** [Bloom::default], [accrue_bloom] of a receipt's bloom *)
  empty_bloom : bytes;
  accrue_bloom : bytes → Receipt → bytes;
  (** roots of the body *)
  calculate_ommers_root : BlockBody → B256;
  calculate_withdrawals_root : BlockBody → option B256;
}.

(** ** [CapacityBlockExecutor] *)

Section executor.
Context `{Reth}.

(** [CapacityBlockExecutor { strategy_factory, db }]: the factory is the chain
    specification it was made with. *)
Record CapacityBlockExecutor : Type := mkCapacityBlockExecutor {
  strategy_factory : ChainSpec;
  cbe_db : RevmState;
}.

(** [for tx in block.transactions_recovered()] *)
Fixpoint execute_transactions (has_bal : bool) (txs : list Transaction) (executor : BlockExecutor)
  : prog BlockExecutionErr BlockExecutor :=
  match txs with
  | [] => mret executor
  | tx :: txs' =>
      executor ← execute_transaction tx executor;
      execute_transactions has_bal txs' (if has_bal then bump_bal_index executor else executor)
  end.

Definition execute_one (e : CapacityBlockExecutor) (block : RecoveredBlock)
  : prog BlockExecutionErr (CapacityBlockExecutor * (list Receipt * Requests)) :=
  executor ← prog_lift (executor_for_block (strategy_factory e) (cbe_db e) block);
  let has_bal := bool_decide (is_Some (block_access_list_hash block)) in
  let executor := set_bal_builder has_bal executor in
  executor ← apply_pre_execution_changes executor;
  let executor := if has_bal then bump_bal_index executor else executor in
  executor ← execute_transactions has_bal (transactions_recovered block) executor;
  '(executor, result) ← apply_post_execution_changes executor;
  mret (mkCapacityBlockExecutor (strategy_factory e) (merge_transitions (executor_state executor)), result).

(** [BlockExecutionOutput]: what [Executor::execute] makes of [execute_one] and
    [into_state]. *)
Record BlockExecutionOutput : Type := mkBlockExecutionOutput {
  output_receipts : list Receipt;
  output_requests : Requests;
  output_state : BundleState;
}.

Definition execute_block (spec : ChainSpec) (block : RecoveredBlock)
  : prog BlockExecutionErr BlockExecutionOutput :=
  '(e, (receipts, requests)) ← execute_one (mkCapacityBlockExecutor spec State_build) block;
  mret (mkBlockExecutionOutput receipts requests (take_bundle (cbe_db e))).
End executor.
