(* ===== verification/Execute.v ===== *)
(** * The client executor ([crates/executor/client/src/lib.rs])

    [execute] checks the witness, executes the block on it, writes the changes
    to the tries and compares the state root with the block's. *)

From S2P Require Import Prelude External Node Hp Mpt Codec Evm State Client Executor.

Inductive ChainVariant : Type := Mainnet | Dev.

Section execute.
Context `{Reth}.

Definition chain_spec (chain_variant : ChainVariant) : ChainSpec :=
  match chain_variant with Mainnet => mainnet | Dev => dev end.

(** [validate_header], [validate_block_pre_execution] *)
Definition validate_pre (spec : ChainSpec) (block : RecoveredBlock)
  : outcome ClientExecutionError unit :=
  _ ← map_err InvalidHeader (validate_header spec block);
  map_err InvalidBlockPreExecution (validate_block_pre_execution spec block).

(** [block_executor.execute(&block)?] on a database: a query that fails ends it. *)
Definition run_block {S} `{!DatabaseRef S ProviderError} (spec : ChainSpec) (block : RecoveredBlock)
  : machine S ClientExecutionError BlockExecutionOutput := λ db,
  match run_program (execute_block spec block) db with
  | (Ok o, db') => (map_err BlockExecutionError o, db')
  | (Err e, db') => (Err (BlockExecutionError (database_error e)), db')
  | (Panic p, db') => (Panic p, db')
  | (OutOfFuel, db') => (OutOfFuel, db')
  end.

Definition logs_bloom_of (receipts : list Receipt) : bytes := foldl accrue_bloom empty_bloom receipts.

(** ** Recording the accesses the update will need *)

Definition set_wd_state (s : EthereumState) (db : WitnessDb) : WitnessDb :=
  mkWitnessDb s (block_hashes db) (bytecode_by_hash db) (account_lookup_order db)
    (bytecode_lookup_order db) (storage_lookup_order db) (witness_order db).

(** [hash()] on a storage trie of the state the database borrows; it cannot
    return an error. *)
Definition storage_trie_hash (hashed_address : B256) (t : Mpt)
  : machine WitnessDb ClientExecutionError B256 := λ db,
  match hash t with
  | (Ok root, t') =>
      (Ok root, set_wd_state (mkEthereumState (state_trie (wd_state db))
        (<[hashed_address := t']> (storage_tries (wd_state db)))) db)
  | (Err _, _) => (Panic Unreachable, db)
  | (Panic p, _) => (Panic p, db)
  | (OutOfFuel, _) => (OutOfFuel, db)
  end.

(** [order.contains(&hashed_address)] *)
Definition in_order (hashed_address : B256) (order : option (list B256)) : bool :=
  match order with Some l => bool_decide (hashed_address ∈ l) | None => false end.

(** [order.push(hashed_address)] *)
Definition push_order (hashed_address : B256) (order : option (list B256)) : option (list B256) :=
  (λ l, l ++ [hashed_address]) <$> order.

Definition record_modified (entry : Address * BundleAccount)
  : machine WitnessDb ClientExecutionError unit :=
  let '(address, account) := entry in
  let hashed_address := keccak256 address in
  modify (push_witness (AccessModifiedAccount hashed_address (length (ba_storage account))));;
  db ← get_state;
  if bool_decide (is_Some (ba_info account)) && negb (bool_decide (ba_storage account = [])) &&
     negb (in_order hashed_address (storage_lookup_order db))
  then
    match storage_tries (wd_state db) !! hashed_address with
    | None => mret ()
    | Some storage_trie =>
        root ← storage_trie_hash hashed_address storage_trie;
        if decide (root = EMPTY_ROOT_HASH) then mret ()
        else
          modify (λ db,
            if in_order hashed_address (account_lookup_order db) then db
            else push_witness (AccessAccount hashed_address)
              (set_account_lookup_order (push_order hashed_address (account_lookup_order db)) db));;
          modify (λ db, push_witness (AccessStorageTrie hashed_address)
            (set_storage_lookup_order (push_order hashed_address (storage_lookup_order db)) db))
    end
  else mret ().

Definition record_bundle (bundle : BundleState) : machine WitnessDb ClientExecutionError unit :=
  db ← get_state;
  match witness_order db with
  | Some _ =>
      modify (push_witness AccessStateTrie);;
      for_each record_modified bundle
  | None => mret ()
  end.

(** ** The header of the executed block *)

(** [header.parent_hash = ..] and so on. *)
Definition derive_header (block : Block) (parent : BlockHeader) (receipts : list Receipt)
  : BlockHeader :=
  let h := bk_header block in
  mkHeader HeaderRest
    (header_hash_slow parent)
    (calculate_ommers_root (bk_body block))
    (hd_state_root h)
    (hd_transactions_root h)
    (hd_receipts_root h)
    (logs_bloom_of receipts)
    (hd_number h)
    (calculate_withdrawals_root (bk_body block))
    (hd_requests_hash h)
    (hd_rest h).

(** The state root after the changes of the block. *)
Definition updated_root (bundle : BundleState) (s : EthereumState)
  : outcome ClientExecutionError B256 :=
  match (update_from_bundle_state bundle;; on_state hash) s with
  | (Ok root, _) => Ok root
  | (Err e, _) => Err (MptError e)
  | (Panic p, _) => Panic p
  | (OutOfFuel, _) => OutOfFuel
  end.

(** [recording]: whether accesses are recorded, and their overall order too.
    With the header, the database whose recordings the caller reads. *)
Definition execute_with_state (chain_variant : ChainVariant) (i : ClientExecutorInputWithState)
    (recording : option bool) : outcome ClientExecutionError (BlockHeader * WitnessDb) :=
  db ← match recording with
       | Some order => witness_db_recording i order
       | None => witness_db i
       end;
  let spec := chain_spec chain_variant in
  let block := current_block (input i) in
  recovered ← map_err BlockSenderRecoveryError (try_into_recovered block);
  _ ← validate_pre spec recovered;
  '(executor_output, db) ← (let '(o, db') := run_block spec recovered db in
                            output ← o; Ok (output, db'));
  _ ← map_err InvalidBlockPostExecution
        (validate_block_post_execution recovered spec (output_receipts executor_output)
           (output_requests executor_output));
  let bundle := output_state executor_output in
  db ← (let '(o, db') := record_bundle bundle db in _ ← o; Ok db');
  state_root ← updated_root bundle (wd_state db);
  if decide (state_root ≠ hd_state_root (bk_header block)) then
    Err (StateRootMismatch state_root (hd_state_root (bk_header block)))
  else
    parent ← index (ancestor_headers (input i)) 0;
    Ok (derive_header block parent (output_receipts executor_output), db).

Definition execute (chain_variant : ChainVariant) (pre_input : ClientExecutorInput)
  : outcome ClientExecutionError BlockHeader :=
  i ← build pre_input;
  '(header, _) ← execute_with_state chain_variant i None;
  Ok header.

Definition execute_recording_witness_order (chain_variant : ChainVariant)
    (pre_input : ClientExecutorInput)
  : outcome ClientExecutionError (BlockHeader * list WitnessAccess) :=
  i ← build pre_input;
  '(header, db) ← execute_with_state chain_variant i (Some true);
  Ok (header, default [] (witness_order db)).
End execute.
