(* ===== verification/ExecuteStream.v ===== *)
(** * The streaming executor ([execute_from_reader] of
    [crates/executor/client/src/lib.rs])

    The entry point of the zkVM guest: the block comes first, execution reads the
    witness as it goes, and the state trie is read and checked at the end. *)

From S2P Require Import Prelude External Node Hp Mpt Codec Frontier Evm State Client Streaming.
From S2P Require Import Executor Execute.

(** A read outside the streaming state. *)
Definition read_from {R E A} (read : machine R Empty_set A) (input : R) : outcome E (A * R) :=
  match read input with
  | (Ok a, input') => Ok (a, input')
  | (Err e, _) => match e with end
  | (Panic p, _) => Panic p
  | (OutOfFuel, _) => OutOfFuel
  end.

Section execute.
Context `{Reth} {R : Type} `{!ClientInputReader R, !CacheOrder}.

(** The state root after the changes of the block, all witnesses checked. *)
Definition streaming_updated_root (bundle : BundleState) (s : StreamingEthereumState)
  : outcome ClientExecutionError B256 :=
  ((streaming_update_from_bundle_state bundle;; state_root) s).1.

Definition execute_from_reader (chain_variant : ChainVariant) (input : R)
  : outcome ClientExecutionError BlockHeader :=
  '(ancestor_headers, input) ← read_from read_ancestor_headers input;
  '(current_block, input) ← read_from read_current_block input;
  let current_header := bk_header current_block in
  let spec := chain_spec chain_variant in
  recovered_block ← map_err BlockSenderRecoveryError (try_into_recovered current_block);
  _ ← validate_pre spec recovered_block;
  state ← build_streaming_state_from_input_reader ancestor_headers input;
  db ← from_streaming_parts state current_header ancestor_headers;
  '(executor_output, db) ← (let '(o, db') := run_block spec recovered_block db in
                            output ← o; Ok (output, db'));
  _ ← map_err InvalidBlockPostExecution
        (validate_block_post_execution recovered_block spec (output_receipts executor_output)
           (output_requests executor_output));
  actual ← streaming_updated_root (output_state executor_output) (sd_state db);
  if decide (actual ≠ hd_state_root current_header) then
    Err (StateRootMismatch actual (hd_state_root current_header))
  else
    parent ← index ancestor_headers 0;
    Ok (derive_header current_block parent (output_receipts executor_output)).
End execute.
