(* ===== verification/Hints.v ===== *)
(** * The hints the host writes for the guest
    ([write_ceno_client_input] of [crates/host-bench/src/lib.rs], the reader of
    [bin/ceno-client-eth/src/main.rs])

    The host executes the block once, recording the order of the accesses, cuts
    the state trie into a frontier and chunks, and writes everything in the order
    in which the guest will read it. *)

From S2P Require Import Prelude External Node Hp Mpt Codec Frontier Evm State Client Streaming.
From S2P Require Import Executor Execute ExecuteStream.

(** [ceno_host::WORD_ALIGNMENT] *)
Class CenoHost : Type := { WORD_ALIGNMENT : nat }.

(** ** The stream

    [hints.write] serializes one value as one item, [ceno_rt::read_owned] takes
    the next item and panics when it is not of the type it is asked for;
    [ceno_rt::read_slice] takes a raw item.  An item is what it was written
    from. *)
Inductive hint `{Evm} : Type :=
  | HintAncestorHeaders (ancestor_headers : list BlockHeader)
  | HintCurrentBlock (current_block : Block)
  | HintStateTrieHeader (state_trie_header : StateTrieHeader)
  | HintWitness (witness : ClientWitnessInput)
  | HintRaw (data : bytes) (end_of_data : nat).

Section reader.
Context `{Evm}.

Definition next_hint {A} (select : hint → option A) : machine (list hint) Empty_set A := λ hints,
  match hints with
  | [] => (Panic UnwrapOnNone, [])
  | h :: hints' =>
      match select h with
      | Some a => (Ok a, hints')
      | None => (Panic UnwrapOnErr, hints')
      end
  end.

(** [CenoClientInputReader] *)
#[global] Instance hint_reader : ClientInputReader (list hint) := {|
  read_ancestor_headers := next_hint (λ h, match h with HintAncestorHeaders x => Some x | _ => None end);
  read_state_trie_header := next_hint (λ h, match h with HintStateTrieHeader x => Some x | _ => None end);
  read_current_block := next_hint (λ h, match h with HintCurrentBlock x => Some x | _ => None end);
  read_witness_input := next_hint (λ h, match h with HintWitness x => Some x | _ => None end);
  read_raw_bytes :=
    next_hint (λ h, match h with HintRaw data end_of_data => Some (take end_of_data data) | _ => None end);
  remaining := length;
|}.
End reader.

(** ** Writing *)

Inductive host_error `{Evm} : Type :=
  | HostClientError (e : ClientExecutionError)
  | HostMptError (e : Error)
  | FrontierChangedRoot
  | NoStateMarker
  | MissingAccount (hashed_address : B256)
  | MissingStorage (hashed_address : B256)
  | MissingBytecode (hash : B256).

Section write.
Context `{Reth, !CenoHost}.

(** [n.next_multiple_of(k)] *)
Definition next_multiple_of (n k : nat) : nat :=
  if decide (n `mod` k = 0) then n else n + (k - n `mod` k).

Definition write_raw_hint_bytes (hints : list hint) (b : bytes) : list hint :=
  hints ++ [HintRaw (b ++ replicate (next_multiple_of (length b) WORD_ALIGNMENT - length b) 0%N) (length b)].

(** The weights of the accounts the block changes. *)
Definition modified_accounts (witness_order : list WitnessAccess) : list (B256 * nat) :=
  omap (λ access, match access with
                  | AccessModifiedAccount h storage_slots => Some (h, 1 + storage_slots)
                  | _ => None
                  end) witness_order.

Definition is_account (access : WitnessAccess) : option B256 :=
  match access with AccessAccount h => Some h | _ => None end.

Definition is_marker (access : WitnessAccess) : bool :=
  match access with AccessStateTrie => true | _ => false end.

Definition is_post_access (access : WitnessAccess) : bool :=
  match access with AccessAccount _ | AccessStorageTrie _ => true | _ => false end.

(** [witness_order.iter().position(is_marker)], split there. *)
Fixpoint split_marker (witness_order : list WitnessAccess)
  : option (list WitnessAccess * list WitnessAccess) :=
  match witness_order with
  | [] => None
  | access :: rest =>
      if is_marker access then Some ([], rest)
      else '(before, after) ← split_marker rest; Some (access :: before, after)
  end.

(** The accounts looked up, with what the parent state says of them. *)
Fixpoint collect_accounts (state_trie : Mpt) (hashes : list B256) (accounts : gmap B256 (option TrieAccount))
  : outcome host_error (gmap B256 (option TrieAccount)) :=
  match hashes with
  | [] => Ok accounts
  | h :: hashes' =>
      account ← map_err HostMptError (get_rlp (T:=TrieAccount) state_trie h);
      collect_accounts state_trie hashes' (<[h := account]> accounts)
  end.

Section items.
Variable account_by_hash : gmap B256 (option TrieAccount).
Variable storage_trie_by_hash : gmap B256 (nat * bytes).
Variable bytecode_by_hash : gmap B256 Bytecode.
Variable frontier_bytes : bytes.

Definition write_account_hint (hints : list hint) (h : B256) : outcome host_error (list hint) :=
  match account_by_hash !! h with
  | Some account => Ok (hints ++ [HintWitness (WitnessAccount (mkAccountInput h account))])
  | None => Err (MissingAccount h)
  end.

Definition write_storage_hint (hints : list hint) (h : B256) : outcome host_error (list hint) :=
  match storage_trie_by_hash !! h with
  | Some (num_nodes, b) =>
      Ok (write_raw_hint_bytes
            (hints ++ [HintWitness (WitnessStorageTrie (mkStorageTrieHeader h num_nodes))]) b)
  | None => Err (MissingStorage h)
  end.

(** An access up to the marker. *)
Definition write_access (hints : list hint) (access : WitnessAccess) : outcome host_error (list hint) :=
  match access with
  | AccessAccount h => write_account_hint hints h
  | AccessStorageTrie h => write_storage_hint hints h
  | AccessBytecode h =>
      match bytecode_by_hash !! h with
      | Some bytecode => Ok (hints ++ [HintWitness (WitnessBytecode bytecode)])
      | None => Err (MissingBytecode h)
      end
  | AccessStateTrie => Ok (write_raw_hint_bytes hints frontier_bytes)
  | AccessModifiedAccount _ _ => Panic Unreachable
  end.

(** An access after a chunk. *)
Definition write_post_access (hints : list hint) (access : WitnessAccess)
  : outcome host_error (list hint) :=
  match access with
  | AccessAccount h => write_account_hint hints h
  | AccessStorageTrie h => write_storage_hint hints h
  | _ => Panic Unreachable
  end.

Fixpoint write_all (write : list hint → WitnessAccess → outcome host_error (list hint))
    (accesses : list WitnessAccess) (hints : list hint) : outcome host_error (list hint) :=
  match accesses with
  | [] => Ok hints
  | access :: accesses' => hints' ← write hints access; write_all write accesses' hints'
  end.

(** The post accesses with the prefix of a chunk. *)
Definition in_prefix (prefix : bytes) (access : WitnessAccess) : bool :=
  match access with
  | AccessAccount h | AccessStorageTrie h => starts_with (b256_nibbles h) prefix
  | _ => false
  end.

Definition write_chunk (post_accesses : list WitnessAccess) (hints : list hint) (chunk : FrontierChunk)
  : outcome host_error (list hint) :=
  let chunk_accesses := filter (λ access, in_prefix (fc_prefix chunk) access = true) post_accesses in
  let header := mkStateChunkHeader (fc_prefix chunk) (fc_expected_root chunk) (fc_num_nodes chunk)
                  (length chunk_accesses) in
  write_all write_post_access chunk_accesses
    (write_raw_hint_bytes (hints ++ [HintWitness (WitnessStateChunk header)]) (fc_bytes chunk)).

Fixpoint write_chunks (post_accesses : list WitnessAccess) (chunks : list FrontierChunk)
    (hints : list hint) : outcome host_error (list hint) :=
  match chunks with
  | [] => Ok hints
  | chunk :: chunks' =>
      hints' ← write_chunk post_accesses hints chunk;
      write_chunks post_accesses chunks' hints'
  end.
End items.

Definition FRONTIER_LIMITS : FrontierLimits := mkFrontierLimits 2048 (256 * 1024) 256.

(** The value of a call on a trie that is read only afterwards. *)
Definition call_mpt {A} (f : machine Mpt Error A) (t : Mpt) : outcome host_error (A * Mpt) :=
  match f t with
  | (Ok a, t') => Ok (a, t')
  | (Err e, _) => Err (HostMptError e)
  | (Panic p, _) => Panic p
  | (OutOfFuel, _) => OutOfFuel
  end.

Definition write_ceno_client_input (hints : list hint) (client_input : ClientExecutorInput)
  : outcome host_error (list hint) :=
  let storage_trie_by_hash : gmap B256 (nat * bytes) :=
    foldl (λ m e, <[e.1.1 := (e.1.2, e.2)]> m) ∅ (sb_storage_tries (parent_state_bytes client_input)) in
  let bytecode_by_hash := collect_bytecodes (bytecodes client_input) in
  input_with_state ← map_err HostClientError (build client_input);
  '(_, witness_order) ← map_err HostClientError (execute_recording_witness_order Mainnet client_input);
  let state_trie := state_trie (state input_with_state) in
  '(frontier, state_trie) ←
    call_mpt (build_frontier_weighted (modified_accounts witness_order) FRONTIER_LIMITS) state_trie;
  '(state_root, state_trie) ← call_mpt hash state_trie;
  '(frontier_trie, _) ← map_err HostMptError (decode_trie (mf_bytes frontier) (mf_num_nodes frontier));
  '(frontier_root, _) ← call_mpt hash frontier_trie;
  if decide (frontier_root ≠ state_root) then Err FrontierChangedRoot
  else
    match split_marker witness_order with
    | None => Err NoStateMarker
    | Some (before, after) =>
        let post_accesses := filter (λ access, is_post_access access = true) after in
        account_by_hash ← collect_accounts state_trie (omap is_account witness_order) ∅;
        let header := mkStateTrieHeader 2 (mf_num_nodes frontier) (length (mf_chunks frontier)) in
        let hints :=
          hints ++ [HintAncestorHeaders (ancestor_headers client_input);
                    HintCurrentBlock (current_block client_input);
                    HintStateTrieHeader header] in
        hints ← write_all
          (write_access account_by_hash storage_trie_by_hash bytecode_by_hash (mf_bytes frontier))
          (before ++ [AccessStateTrie]) hints;
        write_chunks account_by_hash storage_trie_by_hash post_accesses (mf_chunks frontier) hints
    end.
End write.
