(* ===== verification/Rpc.v ===== *)
(** * The host's database and executor
    ([crates/storage/rpc-db], [crates/primitives/src/account_proof.rs],
    [crates/executor/host])

    The host executes the block on a database that fetches what the EVM asks from
    an RPC provider and remembers it.  From what was asked and what the block
    changed it fetches the proofs, and puts the client's input together. *)

From stdpp Require Import sorting.
From S2P Require Import Prelude External Node Hp Mpt Codec Evm State Client Executor Execute.
From S2P Require Import Owned FromProof.

(** ** The provider *)

(** [alloy_rpc_types]: what the provider answers. *)
Record EIP1186StorageProof {JsonStorageKey : Type} : Type := mkEIP1186StorageProof {
  esp_key : JsonStorageKey;
  esp_value : U256;
  esp_proof : list bytes;
}.
Arguments EIP1186StorageProof JsonStorageKey : clear implicits.

Record EIP1186AccountProofResponse {JsonStorageKey : Type} : Type := mkEIP1186AccountProofResponse {
  er_address : Address;
  er_balance : U256;
  er_code_hash : B256;
  er_nonce : u64;
  er_storage_hash : B256;
  er_account_proof : list bytes;
  er_storage_proof : list (EIP1186StorageProof JsonStorageKey);
}.
Arguments EIP1186AccountProofResponse JsonStorageKey : clear implicits.

(** [alloy_provider::Provider] for one chain: a request gives the same answer each
    time.  A block number stands for a [BlockId]. *)
Class Provider `{Reth} : Type := {
  TransportError : Type;
  JsonStorageKey : Type;
  as_b256 : JsonStorageKey → B256;
  get_proof : Address → list B256 → u64 → outcome TransportError (EIP1186AccountProofResponse JsonStorageKey);
  get_code_at : Address → u64 → outcome TransportError bytes;
  get_storage_at : Address → U256 → u64 → outcome TransportError U256;
  (** [alloy_rpc_types::Block], without and with the transactions in full *)
  RpcBlock : Type;
  rpc_block_hash : RpcBlock → B256;
  rpc_block_header : RpcBlock → BlockHeader;
  FullRpcBlock : Type;
  (** [map_transactions] with the conversions to the block's own transactions,
      and [into_consensus] *)
  into_consensus : FullRpcBlock → Block;
  get_block_by_number : u64 → outcome TransportError (option RpcBlock);
  get_full_block_by_number : u64 → outcome TransportError (option FullRpcBlock);
  (** [revm::state::Bytecode::new_raw], and the hash in [AccountInfo::default] *)
  Bytecode_new_raw : bytes → Bytecode;
  KECCAK_EMPTY : B256;
  (** [reth_chainspec::MAINNET]; the client has a spec of its own *)
  MAINNET : ChainSpec;
  (** [BasicBlockExecutor] on a [CacheDB] over a database: the queries it makes *)
  basic_execute : ChainSpec → RecoveredBlock → prog BlockExecutionErr BlockExecutionOutput;
}.

(** ** [account_proof.rs] *)

Section rpc.
Context `{Provider}.

Definition eip1186_proof_to_account_proof (proof : EIP1186AccountProofResponse JsonStorageKey) : AccountProof :=
  let address := er_address proof in
  let balance := er_balance proof in
  let code_hash := er_code_hash proof in
  let storage_root := er_storage_hash proof in
  let account_proof := er_account_proof proof in
  let storage_proofs :=
    (λ sp, mkStorageProof (as_b256 (esp_key sp)) (esp_value sp) (esp_proof sp)) <$> er_storage_proof proof in
  let '(storage_root, info) :=
    if decide (er_nonce proof = 0%N ∧ balance = 0%N ∧ storage_root = B256_ZERO ∧ code_hash = B256_ZERO)
    then (EMPTY_ROOT_HASH, None)
    else (storage_root, Some (mkAccount (er_nonce proof) balance (Some code_hash))) in
  mkAccountProof address info account_proof storage_root storage_proofs.

(** ** [RpcDb] *)

Record RpcDb : Type := mkRpcDb {
  rd_block : u64;
  rd_accounts : gmap Address AccountInfo;
  rd_storage : gmap Address (gmap U256 U256);
  rd_oldest_ancestor : u64;
}.

Inductive RpcDbError : Type :=
  | RpcError (e : TransportError)
  | BlockNotFound
  | PreimageNotFound.

(** [RpcDb::new] *)
Definition new_rpc_db (block : u64) : RpcDb := mkRpcDb block ∅ ∅ block.

Definition fetch_account_info (address : Address) : machine RpcDb RpcDbError AccountInfo :=
  db ← get_state;
  proof ← lift (map_err RpcError (get_proof address [] (rd_block db)));
  code ← lift (map_err RpcError (get_code_at address (rd_block db)));
  let bytecode := Bytecode_new_raw code in
  let account_info :=
    mkAccountInfo (er_balance proof) (er_nonce proof) (bytecode_hash_slow bytecode) (Some bytecode) in
  modify (λ db, mkRpcDb (rd_block db) (<[address := account_info]> (rd_accounts db)) (rd_storage db)
                  (rd_oldest_ancestor db));;
  mret account_info.

Definition fetch_storage_at (address : Address) (index : U256) : machine RpcDb RpcDbError U256 :=
  db ← get_state;
  value ← lift (map_err RpcError (get_storage_at address index (rd_block db)));
  modify (λ db, mkRpcDb (rd_block db) (rd_accounts db)
                  (<[address := <[index := value]> (default ∅ (rd_storage db !! address))]> (rd_storage db))
                  (rd_oldest_ancestor db));;
  mret value.

Definition fetch_block_hash (number : u64) : machine RpcDb RpcDbError B256 :=
  block ← lift (map_err RpcError (get_block_by_number number));
  block ← (match block with Some block => mret block | None => throw BlockNotFound end);
  let hash := rpc_block_hash block in
  modify (λ db, mkRpcDb (rd_block db) (rd_accounts db) (rd_storage db)
                  (number `min` rd_oldest_ancestor db)%N);;
  mret hash.

(** A [BTreeSet] of what the iterator yields, as a list. *)
Definition btree_set {A} `{EqDecision A} (le : A → A → Prop) `{∀ x y, Decision (le x y)} (l : list A) : list A :=
  merge_sort le (remove_dups l).

Definition bytes_order (x y : bytes) : Prop := bytes_le x y.
#[global] Instance bytes_order_dec x y : Decision (bytes_order x y).
Proof. unfold bytes_order. apply _. Defined.

(** The keys of the account's storage map, in order. *)
Definition storage_keys (storage : gmap Address (gmap U256 U256)) (address : Address) : list U256 :=
  btree_set N.le (map_to_list (default ∅ (storage !! address))).*1.

Definition get_state_requests (db : RpcDb) : gmap Address (list U256) :=
  list_to_map ((λ address, (address, storage_keys (rd_storage db) address)) <$>
    ((map_to_list (rd_accounts db)).*1 ++ (map_to_list (rd_storage db)).*1)).

(** [collect::<BTreeMap<_, _>>().into_values()] *)
Definition get_bytecodes (db : RpcDb) : list Bytecode :=
  let codes := omap (λ e, ai_code e.2) (map_to_list (rd_accounts db)) in
  (merge_sort (λ x y, bytes_order x.1 y.1) (map_to_list (collect_bytecodes codes))).*2.

(** [AccountInfo]'s own equality leaves the code out. *)
Definition is_default_account (i : AccountInfo) : Prop :=
  ai_balance i = 0%N ∧ ai_nonce i = 0%N ∧ ai_code_hash i = KECCAK_EMPTY.
#[global] Instance is_default_account_dec i : Decision (is_default_account i).
Proof. unfold is_default_account. apply _. Defined.

Definition rpc_basic_ref (address : Address) : machine RpcDb RpcDbError (option AccountInfo) :=
  account_info ← fetch_account_info address;
  if decide (is_default_account account_info) then mret None else mret (Some account_info).

#[global] Instance rpc_database : DatabaseRef RpcDb RpcDbError := {|
  basic_ref := rpc_basic_ref;
  code_by_hash_ref := λ _, panics Unimplemented;
  storage_ref := fetch_storage_at;
  block_hash_ref := fetch_block_hash;
|}.
End rpc.

(** ** [HostExecutor] *)

Section host.
Context `{Provider}.

(** What [eyre] can carry. *)
Inductive HostError : Type :=
  | HostTransport (e : TransportError)
  | BlockNotFetched (block_number : u64)
  | HostRecovery (e : RecoveryError)
  | HostConsensus (e : ConsensusError)
  | HostExecution (e : BlockExecutionErr)
  | HostDatabase (e : RpcDbError)
  | HostMpt (e : Error).

Definition into_primitive_block (block : FullRpcBlock) : Block := into_consensus block.

(** [get_block_by_number(n).full().await?.map(..).ok_or(..)?]; the message has the
    number of the current block. *)
Definition fetch_block (number block_number : u64) : outcome HostError Block :=
  block ← map_err HostTransport (get_full_block_by_number number);
  match block with
  | Some block => Ok (into_primitive_block block)
  | None => Err (BlockNotFetched block_number)
  end.

(** [B256::from] of a slot *)
Definition slot_key (key : U256) : B256 := u256_to_be_bytes key.

(** The slots of the account that the block changed. *)
Definition modified_keys (bundle : BundleState) (address : Address) : list B256 :=
  match (list_to_map bundle : gmap Address BundleAccount) !! address with
  | Some account => btree_set bytes_order (slot_key <$> (ba_storage account).*1)
  | None => []
  end.

Definition proof_keys (used_keys : list U256) (modified : list B256) : list B256 :=
  btree_set bytes_order ((slot_key <$> used_keys) ++ modified).

(** [for (address, used_keys) in state_requests.iter()] *)
Fixpoint fetch_proofs (block_number : u64) (bundle : BundleState) (requests : list (Address * list U256))
  : outcome HostError (list AccountProof * list AccountProof) :=
  match requests with
  | [] => Ok ([], [])
  | (address, used_keys) :: requests' =>
      let modified := modified_keys bundle address in
      before ← map_err HostTransport
        (get_proof address (proof_keys used_keys modified) (u64_pred block_number));
      after ← map_err HostTransport (get_proof address modified block_number);
      '(befores, afters) ← fetch_proofs block_number bundle requests';
      Ok (eip1186_proof_to_account_proof before :: befores, eip1186_proof_to_account_proof after :: afters)
  end.

(** [iter().map(|item| (item.address, item.clone())).collect()] *)
Definition by_item_address (proofs : list AccountProof) : gmap Address AccountProof :=
  foldl (λ m item, <[ap_address item := item]> m) ∅ proofs.

(** [(oldest_ancestor..=newest).rev()] *)
Definition heights_down (oldest newest : u64) : list u64 :=
  reverse ((λ i, (oldest + N.of_nat i)%N) <$> seq 0 (N.to_nat (newest + 1 - oldest))).

Fixpoint fetch_headers (heights : list u64) : outcome HostError (list BlockHeader) :=
  match heights with
  | [] => Ok []
  | height :: heights' =>
      block ← map_err HostTransport (get_block_by_number height);
      block ← unwrap block;
      rest ← fetch_headers heights';
      Ok (rpc_block_header block :: rest)
  end.

(** [encode_to_state_bytes] of a state that is not used again. *)
Definition encoded_state (s : EthereumState) : outcome HostError EthereumStateBytes :=
  map_err HostMpt (encode_to_state_bytes s).1.

(** Executing the block on the provider's state, with the consensus checks before
    and after: the output, and the database that remembers what was fetched. *)
Definition run_on_rpc (block_number : u64) (current_block : Block)
  : outcome HostError (BlockExecutionOutput * RpcDb) :=
  let spec := MAINNET in
  let rpc_db := new_rpc_db (u64_pred block_number) in
  block ← map_err HostRecovery (try_into_recovered current_block);
  _ ← map_err HostConsensus (validate_header spec block);
  _ ← map_err HostConsensus (validate_block_pre_execution spec block);
  '(executor_output, rpc_db) ←
    match run_program (basic_execute spec block) rpc_db with
    | (Ok o, rpc_db) => output ← map_err HostExecution o; Ok (output, rpc_db)
    | (Err e, _) => Err (HostDatabase e)
    | (Panic p, _) => Panic p
    | (OutOfFuel, _) => OutOfFuel
    end;
  _ ← map_err HostConsensus (validate_block_post_execution block spec
        (output_receipts executor_output) (output_requests executor_output));
  Ok (executor_output, rpc_db).

(** [HostExecutor::execute].  The state requests and the collected proofs are hash
    maps, visited in the order of their entries. *)
Definition host_execute (fuel : nat) (block_number : u64) : outcome HostError ClientExecutorInput :=
  current_block ← fetch_block block_number block_number;
  previous_block ← fetch_block (u64_pred block_number) block_number;
  '(executor_output, rpc_db) ← run_on_rpc block_number current_block;
  let bundle := output_state executor_output in
  let state_requests := get_state_requests rpc_db in
  '(before_storage_proofs, after_storage_proofs) ←
    fetch_proofs block_number bundle (map_to_list state_requests);
  state ← map_err HostMpt (transition_proofs_to_tries fuel (hd_state_root (bk_header previous_block))
    (map_to_list (by_item_address before_storage_proofs)) (by_item_address after_storage_proofs));
  let header := derive_header current_block (bk_header previous_block) (output_receipts executor_output) in
  _ ← (if decide (header_hash_slow header = header_hash_slow (bk_header current_block)) then Ok ()
       else Panic AssertionFailed);
  ancestor_headers ← fetch_headers (heights_down (rd_oldest_ancestor rpc_db) (u64_pred block_number));
  state_bytes ← encoded_state state;
  Ok (mkClientExecutorInput current_block ancestor_headers state_bytes (get_bytecodes rpc_db)).
End host.
