(* ===== verification/RpcSpec.v ===== *)
(** * What the host's database remembers

    Whatever the EVM learned from the provider can be answered again from what
    [RpcDb] recorded: the accounts with their codes, the slots, and the oldest
    block asked for. *)

From stdpp Require Import sorting.
From S2P Require Import Prelude External Node Hp Mpt Codec Evm State Client Executor Execute.
From S2P Require Import Owned FromProof Rpc.

Section replay.
Context `{Provider}.

(** ** Answering from the record alone *)

Record Replay : Type := mkReplay { rp_db : RpcDb }.

Definition account_answer (i : AccountInfo) : option AccountInfo :=
  if decide (is_default_account i) then None else Some i.

Definition recorded_codes (db : RpcDb) : list Bytecode := omap (λ e, ai_code e.2) (map_to_list (rd_accounts db)).

Definition recorded_slot (db : RpcDb) (address : Address) (index : U256) : option U256 :=
  rd_storage db !! address ≫= λ m, m !! index.

Definition recorded_hash (db : RpcDb) (number : u64) : option B256 :=
  if decide (rd_oldest_ancestor db ≤ number ≤ rd_block db)%N then
    match get_block_by_number number with Ok (Some block) => Some (rpc_block_hash block) | _ => None end
  else None.

Definition or_fail {A} (o : option A) : machine Replay unit A :=
  match o with Some a => mret a | None => throw () end.

#[global] Instance replay_database : DatabaseRef Replay unit := {|
  basic_ref := λ address, s ← get_state; or_fail (account_answer <$> rd_accounts (rp_db s) !! address);
  code_by_hash_ref := λ hash, s ← get_state; or_fail (collect_bytecodes (recorded_codes (rp_db s)) !! hash);
  storage_ref := λ address index, s ← get_state; or_fail (recorded_slot (rp_db s) address index);
  block_hash_ref := λ number, s ← get_state; or_fail (recorded_hash (rp_db s) number);
|}.

(** [BLOCKHASH] asks for blocks up to the parent. *)
Fixpoint asks_back {A} (last : u64) (p : program A) : Prop :=
  match p with
  | Finish _ _ => True
  | AskBasic _ _ k => ∀ info, asks_back last (k info)
  | AskCode _ _ k => ∀ code, asks_back last (k code)
  | AskStorage _ _ _ k => ∀ value, asks_back last (k value)
  | AskBlockHash _ number k => (number ≤ last)%N ∧ ∀ hash, asks_back last (k hash)
  end.

(** ** The record grows *)

(** The account the provider reports. *)
Definition provided_account (address : Address) (block : u64) (i : AccountInfo) : Prop :=
  ∃ proof code, get_proof address [] block = Ok proof ∧ get_code_at address block = Ok code ∧
    i = mkAccountInfo (er_balance proof) (er_nonce proof)
          (bytecode_hash_slow (Bytecode_new_raw code)) (Some (Bytecode_new_raw code)).

(** What is recorded is what the provider answers. *)
Record faithful (db : RpcDb) : Prop := {
  faithful_account address i : rd_accounts db !! address = Some i → provided_account address (rd_block db) i;
  faithful_slot address index v : recorded_slot db address index = Some v →
    get_storage_at address index (rd_block db) = Ok v;
}.

Record grows (db db' : RpcDb) : Prop := {
  grows_block : rd_block db' = rd_block db;
  grows_accounts address i : rd_accounts db !! address = Some i → rd_accounts db' !! address = Some i;
  grows_slots address index v : recorded_slot db address index = Some v → recorded_slot db' address index = Some v;
  grows_oldest : (rd_oldest_ancestor db' ≤ rd_oldest_ancestor db)%N;
}.

#[global] Instance grows_preorder : PreOrder grows.
Proof.
  split.
  - by intros db.
  - intros db1 db2 db3 [Hb1 Ha1 Hs1 Ho1] [Hb2 Ha2 Hs2 Ho2]. split; [congruence|auto|auto|lia].
Qed.

Lemma provided_account_unique address block i j :
  provided_account address block i → provided_account address block j → i = j.
Proof. intros (p & c & Hp & Hc & ->) (p' & c' & Hp' & Hc' & ->). congruence. Qed.

Lemma recorded_slot_insert db accounts oldest address index v address' index' :
  recorded_slot (mkRpcDb (rd_block db) accounts
    (<[address := <[index := v]> (default ∅ (rd_storage db !! address))]> (rd_storage db)) oldest) address' index' =
  if decide (address = address' ∧ index = index') then Some v else recorded_slot db address' index'.
Proof.
  unfold recorded_slot. cbn [rd_storage]. destruct (decide (address = address')) as [<-|Hne].
  - rewrite lookup_insert_eq. cbn. destruct (decide (index = index')) as [<-|Hni].
    + by rewrite lookup_insert_eq, decide_True.
    + rewrite lookup_insert_ne, decide_False by naive_solver. by destruct (rd_storage db !! address).
  - rewrite lookup_insert_ne, decide_False by naive_solver. done.
Qed.

Lemma basic_grows address db info db' :
  faithful db → rpc_basic_ref address db = (Ok info, db') →
  grows db db' ∧ faithful db' ∧ ∃ i, rd_accounts db' !! address = Some i ∧ info = account_answer i.
Proof.
  intros Hf Hrun. unfold rpc_basic_ref in Hrun. apply machine_bind_inv in Hrun as (i & db1 & Hrun & Hret).
  unfold fetch_account_info in Hrun. rewrite machine_bind_get in Hrun.
  destruct (get_proof address [] (rd_block db)) as [proof| | |] eqn:Hp; try done.
  destruct (get_code_at address (rd_block db)) as [code| | |] eqn:Hc; try done. injection Hrun as <- <-.
  assert (provided_account address (rd_block db) (mkAccountInfo (er_balance proof) (er_nonce proof)
    (bytecode_hash_slow (Bytecode_new_raw code)) (Some (Bytecode_new_raw code)))) as Hi by (by exists proof, code).
  set (i := mkAccountInfo _ _ _ _) in *.
  assert (db' = mkRpcDb (rd_block db) (<[address:=i]> (rd_accounts db)) (rd_storage db) (rd_oldest_ancestor db) ∧
    info = account_answer i) as [-> ->].
  { unfold account_answer. case_decide; by injection Hret as <- <-. }
  split_and!; [split|split| ]; cbn [rd_block rd_accounts rd_oldest_ancestor]; try done.
  - intros a j Hj. destruct (decide (address = a)) as [<-|Hne]; [|by rewrite lookup_insert_ne].
    rewrite lookup_insert_eq. f_equal. eapply provided_account_unique; [exact Hi|]. by apply (faithful_account _ Hf).
  - intros a j. destruct (decide (address = a)) as [<-|Hne].
    + rewrite lookup_insert_eq. by intros [= <-].
    + rewrite lookup_insert_ne by done. apply (faithful_account _ Hf).
  - apply (faithful_slot _ Hf).
  - exists i. by rewrite lookup_insert_eq.
Qed.

Lemma storage_grows address index db v db' :
  faithful db → fetch_storage_at address index db = (Ok v, db') →
  grows db db' ∧ faithful db' ∧ recorded_slot db' address index = Some v.
Proof.
  intros Hf Hrun. unfold fetch_storage_at in Hrun. rewrite machine_bind_get in Hrun.
  destruct (get_storage_at address index (rd_block db)) as [w| | |] eqn:Hw; try done. injection Hrun as <- <-.
  split_and!; [split|split| ]; cbn [rd_block rd_accounts rd_oldest_ancestor]; try done.
  - intros a k x Hx. rewrite recorded_slot_insert. case_decide as Heq; [|done]. destruct Heq as [<- <-].
    apply (faithful_slot _ Hf) in Hx. congruence.
  - apply (faithful_account _ Hf).
  - intros a k x. rewrite recorded_slot_insert. case_decide as Heq; [|apply (faithful_slot _ Hf)].
    destruct Heq as [<- <-]. by intros [= <-].
  - rewrite recorded_slot_insert. by rewrite decide_True.
Qed.

Lemma hash_grows number db h db' :
  faithful db → fetch_block_hash number db = (Ok h, db') →
  grows db db' ∧ faithful db' ∧ (rd_oldest_ancestor db' ≤ number)%N ∧
  ∃ block, get_block_by_number number = Ok (Some block) ∧ h = rpc_block_hash block.
Proof.
  intros Hf Hrun. unfold fetch_block_hash in Hrun.
  destruct (get_block_by_number number) as [[block|]| | |] eqn:Hb; try done. injection Hrun as <- <-.
  split_and!; [split|split| |]; cbn [rd_block rd_accounts rd_oldest_ancestor]; try done; [lia|apply Hf..|lia|by exists block].
Qed.

Lemma run_records {A} (p : program A) last db a db' :
  asks_back last p → rd_block db = last → faithful db → run_program p db = (Ok a, db') →
  grows db db' ∧ faithful db' ∧
  ∀ final, grows db' final → run_program p (mkReplay final) = (Ok a, mkReplay final).
Proof.
  revert db. induction p as [a'|address k IH|hash k IH|address index k IH|number k IH];
    intros db Hback Hlast Hf Hrun; cbn [run_program asks_back] in *.
  - injection Hrun as <- <-. by split_and!.
  - apply machine_bind_inv in Hrun as (info & db1 & Hask & Hrun).
    destruct (basic_grows _ _ _ _ Hf Hask) as (Hg & Hf1 & i & Hi & ->).
    destruct (IH (account_answer i) db1 (Hback _)) as (Hg' & Hf' & Hreplay); [by rewrite (grows_block _ _ Hg)|done|done|].
    split_and!; [by etrans|done|]. intros final Hfin.
    erewrite machine_bind_ok; [by apply Hreplay|]. cbn. unfold mbind, machine_bind, get_state. cbn [rp_db].
    assert (rd_accounts final !! address = Some i) as -> by (apply (grows_accounts db1 final); [by etrans|done]). done.
  - done.
  - apply machine_bind_inv in Hrun as (v & db1 & Hask & Hrun).
    destruct (storage_grows _ _ _ _ _ Hf Hask) as (Hg & Hf1 & Hv).
    destruct (IH v db1 (Hback _)) as (Hg' & Hf' & Hreplay); [by rewrite (grows_block _ _ Hg)|done|done|].
    split_and!; [by etrans|done|]. intros final Hfin.
    erewrite machine_bind_ok; [by apply Hreplay|]. cbn. unfold mbind, machine_bind, get_state. cbn [rp_db].
    assert (recorded_slot final address index = Some v) as -> by (apply (grows_slots db1 final); [by etrans|done]). done.
  - destruct Hback as [Hnum Hback]. apply machine_bind_inv in Hrun as (h & db1 & Hask & Hrun).
    destruct (hash_grows _ _ _ _ Hf Hask) as (Hg & Hf1 & Hold & block & Hblock & ->).
    destruct (IH (rpc_block_hash block) db1 (Hback _)) as (Hg' & Hf' & Hreplay); [by rewrite (grows_block _ _ Hg)|done|done|].
    split_and!; [by etrans|done|]. intros final Hfin.
    erewrite machine_bind_ok; [by apply Hreplay|]. cbn. unfold mbind, machine_bind, get_state. cbn [rp_db].
    unfold recorded_hash. rewrite Hblock, decide_True; [done|].
    pose proof (grows_oldest db1 final ltac:(by etrans)). pose proof (grows_block db1 final ltac:(by etrans)) as Hb.
    pose proof (grows_block _ _ Hg). split; [lia|]. rewrite Hb. congruence.
Qed.

Lemma faithful_new block : faithful (new_rpc_db block).
Proof.
  split.
  - intros address i. cbn. by rewrite lookup_empty.
  - intros address index v. unfold recorded_slot. cbn. by rewrite lookup_empty.
Qed.

(** C28: The host's recording is complete.  When a program of queries, the execution
    of a block, runs on [RpcDb] to its end, then it runs to the same end on what
    [RpcDb] recorded alone: its accounts, slots, and the hashes of the blocks from
    [oldest_ancestor] to the parent.  Assumed is that it asks for the hashes of no
    later block, and that the provider answers a request the same each time. *)
Theorem recording_is_complete {A} (p : program A) block a db :
  asks_back block p → run_program p (new_rpc_db block) = (Ok a, db) →
  run_program p (mkReplay db) = (Ok a, mkReplay db) ∧ (rd_oldest_ancestor db ≤ block)%N.
Proof.
  intros Hback Hrun. destruct (run_records p block (new_rpc_db block) a db Hback eq_refl (faithful_new block) Hrun) as (Hg & _ & Hreplay).
  split; [by apply Hreplay|]. apply (grows_oldest _ _ Hg).
Qed.

(** ** What is handed on *)

Lemma collect_bytecodes_lookup codes h code :
  collect_bytecodes codes !! h = Some code → code ∈ codes ∧ bytecode_hash_slow code = h.
Proof.
  intros Hl. destruct (foldl_put_lookup bytecode_hash_slow codes ∅ h code Hl) as [Hc|Hc]; [done|].
  by rewrite lookup_empty in Hc.
Qed.

(** No two codes of the list have the same hash. *)
Definition codes_apart (codes : list Bytecode) : Prop :=
  ∀ c c', c ∈ codes → c' ∈ codes → bytecode_hash_slow c = bytecode_hash_slow c' → c = c'.

Lemma collect_bytecodes_there codes code :
  codes_apart codes → code ∈ codes → collect_bytecodes codes !! bytecode_hash_slow code = Some code.
Proof. intros Hcodes Hin. apply (foldl_put_unique bytecode_hash_slow); [|done]. intros c Hc. by apply Hcodes. Qed.

(** The codes are handed on once each, and found by their hashes. *)
Lemma get_bytecodes_lookup db h code :
  collect_bytecodes (recorded_codes db) !! h = Some code → collect_bytecodes (get_bytecodes db) !! h = Some code.
Proof.
  intros Hl. destruct (collect_bytecodes_lookup _ _ _ Hl) as [_ <-]. unfold get_bytecodes.
  set (M := collect_bytecodes (recorded_codes db)) in *. fold (recorded_codes db). fold M.
  assert (∀ c, c ∈ (merge_sort (λ x y : B256 * Bytecode, bytes_order x.1 y.1) (map_to_list M)).*2 ↔
    M !! bytecode_hash_slow c = Some c) as HM.
  { intros c. rewrite merge_sort_Permutation. split.
    - intros ([k c'] & -> & Hc%elem_of_map_to_list)%list_elem_of_fmap. cbn.
      pose proof Hc as Hk. apply collect_bytecodes_lookup in Hk as [_ <-]. exact Hc.
    - intros Hc%elem_of_map_to_list. exact (list_elem_of_fmap_2 snd _ _ Hc). }
  apply collect_bytecodes_there; [|by apply HM]. intros c c' Hc%HM Hc'%HM Heq. rewrite Heq in Hc. congruence.
Qed.

(** Every account that was looked at is a request, with its slots. *)
Lemma get_state_requests_lookup db address :
  (is_Some (rd_accounts db !! address) ∨ is_Some (rd_storage db !! address)) →
  get_state_requests db !! address = Some (storage_keys (rd_storage db) address).
Proof.
  intros Hin. unfold get_state_requests.
  set (l := (map_to_list (rd_accounts db)).*1 ++ (map_to_list (rd_storage db)).*1).
  assert (address ∈ l) as Hl.
  { apply elem_of_app. destruct Hin as [[i Hi]|[m Hm]].
    - left. apply (list_elem_of_fmap_2 fst _ (address, i)). by apply elem_of_map_to_list.
    - right. apply (list_elem_of_fmap_2 fst _ (address, m)). by apply elem_of_map_to_list. }
  clearbody l. induction l as [|a l IH]; [by apply elem_of_nil in Hl|]. cbn.
  destruct (decide (a = address)) as [->|Hne]; [by rewrite lookup_insert_eq|].
  rewrite lookup_insert_ne by done. apply IH. by apply elem_of_cons in Hl as [->|Hl].
Qed.

Lemma elem_of_btree_set {A} `{EqDecision A} (le : A → A → Prop) `{∀ x y, Decision (le x y)} l x :
  x ∈ btree_set le l ↔ x ∈ l.
Proof. unfold btree_set. by rewrite merge_sort_Permutation, elem_of_remove_dups. Qed.

Lemma storage_keys_in db address index v :
  recorded_slot db address index = Some v → index ∈ storage_keys (rd_storage db) address.
Proof.
  unfold recorded_slot, storage_keys. destruct (rd_storage db !! address) as [m|] eqn:Hm; [|done]. cbn. intros Hv.
  apply elem_of_btree_set. apply (list_elem_of_fmap_2 fst _ (index, v)). by apply elem_of_map_to_list.
Qed.
End replay.
