(* ===== verification/Replay.v ===== *)
(** * The client's database answers what the host's remembered

    The host's database hands an account's code out with the account, so the EVM's
    cache never asks the host for a code; the client's hands accounts out bare and
    is asked.  When the client's database has the accounts, slots, codes and hashes
    that [RpcDb] recorded, the block runs on it as it ran on the host's. *)

From stdpp Require Import sorting.
From S2P Require Import Prelude External Node Hp Mpt Codec Evm State Client Executor Execute.
From S2P Require Import Owned FromProof Rpc RpcSpec.

Section replay.
Context `{Provider}.

(** ** Reading codes *)

(** An account as the client's database has it. *)
Definition codeless (i : AccountInfo) : AccountInfo :=
  mkAccountInfo (ai_balance i) (ai_nonce i) (ai_code_hash i) None.

(** [CacheDB] keeps the code that comes with an account. *)
Definition learn (info : option AccountInfo) (known : gmap B256 Bytecode) : gmap B256 Bytecode :=
  match info with
  | Some i => match ai_code i with Some code => <[ai_code_hash i := code]> known | None => known end
  | None => known
  end.

(** The second program gets accounts without code and asks for the codes, where the
    first has them already: they came with the accounts, [known].  Their results are
    related by [R]. *)
Inductive reads_codes {A} (R : A → A → Prop) : gmap B256 Bytecode → program A → program A → Prop :=
  | reads_finish known a a' : R a a' → reads_codes R known (Finish A a) (Finish A a')
  | reads_basic known address k k' :
      (∀ info, reads_codes R (learn info known) (k info) (k' (codeless <$> info))) →
      reads_codes R known (AskBasic A address k) (AskBasic A address k')
  | reads_code known hash code p k' :
      known !! hash = Some code → reads_codes R known p (k' code) → reads_codes R known p (AskCode A hash k')
  | reads_storage known address index k k' :
      (∀ value, reads_codes R known (k value) (k' value)) →
      reads_codes R known (AskStorage A address index k) (AskStorage A address index k')
  | reads_block_hash known number k k' :
      (∀ hash, reads_codes R known (k hash) (k' hash)) →
      reads_codes R known (AskBlockHash A number k) (AskBlockHash A number k').

(** Reports that differ at most in the codes that come with the accounts. *)
Definition codeless_account (account : BundleAccount) : BundleAccount :=
  mkBundleAccount (codeless <$> ba_info account) (ba_storage account) (ba_status account).

Definition codeless_bundle (bundle : BundleState) : BundleState :=
  (λ e, (e.1, codeless_account e.2)) <$> bundle.

Record same_output (o o' : BlockExecutionOutput) : Prop := {
  same_bundle : codeless_bundle (output_state o) = codeless_bundle (output_state o');
  same_receipts : output_receipts o = output_receipts o';
  same_requests : output_requests o = output_requests o';
}.

Definition same_result {E} (o o' : outcome E BlockExecutionOutput) : Prop :=
  match o, o' with
  | Ok a, Ok a' => same_output a a'
  | Ok _, _ | _, Ok _ => False
  | _, _ => o = o'
  end.

(** The update of the state does not look at codes. *)
Lemma update_codeless bundle s :
  update_from_bundle_state (codeless_bundle bundle) s = update_from_bundle_state bundle s.
Proof.
  unfold update_from_bundle_state. revert s. induction bundle as [|[address account] bundle IH]; intros s; [done|].
  cbn [codeless_bundle fmap list_fmap for_each fst snd].
  assert (write_account (address, codeless_account account) = write_account (address, account)) as ->.
  { unfold write_account, codeless_account. by destruct (ba_info account). }
  apply machine_bind_ext_r. intros _ s'. apply IH.
Qed.

(** ** Running on the client's database *)

(** The client's database gives the recorded answers, and records nothing itself. *)
Record client_answers (db : RpcDb) (w : WitnessDb) : Prop := {
  answer_basic address i : rd_accounts db !! address = Some i →
    witness_basic_ref address w = (Ok (codeless <$> account_answer i), w);
  answer_storage address index v : recorded_slot db address index = Some v →
    witness_storage_ref address index w = (Ok v, w);
  answer_code h code : collect_bytecodes (recorded_codes db) !! h = Some code →
    witness_code_by_hash_ref h w = (Ok code, w);
  answer_hash number h : recorded_hash db number = Some h →
    witness_block_hash_ref number w = (Ok h, w);
}.

(** Accounts are recorded with their codes. *)
Definition codes_recorded (db : RpcDb) : Prop :=
  ∀ address i, rd_accounts db !! address = Some i →
    ∃ code, ai_code i = Some code ∧ ai_code_hash i = bytecode_hash_slow code.

Lemma faithful_codes db : faithful db → codes_recorded db.
Proof. intros Hf address i Hi. apply (faithful_account _ Hf) in Hi as (proof & code & _ & _ & ->). by eexists. Qed.

Lemma learn_recorded db address i known :
  codes_recorded db → codes_apart (recorded_codes db) → rd_accounts db !! address = Some i →
  known ⊆ collect_bytecodes (recorded_codes db) →
  learn (account_answer i) known ⊆ collect_bytecodes (recorded_codes db).
Proof.
  intros Hrec Hap Hi Hknown. unfold account_answer. case_decide; [done|]. cbn.
  destruct (Hrec _ _ Hi) as (code & Hcode & Hhash). rewrite Hcode, Hhash. apply insert_subseteq_l; [|done].
  apply collect_bytecodes_there; [done|]. unfold recorded_codes. apply list_elem_of_omap.
  exists (address, i). split; [|done]. by apply elem_of_map_to_list.
Qed.

Lemma or_fail_inv {A B} (o : option A) (f : A → machine Replay unit B) s r :
  (or_fail o ≫= f) s = (Ok r, s) → ∃ a, o = Some a ∧ f a s = (Ok r, s).
Proof. destruct o as [a|]; [by exists a|done]. Qed.

Lemma client_replays {A} (R : A → A → Prop) known (p q : program A) db w a :
  client_answers db w → codes_recorded db → codes_apart (recorded_codes db) →
  reads_codes R known p q → known ⊆ collect_bytecodes (recorded_codes db) →
  run_program p (mkReplay db) = (Ok a, mkReplay db) → ∃ a', run_program q w = (Ok a', w) ∧ R a a'.
Proof.
  intros Hw Hrec Hap. induction 1 as [known b b' HR|known address k k' Hk IH|known hash code p k' Hcode Hk IH|
    known address index k k' Hk IH|known number k k' Hk IH]; intros Hknown Hrun; cbn [run_program] in *.
  - injection Hrun as ->. by exists b'.
  - change (basic_ref address) with (get_state ≫= λ s : Replay, or_fail (account_answer <$> rd_accounts (rp_db s) !! address)) in Hrun.
    rewrite machine_bind_bind, machine_bind_get in Hrun. cbn [rp_db] in Hrun.
    apply or_fail_inv in Hrun as (info & Hinfo & Hrun). apply fmap_Some in Hinfo as (i & Hi & ->).
    erewrite machine_bind_ok by (by apply (answer_basic _ _ Hw)). apply IH; [|done]. by eapply learn_recorded.
  - erewrite machine_bind_ok by (apply (answer_code _ _ Hw); by eapply lookup_weaken). by apply IH.
  - change (storage_ref address index) with (get_state ≫= λ s : Replay, or_fail (recorded_slot (rp_db s) address index)) in Hrun.
    rewrite machine_bind_bind, machine_bind_get in Hrun. cbn [rp_db] in Hrun.
    apply or_fail_inv in Hrun as (v & Hv & Hrun).
    erewrite machine_bind_ok by (by apply (answer_storage _ _ Hw)). by apply IH.
  - change (block_hash_ref number) with (get_state ≫= λ s : Replay, or_fail (recorded_hash (rp_db s) number)) in Hrun.
    rewrite machine_bind_bind, machine_bind_get in Hrun. cbn [rp_db] in Hrun.
    apply or_fail_inv in Hrun as (h & Hh & Hrun).
    erewrite machine_bind_ok by (by apply (answer_hash _ _ Hw)). by apply IH.
Qed.
End replay.
