(* ===== verification/HostProofs.v ===== *)
(** * The proofs the host fetches

    [fetch_proofs]: from a provider that answers with the accounts, slots and trie
    nodes of the worlds before and after the block, the host gets an honest set of
    proofs of every account that was looked at, its slots read before the block and
    the slots the block changed. *)

From stdpp Require Import sorting.
From S2P Require Import Prelude External Node Hp Mpt Trie TrieLaws TrieHash MptRefine MptHash MptSpec.
From S2P Require Import TrieMap View Stateless Codec CodecLaws TrieBounds Decode Owned Growth Expand.
From S2P Require Import ProofNodes Evm State StateSpec Client ClientSpec FromProof ResolveSpec ProofStore.
From S2P Require Import FromProofSpec TransitionSpec Loose OrphanSpec WitnessUpdate.
From S2P Require Import Executor Execute Rpc RpcSpec.

Section proofs.
Context `{Provider, !EvmOk, !CratesOk}.

(** ** An honest provider *)

(** [eth_getProof] of an account and some of its slots in a world.  Clients differ
    in how they report an account that does not exist. *)
Record answers (W : World) (address : Address) (keys : list B256)
    (r : EIP1186AccountProofResponse JsonStorageKey) : Prop := {
  answers_address : er_address r = address;
  answers_fields :
    match accounts W !! keccak256 address with
    | Some a => er_balance r = ta_balance a ∧ er_nonce r = ta_nonce a ∧ er_storage_hash r = ta_storage_root a
    | None => er_balance r = 0%N ∧ er_nonce r = 0%N ∧
              (er_storage_hash r = EMPTY_ROOT_HASH ∨ er_storage_hash r = B256_ZERO)
    end;
  answers_proof : proves (state_tree W) (address_nibs address) (er_account_proof r);
  answers_keys : (λ sp, as_b256 (esp_key sp)) <$> er_storage_proof r = keys;
  answers_slots sp : sp ∈ er_storage_proof r →
    proves (slots_tree W (keccak256 address)) (to_nibs (keccak256 (as_b256 (esp_key sp)))) (esp_proof sp);
}.

Definition code_hash_in (W : World) (address : Address) : B256 :=
  match accounts W !! keccak256 address with Some a => ta_code_hash a | None => KECCAK_EMPTY end.

(** A provider on a chain, around the block [n] that turns [W] into [W']. *)
Record honest_provider (W W' : World) (chain : u64 → option BlockHeader) (n : u64) : Prop := {
  provider_before address keys : ∃ r, get_proof address keys (u64_pred n) = Ok r ∧ answers W address keys r;
  provider_after address keys : ∃ r, get_proof address keys n = Ok r ∧ answers W' address keys r;
  provider_code address : ∃ code, get_code_at address (u64_pred n) = Ok code ∧
    bytecode_hash_slow (Bytecode_new_raw code) = code_hash_in W address;
  provider_storage address index : get_storage_at address index (u64_pred n) =
    Ok (default 0%N (slots W (keccak256 address) !! keccak256 (u256_to_be_bytes index)));
  provider_block i : (i < n)%N → ∃ block, get_block_by_number i = Ok (Some block) ∧
    chain i = Some (rpc_block_header block) ∧ rpc_block_hash block = header_hash_slow (rpc_block_header block);
  provider_full i : i = n ∨ i = u64_pred n → ∃ block, get_full_block_by_number i = Ok (Some block) ∧
    chain i = Some (bk_header (into_consensus block));
}.

(** ** The proofs *)

(** What [fetch_proofs] has for one request. *)
Definition fetched (W : World) (address : Address) (keys : list B256) (p : AccountProof) : Prop :=
  ∃ r, answers W address keys r ∧ p = eip1186_proof_to_account_proof r.

Lemma fetched_address W address keys p : fetched W address keys p → ap_address p = address.
Proof.
  intros (r & Hr & ->). unfold eip1186_proof_to_account_proof. rewrite <-(answers_address _ _ _ _ Hr).
  by case_decide.
Qed.

Lemma fetched_proof W address keys p :
  fetched W address keys p → proves (state_tree W) (address_nibs address) (ap_proof p).
Proof.
  intros (r & Hr & ->). pose proof (answers_proof _ _ _ _ Hr). unfold eip1186_proof_to_account_proof.
  by case_decide.
Qed.

Lemma fetched_slots W address keys p sp :
  fetched W address keys p → sp ∈ ap_storage_proofs p →
  proves (slots_tree W (keccak256 address)) (slot_nibs sp) (sp_proof sp).
Proof.
  intros (r & Hr & ->) Hsp.
  assert (sp ∈ (λ sp, mkStorageProof (as_b256 (esp_key sp)) (esp_value sp) (esp_proof sp)) <$> er_storage_proof r) as Hin.
  { revert Hsp. unfold eip1186_proof_to_account_proof. by case_decide. }
  apply list_elem_of_fmap in Hin as (e & -> & He). by apply (answers_slots _ _ _ _ Hr).
Qed.

Lemma fetched_keys W address keys p : fetched W address keys p → sp_key <$> ap_storage_proofs p = keys.
Proof.
  intros (r & Hr & ->). rewrite <-(answers_keys _ _ _ _ Hr). unfold eip1186_proof_to_account_proof.
  case_decide; cbn; by rewrite <-list_fmap_compose.
Qed.

Lemma fetched_root W address keys p :
  world_ok W → map_root (slot_trie (slots W (keccak256 address))) ≠ B256_ZERO → fetched W address keys p →
  ap_storage_root p = map_root (slot_trie (slots W (keccak256 address))) ∨
  (slot_trie (slots W (keccak256 address)) = ∅ ∧ ap_storage_root p = B256_ZERO).
Proof.
  intros HW Hz (r & Hr & ->). pose proof (answers_fields _ _ _ _ Hr) as Hf. unfold eip1186_proof_to_account_proof.
  destruct (accounts W !! keccak256 address) as [a|] eqn:Ha.
  - destruct Hf as (_ & _ & Hs). rewrite Hs, (account_root _ HW _ _ Ha). left. case_decide; [naive_solver|done].
  - assert (slot_trie (slots W (keccak256 address)) = ∅) as ->.
    { rewrite (slots_absent _ HW _ Ha). apply fmap_empty. }
    case_decide; [by left|]. destruct Hf as (_ & _ & [Hs|Hs]); [left; by rewrite Hs|by right].
Qed.

Definition before_fetched (W : World) (bundle : BundleState) (q : Address * list U256) (p : AccountProof) : Prop :=
  fetched W q.1 (proof_keys q.2 (modified_keys bundle q.1)) p.
Definition after_fetched (W' : World) (bundle : BundleState) (q : Address * list U256) (p : AccountProof) : Prop :=
  fetched W' q.1 (modified_keys bundle q.1) p.

Lemma fetch_proofs_spec W W' chain n bundle requests :
  honest_provider W W' chain n →
  ∃ befores afters, fetch_proofs n bundle requests = Ok (befores, afters) ∧
    Forall2 (before_fetched W bundle) requests befores ∧ Forall2 (after_fetched W' bundle) requests afters.
Proof.
  intros Hp. induction requests as [|[address used] requests IH]; [by exists [], []|]. cbn [fetch_proofs].
  destruct (provider_before _ _ _ _ Hp address (proof_keys used (modified_keys bundle address))) as (r & -> & Hr).
  destruct (provider_after _ _ _ _ Hp address (modified_keys bundle address)) as (r' & -> & Hr').
  destruct IH as (befores & afters & -> & Hb & Ha). cbn [map_err mbind outcome_bind].
  eexists _, _. split; [done|]. split; constructor; try done; [by exists r|by exists r'].
Qed.

(** ** By address *)

Lemma by_item_address_lookup ps address p :
  NoDup (ap_address <$> ps) → by_item_address ps !! address = Some p ↔ p ∈ ps ∧ ap_address p = address.
Proof.
  intros Hnd. split.
  - intros Hl. destruct (foldl_put_lookup ap_address ps ∅ address p Hl) as [Hc|Hc]; [done|].
    by rewrite lookup_empty in Hc.
  - intros [Hin <-]. apply (foldl_put_unique ap_address); [|done]. intros y Hy Heq.
    apply list_elem_of_lookup in Hin as [i Hi], Hy as [j Hj].
    rewrite NoDup_alt in Hnd. assert (i = j) as ->; [|congruence].
    apply (Hnd i j (ap_address p)); rewrite list_lookup_fmap; [by rewrite Hi|]. rewrite Hj. cbn. by f_equal.
Qed.

Section collected.
Context (W : World) (keys_of : Address * list U256 → list B256) (requests : gmap Address (list U256)).
Context (ps : list AccountProof).
Hypothesis Hps : Forall2 (λ q p, fetched W q.1 (keys_of q) p) (map_to_list requests) ps.

Lemma collected_addresses : ap_address <$> ps = (map_to_list requests).*1.
Proof using Hps.
  induction Hps as [|q p qs ps' Hq Hall IH]; [done|]. cbn. f_equal; [|by apply IH]. by eapply fetched_address.
Qed.

Lemma collected_lookup address used :
  requests !! address = Some used →
  ∃ p, by_item_address ps !! address = Some p ∧ fetched W address (keys_of (address, used)) p.
Proof using Hps.
  intros Hr%elem_of_map_to_list. apply list_elem_of_lookup in Hr as [i Hi].
  destruct (Forall2_lookup_l _ _ _ _ _ Hps Hi) as (p & Hp & Hf). exists p. split; [|done].
  apply by_item_address_lookup; [rewrite collected_addresses; apply NoDup_fst_map_to_list|].
  split; [by eapply list_elem_of_lookup_2|]. by eapply fetched_address.
Qed.

Lemma collected_inv address p :
  by_item_address ps !! address = Some p →
  ∃ used, requests !! address = Some used ∧ fetched W address (keys_of (address, used)) p.
Proof using Hps.
  intros [Hin Ha]%by_item_address_lookup; [|rewrite collected_addresses; apply NoDup_fst_map_to_list].
  apply list_elem_of_lookup in Hin as [i Hi]. destruct (Forall2_lookup_r _ _ _ _ _ Hps Hi) as ([a used] & Hq & Hf).
  assert (a = address) as -> by (pose proof (fetched_address _ _ _ _ Hf); cbn in *; congruence).
  exists used. split; [|done]. apply elem_of_map_to_list. by eapply list_elem_of_lookup_2.
Qed.
End collected.

(** ** The two sides together *)

Lemma trie_pair_mono T T' keys' keys'' : keys'' ⊆ keys' → trie_pair T T' keys' → trie_pair T T' keys''.
Proof.
  intros Hsub Hp.
  assert (keys'' ≫= orphans T' ⊆ keys' ≫= orphans T') as Horph.
  { intros u (k & Hu & Hk)%list_elem_of_bind. apply list_elem_of_bind. exists k. auto. }
  split; try apply Hp.
  - apply Forall_forall. intros u Hu%Horph. pose proof (pair_orphans _ _ _ Hp) as Hs. rewrite Forall_forall in Hs. by apply Hs.
  - assert ([EMPTY_STRING_CODE] :: pool_of T T' keys'' ⊆ [EMPTY_STRING_CODE] :: pool_of T T' keys') as Hpool.
    { intros x [->|Hx]%elem_of_cons; [left|right]. unfold pool_of, orphan_rlps in *.
      apply elem_of_app in Hx as [Hx|(u & -> & Hu%Horph)%list_elem_of_fmap]; apply elem_of_app; [by left|right].
      by apply list_elem_of_fmap_2. }
    intros x y Hx%Hpool Hy%Hpool. by apply (pair_distinct _ _ _ Hp).
Qed.

Definition key_nibs (key : B256) : bytes := to_nibs (keccak256 key).

(** The tries around the block, of the state and of each account that was looked at,
    are in full and fit the arena, and no hashes collide in them. *)
Record provable (W W' : World) (bundle : BundleState) (requests : gmap Address (list U256)) : Prop := {
  provable_state : trie_pair (state_tree W) (state_tree W') (address_nibs <$> (map_to_list requests).*1);
  provable_root : world_root W ≠ B256_ZERO;
  provable_slots address : is_Some (requests !! address) →
    trie_pair (slots_tree W (keccak256 address)) (slots_tree W' (keccak256 address))
      (key_nibs <$> modified_keys bundle address);
  provable_roots address : is_Some (requests !! address) →
    map_root (slot_trie (slots W (keccak256 address))) ≠ B256_ZERO;
  provable_distinct : no_collision (map_to_list requests).*1;
}.

Section honest.
Context (W W' : World) (bundle : BundleState) (requests : gmap Address (list U256)).
Context (befores afters : list AccountProof).
Hypothesis HW : world_ok W.
Hypothesis HW' : world_ok W'.
Hypothesis Hprov : provable W W' bundle requests.
Hypothesis Hbefore : Forall2 (before_fetched W bundle) (map_to_list requests) befores.
Hypothesis Hafter : Forall2 (after_fetched W' bundle) (map_to_list requests) afters.

Let parents := map_to_list (by_item_address befores).

Lemma parents_inv e :
  e ∈ parents → ∃ used, requests !! e.1 = Some used ∧ before_fetched W bundle (e.1, used) e.2.
Proof using Hbefore.
  destruct e as [a p]. intros He%elem_of_map_to_list.
  exact (collected_inv W (λ q, proof_keys q.2 (modified_keys bundle q.1)) requests befores Hbefore a p He).
Qed.

Lemma parents_requests : parents.*1 ⊆ (map_to_list requests).*1.
Proof using Hbefore.
  intros a (e & -> & He)%list_elem_of_fmap. apply parents_inv in He as (used & Hu & _).
  apply (list_elem_of_fmap_2 fst _ (e.1, used)). by apply elem_of_map_to_list.
Qed.

Lemma fetched_honest : honest_proofs W W' parents (by_item_address afters).
Proof using HW HW' Hprov Hbefore Hafter.
  split; [done|done| |apply Hprov| |].
  - eapply trie_pair_mono; [|apply (provable_state _ _ _ _ Hprov)].
    intros k (e & -> & He)%list_elem_of_fmap. apply (list_elem_of_fmap_2 address_nibs).
    apply parents_requests. by apply list_elem_of_fmap_2.
  - intros e He. apply parents_inv in He as (used & Hu & Hf).
    destruct (collected_lookup W' (λ q, modified_keys bundle q.1) requests afters Hafter e.1 used Hu) as (fini & Hfini & Hf').
    exists fini. split; [done|].
    assert (is_Some (requests !! e.1)) as Hin by (by rewrite Hu). split.
    + by eapply fetched_proof.
    + by eapply fetched_proof.
    + eapply fetched_root; [done|by apply (provable_roots _ _ _ _ Hprov)|done].
    + intros sp. by apply (fetched_slots W _ _ _ _ Hf).
    + intros sp. by apply (fetched_slots W' _ _ _ _ Hf').
    + assert (slot_nibs <$> ap_storage_proofs fini = key_nibs <$> modified_keys bundle e.1) as ->.
      { pose proof (fetched_keys _ _ _ _ Hf') as Hk. cbn [fst] in Hk. rewrite <-Hk. by rewrite <-list_fmap_compose. }
      by apply (provable_slots _ _ _ _ Hprov).
    + by apply (provable_roots _ _ _ _ Hprov).
  - assert (keccak256 ∘ fst <$> parents = keccak256 <$> parents.*1) as -> by (by rewrite list_fmap_compose).
    pose proof parents_requests as Hsub. assert (NoDup parents.*1) as Hnd by apply NoDup_fst_map_to_list.
    revert Hsub Hnd. generalize parents.*1. intros l Hsub. induction 1 as [|x l Hx Hnd IH]; [constructor|].
    cbn. constructor; [|apply IH; intros y Hy; apply Hsub; by right].
    intros (y & Heq & Hy)%list_elem_of_fmap. apply Hx.
    assert (x = y) as ->; [|done]. apply (provable_distinct _ _ _ _ Hprov); [apply Hsub; left|apply Hsub; by right|done].
Qed.

(** The slots that were asked for before the block. *)
Lemma parents_lookup address used :
  requests !! address = Some used →
  ∃ p, (address, p) ∈ parents ∧ sp_key <$> ap_storage_proofs p = proof_keys used (modified_keys bundle address).
Proof using Hbefore.
  intros Hr. destruct (collected_lookup W (λ q, proof_keys q.2 (modified_keys bundle q.1)) requests befores Hbefore _ _ Hr)
    as (p & Hp & Hf). exists p. split; [by apply elem_of_map_to_list|]. by eapply fetched_keys.
Qed.

Lemma modified_keys_in e w :
  distinct_accounts bundle → e ∈ bundle → w ∈ ba_storage e.2 → slot_key w.1 ∈ modified_keys bundle e.1.
Proof.
  intros Hnd He Hw. unfold modified_keys.
  assert ((list_to_map bundle : gmap Address BundleAccount) !! e.1 = Some e.2) as ->.
  { apply elem_of_list_to_map_1; [|by destruct e]. unfold distinct_accounts in Hnd.
    assert ((λ e : Address * BundleAccount, keccak256 e.1) <$> bundle = keccak256 <$> bundle.*1) as Heq
      by (by rewrite <-list_fmap_compose).
    rewrite Heq in Hnd. by apply NoDup_fmap_1 in Hnd. }
  apply elem_of_btree_set. apply list_elem_of_fmap_2. by apply (list_elem_of_fmap_2 fst).
Qed.

Lemma fetched_changes :
  distinct_accounts bundle →
  (∀ e, e ∈ bundle → distinct_slots (ba_storage e.2) ∧ is_Some (requests !! e.1)) →
  changes_proven parents (by_item_address afters) bundle.
Proof using Hbefore Hafter.
  intros Hnd Hin e He. destruct (Hin e He) as [Hds [used Hu]]. split; [done|].
  destruct (parents_lookup _ _ Hu) as (p & Hp & Hkeys).
  destruct (collected_lookup W' (λ q, modified_keys bundle q.1) requests afters Hafter e.1 used Hu) as (fini & Hfini & Hf').
  exists p, fini. split_and!; [done|done|]. intros _ w Hw. pose proof (modified_keys_in e w Hnd He Hw) as Hm. split.
  - assert (slot_key w.1 ∈ sp_key <$> ap_storage_proofs p) as Hk.
    { rewrite Hkeys. apply elem_of_btree_set, elem_of_app. by right. }
    apply list_elem_of_fmap in Hk as (sp & Hk & Hsp). by exists sp.
  - assert (slot_key w.1 ∈ sp_key <$> ap_storage_proofs fini) as Hk by (by rewrite (fetched_keys _ _ _ _ Hf')).
    apply list_elem_of_fmap in Hk as (sp & Hk & Hsp). by exists sp.
Qed.
End honest.
End proofs.
