(* ===== verification/ExecuteSpec.v ===== *)
(** * What a header returned by the client means

    When [execute] returns, the block is valid on the full state: executing it
    there gives the same output, and the block's state root is the root of the
    world its changes lead to. *)

From S2P Require Import Prelude External Node Hp Mpt Trie TrieLaws TrieHash MptSpec TrieMap View.
From S2P Require Import Stateless Codec CodecLaws Decode Evm State StateSpec Client ClientSpec.
From S2P Require Import Executor Execute.

Section spec.
Context `{Reth, !CratesOk, !EvmOk}.

Lemma outcome_bind_inv {E A B} (o : outcome E A) (f : A → outcome E B) b :
  (o ≫= f) = Ok b → ∃ a, o = Ok a ∧ f a = Ok b.
Proof. destruct o as [a| | |]; [eauto|done..]. Qed.

Lemma run_block_inv {S} `{!DatabaseRef S ProviderError} spec block (db : S) output db' :
  run_block spec block db = (Ok output, db') →
  run_program (execute_block spec block) db = (Ok (Ok output), db').
Proof.
  unfold run_block. destruct (run_program _ db) as [[o| | |] s]; try done.
  intros [= Ho <-]. destruct o; try done. by injection Ho as ->.
Qed.

(** [execute_with_state] that succeeds went through all its steps. *)
Lemma execute_with_state_inv cv i recording header db :
  execute_with_state cv i recording = Ok (header, db) →
  ∃ db0 recovered output db1 db2 parent,
    match recording with Some order => witness_db_recording i order | None => witness_db i end = Ok db0 ∧
    try_into_recovered (current_block (input i)) = Ok recovered ∧
    validate_pre (chain_spec cv) recovered = Ok () ∧
    run_program (execute_block (chain_spec cv) recovered) db0 = (Ok (Ok output), db1) ∧
    validate_block_post_execution recovered (chain_spec cv) (output_receipts output)
      (output_requests output) = Ok () ∧
    record_bundle (output_state output) db1 = (Ok (), db2) ∧
    updated_root (output_state output) (wd_state db2) = Ok (hd_state_root (bk_header (current_block (input i)))) ∧
    ancestor_headers (input i) !! 0 = Some parent ∧
    header = derive_header (current_block (input i)) parent (output_receipts output) ∧ db = db2.
Proof.
  intros Hrun. unfold execute_with_state in Hrun.
  apply outcome_bind_inv in Hrun as (db0 & Hdb & Hrun).
  apply outcome_bind_inv in Hrun as (recovered & Hrec & Hrun).
  apply outcome_bind_inv in Hrun as ([] & Hpre & Hrun).
  apply outcome_bind_inv in Hrun as ([output db1] & Hblock & Hrun).
  apply outcome_bind_inv in Hrun as ([] & Hpost & Hrun).
  apply outcome_bind_inv in Hrun as (db2 & Hbundle & Hrun).
  apply outcome_bind_inv in Hrun as (root & Hroot & Hrun).
  destruct (run_block _ _ _) as [o s] eqn:Hrb. apply outcome_bind_inv in Hblock as (out & -> & Hret).
  injection Hret as <- <-. apply run_block_inv in Hrb.
  destruct (record_bundle _ _) as [o s2] eqn:Hrec2. apply outcome_bind_inv in Hbundle as ([] & -> & Hret).
  injection Hret as <-.
  case_decide as Hne; [done|].
  apply outcome_bind_inv in Hrun as (parent & Hp & Hret). injection Hret as <- <-.
  unfold index in Hp. destruct (ancestor_headers (input i) !! 0) as [p|] eqn:Hanc; [|done].
  injection Hp as ->.
  exists db0, recovered, out, s, s2, parent. split_and!; try done.
  - by apply map_err_ok in Hrec.
  - by apply map_err_ok in Hpost.
  - by rewrite Hroot, Hne.
Qed.

Lemma updated_root_inv bundle s root :
  updated_root bundle s = Ok root →
  ∃ s' m', update_from_bundle_state bundle s = (Ok (), s') ∧ hash (state_trie s') = (Ok root, m').
Proof.
  unfold updated_root.
  destruct ((update_from_bundle_state bundle;; on_state hash) s) as [[r| | |] s2] eqn:Hrun; try done.
  intros [= ->].
  apply machine_bind_inv in Hrun as ([] & s1 & Hup & Hh). exists s1.
  unfold on_state in Hh. destruct (hash (state_trie s1)) as [[r| | |] m'] eqn:Hhash; try done.
  injection Hh as -> _. by exists m'.
Qed.

(** The update on a witness leads to the root of the changed world. *)
Lemma updated_root_sound W s bundle root :
  backs W s → ready W s bundle → bundle_sees s bundle → updated_root bundle s = Ok root →
  root = world_root (apply_bundle W bundle).
Proof.
  intros Hb Hr Hsees (s' & m' & Hup & Hh)%updated_root_inv.
  pose proof (update_backs W s bundle s' Hb Hr Hsees Hup) as Hb'.
  destruct (stands_for_hash _ _ _ (backs_state _ _ Hb')) as (m'' & Hhash & _).
  rewrite Hh in Hhash. by injection Hhash as ->.
Qed.

(** Without recording, the state is what [build] made until the update. *)
Lemma record_bundle_none bundle db :
  witness_order db = None → record_bundle bundle db = (Ok (), db).
Proof. intros Hn. unfold record_bundle. rewrite machine_bind_get. by rewrite Hn. Qed.

(** Queries leave the state and an absent recording as they are. *)
Definition same_witness (db db' : WitnessDb) : Prop :=
  wd_state db' = wd_state db ∧ (witness_order db = None → witness_order db' = None).

Lemma same_witness_push a db : same_witness db (push_witness a db).
Proof. unfold same_witness, push_witness. destruct (witness_order db) eqn:Hw; split; cbn; congruence. Qed.

Lemma same_witness_trans db db1 db2 : same_witness db db1 → same_witness db1 db2 → same_witness db db2.
Proof. intros [Hs Hw] [Hs' Hw']. split; [congruence|auto]. Qed.

Lemma same_witness_account h db : same_witness db (record_account h db).
Proof.
  unfold record_account. destruct (account_lookup_order db); [|by split]. case_decide; [by split|].
  eapply same_witness_trans; [|apply same_witness_push]. by split.
Qed.

Lemma same_witness_storage h db : same_witness db (record_storage h db).
Proof.
  unfold record_storage. destruct (storage_lookup_order db); [|by split]. case_decide; [by split|].
  eapply same_witness_trans; [|apply same_witness_push]. by split.
Qed.

Lemma same_witness_bytecode h db : same_witness db (record_bytecode h db).
Proof.
  unfold record_bytecode. eapply same_witness_trans; [|apply same_witness_push].
  destruct (bytecode_lookup_order db); by split.
Qed.

Lemma run_program_same {A} (p : program A) db : same_witness db (run_program p db).2.
Proof.
  revert db. induction p as [a|x k IH|x k IH|x y k IH|x k IH]; intros db; cbn [run_program]; [by split| | | |];
    unfold mbind at 1, machine_bind at 1.
  - change (basic_ref x db) with (witness_basic_ref x db). unfold witness_basic_ref.
    rewrite machine_bind_modify, machine_bind_get. unfold mbind, machine_bind, lift.
    destruct (unwrap_outcome _); cbn; try apply same_witness_account.
    eapply same_witness_trans; [apply same_witness_account|apply IH].
  - change (code_by_hash_ref x db) with (witness_code_by_hash_ref x db). unfold witness_code_by_hash_ref.
    rewrite machine_bind_modify, machine_bind_get. unfold lift.
    destruct (unwrap _); cbn; try apply same_witness_bytecode.
    eapply same_witness_trans; [apply same_witness_bytecode|apply IH].
  - change (storage_ref x y db) with (witness_storage_ref x y db). unfold witness_storage_ref.
    rewrite !machine_bind_modify, machine_bind_get. unfold mbind, machine_bind, lift.
    pose proof (same_witness_trans _ _ _ (same_witness_account (keccak256 x) db)
      (same_witness_storage (keccak256 x) _)) as Hsame.
    destruct (unwrap _); cbn; [|done..]. destruct (unwrap_outcome _); cbn; [|done..].
    eapply same_witness_trans; [exact Hsame|apply IH].
  - change (block_hash_ref x db) with (witness_block_hash_ref x db). unfold witness_block_hash_ref.
    rewrite machine_bind_get. unfold lift. destruct (unwrap _); cbn; [apply IH|by split..].
Qed.

(** Like [witness_execution_is_full_execution], for the database [execute] makes. *)
Lemma full_execution fs i iws db {A} (p : program A) a db' :
  honest_hashes fs i → build i = Ok iws → witness_db iws = Ok db →
  run_program p db = (Ok a, db') → run_program p fs = (Ok a, fs).
Proof.
  intros Hh Hb Hdb Hrun.
  destruct (run_program_implements p db fs a db' (witness_db_truthful _ _ _ _ Hh Hb Hdb) Hrun)
    as (fs' & Hfull & _).
  pose proof (full_run_state p fs) as Hs. rewrite Hfull in Hs. cbn in Hs. by subst fs'.
Qed.

(** C1: The client is sound on inputs that cover what the block writes: when
    [execute] returns a header, then the block passes the consensus checks,
    executing it on a node with the full state gives the same output, the block's
    state root is the root of the world after the block's changes, and the header
    has the block's number, state root and parent.  Assumed are:
    - the chain with the block, the full state before it, and no hash collisions
      between the input and them ([honest_hashes]); what the input claims is
      arbitrary otherwise;
    - of the changes the block really makes, that they are of different accounts,
      that the input has a storage trie for each changed account that has slots, and
      that the arenas have room ([ready]);
    - and that each deletion sees the sibling it merges with ([bundle_sees]).
    The code checks neither of the last two, and the claim is false without them:
    [execute_accepts_missing_storage_trie] is an input without a storage trie that is
    executed to a wrong root, [delete_beside_unresolved_leaf_diverges] a deletion
    beside an unresolved sibling that gives one. *)
Theorem execute_sound cv fs i header :
  honest_hashes fs i →
  (∀ iws recovered output,
     build i = Ok iws → try_into_recovered (current_block i) = Ok recovered →
     run_program (execute_block (chain_spec cv) recovered) fs = (Ok (Ok output), fs) →
     ready (fs_world fs) (state iws) (output_state output) ∧
     bundle_sees (state iws) (output_state output)) →
  execute cv i = Ok header →
  ∃ recovered output,
    try_into_recovered (current_block i) = Ok recovered ∧
    validate_pre (chain_spec cv) recovered = Ok () ∧
    run_program (execute_block (chain_spec cv) recovered) fs = (Ok (Ok output), fs) ∧
    hd_state_root header = world_root (apply_bundle (fs_world fs) (output_state output)) ∧
    hd_state_root header = hd_state_root (bk_header (current_block i)) ∧
    hd_number header = hd_number (bk_header (current_block i)) ∧
    hd_parent_hash header = hd_parent_hash (bk_header (current_block i)).
Proof.
  intros Hh Hneed Hrun. unfold execute in Hrun.
  apply outcome_bind_inv in Hrun as (iws & Hb & Hrun).
  apply outcome_bind_inv in Hrun as ([hd db] & Hexec & Hret). injection Hret as <-.
  apply execute_with_state_inv in Hexec
    as (db0 & recovered & output & db1 & db2 & parent & Hdb & Hrec & Hpre & Hblock & Hpost & Hbundle & Hroot & Hp & -> & _).
  rewrite (build_input _ _ Hb) in *.
  pose proof (full_execution _ _ _ _ _ _ _ Hh Hb Hdb Hblock) as Hfull.
  pose proof (run_program_same (execute_block (chain_spec cv) recovered) db0) as [Hs1 Hw1].
  rewrite Hblock in Hs1, Hw1. cbn [snd] in Hs1, Hw1.
  pose proof Hdb as Hdb'. unfold witness_db, headers in Hdb'. rewrite (build_input _ _ Hb) in Hdb'.
  apply outcome_bind_inv in Hdb' as (hashes & Hhashes & Hdb'). injection Hdb' as <-.
  destruct (hashes_true _ _ _ _ Hh Hhashes) as [Hl _].
  rewrite record_bundle_none in Hbundle by (by apply Hw1). injection Hbundle as <-.
  rewrite Hs1 in Hroot. cbn [wd_state new_witness_db] in Hroot.
  destruct (Hneed iws recovered output Hb Hrec Hfull) as [Hready Hsees].
  exists recovered, output. split_and!; try done.
  - cbn. eapply updated_root_sound; [by eapply build_backs|done..].
  - cbn. destruct (ancestor_headers i) as [|p rest]; [done|]. injection Hp as ->.
    by destruct Hl as (_ & Hph & _).
Qed.
End spec.
