(* ===== verification/ExecuteStreamSpec.v ===== *)
(** * What a header returned by the zkVM guest means

    [execute_from_reader] executes the block on accounts it has not checked yet.
    When it returns, they have been: the block is valid on the full state, and the
    block's state root is the root of the world its changes lead to. *)

From S2P Require Import Prelude External Node Hp Mpt Trie TrieLaws TrieHash MptSpec TrieMap View.
From S2P Require Import Stateless Codec CodecLaws Decode Frontier Evm State StateSpec Client Streaming ClientSpec.
From S2P Require Import FrontierLaws StreamSpec ChunkSpec StreamUpdateSpec Executor Execute ExecuteStream ExecuteSpec.

Section spec.
Context `{Reth} {R : Type} `{!ClientInputReader R, !CacheOrder}.
Context `{!CratesOk, !EvmOk, !CacheOrderOk}.

#[local] Abbreviation state := (StreamingEthereumState (R:=R)).

Lemma read_from_inv {E A} (read : machine R Empty_set A) input (x : A * R) :
  read_from (E:=E) read input = Ok x → read input = (Ok x.1, x.2).
Proof. unfold read_from. destruct (read input) as [[a|[]| |] r]; try done. by intros [= <-]. Qed.

(** [execute_from_reader] that succeeds went through all its steps. *)
Lemma execute_from_reader_inv cv r header :
  execute_from_reader cv r = Ok header →
  ∃ ancestors block r1 r2 recovered (s : state) db output db' root parent,
    read_ancestor_headers r = (Ok ancestors, r1) ∧ read_current_block r1 = (Ok block, r2) ∧
    try_into_recovered block = Ok recovered ∧ validate_pre (chain_spec cv) recovered = Ok () ∧
    build_streaming_state_from_input_reader ancestors r2 = Ok s ∧
    from_streaming_parts s (bk_header block) ancestors = Ok db ∧
    run_program (execute_block (chain_spec cv) recovered) db = (Ok (Ok output), db') ∧
    streaming_updated_root (output_state output) (sd_state db') = Ok root ∧
    root = hd_state_root (bk_header block) ∧
    ancestors !! 0 = Some parent ∧
    header = derive_header block parent (output_receipts output).
Proof.
  intros Hrun. unfold execute_from_reader in Hrun.
  apply outcome_bind_inv in Hrun as ([ancestors r1] & Hanc%read_from_inv & Hrun).
  apply outcome_bind_inv in Hrun as ([block r2] & Hblk%read_from_inv & Hrun).
  apply outcome_bind_inv in Hrun as (recovered & Hrec%map_err_ok & Hrun).
  apply outcome_bind_inv in Hrun as ([] & Hpre & Hrun).
  apply outcome_bind_inv in Hrun as (s & Hs & Hrun).
  apply outcome_bind_inv in Hrun as (db & Hdb & Hrun).
  apply outcome_bind_inv in Hrun as ([output db'] & Hblock & Hrun).
  apply outcome_bind_inv in Hrun as ([] & Hpost & Hrun).
  apply outcome_bind_inv in Hrun as (root & Hroot & Hrun).
  destruct (run_block _ _ _) as [o d] eqn:Hrb. apply outcome_bind_inv in Hblock as (out & -> & Hret).
  injection Hret as <- <-. apply run_block_inv in Hrb. case_decide as Hne; [done|].
  apply outcome_bind_inv in Hrun as (parent & Hp & Hret). injection Hret as <-.
  unfold index in Hp. destruct (ancestors !! 0) as [p|] eqn:Hp0; [|done]. injection Hp as ->.
  exists ancestors, block, r1, r2, recovered, s, db, out, d, root, parent. by split_and!.
Qed.

(** ** What the guest is given *)

(** The headers and the block at the start of the stream, and what follows. *)
Definition reads_block (r : R) (ancestors : list BlockHeader) (block : Block) (r' : R) : Prop :=
  ∃ r1, read_ancestor_headers r = (Ok ancestors, r1) ∧ read_current_block r1 = (Ok block, r').

(** What a run of the block on the stream may report. *)
Definition guest_output (cv : ChainVariant) (r : R) (output : BlockExecutionOutput) : Prop :=
  ∃ ancestors block r' recovered (s : state) db db',
    reads_block r ancestors block r' ∧ try_into_recovered block = Ok recovered ∧
    build_streaming_state_from_input_reader ancestors r' = Ok s ∧
    from_streaming_parts s (bk_header block) ancestors = Ok db ∧
    run_program (execute_block (chain_spec cv) recovered) db = (Ok (Ok output), db').

Lemma reads_block_rtc r ancestors block r' : reads_block r ancestors block r' → rtc read_step r r'.
Proof.
  intros (r1 & Hanc & Hblk). eapply rtc_l; [by eapply step_headers|].
  apply rtc_once. by eapply step_block.
Qed.

(** The state the block is executed on: nothing of the witness is read yet. *)
Lemma fresh_state r r' ancestors (s : state) :
  rtc read_step r r' → build_streaming_state_from_input_reader ancestors r' = Ok s →
  loading r s ∧ ∃ parent, ancestors !! 0 = Some parent ∧ ss_parent_state_root s = hd_state_root parent.
Proof.
  intros Hr. unfold build_streaming_state_from_input_reader.
  destruct (read_state_trie_header r') as [[header|[]| |] r2] eqn:Hread; try done.
  intros (parent & Hp & Hret)%outcome_bind_inv. injection Hret as <-. unfold index in Hp.
  destruct (ancestors !! 0) as [p|] eqn:Hp0; [|done]. injection Hp as ->. split; [|by exists parent].
  split; [|done| |].
  - cbn. eapply rtc_r; [exact Hr|by eapply step_header].
  - intros h a. cbn. by rewrite lookup_empty.
  - intros h t. cbn. by rewrite lookup_empty.
Qed.

Lemma from_streaming_parts_inv (s : state) current ancestors db :
  from_streaming_parts s current ancestors = Ok db →
  sd_state db = s ∧ ∃ capacity, build_block_hashes (current :: ancestors) capacity = Ok (sd_block_hashes db).
Proof.
  unfold from_streaming_parts. intros (m & Hm & Hret)%outcome_bind_inv. injection Hret as <-.
  split; [done|]. by eexists.
Qed.

Lemma streaming_updated_root_inv bundle (s : state) root :
  streaming_updated_root bundle s = Ok root →
  ∃ s', (streaming_update_from_bundle_state bundle;; state_root) s = (Ok root, s').
Proof.
  unfold streaming_updated_root.
  destruct ((streaming_update_from_bundle_state bundle;; state_root) s) as [o s']. cbn. intros ->. by exists s'.
Qed.

(** What the header that [execute_from_reader] returns stands for. *)
Lemma reader_header_valid cv fs (r : R) header :
  (∀ ancestors block r', reads_block r ancestors block r' →
     block_of_chain fs (bk_header block) ancestors) →
  honest_stream fs r →
  (∀ output, guest_output cv r output → streamable (fs_world fs) r (output_state output)) →
  execute_from_reader cv r = Ok header →
  ∃ ancestors block r' recovered output,
    reads_block r ancestors block r' ∧ try_into_recovered block = Ok recovered ∧
    validate_pre (chain_spec cv) recovered = Ok () ∧
    run_program (execute_block (chain_spec cv) recovered) fs = (Ok (Ok output), fs) ∧
    hd_state_root header = world_root (apply_bundle (fs_world fs) (output_state output)) ∧
    hd_state_root header = hd_state_root (bk_header block) ∧
    hd_number header = hd_number (bk_header block) ∧
    hd_parent_hash header = hd_parent_hash (bk_header block).
Proof.
  intros Hchain Hh Hneed Hrun.
  apply execute_from_reader_inv in Hrun as (ancestors & block & r1 & r2 & recovered & s & db & output & db' &
    root & parent & Hanc & Hblk & Hrec & Hpre & Hs & Hdb & Hblock & Hroot & Heq & Hp & ->).
  assert (reads_block r ancestors block r2) as Hreads by by exists r1.
  assert (streamable (fs_world fs) r (output_state output)) as Hst.
  { apply Hneed. exists ancestors, block, r2, recovered, s, db, db'. by split_and!. }
  pose proof (Hchain _ _ _ Hreads) as Hbc.
  apply from_streaming_parts_inv in Hdb as (Hsd & capacity & Hhashes).
  destruct (block_hashes_true _ _ _ _ _ Hbc Hhashes) as [Hl Htrue].
  destruct (fresh_state r _ _ _ (reads_block_rtc _ _ _ _ Hreads) Hs) as (Hload & parent' & Hp' & Hparent).
  rewrite Hp in Hp'. injection Hp' as <-. rewrite <-Hsd in Hload, Hparent.
  destruct (streaming_run fs r _ Hh _ _ _ Hload Hblock) as (Hload' & Hgrow & _ & Hfull).
  destruct ancestors as [|p rest]; [done|]. injection Hp as ->.
  apply streaming_updated_root_inv in Hroot as [s' Hroot].
  destruct (streaming_update_sound fs r (output_state output) (sd_state db') root s' Hh Hst Hload') as [Hcache Hr];
    [|exact Hroot|].
  { rewrite (grows_root _ _ Hgrow), Hparent. by eapply parent_state_root. }
  pose proof (Hfull Htrue Hcache) as Hfullrun.
  exists (parent :: rest), block, r2, recovered, output. split_and!; try done.
  - cbn. by rewrite <-Heq, Hr.
  - cbn. by destruct Hl as (_ & Hph & _).
Qed.

(** C6: The zkVM guest is sound for blocks that remove no account of the state before
    them: when [execute_from_reader] returns a header, the block it read passes the
    consensus checks, executing it on a node with the full state gives the same
    output, the block's state root is the root of the world after the block's
    changes, and the header has the block's number, state root and parent.  The
    guest executes on accounts it has not verified; that the update succeeds is what
    makes every one of them true.  Assumed are:
    - a chain with the block, and the full state before it ([block_of_chain]), hashes
      of 32 bytes and no collisions between what the stream yields and the codes and
      storage tries of that state ([honest_stream]);
    - of every report a run on the stream can end with, also a run on accounts the
      stream forged, that it is [streamable]: its accounts differ and its integers
      are in range; an account it removes did not exist before the block (an account
      created in the block, as since EIP-6780); the deletions of slots see the
      siblings they merge with; the state tries on the way, with a part of the
      changes written, are not empty and collide neither with the stream nor with
      the empty trie; and buffers and changes fit arenas of 2^32 nodes.
    The restriction to accounts that did not exist is needed: deleting the last
    account of a chunk gives a wrong root ([emptied_chunk_diverges]). *)
Theorem execute_from_reader_sound cv fs (r : R) header :
  (∀ ancestors block r', reads_block r ancestors block r' →
     block_of_chain fs (bk_header block) ancestors) →
  honest_stream fs r →
  (∀ output, guest_output cv r output → streamable (fs_world fs) r (output_state output)) →
  execute_from_reader cv r = Ok header →
  ∃ ancestors block r' recovered output,
    reads_block r ancestors block r' ∧ try_into_recovered block = Ok recovered ∧
    validate_pre (chain_spec cv) recovered = Ok () ∧
    run_program (execute_block (chain_spec cv) recovered) fs = (Ok (Ok output), fs) ∧
    hd_state_root header = world_root (apply_bundle (fs_world fs) (output_state output)) ∧
    hd_state_root header = hd_state_root (bk_header block) ∧
    hd_number header = hd_number (bk_header block) ∧
    hd_parent_hash header = hd_parent_hash (bk_header block).
Proof. apply reader_header_valid. Qed.
End spec.
