(* ===== verification/Guest.v ===== *)
(** * The zkVM guest ([bin/ceno-client-eth/src/main.rs])

    [main] reads the block and its witness from the hints of the VM, executes it and
    commits to the hash of the header as eight 32-bit words.  A proof of the VM shows
    that the guest ended with these words. *)

From S2P Require Import Prelude External Node Hp Mpt Trie TrieLaws TrieHash MptSpec TrieMap View.
From S2P Require Import Stateless Codec CodecLaws Decode Frontier Evm State StateSpec Client ClientSpec.
From S2P Require Import Streaming StreamSpec ChunkSpec StreamUpdateSpec Executor Execute ExecuteStream ExecuteStreamSpec.

(** ** The committed digest *)

(** The bytes of a word of the guest's 32-bit little-endian machine. *)
Definition u32_from_le (b0 b1 b2 b3 : u8) : N := (b0 + 2 ^ 8 * b1 + 2 ^ 16 * b2 + 2 ^ 24 * b3)%N.
Definition u32_to_le (w : N) : bytes :=
  [w `mod` 2 ^ 8; (w / 2 ^ 8) `mod` 2 ^ 8; (w / 2 ^ 16) `mod` 2 ^ 8; (w / 2 ^ 24) `mod` 2 ^ 8]%N.

(** [transmute::<[u8; 32], [u32; 8]>] *)
Fixpoint digest_words (b : bytes) : list N :=
  match b with
  | b0 :: b1 :: b2 :: b3 :: b' => u32_from_le b0 b1 b2 b3 :: digest_words b'
  | _ => []
  end.

Example digest_words_ex : digest_words [1; 2; 3; 4; 255; 0; 0; 255]%N = [0x04030201; 0xff0000ff]%N.
Proof. reflexivity. Qed.

Lemma u32_to_from_le b0 b1 b2 b3 :
  is_u8 b0 → is_u8 b1 → is_u8 b2 → is_u8 b3 → u32_to_le (u32_from_le b0 b1 b2 b3) = [b0; b1; b2; b3].
Proof.
  unfold is_u8, u32_to_le, u32_from_le. intros H0 H1 H2 H3.
  assert (∀ x y, (x < 2 ^ 8 → (x + 2 ^ 8 * y) `mod` 2 ^ 8 = x ∧ (x + 2 ^ 8 * y) / 2 ^ 8 = y)%N) as Hstep.
  { intros x y Hx. split.
    - symmetry. apply (N.mod_unique _ _ y); lia.
    - symmetry. apply (N.div_unique _ _ y x); lia. }
  replace (b0 + 2 ^ 8 * b1 + 2 ^ 16 * b2 + 2 ^ 24 * b3)%N with (b0 + 2 ^ 8 * (b1 + 2 ^ 8 * (b2 + 2 ^ 8 * b3)))%N by lia.
  change (2 ^ 24)%N with (2 ^ 8 * 2 ^ 16)%N. change (2 ^ 16)%N with (2 ^ 8 * 2 ^ 8)%N.
  rewrite <-!N.Div0.div_div.
  destruct (Hstep b0 (b1 + 2 ^ 8 * (b2 + 2 ^ 8 * b3))%N H0) as [-> ->].
  destruct (Hstep b1 (b2 + 2 ^ 8 * b3)%N H1) as [-> ->].
  destruct (Hstep b2 b3 H2) as [-> ->]. by rewrite N.mod_small.
Qed.

Lemma digest_words_bytes n b :
  Forall is_u8 b → length b = 4 * n → digest_words b ≫= u32_to_le = b ∧ length (digest_words b) = n.
Proof.
  revert b. induction n as [|n IH]; intros b Hb Hlen.
  { destruct b; [done|discriminate Hlen]. }
  destruct b as [|b0 [|b1 [|b2 [|b3 b]]]]; cbn [length] in Hlen; try lia.
  apply Forall_cons in Hb as [H0 Hb]. apply Forall_cons in Hb as [H1 Hb].
  apply Forall_cons in Hb as [H2 Hb]. apply Forall_cons in Hb as [H3 Hb].
  destruct (IH b Hb) as [Hw Hl]; [lia|]. cbn [digest_words]. split; [|cbn; by rewrite Hl].
  cbn [mbind list_bind]. rewrite u32_to_from_le by done. cbn [app]. do 4 f_equal. exact Hw.
Qed.

Section guest.
Context `{Reth} {R : Type} `{!ClientInputReader R, !CacheOrder}.

(** [main], up to [commit_digest]; a failure of [execute_from_reader] is a panic. *)
Definition guest_main (input : R) : outcome Empty_set (list N) :=
  header ← unwrap_outcome (execute_from_reader Mainnet input);
  let block_hash := header_hash_slow header in
  Ok (digest_words block_hash).
End guest.

Section spec.
Context `{Reth, !CratesOk, !EvmOk} {R : Type} `{!ClientInputReader R, !CacheOrder, !CacheOrderOk}.

(** C7: What the guest commits to, for blocks that remove no account of the state
    before them.  When the guest ends with a digest, the digest has eight words, whose
    bytes are the hash of a header with the number, the state root and the parent of
    the block it read; the block passes the consensus checks and executes on a node
    with the full state, and the state root is that of the world after its changes.
    Assumed are:
    - that the hash of a header is 32 bytes;
    - a chain with the block, and the full state before it ([block_of_chain]), hashes
      of 32 bytes and no collisions between what the stream yields and the codes and
      storage tries of that state ([honest_stream]);
    - of every report a run on the stream can end with, also a run on accounts the
      stream forged, that it is [streamable]: its accounts differ and its integers
      are in range; an account it removes did not exist before the block (an account
      created in the block, as since EIP-6780); the deletions of slots see the
      siblings they merge with; the state tries on the way, with a part of the
      changes written, are not empty and collide neither with the stream nor with
      the empty trie; and buffers and changes fit arenas of 2^32 nodes.
    As for [execute_from_reader_sound], the restriction on removals is needed
    ([emptied_chunk_diverges]). *)
Theorem guest_commits_valid_block fs (r : R) words :
  (∀ hd : BlockHeader, byte_key 32 (header_hash_slow hd)) →
  (∀ ancestors block r', reads_block r ancestors block r' →
     block_of_chain fs (bk_header block) ancestors) →
  honest_stream fs r →
  (∀ output, guest_output Mainnet r output → streamable (fs_world fs) r (output_state output)) →
  guest_main r = Ok words →
  length words = 8 ∧
  ∃ header ancestors block r' recovered output,
    words ≫= u32_to_le = header_hash_slow header ∧
    reads_block r ancestors block r' ∧ try_into_recovered block = Ok recovered ∧
    validate_pre mainnet recovered = Ok () ∧
    run_program (execute_block mainnet recovered) fs = (Ok (Ok output), fs) ∧
    hd_state_root header = world_root (apply_bundle (fs_world fs) (output_state output)) ∧
    hd_state_root header = hd_state_root (bk_header block) ∧
    hd_number header = hd_number (bk_header block) ∧
    hd_parent_hash header = hd_parent_hash (bk_header block).
Proof.
  intros Hbytes Hchain Hh Hneed Hrun. unfold guest_main in Hrun.
  destruct (execute_from_reader Mainnet r) as [header| | |] eqn:Hexec; try done.
  cbn [unwrap_outcome mbind outcome_bind] in Hrun. injection Hrun as <-.
  destruct (Hbytes header) as [Hu8 Hlen]. destruct (digest_words_bytes 8 _ Hu8 Hlen) as [Hw Hl]. split; [done|].
  destruct (reader_header_valid Mainnet fs r header Hchain Hh Hneed Hexec) as (ancestors & block & r' & recovered & output & Hall).
  by exists header, ancestors, block, r', recovered, output.
Qed.
End spec.
