(* ===== verification/HintsSpec.v ===== *)
(** * What the hints say

    A list of hints as a stream, and the block and headers with which the host's
    hints begin. *)

From S2P Require Import Prelude External Node Hp Mpt Codec Frontier Evm State Client Streaming StreamSpec.
From S2P Require Import Executor Execute ExecuteStream Hints ExecuteSpec ExecuteStreamSpec.

Section stream.
Context `{Evm}.

(** ** Hints as a stream *)

Lemma next_hint_inv {A} (select : hint → option A) hints (a : A) hints' :
  next_hint select hints = (Ok a, hints') → ∃ x, hints = x :: hints' ∧ select x = Some a.
Proof.
  unfold next_hint. destruct hints as [|x hints1]; [done|].
  destruct (select x) as [a'|] eqn:Hs; [|done]. intros [= -> ->]. by exists x.
Qed.

Lemma hint_step_suffix (hints hints' : list hint) : read_step hints hints' → hints' `suffix_of` hints.
Proof.
  intros [r x r' Hr|r x r' Hr|r x r' Hr|r x r' Hr|r x r' Hr];
    apply next_hint_inv in Hr as (y & -> & _); by exists [y].
Qed.

Lemma hints_suffix (hints hints' : list hint) : rtc read_step hints hints' → hints' `suffix_of` hints.
Proof.
  induction 1 as [|x y z Hs _ IH]; [done|]. etrans; [exact IH|]. by apply hint_step_suffix.
Qed.

(** What can be read from a list of hints is in it. *)
Definition raw_hints (hints : list hint) : list bytes :=
  omap (λ x, match x with HintRaw data end_of_data => Some (take end_of_data data) | _ => None end) hints.
Definition witness_hints (hints : list hint) : list ClientWitnessInput :=
  omap (λ x, match x with HintWitness w => Some w | _ => None end) hints.

Lemma read_hint {A} (select : hint → option A) hints hints1 hints2 (a : A) :
  rtc read_step hints hints1 → next_hint select hints1 = (Ok a, hints2) → a ∈ omap select hints.
Proof.
  intros [l ->]%hints_suffix (x & -> & Hs)%next_hint_inv. apply list_elem_of_omap.
  exists x. split; [set_solver|done].
Qed.

Lemma hints_yield (hints : list hint) buf : yields hints buf → buf ∈ raw_hints hints.
Proof. intros (h1 & h2 & Hr & Hread). exact (read_hint _ _ _ _ _ Hr Hread). Qed.

Lemma hints_offer (hints : list hint) w : offers hints w → w ∈ witness_hints hints.
Proof. intros (h1 & h2 & Hr & Hread). exact (read_hint _ _ _ _ _ Hr Hread). Qed.

Lemma raw_hints_check (f : bytes → bool) (hints : list hint) :
  forallb f (raw_hints hints) = true → ∀ buf, yields hints buf → f buf = true.
Proof.
  rewrite forallb_forall. intros Hc buf Hy%hints_yield. apply Hc. by apply list_elem_of_In.
Qed.

Lemma witness_hints_check (f : ClientWitnessInput → bool) (hints : list hint) :
  forallb f (witness_hints hints) = true → ∀ w, offers hints w → f w = true.
Proof.
  rewrite forallb_forall. intros Hc w Hy%hints_offer. apply Hc. by apply list_elem_of_In.
Qed.
End stream.

Section written.
Context `{Reth, !CenoHost}.

(** ** Writing appends *)

#[local] Hint Resolve prefix_app_r : core.

Lemma write_raw_prefix hints buf : hints `prefix_of` write_raw_hint_bytes hints buf.
Proof. by apply prefix_app_r. Qed.

Lemma write_account_prefix accounts hints h hints' :
  write_account_hint accounts hints h = Ok hints' → hints `prefix_of` hints'.
Proof. unfold write_account_hint. destruct (accounts !! h); [|done]. intros [= <-]. by apply prefix_app_r. Qed.

Lemma write_storage_prefix tries hints h hints' :
  write_storage_hint tries hints h = Ok hints' → hints `prefix_of` hints'.
Proof.
  unfold write_storage_hint. destruct (tries !! h) as [[n buf]|]; [|done]. intros [= <-].
  etrans; [|apply write_raw_prefix]. by apply prefix_app_r.
Qed.

Lemma write_all_prefix write accesses hints hints' :
  (∀ hs access hs', write hs access = Ok hs' → hs `prefix_of` hs') →
  write_all write accesses hints = Ok hints' → hints `prefix_of` hints'.
Proof.
  intros Hw. revert hints. induction accesses as [|access accesses IH]; intros hints; [by intros [= <-]|].
  cbn [write_all]. intros (hs & Hone & Hrun)%outcome_bind_inv. etrans; [by eapply Hw|by apply IH].
Qed.

Lemma write_access_prefix accounts tries codes buf hints access hints' :
  write_access accounts tries codes buf hints access = Ok hints' → hints `prefix_of` hints'.
Proof.
  destruct access as [h|h|h| |h n]; cbn [write_access].
  - apply write_account_prefix.
  - apply write_storage_prefix.
  - destruct (codes !! h); [|done]. intros [= <-]. by apply prefix_app_r.
  - intros [= <-]. apply write_raw_prefix.
  - done.
Qed.

Lemma write_post_access_prefix accounts tries hints access hints' :
  write_post_access accounts tries hints access = Ok hints' → hints `prefix_of` hints'.
Proof.
  destruct access; cbn [write_post_access]; try done; [apply write_account_prefix|apply write_storage_prefix].
Qed.

Lemma write_chunks_prefix accounts tries post chunks hints hints' :
  write_chunks accounts tries post chunks hints = Ok hints' → hints `prefix_of` hints'.
Proof.
  revert hints. induction chunks as [|chunk chunks IH]; intros hints; [by intros [= <-]|].
  cbn [write_chunks]. intros (hs & Hone & Hrun)%outcome_bind_inv. etrans; [|by apply IH].
  unfold write_chunk in Hone. apply write_all_prefix in Hone; [|intros ???; apply write_post_access_prefix].
  etrans; [|exact Hone]. etrans; [|apply write_raw_prefix]. by apply prefix_app_r.
Qed.

(** The hints begin with the headers, the block and the header of the state trie. *)
Lemma written_prefix hints0 i hints :
  write_ceno_client_input hints0 i = Ok hints →
  ∃ header rest, hints = hints0 ++ HintAncestorHeaders (ancestor_headers i) ::
    HintCurrentBlock (current_block i) :: HintStateTrieHeader header :: rest.
Proof.
  unfold write_ceno_client_input. intros (iws & _ & Hrun)%outcome_bind_inv.
  apply outcome_bind_inv in Hrun as ([hd order] & _ & Hrun).
  apply outcome_bind_inv in Hrun as ([frontier t1] & _ & Hrun).
  apply outcome_bind_inv in Hrun as ([root t2] & _ & Hrun).
  apply outcome_bind_inv in Hrun as ([ft rest] & _ & Hrun).
  apply outcome_bind_inv in Hrun as ([froot t3] & _ & Hrun).
  case_decide; [done|]. destruct (split_marker order) as [[before after]|]; [|done].
  apply outcome_bind_inv in Hrun as (accounts & _ & Hrun).
  apply outcome_bind_inv in Hrun as (hs & Hall & Hrun).
  apply write_all_prefix in Hall; [|intros ???; apply write_access_prefix].
  apply write_chunks_prefix in Hrun.
  destruct Hall as [l1 ->], Hrun as [l2 ->]. rewrite <-!app_assoc. cbn [app]. by do 2 eexists.
Qed.

(** The guest reads the block of the input. *)
Lemma written_block i hints ancestors block r :
  write_ceno_client_input [] i = Ok hints → reads_block hints ancestors block r →
  ancestors = ancestor_headers i ∧ block = current_block i.
Proof.
  intros (header & rest & ->)%written_prefix (r1 & Hanc & Hblk). cbn in Hanc. injection Hanc as <- <-.
  cbn in Hblk. by injection Hblk as <- _.
Qed.
End written.
