(* ===== verification/HintsFeed.v ===== *)
(** * The guest executes the block on the host's hints

    The host records in which order a run of the block reads accounts, storage tries
    and codes, and writes them in this order.  The guest reads an item at a time, and
    each time the next one is what it asks for: it executes the block to the same
    end, and what it has not read then are the state trie and the chunks. *)

From S2P Require Import Prelude External Node Hp Mpt MptSpec Codec Frontier Reads Evm State Client Streaming ClientSpec StreamSpec.
From S2P Require Import Executor Execute ExecuteStream Hints ExecuteSpec ExecuteStreamSpec HintsSpec RpcSpec.

(** ** Items of the stream *)

Section items.
Context `{Reth, !CratesOk, !CenoHost}.

(** What is written for an access before the state trie. *)
Definition access_hints (accounts : gmap B256 (option TrieAccount)) (tries : gmap B256 (nat * bytes))
    (codes : gmap B256 Bytecode) (access : WitnessAccess) : option (list hint) :=
  match access with
  | AccessAccount h => a ← accounts !! h; Some [HintWitness (WitnessAccount (mkAccountInput h a))]
  | AccessStorageTrie h =>
      '(n, b) ← tries !! h;
      Some (write_raw_hint_bytes [HintWitness (WitnessStorageTrie (mkStorageTrieHeader h n))] b)
  | AccessBytecode h => c ← codes !! h; Some [HintWitness (WitnessBytecode c)]
  | _ => None
  end.

Lemma write_access_hints accounts tries codes buf hints access hints' :
  access ≠ AccessStateTrie →
  write_access accounts tries codes buf hints access = Ok hints' →
  ∃ l, access_hints accounts tries codes access = Some l ∧ hints' = hints ++ l.
Proof.
  intros Hne. destruct access as [h|h|h| |h n]; cbn [write_access access_hints]; [| | |done|done].
  - unfold write_account_hint. destruct (accounts !! h) as [a|]; [|done]. intros [= <-]. by eexists.
  - unfold write_storage_hint. destruct (tries !! h) as [[n b]|]; [|done]. intros [= <-]. eexists. split; [done|].
    unfold write_raw_hint_bytes. by rewrite <-app_assoc.
  - destruct (codes !! h) as [c|]; [|done]. intros [= <-]. by eexists.
Qed.

Lemma write_all_hints accounts tries codes buf accesses hints hints' :
  Forall (λ access, access ≠ AccessStateTrie) accesses →
  write_all (write_access accounts tries codes buf) (accesses ++ [AccessStateTrie]) hints = Ok hints' →
  ∃ ls, mapM (access_hints accounts tries codes) accesses = Some ls ∧
    hints' = write_raw_hint_bytes (hints ++ concat ls) buf.
Proof.
  revert hints. induction accesses as [|access accesses IH]; intros hints Hall; cbn [write_all app].
  { cbn. intros [= <-]. exists []. by rewrite app_nil_r. }
  apply Forall_cons in Hall as [Ha Hall]. intros (hs & Hone & Hrun)%outcome_bind_inv.
  apply write_access_hints in Hone as (l & Hl & ->); [|done].
  destruct (IH _ Hall Hrun) as (ls & Hls & ->). exists (l :: ls). cbn [mapM]. rewrite Hl. cbn. rewrite Hls.
  split; [done|]. cbn [concat]. by rewrite app_assoc.
Qed.

(** The accesses up to the first marker. *)
Lemma split_marker_app order before after :
  split_marker order = Some (before, after) →
  order = before ++ AccessStateTrie :: after ∧ Forall (λ access, access ≠ AccessStateTrie) before.
Proof.
  revert before. induction order as [|access order IH]; intros before; [done|]. cbn [split_marker].
  destruct (is_marker access) eqn:Hm.
  { intros [= <- <-]. by destruct access. }
  destruct (split_marker order) as [[b a]|]; [|done]. cbn. intros [= <- <-].
  destruct (IH _ eq_refl) as [-> Hall]. split; [done|]. constructor; [|done]. by intros ->.
Qed.

(** ** A run on the stream beside the recording run *)

(** The EVM loads an account before it reads the account's storage; [known] are the
    accounts loaded so far. *)
Fixpoint accounts_first {A} (known : list B256) (p : program A) : Prop :=
  match p with
  | Finish _ _ => True
  | AskBasic _ address k => ∀ info, accounts_first (keccak256 address :: known) (k info)
  | AskCode _ _ k => ∀ code, accounts_first known (k code)
  | AskStorage _ address _ k => keccak256 address ∈ known ∧ ∀ value, accounts_first known (k value)
  | AskBlockHash _ _ k => ∀ hash, accounts_first known (k hash)
  end.

Lemma accounts_first_weaken {A} known known' (p : program A) :
  known ⊆ known' → accounts_first known p → accounts_first known' p.
Proof.
  revert known known'. induction p as [a|address k IH|h k IH|address index k IH|number k IH];
    intros known known' Hsub; cbn [accounts_first]; try by eauto.
  - intros Hp info. eapply IH; [|apply Hp]. set_solver.
  - intros [Hin Hp]. split; [set_solver|]. intros value. by eapply IH.
Qed.

Lemma accounts_first_bind {A B} known (p : program A) (f : A → program B) :
  accounts_first known p → (∀ a, accounts_first [] (f a)) → accounts_first known (program_bind p f).
Proof.
  intros Hp Hf. revert known Hp. induction p as [a|address k IH|h k IH|address index k IH|number k IH];
    intros known; cbn [accounts_first program_bind]; try by eauto.
  - intros _. eapply accounts_first_weaken; [apply list_subseteq_nil|done].
  - intros [Hin Hp]. split; [done|]. intros value. by apply IH.
Qed.

Lemma accounts_first_prog_bind {E A B} known (p : prog E A) (f : A → prog E B) :
  accounts_first known p → (∀ a, accounts_first [] (f a)) → accounts_first known (p ≫= f).
Proof. intros Hp Hf. apply accounts_first_bind; [done|]. by intros [a| | |]. Qed.

(** A block does what its parts do. *)
Lemma execute_block_accounts_first spec block :
  (∀ e, accounts_first [] (apply_pre_execution_changes e)) →
  (∀ tx e, accounts_first [] (execute_transaction tx e)) →
  (∀ e, accounts_first [] (apply_post_execution_changes e)) →
  accounts_first [] (execute_block spec block).
Proof.
  intros Hpre Htx Hpost. unfold execute_block. apply accounts_first_prog_bind; [|by intros [? [??]]].
  unfold execute_one. apply accounts_first_prog_bind; [done|]. intros e. cbv zeta.
  apply accounts_first_prog_bind; [apply Hpre|]. intros e'. apply accounts_first_prog_bind.
  - generalize (transactions_recovered block) as txs, (bool_decide (is_Some (block_access_list_hash block))) as b.
    intros txs b. generalize (if b then bump_bal_index e' else e') as e1.
    induction txs as [|tx txs IH]; intros e1; cbn [execute_transactions]; [done|].
    apply accounts_first_prog_bind; [apply Htx|]. intros e2. apply IH.
  - intros e1. apply accounts_first_prog_bind; [apply Hpost|]. by intros [? ?].
Qed.

Context (accounts : gmap B256 (option TrieAccount)) (tries : gmap B256 (nat * bytes)).
Context (codes : gmap B256 Bytecode) (W : EthereumState) (hashes : gmap u64 B256).

Definition root_in (account : option TrieAccount) : B256 :=
  match account with Some a => ta_storage_root a | None => EMPTY_ROOT_HASH end.

(** What the host writes is what the recording run was on. *)
Hypothesis accounts_are :
  ∀ h a, accounts !! h = Some a → get_rlp (T:=TrieAccount) (state_trie W) h = Ok a.
Hypothesis tries_are : ∀ h t, storage_tries W !! h = Some t →
  ∃ n b a mismatch, tries !! h = Some (n, b) ∧ get_rlp (T:=TrieAccount) (state_trie W) h = Ok a ∧
    decode_checked b n (root_in a) mismatch = Ok t.
Hypothesis codes_are : ∀ h c, codes !! h = Some c → bytecode_hash_slow c = h.

(** The recording database after the accesses [order]. *)
Definition recorded (order : list WitnessAccess) (al sl : list B256) (bl : option (list B256)) : WitnessDb :=
  mkWitnessDb W hashes codes (Some al) bl (Some sl) (Some order).

(** The streaming state has read what was recorded. *)
Record linked (al sl : list B256) (todo : list hint) (s : StreamingEthereumState (R:=list hint)) : Prop := {
  linked_input : ss_input s = new_cell todo;
  linked_accounts h :
    match ss_account_cache s !! h with
    | Some a => h ∈ al ∧ get_rlp (T:=TrieAccount) (state_trie W) h = Ok a
    | None => h ∉ al
    end;
  linked_storage h : ss_storage_tries s !! h = if decide (h ∈ sl) then storage_tries W !! h else None;
}.

(** A query that is recorded as the accesses [n] is answered on the stream from what
    was written for them. *)
Definition answered_alike {B} (known known' : list B256) (q : machine WitnessDb ProviderError B)
    (sq : machine (StreamingDb (R:=list hint)) ProviderError B) : Prop :=
  ∀ order al sl bl v wd1, known ⊆ al → q (recorded order al sl bl) = (Ok v, wd1) →
    ∃ n al1 sl1 bl1, wd1 = recorded (order ++ n) al1 sl1 bl1 ∧ al ⊆ al1 ∧ known' ⊆ al1 ∧
      Forall (λ access, access ≠ AccessStateTrie) n ∧
      ∀ ls rest s, mapM (access_hints accounts tries codes) n = Some ls → linked al sl (concat ls ++ rest) s →
        ∃ s1, sq (mkStreamingDb s hashes) = (Ok v, mkStreamingDb s1 hashes) ∧ linked al1 sl1 rest s1.

Lemma read_known al sl todo s h a :
  linked al sl todo s → h ∈ al → get_rlp (T:=TrieAccount) (state_trie W) h = Ok a → read_account h s = (Ok a, s).
Proof.
  intros Hs Hin Hget. unfold read_account. rewrite machine_bind_get. pose proof (linked_accounts _ _ _ _ Hs h) as Ha.
  destruct (ss_account_cache s !! h) as [a'|]; [|done]. destruct Ha as [_ Ha]. rewrite Hget in Ha. by injection Ha as ->.
Qed.

Lemma match_witness {E B} w todo (arms : ClientWitnessInput → machine (StreamingEthereumState (R:=list hint)) E B) b s :
  ss_input s = new_cell (HintWitness w :: todo) → (∀ s', arms w s' = (Ok b, s')) →
  match_input read_witness_input arms s = (Ok b, set_ss_input (new_cell todo) s).
Proof. intros Hin Harms. unfold match_input. rewrite Hin. cbn. by rewrite Harms. Qed.

Lemma read_next al sl todo s h a :
  linked al sl (HintWitness (WitnessAccount (mkAccountInput h a)) :: todo) s → h ∉ al →
  get_rlp (T:=TrieAccount) (state_trie W) h = Ok a →
  ∃ s', read_account h s = (Ok a, s') ∧ linked (al ++ [h]) sl todo s'.
Proof.
  intros [Hin Ha Hst] Hout Hget. pose proof (Ha h) as Hh.
  destruct (ss_account_cache s !! h) as [a'|] eqn:Hc; [by destruct Hh|].
  eexists. split.
  - unfold read_account. rewrite machine_bind_get, Hc. cbn [read_account_loop].
    erewrite machine_bind_ok by (by eapply match_witness).
    rewrite machine_bind_get. cbn [ain_hashed_address ain_account set_ss_input ss_account_cache].
    rewrite decide_False by (rewrite Hc; by intros [? [=]]). rewrite machine_bind_modify, decide_True by done. done.
  - split; [done| |done]. intros h'. cbn. destruct (decide (h = h')) as [<-|Hne].
    + rewrite lookup_insert. rewrite decide_True by done. split; [set_solver|done].
    + rewrite lookup_insert_ne by done. pose proof (Ha h') as Hh'. destruct (ss_account_cache s !! h'); set_solver.
Qed.

(** A raw item is read as it was before it was padded. *)
Lemma read_written_raw b todo s :
  ss_input s = new_cell (write_raw_hint_bytes [] b ++ todo) →
  read_input (E:=ProviderError) read_raw_bytes s = (Ok b, set_ss_input (new_cell todo) s).
Proof.
  intros Hin. unfold read_input, match_input. rewrite Hin. cbn. by rewrite take_app_length.
Qed.

Lemma load_next al sl todo s h n b a t mismatch :
  linked al sl (HintWitness (WitnessStorageTrie (mkStorageTrieHeader h n)) :: write_raw_hint_bytes [] b ++ todo) s →
  h ∈ al → h ∉ sl → get_rlp (T:=TrieAccount) (state_trie W) h = Ok a →
  decode_checked b n (root_in a) mismatch = Ok t → storage_tries W !! h = Some t →
  ∃ s', load_storage_trie h s = (Ok (), s') ∧ linked al (sl ++ [h]) todo s'.
Proof.
  intros Hs Hal Hsl Hget Hdec Ht. pose proof Hs as [Hin Ha Hst].
  unfold decode_checked in Hdec. apply outcome_bind_inv in Hdec as ([t0 rest] & Hbytes%map_err_ok & Hdec).
  destruct (hash t0) as [[actual| | |] t1] eqn:Hhash; try done. case_decide as Heq; [done|]. injection Hdec as ->.
  set (s1 := set_ss_input (new_cell (write_raw_hint_bytes [] b ++ todo)) s).
  assert (linked al sl (write_raw_hint_bytes [] b ++ todo) s1) as Hs1 by by split.
  assert (ss_storage_tries s !! h = None) as Hnone by (rewrite Hst; by rewrite decide_False).
  eexists. split.
  - unfold load_storage_trie. rewrite machine_bind_get, Hnone, decide_False by (by intros [? [=]]).
    erewrite machine_bind_ok by (by eapply match_witness). rewrite decide_False by (cbn; tauto).
    unfold expected_storage_root. rewrite machine_bind_bind.
    rewrite (machine_bind_ok _ _ _ _ _ (read_known al sl _ s1 h a Hs1 Hal Hget)). rewrite machine_bind_ret.
    erewrite machine_bind_ok by (by apply read_written_raw).
    cbn [sgh_num_nodes]. rewrite Hbytes. cbn [map_err]. rewrite machine_bind_lift_ok, Hhash.
    rewrite decide_False by (intros Hne; by apply Hne, Heq). done.
  - split; [done|exact Ha|]. intros h'. cbn. destruct (decide (h = h')) as [<-|Hne].
    + rewrite lookup_insert, !decide_True by (done || set_solver). done.
    + rewrite lookup_insert_ne, Hst by done. by destruct (decide (h' ∈ sl)), (decide (h' ∈ sl ++ [h])); set_solver.
Qed.
(** *** The queries *)

Lemma basic_alike address : answered_alike [] [keccak256 address] (witness_basic_ref address) (streaming_basic_ref address).
Proof.
  intros order al sl bl v wd1 _ Hrun. unfold witness_basic_ref in Hrun. rewrite machine_bind_modify in Hrun.
  set (h := keccak256 address) in *.
  assert (∃ n al1, record_account h (recorded order al sl bl) = recorded (order ++ n) al1 sl bl ∧
    (n = [] ∧ al1 = al ∧ h ∈ al ∨ n = [AccessAccount h] ∧ al1 = al ++ [h] ∧ h ∉ al)) as (n & al1 & Hrec & Hn).
  { unfold record_account. cbn. case_decide; [exists [], al; split; [by rewrite app_nil_r|tauto]|].
    exists [AccessAccount h], (al ++ [h]). split; [done|tauto]. }
  rewrite Hrec, machine_bind_get in Hrun. apply machine_bind_inv in Hrun as (a & wd2 & Hget & Hrun).
  injection Hget as Hget <-. injection Hrun as <- <-.
  assert (get_rlp (T:=TrieAccount) (state_trie W) h = Ok a) as Ha by by apply unwrap_outcome_ok in Hget.
  exists n, al1, sl, bl. split; [done|]. unfold streaming_basic_ref, on_streaming. fold h.
  destruct Hn as [(-> & -> & Hin)|(-> & -> & Hout)].
  - split_and!; [done|set_solver|constructor|]. intros ls rest s [= <-] Hs. exists s. split; [|done].
    unfold mbind, machine_bind. cbn [sd_state sd_block_hashes]. by rewrite (read_known _ _ _ _ _ _ Hs Hin Ha).
  - split_and!; [set_solver|set_solver|by repeat constructor|]. intros ls rest s Hls Hs. cbn in Hls.
    destruct (accounts !! h) as [a'|] eqn:Hacc; [|done]. cbn in Hls. injection Hls as <-.
    pose proof (accounts_are _ _ Hacc) as Ha'. rewrite Ha in Ha'. injection Ha' as <-.
    destruct (read_next al sl rest s h a Hs Hout Ha) as (s1 & Hread & Hs1). exists s1. split; [|done].
    unfold mbind, machine_bind. cbn [sd_state sd_block_hashes]. by rewrite Hread.
Qed.

Lemma code_alike h : answered_alike [] [] (witness_code_by_hash_ref h) (streaming_code_by_hash_ref h).
Proof.
  intros order al sl bl v wd1 _ Hrun. unfold witness_code_by_hash_ref in Hrun.
  rewrite machine_bind_modify, machine_bind_get in Hrun. cbn in Hrun. injection Hrun as Hv <-.
  exists [AccessBytecode h], al, sl, ((λ l, l ++ [h]) <$> bl). split; [by destruct bl|].
  split_and!; [done|set_solver|by repeat constructor|]. intros ls rest s Hls Hs. cbn in Hls.
  assert (codes !! h = Some v) as Hc.
  { destruct bl; cbn in Hv; by destruct (codes !! h); [injection Hv as ->|]. }
  rewrite Hc in Hls. cbn in Hls. injection Hls as <-.
  exists (set_ss_input (new_cell rest) s). split; [|by destruct Hs].
  unfold streaming_code_by_hash_ref, on_streaming. cbn [sd_state sd_block_hashes]. unfold read_bytecode.
  erewrite machine_bind_ok by (eapply match_witness; [apply (linked_input _ _ _ _ Hs)|done]).
  rewrite decide_False by (intros Hne; by apply Hne, codes_are). done.
Qed.

Lemma block_hash_alike number : answered_alike [] [] (witness_block_hash_ref number) (streaming_block_hash_ref number).
Proof.
  intros order al sl bl v wd1 _ Hrun. unfold witness_block_hash_ref in Hrun. rewrite machine_bind_get in Hrun.
  injection Hrun as Hv <-. exists [], al, sl, bl. split; [by rewrite app_nil_r|].
  split_and!; [done|set_solver|constructor|]. intros ls rest s [= <-] Hs. exists s. split; [|done].
  unfold streaming_block_hash_ref. rewrite machine_bind_get. cbn. by rewrite Hv.
Qed.

Lemma storage_alike address index :
  answered_alike [keccak256 address] [] (witness_storage_ref address index) (streaming_storage_ref address index).
Proof.
  intros order al sl bl v wd1 Hknown Hrun. unfold witness_storage_ref in Hrun. rewrite machine_bind_modify in Hrun.
  set (h := keccak256 address) in *. assert (h ∈ al) as Hal by set_solver.
  assert (record_account h (recorded order al sl bl) = recorded order al sl bl) as Hrec.
  { unfold record_account. cbn. by rewrite decide_True. }
  rewrite Hrec, machine_bind_modify in Hrun. clear Hrec.
  assert (∃ n sl1, record_storage h (recorded order al sl bl) = recorded (order ++ n) al sl1 bl ∧
    (n = [] ∧ sl1 = sl ∧ h ∈ sl ∨ n = [AccessStorageTrie h] ∧ sl1 = sl ++ [h] ∧ h ∉ sl)) as (n & sl1 & Hrec & Hn).
  { unfold record_storage. cbn. case_decide; [exists [], sl; split; [by rewrite app_nil_r|tauto]|].
    exists [AccessStorageTrie h], (sl ++ [h]). split; [done|tauto]. }
  rewrite Hrec, machine_bind_get in Hrun. apply machine_bind_inv in Hrun as (t & wd2 & Ht & Hrun).
  injection Ht as Ht <-. cbn in Ht. destruct (storage_tries W !! h) as [t'|] eqn:Hst; [|done]. injection Ht as ->.
  apply machine_bind_inv in Hrun as (x & wd2 & Hx & Hrun). injection Hx as Hx <-. injection Hrun as <- <-.
  assert (∀ rest s s1, h ∈ sl1 → load_storage_trie h s = (Ok (), s1) → linked al sl1 rest s1 →
    streaming_storage_ref address index (mkStreamingDb s hashes) = (Ok (default 0%N x), mkStreamingDb s1 hashes)) as Hdone.
  { intros rest s s1 Hin Hload Hs1. unfold streaming_storage_ref. fold h.
    rewrite (machine_bind_ok _ _ _ () (mkStreamingDb s1 hashes))
      by (unfold on_streaming; cbn [sd_state sd_block_hashes]; by rewrite Hload).
    rewrite machine_bind_get. cbn [sd_state]. rewrite (linked_storage _ _ _ _ Hs1 h), decide_True, Hst by done.
    cbn [unwrap]. rewrite machine_bind_lift_ok. unfold mbind, machine_bind, lift. by rewrite Hx. }
  exists n, al, sl1, bl. split; [done|]. destruct Hn as [(-> & -> & Hin)|(-> & -> & Hout)].
  - split_and!; [done|set_solver|constructor|]. intros ls rest s [= <-] Hs. exists s. split; [|done].
    apply (Hdone rest); [done| |done]. unfold load_storage_trie. rewrite machine_bind_get, decide_True; [done|].
    rewrite (linked_storage _ _ _ _ Hs h), decide_True by done. by rewrite Hst.
  - split_and!; [done|set_solver|by repeat constructor|]. intros ls rest s Hls Hs. cbn in Hls.
    destruct (tries_are h t Hst) as (k & b & a & mismatch & Htr & Hget & Hdec). rewrite Htr in Hls.
    cbn in Hls. injection Hls as <-. cbn [concat] in Hs. rewrite app_nil_r in Hs.
    destruct (load_next al sl rest s h k b a t mismatch Hs Hal Hout Hget Hdec Hst) as (s1 & Hload & Hs1).
    exists s1. split; [|done]. apply (Hdone rest); [set_solver|done|done].
Qed.

(** *** A run *)

(** The run of [p] records some accesses, and runs alike on what was written for
    them. *)
Definition runs_alike {A} (p : program A) (order : list WitnessAccess) (al sl : list B256)
    (bl : option (list B256)) (o : A) (wd1 : WitnessDb) : Prop :=
  ∃ n al1 sl1 bl1, wd1 = recorded (order ++ n) al1 sl1 bl1 ∧ Forall (λ access, access ≠ AccessStateTrie) n ∧
    ∀ ls rest s, mapM (access_hints accounts tries codes) n = Some ls → linked al sl (concat ls ++ rest) s →
      ∃ s1, run_program p (mkStreamingDb s hashes) = (Ok o, mkStreamingDb s1 hashes) ∧ linked al1 sl1 rest s1.

Lemma ask_alike {A B} (p : program A) known asked known' (q : machine WitnessDb ProviderError B) sq
    (k : B → program A) order al sl bl o wd1 :
  answered_alike asked known' q sq →
  run_program p (recorded order al sl bl) = (v ← q; run_program (k v)) (recorded order al sl bl) →
  (∀ sd, run_program p sd = (v ← sq; run_program (k v)) sd) →
  asked ⊆ al → known ⊆ al →
  (∀ v order al sl bl, known' ++ known ⊆ al → run_program (k v) (recorded order al sl bl) = (Ok o, wd1) →
     runs_alike (k v) order al sl bl o wd1) →
  run_program p (recorded order al sl bl) = (Ok o, wd1) → runs_alike p order al sl bl o wd1.
Proof.
  intros Hq -> Hsq Hasked Hknown Hk (v & wd2 & Hrun & Hrest)%machine_bind_inv.
  destruct (Hq order al sl bl v wd2 Hasked Hrun) as (n & al1 & sl1 & bl1 & -> & Hsub & Hnew & Hno & Hfeed).
  destruct (Hk v _ al1 sl1 bl1 ltac:(set_solver) Hrest) as (n' & al2 & sl2 & bl2 & -> & Hno' & Hfeed').
  exists (n ++ n'), al2, sl2, bl2. split; [by rewrite app_assoc|]. split; [by apply Forall_app|].
  intros ls rest s Hls%mapM_Some Hs. apply Forall2_app_inv_l in Hls as (ls1 & ls2 & Hl1%mapM_Some & Hl2%mapM_Some & ->).
  rewrite concat_app, <-app_assoc in Hs. destruct (Hfeed ls1 _ s Hl1 Hs) as (s1 & Hr1 & Hs1).
  destruct (Hfeed' ls2 rest s1 Hl2 Hs1) as (s2 & Hr2 & Hs2). exists s2. split; [|done].
  by rewrite Hsq, (machine_bind_ok _ _ _ _ _ Hr1).
Qed.

Lemma program_alike {A} (p : program A) known order al sl bl (o : A) wd1 :
  accounts_first known p → known ⊆ al → run_program p (recorded order al sl bl) = (Ok o, wd1) →
  runs_alike p order al sl bl o wd1.
Proof.
  revert known order al sl bl.
  induction p as [a|address k IH|h k IH|address index k IH|number k IH]; intros known order al sl bl Hp Hknown Hrun.
  - injection Hrun as -> <-. exists [], al, sl, bl. split; [by rewrite app_nil_r|]. split; [constructor|].
    intros ls rest s [= <-] Hs. by exists s.
  - eapply (ask_alike _ known); [apply basic_alike|done|done|apply list_subseteq_nil|done| |exact Hrun].
    intros v order' al' sl' bl' Hsub Hr. eapply IH; [apply Hp|exact Hsub|exact Hr].
  - eapply (ask_alike _ known); [apply code_alike|done|done|apply list_subseteq_nil|done| |exact Hrun].
    intros v order' al' sl' bl' Hsub Hr. eapply IH; [apply Hp|exact Hsub|exact Hr].
  - destruct Hp as [Hin Hp]. eapply (ask_alike _ known); [apply storage_alike|done|done|set_solver|done| |exact Hrun].
    intros v order' al' sl' bl' Hsub Hr. eapply IH; [apply Hp|exact Hsub|exact Hr].
  - eapply (ask_alike _ known); [apply block_hash_alike|done|done|apply list_subseteq_nil|done| |exact Hrun].
    intros v order' al' sl' bl' Hsub Hr. eapply IH; [apply Hp|exact Hsub|exact Hr].
Qed.
End items.

(** ** What the host writes *)

Section written.
Context `{Reth, !CratesOk, !CenoHost}.

Lemma collect_accounts_are state_trie hs accounts accounts' :
  collect_accounts state_trie hs accounts = Ok accounts' →
  (∀ h a, accounts !! h = Some a → get_rlp (T:=TrieAccount) state_trie h = Ok a) →
  ∀ h a, accounts' !! h = Some a → get_rlp (T:=TrieAccount) state_trie h = Ok a.
Proof.
  revert accounts. induction hs as [|h hs IH]; intros accounts; cbn [collect_accounts]; [by intros [= <-]|].
  intros (a & Hget%map_err_ok & Hrun)%outcome_bind_inv Hall. apply (IH _ Hrun).
  intros h' a' [[<- <-]|[_ Hl]]%lookup_insert_Some; [done|by apply Hall].
Qed.

(** The storage tries of the client are those the host writes. *)
Definition tries_written (state_trie : Mpt) (storage_tries : gmap B256 Mpt) (written : gmap B256 (nat * bytes)) : Prop :=
  ∀ h t, storage_tries !! h = Some t →
    ∃ n b a mismatch, written !! h = Some (n, b) ∧ get_rlp (T:=TrieAccount) state_trie h = Ok a ∧
      decode_checked b n (root_in a) mismatch = Ok t.

Lemma build_tries_written state_trie entries storage_tries storage_tries' written :
  build_storage_tries state_trie entries storage_tries = Ok storage_tries' →
  tries_written state_trie storage_tries written →
  tries_written state_trie storage_tries' (foldl (λ m e, <[e.1.1 := (e.1.2, e.2)]> m) written entries).
Proof.
  revert storage_tries written. induction entries as [|[[h n] b] entries IH]; intros storage_tries written;
    cbn [build_storage_tries foldl]; [by intros [= <-]|].
  intros (a & Hget%map_err_ok & Hrun)%outcome_bind_inv Hall. apply outcome_bind_inv in Hrun as (t & Hdec & Hrun).
  apply (IH _ _ Hrun). intros h' t'. cbn. intros [[<- <-]|[Hne Hl]]%lookup_insert_Some.
  - exists n, b, a. eexists. split; [by rewrite lookup_insert, decide_True|]. split; [done|exact Hdec].
  - rewrite lookup_insert_ne by done. by apply Hall.
Qed.

(** Recording the changed accounts only appends. *)
Definition appends {A} (f : machine WitnessDb ClientExecutionError A) : Prop := ∀ db order a db',
  witness_order db = Some order → f db = (Ok a, db') → ∃ l, witness_order db' = Some (order ++ l).

Lemma appends_bind {A B} (f : machine WitnessDb ClientExecutionError A) (g : A → machine WitnessDb ClientExecutionError B) :
  appends f → (∀ a, appends (g a)) → appends (mbind g f).
Proof.
  intros Hf Hg db order b db' Ho (a & db1 & Hrun1 & Hrun2)%machine_bind_inv. destruct (Hf _ _ _ _ Ho Hrun1) as [l1 Ho1].
  destruct (Hg a _ _ _ _ Ho1 Hrun2) as [l2 Ho2]. exists (l1 ++ l2). by rewrite app_assoc.
Qed.

Lemma appends_same {A} (f : machine WitnessDb ClientExecutionError A) :
  (∀ db a db', f db = (Ok a, db') → witness_order db' = witness_order db) → appends f.
Proof. intros Hf db order a db' Ho Hrun. exists []. by rewrite (Hf _ _ _ Hrun), app_nil_r. Qed.

Lemma appends_ret {A} (a : A) : appends (mret a).
Proof. apply appends_same. by intros db a' db' [= _ <-]. Qed.

Lemma appends_push access f :
  (∀ db, witness_order (f db) = witness_order db) → appends (modify (λ db, push_witness access (f db))).
Proof. intros Hf db order a db' Ho [= _ <-]. exists [access]. unfold push_witness. by rewrite Hf, Ho. Qed.

Lemma appends_storage_hash h t : appends (storage_trie_hash h t).
Proof.
  apply appends_same. intros db a db'. unfold storage_trie_hash. destruct (hash t) as [[| | |] t']; try done.
  by intros [= _ <-].
Qed.

Lemma appends_record_modified entry : appends (record_modified entry).
Proof.
  destruct entry as [address account]. unfold record_modified. apply appends_bind; [by apply (appends_push _ id)|intros _].
  apply appends_bind; [by apply appends_same; intros db a db' [= _ <-]|]. intros db.
  destruct (_ && _ && _); [|apply appends_ret]. destruct (storage_tries _ !! _) as [t|]; [|apply appends_ret].
  apply appends_bind; [apply appends_storage_hash|]. intros root. case_decide; [apply appends_ret|].
  apply appends_bind; [|intros _; by apply appends_push]. intros db1 order a db' Ho [= _ <-].
  destruct (in_order _ _); [exists []; by rewrite app_nil_r|]. eexists [_]. unfold push_witness. cbn. by rewrite Ho.
Qed.

Lemma appends_for_each {A} (f : A → machine WitnessDb ClientExecutionError unit) l :
  (∀ x, appends (f x)) → appends (for_each f l).
Proof. intros Hf. induction l as [|x l IH]; cbn [for_each]; [apply appends_ret|by apply appends_bind]. Qed.

Lemma record_bundle_order bundle db order db' :
  witness_order db = Some order → record_bundle bundle db = (Ok (), db') →
  ∃ l, witness_order db' = Some (order ++ AccessStateTrie :: l).
Proof.
  intros Ho. unfold record_bundle. rewrite machine_bind_get, Ho, machine_bind_modify. intros Hrun.
  destruct (appends_for_each record_modified bundle appends_record_modified
    (push_witness AccessStateTrie db) (order ++ [AccessStateTrie]) () db') as [l Hl]; [|done|].
  - unfold push_witness. by rewrite Ho.
  - exists l. by rewrite Hl, <-app_assoc.
Qed.

Lemma split_marker_first before after :
  Forall (λ access, access ≠ AccessStateTrie) before → split_marker (before ++ AccessStateTrie :: after) = Some (before, after).
Proof.
  induction 1 as [|access before Ha _ IH]; [done|]. cbn [split_marker app].
  destruct access; try done; cbn [is_marker]; by rewrite IH.
Qed.

(** What went into the hints. *)
Lemma written_inv i hints :
  write_ceno_client_input [] i = Ok hints →
  ∃ iws header order before after accounts th frontier rest,
    build i = Ok iws ∧ execute_recording_witness_order Mainnet i = Ok (header, order) ∧
    split_marker order = Some (before, after) ∧
    (∀ h a, accounts !! h = Some a → get_rlp (T:=TrieAccount) (state_trie (state iws)) h = Ok a) ∧
    ∃ ls, mapM (access_hints accounts
        (foldl (λ m e, <[e.1.1 := (e.1.2, e.2)]> m) ∅ (sb_storage_tries (parent_state_bytes i)))
        (collect_bytecodes (bytecodes i))) before = Some ls ∧
      hints = HintAncestorHeaders (ancestor_headers i) :: HintCurrentBlock (current_block i) ::
        HintStateTrieHeader th :: concat ls ++ write_raw_hint_bytes [] (mf_bytes frontier) ++ rest.
Proof.
  unfold write_ceno_client_input. intros (iws & Hb%map_err_ok & Hrun)%outcome_bind_inv.
  apply outcome_bind_inv in Hrun as ([hd order] & Hexec%map_err_ok & Hrun).
  apply outcome_bind_inv in Hrun as ([frontier t1] & Hfr & Hrun).
  apply outcome_bind_inv in Hrun as ([root t2] & Hroot & Hrun).
  apply outcome_bind_inv in Hrun as ([ft ftrest] & _ & Hrun).
  apply outcome_bind_inv in Hrun as ([froot t3] & _ & Hrun).
  case_decide; [done|]. destruct (split_marker order) as [[before after]|] eqn:Hsplit; [|done].
  apply outcome_bind_inv in Hrun as (accounts & Hacc & Hrun).
  apply outcome_bind_inv in Hrun as (hs & Hall & Hrun).
  apply write_chunks_prefix in Hrun as [rest ->].
  destruct (split_marker_app _ _ _ Hsplit) as [_ Hno].
  apply write_all_hints in Hall as (ls & Hls & ->); [|done].
  assert (∀ A (f : machine Mpt Error A) a t t', reads f → call_mpt f t = Ok (a, t') → same_nodes t t') as Hcall.
  { intros A f a t t' Hf. unfold call_mpt. destruct (f t) as [[| | |] t''] eqn:Hrun; try done. intros [= _ <-].
    by eapply reads_run. }
  pose proof (Hcall _ _ _ _ _ (reads_build_frontier _ _) Hfr) as Hs1. pose proof (Hcall _ _ _ _ _ reads_hash Hroot) as Hs2.
  exists iws, hd, order, before, after, accounts. do 3 eexists. split_and!; [done|done|done| |].
  - intros h a Hl. rewrite <-(same_nodes_get_rlp _ _ h (same_nodes_trans _ _ _ Hs1 Hs2)).
    eapply collect_accounts_are; [exact Hacc|by intros ?? [=]|done].
  - exists ls. split; [done|]. unfold write_raw_hint_bytes. cbn [app]. rewrite <-app_assoc. done.
Qed.
End written.

Section feed.
Context `{Reth, !CratesOk, !CenoHost, !CacheOrder}.

(** What the run of the block that the host records reports. *)
Definition client_reports (i : ClientExecutorInput) (output : BlockExecutionOutput) : Prop :=
  ∃ iws wd recovered wd', build i = Ok iws ∧ witness_db_recording iws true = Ok wd ∧
    try_into_recovered (current_block i) = Ok recovered ∧
    run_program (execute_block mainnet recovered) wd = (Ok (Ok output), wd').

(** C3: The hints feed the guest.  When the host writes hints for an input, of
    whatever origin, and the EVM reads no storage of an account it has not loaded,
    the guest on these hints executes the block: every item it reads is the one it
    asks for, no query fails or panics, and the report is that of the run the host
    recorded.  What is left then are the state trie and the chunks, and the guest
    returns the header that the client returns, if the update on them succeeds with
    the state root of the block. *)
Theorem hints_feed_execution i hints :
  write_ceno_client_input [] i = Ok hints →
  (∀ recovered, try_into_recovered (current_block i) = Ok recovered →
     accounts_first [] (execute_block mainnet recovered)) →
  ∃ header order output s frontier rest,
    execute_recording_witness_order Mainnet i = Ok (header, order) ∧ client_reports i output ∧
    ss_input s = new_cell (write_raw_hint_bytes [] (mf_bytes frontier) ++ rest) ∧
    execute_from_reader Mainnet hints =
      (actual ← streaming_updated_root (output_state output) s;
       if decide (actual ≠ hd_state_root (bk_header (current_block i))) then
         Err (StateRootMismatch actual (hd_state_root (bk_header (current_block i))))
       else Ok header).
Proof.
  intros (iws & header & order & before & after & accounts & th & frontier & rest & Hb & Hexec & Hsplit & Hacc &
    ls & Hls & ->)%written_inv Hfirst.
  pose proof Hexec as Hrun. unfold execute_recording_witness_order in Hrun. rewrite Hb in Hrun.
  cbn [mbind outcome_bind] in Hrun. apply outcome_bind_inv in Hrun as ([hd db] & Hrun & Hret). injection Hret as <- <-.
  apply execute_with_state_inv in Hrun as (db0 & recovered & output & db1 & db2 & parent & Hdb & Hrec & Hpre & Hblock &
    Hpost & Hbundle & _ & Hp & -> & ->).
  pose proof (build_input _ _ Hb) as Hi. pose proof Hdb as Hdb'. unfold witness_db_recording, from_parts_recording, from_parts in Hdb'.
  rewrite Hi in *.
  apply outcome_bind_inv in Hdb' as (dbp & (hashes & Hhashes & [= <-])%outcome_bind_inv & [= <-]).
  set (codes := collect_bytecodes (bytecodes i)) in *. set (W := state iws) in *.
  assert (tries_written (state_trie W) (storage_tries W)
    (foldl (λ m e, <[e.1.1 := (e.1.2, e.2)]> m) ∅ (sb_storage_tries (parent_state_bytes i)))) as Htries.
  { pose proof Hb as Hb'. unfold build in Hb'. destruct (sb_state_trie (parent_state_bytes i)) as [nn sb].
    apply outcome_bind_inv in Hb' as (hd & _ & Hb'). apply outcome_bind_inv in Hb' as (st & _ & Hb').
    apply outcome_bind_inv in Hb' as (sts & Hsts & Hb'). injection Hb' as <-.
    apply (build_tries_written _ _ _ _ _ Hsts). by intros ?? [=]. }
  destruct (program_alike accounts _ codes W hashes Hacc Htries
    (λ h c Hl, proj2 (collect_bytecodes_lookup _ _ _ Hl)) (execute_block mainnet recovered) [] [] [] [] (Some [])
    (Ok output) db1) as (n & al & sl & bl & -> & Hno & Hfeed); [by apply Hfirst|done|done|].
  destruct (record_bundle_order _ (recorded codes W hashes n al sl bl) n _ eq_refl Hbundle) as [l Ho].
  rewrite Ho in Hsplit. cbn [default id app] in Hsplit. rewrite split_marker_first in Hsplit by done.
  injection Hsplit as <- <-.
  set (s0 := mkStreamingEthereumState th (hd_state_root parent) None ∅ ∅
    (new_cell (concat ls ++ write_raw_hint_bytes [] (mf_bytes frontier) ++ rest))).
  destruct (Hfeed ls (write_raw_hint_bytes [] (mf_bytes frontier) ++ rest) s0 Hls) as (s & Hguest & Hs).
  { split; [done| |done]. intros h. cbn. apply not_elem_of_nil. }
  exists (derive_header (current_block i) parent (output_receipts output)), (n ++ AccessStateTrie :: l), output, s, frontier, rest.
  split_and!.
  - by rewrite Hexec, Ho.
  - exists iws, (recorded codes W hashes [] [] [] (Some [])), recovered. by eexists.
  - apply (linked_input _ _ _ _ _ Hs).
  - unfold execute_from_reader, read_from. cbn [read_ancestor_headers read_current_block hint_reader next_hint mbind outcome_bind].
    rewrite Hrec. cbn [map_err mbind outcome_bind]. rewrite Hpre. cbn [mbind outcome_bind].
    unfold build_streaming_state_from_input_reader. cbn [read_state_trie_header hint_reader next_hint].
    rewrite (index_ok _ _ _ Hp). cbn [mbind outcome_bind]. fold s0.
    unfold from_streaming_parts. rewrite Hhashes. cbn [mbind outcome_bind].
    unfold run_block. change (chain_spec Mainnet) with mainnet in *. rewrite Hguest. cbn [map_err mbind outcome_bind]. rewrite Hpost. done.
Qed.
End feed.
