(* ===== verification/HostSpec.v ===== *)
(** * The client accepts the host's input

    From an honest provider [host_execute] makes an input with which the client
    comes to the same end as the host: its database answers every query of the
    block, the update succeeds, and the state root is the block's. *)

From stdpp Require Import sorting.
From S2P Require Import Prelude External Node Hp Mpt Trie TrieLaws TrieHash MptRefine MptHash MptSpec.
From S2P Require Import TrieMap View Stateless Codec CodecLaws TrieBounds Decode Owned Growth Expand.
From S2P Require Import ProofNodes Evm State StateSpec Client ClientSpec FromProof ResolveSpec ProofStore.
From S2P Require Import FromProofSpec TransitionSpec Loose OrphanSpec WitnessUpdate Handover.
From S2P Require Import Executor Execute ExecuteSpec Rpc RpcSpec Replay HostProofs.

Section host.
Context `{Provider, !EvmOk, !CratesOk}.

(** ** The client's database *)

(** The client's state has the accounts and slots that were recorded. *)
Record state_serves (W : World) (db : RpcDb) (s : EthereumState) : Prop := {
  serves_account address : is_Some (rd_accounts db !! address) →
    get (state_trie s) (keccak256 address) = Ok (account_trie W !! keccak256 address);
  serves_slot address index : is_Some (recorded_slot db address index) →
    ∃ t, storage_tries s !! keccak256 address = Some t ∧
      get t (keccak256 (u256_to_be_bytes index)) =
        Ok (slot_trie (slots W (keccak256 address)) !! keccak256 (u256_to_be_bytes index));
}.

(** No account is empty: EIP-161 has removed them. *)
Definition no_empty_accounts (W : World) : Prop :=
  ∀ h a, accounts W !! h = Some a → ¬ (ta_balance a = 0%N ∧ ta_nonce a = 0%N ∧ ta_code_hash a = KECCAK_EMPTY).

Lemma recorded_account_answer W W' chain n db address i :
  honest_provider W W' chain n → no_empty_accounts W → rd_block db = u64_pred n → faithful db →
  rd_accounts db !! address = Some i →
  to_account_info <$> accounts W !! keccak256 address = codeless <$> account_answer i.
Proof.
  intros Hp Hempty Hblock Hf Hi. apply (faithful_account _ Hf) in Hi as (proof & code & Hproof & Hcode & ->).
  rewrite Hblock in Hproof, Hcode.
  destruct (provider_before _ _ _ _ Hp address []) as (r & Hr & Hans). rewrite Hr in Hproof. injection Hproof as <-.
  destruct (provider_code _ _ _ _ Hp address) as (c & Hc & Hhash). rewrite Hc in Hcode. injection Hcode as <-.
  pose proof (answers_fields _ _ _ _ Hans) as Hfields. unfold account_answer, is_default_account, code_hash_in in *.
  cbn [ai_balance ai_nonce ai_code_hash]. destruct (accounts W !! keccak256 address) as [a|] eqn:Ha.
  - destruct Hfields as (-> & -> & _). rewrite Hhash. rewrite decide_False by (by apply (Hempty (keccak256 address))). done.
  - destruct Hfields as (-> & -> & _). rewrite Hhash. by rewrite decide_True.
Qed.

Lemma get_rlp_slot_there t W h k :
  world_ok W → get t k = Ok (slot_trie (slots W h) !! k) → get_rlp (T:=U256) t k = Ok (slots W h !! k).
Proof.
  intros HW Hg. unfold get_rlp. rewrite Hg. cbn [mbind outcome_bind]. unfold slot_trie. rewrite lookup_fmap.
  destruct (slots W h !! k) as [v|] eqn:Hv; cbn; [|done]. rewrite u256_roundtrip by (by eapply slot_value). done.
Qed.

(** The database [witness_db] sets up answers what was recorded. *)
Lemma witness_answers W W' chain n db s hashes :
  honest_provider W W' chain n → world_ok W → no_empty_accounts W → rd_block db = u64_pred n → faithful db →
  state_serves W db s → (∀ i h, recorded_hash db i = Some h → hashes !! i = Some h) →
  client_answers db (new_witness_db s hashes (collect_bytecodes (get_bytecodes db))).
Proof.
  intros Hp HW Hempty Hblock Hf Hs Hh. split.
  - intros address i Hi. unfold witness_basic_ref. rewrite machine_bind_modify, machine_bind_get. cbn [record_account account_lookup_order new_witness_db wd_state].
    rewrite (get_rlp_there _ W); [|done|apply (serves_account _ _ _ Hs); by rewrite Hi].
    cbn [unwrap_outcome]. rewrite machine_bind_lift_ok.
    by rewrite <-(recorded_account_answer W W' chain n db address i).
  - intros address index v Hv. unfold witness_storage_ref. rewrite !machine_bind_modify, machine_bind_get.
    cbn [record_account account_lookup_order record_storage storage_lookup_order new_witness_db wd_state].
    destruct (serves_slot _ _ _ Hs address index) as (t & -> & Hg); [by rewrite Hv|]. cbn [unwrap].
    rewrite machine_bind_lift_ok, (get_rlp_slot_there _ W _ _ HW Hg). cbn [unwrap_outcome].
    rewrite machine_bind_lift_ok. apply (faithful_slot _ Hf) in Hv. rewrite Hblock, (provider_storage _ _ _ _ Hp) in Hv.
    by injection Hv as <-.
  - intros h code Hc%get_bytecodes_lookup. unfold witness_code_by_hash_ref.
    rewrite machine_bind_modify, machine_bind_get.
    cbn [record_bytecode bytecode_lookup_order push_witness witness_order new_witness_db bytecode_by_hash]. by rewrite Hc.
  - intros i h Hi%Hh. unfold witness_block_hash_ref. rewrite machine_bind_get. cbn [new_witness_db block_hashes]. by rewrite Hi.
Qed.

(** ** Headers *)

Lemma heights_down_S oldest k :
  reverse ((λ i, (oldest + N.of_nat i)%N) <$> seq 0 (S k)) =
  (oldest + N.of_nat k)%N :: reverse ((λ i, (oldest + N.of_nat i)%N) <$> seq 0 k).
Proof. by rewrite seq_S, fmap_app, reverse_app. Qed.

Lemma u64_pred_pos n : n ≠ 0%N → is_u64 n → u64_pred n = (n - 1)%N.
Proof.
  unfold u64_pred, is_u64. intros Hn Hu. replace (n + 2 ^ 64 - 1)%N with (n - 1 + 1 * 2 ^ 64)%N by lia.
  rewrite N.Div0.mod_add, N.mod_small; lia.
Qed.

Lemma fetch_headers_spec W W' chain n oldest k child :
  honest_provider W W' chain n → chain_ok chain → (oldest + N.of_nat k ≤ n)%N → chain (oldest + N.of_nat k)%N = Some child →
  ∃ hs, fetch_headers (reverse ((λ i, (oldest + N.of_nat i)%N) <$> seq 0 k)) = Ok hs ∧
    linked (child :: hs) ∧ length hs = k ∧ (∀ a, head hs = Some a → chain (oldest + N.of_nat k - 1)%N = Some a) ∧
    (∀ i, (oldest ≤ i < oldest + N.of_nat k)%N → ∃ a, a ∈ hs ∧ chain i = Some a).
Proof.
  intros Hp Hc. revert child. induction k as [|k IH]; intros child Hk Hchild.
  { exists []. split_and!; [done|done|done|done|]. intros i Hi. lia. }
  rewrite heights_down_S. cbn [fetch_headers].
  destruct (provider_block _ _ _ _ Hp (oldest + N.of_nat k)) as (block & -> & Hb & _); [lia|].
  cbn [map_err mbind outcome_bind unwrap].
  destruct (IH (rpc_block_header block) ltac:(lia) Hb) as (hs & -> & Hl & Hlen & _ & Hall). cbn [mbind outcome_bind].
  eexists. split; [done|].
  destruct (chain_parent _ Hc _ _ Hchild ltac:(lia)) as (parent & Hparent & Hhash).
  replace (oldest + N.of_nat (S k) - 1)%N with (oldest + N.of_nat k)%N in * by lia.
  rewrite Hb in Hparent. injection Hparent as <-.
  destruct (chain_number _ Hc _ _ Hchild) as [Hn Hu]. destruct (chain_number _ Hc _ _ Hb) as [Hn' _].
  assert (linked (child :: rpc_block_header block :: hs)) as Hlinked.
  { split; [|split]; [|done|done]. rewrite Hn, Hn', u64_pred_pos; [lia|lia|done]. }
  split; [done|]. split; [cbn; lia|]. split; [by intros a [= <-]|].
  intros i Hi. destruct (decide (i = oldest + N.of_nat k)%N) as [->|Hne].
  - exists (rpc_block_header block). split; [left|done].
  - destruct (Hall i) as (a & Ha & Hia); [lia|]. exists a. split; [by right|done].
Qed.

(** The ancestors that were asked for, and what the client's check makes of them. *)
Lemma ancestors_spec W W' chain n db current :
  honest_provider W W' chain n → chain_ok chain → n ≠ 0%N → chain n = Some current →
  rd_block db = u64_pred n → (rd_oldest_ancestor db ≤ u64_pred n)%N →
  ∃ parent hs hashes, fetch_headers (heights_down (rd_oldest_ancestor db) (u64_pred n)) = Ok (parent :: hs) ∧
    chain (u64_pred n) = Some parent ∧
    build_block_hashes (current :: parent :: hs) (length (current :: parent :: hs)) = Ok hashes ∧
    ∀ i h, recorded_hash db i = Some h → hashes !! i = Some h.
Proof.
  intros Hp Hc Hn Hcur Hblock Hold. destruct (chain_number _ Hc _ _ Hcur) as [Hnum Hu].
  rewrite (u64_pred_pos n Hn Hu) in *. set (oldest := rd_oldest_ancestor db) in *.
  unfold heights_down. set (k := N.to_nat (n - 1 + 1 - oldest)).
  assert (oldest + N.of_nat k = n)%N as Hk by (unfold k; lia).
  destruct (fetch_headers_spec W W' chain n oldest k current Hp Hc) as (hs & -> & Hl & Hlen & Hhead & Hall); [lia|by rewrite Hk|].
  destruct hs as [|parent hs]; [cbn in Hlen; unfold k in Hlen; lia|].
  rewrite Hk in *. pose proof (block_hashes_loop_spec current (parent :: hs) ∅) as Hspec.
  destruct (block_hashes_loop (current :: parent :: hs) ∅) as [hashes| | |] eqn:Hloop; [|done..]. destruct Hspec as [_ ->].
  eexists parent, hs, _. split_and!; [done|by apply Hhead|exact Hloop|]. intros i h Hi. unfold recorded_hash in Hi.
  fold oldest in Hi. case_decide as Hrange; [|done]. rewrite Hblock in Hrange.
  destruct (provider_block _ _ _ _ Hp i) as (block & Hb & Hchain & Hh); [lia|]. rewrite Hb in Hi. injection Hi as <-.
  destruct (Hall i) as (a & Ha & Hia); [lia|]. rewrite Hia in Hchain. injection Hchain as ->.
  destruct (chain_number _ Hc _ _ Hia) as [Hnum' _].
  apply insert_hashes_lookup.
  - apply (linked_distinct current); [done|by rewrite Hnum|]. unfold is_u64 in Hu. rewrite Hlen. lia.
  - left. by exists (rpc_block_header block).
Qed.

(** ** The state that is handed over *)

Lemma stands_for_some m M : stands_for 32 m M → ∃ t, models m t.
Proof. intros [(t & T & Hm & _)|[_ Hm]]; by eexists. Qed.

Lemma same_trie_get m m' t key : models m t → same_trie m m' → get m' key = get m key.
Proof. intros Hm Hs. by rewrite (models_get _ _ _ Hm), (models_get _ _ _ (Hs _ Hm)). Qed.

(** What is known of the host's tries is known of the client's. *)
Lemma transition_built_same W W' parents proofs s s' :
  transition_built W W' parents proofs s → same_tries s s' → transition_built W W' parents proofs s'.
Proof.
  intros [Hb Hst Hsl Honly] [Hs Htries].
  assert (∀ h m', storage_tries s' !! h = Some m' → ∃ m, storage_tries s !! h = Some m ∧ same_trie m m') as Hback.
  { intros h m' Hm'. specialize (Htries h). rewrite Hm' in Htries.
    destruct (storage_tries s !! h) as [m|]; [by exists m|done]. }
  split.
  - split; [by eapply stands_for_same, Hb|]. intros h m' (m & Hm & Hsame)%Hback.
    eapply stands_for_same; [done|]. by apply (backs_storage _ _ Hb).
  - intros Hne. destruct (Hst Hne) as (store & Hm & Hall). exists store. split; [by apply Hs|done].
  - intros e He. destruct (Hsl e He) as (t & fini & Ht & Hfini & Hthere & Hbuilt).
    specialize (Htries (keccak256 e.1)). rewrite Ht in Htries.
    destruct (storage_tries s' !! keccak256 e.1) as [t'|] eqn:Ht'; [|done].
    destruct (stands_for_some _ _ (backs_storage _ _ Hb _ _ Ht)) as [u Hu].
    exists t', fini. split_and!; [done|done| |].
    + intros sp Hsp. rewrite (same_trie_get t t' u) by done. by apply Hthere.
    + intros Hne. destruct (Hbuilt Hne) as (store & Hm & Hrest). exists store. split; [by apply Htries|done].
  - intros h [m' (m & Hm & _)%Hback]. apply Honly. by rewrite Hm.
Qed.

Lemma full_sized T : full T → sized T.
Proof. intros [->|(_ & _ & Hs)]; [constructor|done]. Qed.

Lemma built_portable W W' parents proofs s :
  honest_proofs W W' parents proofs → transition_built W W' parents proofs s → portable W s.
Proof.
  intros Hp Hb. pose proof (transition_built_witness _ _ _ _ _ (honest_before _ _ _ _ Hp) Hb) as Hw.
  split; [apply Hb|apply full_sized, Hp|]. intros h m Hm.
  assert (h ∈ keccak256 ∘ fst <$> parents) as (e & -> & He)%list_elem_of_fmap by (by eapply built_only; [|rewrite Hm]).
  destruct (honest_each _ _ _ _ Hp _ He) as (fini & _ & Hproven). split.
  - apply full_sized. exact (pair_full _ _ _ (proven_pair _ _ _ _ _ Hproven)).
  - by apply (witnesses_account _ _ _ Hw).
Qed.

(** The fetched proofs cover everything that was recorded. *)
Lemma built_serves W W' bundle db befores proofs s :
  world_ok W →
  Forall2 (before_fetched W bundle) (map_to_list (get_state_requests db)) befores →
  transition_built W W' (map_to_list (by_item_address befores)) proofs s → state_serves W db s.
Proof.
  intros HW Hbefore Hb. pose proof (transition_built_witness _ _ _ _ _ HW Hb) as Hw. split.
  - intros address Hin. pose proof (get_state_requests_lookup db address (or_introl Hin)) as Hr.
    destruct (parents_lookup W bundle _ befores Hbefore _ _ Hr) as (p & Hp & _).
    by apply (witnesses_account _ _ _ Hw (address, p)).
  - intros address index [v Hv]. assert (is_Some (rd_storage db !! address)) as Hin.
    { unfold recorded_slot in Hv. destruct (rd_storage db !! address); [by eexists|done]. }
    pose proof (get_state_requests_lookup db address (or_intror Hin)) as Hr.
    destruct (parents_lookup W bundle _ befores Hbefore _ _ Hr) as (p & Hp & Hkeys).
    destruct (witnesses_slots _ _ _ Hw _ Hp) as (t & Ht & Hthere). exists t. split; [done|]. cbn [fst snd] in *.
    assert (slot_key index ∈ sp_key <$> ap_storage_proofs p) as Hk.
    { rewrite Hkeys. apply elem_of_btree_set, elem_of_app. left. apply list_elem_of_fmap_2. by eapply storage_keys_in. }
    apply list_elem_of_fmap in Hk as (sp & Hk & Hsp). specialize (Hthere sp Hsp). by rewrite <-Hk in Hthere.
Qed.

(** ** The whole way *)

Lemma execute_with_state_ok cv i db recovered output parent s' m' :
  witness_db i = Ok db → witness_order db = None →
  try_into_recovered (current_block (input i)) = Ok recovered → validate_pre (chain_spec cv) recovered = Ok () →
  run_program (execute_block (chain_spec cv) recovered) db = (Ok (Ok output), db) →
  validate_block_post_execution recovered (chain_spec cv) (output_receipts output) (output_requests output) = Ok () →
  update_from_bundle_state (output_state output) (wd_state db) = (Ok (), s') →
  hash (state_trie s') = (Ok (hd_state_root (bk_header (current_block (input i)))), m') →
  ancestor_headers (input i) !! 0 = Some parent →
  execute_with_state cv i None = Ok (derive_header (current_block (input i)) parent (output_receipts output), db).
Proof.
  intros Hdb Hw Hrec Hpre Hrun Hpost Hupd Hh Hanc. unfold execute_with_state. rewrite Hdb. cbn [mbind outcome_bind].
  rewrite Hrec. cbn [map_err mbind outcome_bind]. rewrite Hpre. cbn [mbind outcome_bind].
  unfold run_block. rewrite Hrun. cbn [map_err mbind outcome_bind]. rewrite Hpost. cbn [map_err mbind outcome_bind].
  rewrite record_bundle_none by done. cbn [mbind outcome_bind].
  assert (updated_root (output_state output) (wd_state db) = Ok (hd_state_root (bk_header (current_block (input i))))) as ->.
  { unfold updated_root. erewrite machine_bind_ok by exact Hupd. unfold on_state. by rewrite Hh. }
  cbn [mbind outcome_bind]. rewrite decide_False by (by intros ?). unfold index. by rewrite Hanc.
Qed.

(** What [run_on_rpc] went through. *)
Lemma run_on_rpc_inv n current output db :
  run_on_rpc n current = Ok (output, db) →
  ∃ recovered, try_into_recovered current = Ok recovered ∧ validate_pre MAINNET recovered = Ok () ∧
    run_program (basic_execute MAINNET recovered) (new_rpc_db (u64_pred n)) = (Ok (Ok output), db) ∧
    validate_block_post_execution recovered MAINNET (output_receipts output) (output_requests output) = Ok ().
Proof.
  intros Hrun. unfold run_on_rpc in Hrun. cbv zeta in Hrun.
  apply outcome_bind_inv in Hrun as (recovered & Hrec & Hrun).
  apply outcome_bind_inv in Hrun as ([] & Hval & Hrun). apply outcome_bind_inv in Hrun as ([] & Hpre & Hrun).
  apply outcome_bind_inv in Hrun as ([out db'] & Hexec & Hrun). apply outcome_bind_inv in Hrun as ([] & Hpost & Hrun).
  injection Hrun as -> ->. exists recovered. apply map_err_ok in Hrec, Hval, Hpre, Hpost. split_and!; [done| | |done].
  - unfold validate_pre. rewrite Hval. cbn [map_err mbind outcome_bind]. by rewrite Hpre.
  - destruct (run_program _ _) as [[o| | |] d]; try done. apply outcome_bind_inv in Hexec as (out & Ho & Heq).
    injection Heq as -> ->. apply map_err_ok in Ho. by rewrite Ho.
Qed.

(** A block on a chain, the worlds before and after it, and a provider. *)
Record honest_setting (W W' : World) (chain : u64 → option BlockHeader) (n : u64) : Prop := {
  setting_before : world_ok W;
  setting_after : world_ok W';
  setting_chain : chain_ok chain;
  setting_number : n ≠ 0%N;
  setting_parent hd : chain (u64_pred n) = Some hd → hd_state_root hd = world_root W;
  setting_current hd : chain n = Some hd → hd_state_root hd = world_root W';
  setting_accounts : no_empty_accounts W;
  setting_provider : honest_provider W W' chain n;
}.

(** What the EVM reports is the step from [W] to [W'], of accounts it has looked at. *)
Record reported_step (W W' : World) (db : RpcDb) (bundle : BundleState) : Prop := {
  step_world : W' ≡ apply_bundle W bundle;
  step_accounts : distinct_accounts bundle;
  step_slots e : e ∈ bundle → distinct_slots (ba_storage e.2);
  step_recorded e : e ∈ bundle → is_Some (rd_accounts db !! e.1);
}.

(** The host runs with reth's spec of the chain, the client with one that leaves the
    genesis out: both judge the block alike, and execute it alike but for the codes. *)
Record same_rules (n : u64) (block : RecoveredBlock) : Prop := {
  rules_pre : validate_pre MAINNET block = Ok () → validate_pre mainnet block = Ok ();
  rules_post receipts requests : validate_block_post_execution block MAINNET receipts requests = Ok () →
    validate_block_post_execution block mainnet receipts requests = Ok ();
  rules_back : asks_back (u64_pred n) (basic_execute MAINNET block);
  rules_reads : reads_codes same_result ∅ (basic_execute MAINNET block) (execute_block mainnet block);
}.

(** What reth's consensus checks compare the header with: before execution the ommers
    and the withdrawals of the body, after it the bloom of the receipts. *)
Record header_checked (current : Block) (block : RecoveredBlock) : Prop := {
  checked_body : validate_pre MAINNET block = Ok () →
    calculate_ommers_root (bk_body current) = hd_ommers_hash (bk_header current) ∧
    calculate_withdrawals_root (bk_body current) = hd_withdrawals_root (bk_header current);
  checked_bloom receipts requests : validate_block_post_execution block MAINNET receipts requests = Ok () →
    logs_bloom_of receipts = hd_logs_bloom (bk_header current);
}.

(** The header put together from the execution is the block's own. *)
Lemma derived_header chain n current block parent receipts requests :
  chain_ok chain → n ≠ 0%N → chain n = Some (bk_header current) → chain (u64_pred n) = Some parent →
  header_checked current block → validate_pre MAINNET block = Ok () →
  validate_block_post_execution block MAINNET receipts requests = Ok () →
  derive_header current parent receipts = bk_header current.
Proof.
  intros Hc Hn Hcur Hparent [Hbody Hbloom] Hpre%Hbody Hpost%Hbloom. destruct Hpre as [Hommers Hwithdrawals].
  destruct (chain_parent _ Hc _ _ Hcur Hn) as (parent' & Hp & Hhash).
  rewrite u64_pred_pos in Hparent by (done || by destruct (chain_number _ Hc _ _ Hcur)).
  rewrite Hparent in Hp. injection Hp as <-. unfold derive_header. rewrite Hommers, Hwithdrawals, Hpost, <-Hhash.
  by destruct (bk_header current).
Qed.

(** The tries of the input, and the updates of the client's, fit the 32-bit indices. *)
Definition input_fits (i : ClientExecutorInput) (bundle : BundleState) : Prop :=
  bytes_fit (parent_state_bytes i) ∧
  ∀ iws, build i = Ok iws → accounts_fit (state iws) bundle ∧ Forall (slots_fit (state iws)) bundle.

Lemma host_execute_ok fuel W W' chain n current output db :
  129 ≤ fuel → honest_setting W W' chain n → fetch_block n n = Ok current →
  run_on_rpc n current = Ok (output, db) → rd_block db = u64_pred n → (rd_oldest_ancestor db ≤ u64_pred n)%N →
  reported_step W W' db (output_state output) → provable W W' (output_state output) (get_state_requests db) →
  (∀ parent, chain (u64_pred n) = Some parent →
     header_hash_slow (derive_header current parent (output_receipts output)) = header_hash_slow (bk_header current)) →
  ∃ parent hs hashes s b parents proofs,
    chain n = Some (bk_header current) ∧ chain (u64_pred n) = Some parent ∧
    host_execute fuel n = Ok (mkClientExecutorInput current (parent :: hs) b (get_bytecodes db)) ∧
    build_block_hashes (bk_header current :: parent :: hs) (length (bk_header current :: parent :: hs)) = Ok hashes ∧
    (∀ i h, recorded_hash db i = Some h → hashes !! i = Some h) ∧
    honest_proofs W W' parents proofs ∧ changes_proven parents proofs (output_state output) ∧
    transition_built W W' parents proofs s ∧
    (∀ s', same_tries s s' → state_serves W db s') ∧ (∃ s1, encode_to_state_bytes s = (Ok b, s1)).
Proof.
  intros Hf Hset Hcur Hrun Hblock Hold Hstep Hprov Hheader. pose proof (setting_provider _ _ _ _ Hset) as Hp.
  destruct (provider_full _ _ _ _ Hp n (or_introl eq_refl)) as (fb & Hfb & Hchain).
  assert (current = into_consensus fb) as ->.
  { unfold fetch_block in Hcur. rewrite Hfb in Hcur. by injection Hcur as <-. }
  destruct (provider_full _ _ _ _ Hp (u64_pred n) (or_intror eq_refl)) as (fb' & Hfb' & Hchain').
  destruct (ancestors_spec W W' chain n db _ Hp (setting_chain _ _ _ _ Hset) (setting_number _ _ _ _ Hset) Hchain Hblock Hold)
    as (parent & hs & hashes & Hhs & Hparent & Hhashes & Hrec).
  rewrite Hchain' in Hparent. injection Hparent as <-.
  destruct (fetch_proofs_spec W W' chain n (output_state output) (map_to_list (get_state_requests db)) Hp)
    as (befores & afters & Hfetch & Hbefore & Hafter).
  pose proof (fetched_honest W W' _ _ befores afters (setting_before _ _ _ _ Hset) (setting_after _ _ _ _ Hset)
    Hprov Hbefore Hafter) as Hhonest.
  destruct (transition_proofs_built fuel W W' _ _ Hf Hhonest) as (s & Htrans & Hbuilt).
  pose proof (built_portable _ _ _ _ _ Hhonest Hbuilt) as Hport.
  destruct (stands_for_some _ _ (backs_state _ _ (built_backs _ _ _ _ _ Hbuilt))) as [st Hst].
  destruct (encode_state_spec s st Hst) as (entries & s1 & Henc & _).
  { intros h m Hm. by apply (stands_for_some m (slot_trie (slots W h))), (backs_storage _ _ (built_backs _ _ _ _ _ Hbuilt)). }
  eexists (bk_header (into_consensus fb')), hs, hashes, s, _, _, _. split_and!; [done|done| |done|done|exact Hhonest| |exact Hbuilt| |by eexists].
  - unfold host_execute. rewrite Hcur. cbn [mbind outcome_bind]. unfold fetch_block. rewrite Hfb'.
    cbn [map_err mbind outcome_bind]. unfold into_primitive_block. rewrite Hrun. cbn [mbind outcome_bind].
    rewrite Hfetch. cbn [mbind outcome_bind]. rewrite (setting_parent _ _ _ _ Hset _ Hchain'), Htrans.
    cbn [map_err mbind outcome_bind]. rewrite decide_True by (by apply Hheader). cbn [mbind outcome_bind].
    rewrite Hhs. cbn [mbind outcome_bind]. unfold encoded_state. rewrite Henc. done.
  - apply (fetched_changes W W' _ _ befores afters Hbefore Hafter); [apply Hstep|]. intros e He.
    split; [by apply (step_slots _ _ _ _ Hstep)|]. rewrite get_state_requests_lookup; [by eexists|].
    left. by apply (step_recorded _ _ _ _ Hstep).
  - intros s' Hsame. eapply built_serves; [apply Hset|exact Hbefore|]. by eapply transition_built_same.
Qed.

(** C2: The host's input is accepted.  Around an honest provider, when the host's
    execution of the block succeeds, [host_execute] returns an input, its assertion
    about the derived header included, and the client executes the input to the
    block's own header.  It does so although the tries in it are partial, the state
    went through its serialization, and the client has to ask for the codes that
    came with the accounts on the host.  Assumed are:
    - the setting ([honest_setting]): worlds before and after the block with the state
      roots of a chain, a provider that answers from them, and no account that is
      empty ([no_empty_accounts], EIP-161);
    - of reth: the host's and the client's specs of the chain judge the block alike,
      the EVM asks for block hashes backwards only and for codes of accounts it has
      loaded ([same_rules]), and the consensus checks compare the header with the body
      and the receipts ([header_checked]);
    - of the EVM's report: it is the step from one world to the other, once per
      account and slot, in accounts that were looked at ([reported_step]);
    - no collisions among the provider's proofs ([provable]) and codes
      ([codes_apart]);
    - and for the client, that the input fits the 32-bit indices ([input_fits]). *)
Theorem host_input_accepted fuel W W' chain n current recovered output db :
  129 ≤ fuel → honest_setting W W' chain n → fetch_block n n = Ok current →
  try_into_recovered current = Ok recovered → same_rules n recovered → header_checked current recovered →
  run_on_rpc n current = Ok (output, db) →
  reported_step W W' db (output_state output) → provable W W' (output_state output) (get_state_requests db) →
  codes_apart (recorded_codes db) →
  ∃ i, host_execute fuel n = Ok i ∧
    (input_fits i (output_state output) → execute Mainnet i = Ok (bk_header current)).
Proof.
  intros Hf Hset Hcur Hrec [Hrpre Hrpost Hback Hreads] Hchecked Hrun Hstep Hprov Hcodes.
  destruct (run_on_rpc_inv _ _ _ _ Hrun) as (recovered' & Hrec' & Hpre & Hexec & Hpost).
  rewrite Hrec in Hrec'. injection Hrec' as <-.
  destruct (run_records _ (u64_pred n) (new_rpc_db (u64_pred n)) _ _ Hback eq_refl (faithful_new _) Hexec) as (Hgrows & Hfaith & Hreplay).
  pose proof (grows_block _ _ Hgrows) as Hblock. pose proof (grows_oldest _ _ Hgrows) as Hold. cbn in Hblock, Hold.
  destruct (provider_full _ _ _ _ (setting_provider _ _ _ _ Hset) n (or_introl eq_refl)) as (fb & Hfb & Hchain0).
  assert (chain n = Some (bk_header current)) as Hchain1.
  { unfold fetch_block in Hcur. rewrite Hfb in Hcur. by injection Hcur as <-. }
  assert (∀ parent, chain (u64_pred n) = Some parent →
    derive_header current parent (output_receipts output) = bk_header current) as Hheader.
  { intros parent Hparent. eapply derived_header; by eauto using setting_chain, setting_number. }
  destruct (host_execute_ok fuel W W' chain n current output db Hf Hset Hcur Hrun Hblock Hold Hstep Hprov)
    as (parent & hs & hashes & s & b & parents & proofs & Hchain & Hchain' & Hhost & Hhashes & Hhash & Hhonest & Hchanges & Hbuilt & Hserves & s1 & Henc).
  { intros parent Hparent. by rewrite (Hheader parent Hparent). }
  eexists. split; [exact Hhost|]. intros [Hbytes Hfits]. rewrite <-(Hheader parent Hchain').
  destruct (handover W s b s1 current (parent :: hs) (get_bytecodes db) parent (setting_before _ _ _ _ Hset)
    (built_portable _ _ _ _ _ Hhonest Hbuilt) Henc Hbytes eq_refl (setting_parent _ _ _ _ Hset _ Hchain'))
    as (s' & Hbuild & Hsame).
  destruct (Hfits _ Hbuild) as [Hacc Hslots]. cbn [state] in Hacc, Hslots.
  pose proof (transition_built_same _ _ _ _ _ _ Hbuilt Hsame) as Hbuilt'.
  destruct (built_completes W W' parents proofs (output_state output) s' Hhonest (step_world _ _ _ _ Hstep)
    (step_accounts _ _ _ _ Hstep) Hchanges Hbuilt' Hacc Hslots) as (s2 & m2 & Hupd & Hroot).
  destruct (client_replays same_result ∅ (basic_execute MAINNET recovered) (execute_block mainnet recovered) db
    (new_witness_db s' hashes (collect_bytecodes (get_bytecodes db))) (Ok output)) as (o & Hrun' & Hsame').
  { by eapply witness_answers; [apply Hset..|done|done|by apply Hserves|done]. }
  { by apply faithful_codes. }
  { done. }
  { done. }
  { apply map_empty_subseteq. }
  { by apply Hreplay. }
  destruct o as [output'| | |]; try done. destruct Hsame' as [Hbundle Hreceipts Hrequests].
  rewrite <-update_codeless, Hbundle, update_codeless in Hupd.
  unfold execute. rewrite Hbuild. cbn [mbind outcome_bind].
  erewrite (execute_with_state_ok Mainnet _ (new_witness_db s' hashes (collect_bytecodes (get_bytecodes db)))
    recovered output' parent);
    cbn [input current_block ancestor_headers wd_state new_witness_db]; try done.
  - by rewrite Hreceipts.
  - unfold witness_db, headers. cbn [input current_block ancestor_headers state bytecodes]. by rewrite Hhashes.
  - by apply Hrpre.
  - rewrite <-Hreceipts, <-Hrequests. by apply Hrpost.
  - by rewrite (setting_current _ _ _ _ Hset _ Hchain).
Qed.
End host.
