(* ===== verification/ClientSamples.v ===== *)
(** * The client's theorems at a concrete input

    A block with one transaction that bumps a counter in a contract's storage,
    executed on a witness in which the other account is only a digest. *)

From S2P Require Import Prelude External Concrete Node Hp Mpt Trie TrieLaws TrieHash MptSpec.
From S2P Require Import TrieMap View Stateless Codec CodecLaws Decode Evm ConcreteEvm State.
From S2P Require Import StateSpec Samples Client ClientSpec Executor Execute ExecuteSpec.

(** ** Deciding the hypotheses *)

Section sized_check.
Context `{CratesOk}.

Fixpoint sized_check (t : trie) : bool :=
  match t with
  | TNull => true
  | TDigest d => length d =? 32
  | TLeaf path value =>
      bool_decide (fits_usize (length path)) && bool_decide (fits_usize (length value)) &&
      bool_decide (fits_usize (length (trie_payload (TLeaf path value))))
  | TExtension path c =>
      bool_decide (fits_usize (length path)) &&
      bool_decide (fits_usize (length (trie_payload (TExtension path c)))) && sized_check c
  | TBranch cs =>
      bool_decide (fits_usize (length (trie_payload (TBranch cs)))) &&
      forallb (λ o, match o with Some c => sized_check c | None => true end) cs
  end.

Lemma sized_check_ok t : sized_check t = true → sized t.
Proof.
  induction t as [|d|path v|path c IH|cs IH] using trie_nested_ind; cbn [sized_check]; intros Hc.
  - constructor.
  - constructor. by apply Nat.eqb_eq.
  - apply andb_prop in Hc as [[Hp Hv]%andb_prop Hl]. constructor; by eapply bool_decide_eq_true_1.
  - apply andb_prop in Hc as [[Hp Hl]%andb_prop Hc].
    constructor; [by eapply bool_decide_eq_true_1..|by apply IH].
  - apply andb_prop in Hc as [Hl Hc]. constructor; [by eapply bool_decide_eq_true_1|].
    intros i c Hi. apply (IH _ _ Hi). rewrite forallb_forall in Hc.
    apply (Hc (Some c)). apply list_elem_of_In. by eapply list_elem_of_lookup_2.
Qed.
End sized_check.

Definition trusted_check (M : gmap bytes bytes) (buf : bytes) : bool :=
  let T := map_trie M in
  sized_check T && (32 <=? length (trie_rlp T)) && negb (bool_decide (trie_hash T = EMPTY_ROOT_HASH)) &&
  authentic_check buf T && (N.of_nat (length buf) + 1 <? u32_modulus)%N.

Lemma trusted_check_ok M buf : trusted_check M buf = true → trusted M buf.
Proof.
  unfold trusted_check. intros [[[[Hs Hl]%andb_prop Hr]%andb_prop Ha]%andb_prop Hn]%andb_prop.
  split.
  - by apply sized_check_ok.
  - intros _. by apply Nat.leb_le.
  - intros _. change (map_root M) with (trie_hash (map_trie M)).
    apply negb_true_iff in Hr. by apply bool_decide_eq_false in Hr.
  - by apply authentic_check_ok.
  - by apply N.ltb_lt.
Qed.

(** [world_ok] of a world given by lists. *)
Definition account_ok (W : World) (e : B256 * TrieAccount) : Prop :=
  byte_key 32 e.1 ∧ is_u64 (ta_nonce e.2) ∧ is_u256 (ta_balance e.2) ∧ length (ta_code_hash e.2) = 32 ∧
  ta_storage_root e.2 = map_root (slot_trie (slots W e.1)).

Lemma world_of_ok accts stor :
  Forall (account_ok (world_of accts stor)) accts →
  Forall (λ e, e.1 ∈ accts.*1 ∧ Forall (λ kv, byte_key 32 kv.1 ∧ is_u256 kv.2) e.2) stor →
  world_ok (world_of accts stor).
Proof.
  intros Hacc Hstor. set (W := world_of accts stor).
  assert (∀ h a, accounts W !! h = Some a → account_ok W (h, a)) as Ha.
  { intros h a Hh. apply elem_of_list_to_map_2 in Hh. rewrite Forall_forall in Hacc. exact (Hacc _ Hh). }
  assert (∀ h k v, slots W h !! k = Some v → h ∈ accts.*1 ∧ byte_key 32 k ∧ is_u256 v) as Hs.
  { intros h k v. unfold W, world_of. cbn [slots]. rewrite list_to_map_fmap, lookup_fmap.
    destruct ((list_to_map stor : gmap B256 _) !! h) as [l|] eqn:Hl; cbn; [|by rewrite lookup_empty].
    intros Hk. apply elem_of_list_to_map_2 in Hl, Hk. rewrite Forall_forall in Hstor.
    destruct (Hstor _ Hl) as [Hin Hall]. rewrite Forall_forall in Hall.
    destruct (Hall _ Hk) as [? ?]. done. }
  split.
  - intros h a Hh. by destruct (Ha h a Hh).
  - intros h a Hh. destruct (Ha h a Hh) as (_ & ? & ? & ? & _). done.
  - intros h a Hh. by destruct (Ha h a Hh) as (_ & _ & _ & _ & ?).
  - intros h k v Hv. by destruct (Hs h k v Hv) as (_ & ? & _).
  - intros h k v Hv. by destruct (Hs h k v Hv) as (_ & _ & ?).
  - intros h Hn. apply map_eq. intros k. rewrite lookup_empty.
    destruct (slots W h !! k) as [v|] eqn:Hv; [|done]. destruct (Hs h k v Hv) as (Hin & _).
    exfalso. apply not_elem_of_list_to_map_2 in Hn. done.
Qed.

(** ** A small EVM *)

Module CounterEvm.

(** The account with its nonce bumped and some slots written. *)
Definition bump (account : Address) (storage : list (U256 * StorageSlot)) (info : option AccountInfo)
    (bundle : BundleState) : outcome unit BundleState :=
  match info with
  | Some i => Ok (bundle ++ [(account, mkBundleAccount
      (Some (mkAccountInfo (ai_balance i) (ai_nonce i + 1) (ai_code_hash i) (ai_code i))) storage EvmCodec.Changed)])
  | None => Err ()
  end.

(** A transaction names a contract; it adds one to the contract's slot 0 and
    reads the hash of block 0.  One that starts with a zero byte only bumps the
    nonce of the account after it; one that starts with a two also sets its slot 1
    without reading it. *)
Definition run (tx : bytes) (bundle : BundleState) : prog unit BundleState :=
  match tx with
  | 0%N :: account => AskBasic _ account (λ info, Finish _ (bump account [] info bundle))
  | 2%N :: account =>
      AskBasic _ account (λ info, Finish _ (bump account [(1%N, mkStorageSlot 0 5)] info bundle))
  | contract =>
      AskBasic _ contract (λ info,
      AskStorage _ contract 0%N (λ value,
      AskBlockHash _ 0%N (λ _,
      Finish _ (bump contract [(0%N, mkStorageSlot value (value + 1))] info bundle))))
  end.
End CounterEvm.

#[export] Instance concrete_reth : Reth := {
  ChainSpec := unit;
  mainnet := ();
  dev := ();
  RecoveredBlock := Block;
  Transaction := Address;
  try_into_recovered b := Ok b;
  transactions_recovered b := bk_body b;
  block_access_list_hash _ := None;
  validate_header _ _ := Ok ();
  validate_block_pre_execution _ b :=
    if decide (hd_ommers_hash (bk_header b) = replicate 32 0%N ∧ hd_withdrawals_root (bk_header b) = None)
    then Ok () else Err ();
  Receipt := unit;
  Requests := unit;
  validate_block_post_execution b _ _ _ :=
    if decide (hd_logs_bloom (bk_header b) = []) then Ok () else Err ();
  RevmState := BundleState;
  BlockExecutor := BundleState;
  State_build := [];
  executor_for_block _ s _ := Ok s;
  executor_state e := e;
  set_bal_builder _ e := e;
  bump_bal_index e := e;
  apply_pre_execution_changes e := mret e;
  execute_transaction := CounterEvm.run;
  apply_post_execution_changes e := mret (e, ([], ()));
  merge_transitions s := s;
  take_bundle s := s;
  database_error _ := ();
  empty_bloom := [];
  accrue_bloom b _ := b;
  calculate_ommers_root _ := replicate 32 0%N;
  calculate_withdrawals_root _ := None;
}.

(** ** The parent world and its witness *)

Definition counter_slots : list (B256 * U256) := Eval vm_compute in [(slot_of 0, 7%N)].
Definition counter_root : B256 := Eval vm_compute in map_root (slot_trie (list_to_map counter_slots)).

Definition parent_accounts : list (B256 * TrieAccount) :=
  Eval vm_compute in
  [(hash_of alice, mkTrieAccount 1 1000 counter_root no_code);
   (hash_of bob, mkTrieAccount 0 5 empty_root no_code)].
Definition parent_storage : list (B256 * list (B256 * U256)) :=
  Eval vm_compute in [(hash_of alice, counter_slots)].

Definition parent_world : World := world_of parent_accounts parent_storage.

(** Every node but those on Alice's path, as its digest. *)
Definition hide (keep : bytes) (t : trie) : trie :=
  match t with
  | TBranch cs =>
      TBranch (imap (λ i o, match o with
                            | Some c => Some (if bool_decide (head keep = Some (N.of_nat i)) then c
                                              else match trie_ref c with DigestRef d => TDigest d | _ => c end)
                            | None => None
                            end) cs)
  | t => t
  end.

Definition state_buf : bytes :=
  Eval vm_compute in trie_encode (hide (to_nibs (hash_of alice)) (map_trie (account_trie parent_world))).
Definition counter_buf : bytes :=
  Eval vm_compute in trie_encode (map_trie (slot_trie (list_to_map counter_slots))).

Lemma state_trusted : trusted (account_trie parent_world) state_buf.
Proof. apply trusted_check_ok. vm_compute. reflexivity. Qed.

Lemma counter_trusted : trusted (slot_trie (slots parent_world (hash_of alice))) counter_buf.
Proof. apply trusted_check_ok. vm_compute. reflexivity. Qed.

Lemma parent_world_ok : world_ok parent_world.
Proof.
  apply world_of_ok.
  - repeat constructor; try (by_computation); vm_compute; reflexivity.
  - repeat constructor; try (by_computation).
Qed.

(** ** The chain, the block and the input *)

Definition zeros : B256 := replicate 32 0%N.

Definition make_header (number : u64) (parent root : B256) : BlockHeader :=
  mkHeader HeaderRest parent zeros root zeros zeros [] number None None ().

Definition parent_root : B256 := Eval vm_compute in world_root parent_world.
Definition genesis : BlockHeader := make_header 0 zeros parent_root.
Definition genesis_hash : B256 := Eval vm_compute in header_hash_slow genesis.

(** What the block does to the parent world. *)
Definition counter_bundle : BundleState :=
  [(alice, mkBundleAccount (Some (mkAccountInfo 1000 2 no_code None)) [(0%N, mkStorageSlot 7 8)] EvmCodec.Changed)].
Definition child_root : B256 :=
  Eval vm_compute in world_root (apply_bundle parent_world counter_bundle).
Definition child : BlockHeader := make_header 1 genesis_hash child_root.

(** The chain that ends with [current], the node before it, and a block on it. *)
Section chain.
Variable current : BlockHeader.

Definition chain_to (n : u64) : option BlockHeader :=
  if (n =? 0)%N then Some genesis else if (n =? 1)%N then Some current else None.

Definition node_before : FullState := mkFullState parent_world (λ _, None) chain_to.

Definition input_for (txs : list bytes) (storage : list (B256 * nat * bytes)) : ClientExecutorInput :=
  mkClientExecutorInput (mkBlock current txs) [genesis] (mkEthereumStateBytes (5, state_buf) storage) [].

Lemma chain_to_cases n hd :
  chain_to n = Some hd → (n = 0%N ∧ hd = genesis) ∨ (n = 1%N ∧ hd = current).
Proof.
  unfold chain_to. destruct (N.eqb_spec n 0) as [->|]; [intros [= <-]; by left|].
  destruct (N.eqb_spec n 1) as [->|]; [intros [= <-]; by right|done].
Qed.
End chain.

(** Two 32-byte hashes differ. *)
Definition differ (a c : B256) : bool := negb (bool_decide (a = c)).

Lemma differ_ok a c : differ a c = true → a ≠ c.
Proof. unfold differ. rewrite negb_true_iff. apply bool_decide_eq_false. Qed.

Lemma input_honest root txs storage :
  let current := make_header 1 genesis_hash root in
  differ genesis_hash (header_hash_slow current) = true →
  (∀ e, e ∈ storage → e = (hash_of alice, 1, counter_buf)) →
  honest_hashes (node_before current) (input_for current txs storage).
Proof.
  intros current Hdiffer Hstorage. apply differ_ok in Hdiffer.
  assert (header_hash_slow genesis = genesis_hash) as Hgen by (vm_compute; reflexivity).
  split.
  - split.
    + intros n hd [[-> ->]|[-> ->]]%chain_to_cases; by split.
    + intros n hd [[-> ->]|[-> ->]]%chain_to_cases Hn; [by destruct Hn|].
      exists genesis. split; [reflexivity|]. rewrite Hgen. reflexivity.
  - apply parent_world_ok.
  - reflexivity.
  - intros parent [[_ ->]|[Hn _]]%chain_to_cases; [vm_compute; reflexivity|discriminate Hn].
  - intros a Ha. change (a ∈ [genesis]) in Ha. apply list_elem_of_singleton in Ha as ->. split.
    + intros n hd [[_ ->]|[_ ->]]%chain_to_cases; [reflexivity|]. rewrite Hgen. intros He.
      by destruct Hdiffer.
    + intros hd [[_ ->]|[Hn _]]%chain_to_cases; [|discriminate Hn]. apply differ_ok. vm_compute. reflexivity.
  - intros code Hc. change (code ∈ @nil bytes) in Hc. exfalso. exact (not_elem_of_nil _ Hc).
  - apply state_trusted.
  - intros h n buf Ha. change ((h, n, buf) ∈ storage) in Ha. apply Hstorage in Ha. injection Ha as -> -> ->.
    split; [by_computation|apply counter_trusted].
Qed.

(** A block that bumps the counter. *)
Definition sample_node : FullState := node_before child.
Definition sample_input : ClientExecutorInput :=
  input_for child [alice] [(hash_of alice, 1, counter_buf)].

Lemma sample_honest : honest_hashes sample_node sample_input.
Proof.
  apply input_honest; [vm_compute; reflexivity|]. intros e He. by apply list_elem_of_singleton in He.
Qed.

(** ** Execution on the witness *)

(** Writes only: no slot is cleared and no account removed. *)
Definition slots_written (storage : list (U256 * StorageSlot)) : bool :=
  forallb (λ v, negb (bool_decide (present_value v.2 = 0%N))) storage.

Lemma slots_written_see l t : slots_written l = true → sees_all t (slot_op <$> l).
Proof.
  revert t. induction l as [|[slot v] l IHl]; intros t Hs; [done|].
  apply andb_prop in Hs as [Hv Hs]. cbn [fmap list_fmap sees_all]. split; [|by apply IHl].
  unfold slot_op. cbn [snd] in *. apply negb_true_iff, bool_decide_eq_false in Hv.
  by rewrite decide_False.
Qed.

Definition writes_only (bundle : BundleState) : bool :=
  forallb (λ e, bool_decide (is_Some (ba_info e.2)) && slots_written (ba_storage e.2)) bundle.

Lemma writes_only_sees bundle s : writes_only bundle = true → bundle_sees s bundle.
Proof.
  revert s. induction bundle as [|[a account] bundle IH]; intros s Hw; [done|].
  apply andb_prop in Hw as [[Hi Hs]%andb_prop Hw]. cbn [bundle_sees]. split; [|by apply IH].
  unfold account_sees. cbn [fst snd] in *. apply bool_decide_eq_true in Hi as [info ->].
  by apply slots_written_see.
Qed.

(** Every account that changes has its storage trie. *)
Definition tries_there (s : EthereumState) (bundle : BundleState) : bool :=
  forallb (λ e, bool_decide (is_Some (storage_tries s !! keccak256 e.1))) bundle.

Lemma tries_there_covered W s bundle : tries_there s bundle = true → Forall (covered W s) bundle.
Proof.
  intros Ht. apply Forall_forall. intros e He Hn. unfold tries_there in Ht. rewrite forallb_forall in Ht.
  specialize (Ht e ltac:(by apply list_elem_of_In)). rewrite Hn in Ht.
  by apply bool_decide_eq_true, is_Some_None in Ht.
Qed.

Definition update_check (s : EthereumState) (bundle : BundleState) : bool :=
  ready_check s bundle && tries_there s bundle && writes_only bundle.

Lemma update_check_ok W s bundle :
  update_check s bundle = true → ready W s bundle ∧ bundle_sees s bundle.
Proof.
  intros [[Hr Ht]%andb_prop Hw]%andb_prop. split; [|by apply writes_only_sees].
  apply ready_check_ok; [done|by apply tries_there_covered].
Qed.

(** A report as plain data. *)
Definition bundle_data (bundle : BundleState)
  : list (bytes * (option AccountInfo * list (U256 * StorageSlot) * EvmCodec.status)) :=
  (λ e, (e.1, (ba_info e.2, ba_storage e.2, ba_status e.2))) <$> bundle.

Lemma bundle_data_inj bundle bundle' : bundle_data bundle = bundle_data bundle' → bundle = bundle'.
Proof. apply list_fmap_eq_inj. intros [a [i s t]] [a' [i' s' t']]. cbn. by intros [= -> -> -> ->]. Qed.

#[local] Instance status_eq_dec : EqDecision EvmCodec.status.
Proof. solve_decision. Defined.
#[local] Instance bytecode_eq_dec : EqDecision Bytecode := _ : EqDecision bytes.
#[local] Instance AccountInfo_eq_dec : EqDecision AccountInfo.
Proof. solve_decision. Defined.
#[local] Instance StorageSlot_eq_dec : EqDecision StorageSlot.
Proof. solve_decision. Defined.

Definition bundle_check (bundle bundle' : BundleState) : bool :=
  bool_decide (bundle_data bundle = bundle_data bundle').

Lemma bundle_check_ok bundle bundle' : bundle_check bundle bundle' = true → bundle = bundle'.
Proof. intros Hc. apply bundle_data_inj. exact (bool_decide_eq_true_1 _ Hc). Qed.

(** The changes a run of the block ends with. *)
Definition reported {E S} (r : outcome E (outcome BlockExecutionErr BlockExecutionOutput) * S) : BundleState :=
  match r with (Ok (Ok output), _) => output_state output | _ => [] end.

Definition sample_block : Block := current_block sample_input.

Definition needs_check : bool :=
  match build sample_input with
  | Ok iws => update_check (state iws) (reported (run_program (execute_block () sample_block) sample_node))
  | _ => false
  end.

Lemma sample_needs cv iws recovered output :
  build sample_input = Ok iws → try_into_recovered (current_block sample_input) = Ok recovered →
  run_program (execute_block (chain_spec cv) recovered) sample_node = (Ok (Ok output), sample_node) →
  ready (fs_world sample_node) (state iws) (output_state output) ∧
  bundle_sees (state iws) (output_state output).
Proof.
  assert (needs_check = true) as Hok by (vm_compute; reflexivity).
  intros Hb Hrec Hrun. apply update_check_ok. unfold needs_check in Hok. rewrite Hb in Hok.
  assert (chain_spec cv = ()) as Hcv by (by destruct (chain_spec cv)). rewrite Hcv in Hrun.
  assert (recovered = sample_block) as -> by (injection Hrec as <-; reflexivity).
  rewrite Hrun in Hok. exact Hok.
Qed.

Lemma execute_sound_witness :
  ∃ header recovered output,
    execute Mainnet sample_input = Ok header ∧
    try_into_recovered (current_block sample_input) = Ok recovered ∧
    validate_pre (chain_spec Mainnet) recovered = Ok () ∧
    run_program (execute_block (chain_spec Mainnet) recovered) sample_node = (Ok (Ok output), sample_node) ∧
    hd_state_root header = world_root (apply_bundle (fs_world sample_node) (output_state output)) ∧
    hd_state_root header = hd_state_root (bk_header (current_block sample_input)) ∧
    hd_number header = hd_number (bk_header (current_block sample_input)) ∧
    hd_parent_hash header = hd_parent_hash (bk_header (current_block sample_input)).
Proof.
  assert (succeeds (execute Mainnet sample_input) = true) as Hok by (vm_compute; reflexivity).
  destruct (execute Mainnet sample_input) as [header| | |] eqn:Hrun; try discriminate Hok.
  destruct (execute_sound Mainnet sample_node sample_input header sample_honest (sample_needs Mainnet) Hrun)
    as (recovered & output & Hall).
  exists header, recovered, output. refine (conj eq_refl Hall).
Defined.

(** The input with its state, and the database set up from it. *)
Definition sample_setup : outcome ClientExecutionError (ClientExecutorInputWithState * WitnessDb) :=
  iws ← build sample_input; db ← witness_db iws; Ok (iws, db).

Lemma sample_setup_ok :
  ∃ iws db, build sample_input = Ok iws ∧ witness_db iws = Ok db ∧
    succeeds (run_program (CounterEvm.run alice []) db).1 = true.
Proof.
  assert (match sample_setup with
          | Ok (_, db) => succeeds (run_program (CounterEvm.run alice []) db).1
          | _ => false
          end = true) as Hok by (vm_compute; reflexivity).
  unfold sample_setup in Hok. destruct (build sample_input) as [iws| | |]; try discriminate Hok.
  cbn [mbind outcome_bind] in Hok. destruct (witness_db iws) as [db| | |] eqn:Hdb; try discriminate Hok.
  exists iws, db. split_and!; [reflexivity|exact Hdb|exact Hok].
Qed.

Lemma witness_execution_is_full_execution_witness :
  ∃ iws db a db', build sample_input = Ok iws ∧ witness_db iws = Ok db ∧
    run_program (CounterEvm.run alice []) db = (Ok a, db') ∧
    run_program (CounterEvm.run alice []) sample_node = (Ok a, sample_node).
Proof.
  destruct sample_setup_ok as (iws & db & Hb & Hdb & Hok).
  destruct (run_program (CounterEvm.run alice []) db) as [[a| | |] db'] eqn:Hrun; try discriminate Hok.
  exists iws, db, a, db'. refine (conj Hb (conj Hdb (conj Hrun _))).
  exact (witness_execution_is_full_execution sample_node sample_input iws db _ a db' sample_honest Hb Hdb Hrun).
Defined.

Lemma bundle_update_sound_on_witness_witness :
  ∃ iws s', build sample_input = Ok iws ∧ update_from_bundle_state counter_bundle (state iws) = (Ok (), s') ∧
    backs (apply_bundle parent_world counter_bundle) s' ∧
    ∃ m', hash (state_trie s') = (Ok (world_root (apply_bundle parent_world counter_bundle)), m').
Proof.
  assert (match build sample_input with
          | Ok iws => update_check (state iws) counter_bundle &&
                      succeeds (update_from_bundle_state counter_bundle (state iws)).1
          | _ => false
          end = true) as Hok by (vm_compute; reflexivity).
  destruct (build sample_input) as [iws| | |] eqn:Hb; try discriminate Hok.
  apply andb_prop in Hok as [Hok Hsucc].
  destruct (update_from_bundle_state counter_bundle (state iws)) as [[[]| | |] s'] eqn:Hrun; try discriminate Hsucc.
  exists iws, s'. refine (conj eq_refl (conj Hrun _)).
  apply (update_check_ok parent_world) in Hok as [Hready Hsees].
  refine (bundle_update_sound_on_witness parent_world (state iws) counter_bundle s' _ Hready Hsees Hrun).
  refine (build_backs sample_node sample_input iws sample_honest _ Hb).
  refine (conj eq_refl (conj _ I)). vm_compute. reflexivity.
Defined.

Lemma block_hashes_exact_witness :
  is_u64 (hd_number child) ∧ (N.of_nat (length [genesis]) < 2 ^ 64)%N ∧
  match build_block_hashes [child; genesis] 2 with
  | Ok hashes => linked [child; genesis] ∧
      ∀ n h, hashes !! n = Some h ↔ ∃ a, a ∈ [genesis] ∧ hd_number a = n ∧ header_hash_slow a = h
  | Err _ => ¬ linked [child; genesis]
  | _ => False
  end.
Proof.
  assert (is_u64 (hd_number child)) as Hu by (vm_compute; reflexivity).
  assert (N.of_nat (length [genesis]) < 2 ^ 64)%N as Hlen by (vm_compute; reflexivity).
  split; [exact Hu|]. split; [exact Hlen|].
  pose proof (block_hashes_exact child [genesis] 2 Hu Hlen) as Hspec. revert Hspec.
  generalize (build_block_hashes [child; genesis] 2). intros o Hspec. exact Hspec.
Defined.

(** ** A witness that leaves a storage trie out

    The block bumps Alice's nonce and touches none of her slots; the input has
    no storage trie for her, and its header claims the root of a world in which
    her slots are gone. *)

Definition bump_tx : bytes := 0%N :: alice.

Definition cleared_accounts : gmap B256 TrieAccount :=
  <[hash_of alice := mkTrieAccount 2 1000 empty_root no_code]> (accounts parent_world).
Definition cleared_root : B256 := Eval vm_compute in map_root (rlp_encode <$> cleared_accounts).
Definition cleared_child : BlockHeader := make_header 1 genesis_hash cleared_root.

Definition cleared_node : FullState := node_before cleared_child.
Definition cleared_input : ClientExecutorInput := input_for cleared_child [bump_tx] [].

Definition cleared_run : outcome ProviderError (outcome BlockExecutionErr BlockExecutionOutput) * FullState :=
  run_program (execute_block () (current_block cleared_input)) cleared_node.

(** C12: An account without its storage trie loses its slots: there is an honest
    chain, world and input on which [execute] returns a header although the state
    root in it is not the root after the block.  The input leaves out the storage
    trie of an account whose nonce the block changes, and
    [update_from_bundle_state] takes the missing trie for an empty one and writes
    the empty storage root. *)
Theorem execute_accepts_missing_storage_trie :
  honest_hashes cleared_node cleared_input ∧
  ∃ header output,
    execute Mainnet cleared_input = Ok header ∧
    cleared_run = (Ok (Ok output), cleared_node) ∧
    hd_state_root header ≠ world_root (apply_bundle (fs_world cleared_node) (output_state output)).
Proof.
  split.
  - apply input_honest; [vm_compute; reflexivity|]. intros e He. by apply not_elem_of_nil in He.
  - assert (match execute Mainnet cleared_input with
            | Ok header => differ (hd_state_root header)
                             (world_root (apply_bundle parent_world (reported cleared_run)))
            | _ => false
            end = true) as Hok by (vm_compute; reflexivity).
    assert (match cleared_run.1 with Ok (Ok _) => true | _ => false end = true) as Hrun
      by (vm_compute; reflexivity).
    destruct (execute Mainnet cleared_input) as [header| | |]; try discriminate Hok.
    pose proof (full_run_state (execute_block () (current_block cleared_input)) cleared_node) as Hstate.
    fold cleared_run in Hstate. destruct cleared_run as [[[output| | |]| | |] fs]; try discriminate Hrun.
    cbn [snd] in Hstate. subst fs.
    exists header, output. refine (conj eq_refl (conj eq_refl _)). by apply differ_ok.
Qed.
