(* ===== verification/FromProofSamples.v ===== *)
(** * The host's theorems at a concrete block

    Three accounts; the block clears one of Alice's slots, so that a leaf of her
    storage trie moves up, and removes Bob.  A provider proves Alice with her slot,
    and Bob, before and after.  On the tries the host makes of the proofs another
    block is written in two orders. *)

From S2P Require Import Prelude External Concrete Node Hp Mpt Trie TrieLaws TrieHash MptSpec.
From S2P Require Import TrieMap View Stateless Codec CodecLaws Decode Evm ConcreteEvm State.
From S2P Require Import StateSpec UpdateOrder Samples Client ClientSpec Executor Execute ExecuteSpec ClientSamples.
From S2P Require Import Owned Growth Expand ProofNodes FromProof ResolveSpec ProofStore FromProofSpec.
From S2P Require Import TransitionSpec Loose OrphanSpec WitnessUpdate Resolver ResolverSpec PayloadSpec.

(** ** Deciding the hypotheses *)

Section checks.
Context `{EvmOk, !CratesOk}.

Definition distinct_check (l : list bytes) : bool := no_confusion l l.

Lemma distinct_check_ok l : distinct_check l = true → no_collision l.
Proof. intros Hc x y Hx Hy. by apply (no_confusion_spec l l). Qed.

Definition indexable_check (t : trie) : bool := (N.of_nat (S (trie_size t)) <? u32_modulus)%N.

Lemma indexable_check_ok t : indexable_check t = true → indexable t.
Proof. unfold indexable_check, indexable. by intros ?%N.ltb_lt. Qed.

Definition is_null_trie (t : trie) : bool := match t with TNull => true | _ => false end.

Lemma map_trie_full M : keys32 M → sized_check (map_trie M) = true → full (map_trie M).
Proof.
  intros HM Hs. destruct (map_trie_ok 32 M HM) as ([Hn|Hct] & _ & Hr & _); [by left|right].
  split_and!; [done|done|by apply sized_check_ok].
Qed.

Lemma map_trie_known M :
  keys32 M → sized_check (map_trie M) = true → is_null_trie (map_trie M) = false → known (map_trie M).
Proof. intros HM Hs Hn. destruct (map_trie_full M HM Hs) as [He|Hk]; [by rewrite He in Hn|done]. Qed.

Definition pair_check (T T' : trie) (keys' : list bytes) : bool :=
  sized_check T && sized_check T' && indexable_check T && indexable_check T' &&
  forallb sized_check (keys' ≫= orphans T') &&
  distinct_check ([EMPTY_STRING_CODE] :: pool_of T T' keys') && distinct_check ([EMPTY_STRING_CODE] :: encodings T').

Lemma pair_check_ok M M' keys' :
  keys32 M → keys32 M' → pair_check (map_trie M) (map_trie M') keys' = true →
  trie_pair (map_trie M) (map_trie M') keys'.
Proof.
  intros HM HM' Hc. unfold pair_check in Hc. apply andb_prop in Hc as [Hc Hd']. apply andb_prop in Hc as [Hc Hd].
  apply andb_prop in Hc as [Hc Ho]. apply andb_prop in Hc as [Hc Hi']. apply andb_prop in Hc as [Hc Hi].
  apply andb_prop in Hc as [Hs Hs'].
  split; [by apply map_trie_full|by apply map_trie_full|exact (indexable_check_ok _ Hi)|
    exact (indexable_check_ok _ Hi')| |exact (distinct_check_ok _ Hd)|exact (distinct_check_ok _ Hd')].
  apply Forall_forall. intros u Hu. rewrite forallb_forall in Ho.
  apply sized_check_ok, Ho. by apply list_elem_of_In.
Qed.

Definition proves_check (T : trie) (key : bytes) (proof : list bytes) : bool :=
  bool_decide (proof = proof_of T key) || (is_null_trie T && bool_decide (proof = [[EMPTY_STRING_CODE]])).

Lemma proves_check_ok T key proof : proves_check T key proof = true → proves T key proof.
Proof.
  intros [Hp|[Hn Hp]%andb_prop]%orb_prop; apply bool_decide_eq_true in Hp; [by left|right].
  split; [by destruct T|done].
Qed.

Definition proven_check (W W' : World) (address : Address) (proof fini : AccountProof) : bool :=
  let h := keccak256 address in
  proves_check (state_tree W) (address_nibs address) (ap_proof proof) &&
  proves_check (state_tree W') (address_nibs address) (ap_proof fini) &&
  bool_decide (ap_storage_root proof = map_root (slot_trie (slots W h))) &&
  forallb (λ sp, proves_check (slots_tree W h) (slot_nibs sp) (sp_proof sp)) (ap_storage_proofs proof) &&
  forallb (λ sp, proves_check (slots_tree W' h) (slot_nibs sp) (sp_proof sp)) (ap_storage_proofs fini) &&
  pair_check (slots_tree W h) (slots_tree W' h) (slot_nibs <$> ap_storage_proofs fini) &&
  negb (bool_decide (map_root (slot_trie (slots W h)) = B256_ZERO)).

Lemma forallb_elem {A} (f : A → bool) l x : forallb f l = true → x ∈ l → f x = true.
Proof. rewrite forallb_forall. intros Hall Hx. by apply Hall, list_elem_of_In. Qed.

Lemma proven_check_ok W W' address proof fini :
  world_ok W → world_ok W' → proven_check W W' address proof fini = true → proven W W' address proof fini.
Proof.
  intros HW HW' Hc. unfold proven_check in Hc. cbv zeta in Hc.
  apply andb_prop in Hc as [Hc Hz]. apply andb_prop in Hc as [Hc Hpair]. apply andb_prop in Hc as [Hc Hs'].
  apply andb_prop in Hc as [Hc Hs]. apply andb_prop in Hc as [Hc Hroot]. apply andb_prop in Hc as [Ha Ha'].
  split.
  - by apply proves_check_ok.
  - by apply proves_check_ok.
  - left. by apply bool_decide_eq_true in Hroot.
  - intros sp Hsp. apply proves_check_ok. by apply (forallb_elem _ _ _ Hs).
  - intros sp Hsp. apply proves_check_ok. by apply (forallb_elem _ _ _ Hs').
  - apply pair_check_ok; [by apply slots_keys32|by apply slots_keys32|done].
  - apply negb_true_iff in Hz. by apply bool_decide_eq_false in Hz.
Qed.
End checks.

(** ** The block *)

Definition slots_after : list (B256 * U256) := Eval vm_compute in [(slot_of 1, 300%N)].
Definition root_after : B256 := Eval vm_compute in map_root (slot_trie (list_to_map slots_after)).

Definition accounts_after : list (B256 * TrieAccount) :=
  Eval vm_compute in
  [(hash_of alice, mkTrieAccount 2 990 root_after no_code);
   (hash_of carol, mkTrieAccount 3 0 empty_root no_code)].

Definition world_after : World := world_of accounts_after [(hash_of alice, slots_after)].

Lemma sample_world_ok : world_ok sample_world.
Proof.
  apply world_of_ok.
  - repeat constructor; try (by_computation); vm_compute; reflexivity.
  - repeat constructor; try (by_computation).
Qed.

Lemma world_after_ok : world_ok world_after.
Proof.
  apply world_of_ok.
  - repeat constructor; try (by_computation); vm_compute; reflexivity.
  - repeat constructor; try (by_computation).
Qed.

Definition account_at (W : World) (h : B256) : option Account :=
  (λ a, mkAccount (ta_nonce a) (ta_balance a) (Some (ta_code_hash a))) <$> accounts W !! h.

(** What the provider answers about the account in a world, with some slots. *)
Definition answer (W : World) (address : Address) (keys : list U256) : AccountProof :=
  let h := keccak256 address in
  mkAccountProof address (account_at W h) (proof_of (state_tree W) (address_nibs address))
    (map_root (slot_trie (slots W h)))
    ((λ k, let key := u256_to_be_bytes k in
           mkStorageProof key (default 0%N (slots W h !! keccak256 key)) (proof_of (slots_tree W h) (to_nibs (keccak256 key)))) <$> keys).

Definition alice_before : AccountProof := Eval vm_compute in answer sample_world alice [0%N].
Definition alice_after : AccountProof := Eval vm_compute in answer world_after alice [0%N].
Definition bob_before : AccountProof := Eval vm_compute in answer sample_world bob [].
Definition bob_after : AccountProof := Eval vm_compute in answer world_after bob [].

Definition proofs_before : list (Address * AccountProof) := [(alice, alice_before); (bob, bob_before)].
Definition proofs_after : gmap Address AccountProof := <[alice := alice_after]> {[bob := bob_after]}.

Definition proofs_check (W W' : World) (parents : list (Address * AccountProof))
    (proofs : gmap Address AccountProof) : bool :=
  pair_check (state_tree W) (state_tree W') ((λ e, address_nibs e.1) <$> parents) &&
  negb (bool_decide (world_root W = B256_ZERO)) &&
  bool_decide (NoDup (keccak256 ∘ fst <$> parents)) &&
  forallb (λ e, match proofs !! e.1 with Some fini => proven_check W W' e.1 e.2 fini | None => false end) parents.

Lemma proofs_check_ok W W' parents proofs :
  world_ok W → world_ok W' → proofs_check W W' parents proofs = true → honest_proofs W W' parents proofs.
Proof.
  intros HW HW' Hc. unfold proofs_check in Hc. apply andb_prop in Hc as [Hc Hall].
  apply andb_prop in Hc as [Hc Hnd]. apply andb_prop in Hc as [Hp Hz].
  split; [done|done| | | |].
  - exact (pair_check_ok _ _ _ (accounts_keys32 W HW) (accounts_keys32 W' HW') Hp).
  - apply negb_true_iff in Hz. exact (bool_decide_eq_false_1 _ Hz).
  - intros e He. pose proof (forallb_elem _ _ _ Hall He) as Hone. cbv beta in Hone.
    destruct (proofs !! e.1) as [fini|]; [|discriminate Hone]. exists fini. split; [reflexivity|].
    exact (proven_check_ok W W' e.1 e.2 fini HW HW' Hone).
  - exact (bool_decide_eq_true_1 _ Hnd).
Qed.

Lemma sample_proofs : honest_proofs sample_world world_after proofs_before proofs_after.
Proof.
  apply proofs_check_ok; [exact sample_world_ok|exact world_after_ok|]. vm_compute. reflexivity.
Qed.

Lemma transition_proofs_complete_witness :
  ∃ s, transition_proofs_to_tries 129 (world_root sample_world) proofs_before proofs_after = Ok s ∧
    (hash (state_trie s)).1 = Ok (world_root sample_world) ∧ witnesses sample_world proofs_before s.
Proof. exact (transition_proofs_complete 129 _ _ _ _ (Nat.le_refl _) sample_proofs). Defined.

Lemma circular_proof_never_resolves_witness :
  transition_proofs_to_tries 1000 empty_root
    [(alice, mkAccountProof alice None [digest_item (replicate 32 0%N)] empty_root [])]
    {[alice := mkAccountProof alice None [] empty_root []]} = OutOfFuel.
Proof. by apply (circular_proof_never_resolves 1000 _ _ _ _ None (mkAccountProof alice None [] empty_root [])). Defined.

(** ** The update on the host's tries *)

Definition host_bundle : BundleState := [alice_change [clear_0]; bob_change].

Lemma world_of_no_slots accts stor h : h ∉ stor.*1 → slots (world_of accts stor) h = ∅.
Proof.
  intros Hh. unfold world_of. cbn [slots]. rewrite not_elem_of_list_to_map_1; [done|].
  intros (e & -> & He)%list_elem_of_fmap. apply list_elem_of_fmap in He as (e' & -> & He').
  apply Hh. destruct e' as [h l]. by apply (list_elem_of_fmap_2 fst stor (h, l)).
Qed.

Lemma world_after_update : world_after ≡ apply_bundle sample_world host_bundle.
Proof.
  split; [vm_compute; reflexivity|]. intros h.
  change (slots world_after h = slots (apply_account (apply_account sample_world (alice_change [clear_0])) bob_change) h).
  destruct (decide (keccak256 bob = h)) as [<-|Hbob]; [vm_compute; reflexivity|].
  destruct (decide (keccak256 alice = h)) as [<-|Halice]; [vm_compute; reflexivity|].
  rewrite apply_account_elsewhere by exact Hbob. rewrite apply_account_elsewhere by exact Halice.
  assert ([(hash_of alice, slots_after)].*1 = [keccak256 alice]) as Hl by (vm_compute; reflexivity).
  assert (sample_storage.*1 = [keccak256 alice; keccak256 bob]) as Hl' by (vm_compute; reflexivity).
  unfold world_after, sample_world. rewrite !world_of_no_slots; [reflexivity| |].
  - rewrite Hl'. intros [->|[->|Hn%elem_of_nil]%elem_of_cons]%elem_of_cons; contradiction.
  - rewrite Hl. intros [->|Hn%elem_of_nil]%elem_of_cons; contradiction.
Qed.

(** The tries the host makes of the sample proofs. *)
Definition host_tries : EthereumState :=
  Eval vm_compute in match transition_proofs_to_tries 129 (world_root sample_world) proofs_before proofs_after with
                     | Ok s => s
                     | _ => new_state
                     end.

Lemma host_tries_built :
  transition_proofs_to_tries 129 (world_root sample_world) proofs_before proofs_after = Ok host_tries.
Proof. vm_compute. reflexivity. Qed.

Lemma host_changes_proven : changes_proven proofs_before proofs_after host_bundle.
Proof.
  intros e He. assert (e = alice_change [clear_0] ∨ e = bob_change) as [-> | ->] by set_solver.
  - split; [apply NoDup_singleton|]. exists alice_before, alice_after.
    split; [left|]. split; [vm_compute; reflexivity|]. intros _ w Hw.
    assert (w = clear_0) as -> by set_solver. split.
    + eexists. split; [left|vm_compute; reflexivity].
    + eexists. split; [left|vm_compute; reflexivity].
  - split; [apply NoDup_nil_2|]. exists bob_before, bob_after.
    split; [right; left|]. split; [vm_compute; reflexivity|]. intros _ w Hw. by apply elem_of_nil in Hw.
Qed.

Lemma host_witness_completes_block_witness :
  ∃ s' m', update_from_bundle_state host_bundle host_tries = (Ok (), s') ∧
    hash (state_trie s') = (Ok (world_root world_after), m').
Proof.
  apply (host_witness_completes_block 129 sample_world world_after proofs_before proofs_after).
  - exact (Nat.le_refl _).
  - exact sample_proofs.
  - exact world_after_update.
  - apply (bool_decide_eq_true_1 (distinct_accounts host_bundle)). vm_compute. reflexivity.
  - exact host_changes_proven.
  - exact host_tries_built.
  - vm_compute. reflexivity.
  - repeat constructor; vm_compute; reflexivity.
Defined.

(** C31: The orphans are what makes a deletion on the host's tries right.  The block
    clears a slot, so that the leaf beside it, which no proof before the block
    shows, moves up.  With the provider's proofs after the block,
    [add_orphaned_leafs] finds the moved leaf and enters the shortened forms it may
    have had, and the update leads to the state root of the world after the block.
    With the same proofs before and empty ones after it, so that no orphan is
    entered, the tries have the same root hash before the block, the update succeeds
    all the same, and the state root is a wrong one. *)
Theorem without_orphans_diverges :
  let no_proofs : gmap Address AccountProof :=
    <[alice := mkAccountProof alice None [] empty_root []]> {[bob := mkAccountProof bob None [] empty_root []]} in
  ∃ s s' m t t' m' root,
    transition_proofs_to_tries 129 (world_root sample_world) proofs_before proofs_after = Ok s ∧
    update_from_bundle_state host_bundle s = (Ok (), s') ∧
    hash (state_trie s') = (Ok (world_root world_after), m) ∧
    transition_proofs_to_tries 129 (world_root sample_world) proofs_before no_proofs = Ok t ∧
    (hash (state_trie t)).1 = (hash (state_trie s)).1 ∧
    update_from_bundle_state host_bundle t = (Ok (), t') ∧
    hash (state_trie t') = (Ok root, m') ∧ root ≠ world_root world_after.
Proof.
  intros no_proofs. do 7 eexists. split; [exact host_tries_built|].
  repeat (split; [vm_compute; reflexivity|]). vm_compute. discriminate.
Qed.

(** ** Two orders of a block on the host's tries *)

Definition bob_pays : Address * BundleAccount :=
  (bob, mkBundleAccount (Some (mkAccountInfo 4 1 no_code None)) [] EvmCodec.Changed).
Definition write_0 : U256 * StorageSlot := (0%N, mkStorageSlot 7 9).

Definition write_bundle : BundleState := [alice_change [write_0; write_2]; bob_pays].
Definition write_bundle' : BundleState := [bob_pays; alice_change [write_2; write_0]].

Lemma write_same_changes : same_changes write_bundle write_bundle'.
Proof.
  exists [bob_pays; alice_change [write_0; write_2]]. split; [apply perm_swap|].
  constructor; [apply same_account_refl; constructor|]. constructor; [|constructor].
  repeat split; [apply perm_swap|]. apply distinct_slots_check. vm_compute. reflexivity.
Qed.

Lemma host_tries_back : backs sample_world host_tries.
Proof.
  destruct (transition_proofs_built 129 _ _ _ _ (Nat.le_refl _) sample_proofs) as (s & Hs & Hb).
  rewrite host_tries_built in Hs. injection Hs as <-. exact (built_backs _ _ _ _ _ Hb).
Qed.

Definition after_writes : EthereumState := (update_from_bundle_state write_bundle host_tries).2.

Lemma bundle_update_order_independent_witness :
  update_from_bundle_state write_bundle host_tries = (Ok (), after_writes) ∧
  bundle_sees host_tries write_bundle ∧ bundle_sees host_tries write_bundle' ∧
  ∃ s2, update_from_bundle_state write_bundle' host_tries = (Ok (), s2) ∧
    (bundle_sees host_tries write_bundle → bundle_sees host_tries write_bundle' →
     backs (apply_bundle sample_world write_bundle) after_writes ∧
     backs (apply_bundle sample_world write_bundle') s2 ∧
     apply_bundle sample_world write_bundle ≡ apply_bundle sample_world write_bundle' ∧
     ∃ root m1 m2, hash (state_trie after_writes) = (Ok root, m1) ∧ hash (state_trie s2) = (Ok root, m2)).
Proof.
  assert (update_from_bundle_state write_bundle host_tries = (Ok (), after_writes)) as Hrun
    by (vm_compute; reflexivity).
  destruct (update_check_ok sample_world host_tries write_bundle) as [Hready Hsees]; [vm_compute; reflexivity|].
  destruct (update_check_ok sample_world host_tries write_bundle') as [_ Hsees']; [vm_compute; reflexivity|].
  split; [exact Hrun|]. split; [exact Hsees|]. split; [exact Hsees'|].
  exact (bundle_update_order_independent sample_world host_tries write_bundle write_bundle' after_writes
    host_tries_back Hready write_same_changes Hrun).
Defined.

(** ** The resolver *)

Lemma account_trie_known : known (map_trie (account_trie sample_world)).
Proof.
  apply map_trie_known; [exact (accounts_keys32 _ sample_world_ok)|vm_compute; reflexivity|vm_compute; reflexivity].
Qed.

Lemma account_trie_indexable : indexable (map_trie (account_trie sample_world)).
Proof. apply indexable_check_ok. vm_compute. reflexivity. Qed.

Lemma account_trie_distinct : no_collision (encodings (map_trie (account_trie sample_world))).
Proof. apply distinct_check_ok. vm_compute. reflexivity. Qed.

Lemma payloads_resolve_back_witness :
  ∃ ps m1 m2, payloads (state_trie sample_state) = (Ok ps, m1) ∧ same_nodes (state_trie sample_state) m1 ∧
    (hash (state_trie sample_state)).1 = Ok (map_root (account_trie sample_world)) ∧
    resolve (payload_store ps) 130 (map_root (account_trie sample_world)) = Ok m2 ∧
    holds 32 m2 (account_trie sample_world) ∧ (hash m2).1 = Ok (map_root (account_trie sample_world)).
Proof.
  apply (payloads_resolve_back 130).
  - exact (complete_state _ _ sample_complete).
  - exact account_trie_known.
  - exact account_trie_indexable.
  - exact (Nat.le_refl _).
  - exact account_trie_distinct.
Defined.

(** A store with the nodes of one account's path. *)
Definition bob_store : MptResolver := payload_store (proof_of (state_tree sample_world) (address_nibs bob)).

Lemma bob_store_in d b : bob_store !! d = Some b → d = keccak256 b ∧ b ∈ encodings (map_trie (account_trie sample_world)).
Proof.
  intros Hb. destruct (payload_store_lookup _ d b Hb) as [Hd Hin]. split; [exact Hd|].
  exact (proof_of_encodings _ _ _ Hin).
Qed.

Lemma resolver_builds_view_witness :
  ∃ m, resolve bob_store 130 (map_root (account_trie sample_world)) = Ok m ∧
    stands_for 32 m (account_trie sample_world) ∧ (hash m).1 = Ok (map_root (account_trie sample_world)) ∧
    ∀ key, byte_key 32 key → is_Some (bob_store !! map_root (account_trie sample_world)) →
      (∀ d, d ∈ path_digests (map_trie (account_trie sample_world)) (to_nibs key) → is_Some (bob_store !! d)) →
      get m key = Ok (account_trie sample_world !! key).
Proof.
  apply (resolver_builds_view 130).
  - exact (accounts_keys32 _ sample_world_ok).
  - exact account_trie_known.
  - exact account_trie_indexable.
  - exact (Nat.le_refl _).
  - intros d b Hb. exact (proj1 (bob_store_in d b Hb)).
  - intros d b y Hb Hy Heq. exact (account_trie_distinct b y (proj2 (bob_store_in d b Hb)) Hy Heq).
Defined.
