(* ===== verification/StreamSamples.v ===== *)
(** * The streaming client at a concrete input

    The guest on the hints the host writes for the sample block, and a block whose
    hints make the guest panic. *)

From S2P Require Import Prelude External Concrete Node Hp Mpt Trie MptSpec TrieMap Codec Decode Frontier Evm.
From S2P Require Import CodecLaws ConcreteEvm State StateSpec Samples Client ClientSpec Streaming Executor Execute.
From S2P Require Import StreamSpec ChunkSpec StreamUpdateSpec ExecuteStream Hints ExecuteStreamSpec Guest ExecuteSpec.
From S2P Require Import HintsSpec HintsFeed ClientSamples.

(** Hash maps visited in the order of the model's maps, and hints padded to
    words of four bytes. *)
#[export] Instance sample_order : CacheOrder := {| cache_entries := map_to_list |}.
#[export] Instance sample_order_ok : CacheOrderOk.
Proof. split. reflexivity. Qed.
#[export] Instance sample_host : CenoHost := {| WORD_ALIGNMENT := 4 |}.

(** ** The hints of the sample block *)

Definition written {E A} (o : outcome E (list A)) : list A :=
  match o with Ok l => l | _ => [] end.

Definition sample_hints := written (write_ceno_client_input [] sample_input).

Definition world_check (W : World) : bool :=
  bool_decide (is_Some (accounts W !! hash_of bob)) && sized_check (world_trie W) &&
  forallb (λ y, differ (keccak256 y) EMPTY_ROOT_HASH) (encodings (world_trie W)).

Lemma world_check_ok bufs W :
  world_check W = true → (∀ buf, bufs buf → authentic buf (world_trie W)) → secure_world bufs W.
Proof.
  intros [[Ha Hs]%andb_prop Hh]%andb_prop Hbufs. split.
  - intros Hemp. apply bool_decide_eq_true in Ha. rewrite Hemp in Ha. by destruct Ha.
  - by apply sized_check_ok.
  - intros y Hy. rewrite forallb_forall in Hh. apply differ_ok, Hh. by apply list_elem_of_In.
  - exact Hbufs.
Qed.

(** The tries a node of which must not be confused with what the hints hold: the
    empty one, the slots of Alice, and the accounts before and after the block. *)
Definition sample_tries : list trie :=
  [TNull; map_trie (slot_trie (slots parent_world (hash_of alice))); world_trie parent_world;
   world_trie (apply_bundle parent_world counter_bundle)].

Definition raw_check (hints : list hint) : bool :=
  no_confusion (concat (items_of <$> raw_hints hints)) (concat (encodings <$> sample_tries)) &&
  forallb (λ buf, N.of_nat (length buf) + 7 <? u32_modulus)%N (raw_hints hints).

Lemma concat_subseteq {A B} (f : A → list B) l x : x ∈ l → f x ⊆ concat (f <$> l).
Proof.
  intros Hx y Hy. apply list_elem_of_In, in_concat.
  exists (f x). split; [apply list_elem_of_In, list_elem_of_fmap; by exists x|by apply list_elem_of_In].
Qed.

Lemma raw_check_ok hints buf :
  raw_check hints = true → yields hints buf →
  (∀ T, T ∈ sample_tries → authentic buf T) ∧ (N.of_nat (length buf) + 7 < u32_modulus)%N.
Proof.
  intros [Hc Hl]%andb_prop Hy%hints_yield. split.
  - intros T HT. eapply no_confusion_authentic; [exact Hc|by apply concat_subseteq..].
  - rewrite forallb_forall in Hl. apply N.ltb_lt, Hl. by apply list_elem_of_In.
Qed.

Lemma other_slots h : h ≠ hash_of alice → slot_trie (slots parent_world h) = ∅.
Proof.
  intros Hne. unfold parent_world, world_of, parent_storage. cbn [slots].
  rewrite list_to_map_fmap, lookup_fmap. cbn [list_to_map foldr uncurry].
  rewrite lookup_insert_ne by (intros Heq; apply Hne; rewrite <-Heq; vm_compute; reflexivity).
  rewrite lookup_empty. apply fmap_empty.
Qed.

(** An account has a key of 32 bytes, and there are no bytecodes. *)
Definition plain_witness (w : ClientWitnessInput) : bool :=
  match w with
  | WitnessAccount input => bool_decide (byte_key 32 (ain_hashed_address input))
  | WitnessBytecode _ => false
  | _ => true
  end.

(** The report of the run on the stream. *)
Definition streamed_bundle {R} `{!ClientInputReader R} (cv : ChainVariant) (r : R) : BundleState :=
  let run :=
    '(ancestors, r1) ← read_from (E:=ClientExecutionError) read_ancestor_headers r;
    '(block, r2) ← read_from read_current_block r1;
    recovered ← map_err BlockSenderRecoveryError (try_into_recovered block);
    s ← build_streaming_state_from_input_reader ancestors r2;
    db ← from_streaming_parts s (bk_header block) ancestors;
    Ok (reported (run_program (execute_block (chain_spec cv) recovered) db)) in
  match run with Ok bundle => bundle | _ => [] end.

Lemma guest_output_streamed {R} `{!ClientInputReader R} cv (r : R) output :
  guest_output cv r output → output_state output = streamed_bundle cv r.
Proof.
  intros (ancestors & block & r' & recovered & s & db & db' & (r1 & Hanc & Hblk) & Hrec & Hs & Hdb & Hrun).
  unfold streamed_bundle, read_from. rewrite Hanc. cbn [mbind outcome_bind]. rewrite Hblk.
  cbn [mbind outcome_bind]. rewrite Hrec. cbn [map_err mbind outcome_bind]. rewrite Hs.
  cbn [mbind outcome_bind]. rewrite Hdb. cbn [mbind outcome_bind]. rewrite Hrun. done.
Qed.

(** The database of the guest before the block. *)
Definition start_on (hints : list hint) : outcome ClientExecutionError (StreamingDb (R:=list hint)) :=
  '(ancestors, r1) ← read_from read_ancestor_headers hints;
  '(block, r2) ← read_from read_current_block r1;
  s ← build_streaming_state_from_input_reader ancestors r2;
  from_streaming_parts s (bk_header block) ancestors.

Definition cache_check (W : World) (cache : gmap B256 (option TrieAccount)) : bool :=
  forallb (λ e, bool_decide (e.2 = accounts W !! e.1)) (map_to_list cache).

Lemma cache_check_ok W cache : cache_check W cache = true → true_cache W cache.
Proof.
  unfold cache_check. rewrite forallb_forall. intros Hc h a Ha.
  assert (In (h, a) (map_to_list cache)) as Hin by (apply list_elem_of_In; by apply elem_of_map_to_list).
  exact (bool_decide_eq_true_1 _ (Hc _ Hin)).
Qed.

(** A run of the transaction on the stream, and the update by what it reports. *)
Definition sample_update (db : StreamingDb (R:=list hint)) : bool :=
  match run_program (CounterEvm.run alice []) db with
  | (Ok (Ok _), db') =>
      cache_check parent_world (ss_account_cache (sd_state db')) &&
      succeeds ((streaming_update_from_bundle_state counter_bundle;; state_root) (sd_state db')).1
  | _ => false
  end.

(** Everything that is computed about the hints, in one place. *)
Definition hints_check (hints : list hint) : bool :=
  raw_check hints && forallb plain_witness (witness_hints hints) &&
  bundle_check (streamed_bundle Mainnet hints) counter_bundle &&
  succeeds (execute_from_reader Mainnet hints) &&
  match start_on hints with Ok db => sample_update db | _ => false end.

Lemma sample_checked :
  match write_ceno_client_input [] sample_input with Ok hints => hints_check hints | _ => false end = true.
Proof. vm_compute. reflexivity. Qed.

Lemma sample_hints_ok :
  write_ceno_client_input [] sample_input = Ok sample_hints ∧ hints_check sample_hints = true.
Proof.
  pose proof sample_checked as Hok. unfold sample_hints.
  destruct (write_ceno_client_input [] sample_input) as [hints| | |]; try discriminate Hok.
  exact (conj eq_refl Hok).
Qed.

Lemma sample_raw buf :
  yields sample_hints buf →
  (∀ T, T ∈ sample_tries → authentic buf T) ∧ (N.of_nat (length buf) + 7 < u32_modulus)%N.
Proof.
  destruct sample_hints_ok as [_ [[[[Hraw _]%andb_prop _]%andb_prop _]%andb_prop _]%andb_prop].
  exact (raw_check_ok _ buf Hraw).
Qed.

Lemma sample_plain w : offers sample_hints w → plain_witness w = true.
Proof.
  destruct sample_hints_ok as [_ [[[[_ Hp]%andb_prop _]%andb_prop _]%andb_prop _]%andb_prop].
  exact (witness_hints_check _ _ Hp w).
Qed.

Lemma sample_streamed : streamed_bundle Mainnet sample_hints = counter_bundle.
Proof.
  destruct sample_hints_ok as [_ [[[_ Hd]%andb_prop _]%andb_prop _]%andb_prop].
  exact (bundle_check_ok _ _ Hd).
Qed.

Lemma sample_executes : succeeds (execute_from_reader Mainnet sample_hints) = true.
Proof. destruct sample_hints_ok as [_ [[_ Hd]%andb_prop _]%andb_prop]. exact Hd. Qed.

Definition sample_start := start_on sample_hints.

Lemma sample_update_ok : ∃ db, sample_start = Ok db ∧ sample_update db = true.
Proof.
  destruct sample_hints_ok as [_ [_ Hok]%andb_prop]. unfold sample_start.
  destruct (start_on sample_hints) as [db| | |]; try discriminate Hok. exists db. exact (conj eq_refl Hok).
Qed.

Lemma sample_honest_stream : honest_stream sample_node sample_hints.
Proof.
  split.
  - apply parent_world_ok.
  - intros input Hoff. exact (bool_decide_eq_true_1 _ (sample_plain _ Hoff)).
  - intros code Hoff. discriminate (sample_plain _ Hoff).
  - intros h buf _ Hy. destruct (sample_raw buf Hy) as [Ha Hl].
    change (fs_world sample_node) with parent_world.
    assert (addressable buf) as Hlen by (unfold addressable; lia).
    destruct (decide (h = hash_of alice)) as [->|Hne].
    + destruct counter_trusted as [? ? ? _ _]. split; try assumption. apply Ha. by right; left.
    + rewrite other_slots by exact Hne. split; [constructor|by intros []|by intros []| |exact Hlen].
      apply Ha. left.
Qed.

Lemma sample_streamable : streamable parent_world sample_hints counter_bundle.
Proof.
  split.
  - apply NoDup_singleton.
  - apply Forall_singleton. split.
    + split; [|apply Forall_singleton]; by_computation.
    + intros Hn. discriminate Hn.
    + intros buf Hy. destruct (sample_raw buf Hy) as [_ Hl]. cbn [length counter_bundle ba_storage snd] in *. lia.
    + intros t _ _. apply slots_written_see. reflexivity.
  - intros l1 l2 Hl. assert (l1 = [] ∨ l1 = counter_bundle) as Hl1.
    { apply Permutation_length_1_inv in Hl. destruct l1 as [|e l1]; [by left|right].
      destruct l1; [|discriminate Hl]. injection Hl as Hl _. by rewrite Hl. }
    destruct Hl1 as [-> | ->]; (apply world_check_ok; [vm_compute; reflexivity|]);
      intros buf Hy; destruct (sample_raw buf Hy) as [Ha _]; apply Ha; [by do 2 right; left|by do 3 right; left].
  - intros buf Hy. destruct (sample_raw buf Hy) as [Ha _]. apply Ha. left.
  - intros buf Hy. destruct (sample_raw buf Hy) as [_ Hl]. cbn [length counter_bundle]. lia.
Qed.

Lemma sample_reads ancestors block r :
  reads_block sample_hints ancestors block r → block_of_chain sample_node (bk_header block) ancestors.
Proof.
  destruct sample_hints_ok as [Hw _]. intros Hr. destruct (written_block _ _ _ _ _ Hw Hr) as [-> ->].
  exact (honest_block _ _ sample_honest).
Qed.

Lemma sample_output_streamable output :
  guest_output Mainnet sample_hints output →
  streamable (fs_world sample_node) sample_hints (output_state output).
Proof.
  intros Hg. rewrite (guest_output_streamed Mainnet sample_hints output Hg), sample_streamed.
  exact sample_streamable.
Qed.

Lemma execute_from_reader_sound_witness :
  ∃ header ancestors block r recovered output,
    execute_from_reader Mainnet sample_hints = Ok header ∧
    reads_block sample_hints ancestors block r ∧ try_into_recovered block = Ok recovered ∧
    validate_pre (chain_spec Mainnet) recovered = Ok () ∧
    run_program (execute_block (chain_spec Mainnet) recovered) sample_node = (Ok (Ok output), sample_node) ∧
    hd_state_root header = world_root (apply_bundle (fs_world sample_node) (output_state output)) ∧
    hd_state_root header = hd_state_root (bk_header block) ∧
    hd_number header = hd_number (bk_header block) ∧
    hd_parent_hash header = hd_parent_hash (bk_header block).
Proof.
  pose proof sample_executes as Hok.
  destruct (execute_from_reader Mainnet sample_hints) as [header| | |] eqn:Hrun; try discriminate Hok.
  destruct (execute_from_reader_sound Mainnet sample_node sample_hints header sample_reads
    sample_honest_stream sample_output_streamable Hrun) as (ancestors & block & r & recovered & output & Hall).
  exists header, ancestors, block, r, recovered, output. refine (conj eq_refl Hall).
Defined.

Lemma header_hash_key (hd : BlockHeader) : byte_key 32 (header_hash_slow hd).
Proof. split; [apply keccak_output_u8|apply keccak_output_length]. Qed.

Lemma sample_digest : match guest_main sample_hints with Ok _ => true | _ => false end = true.
Proof. vm_compute. reflexivity. Qed.

Lemma guest_commits_valid_block_witness :
  ∃ words, guest_main sample_hints = Ok words ∧ length words = 8 ∧
  ∃ header ancestors block r recovered output,
    words ≫= u32_to_le = header_hash_slow header ∧
    reads_block sample_hints ancestors block r ∧ try_into_recovered block = Ok recovered ∧
    validate_pre mainnet recovered = Ok () ∧
    run_program (execute_block mainnet recovered) sample_node = (Ok (Ok output), sample_node) ∧
    hd_state_root header = world_root (apply_bundle (fs_world sample_node) (output_state output)) ∧
    hd_state_root header = hd_state_root (bk_header block) ∧
    hd_number header = hd_number (bk_header block) ∧
    hd_parent_hash header = hd_parent_hash (bk_header block).
Proof.
  pose proof sample_digest as Hok.
  destruct (guest_main sample_hints) as [words| | |] eqn:Hrun; try discriminate Hok.
  exists words. split; [reflexivity|].
  exact (guest_commits_valid_block sample_node sample_hints words header_hash_key sample_reads
    sample_honest_stream sample_output_streamable Hrun).
Defined.

(** The transaction loads its contract before it reads the contract's storage. *)
Lemma sample_accounts_first recovered :
  try_into_recovered (current_block sample_input) = Ok recovered →
  accounts_first [] (execute_block mainnet recovered).
Proof.
  intros _. apply execute_block_accounts_first; [done| |done]. intros tx e. cbn [execute_transaction concrete_reth].
  unfold CounterEvm.run. repeat case_match; cbn [accounts_first]; repeat split; set_solver.
Qed.

Lemma hints_feed_execution_witness :
  write_ceno_client_input [] sample_input = Ok sample_hints ∧
  ∃ header order output s frontier rest,
    execute_recording_witness_order Mainnet sample_input = Ok (header, order) ∧ client_reports sample_input output ∧
    ss_input s = new_cell (write_raw_hint_bytes [] (mf_bytes frontier) ++ rest) ∧
    execute_from_reader Mainnet sample_hints =
      (actual ← streaming_updated_root (output_state output) s;
       if decide (actual ≠ hd_state_root (bk_header (current_block sample_input))) then
         Err (StateRootMismatch actual (hd_state_root (bk_header (current_block sample_input))))
       else Ok header).
Proof.
  destruct sample_hints_ok as [Hw _].
  exact (conj Hw (hints_feed_execution sample_input sample_hints Hw sample_accounts_first)).
Defined.

Lemma sample_start_ok db :
  sample_start = Ok db →
  loading sample_hints (sd_state db) ∧
  ss_parent_state_root (sd_state db) = world_root (fs_world sample_node) ∧
  ∀ n h, sd_block_hashes db !! n = Some h → header_hash_slow <$> fs_chain sample_node n = Some h.
Proof.
  unfold sample_start, start_on. intros ([ancestors r1] & Hanc%read_from_inv & Hrun)%outcome_bind_inv.
  apply outcome_bind_inv in Hrun as ([block r2] & Hblk%read_from_inv & Hrun).
  apply outcome_bind_inv in Hrun as (s & Hs & Hdb). cbn [fst snd] in *.
  assert (reads_block sample_hints ancestors block r2) as Hreads by (exists r1; exact (conj Hanc Hblk)).
  pose proof (sample_reads _ _ _ Hreads) as Hbc.
  apply from_streaming_parts_inv in Hdb as (-> & capacity & Hhashes).
  destruct (block_hashes_true _ _ _ _ _ Hbc Hhashes) as [Hl Htrue].
  destruct (fresh_state sample_hints _ _ _ (reads_block_rtc _ _ _ _ Hreads) Hs) as (Hload & parent & Hp & Hroot).
  split; [exact Hload|]. split; [|exact Htrue]. rewrite Hroot.
  destruct ancestors as [|p rest]; [discriminate Hp|]. injection Hp as ->.
  exact (parent_state_root _ _ _ _ Hbc Hl).
Qed.

Lemma streaming_execution_is_full_execution_witness :
  ∃ db a db', sample_start = Ok db ∧ run_program (CounterEvm.run alice []) db = (Ok (Ok a), db') ∧
    run_program (CounterEvm.run alice []) sample_node = (Ok (Ok a), sample_node).
Proof.
  destruct sample_update_ok as (db & Hdb & Hok). destruct (sample_start_ok db Hdb) as (Hl & _ & Hhashes).
  unfold sample_update in Hok.
  destruct (run_program (CounterEvm.run alice []) db) as [[[a| | |]| | |] db'] eqn:Hrun; try discriminate Hok.
  apply andb_prop in Hok as [Hcache _].
  exists db, a, db'. refine (conj Hdb (conj Hrun _)).
  exact (streaming_execution_is_full_execution sample_node sample_hints _ db _ db' sample_honest_stream Hl
    Hhashes Hrun (cache_check_ok _ _ Hcache)).
Defined.

Lemma streaming_update_checks_accounts_witness :
  ∃ db a db' root s', sample_start = Ok db ∧ run_program (CounterEvm.run alice []) db = (Ok (Ok a), db') ∧
    (streaming_update_from_bundle_state counter_bundle;; state_root) (sd_state db') = (Ok root, s') ∧
    (∀ h account, ss_account_cache (sd_state db') !! h = Some account → account = accounts parent_world !! h) ∧
    root = world_root (apply_bundle parent_world counter_bundle).
Proof.
  destruct sample_update_ok as (db & Hdb & Hok). destruct (sample_start_ok db Hdb) as (Hl & Hroot & _).
  unfold sample_update in Hok.
  destruct (run_program (CounterEvm.run alice []) db) as [[[a| | |]| | |] db'] eqn:Hrun; try discriminate Hok.
  apply andb_prop in Hok as [_ Hup].
  destruct ((streaming_update_from_bundle_state counter_bundle;; state_root) (sd_state db'))
    as [[root| | |] s'] eqn:Hs; try discriminate Hup.
  exists db, a, db', root, s'. refine (conj Hdb (conj Hrun (conj Hs _))).
  destruct (streaming_run sample_node sample_hints _ sample_honest_stream db _ db' Hl Hrun) as (Hl' & Hg & _).
  refine (streaming_update_checks_accounts sample_node sample_hints counter_bundle (sd_state db') root s'
    sample_honest_stream sample_streamable Hl' _ Hs).
  rewrite (grows_root _ _ Hg). exact Hroot.
Defined.

(** ** A storage witness after a chunk

    The block sets a slot of Alice that it does not read, so her storage trie is
    not read during execution, and the host puts it after the chunk of her
    account. *)

Definition blind_tx : bytes := 2%N :: alice.

Definition blind_bundle : BundleState :=
  [(alice, mkBundleAccount (Some (mkAccountInfo 1000 2 no_code None)) [(1%N, mkStorageSlot 0 5)] EvmCodec.Changed)].
Definition blind_root : B256 :=
  Eval vm_compute in world_root (apply_bundle parent_world blind_bundle).
Definition blind_child : BlockHeader := make_header 1 genesis_hash blind_root.
Definition blind_node : FullState := node_before blind_child.
Definition blind_input : ClientExecutorInput :=
  input_for blind_child [blind_tx] [(hash_of alice, 1, counter_buf)].

Definition panicked_borrow {E A} (o : outcome E A) : bool :=
  match o with Panic AlreadyBorrowed => true | _ => false end.

Lemma panicked_borrow_ok {E A} (o : outcome E A) : panicked_borrow o = true → o = Panic AlreadyBorrowed.
Proof. by destruct o as [| |[]|]. Qed.

(** C13: The guest cannot read a storage trie after a chunk: there is an honest
    chain, world and input on which the client returns a header with the right
    state root and the host writes the hints, but the guest, run on these very
    hints, panics.  The [match] on the next witness holds the mutable borrow of the
    input while its arm borrows the input again to read the trie. *)
Theorem storage_witness_after_chunk_panics :
  honest_hashes blind_node blind_input ∧
  ∃ header hints,
    execute Mainnet blind_input = Ok header ∧
    hd_state_root header = world_root (apply_bundle parent_world blind_bundle) ∧
    write_ceno_client_input [] blind_input = Ok hints ∧
    execute_from_reader Mainnet hints = Panic AlreadyBorrowed.
Proof.
  split.
  - apply input_honest; [vm_compute; reflexivity|]. intros e He. by apply list_elem_of_singleton in He.
  - assert (match execute Mainnet blind_input with
            | Ok header => negb (differ (hd_state_root header) blind_root)
            | _ => false
            end = true) as Hok by (vm_compute; reflexivity).
    assert (match write_ceno_client_input [] blind_input with
            | Ok hints => panicked_borrow (execute_from_reader Mainnet hints)
            | _ => false
            end = true) as Hguest by (vm_compute; reflexivity).
    destruct (execute Mainnet blind_input) as [header| | |]; try discriminate Hok.
    destruct (write_ceno_client_input [] blind_input) as [hints| | |]; try discriminate Hguest.
    exists header, hints. split; [reflexivity|]. split; [|split; [reflexivity|by apply panicked_borrow_ok]].
    unfold differ in Hok. rewrite negb_involutive in Hok. apply bool_decide_eq_true in Hok.
    rewrite Hok. vm_compute. reflexivity.
Qed.
