(* ===== verification/RpcSamples.v ===== *)
(** * The host's executor at a concrete block

    A provider on a chain of two blocks whose second bumps a counter in a contract's
    storage. *)

From S2P Require Import Prelude External Concrete Node Hp Mpt Trie TrieLaws TrieHash MptSpec.
From S2P Require Import TrieMap View Stateless Codec CodecLaws Decode Evm ConcreteEvm State.
From S2P Require Import StateSpec Samples Client ClientSpec Executor Execute ExecuteSpec ClientSamples.
From S2P Require Import Owned Growth Expand ProofNodes FromProof ResolveSpec ProofStore FromProofSpec.
From S2P Require Import TransitionSpec Loose OrphanSpec WitnessUpdate Handover FromProofSamples.
From S2P Require Import Rpc RpcSpec Replay HostProofs HostSpec.

(** ** The provider *)

(** The changes as the host reports them: the account has its code. *)
Definition rpc_bundle : BundleState :=
  [(alice, mkBundleAccount (Some (mkAccountInfo 1000 2 no_code (Some [])))
             [(0%N, mkStorageSlot 7 8)] EvmCodec.Changed)].

Definition child_world : World := apply_bundle parent_world rpc_bundle.

Definition world_at (block : u64) : World := if (block =? 0)%N then parent_world else child_world.

(** [eth_getProof] in a world. *)
Definition proof_response (W : World) (address : Address) (keys : list B256) : EIP1186AccountProofResponse B256 :=
  let h := keccak256 address in
  let account := accounts W !! h in
  mkEIP1186AccountProofResponse B256 address
    (match account with Some a => ta_balance a | None => 0%N end)
    (match account with Some a => ta_code_hash a | None => no_code end)
    (match account with Some a => ta_nonce a | None => 0%N end)
    (match account with Some a => ta_storage_root a | None => EMPTY_ROOT_HASH end)
    (proof_of (state_tree W) (address_nibs address))
    ((λ k, mkEIP1186StorageProof B256 k (default 0%N (slots W h !! keccak256 k))
             (proof_of (slots_tree W h) (to_nibs (keccak256 k)))) <$> keys).

Definition rpc_block (number : u64) : option Block :=
  if (number =? 0)%N then Some (mkBlock genesis [])
  else if (number =? 1)%N then Some sample_block else None.

#[export] Instance sample_provider : Provider := {
  TransportError := unit;
  JsonStorageKey := B256;
  as_b256 k := k;
  get_proof address keys block := Ok (proof_response (world_at block) address keys);
  get_code_at address block := Ok [];
  get_storage_at address index block :=
    Ok (default 0%N (slots (world_at block) (keccak256 address) !! keccak256 (u256_to_be_bytes index)));
  RpcBlock := BlockHeader;
  rpc_block_hash := header_hash_slow;
  rpc_block_header h := h;
  FullRpcBlock := Block;
  into_consensus b := b;
  get_block_by_number number := Ok (bk_header <$> rpc_block number);
  get_full_block_by_number number := Ok (rpc_block number);
  Bytecode_new_raw code := code;
  KECCAK_EMPTY := no_code;
  MAINNET := ();
  basic_execute := execute_block;
}.

(** ** Deciding the hypotheses *)

Section checks.
Context `{Provider, !EvmOk, !CratesOk}.

Definition provable_check (W W' : World) (bundle : BundleState) (requests : gmap Address (list U256)) : bool :=
  let addresses := (map_to_list requests).*1 in
  pair_check (state_tree W) (state_tree W') (address_nibs <$> addresses) &&
  negb (bool_decide (world_root W = B256_ZERO)) &&
  forallb (λ a, pair_check (slots_tree W (keccak256 a)) (slots_tree W' (keccak256 a)) (key_nibs <$> modified_keys bundle a) &&
                negb (bool_decide (map_root (slot_trie (slots W (keccak256 a))) = B256_ZERO))) addresses &&
  distinct_check addresses.

Lemma provable_check_ok W W' bundle requests :
  world_ok W → world_ok W' → provable_check W W' bundle requests = true → provable W W' bundle requests.
Proof.
  intros HW HW' Hc. unfold provable_check in Hc. cbv zeta in Hc.
  apply andb_prop in Hc as [Hc Hd]. apply andb_prop in Hc as [Hc Hall]. apply andb_prop in Hc as [Hp Hz].
  assert (∀ a, is_Some (requests !! a) → a ∈ (map_to_list requests).*1) as Hin.
  { intros a [used Hu]. apply (list_elem_of_fmap_2 fst _ (a, used)). by apply elem_of_map_to_list. }
  split.
  - exact (pair_check_ok _ _ _ (accounts_keys32 W HW) (accounts_keys32 W' HW') Hp).
  - apply negb_true_iff in Hz. exact (bool_decide_eq_false_1 _ Hz).
  - intros a Ha%Hin. pose proof (forallb_elem _ _ _ Hall Ha) as Hone. apply andb_prop in Hone as [Hone _].
    exact (pair_check_ok _ _ _ (slots_keys32 W _ HW) (slots_keys32 W' _ HW') Hone).
  - intros a Ha%Hin. pose proof (forallb_elem _ _ _ Hall Ha) as Hone. apply andb_prop in Hone as [_ Hone].
    apply negb_true_iff in Hone. exact (bool_decide_eq_false_1 _ Hone).
  - exact (distinct_check_ok _ Hd).
Qed.

Definition codes_check `{EqDecision Bytecode} (codes : list Bytecode) : bool :=
  forallb (λ c, forallb (λ c', bool_decide (bytecode_hash_slow c = bytecode_hash_slow c' → c = c')) codes) codes.

Lemma codes_check_ok `{EqDecision Bytecode} codes : codes_check codes = true → codes_apart codes.
Proof.
  intros Hc c c' Hin Hin'. pose proof (forallb_elem _ _ _ (forallb_elem _ _ _ Hc Hin) Hin') as Hone.
  by apply bool_decide_eq_true in Hone.
Qed.

Definition recorded_check (db : RpcDb) (bundle : BundleState) : bool :=
  forallb (λ e, bool_decide (is_Some (rd_accounts db !! e.1))) bundle.

Lemma recorded_check_ok db bundle e :
  recorded_check db bundle = true → e ∈ bundle → is_Some (rd_accounts db !! e.1).
Proof. intros Hc He. pose proof (forallb_elem _ _ _ Hc He) as Hone. by apply bool_decide_eq_true in Hone. Qed.

Definition room_check (s : EthereumState) (bundle : BundleState) : bool :=
  (N.of_nat (num_nodes (state_trie s)) + 3 * N.of_nat (length bundle) + 3 <? u32_modulus)%N &&
  forallb (λ e, (N.of_nat (num_nodes (start_trie s (keccak256 e.1) e.2)) +
                  3 * N.of_nat (length (ba_storage e.2)) + 3 <? u32_modulus)%N) bundle.

Definition fits_check (i : ClientExecutorInput) (bundle : BundleState) : bool :=
  let b := parent_state_bytes i in
  (N.of_nat (length (sb_state_trie b).2) + 1 <? u32_modulus)%N &&
  forallb (λ o, N.of_nat (length o.2) + 1 <? u32_modulus)%N (sb_storage_tries b) &&
  match build i with Ok iws => room_check (state iws) bundle | _ => true end.

Lemma fits_check_ok i bundle : fits_check i bundle = true → input_fits i bundle.
Proof.
  unfold fits_check. cbv zeta. intros Hc. apply andb_prop in Hc as [Hc Hb]. apply andb_prop in Hc as [Hs Ht]. split.
  - split; [by apply N.ltb_lt in Hs|]. intros o Ho. pose proof (forallb_elem _ _ _ Ht Ho) as Hone. by apply N.ltb_lt in Hone.
  - intros iws Hiws. rewrite Hiws in Hb. apply andb_prop in Hb as [Hacc Hslots]. split; [by apply N.ltb_lt in Hacc|].
    apply Forall_forall. intros e He. pose proof (forallb_elem _ _ _ Hslots He) as Hone. by apply N.ltb_lt in Hone.
Qed.
End checks.

(** ** The worlds and the chain *)

Lemma child_world_ok : world_ok child_world.
Proof.
  change child_world with (apply_account parent_world (alice, mkBundleAccount (Some (mkAccountInfo 1000 2 no_code (Some [])))
    [(0%N, mkStorageSlot 7 8)] EvmCodec.Changed)).
  apply apply_account_ok; [exact parent_world_ok|]. split.
  - split; [vm_compute; reflexivity|]. split; [vm_compute; reflexivity|]. vm_compute. reflexivity.
  - repeat constructor; vm_compute; reflexivity.
Qed.

Lemma parent_accounts_cases h a :
  accounts parent_world !! h = Some a → ta_code_hash a = no_code ∧ ta_balance a ≠ 0%N.
Proof.
  intros Ha. assert ((h, a) ∈ parent_accounts) as Hin by exact (elem_of_list_to_map_2 _ _ _ Ha).
  assert (forallb (λ e : B256 * TrieAccount, bool_decide (ta_code_hash e.2 = no_code) && negb (ta_balance e.2 =? 0)%N) parent_accounts = true)
    as Hall by (vm_compute; reflexivity).
  pose proof (forallb_elem _ _ _ Hall Hin) as Hone. apply andb_prop in Hone as [Hc Hb]. split.
  - exact (bool_decide_eq_true_1 _ Hc).
  - apply negb_true_iff, N.eqb_neq in Hb. exact Hb.
Qed.

Lemma proof_response_answers W address keys : answers W address keys (proof_response W address keys).
Proof.
  unfold proof_response. split; cbn [er_address er_balance er_nonce er_storage_hash er_account_proof er_storage_proof].
  - reflexivity.
  - destruct (accounts W !! keccak256 address); [auto|]. split; [reflexivity|]. split; [reflexivity|]. left. reflexivity.
  - left. reflexivity.
  - induction keys as [|k keys IH]; [reflexivity|]. cbn [fmap list_fmap]. f_equal. exact IH.
  - intros sp Hsp. apply list_elem_of_fmap in Hsp as (k & -> & _). left. reflexivity.
Qed.

Lemma sample_honest_provider : honest_provider parent_world child_world (chain_to child) 1.
Proof.
  split.
  - intros address keys. eexists. split; [reflexivity|]. exact (proof_response_answers _ _ _).
  - intros address keys. eexists. split; [reflexivity|]. exact (proof_response_answers _ _ _).
  - intros address. exists []. split; [reflexivity|]. unfold code_hash_in.
    destruct (accounts parent_world !! keccak256 address) as [a|] eqn:Ha; [|vm_compute; reflexivity].
    destruct (parent_accounts_cases _ _ Ha) as [-> _]. vm_compute. reflexivity.
  - intros address index. reflexivity.
  - intros i Hi. assert (i = 0%N) as -> by (apply N.lt_1_r; exact Hi). exists genesis. split; [reflexivity|]. split; reflexivity.
  - intros i [->|Hi].
    + exists sample_block. split; reflexivity.
    + assert (i = 0%N) as -> by exact Hi. exists (mkBlock genesis []). split; reflexivity.
Qed.

Lemma sample_setting : honest_setting parent_world child_world (chain_to child) 1.
Proof.
  split.
  - exact parent_world_ok.
  - exact child_world_ok.
  - exact (honest_chain _ _ sample_honest).
  - discriminate.
  - intros hd Hhd. assert (hd = genesis) as -> by (injection Hhd as <-; reflexivity). vm_compute. reflexivity.
  - intros hd Hhd. assert (hd = child) as -> by (injection Hhd as <-; reflexivity). vm_compute. reflexivity.
  - intros h a Ha (Hb & _). destruct (parent_accounts_cases _ _ Ha) as [_ Hne]. exact (Hne Hb).
  - exact sample_honest_provider.
Qed.

Definition sample_recovered : RecoveredBlock := sample_block.

Lemma sample_rules : same_rules 1 sample_recovered.
Proof.
  split.
  - intros _. reflexivity.
  - intros receipts requests _. reflexivity.
  - cbn. intros info value. split; [discriminate|]. intros _. destruct info; exact I.
  - cbn. apply reads_basic. intros info. apply reads_storage. intros value. apply reads_block_hash. intros _.
    destruct info as [i|]; cbn; apply reads_finish; [|reflexivity]. split; reflexivity.
Qed.

Lemma sample_header_checked : header_checked sample_block sample_recovered.
Proof.
  split.
  - intros _. split; reflexivity.
  - intros receipts requests _. unfold logs_bloom_of. induction receipts as [|r receipts IH]; [reflexivity|exact IH].
Qed.

(** ** The run *)

Definition rpc_run : outcome HostError (BlockExecutionOutput * RpcDb) := run_on_rpc 1 sample_block.

(** The run succeeds, reports the changes of accounts it has looked at, and the
    input made from it fits. *)
Definition run_check : bool :=
  match rpc_run with
  | Ok (output, db) =>
      bundle_check (output_state output) rpc_bundle && recorded_check db rpc_bundle &&
      provable_check parent_world child_world rpc_bundle (get_state_requests db) &&
      codes_check (recorded_codes db)
  | _ => false
  end.

Definition input_check : bool :=
  match host_execute 129 1 with Ok i => fits_check i rpc_bundle | _ => false end.

Lemma run_checked : run_check = true.
Proof. vm_compute. reflexivity. Qed.

Lemma input_checked : input_check = true.
Proof. vm_compute. reflexivity. Qed.

Lemma rpc_run_ok :
  ∃ output db, run_on_rpc 1 sample_block = Ok (output, db) ∧ output_state output = rpc_bundle ∧
    reported_step parent_world child_world db (output_state output) ∧
    provable parent_world child_world (output_state output) (get_state_requests db) ∧ codes_apart (recorded_codes db).
Proof.
  pose proof run_checked as Hc. unfold run_check, rpc_run in Hc.
  destruct (run_on_rpc 1 sample_block) as [[output db]| | |]; try discriminate Hc.
  apply andb_prop in Hc as [Hc Hcodes]. apply andb_prop in Hc as [Hc Hprov]. apply andb_prop in Hc as [Hb Hrec].
  apply bundle_check_ok in Hb. exists output, db. rewrite Hb. split; [reflexivity|]. split; [reflexivity|]. split; [|split].
  - split.
    + split; reflexivity.
    + unfold distinct_accounts. cbn. exact (NoDup_singleton _).
    + intros e He. apply list_elem_of_singleton in He as ->. exact (NoDup_singleton _).
    + intros e He. exact (recorded_check_ok _ _ _ Hrec He).
  - exact (provable_check_ok _ _ _ _ parent_world_ok child_world_ok Hprov).
  - exact (codes_check_ok _ Hcodes).
Qed.

Lemma recording_is_complete_witness :
  ∃ a db, run_program (S:=RpcDb) (E:=RpcDbError) (execute_block () sample_block) (new_rpc_db 0) = (Ok a, db) ∧
    run_program (S:=Replay) (E:=unit) (execute_block () sample_block) (mkReplay db) = (Ok a, mkReplay db) ∧ (rd_oldest_ancestor db ≤ 0)%N.
Proof.
  destruct rpc_run_ok as (output & db & Hrun & _).
  destruct (run_on_rpc_inv 1 sample_block output db Hrun) as (recovered & Hrec & _ & Hexec & _).
  assert (recovered = sample_block) as -> by (injection Hrec as <-; reflexivity).
  exists (Ok output), db. split; [exact Hexec|].
  exact (recording_is_complete (execute_block () sample_block) 0 (Ok output) db (rules_back _ _ sample_rules) Hexec).
Defined.

Lemma host_input_accepted_witness :
  ∃ i, host_execute 129 1 = Ok i ∧ execute Mainnet i = Ok child.
Proof.
  destruct rpc_run_ok as (output & db & Hrun & Hbundle & Hstep & Hprov & Hcodes).
  destruct (host_input_accepted 129 parent_world child_world (chain_to child) 1 sample_block sample_recovered output db)
    as (i & Hhost & Hexec).
  - exact (Nat.le_refl _).
  - exact sample_setting.
  - reflexivity.
  - reflexivity.
  - exact sample_rules.
  - exact sample_header_checked.
  - exact Hrun.
  - exact Hstep.
  - exact Hprov.
  - exact Hcodes.
  - pose proof input_checked as Hfits. unfold input_check in Hfits. rewrite Hhost in Hfits.
    rewrite Hbundle in Hexec. exists i. split; [exact Hhost|exact (Hexec (fits_check_ok _ _ Hfits))].
Defined.
